(* ===== verification/_CoqProject ===== *)
-Q . S2P
Prelude.v
Bytes.v
Machine.v
Text.v
Telemetry.v
Primitives.v
ToyCrypto.v
Address.v
Message.v
Block.v
Cell.v
Boc.v
Account.v
Tree.v
Admission.v
OutQueue.v
Delivery.v
Router.v
Blocks.v
Sync.v
Consensus.v
Engine.v
Sharding.v
Economics.v
Accountability.v
Values.v
Vm.v
VmSafety.v
VmArith.v
Dictionary.v
Channels.v
Storage.v
StorageState.v
StorageRefs.v
Resharding.v
Network.v
Rldp.v
RldpTransfer.v
Dht.v
DhtLookup.v
DhtNetwork.v
Adnl.v
AdnlSession.v
NodeConfig.v
Node.v
Genesis.v
Rpc.v
ErrorText.v
Tools.v
