(* ===== verification/Prelude.v ===== *)
(** * The Open Network X: a verification library

    The repository is a Rust workspace: a sharded blockchain (crates/protocol),
    the node around it (crates/node), its tools (crates/tooling) and the system
    contracts (contracts/system). This library models it file by file and proves
    what makes each part correct, or what keeps it from being so.

    ** The program

    Bytes, integers, hashes and signatures (onx-primitives) carry addresses,
    messages and block headers (onx-data-structures). Account states are leaves of
    a shard's trie, whose nodes are cells named by their hash; cells travel as bags
    and are kept by a store of counted references behind a journal
    (onx-state-model). Messages are admitted once, queued per pair of addresses,
    routed over the hypercube of shards (onx-transactions), and executed by a stack
    machine over cells (onx-execution). Blocks follow one another under rules for
    splits and merges and are synchronised from trusted anchors (onx-blocks); an
    elected validator set finalizes them in rounds of three votes (onx-consensus);
    shards split and merge with their accounts and queues (onx-sharding); fees,
    slashing and rewards move the stake (onx-economics); channels settle off chain
    (onx-payment-channels). Nodes talk over encrypted datagrams, find each other in
    a hash table and send large payloads in coded frames (onx-networking). The
    daemon onxd starts these parts from a configuration that onx-genesis writes,
    onx-rpc answers clients, onx-cli writes their payloads.

    ** The files

    Foundations:
    - Prelude: results with aborts, loops that may fail, the tactics and hint
      databases (res, decode, len) and the list lemmas that all files share.
    - Bytes, Machine, Text: Rust's byte strings, big-endian integers and slices;
      checked, saturating and wrapping arithmetic of fixed width; UTF-8, lines,
      trimming, lossy decoding and decimal numbers.
    - Telemetry: onx-telemetry (lib.rs), with the metrics that the node reports to
      and the responses of their server.
    - Primitives: onx-primitives (bytes.rs, integers.rs, hash.rs, signature.rs,
      error.rs), with the class [Crypto] of what the code takes from its
      cryptographic crates and [CryptoLaws], their documented behaviour.
    - ToyCrypto: an instance of both, at which properties are evaluated.
    - ErrorText: what the error types of the protocol crates display.

    Protocol:
    - Address (address.rs, shard.rs), Message (message.rs), Block (block.rs):
      onx-data-structures.
    - Cell (cell.rs, error.rs), Boc (boc.rs), Account (account.rs), Tree (tree.rs):
      onx-state-model. Storage, StorageState and StorageRefs: its storage.rs - the
      journal; the operations and block commitments; the reference counts.
    - Admission (admission.rs, processed.rs, error.rs), OutQueue
      (output_queue.rs), Router (router.rs): onx-transactions. Delivery composes
      the encoding, the queue and the tracker.
    - Blocks (flags.rs, validity.rs, masterchain.rs, error.rs), Sync (sync.rs):
      onx-blocks.
    - Consensus (election.rs, lib.rs), Engine (engine.rs): onx-consensus.
    - Sharding (lib.rs, pipeline.rs): onx-sharding. Economics (lib.rs,
      slashing.rs): onx-economics. Channels (lib.rs, daemon.rs):
      onx-payment-channels. Accountability composes Consensus, Engine and
      Economics; Resharding composes Sharding and StorageState.
    - Values (types.rs), Vm (continuation.rs, interpreter.rs), Dictionary
      (dictionary.rs): onx-execution. VmSafety and VmArith hold the theorems on
      the machine.

    Node and tools:
    - Network (lib.rs), Rldp and RldpTransfer (rldp.rs), Dht, DhtLookup and
      DhtNetwork (dht_daemon.rs; the last composes daemons), Adnl and AdnlSession
      (adnl_transport.rs): onx-networking.
    - NodeConfig and Node: onxd (lib.rs, main.rs) - configuration and command
      line; the start of a node, its loop, its shutdown and its exit codes.
    - Genesis: onx-genesis (lib.rs, main.rs). Rpc: onx-rpc (lib.rs). Tools:
      onx-cli (lib.rs, main.rs) and contracts/system.

    Functions keep the names of the source; a method of a type whose name is
    taken has the type's name before it ([MerkleProof_from_bytes] for
    MerkleProof::from_bytes). A method that changes its object is a function to
    the changed object; one that may also fail gives the object and the result
    where the failure leaves a change behind, and only a result where it leaves
    none. [Ok] and [Err] are Rust's; [Panic] is an abort: an index out of range, an
    unwrap of nothing, or an overflow, since overflow checks are taken to be on.

    ** The theorems

    - Encodings are canonical: what a decoder accepts is what an encoder writes,
      no bytes abort it, and hashes bind what they hash unless SHA-256 collides
      (Address, Message, Block, Cell, Boc, Account, Tree, Adnl, Rldp, Network).
    - The trie: equal roots mean equal states; proofs verify and read back; bags
      of cells are searched for cycles completely and in bounded depth.
    - Delivery: from the sender's queue to the receiver's tracker every message
      that arrives is delivered exactly once; queues drain in order, routes are
      shortest paths that keep the value.
    - Blocks and consensus: successors are accepted exactly by the stated rules,
      the index of verified headers is anchored; an election conserves stake; an
      engine never aborts, finalizes only with a certificate of two thirds,
      and three full votes finalize a round. Final blocks that conflict in one
      round cost validators a third of the elected stake when they are slashed;
      in two rounds of one height they need no misconduct at all.
    - Sharding: a split partitions accounts and queues and a merge undoes it, also
      when the children were committed to the store and loaded from it.
    - The machine: steps keep the stack typed and gas bounded, runs end without an
      exception handler, arithmetic is exact or raises. Dictionaries refine finite
      maps, and their cells depend on the map only.
    - Storage: a commit survives a crash at any step once its journal is written
      (and need not while it is being written); a block commitment is atomic and
      replaces exactly one shard's accounts; retained cells survive any history.
    - Networking: a receiver reassembles a payload exactly when every frame has
      arrived and authenticates it by its digest; a sender never learns of it;
      sessions deliver what is sent, while the sender of a datagram stays
      unauthenticated; routing tables stay well-formed, lookups end and return
      nearest contacts and valid records; a published record is found by whoever
      knows the same nearest peer.
    - Channels and economics: histories of a channel and of its watchers; rewards
      sum to the mint.
    - Node: configurations mean their last assignments; generated configurations
      load, and nodes started from them run without aborting and without ever
      finalizing; the exit code tells a refused configuration, a failed start, an
      aborted recovery and a shutdown apart; outputs stay in the working directory;
      the gateway answers every request and limits none. The metrics read what the
      node reported, once per process.

    ** Recursion and fuel

    Loops over data are structural. The others take fuel, and a theorem shows
    that what the callers pass suffices: one more than the number of cells for the
    cycle search ([verify_dag_fuel]); 257 for the trie, which is at most 256 bits
    deep; the number of chunks of a label for [label_tail]; one more than the gas
    and the pending frames for a run of the machine without a handler
    ([run_terminates]), hence 1001 for the proof check of a channel
    ([proof_check_special]); [adjust_fuel], two more than the files and the pending
    writes, for the visit of counted cells ([adjust_safe]); the number of messages
    for draining a queue; one more than the number of contacts that can be heard of
    for a lookup ([find_node_spec], where too little fuel shows as [None]); twenty
    digits for a 64-bit number. The rounds of a sender and of the frame loop are
    the code's own bounds.

    ** Parameters

    Code outside the repository is an argument: the cryptographic crates
    ([Crypto], [Ciphers], with their laws); the DHT transport and clocks; the
    datagrams that arrive; random values; the metrics registry ([Prometheus], with
    its laws) and the spans ([Tracing]); the iteration order of hash maps; TOML,
    JSON, hexadecimal and mnemonic crates; the answers of the operating system on
    files, directories and sockets. In the store, the steps of the file system are
    atomic but for writes, and reach the disk in order; the code's missing syncs
    are recorded as a finding. Every property with hypotheses has a witness
    beside it that meets them at a concrete input.

    ** Not modelled

    - The crates outside the repository, their argument parsers, HTTP and JSON
      text included (clap, axum, serde): the requests and commands they hand over
      are the arguments of the model.
    - The scheduling of asynchronous tasks: each task is modelled alone, with what
      reaches it from outside as a list, and errors of the datagram socket apart
      from silence are left out.
    - Some display texts (errors of the state model and its store, of the
      configuration and of the start of a node), tests, fuzz targets and the .tvm
      files. *)
From Stdlib Require Import ZArith Lia.
From Stdlib Require Strings.Byte.
From stdpp Require Export base tactics numbers list countable gmap sets strings sorting.
Export ListNotations.

#[global] Open Scope Z_scope.

(** ** Fallible computations

    [Ok] and [Err] are Rust's [Result]; [Panic] is an abort of the running
    program (slice index out of range, arithmetic overflow with overflow
    checks on, [unwrap] of an absent value). *)

Inductive result (E A : Type) : Type :=
  | Ok (a : A)
  | Err (e : E)
  | Panic.
Arguments Ok {E A} a.
Arguments Err {E A} e.
Arguments Panic {E A}.

#[export] Instance result_eq_dec {E A} `{EqDecision E, EqDecision A} : EqDecision (result E A).
Proof. solve_decision. Defined.

Declare Scope res_scope.
Delimit Scope res_scope with res.
#[global] Open Scope res_scope.

Definition rbind {E A B} (m : result E A) (k : A → result E B) : result E B :=
  match m with Ok a => k a | Err e => Err e | Panic => Panic end.

Notation "'let?' x ':=' m 'in' k" := (rbind m (λ x, k))
  (at level 10, x pattern, m at level 200, k at level 200,
   format "'[v' 'let?'  x  ':='  m  'in' '/' k ']'") : res_scope.

(** [m.map_err(f)] *)
Definition map_err {E F A} (f : E → F) (m : result E A) : result F A :=
  match m with Ok a => Ok a | Err e => Err (f e) | Panic => Panic end.

(** [o.ok_or(e)] *)
Definition ok_or {E A} (o : option A) (e : E) : result E A :=
  match o with Some a => Ok a | None => Err e end.

(** [o.unwrap()] / [o.expect(..)] *)
Definition unwrap {E A} (o : option A) : result E A :=
  match o with Some a => Ok a | None => Panic end.

Definition is_ok {E A} (m : result E A) : bool :=
  match m with Ok _ => true | _ => false end.
Definition is_err {E A} (m : result E A) : bool :=
  match m with Err _ => true | _ => false end.

(** [if c { return Err(e) }] *)
Definition guard_err {E} (c : bool) (e : E) : result E unit :=
  if c then Err e else Ok tt.

(** [for x in l { s = f(x, s)?; }] *)
Fixpoint foldM {E A S} (f : A → S → result E S) (l : list A) (s : S) : result E S :=
  match l with
  | [] => Ok s
  | x :: l => rbind (f x s) (foldM f l)
  end.

(** [m] terminates without aborting. *)
Definition safe {E A} (m : result E A) : Prop := m ≠ Panic.

Section result_lemmas.
Context {E F A B : Type}.

#[export] Instance Ok_inj : Inj (=) (=) (@Ok E A).
Proof. by intros a b [= ->]. Qed.

Lemma rbind_ret (a : A) (k : A → result E B) : rbind (Ok a) k = k a.
Proof. done. Qed.

Lemma rbind_Ok (m : result E A) (k : A → result E B) b :
  rbind m k = Ok b ↔ ∃ a, m = Ok a ∧ k a = Ok b.
Proof.
  split; [destruct m; simpl; intros; try discriminate; eauto|].
  by intros (a & -> & H).
Qed.

Lemma rbind_Err (m : result E A) (k : A → result E B) e :
  rbind m k = Err e ↔ m = Err e ∨ ∃ a, m = Ok a ∧ k a = Err e.
Proof.
  split; [destruct m; simpl; intros; simplify_eq; eauto|].
  by intros [->|(a & -> & H)].
Qed.

Lemma rbind_safe (m : result E A) (k : A → result E B) :
  safe m → (∀ a, m = Ok a → safe (k a)) → safe (rbind m k).
Proof. unfold safe. destruct m; simpl; auto. Qed.

Lemma map_err_Ok (f : E → F) (m : result E A) a : map_err f m = Ok a ↔ m = Ok a.
Proof. destruct m; split; simpl; congruence. Qed.

Lemma map_err_safe (f : E → F) (m : result E A) : safe m → safe (map_err f m).
Proof. unfold safe. destruct m; simpl; congruence. Qed.

Lemma ok_or_Ok (o : option A) (e : E) a : ok_or o e = Ok a ↔ o = Some a.
Proof. destruct o; split; simpl; congruence. Qed.

Lemma ok_or_safe (o : option A) (e : E) : safe (ok_or o e).
Proof. by destruct o. Qed.

Lemma guard_err_Ok c (e : E) u : guard_err c e = Ok u ↔ c = false.
Proof. destruct c, u; split; simpl; congruence. Qed.

Lemma guard_err_safe c (e : E) : safe (guard_err c e).
Proof. by destruct c. Qed.

Lemma Ok_safe (a : A) : safe (E:=E) (Ok a).
Proof. done. Qed.

Lemma Err_safe (e : E) : safe (A:=A) (Err e).
Proof. done. Qed.

Lemma is_ok_true (m : result E A) : is_ok m = true ↔ ∃ a, m = Ok a.
Proof. destruct m; split; simpl; eauto; try discriminate; by intros []. Qed.
End result_lemmas.

(** A loop whose every step keeps [P]: [P] holds of what it returns, and it does
    not abort if no step does. *)
Lemma foldM_inv {E A S} (P : list A → S → Prop) (f : A → S → result E S) (l : list A) s s' :
  (∀ x k t t', P (x :: k) t → f x t = Ok t' → P k t') →
  P l s → foldM f l s = Ok s' → P [] s'.
Proof.
  intros Hf. revert s. induction l as [|x l IH]; intros s Hs H; simpl in H.
  { congruence. }
  apply rbind_Ok in H as (t & Ht & H). eauto.
Qed.

Lemma foldM_safe {E A S} (P : list A → S → Prop) (f : A → S → result E S) (l : list A) s :
  (∀ x k t, P (x :: k) t → safe (f x t)) →
  (∀ x k t t', P (x :: k) t → f x t = Ok t' → P k t') →
  P l s → safe (foldM f l s).
Proof.
  intros Hsafe Hf. revert s. induction l as [|x l IH]; intros s Hs; simpl; [done|].
  apply rbind_safe; eauto.
Qed.

Lemma foldM_err {E A S} (P : list A → S → Prop) (f : A → S → result E S) (l : list A) s e :
  (∀ x k t t', P (x :: k) t → f x t = Ok t' → P k t') →
  P l s → foldM f l s = Err e → ∃ x k t, P (x :: k) t ∧ f x t = Err e.
Proof.
  intros Hf. revert s. induction l as [|x l IH]; intros s Hs H; simpl in H; [done|].
  apply rbind_Err in H as [H|(t & Ht & H)]; eauto 10.
Qed.

Lemma foldM_app {E A S} (f : A → S → result E S) (l k : list A) s :
  foldM f (l ++ k) s = rbind (foldM f l s) (foldM f k).
Proof.
  revert s. induction l as [|x l IH]; intros s; [done|]. simpl.
  destruct (f x s); simpl; auto.
Qed.

(** Sorting by a key that occurs once does not depend on the order of the list. *)
Lemma merge_sort_unique {A B} (R : relation A) `{!RelDecision R, !Total R, !Transitive R}
    (key : A → B) (l l' : list A) :
  (∀ a b, R a b → R b a → key a = key b) → NoDup (key <$> l) → l ≡ₚ l' →
  merge_sort R l = merge_sort R l'.
Proof.
  intros Hkey Hnd Hp. apply (StronglySorted_unique_strong R).
  - intros a b Ha Hb Hab Hba. rewrite merge_sort_Permutation in Ha.
    rewrite merge_sort_Permutation, <-Hp in Hb. pose proof (Hkey _ _ Hab Hba) as Hk.
    apply list_elem_of_lookup in Ha as [i Hi]. apply list_elem_of_lookup in Hb as [j Hj].
    assert (i = j) as ->; [|congruence].
    apply (NoDup_lookup _ i j (key a) Hnd); rewrite list_lookup_fmap.
    + by rewrite Hi.
    + by rewrite Hj, Hk.
  - by apply StronglySorted_merge_sort.
  - by apply StronglySorted_merge_sort.
  - by rewrite !merge_sort_Permutation.
Qed.

(** Filters that keep all or nothing, and a filter with its complement *)
Lemma filter_complement_Permutation {A} (P : A → Prop) `{∀ x, Decision (P x)} (l : list A) :
  filter P l ++ filter (λ x, ¬ P x) l ≡ₚ l.
Proof.
  induction l as [|x l IH]; [done|]. rewrite !filter_cons.
  destruct (decide (P x)); [rewrite decide_False by tauto|rewrite decide_True by done].
  - cbn. by rewrite IH.
  - by rewrite <-Permutation_middle, IH.
Qed.

Lemma list_filter_all {A} (P : A → Prop) `{∀ x, Decision (P x)} (l : list A) :
  (∀ x, x ∈ l → P x) → filter P l = l.
Proof.
  induction l as [|x l IH]; intros Hl; [done|]. rewrite filter_cons, decide_True by (apply Hl; constructor).
  by rewrite IH by (intros; apply Hl; by constructor).
Qed.

Lemma list_filter_none {A} (P : A → Prop) `{∀ x, Decision (P x)} (l : list A) :
  (∀ x, x ∈ l → ¬ P x) → filter P l = [].
Proof.
  induction l as [|x l IH]; intros Hl; [done|]. rewrite filter_cons, decide_False by (apply Hl; constructor).
  by rewrite IH by (intros; apply Hl; by constructor).
Qed.

(** A loop that only checks *)
Lemma foldM_check {E A} (f : A → unit → result E unit) (l : list A) :
  foldM f l tt = Ok tt ↔ Forall (λ x, f x tt = Ok tt) l.
Proof.
  induction l as [|x l IH]; simpl; [by split; [constructor|]|]. rewrite Forall_cons, <-IH.
  destruct (f x tt) as [[]|e|]; simpl; naive_solver.
Qed.

Create HintDb res discriminated.
#[export] Hint Resolve map_err_safe ok_or_safe guard_err_safe Ok_safe Err_safe : res.
#[export] Hint Extern 1 (safe (if ?b then _ else _)) => destruct b eqn:? : res.

(** Inversion of a successful (or failing) chain of [let?]s in a hypothesis. *)
Ltac res_inv1 :=
  match goal with
  | H : rbind _ _ = Ok _ |- _ => apply rbind_Ok in H as (? & ? & H)
  | H : map_err _ _ = Ok _ |- _ => apply map_err_Ok in H
  | H : ok_or _ _ = Ok _ |- _ => apply ok_or_Ok in H
  | H : guard_err _ _ = Ok _ |- _ => apply guard_err_Ok in H
  | H : Ok _ = Ok _ |- _ => injection H as H
  | H : (if ?b then Err _ else _) = Ok _ |- _ => destruct b eqn:?; [discriminate H|]
  | H : (if ?b then _ else Err _) = Ok _ |- _ => destruct b eqn:?; [|discriminate H]
  | H : (if ?b then Panic else _) = Ok _ |- _ => destruct b eqn:?; [discriminate H|]
  end.
Ltac res_inv := repeat res_inv1; simplify_eq.

(** Panic-freedom of a chain: one goal per step the hint database leaves. *)
Ltac safe_step :=
  match goal with
  | |- safe (rbind _ _) => apply rbind_safe; [|intros ? ?]
  | |- safe (if ?b then _ else _) => destruct b eqn:?
  | |- safe (let '(_, _) := ?p in _) => destruct p eqn:?
  | |- safe (match ?o with _ => _ end) => destruct o eqn:?
  | |- safe _ => solve [eauto with res]
  end.

Lemma StronglySorted_lookup {A} (R : A → A → Prop) (l : list A) :
  StronglySorted R l ↔ ∀ i j x y, (i < j)%nat → l !! i = Some x → l !! j = Some y → R x y.
Proof.
  split.
  - induction 1 as [|a l _ IH Ha]; intros i j x y Hij Hi Hj; [done|].
    destruct j as [|j]; [lia|]. cbn in Hj. destruct i as [|i]; cbn in Hi.
    + simplify_eq. rewrite Forall_lookup in Ha. eauto.
    + apply (IH i j); [lia|done..].
  - induction l as [|a l IH]; intros H; constructor.
    + apply IH. intros i j x y Hij Hi Hj. apply (H (S i) (S j)); [lia|done..].
    + apply Forall_lookup. intros j y Hj. apply (H O (S j)); [lia|done..].
Qed.

(** ** [Iterator::min_by_key]: the first of the least elements *)

Definition min_by_key {A} (f : A → Z) (l : list A) : option A :=
  match l with
  | [] => None
  | x :: l => Some (foldl (λ best y, if f y <? f best then y else best) x l)
  end.

Lemma min_by_key_foldl {A} (f : A → Z) l (x : A) :
  let z := foldl (λ best y, if f y <? f best then y else best) x l in
  z ∈ x :: l ∧ f z ≤ f x ∧ Forall (λ y, f z ≤ f y) l.
Proof.
  revert x. induction l as [|y l IH]; intros x; cbn.
  { split_and!; [by constructor|done|done]. }
  set (b := if f y <? f x then y else x). destruct (IH b) as (Hin & Hle & Hall).
  assert (f b ≤ f x ∧ f b ≤ f y) as [Hx Hy] by (unfold b; destruct (Z.ltb_spec (f y) (f x)); lia).
  split_and!; [|lia|constructor; [lia|done]].
  apply elem_of_cons in Hin as [->|?]; [|set_solver]. unfold b. destruct (_ <? _); set_solver.
Qed.

Lemma min_by_key_Some {A} (f : A → Z) l x :
  min_by_key f l = Some x → x ∈ l ∧ Forall (λ y, f x ≤ f y) l.
Proof.
  destruct l as [|y l]; [done|]. intros [= <-]. destruct (min_by_key_foldl f l y) as (? & ? & ?).
  split; [done|]. by constructor.
Qed.

Lemma min_by_key_None {A} (f : A → Z) l : min_by_key f l = None ↔ l = [].
Proof. by destruct l. Qed.

Lemma min_by_key_ext {A} (f g : A → Z) l : (∀ x, f x = g x) → min_by_key f l = min_by_key g l.
Proof.
  intros Hfg. destruct l as [|x l]; [done|]. cbn. f_equal. revert x.
  induction l as [|y l IH]; intros x; [done|]. cbn. by rewrite !Hfg, IH.
Qed.

Lemma min_by_key_fmap {A B} (f : B → Z) (g : A → B) l :
  min_by_key f (g <$> l) = g <$> min_by_key (f ∘ g) l.
Proof.
  destruct l as [|x l]; [done|]. cbn. f_equal. revert x.
  induction l as [|y l IH]; intros x; [done|]. cbn. rewrite <-IH. by destruct (_ <? _).
Qed.

(** Runs the first steps of a chain of [let?]s: [decode] holds the equations
    [m = Ok v] of the steps that succeed. *)
Create HintDb decode discriminated.
Ltac bind_simpl := repeat (rewrite rbind_ret; cbv beta iota).
Ltac bind_step :=
  match goal with
  | |- context [rbind ?m ?k] =>
      let H := fresh "Hstep" in
      eassert (m = Ok _) as H by (solve [eauto with decode nocore]);
      rewrite H; clear H; bind_simpl
  end.

(** Boolean tests of the code as propositions. *)
Ltac bool_to_prop :=
  repeat match goal with
  | H : (_ && _)%bool = true |- _ => apply andb_true_iff in H as [? ?]
  | H : (_ || _)%bool = false |- _ => apply orb_false_iff in H as [? ?]
  | H : negb _ = true |- _ => apply negb_true_iff in H
  | H : negb _ = false |- _ => apply negb_false_iff in H
  | H : (_ <? _) = true |- _ => apply Z.ltb_lt in H
  | H : (_ <? _) = false |- _ => apply Z.ltb_ge in H
  | H : (_ <=? _) = true |- _ => apply Z.leb_le in H
  | H : (_ <=? _) = false |- _ => apply Z.leb_gt in H
  | H : (_ >? _) = _ |- _ => rewrite Z.gtb_ltb in H
  | H : (_ >=? _) = _ |- _ => rewrite Z.geb_leb in H
  | H : (_ =? _) = true |- _ => apply Z.eqb_eq in H
  | H : (_ =? _) = false |- _ => apply Z.eqb_neq in H
  | H : bool_decide _ = true |- _ => apply bool_decide_eq_true in H
  | H : bool_decide _ = false |- _ => apply bool_decide_eq_false in H
  end.
