(* ===== verification/Bytes.v ===== *)
(** Byte strings, big-endian integers and machine-width arithmetic: what the
    code uses of Rust's primitive types. *)
From S2P Require Import Prelude.

Abbreviation byte := Byte.byte.
Abbreviation bytes := (list Byte.byte).

(** ** Bytes *)

Definition byte_val (b : byte) : Z := Z.of_N (Byte.to_N b).

Definition byte_of (z : Z) : byte :=
  match Byte.of_N (Z.to_N (z mod 256)) with Some b => b | None => Byte.x00 end.

Lemma byte_val_bound b : 0 ≤ byte_val b < 256.
Proof. unfold byte_val. pose proof (Byte.to_N_bounded b). lia. Qed.

Lemma byte_of_val b : byte_of (byte_val b) = b.
Proof.
  unfold byte_of. rewrite Z.mod_small by apply byte_val_bound.
  unfold byte_val. by rewrite N2Z.id, Byte.of_to_N.
Qed.

Lemma byte_val_of z : byte_val (byte_of z) = z mod 256.
Proof.
  unfold byte_of. pose proof (Z.mod_pos_bound z 256 ltac:(lia)) as Hz.
  destruct (Byte.of_N _) as [b|] eqn:Hb.
  - apply Byte.to_of_N in Hb. unfold byte_val. rewrite Hb. lia.
  - apply Byte.of_N_None_iff in Hb. lia.
Qed.

Lemma byte_of_mod z : byte_of (z mod 256) = byte_of z.
Proof. unfold byte_of. by rewrite Z.mod_mod by lia. Qed.

#[export] Instance byte_val_inj : Inj (=) (=) byte_val.
Proof. intros a b Hab. by rewrite <-(byte_of_val a), Hab, byte_of_val. Qed.

#[export] Instance byte_eq_dec : EqDecision byte.
Proof.
  intros a b. destruct (decide (byte_val a = byte_val b)) as [H|H].
  - left. by apply (inj byte_val).
  - right. by intros ->.
Defined.

#[export] Instance byte_countable : Countable byte.
Proof.
  apply (inj_countable' byte_val byte_of byte_of_val).
Defined.

(** ** Lengths and slices *)

(** [v.len()] *)
Definition len {A} (l : list A) : Z := Z.of_nat (length l).

Arguments len : simpl never.

Lemma len_nonneg {A} (l : list A) : 0 ≤ len l.
Proof. unfold len. lia. Qed.
Lemma len_app {A} (l k : list A) : len (l ++ k) = len l + len k.
Proof. unfold len. rewrite length_app. lia. Qed.
Lemma len_cons {A} (x : A) l : len (x :: l) = 1 + len l.
Proof. unfold len. simpl. lia. Qed.
Lemma len_nil {A} : len (@nil A) = 0.
Proof. done. Qed.
Lemma len_map {A B} (f : A → B) l : len (f <$> l) = len l.
Proof. unfold len. by rewrite length_fmap. Qed.
Lemma len_0_nil {A} (l : list A) : len l = 0 → l = [].
Proof. unfold len. intros. apply nil_length_inv. lia. Qed.
Lemma len_Permutation {A} (l k : list A) : l ≡ₚ k → len l = len k.
Proof. unfold len. by intros ->. Qed.
Lemma to_nat_len {A} (l : list A) : Z.to_nat (len l) = length l.
Proof. unfold len. lia. Qed.
Lemma len_1_inv {A} (l : list A) : len l = 1 → ∃ x, l = [x].
Proof. unfold len. destruct l as [|x []]; simpl; intros; [lia|eauto|lia]. Qed.
Create Rewrite HintDb len.
#[export] Hint Rewrite @len_app @len_cons @len_nil @len_map : len.
#[export] Hint Resolve len_nonneg : core.

(** [&v[i..j]]: aborts unless [i <= j <= v.len()]. *)
Definition slice {E A} (l : list A) (i j : Z) : result E (list A) :=
  if (0 <=? i) && (i <=? j) && (j <=? len l)
  then Ok (take (Z.to_nat (j - i)) (drop (Z.to_nat i) l))
  else Panic.

(** [v[i]] *)
Definition index {E A} (l : list A) (i : Z) : result E A :=
  if 0 <=? i then unwrap (l !! Z.to_nat i) else Panic.

Section slice_lemmas.
Context {E A : Type}.
Implicit Types l k : list A.

Lemma slice_Ok l i j :
  0 ≤ i ≤ j → j ≤ len l →
  slice (E:=E) l i j = Ok (take (Z.to_nat (j - i)) (drop (Z.to_nat i) l)).
Proof.
  intros [? ?] ?. unfold slice.
  by rewrite !(proj2 (Z.leb_le _ _)) by lia.
Qed.

Lemma slice_safe l i j : 0 ≤ i ≤ j → j ≤ len l → safe (slice (E:=E) l i j).
Proof. intros. by rewrite slice_Ok. Qed.

Lemma slice_inv l i j s :
  slice (E:=E) l i j = Ok s → 0 ≤ i ≤ j ∧ j ≤ len l ∧ len s = j - i.
Proof.
  unfold slice. intros H. case_match; [|done]. bool_to_prop. simplify_eq.
  split_and!; [lia..|]. unfold len in *.
  rewrite length_take, length_drop. lia.
Qed.

Lemma slice_all l i j : i = 0 → j = len l → slice (E:=E) l i j = Ok l.
Proof.
  intros -> ->. rewrite slice_Ok by (pose proof (len_nonneg l); lia).
  unfold len. by rewrite Z.sub_0_r, Nat2Z.id, drop_0, take_ge.
Qed.

Lemma slice_app_l l k i j : i = 0 → j = len l → slice (E:=E) (l ++ k) i j = Ok l.
Proof.
  intros -> ->. pose proof (len_nonneg l). pose proof (len_nonneg k).
  rewrite slice_Ok by (rewrite ?len_app; lia).
  unfold len. by rewrite Z.sub_0_r, Nat2Z.id, drop_0, take_app_length.
Qed.

Lemma slice_app_r l k i j :
  len l ≤ i → slice (E:=E) (l ++ k) i j = slice (E:=E) k (i - len l) (j - len l).
Proof.
  intros Hi. unfold slice. pose proof (len_nonneg l). rewrite len_app.
  replace (0 <=? i) with true by lia.
  replace (0 <=? i - len l) with true by lia.
  replace (i - len l <=? j - len l) with (i <=? j) by lia.
  replace (j - len l <=? len k) with (j <=? len l + len k) by lia.
  destruct (i <=? j); [|done]. destruct (j <=? len l + len k); [|done]. simpl.
  f_equal. f_equal; [lia|].
  replace (Z.to_nat i) with (length l + Z.to_nat (i - len l))%nat
    by (unfold len in *; lia).
  by rewrite drop_app_add.
Qed.
End slice_lemmas.

Lemma index_head {E A} (x : A) l : index (E:=E) ([x] ++ l) 0 = Ok x.
Proof. done. Qed.

Lemma index_safe {E A} (l : list A) i : 0 ≤ i < len l → safe (index (E:=E) l i).
Proof.
  intros Hi. unfold index. rewrite (proj2 (Z.leb_le _ _)) by lia.
  destruct (lookup_lt_is_Some_2 l (Z.to_nat i)) as [x ->]; [unfold len in *; lia|done].
Qed.

(** Evaluates slices of a concatenation whose pieces have known lengths. *)
Ltac slice_simpl :=
  repeat first
    [ rewrite slice_app_l by (autorewrite with len; lia)
    | rewrite slice_all by (autorewrite with len; lia)
    | rewrite slice_app_r by (autorewrite with len; lia) ].

#[export] Hint Resolve index_head : decode.
#[export] Hint Extern 1 (safe (slice _ _ _)) => apply slice_safe; lia : res.
#[export] Hint Extern 1 (safe (index _ _)) => apply index_safe; lia : res.
#[export] Hint Extern 1 (len _ = _) => autorewrite with len; lia : decode.

(** Runs a decoder on an encoding: slices, decoding steps, binds. *)
Ltac decode_step :=
  first
    [ rewrite rbind_ret; cbv beta iota
    | rewrite slice_app_l by (autorewrite with len; lia)
    | rewrite slice_all by (autorewrite with len; lia)
    | rewrite slice_app_r by (autorewrite with len; lia)
    | bind_step ].
Ltac decode_simpl := repeat decode_step.

(** Cuts [bs] after its first [n] elements. *)
Lemma split_at_len {A} (bs : list A) n :
  0 ≤ n ≤ len bs → ∃ a b, bs = a ++ b ∧ len a = n.
Proof.
  intros Hn. exists (take (Z.to_nat n) bs), (drop (Z.to_nat n) bs).
  rewrite take_drop. split; [done|]. unfold len in *. rewrite length_take. lia.
Qed.

(** ** Big-endian integers *)

(** [v.to_be_bytes()] for an [n]-byte integer, signed or not. *)
Fixpoint be_bytes (n : nat) (v : Z) : bytes :=
  match n with
  | O => []
  | S n => byte_of (v / 256 ^ Z.of_nat n) :: be_bytes n v
  end.

(** [uN::from_be_bytes(bs)] *)
Definition be_val (bs : bytes) : Z :=
  foldl (λ acc b, acc * 256 + byte_val b) 0 bs.

Lemma length_be_bytes n v : length (be_bytes n v) = n.
Proof. induction n; simpl; congruence. Qed.
Lemma len_be_bytes n v : len (be_bytes n v) = Z.of_nat n.
Proof. unfold len. by rewrite length_be_bytes. Qed.
#[export] Hint Rewrite len_be_bytes : len.

Lemma be_val_acc bs : ∀ acc,
  foldl (λ acc b, acc * 256 + byte_val b) acc bs = acc * 256 ^ len bs + be_val bs.
Proof.
  unfold be_val. induction bs as [|b bs IH]; intros acc; simpl.
  - rewrite len_nil, Z.pow_0_r. lia.
  - rewrite IH, (IH (0 * 256 + byte_val b)), len_cons, Z.pow_add_r by (auto; lia). lia.
Qed.

Lemma be_val_cons b bs : be_val (b :: bs) = byte_val b * 256 ^ len bs + be_val bs.
Proof. unfold be_val at 1. simpl. by rewrite be_val_acc. Qed.

Lemma be_val_app a b : be_val (a ++ b) = be_val a * 256 ^ len b + be_val b.
Proof. unfold be_val at 1. rewrite foldl_app, be_val_acc. done. Qed.

Lemma be_val_bound bs : 0 ≤ be_val bs < 256 ^ len bs.
Proof.
  induction bs as [|b bs IH].
  - by cbv.
  - rewrite be_val_cons, len_cons, Z.pow_add_r by (auto; lia).
    pose proof (byte_val_bound b). nia.
Qed.

Lemma be_val_be_bytes n v : be_val (be_bytes n v) = v mod 256 ^ Z.of_nat n.
Proof.
  induction n as [|n IH].
  - simpl. by rewrite Z.mod_1_r.
  - cbn [be_bytes]. rewrite be_val_cons, IH, len_be_bytes, byte_val_of.
    rewrite Nat2Z.inj_succ, Z.pow_succ_r by lia.
    assert (0 < 256 ^ Z.of_nat n) by lia.
    rewrite (Z.mul_comm 256), Z.rem_mul_r by lia. lia.
Qed.

Lemma be_bytes_be_val bs : be_bytes (length bs) (be_val bs) = bs.
Proof.
  assert (∀ n k v, be_bytes n (k * 256 ^ Z.of_nat n + v) = be_bytes n v) as Hk.
  { induction n as [|n IH]; intros k v; [done|]. cbn [be_bytes].
    rewrite Nat2Z.inj_succ, Z.pow_succ_r by lia.
    assert (0 < 256 ^ Z.of_nat n) by lia. f_equal.
    - replace (k * (256 * 256 ^ Z.of_nat n) + v)
        with (v + (k * 256) * 256 ^ Z.of_nat n) by ring.
      rewrite Z.div_add by lia. rewrite <-byte_of_mod, Z.mod_add by lia.
      apply byte_of_mod.
    - rewrite Z.mul_assoc. apply IH. }
  induction bs as [|b bs IH]; [done|]. cbn [be_bytes length].
  rewrite be_val_cons. fold (len bs).
  assert (0 < 256 ^ len bs) by (apply Z.pow_pos_nonneg; auto; lia). f_equal.
  - rewrite Z.div_add_l by lia. pose proof (be_val_bound bs).
    rewrite Z.div_small by lia. rewrite Z.add_0_r. apply byte_of_val.
  - unfold len. by rewrite Hk.
Qed.

Lemma be_bytes_inj n v w :
  be_bytes n v = be_bytes n w → v mod 256 ^ Z.of_nat n = w mod 256 ^ Z.of_nat n.
Proof. intros H. by rewrite <-!be_val_be_bytes, H. Qed.

Lemma be_val_inj a b : len a = len b → be_val a = be_val b → a = b.
Proof.
  intros Hl Hv. rewrite <-(be_bytes_be_val a), <-(be_bytes_be_val b), Hv.
  f_equal. unfold len in Hl. lia.
Qed.
