(* ===== verification/Machine.v ===== *)
(** Machine-width integer operations of Rust as the code uses them: [uW] and
    [iW] values are [Z]s in range, and every operation writes out what happens
    at the boundary (checked, saturating, wrapping, or aborting). *)
From S2P Require Import Prelude.

Definition in_u (w z : Z) : Prop := 0 ≤ z < 2 ^ w.
Definition in_i (w z : Z) : Prop := - 2 ^ (w - 1) ≤ z < 2 ^ (w - 1).

#[export] Instance in_u_dec w z : Decision (in_u w z).
Proof. unfold in_u. apply _. Defined.
#[export] Instance in_i_dec w z : Decision (in_i w z).
Proof. unfold in_i. apply _. Defined.

Definition u16_max : Z := 2 ^ 16 - 1.
Definition u32_max : Z := 2 ^ 32 - 1.
Definition u64_max : Z := 2 ^ 64 - 1.
Definition u128_max : Z := 2 ^ 128 - 1.
Definition i128_min : Z := - 2 ^ 127.
Definition i128_max : Z := 2 ^ 127 - 1.

(** [a as uW] *)
Definition as_u (w z : Z) : Z := z mod 2 ^ w.

(** [a as iW]: two's complement reinterpretation of the low [w] bits *)
Definition as_i (w z : Z) : Z := (z + 2 ^ (w - 1)) mod 2 ^ w - 2 ^ (w - 1).

Definition checked_add_u (w a b : Z) : option Z :=
  if a + b <? 2 ^ w then Some (a + b) else None.
Definition checked_sub_u (a b : Z) : option Z :=
  if b <=? a then Some (a - b) else None.
Definition checked_mul_u (w a b : Z) : option Z :=
  if a * b <? 2 ^ w then Some (a * b) else None.
Definition saturating_add_u (w a b : Z) : Z := Z.min (a + b) (2 ^ w - 1).
Definition saturating_sub_u (a b : Z) : Z := Z.max 0 (a - b).
Definition saturating_mul_u (w a b : Z) : Z := Z.min (a * b) (2 ^ w - 1).
Definition wrapping_add_u (w a b : Z) : Z := (a + b) mod 2 ^ w.

(** [a + b], [a - b] and [a * b] with overflow checks on *)
Definition add_u {E} (w a b : Z) : result E Z := unwrap (checked_add_u w a b).
Definition sub_u {E} (a b : Z) : result E Z := unwrap (checked_sub_u a b).
Definition mul_u {E} (w a b : Z) : result E Z := unwrap (checked_mul_u w a b).

(** Checked signed arithmetic: [None] outside [iW]. *)
Definition fit_i (w z : Z) : option Z :=
  if (- 2 ^ (w - 1) <=? z) && (z <? 2 ^ (w - 1)) then Some z else None.

(** [u64] bit operations; every shift amount in the code is below 64. *)
Definition shl64 (a n : Z) : Z := Z.shiftl a n mod 2 ^ 64.
Definition not64 (a : Z) : Z := 2 ^ 64 - 1 - a.

(** [v.count_ones()] of a [w]-bit value *)
Definition count_ones (w v : Z) : Z :=
  Z.of_nat (length (filter (λ i, Z.testbit v i = true) (seqZ 0 w))).

(** [v.trailing_zeros()] of a non-zero value *)
Fixpoint pos_trailing_zeros (p : positive) : Z :=
  match p with xO q => 1 + pos_trailing_zeros q | _ => 0 end.
Definition trailing_zeros (v : Z) : Z :=
  match v with Z.pos p => pos_trailing_zeros p | _ => 0 end.

Section machine_lemmas.
Implicit Types w a b z : Z.

Lemma as_u_bound w z : 0 ≤ w → in_u w (as_u w z).
Proof. intros. apply Z.mod_pos_bound. lia. Qed.

Lemma as_u_id w z : in_u w z → as_u w z = z.
Proof. apply Z.mod_small. Qed.

Lemma as_i_id w z : 0 < w → in_i w z → as_i w z = z.
Proof.
  intros Hw [H1 H2]. unfold as_i.
  assert (2 ^ w = 2 * 2 ^ (w - 1)) as Hp
    by (rewrite <-Z.pow_succ_r by lia; f_equal; lia).
  rewrite Z.mod_small; lia.
Qed.

Lemma as_i_bound w z : 0 < w → in_i w (as_i w z).
Proof.
  intros Hw. unfold as_i, in_i.
  assert (2 ^ w = 2 * 2 ^ (w - 1)) as Hp
    by (rewrite <-Z.pow_succ_r by lia; f_equal; lia).
  pose proof (Z.mod_pos_bound (z + 2 ^ (w - 1)) (2 ^ w)). lia.
Qed.

Lemma as_i_mod w z : 0 < w → as_i w z mod 2 ^ w = z mod 2 ^ w.
Proof.
  intros. unfold as_i. rewrite Zminus_mod_idemp_l. f_equal. lia.
Qed.

Lemma checked_add_u_Some w a b c :
  checked_add_u w a b = Some c ↔ c = a + b ∧ a + b < 2 ^ w.
Proof. unfold checked_add_u. case_match; bool_to_prop; naive_solver lia. Qed.

Lemma checked_sub_u_Some a b c :
  checked_sub_u a b = Some c ↔ c = a - b ∧ b ≤ a.
Proof. unfold checked_sub_u. case_match; bool_to_prop; naive_solver lia. Qed.

Lemma add_u_ok {E} w a b : a + b < 2 ^ w → add_u (E:=E) w a b = Ok (a + b).
Proof. intros. unfold add_u, checked_add_u. by rewrite (proj2 (Z.ltb_lt _ _)). Qed.

Lemma sub_u_ok {E} a b : b ≤ a → sub_u (E:=E) a b = Ok (a - b).
Proof. intros. unfold sub_u, checked_sub_u. by rewrite (proj2 (Z.leb_le _ _)). Qed.

Lemma mul_u_ok {E} w a b : a * b < 2 ^ w → mul_u (E:=E) w a b = Ok (a * b).
Proof. intros. unfold mul_u, checked_mul_u. by rewrite (proj2 (Z.ltb_lt _ _)). Qed.

Lemma checked_mul_u_Some w a b c :
  checked_mul_u w a b = Some c ↔ c = a * b ∧ a * b < 2 ^ w.
Proof. unfold checked_mul_u. case_match; bool_to_prop; naive_solver lia. Qed.

Lemma checked_mul_u_ok {E} w a b (e : E) :
  a * b < 2 ^ w → ok_or (checked_mul_u w a b) e = Ok (a * b).
Proof. intros. apply ok_or_Ok, checked_mul_u_Some. done. Qed.

Lemma checked_add_u_ok {E} w a b (e : E) :
  a + b < 2 ^ w → ok_or (checked_add_u w a b) e = Ok (a + b).
Proof. intros. apply ok_or_Ok, checked_add_u_Some. done. Qed.

Lemma fit_i_Some w z c : fit_i w z = Some c ↔ c = z ∧ in_i w z.
Proof.
  unfold fit_i, in_i. case_match; bool_to_prop; [naive_solver lia|].
  split; [done|]. intros [-> ?].
  match goal with H : (_ && _)%bool = false |- _ => apply andb_false_iff in H as [?|?] end;
    bool_to_prop; lia.
Qed.
End machine_lemmas.

#[export] Hint Resolve checked_mul_u_ok checked_add_u_ok : decode.
#[export] Hint Extern 1 (_ < _) => lia : decode.

(** ** The lowest set bit *)

Lemma trailing_zeros_spec v :
  0 < v → 0 ≤ trailing_zeros v ∧ ∃ k, 0 ≤ k ∧ v = (2 * k + 1) * 2 ^ trailing_zeros v.
Proof.
  destruct v as [|p|p]; [lia| |lia]. intros _. simpl.
  induction p as [p _|p [IH1 (k & Hk & IH2)]|]; cbn [pos_trailing_zeros].
  - split; [lia|]. exists (Z.pos p). lia.
  - split; [lia|]. exists k. split; [done|].
    rewrite Z.pow_add_r by lia. rewrite Pos2Z.inj_xO, IH2 at 1. ring.
  - split; [lia|]. exists 0. lia.
Qed.

Lemma trailing_zeros_bound v w : 0 < v < 2 ^ w → trailing_zeros v < w.
Proof.
  intros [Hv Hw]. destruct (trailing_zeros_spec v Hv) as (Hn & k & Hk & Heq).
  apply (Z.pow_lt_mono_r_iff 2); [lia| |].
  - destruct (decide (0 ≤ w)); [done|]. rewrite (Z.pow_neg_r 2 w) in Hw; lia.
  - assert (0 < 2 ^ trailing_zeros v) by lia. nia.
Qed.

Lemma trailing_zeros_shift k n :
  0 ≤ k → 0 ≤ n → trailing_zeros ((2 * k + 1) * 2 ^ n) = n.
Proof.
  intros Hk Hn. set (v := (2 * k + 1) * 2 ^ n).
  assert (0 < 2 ^ n) by lia. assert (0 < v) by (unfold v; nia).
  destruct (trailing_zeros_spec v ltac:(done)) as (Hm & j & Hj & Heq).
  set (m := trailing_zeros v) in *. unfold v in Heq.
  destruct (Z.lt_trichotomy m n) as [Hlt|[?|Hlt]]; [|done|].
  - replace n with ((n - m - 1) + 1 + m) in Heq by lia.
    rewrite !Z.pow_add_r in Heq by lia. assert (0 < 2 ^ m) by lia.
    assert ((2 * k + 1) * (2 ^ (n - m - 1) * 2 ^ 1) = 2 * j + 1) by nia. lia.
  - replace m with ((m - n - 1) + 1 + n) in Heq by lia.
    rewrite !Z.pow_add_r in Heq by lia.
    assert (2 * k + 1 = (2 * j + 1) * (2 ^ (m - n - 1) * 2 ^ 1)) by nia. lia.
Qed.

(** ** Prefix masks: [(!0u64) << (64 - len)] keeps the top [len] bits *)

Lemma ones64_shl_testbit n i :
  0 ≤ n → 0 ≤ i → Z.testbit (shl64 (not64 0) n) i = (n <=? i) && (i <? 64).
Proof.
  intros Hn Hi. unfold shl64, not64.
  replace (2 ^ 64 - 1 - 0) with (Z.ones 64) by done.
  destruct (Z.ltb_spec i 64).
  - rewrite Z.mod_pow2_bits_low, Z.shiftl_spec by lia.
    destruct (Z.leb_spec n i); simpl.
    + apply Z.ones_spec_low. lia.
    + apply Z.testbit_neg_r. lia.
  - rewrite Z.mod_pow2_bits_high by lia. by rewrite andb_false_r.
Qed.

Lemma land_prefix_mask v n :
  0 ≤ n → in_u 64 v → Z.land v (shl64 (not64 0) n) = v / 2 ^ n * 2 ^ n.
Proof.
  intros Hn Hv. apply Z.bits_inj'. intros i Hi.
  rewrite Z.land_spec, ones64_shl_testbit by done.
  rewrite <-Z.shiftr_div_pow2, <-Z.shiftl_mul_pow2, Z.shiftl_spec by lia.
  destruct (Z.leb_spec n i).
  - rewrite Z.shiftr_spec by lia. replace (i - n + n) with i by lia.
    destruct (Z.ltb_spec i 64); simpl; [by rewrite andb_true_r|].
    rewrite andb_false_r. symmetry. rewrite <-(as_u_id 64 v Hv).
    apply Z.mod_pow2_bits_high. lia.
  - rewrite (Z.testbit_neg_r _ (i - n)) by lia. by rewrite andb_false_r.
Qed.

Lemma land_mask_zero v : Z.land v 0 = 0.
Proof. apply Z.land_0_r. Qed.

(** Adding a bit that is clear *)
Lemma lor_marker a n : 0 ≤ n → Z.lor (a * 2 ^ (n + 1)) (2 ^ n) = (2 * a + 1) * 2 ^ n.
Proof.
  intros Hn. rewrite <-Z.add_nocarry_lor; [rewrite Z.pow_add_r by lia; ring|].
  apply Z.bits_inj'. intros i Hi. rewrite Z.land_spec, Z.bits_0.
  rewrite Z.pow2_bits_eqb by lia. destruct (Z.eqb_spec n i); [subst|by rewrite andb_false_r].
  by rewrite <-Z.shiftl_mul_pow2, Z.shiftl_spec, Z.testbit_neg_r by lia.
Qed.

Lemma shl64_1 n : 0 ≤ n < 64 → shl64 1 n = 2 ^ n.
Proof.
  intros. unfold shl64. rewrite Z.shiftl_1_l. apply Z.mod_small.
  split; [lia|]. apply Z.pow_lt_mono_r; lia.
Qed.

(** Two values agree above bit [n] iff their bits from [n] up are equal. *)
Lemma div_pow2_eq_bits u v n :
  0 ≤ n → u / 2 ^ n = v / 2 ^ n ↔ ∀ i, n ≤ i → Z.testbit u i = Z.testbit v i.
Proof.
  intros Hn. rewrite <-!Z.shiftr_div_pow2 by done. split.
  - intros H i Hi. pose proof (f_equal (λ z, Z.testbit z (i - n)) H) as Hb. simpl in Hb.
    rewrite !Z.shiftr_spec in Hb by lia. by replace (i - n + n) with i in Hb by lia.
  - intros H. apply Z.bits_inj'. intros i Hi. rewrite !Z.shiftr_spec by lia. apply H. lia.
Qed.

(** Boolean and propositional comparison of scaled values *)
Lemma eqb_mul_pow2 a b n :
  0 ≤ n → (a * 2 ^ n =? b * 2 ^ n) = bool_decide (b = a).
Proof.
  intros. assert (0 < 2 ^ n) by lia. apply eq_true_iff_eq.
  rewrite Z.eqb_eq, bool_decide_eq_true. nia.
Qed.

Lemma testbit_high w v i : in_u w v → 0 ≤ w ≤ i → Z.testbit v i = false.
Proof.
  intros Hv Hi. rewrite <-(as_u_id w v Hv). apply Z.mod_pow2_bits_high. lia.
Qed.

(** Exclusive or of scaled and of bounded values *)
Lemma lxor_pow2_mul a b k n : 0 ≤ n → Z.lxor (a * 2 ^ n) (b * 2 ^ n) = k * 2 ^ n ↔ Z.lxor a b = k.
Proof.
  intros Hn. rewrite <-!Z.shiftl_mul_pow2, <-Z.shiftl_lxor by lia.
  rewrite !Z.shiftl_mul_pow2 by lia. assert (0 < 2 ^ n) by lia. nia.
Qed.

Lemma lxor_bound n a b : 0 ≤ n → in_u n a → in_u n b → in_u n (Z.lxor a b).
Proof.
  intros Hn Ha Hb. rewrite <-(as_u_id n a Ha), <-(as_u_id n b Hb). unfold as_u.
  rewrite <-!Z.land_ones by lia.
  assert (Z.lxor (Z.land a (Z.ones n)) (Z.land b (Z.ones n)) = Z.land (Z.lxor a b) (Z.ones n)) as ->.
  { apply Z.bits_inj'. intros i Hi. rewrite !Z.lxor_spec, !Z.land_spec, Z.lxor_spec.
    by destruct (Z.testbit a i), (Z.testbit b i), (Z.testbit (Z.ones n) i). }
  rewrite Z.land_ones by lia. apply as_u_bound. lia.
Qed.

Lemma lor_bound n a b : 0 ≤ n → in_u n a → in_u n b → in_u n (Z.lor a b).
Proof.
  intros Hn Ha Hb. rewrite <-(as_u_id n a Ha), <-(as_u_id n b Hb). unfold as_u.
  rewrite <-!Z.land_ones, <-Z.land_lor_distr_l, Z.land_ones by lia. apply as_u_bound. lia.
Qed.
