(* ===== verification/Text.v ===== *)
(** Text, as the code uses it of Rust's standard library: UTF-8 strings as their
    bytes, lines and separators, trimming, and decimal numbers. *)
From S2P Require Import Prelude Bytes Machine.

(** A string literal *)
Abbreviation str := String.list_byte_of_string.

(** ** Lines and separators *)

(** [str::lines] *)
Fixpoint lines (v : bytes) : list bytes :=
  match v with
  | [] => []
  | b :: r =>
      if bool_decide (b = Byte.x0a) then [] :: lines r
      else if bool_decide (b = Byte.x0d ∧ head r = Some Byte.x0a) then lines r
      else match lines r with
           | [] => [[b]]
           | l :: ls => (b :: l) :: ls
           end
  end.

(** [str::split_once] at a one-byte separator: the text before the first [sep],
    and after it if there is one *)
Fixpoint split_once (sep : byte) (v : bytes) : bytes * option bytes :=
  match v with
  | [] => ([], None)
  | b :: r =>
      if bool_decide (b = sep) then ([], Some r)
      else let '(l, o) := split_once sep r in (b :: l, o)
  end.

(** [str::split] at a one-byte separator *)
Fixpoint split (sep : byte) (v : bytes) : list bytes :=
  match v with
  | [] => [[]]
  | b :: r =>
      if bool_decide (b = sep) then [] :: split sep r
      else match split sep r with
           | [] => [[b]]
           | l :: ls => (b :: l) :: ls
           end
  end.

(** ** UTF-8: [fs::read_to_string] succeeds on valid text only. *)

Definition utf8_tail (b : byte) : bool := (128 <=? byte_val b) && (byte_val b <? 192).
Fixpoint utf8_valid (v : bytes) : bool :=
  match v with
  | [] => true
  | a :: r =>
      let x := byte_val a in
      if x <? 128 then utf8_valid r
      else if (194 <=? x) && (x <? 224) then
        match r with b :: r => utf8_tail b && utf8_valid r | _ => false end
      else if (224 <=? x) && (x <? 240) then
        match r with
        | b :: c :: r =>
            utf8_tail b && utf8_tail c && utf8_valid r &&
            (if x =? 224 then 160 <=? byte_val b else true) &&
            (if x =? 237 then byte_val b <? 160 else true)
        | _ => false
        end
      else if (240 <=? x) && (x <? 245) then
        match r with
        | b :: c :: d :: r =>
            utf8_tail b && utf8_tail c && utf8_tail d && utf8_valid r &&
            (if x =? 240 then 144 <=? byte_val b else true) &&
            (if x =? 244 then byte_val b <? 144 else true)
        | _ => false
        end
      else false
  end.

(** [String::from_utf8_lossy]: each maximal beginning of a character that does not
    go on as one is replaced by U+FFFD. *)
Definition REPLACEMENT : bytes := [Byte.xef; Byte.xbf; Byte.xbd].

(** The second byte of a character of three or four bytes that begins with [x] *)
Definition utf8_second (x : Z) (b : byte) : bool :=
  utf8_tail b && (if x =? 224 then 160 <=? byte_val b else true) && (if x =? 237 then byte_val b <? 160 else true)
  && (if x =? 240 then 144 <=? byte_val b else true) && (if x =? 244 then byte_val b <? 144 else true).

Fixpoint from_utf8_lossy (v : bytes) : bytes :=
  match v with
  | [] => []
  | a :: r =>
      let x := byte_val a in
      if x <? 128 then a :: from_utf8_lossy r
      else if (194 <=? x) && (x <? 224) then
        match r with
        | b :: r1 => if utf8_tail b then a :: b :: from_utf8_lossy r1 else REPLACEMENT ++ from_utf8_lossy r
        | [] => REPLACEMENT
        end
      else if (224 <=? x) && (x <? 245) then
        match r with
        | b :: r1 =>
            if utf8_second x b then
              match r1 with
              | c :: r2 =>
                  if utf8_tail c then
                    if x <? 240 then a :: b :: c :: from_utf8_lossy r2
                    else match r2 with
                         | d :: r3 => if utf8_tail d then a :: b :: c :: d :: from_utf8_lossy r3
                                      else REPLACEMENT ++ from_utf8_lossy r2
                         | [] => REPLACEMENT
                         end
                  else REPLACEMENT ++ from_utf8_lossy r1
              | [] => REPLACEMENT
              end
            else REPLACEMENT ++ from_utf8_lossy r
        | [] => REPLACEMENT
        end
      else REPLACEMENT ++ from_utf8_lossy r
  end.

(** ** Trimming

    [char::is_whitespace] of the characters of one, two and three bytes. A
    valid text has the bytes of such a character only where it has the
    character. *)
Definition white1 (a : byte) : bool := ((9 <=? byte_val a) && (byte_val a <=? 13)) || (byte_val a =? 32).
Definition white2 (a b : byte) : bool :=
  (byte_val a =? 0xc2) && ((byte_val b =? 0x85) || (byte_val b =? 0xa0)).
Definition white3 (a b c : byte) : bool :=
  ((byte_val a =? 0xe1) && (byte_val b =? 0x9a) && (byte_val c =? 0x80))
  || ((byte_val a =? 0xe2) && (byte_val b =? 0x80) &&
      (((0x80 <=? byte_val c) && (byte_val c <=? 0x8a)) || (byte_val c =? 0xa8) || (byte_val c =? 0xa9)
       || (byte_val c =? 0xaf)))
  || ((byte_val a =? 0xe2) && (byte_val b =? 0x81) && (byte_val c =? 0x9f))
  || ((byte_val a =? 0xe3) && (byte_val b =? 0x80) && (byte_val c =? 0x80)).

(** Skips such characters, the tests being given for the order of the bytes. *)
Fixpoint skip_white (w2 : byte → byte → bool) (w3 : byte → byte → byte → bool) (v : bytes) : bytes :=
  match v with
  | [] => []
  | a :: r1 =>
      if white1 a then skip_white w2 w3 r1
      else match r1 with
           | [] => v
           | b :: r2 =>
               if w2 a b then skip_white w2 w3 r2
               else match r2 with
                    | [] => v
                    | c :: r3 => if w3 a b c then skip_white w2 w3 r3 else v
                    end
           end
  end.

Definition trim_start (v : bytes) : bytes := skip_white white2 white3 v.
Definition trim_end (v : bytes) : bytes :=
  rev (skip_white (λ b a, white2 a b) (λ c b a, white3 a b c) (rev v)).
(** [str::trim] *)
Definition trim (v : bytes) : bytes := trim_end (trim_start v).

Fixpoint skip_char (q : byte) (v : bytes) : bytes :=
  match v with
  | b :: r => if bool_decide (b = q) then skip_char q r else v
  | [] => []
  end.
(** [str::trim_matches] of one character *)
Definition trim_matches (q : byte) (v : bytes) : bytes := rev (skip_char q (rev (skip_char q v))).

(** [str::to_ascii_lowercase] *)
Definition lower (b : byte) : byte :=
  if (65 <=? byte_val b) && (byte_val b <=? 90) then byte_of (byte_val b + 32) else b.
Definition to_ascii_lowercase (v : bytes) : bytes := lower <$> v.

(** ** Decimal numbers *)

Definition digit_val (b : byte) : option Z :=
  if (48 <=? byte_val b) && (byte_val b <=? 57) then Some (byte_val b - 48) else None.

Fixpoint parse_digits (v : bytes) (n : Z) : option Z :=
  match v with
  | [] => Some n
  | b :: r => d ← digit_val b; m ← checked_mul_u 64 n 10; k ← checked_add_u 64 m d; parse_digits r k
  end.

(** [str::parse::<u64>]: a leading [+] is accepted before at least one digit. *)
Definition parse_u64 (v : bytes) : option Z :=
  match v with
  | [] => None
  | b :: r => if bool_decide (b = Byte.x2b) && negb (bool_decide (r = [])) then parse_digits r 0
              else parse_digits v 0
  end.

(** [Display] of an unsigned integer below [10 ^ fuel] *)
Fixpoint decimal_go (fuel : nat) (n : Z) (acc : bytes) : bytes :=
  match fuel with
  | O => acc
  | S fuel =>
      let acc := byte_of (48 + n mod 10) :: acc in
      if n / 10 =? 0 then acc else decimal_go fuel (n / 10) acc
  end.

(** Twenty digits hold every 64-bit integer. *)
Definition decimal (n : Z) : bytes := decimal_go 20 n [].

Definition bool_text (b : bool) : bytes := if b then str "true" else str "false".

(** ** Lemmas *)

Lemma split_once_found sep l r : Forall (.≠ sep) l → split_once sep (l ++ sep :: r) = (l, Some r).
Proof.
  induction 1 as [|b l Hb _ IH]; cbn [app split_once]; [by rewrite bool_decide_true|].
  by rewrite bool_decide_false, IH.
Qed.

Lemma split_once_none sep l : Forall (.≠ sep) l → split_once sep l = (l, None).
Proof.
  induction 1 as [|b l Hb _ IH]; cbn [split_once]; [done|]. by rewrite bool_decide_false, IH.
Qed.

(** A separator that neither text holds cuts equal texts at the same place. *)
Lemma split_once_inj (sep : byte) (l r l' r' : bytes) :
  Forall (.≠ sep) l → Forall (.≠ sep) l' → l ++ sep :: r = l' ++ sep :: r' → l = l' ∧ r = r'.
Proof.
  intros Hl Hl' He. apply (f_equal (split_once sep)) in He. rewrite !split_once_found in He by done.
  by injection He.
Qed.

(** A line may hold carriage returns, but not end with one. *)
Lemma lines_cons (l rest : bytes) :
  Forall (.≠ Byte.x0a) l → last l ≠ Some Byte.x0d → lines (l ++ Byte.x0a :: rest) = l :: lines rest.
Proof.
  induction 1 as [|b l Hn Hl IH]; intros Hlast; cbn [app lines]; [done|].
  rewrite bool_decide_false by done. rewrite bool_decide_false; [rewrite IH; [done|]|].
  - intros He. apply Hlast. rewrite last_cons. by rewrite He.
  - intros [-> Hh]. destruct l as [|c l]; [done|]. injection Hh as ->. inversion Hl; naive_solver.
Qed.

Lemma split_none sep l : Forall (.≠ sep) l → split sep l = [l].
Proof.
  induction 1 as [|b l Hb _ IH]; cbn [split]; [done|]. by rewrite bool_decide_false, IH.
Qed.

Lemma split_cons sep l r : Forall (.≠ sep) l → split sep (l ++ sep :: r) = l :: split sep r.
Proof.
  induction 1 as [|b l Hb _ IH]; cbn [app split]; [by rewrite bool_decide_true|].
  by rewrite bool_decide_false, IH.
Qed.

Lemma utf8_valid_ascii v : Forall (λ b, byte_val b < 128) v → utf8_valid v = true.
Proof.
  induction 1 as [|b v Hb _ IH]; [done|]. cbn [utf8_valid]. by rewrite (proj2 (Z.ltb_lt _ _)).
Qed.

(** ** The lossy reading *)

Lemma utf8_valid_replaced v : utf8_valid (REPLACEMENT ++ v) = utf8_valid v.
Proof. cbn. by rewrite !andb_true_r. Qed.

Ltac if_cases :=
  repeat match goal with
  | |- context [if ?b then _ else _] => destruct b eqn:?
  | |- context [match ?l with [] => _ | _ => _ end] => is_var l; destruct l
  end.
Ltac if_hyps :=
  repeat match goal with H : context [if ?b then _ else _] |- _ => destruct b eqn:? end.

(** The lossy reading of any bytes is valid text. *)
Lemma from_utf8_lossy_valid v : utf8_valid (from_utf8_lossy v) = true.
Proof.
  induction v as [v IH] using (induction_ltof1 _ (@length byte)). unfold ltof in IH.
  destruct v as [|a r]; [done|]. cbn [from_utf8_lossy].
  assert (∀ r', (length r' < length (a :: r))%nat →
    utf8_valid (REPLACEMENT ++ from_utf8_lossy r') = true) as Hrep.
  { intros r' Hr'. rewrite utf8_valid_replaced. by apply IH. }
  if_cases; try done; try (apply Hrep; cbn [length]; lia);
    cbn [utf8_valid]; rewrite ?IH by (cbn [length]; lia); clear IH Hrep;
    unfold utf8_second, utf8_tail in *; if_cases; if_hyps; lia.
Qed.

(** The lossy reading of valid text is the text itself. *)
Lemma from_utf8_lossy_id v : utf8_valid v = true → from_utf8_lossy v = v.
Proof.
  induction v as [v IH] using (induction_ltof1 _ (@length byte)). unfold ltof in IH.
  destruct v as [|a r]; [done|]. cbn [from_utf8_lossy utf8_valid]. 
  if_cases; intros Hv; rewrite ?andb_true_iff in Hv; destruct_and?; try discriminate;
   try (repeat f_equal; apply IH; [cbn [length]; lia|done]); exfalso; clear IH; unfold utf8_second, utf8_tail in *; if_hyps; lia.
Qed.

(** A character that is not white space and has one byte *)
Definition solid (b : byte) : Prop := byte_val b < 128 ∧ white1 b = false.

Lemma skip_white_solid w2 w3 a r :
  (∀ b, w2 a b = false) → (∀ b c, w3 a b c = false) → white1 a = false →
  skip_white w2 w3 (a :: r) = a :: r.
Proof. intros H2 H3 H1. cbn [skip_white]. rewrite H1. destruct r as [|b [|c r]]; rewrite ?H2, ?H3; done. Qed.

Lemma white2_ascii a b : byte_val a < 128 ∨ byte_val b < 128 → white2 a b = false.
Proof. intros H. unfold white2. apply not_true_iff_false. intros ?. bool_to_prop.
  repeat match goal with H : (_ || _)%bool = true |- _ => apply orb_true_iff in H as [H|H] end; bool_to_prop; lia.
Qed.

Lemma white3_ascii a b c : byte_val a < 128 ∨ byte_val c < 128 → white3 a b c = false.
Proof. intros H. unfold white3. apply not_true_iff_false. intros ?.
  repeat (bool_to_prop; match goal with H : (_ || _)%bool = true |- _ => apply orb_true_iff in H as [H|H] end);
  bool_to_prop; lia.
Qed.

Lemma trim_start_solid a r : solid a → trim_start (a :: r) = a :: r.
Proof.
  intros [Ha Hw]. apply skip_white_solid; [..|done]; intros; [apply white2_ascii|apply white3_ascii]; by left.
Qed.

Lemma trim_end_solid r a : solid a → trim_end (r ++ [a]) = r ++ [a].
Proof.
  intros [Ha Hw]. unfold trim_end. rewrite rev_app_distr. cbn [rev app].
  rewrite skip_white_solid; [by rewrite <-(rev_involutive (r ++ [a])), rev_app_distr| | |done];
    intros; [apply white2_ascii|apply white3_ascii]; by right.
Qed.

Lemma trim_start_white w v : Forall (λ b, white1 b = true) w → trim_start (w ++ v) = trim_start v.
Proof. unfold trim_start. induction 1 as [|b w Hb _ IH]; [done|]. cbn [app skip_white]. by rewrite Hb. Qed.

Lemma trim_end_white v w : Forall (λ b, white1 b = true) w → trim_end (v ++ w) = trim_end v.
Proof.
  intros Hw. unfold trim_end. rewrite rev_app_distr. f_equal. apply Forall_rev in Hw. revert Hw.
  generalize (rev w) as u. induction 1 as [|b u Hb _ IH]; [done|]. cbn [app skip_white]. by rewrite Hb.
Qed.

(** A text with solid ends *)
Definition tight (v : bytes) : Prop := ∃ a b r, v = a :: r ∧ last v = Some b ∧ solid a ∧ solid b.

(** Blanks are trimmed from around it, and nothing else. *)
Lemma trim_tight w v w' :
  Forall (λ b, white1 b = true) w → Forall (λ b, white1 b = true) w' → tight v → trim (w ++ v ++ w') = v.
Proof.
  intros Hw Hw' (a & b & r & -> & Hlast & Ha & Hb). unfold trim. rewrite trim_start_white by done.
  cbn [app]. rewrite trim_start_solid by done. change (a :: r ++ w') with ((a :: r) ++ w').
  rewrite trim_end_white by done. apply last_Some in Hlast as [u ->]. by apply trim_end_solid.
Qed.

Lemma skip_char_keep q v : head v ≠ Some q → skip_char q v = v.
Proof. destruct v as [|b v]; cbn; [done|]. intros H. rewrite bool_decide_false; [done|congruence]. Qed.

(** Quotes are removed from around a text that has none at its ends. *)
Lemma trim_matches_quoted q v :
  head v ≠ Some q → last v ≠ Some q → trim_matches q (q :: v ++ [q]) = v.
Proof.
  intros Hh Hl. unfold trim_matches. cbn [skip_char]. rewrite bool_decide_true by done.
  assert (skip_char q (v ++ [q]) = if bool_decide (v = []) then [] else v ++ [q]) as ->.
  { destruct v as [|b v]; cbn; [by rewrite bool_decide_true|].
    rewrite bool_decide_false; [done|cbn in Hh; congruence]. }
  case_bool_decide as Hv; [by subst|]. rewrite rev_app_distr. cbn [rev app skip_char].
  rewrite bool_decide_true by done. rewrite skip_char_keep; [apply rev_involutive|].
  intros He. apply Hl. destruct (rev v) as [|c u] eqn:Hr; [done|]. injection He as ->.
  apply (f_equal (@rev _)) in Hr. rewrite rev_involutive in Hr. rewrite Hr. cbn. by rewrite last_snoc.
Qed.

Lemma digit_val_of n : 0 ≤ n < 10 → digit_val (byte_of (48 + n)) = Some n.
Proof.
  intros Hn. unfold digit_val. rewrite byte_val_of, Z.mod_small by lia.
  rewrite (proj2 (Z.leb_le _ _)) by lia. rewrite (proj2 (Z.leb_le _ _)) by lia. cbn. f_equal. lia.
Qed.

Lemma decimal_go_app fuel n acc : decimal_go fuel n acc = decimal_go fuel n [] ++ acc.
Proof.
  revert n acc. induction fuel as [|fuel IH]; intros n acc; [done|]. cbn [decimal_go].
  destruct (n / 10 =? 0); [done|]. rewrite IH, (IH _ [_]). by rewrite <-app_assoc.
Qed.

Lemma parse_digits_cons m n rest :
  0 ≤ m → 10 * m + n mod 10 = n → 0 ≤ n < 2 ^ 64 →
  parse_digits (byte_of (48 + n mod 10) :: rest) m = parse_digits rest n.
Proof.
  intros Hm He Hn. pose proof (Z.mod_pos_bound n 10 ltac:(lia)).
  cbn [parse_digits]. rewrite digit_val_of by lia. cbn [mbind option_bind].
  rewrite (proj2 (checked_mul_u_Some 64 m 10 (m * 10))) by lia. cbn [mbind option_bind].
  rewrite (proj2 (checked_add_u_Some 64 (m * 10) (n mod 10) n)) by lia. done.
Qed.

Lemma parse_decimal_go fuel n rest :
  0 ≤ n < 10 ^ Z.of_nat fuel → n < 2 ^ 64 → (0 < fuel)%nat →
  parse_digits (decimal_go fuel n rest) 0 = parse_digits rest n.
Proof.
  revert n rest. induction fuel as [|fuel IH]; intros n rest Hn H64 Hf; [lia|]. cbn [decimal_go].
  pose proof (Z.div_mod n 10 ltac:(lia)). pose proof (Z.mod_pos_bound n 10 ltac:(lia)).
  destruct (Z.eqb_spec (n / 10) 0); [apply parse_digits_cons; lia|].
  rewrite Nat2Z.inj_succ, Z.pow_succ_r in Hn by lia. destruct fuel as [|fuel]; [cbn in Hn; lia|].
  rewrite IH by lia. apply parse_digits_cons; lia.
Qed.

Lemma decimal_go_digits fuel n acc :
  Forall (λ b, is_Some (digit_val b)) acc → Forall (λ b, is_Some (digit_val b)) (decimal_go fuel n acc).
Proof.
  revert n acc. induction fuel as [|fuel IH]; intros n acc Hacc; [done|]. cbn [decimal_go].
  assert (is_Some (digit_val (byte_of (48 + n mod 10)))).
  { rewrite digit_val_of by (apply Z.mod_pos_bound; lia). eauto. }
  destruct (n / 10 =? 0); [|apply IH]; by constructor.
Qed.

Lemma decimal_digits n : Forall (λ b, is_Some (digit_val b)) (decimal n).
Proof. by apply decimal_go_digits. Qed.

(** The only bytes of a decimal number are its digits. *)
Lemma decimal_no (sep : byte) n : digit_val sep = None → Forall (.≠ sep) (decimal n).
Proof. intros Hs. eapply Forall_impl; [apply decimal_digits|]. intros b [d Hd] ->. congruence. Qed.

(** A number in decimal reads back. *)
Lemma parse_u64_decimal n : 0 ≤ n < 2 ^ 64 → parse_u64 (decimal n) = Some n.
Proof.
  intros Hn. assert (parse_digits (decimal n) 0 = Some n) as Hp.
  { unfold decimal. rewrite parse_decimal_go by lia. done. }
  unfold parse_u64. destruct (decimal n) as [|b r] eqn:Hd; [|].
  - injection Hp as <-. vm_compute in Hd. discriminate Hd.
  - rewrite bool_decide_false; [done|]. pose proof (decimal_digits n) as Hall. rewrite Hd in Hall.
    intros ->. inversion Hall as [|? ? [d Hx]]. discriminate Hx.
Qed.

Lemma decimal_inj m n : 0 ≤ m < 2 ^ 64 → 0 ≤ n < 2 ^ 64 → decimal m = decimal n → m = n.
Proof. intros Hm Hn He. apply (inj Some). by rewrite <-!parse_u64_decimal, He. Qed.

Lemma utf8_valid_app v w : utf8_valid v = true → utf8_valid (v ++ w) = utf8_valid w.
Proof.
  remember (length v) as n eqn:Hn. revert v Hn. induction (lt_wf n) as [n _ IH].
  intros [|a v] -> Hv; [done|]. cbn [app utf8_valid length] in *.
  destruct (byte_val a <? 128); [by apply (IH (length v)); [lia|..]|].
  destruct ((194 <=? byte_val a) && _).
  { destruct v as [|b v]; [done|]. cbn [app]. apply andb_true_iff in Hv as [-> Hv].
    apply (IH (length v)); [cbn; lia|done..]. }
  destruct ((224 <=? byte_val a) && _).
  { destruct v as [|b [|c v]]; [done..|]. cbn [app]. rewrite !andb_true_iff in Hv.
    destruct Hv as [[[[-> ->] Hv] ->] ->]. cbn [andb]. rewrite !andb_true_r. apply (IH (length v)); [cbn; lia|done..]. }
  destruct (_ && _); [|done]. destruct v as [|b [|c [|d v]]]; [done..|]. cbn [app]. rewrite !andb_true_iff in Hv.
  destruct Hv as [[[[[-> ->] ->] Hv] ->] ->]. cbn [andb]. rewrite !andb_true_r.
  apply (IH (length v)); [cbn; lia|done..].
Qed.
