(* ===== verification/Telemetry.v ===== *)
(** [onx-telemetry], [lib.rs]: the metrics of a node, their text and the server
    that answers with it. The crates prometheus and tracing are parameters: a
    registry of metrics with the documented behaviour [PrometheusLaws], shared by
    every handle of the process, and the spans. *)
From Stdlib Require Import Floats.SpecFloat.
From S2P Require Import Prelude Bytes Machine Text.

(** ** [i64 as f64]: the nearest double, ties to even *)

Definition f64 : Type := spec_float.
Definition i64_as_f64 (z : Z) : f64 := binary_normalize 53 1024 z 0 false.

(** Integers below 2^53 have a double each, others share one. *)
Lemma i64_as_f64_shared : i64_as_f64 (2 ^ 53) = i64_as_f64 (2 ^ 53 + 1).
Proof. reflexivity. Qed.

(** ** The registry *)

Inductive MetricKind : Type := Histogram | Gauge | Counter.

#[export] Instance MetricKind_eq_dec : EqDecision MetricKind.
Proof. solve_decision. Defined.

(** What a metric shows: the observations of a histogram, the value a gauge was
    set to last, the increments of a counter *)
Inductive Reading : Type :=
  | Observed (l : list f64)
  | Level (x : f64)
  | Count (n : Z).

Definition fresh (kind : MetricKind) : Reading :=
  match kind with Histogram => Observed [] | Gauge => Level (S754_zero false) | Counter => Count 0 end.

Class Prometheus : Type := {
  Registry : Type;
  Metric : Type;
  MetricFamilies : Type;
  new_registry : Registry;
  register : MetricKind → bytes → bytes → Registry → result bytes (Metric * Registry);
  histogram_observe : Metric → f64 → Registry → Registry;
  gauge_set : Metric → f64 → Registry → Registry;
  counter_inc : Metric → Registry → Registry;
  gather : Registry → MetricFamilies;
  text_encode : MetricFamilies → result bytes bytes;
}.

(** Spans of the tracing crate *)
Class Tracing : Type := {
  Span : Type;
  span : bytes → list (bytes * bytes) → Span;
}.

(** Letters, digits, [_] and [:], not beginning with a digit *)
Definition name_byte (b : byte) : bool :=
  let x := byte_val b in
  ((65 <=? x) && (x <=? 90)) || ((97 <=? x) && (x <=? 122)) || (x =? 95) || (x =? 58).
Definition metric_name_valid (name : bytes) : bool :=
  match name with
  | [] => false
  | b :: r => name_byte b && forallb (λ b, name_byte b || ((48 <=? byte_val b) && (byte_val b <=? 57))) r
  end.

(** The documented behaviour: a name is registered once, and a metric is changed
    through its handle only. *)
Class PrometheusLaws (P : Prometheus) : Type := {
  readings : Registry → gmap bytes Reading;
  metric_name : Metric → bytes;
  readings_new : readings new_registry = ∅;
  register_fresh kind name help r :
    metric_name_valid name = true → help ≠ [] → readings r !! name = None →
    ∃ m r', register kind name help r = Ok (m, r') ∧ metric_name m = name ∧
      readings r' = <[name := fresh kind]> (readings r);
  register_taken kind name help r v :
    readings r !! name = Some v → is_err (register kind name help r) = true;
  observe_reading m x r :
    readings (histogram_observe m x r) =
    alter (λ v, match v with Observed l => Observed (l ++ [x]) | _ => v end) (metric_name m) (readings r);
  set_reading m x r :
    readings (gauge_set m x r) =
    alter (λ v, match v with Level _ => Level x | _ => v end) (metric_name m) (readings r);
  inc_reading m r :
    readings (counter_inc m r) =
    alter (λ v, match v with Count n => Count (n + 1) | _ => v end) (metric_name m) (readings r);
}.

(** ** The handle *)

Record TelemetryConfig : Type := { metrics_bind : bytes; enable_tracing : bool }.
Definition TelemetryConfig_default : TelemetryConfig :=
  {| metrics_bind := str "127.0.0.1:9100"; enable_tracing := true |}.

Section telemetry.
Context {P : Prometheus}.

Record TelemetryHandle : Type := {
  block_import_duration_ms : Metric;
  block_height : Metric;
  connected_peer_count : Metric;
  transaction_pool_size : Metric;
  vm_gas_rate : Metric;
  cross_shard_router : Metric;
  consensus_rounds : Metric;
}.

(** [register_..!(name, help).map_err(..)?], and the rest of the function. What
    was registered before a failure stays. *)
Definition registering {A} (kind : MetricKind) (name help : bytes)
    (k : Metric → Registry → Registry * result bytes A) (r : Registry) : Registry * result bytes A :=
  match register kind name help r with
  | Ok (m, r) => k m r
  | Err e => (r, Err e)
  | Panic => (r, Panic)
  end.

Definition TelemetryHandle_new : Registry → Registry * result bytes TelemetryHandle :=
  registering Histogram (str "block_import_duration_ms")
    (str "Histogram of block import duration in milliseconds") (λ import,
  registering Gauge (str "current_block_height")
    (str "Latest committed block height tracked by the local node") (λ height,
  registering Gauge (str "connected_peer_count") (str "Current number of connected peers") (λ peers,
  registering Gauge (str "transaction_pool_size") (str "Current size of the transaction pool") (λ pool,
  registering Histogram (str "vm_gas_execution_rate") (str "Distribution of VM gas execution rates") (λ gas,
  registering Counter (str "cross_shard_message_routing_total")
    (str "Count of cross-shard route spans and routing events") (λ router,
  registering Counter (str "consensus_round_phases_total")
    (str "Count of consensus round phases observed by the node") (λ rounds r,
  (r, Ok {| block_import_duration_ms := import; block_height := height; connected_peer_count := peers;
            transaction_pool_size := pool; vm_gas_rate := gas; cross_shard_router := router;
            consensus_rounds := rounds |})))))))).

Definition record_block_import_duration (h : TelemetryHandle) (millis : f64) : Registry → Registry :=
  histogram_observe (block_import_duration_ms h) millis.
Definition set_block_height (h : TelemetryHandle) (height : Z) : Registry → Registry :=
  gauge_set (block_height h) (i64_as_f64 height).
Definition set_connected_peers (h : TelemetryHandle) (count : Z) : Registry → Registry :=
  gauge_set (connected_peer_count h) (i64_as_f64 count).
Definition set_tx_pool_size (h : TelemetryHandle) (size : Z) : Registry → Registry :=
  gauge_set (transaction_pool_size h) (i64_as_f64 size).
Definition record_gas_execution (h : TelemetryHandle) (gas : f64) : Registry → Registry :=
  histogram_observe (vm_gas_rate h) gas.

Context {T : Tracing}.

Definition track_route_span (h : TelemetryHandle) (shard_from shard_to : bytes) (r : Registry) : Span * Registry :=
  (span (str "cross_shard_route") [(str "from", shard_from); (str "to", shard_to)],
   counter_inc (cross_shard_router h) r).
Definition track_consensus_phase (h : TelemetryHandle) (phase : bytes) (r : Registry) : Span * Registry :=
  (span (str "consensus_phase") [(str "phase", phase)], counter_inc (consensus_rounds h) r).

Definition metrics_text (r : Registry) : result bytes bytes :=
  let? buffer := text_encode (gather r) in Ok (from_utf8_lossy buffer).

(** ** The server *)

Definition CRLF : bytes := [byte_of 13; byte_of 10].

Definition metrics_response (payload : bytes) : bytes :=
  str "HTTP/1.1 200 OK" ++ CRLF ++ str "Content-Type: text/plain; version=0.9; charset=utf-8" ++ CRLF ++
  str "Content-Length: " ++ decimal (len payload) ++ CRLF ++ CRLF ++ payload.

(** The loop: [connections] gives the answers of [accept] with the registry at
    the time. The responses that are written (whether or not they can be), and the
    error that ends the loop, if any. *)
Fixpoint serve_loop (connections : list (result bytes Registry)) : list bytes * option bytes :=
  match connections with
  | [] => ([], None)
  | Ok r :: connections =>
      match text_encode (gather r) with
      | Ok buf =>
          let response := metrics_response (from_utf8_lossy buf) in
          let '(responses, e) := serve_loop connections in (response :: responses, e)
      | Err e => ([], Some e)
      | Panic => ([], None)
      end
  | Err e :: _ => ([], Some e)
  | Panic :: _ => ([], None)
  end.

(** [parse]: the parser of socket addresses; [bind]: the error of binding one *)
Definition serve_metrics {SocketAddr} (parse : bytes → result bytes SocketAddr) (bind : SocketAddr → option bytes)
    (config : TelemetryConfig) (connections : list (result bytes Registry)) : list bytes * option bytes :=
  match parse (metrics_bind config) with
  | Ok addr => match bind addr with None => serve_loop connections | Some e => ([], Some e) end
  | Err e => ([], Some e)
  | Panic => ([], None)
  end.
End telemetry.

(** ** The metrics of a process *)

Definition metric_table : list (bytes * MetricKind) :=
  [(str "block_import_duration_ms", Histogram); (str "current_block_height", Gauge);
   (str "connected_peer_count", Gauge); (str "transaction_pool_size", Gauge);
   (str "vm_gas_execution_rate", Histogram); (str "cross_shard_message_routing_total", Counter);
   (str "consensus_round_phases_total", Counter)].

(** The entries before the first whose name is taken *)
Fixpoint take_free (m : gmap bytes Reading) (table : list (bytes * MetricKind)) : list (bytes * MetricKind) :=
  match table with
  | [] => []
  | e :: table => match m !! e.1 with None => e :: take_free m table | Some _ => [] end
  end.

Definition with_metrics (table : list (bytes * MetricKind)) (m : gmap bytes Reading) : gmap bytes Reading :=
  foldl (λ m e, <[e.1 := fresh e.2]> m) m table.

Lemma take_free_insert m name v table :
  name ∉ table.*1 → take_free (<[name := v]> m) table = take_free m table.
Proof.
  induction table as [|e table IH]; [done|]. cbn [fmap list_fmap take_free]. intros [Hn Hin]%not_elem_of_cons.
  rewrite lookup_insert_ne, IH by done. done.
Qed.

(** Two names of metrics differ. *)
Ltac other_name := apply (bool_decide_unpack _); by vm_compute.

Section telemetry_proofs.
Context {P : Prometheus} {L : PrometheusLaws P}.
Implicit Types (h : TelemetryHandle) (r : Registry).

Definition handle_names h : list bytes :=
  metric_name <$> [block_import_duration_ms h; block_height h; connected_peer_count h; transaction_pool_size h;
                   vm_gas_rate h; cross_shard_router h; consensus_rounds h].

(** [k] registers [table] up to the first name that is taken. *)
Definition registers {A} (Q : A → Prop) (table : list (bytes * MetricKind))
    (k : Registry → Registry * result bytes A) (r : Registry) : Prop :=
  let free := take_free (readings r) table in
  readings (k r).1 = with_metrics free (readings r) ∧
  if decide (free = table) then ∃ a, (k r).2 = Ok a ∧ Q a else is_err (k r).2 = true.

Lemma registering_registers {A} (Q : A → Prop) kind name help table k r :
  metric_name_valid name = true → help ≠ [] → name ∉ table.*1 →
  (∀ m r', metric_name m = name → registers Q table (k m) r') →
  registers Q ((name, kind) :: table) (registering kind name help k) r.
Proof.
  intros Hname Hhelp Hnotin Hk. unfold registers, registering. cbn [take_free fst].
  destruct (readings r !! name) as [v|] eqn:Hv.
  - pose proof (register_taken kind name help r v Hv) as He.
    destruct (register kind name help r) as [[m r']|e|]; [done| |done]. by rewrite decide_False.
  - destruct (register_fresh kind name help r Hname Hhelp Hv) as (m & r' & -> & Hm & Hr').
    destruct (Hk m r' Hm) as [Hreads Hres]. rewrite Hr', take_free_insert in Hreads, Hres by done. split; [done|].
    destruct (decide (take_free (readings r) table = table)) as [Heq|Hne].
    + by rewrite decide_True by (by rewrite Heq).
    + by rewrite decide_False by congruence.
Qed.

(** A handle is made where none of its seven names is taken; otherwise the
    metrics before the first taken name stay registered. *)
Lemma TelemetryHandle_new_spec r :
  registers (λ h, handle_names h = metric_table.*1) metric_table TelemetryHandle_new r.
Proof.
  unfold TelemetryHandle_new, metric_table.
  repeat (apply registering_registers; [by vm_compute|done|apply (bool_decide_unpack _); by vm_compute|];
          intros ? ? ?).
  split; [done|]. cbn [take_free]. rewrite decide_True by done. eexists. split; [done|].
  unfold handle_names. cbn [fmap list_fmap fst block_import_duration_ms block_height connected_peer_count
    transaction_pool_size vm_gas_rate cross_shard_router consensus_rounds]. congruence.
Qed.

(** A process can make one handle. *)
Theorem telemetry_new_once r h :
  (TelemetryHandle_new r).2 = Ok h → is_err (TelemetryHandle_new (TelemetryHandle_new r).1).2 = true.
Proof.
  intros Hok. destruct (TelemetryHandle_new_spec r) as [Hreads Hres].
  destruct (TelemetryHandle_new_spec (TelemetryHandle_new r).1) as [_ Hres'].
  destruct (decide (take_free (readings r) metric_table = metric_table)) as [Heq|]; [|by rewrite Hok in Hres].
  rewrite Heq in Hreads. rewrite Hreads in Hres'. rewrite decide_False in Hres'; [done|].
  unfold with_metrics, metric_table. cbn [foldl take_free fst].
  rewrite !(lookup_insert_ne _ _ (str "block_import_duration_ms")) by (apply (bool_decide_unpack _); by vm_compute).
  by rewrite lookup_insert_eq.
Qed.

(** ** Histories of a handle *)

Context {T : Tracing}.

Inductive TelemetryEvent : Type :=
  | BlockImported (millis : f64)
  | HeightSet (height : Z)
  | PeersSet (count : Z)
  | PoolSizeSet (size : Z)
  | GasExecuted (gas : f64)
  | RouteTracked (shard_from shard_to : bytes)
  | PhaseTracked (phase : bytes).

Definition telemetry_step h (r : Registry) (ev : TelemetryEvent) : Registry :=
  match ev with
  | BlockImported x => record_block_import_duration h x r
  | HeightSet z => set_block_height h z r
  | PeersSet z => set_connected_peers h z r
  | PoolSizeSet z => set_tx_pool_size h z r
  | GasExecuted x => record_gas_execution h x r
  | RouteTracked a b => (track_route_span h a b r).2
  | PhaseTracked p => (track_consensus_phase h p r).2
  end.

(** What the seven metrics show after a history *)
Definition history_readings (evs : list TelemetryEvent) : list (bytes * Reading) :=
  let observed f := Observed (omap f evs) in
  let level f := Level (default (S754_zero false) (i64_as_f64 <$> last (omap f evs))) in
  let count (f : TelemetryEvent → option unit) := Count (len (omap f evs)) in
  [(str "block_import_duration_ms", observed (λ ev, match ev with BlockImported x => Some x | _ => None end));
   (str "current_block_height", level (λ ev, match ev with HeightSet z => Some z | _ => None end));
   (str "connected_peer_count", level (λ ev, match ev with PeersSet z => Some z | _ => None end));
   (str "transaction_pool_size", level (λ ev, match ev with PoolSizeSet z => Some z | _ => None end));
   (str "vm_gas_execution_rate", observed (λ ev, match ev with GasExecuted x => Some x | _ => None end));
   (str "cross_shard_message_routing_total", count (λ ev, match ev with RouteTracked _ _ => Some tt | _ => None end));
   (str "consensus_round_phases_total", count (λ ev, match ev with PhaseTracked _ => Some tt | _ => None end))].

Definition with_history (evs : list TelemetryEvent) (m : gmap bytes Reading) : gmap bytes Reading :=
  foldl (λ m e, <[e.1 := e.2]> m) m (history_readings evs).

Lemma telemetry_step_readings h r ev evs m :
  handle_names h = metric_table.*1 → readings r = with_history evs m →
  readings (telemetry_step h r ev) = with_history (evs ++ [ev]) m.
Proof.
  intros Hn Hr. unfold handle_names, metric_table in Hn. cbn [fmap list_fmap fst] in Hn.
  injection Hn as N1 N2 N3 N4 N5 N6 N7.
  unfold with_history, history_readings. rewrite !omap_app. 
  destruct ev; cbn [telemetry_step]; unfold record_block_import_duration, set_block_height, set_connected_peers,
    set_tx_pool_size, record_gas_execution, track_route_span, track_consensus_phase; cbn [snd];
    rewrite ?observe_reading, ?set_reading, ?inc_reading, ?N1, ?N2, ?N3, ?N4, ?N5, ?N6, ?N7, Hr;
    unfold with_history, history_readings; cbn [foldl fst snd omap list_omap];
    rewrite ?app_nil_r, ?last_snoc, ?len_app;
    repeat (first [rewrite alter_insert_eq | rewrite alter_insert_ne by other_name]); reflexivity.
Qed.

Lemma telemetry_steps_readings h r evs0 evs m :
  handle_names h = metric_table.*1 → readings r = with_history evs0 m →
  readings (foldl (telemetry_step h) r evs) = with_history (evs0 ++ evs) m.
Proof.
  intros Hn. revert r evs0. induction evs as [|ev evs IH]; intros r evs0 Hr; cbn [foldl]; [by rewrite app_nil_r|].
  rewrite (IH _ (evs0 ++ [ev])) by (by apply telemetry_step_readings). by rewrite <-(assoc_L (++)).
Qed.

(** What [TelemetryHandle::new] gives when it succeeds *)
Lemma TelemetryHandle_new_ok r h :
  (TelemetryHandle_new r).2 = Ok h →
  handle_names h = metric_table.*1 ∧ readings (TelemetryHandle_new r).1 = with_history [] (readings r).
Proof.
  intros Hok. destruct (TelemetryHandle_new_spec r) as [Hreads Hres].
  destruct (decide (take_free (readings r) metric_table = metric_table)) as [Heq|]; [|by rewrite Hok in Hres].
  rewrite Hok in Hres. destruct Hres as (h' & [= <-] & Hn). by rewrite Heq in Hreads.
Qed.

(** A process that has made no handle can make one. *)
Lemma TelemetryHandle_new_fresh : ∃ h, (TelemetryHandle_new new_registry).2 = Ok h.
Proof.
  destruct (TelemetryHandle_new_spec new_registry) as [_ Hres].
  rewrite decide_True in Hres by (rewrite readings_new; reflexivity). destruct Hres as (h & Hh & _). by exists h.
Qed.

(** After any use of a handle every metric of it shows what was recorded, in
    order, the last value set, or the number of calls; no other metric changes. *)
Theorem telemetry_history r h evs :
  (TelemetryHandle_new r).2 = Ok h →
  readings (foldl (telemetry_step h) (TelemetryHandle_new r).1 evs) = with_history evs (readings r).
Proof. intros [Hn Hr]%TelemetryHandle_new_ok. by apply (telemetry_steps_readings _ _ []). Qed.
End telemetry_proofs.

(** ** The responses *)

Lemma lines_crlf (l rest : bytes) :
  Forall (.≠ Byte.x0a) l → lines (l ++ CRLF ++ rest) = l :: lines rest.
Proof.
  induction 1 as [|b l Hn Hl IH]; cbn [app lines]; [done|].
  rewrite bool_decide_false by done. rewrite bool_decide_false; [by rewrite IH|].
  intros [_ Hh]. destruct l as [|c l]; [done|]. injection Hh as ->. by inversion Hl.
Qed.

(** A client that reads the header up to the empty line, and then as many bytes as
    it announces, has the text of the metrics, which is valid UTF-8. *)
Theorem metrics_response_framed (buf : bytes) :
  let payload := from_utf8_lossy buf in
  len payload < 2 ^ 64 →
  ∃ header n, metrics_response payload = header ++ payload ∧
    lines header = [str "HTTP/1.1 200 OK"; str "Content-Type: text/plain; version=0.9; charset=utf-8";
                    str "Content-Length: " ++ n; []] ∧
    parse_u64 n = Some (len payload) ∧ utf8_valid payload = true.
Proof.
  intros payload Hlen.
  exists (str "HTTP/1.1 200 OK" ++ CRLF ++ str "Content-Type: text/plain; version=0.9; charset=utf-8" ++ CRLF ++
    (str "Content-Length: " ++ decimal (len payload)) ++ CRLF ++ [] ++ CRLF ++ []), (decimal (len payload)).
  split_and!.
  - unfold metrics_response. rewrite <-!(assoc_L (++)). by rewrite !(left_id_L [] (++)).
  - assert (∀ s : bytes, forallb (λ b, negb (bool_decide (b = Byte.x0a))) s = true → Forall (.≠ Byte.x0a) s) as Hno.
    { intros s Hs. apply Forall_forall. intros b Hb ->. apply list_elem_of_In in Hb.
      by apply (proj1 (forallb_forall _ _) Hs) in Hb. }
    rewrite !lines_crlf; [done|..].
    + done.
    + apply Forall_app. split; [by apply Hno|]. by apply decimal_no.
    + by apply Hno.
    + by apply Hno.
  - apply parse_u64_decimal. pose proof (len_nonneg payload). lia.
  - apply from_utf8_lossy_valid.
Qed.

(** The loop answers connection after connection with the metrics of its time,
    until an error of [accept] or of the encoder ends it for good. *)
Theorem serve_loop_answers `{P : Prometheus} (rs : list Registry) bufs tail :
  Forall2 (λ r buf, text_encode (gather r) = Ok buf) rs bufs →
  serve_loop ((Ok <$> rs) ++ tail) =
  (((λ buf, metrics_response (from_utf8_lossy buf)) <$> bufs) ++ (serve_loop tail).1, (serve_loop tail).2).
Proof.
  induction 1 as [|r buf rs bufs Hr _ IH]; cbn [fmap list_fmap app serve_loop]; [by destruct (serve_loop tail)|].
  by rewrite Hr, IH.
Qed.

(** ** An instance of the registry *)

#[export] Instance toy_prometheus : Prometheus := {|
  Registry := gmap bytes Reading;
  Metric := bytes;
  MetricFamilies := list (bytes * Reading);
  new_registry := ∅;
  register kind name help r :=
    if negb (metric_name_valid name) || bool_decide (help = []) then Err (str "invalid metric")
    else match r !! name with
         | None => Ok (name, <[name := fresh kind]> r)
         | Some _ => Err (str "Duplicate metrics collector registration attempted")
         end;
  histogram_observe m x := alter (λ v, match v with Observed l => Observed (l ++ [x]) | _ => v end) m;
  gauge_set m x := alter (λ v, match v with Level _ => Level x | _ => v end) m;
  counter_inc m := alter (λ v, match v with Count n => Count (n + 1) | _ => v end) m;
  gather := map_to_list;
  text_encode fs := Ok (concat ((λ '(name, _), name ++ [Byte.x0a]) <$> fs));
|}.

#[export] Instance toy_tracing : Tracing := {| Span := bytes; span name _ := name |}.

#[export] Program Instance toy_prometheus_laws : PrometheusLaws toy_prometheus := {|
  readings r := r;
  metric_name m := m;
|}.
Next Obligation. done. Qed.
Next Obligation.
  intros kind name help r Hname Hhelp Hr. cbn in *. rewrite Hname, bool_decide_false by done. cbn.
  rewrite Hr. eauto.
Qed.
Next Obligation. intros kind name help r v Hr. cbn in *. destruct (_ || _); [done|]. by rewrite Hr. Qed.
Next Obligation. done. Qed.
Next Obligation. done. Qed.
Next Obligation. done. Qed.

Lemma telemetry_history_witness :
  ∃ h, (TelemetryHandle_new (P:=toy_prometheus) new_registry).2 = Ok h ∧
    readings (foldl (telemetry_step h) (TelemetryHandle_new new_registry).1
      [HeightSet 7; PhaseTracked (str "timeout"); HeightSet 8]) !! str "current_block_height" =
    Some (Level (i64_as_f64 8)).
Proof.
  destruct (TelemetryHandle_new_fresh (P:=toy_prometheus)) as (h & Hok).
  exists h. split; [exact Hok|]. rewrite (telemetry_history new_registry h _ Hok).
  unfold with_history, history_readings. cbn [foldl fst snd].
  rewrite !(lookup_insert_ne _ _ (str "current_block_height")) by (apply (bool_decide_unpack _); by vm_compute).
  rewrite lookup_insert_eq. reflexivity.
Defined.
