(* ===== verification/Primitives.v ===== *)
(** [onx-primitives]: canonical integers, byte strings, domain-separated
    hashing and Ed25519 keys and signatures. *)
From S2P Require Import Prelude Bytes Machine.

(** ** Errors ([error.rs]) *)

Inductive PrimitiveError : Type :=
  | Truncated (expected actual : Z)
  | TrailingBytes (consumed actual : Z)
  | LengthOutOfRange (declared max : Z)
  | NonCanonicalEncoding
  | InvalidDomainTag
  | SignatureVerificationFailed.

#[export] Instance PrimitiveError_eq_dec : EqDecision PrimitiveError.
Proof. solve_decision. Defined.

(** ** Fixed-length byte strings ([FixedBytes<N>], [Uint256], [Int256]) *)

(** [decode_exact] of an [n]-byte array *)
Definition fixed_decode_exact (n : Z) (bs : bytes) : result PrimitiveError bytes :=
  if len bs <? n then Err (Truncated n (len bs))
  else if n <? len bs then Err (TrailingBytes n (len bs))
  else Ok bs.

(** [read] of an [n]-byte array: the value and the advanced cursor *)
Definition fixed_read (n : Z) (cursor : bytes) : result PrimitiveError (bytes * bytes) :=
  if len cursor <? n then Err (Truncated n (len cursor))
  else
    let? head := slice cursor 0 n in
    let? tail := slice cursor n (len cursor) in
    Ok (head, tail).

Definition uint256_encode (v : bytes) : bytes := v.
Definition uint256_decode_exact : bytes → result PrimitiveError bytes := fixed_decode_exact 32.
Definition uint256_read : bytes → result PrimitiveError (bytes * bytes) := fixed_read 32.
Definition Uint256_ZERO : bytes := replicate 32 Byte.x00.
Definition Uint256_MAX : bytes := replicate 32 Byte.xff.
Definition Int256_MIN : bytes := Byte.x80 :: replicate 31 Byte.x00.
Definition Int256_MAX : bytes := Byte.x7f :: replicate 31 Byte.xff.

(** ** Fixed-width integers ([integers.rs]) *)

(** The ten instances of [define_fixed_integer!] *)
Inductive int_type : Type :=
  | Uint8 | Uint16 | Uint32 | Uint64 | Uint128
  | Int8 | Int16 | Int32 | Int64 | Int128.

Definition BYTE_LEN (t : int_type) : nat :=
  match t with
  | Uint8 | Int8 => 1
  | Uint16 | Int16 => 2
  | Uint32 | Int32 => 4
  | Uint64 | Int64 => 8
  | Uint128 | Int128 => 16
  end%nat.

Definition int_signed (t : int_type) : bool :=
  match t with Int8 | Int16 | Int32 | Int64 | Int128 => true | _ => false end.

Definition int_bits (t : int_type) : Z := 8 * Z.of_nat (BYTE_LEN t).

Definition int_MIN (t : int_type) : Z :=
  if int_signed t then - 2 ^ (int_bits t - 1) else 0.
Definition int_MAX (t : int_type) : Z :=
  if int_signed t then 2 ^ (int_bits t - 1) - 1 else 2 ^ int_bits t - 1.
Definition in_int (t : int_type) (v : Z) : Prop := int_MIN t ≤ v ≤ int_MAX t.

Definition int_encode (t : int_type) (v : Z) : bytes := be_bytes (BYTE_LEN t) v.

(** [<native>::from_be_bytes] *)
Definition from_be_bytes (t : int_type) (bs : bytes) : Z :=
  if int_signed t then as_i (int_bits t) (be_val bs) else be_val bs.

Definition int_decode_exact (t : int_type) (bs : bytes) : result PrimitiveError Z :=
  let n := Z.of_nat (BYTE_LEN t) in
  if len bs <? n then Err (Truncated n (len bs))
  else if n <? len bs then Err (TrailingBytes n (len bs))
  else Ok (from_be_bytes t bs).

Definition int_read (t : int_type) (cursor : bytes) : result PrimitiveError (Z * bytes) :=
  let n := Z.of_nat (BYTE_LEN t) in
  if len cursor <? n then Err (Truncated n (len cursor))
  else
    let? head := slice cursor 0 n in
    let? tail := slice cursor n (len cursor) in
    Ok (from_be_bytes t head, tail).

(** ** Length-prefixed byte strings ([bytes.rs]) *)

(** The two instances of [define_bounded_bytes!] *)
Inductive prefix_type : Type := U16 | U32.
Definition prefix_bytes (p : prefix_type) : nat := match p with U16 => 2 | U32 => 4 end%nat.

Record BoundedBytes : Type := { payload : bytes; max_len : Z }.

Definition bounded_new (bs : bytes) (max : Z) : result PrimitiveError BoundedBytes :=
  if max <? len bs then Err (LengthOutOfRange (len bs) max)
  else Ok {| payload := bs; max_len := max |}.

Definition bounded_encode (p : prefix_type) (b : BoundedBytes) : bytes :=
  be_bytes (prefix_bytes p) (len (payload b)) ++ payload b.

Definition bounded_read (p : prefix_type) (cursor : bytes) (max : Z) :
    result PrimitiveError (BoundedBytes * bytes) :=
  let n := Z.of_nat (prefix_bytes p) in
  if len cursor <? n then Err (Truncated n (len cursor))
  else
    let? len_bytes := slice cursor 0 n in
    let? rest := slice cursor n (len cursor) in
    let declared := be_val len_bytes in
    if max <? declared then Err (LengthOutOfRange declared max)
    else if len rest <? declared then Err (Truncated declared (len rest))
    else
      let? pl := slice rest 0 declared in
      let? tail := slice rest declared (len rest) in
      Ok ({| payload := pl; max_len := max |}, tail).

Definition bounded_decode_exact (p : prefix_type) (bs : bytes) (max : Z) :
    result PrimitiveError BoundedBytes :=
  let? (value, cursor) := bounded_read p bs max in
  if negb (len cursor =? 0)
  then Err (TrailingBytes (len bs - len cursor) (len bs))
  else Ok value.

(** ** Domain tags ([hash.rs]) *)

(** [DomainTag::from_ascii]: zero-padded to 32 bytes; the assertion on the
    length is checked when the constant is built. *)
Definition from_ascii (tag : string) : bytes :=
  let bs := String.list_byte_of_string tag in
  take 32 (bs ++ replicate (32 - length bs) Byte.x00).

Definition tag_decode_exact (bs : bytes) : result PrimitiveError bytes :=
  if negb (len bs =? 32) then Err InvalidDomainTag else Ok bs.

Definition BLOCK_HEADER_V1 : bytes := from_ascii "ONX_BLK_HDR_V1".
Definition TX_BODY_V1 : bytes := from_ascii "ONX_TX_BODY_V1".
Definition VALIDATOR_SIGN_V1 : bytes := from_ascii "ONX_VALIDATOR_SIGN_V1".

(** ** The cryptographic libraries

    [sha2] and [ed25519_dalek] are not part of the repository: a model of them
    is a parameter.  [Crypto] lists the calls the code makes, [CryptoLaws] the
    documented facts it relies on. A signature is its 64 bytes, as
    [Signature::from_bytes] and [to_bytes] are inverse and infallible. *)
Class Crypto : Type := {
  sha256_digest : bytes → bytes;
  VerifyingKey : Type;
  vk_eq_dec :: EqDecision VerifyingKey;
  vk_from_bytes : bytes → option VerifyingKey;
  vk_to_bytes : VerifyingKey → bytes;
  verify_strict : VerifyingKey → bytes → bytes → bool;
  SigningKey : Type;
  sk_from_bytes : bytes → SigningKey;
  sk_verifying_key : SigningKey → VerifyingKey;
  sk_sign : SigningKey → bytes → bytes;
}.

Class CryptoLaws (C : Crypto) : Prop := {
  sha256_len m : len (sha256_digest m) = 32;
  vk_to_bytes_len k : len (vk_to_bytes k) = 32;
  vk_from_to k : vk_from_bytes (vk_to_bytes k) = Some k;
  vk_to_from b k : vk_from_bytes b = Some k → vk_to_bytes k = b;
  sign_len sk m : len (sk_sign sk m) = 64;
  sign_verifies sk m : verify_strict (sk_verifying_key sk) m (sk_sign sk m) = true;
}.

(** Two different messages with one digest. *)
Definition sha256_collision `{Crypto} : Prop :=
  ∃ m m' : bytes, m ≠ m' ∧ sha256_digest m = sha256_digest m'.

Section crypto.
Context {C : Crypto}.

Definition sha256 (data : bytes) : bytes := sha256_digest data.

Definition domain_hash (tag data : bytes) : bytes := sha256_digest (tag ++ data).

Definition PublicKey_decode_exact (bs : bytes) : result PrimitiveError VerifyingKey :=
  if len bs <? 32 then Err (Truncated 32 (len bs))
  else if 32 <? len bs then Err (TrailingBytes 32 (len bs))
  else ok_or (vk_from_bytes bs) NonCanonicalEncoding.

Definition PublicKey_encode (k : VerifyingKey) : bytes := vk_to_bytes k.

Definition domain_separated_message (tag message : bytes) : bytes := tag ++ message.

Definition PublicKey_verify (k : VerifyingKey) (tag message signature : bytes) :
    result PrimitiveError unit :=
  if verify_strict k (domain_separated_message tag message) signature
  then Ok tt else Err SignatureVerificationFailed.

Definition SecretKey_from_seed (bs : bytes) : result PrimitiveError SigningKey :=
  if len bs <? 32 then Err (Truncated 32 (len bs))
  else if 32 <? len bs then Err (TrailingBytes 32 (len bs))
  else Ok (sk_from_bytes bs).

Definition SecretKey_public_key (sk : SigningKey) : VerifyingKey := sk_verifying_key sk.

Definition SecretKey_sign (sk : SigningKey) (tag message : bytes) : bytes :=
  sk_sign sk (domain_separated_message tag message).

Definition Signature_decode_exact (bs : bytes) : result PrimitiveError bytes :=
  if len bs <? 64 then Err (Truncated 64 (len bs))
  else if 64 <? len bs then Err (TrailingBytes 64 (len bs))
  else Ok bs.

(** Equal digests of equal-tag messages: the same message, or a collision. *)
Lemma domain_hash_binding tag m m' :
  domain_hash tag m = domain_hash tag m' → m = m' ∨ sha256_collision.
Proof.
  intros H. destruct (decide (m = m')) as [->|Hne]; [by left|right].
  exists (tag ++ m), (tag ++ m'). split; [|done].
  by intros ?%(inj (tag ++.)).
Qed.

Lemma len_domain_hash `{!CryptoLaws C} tag m : len (domain_hash tag m) = 32.
Proof. apply sha256_len. Qed.
End crypto.

#[export] Hint Rewrite @len_domain_hash : len.

(** ** Integer laws *)

Arguments int_encode : simpl never.
Arguments from_be_bytes : simpl never.
Arguments int_decode_exact : simpl never.
Arguments int_read : simpl never.
Arguments fixed_decode_exact : simpl never.
Arguments fixed_read : simpl never.

Lemma int_bits_pos t : 0 < int_bits t.
Proof. by destruct t. Qed.

Lemma int_encode_len t v : len (int_encode t v) = Z.of_nat (BYTE_LEN t).
Proof. apply len_be_bytes. Qed.

(** The width as a literal, which [lia] reads *)
Definition width (t : int_type) : Z :=
  match t with
  | Uint8 | Int8 => 1
  | Uint16 | Int16 => 2
  | Uint32 | Int32 => 4
  | Uint64 | Int64 => 8
  | Uint128 | Int128 => 16
  end.
Lemma int_encode_width t v : len (int_encode t v) = width t.
Proof. rewrite int_encode_len. by destruct t. Qed.
Lemma BYTE_LEN_width t : Z.of_nat (BYTE_LEN t) = width t.
Proof. by destruct t. Qed.
Lemma width_16 : width Uint16 = 2. Proof. done. Qed.
Lemma width_32 : width Uint32 = 4. Proof. done. Qed.
Lemma width_i32 : width Int32 = 4. Proof. done. Qed.
Lemma width_64 : width Uint64 = 8. Proof. done. Qed.
Lemma width_128 : width Uint128 = 16. Proof. done. Qed.
#[export] Hint Rewrite int_encode_width BYTE_LEN_width width_16 width_32 width_i32 width_64 width_128 : len.

(** The unsigned ranges, and a tactic that shows them to [lia] *)
Lemma in_int_u16 v : in_int Uint16 v ↔ in_u 16 v.
Proof. unfold in_int, in_u, int_MIN, int_MAX. change (int_bits Uint16) with 16. simpl. lia. Qed.
Lemma in_int_u32 v : in_int Uint32 v ↔ in_u 32 v.
Proof. unfold in_int, in_u, int_MIN, int_MAX. change (int_bits Uint32) with 32. simpl. lia. Qed.
Lemma in_int_u64 v : in_int Uint64 v ↔ in_u 64 v.
Proof. unfold in_int, in_u, int_MIN, int_MAX. change (int_bits Uint64) with 64. simpl. lia. Qed.
Lemma in_int_u128 v : in_int Uint128 v ↔ in_u 128 v.
Proof. unfold in_int, in_u, int_MIN, int_MAX. change (int_bits Uint128) with 128. simpl. lia. Qed.
Ltac int_lia :=
  rewrite ?in_int_u16, ?in_int_u32, ?in_int_u64, ?in_int_u128 in *; unfold in_u in *; lia.

Lemma pow256_bits t : 256 ^ Z.of_nat (BYTE_LEN t) = 2 ^ int_bits t.
Proof. by destruct t. Qed.

Lemma from_be_bytes_range t bs :
  len bs = Z.of_nat (BYTE_LEN t) → in_int t (from_be_bytes t bs).
Proof.
  intros Hl. unfold in_int, int_MIN, int_MAX, from_be_bytes.
  pose proof (be_val_bound bs) as Hb. rewrite Hl, pow256_bits in Hb.
  pose proof (as_i_bound (int_bits t) (be_val bs) (int_bits_pos t)) as [? ?].
  destruct (int_signed t); lia.
Qed.

Lemma from_be_bytes_encode t v : in_int t v → from_be_bytes t (int_encode t v) = v.
Proof.
  unfold in_int, int_MIN, int_MAX, from_be_bytes, int_encode.
  rewrite be_val_be_bytes, pow256_bits. pose proof (int_bits_pos t).
  destruct (int_signed t); intros Hv; [|apply Z.mod_small; lia].
  unfold as_i. rewrite Zplus_mod_idemp_l. apply as_i_id; unfold in_i; lia.
Qed.

Lemma int_encode_from_be_bytes t bs :
  len bs = Z.of_nat (BYTE_LEN t) → int_encode t (from_be_bytes t bs) = bs.
Proof.
  intros Hl. rewrite <-(be_bytes_be_val bs) at 2.
  assert (length bs = BYTE_LEN t) as -> by (unfold len in Hl; lia).
  unfold int_encode, from_be_bytes. destruct (int_signed t); [|done].
  rewrite <-(be_bytes_be_val (be_bytes _ (as_i _ _))), length_be_bytes.
  rewrite <-(be_bytes_be_val (be_bytes _ (be_val bs))), length_be_bytes.
  rewrite !be_val_be_bytes, pow256_bits, as_i_mod by apply int_bits_pos. done.
Qed.

Lemma int_decode_exact_Ok t bs v :
  int_decode_exact t bs = Ok v ↔ in_int t v ∧ bs = int_encode t v.
Proof.
  unfold int_decode_exact. split.
  - intros H. res_inv. bool_to_prop. split.
    + apply from_be_bytes_range. lia.
    + symmetry. apply int_encode_from_be_bytes. lia.
  - intros [Hv ->]. rewrite int_encode_len, Z.ltb_irrefl. by rewrite from_be_bytes_encode.
Qed.

Lemma int_read_Ok t cursor v rest :
  int_read t cursor = Ok (v, rest) ↔ in_int t v ∧ cursor = int_encode t v ++ rest.
Proof.
  unfold int_read; cbv zeta. split.
  - intros H. destruct (_ <? _) eqn:Hl; [done|]. bool_to_prop.
    destruct (split_at_len cursor (Z.of_nat (BYTE_LEN t))) as (a & b & -> & Ha); [lia|].
    rewrite (slice_app_l a b) in H by lia. simpl in H.
    rewrite slice_app_r in H by lia.
    rewrite slice_all in H by (rewrite ?len_app; lia).
    res_inv. split; [by apply from_be_bytes_range|]. by rewrite int_encode_from_be_bytes.
  - intros [Hv ->]. pose proof (len_nonneg rest).
    rewrite len_app, int_encode_len, (proj2 (Z.ltb_ge _ _)) by lia.
    slice_simpl. simpl. by rewrite from_be_bytes_encode.
Qed.

Lemma int_read_safe t cursor : safe (int_read t cursor).
Proof.
  unfold int_read; cbv zeta. pose proof (len_nonneg cursor).
  destruct (_ <? _) eqn:Hl; [done|]. bool_to_prop.
  by rewrite !slice_Ok by lia.
Qed.

Lemma int_decode_exact_safe t bs : safe (int_decode_exact t bs).
Proof. unfold int_decode_exact. eauto with res. Qed.
#[export] Hint Resolve int_read_safe int_decode_exact_safe : res.

(** ** Exact codecs

    What a component promises about its wire format: [dec] accepts exactly the
    encodings of the values in [dom], and never aborts. *)
Class ExactCodec {E A} (dom : A → Prop) (enc : A → bytes)
    (dec : bytes → result E A) : Prop := {
  codec_exact bs v : dec bs = Ok v ↔ dom v ∧ bs = enc v;
  codec_safe bs : safe (dec bs);
}.

Section codec_laws.
Context {E A} (dom : A → Prop) (enc : A → bytes) (dec : bytes → result E A).
Context `{!ExactCodec dom enc dec}.

Lemma codec_roundtrip v : dom v → dec (enc v) = Ok v.
Proof. intros. by apply codec_exact. Qed.

Lemma codec_enc_inj v w : dom v → dom w → enc v = enc w → v = w.
Proof.
  intros Hv Hw He. apply codec_roundtrip in Hv, Hw. congruence.
Qed.

Lemma codec_dec_inj bs bs' v : dec bs = Ok v → dec bs' = Ok v → bs = bs'.
Proof. by intros [_ ->]%codec_exact [_ ->]%codec_exact. Qed.
End codec_laws.

(** The two halves the fixed layouts prove: encodings decode to themselves, and
    only encodings are accepted. *)
Lemma codec_intro {E A} (dom : A → Prop) (enc : A → bytes) (dec : bytes → result E A) :
  (∀ v, dom v → dec (enc v) = Ok v) →
  (∀ bs v, dec bs = Ok v → ∃ w, dom w ∧ bs = enc w) →
  (∀ bs, safe (dec bs)) →
  ExactCodec dom enc dec.
Proof.
  intros Hrt Hsurj Hs. split; [|done]. intros bs v. split.
  - intros H. destruct (Hsurj bs v H) as (w & Hw & ->).
    rewrite Hrt in H by done. by simplify_eq.
  - intros [Hv ->]. by apply Hrt.
Qed.
#[export] Hint Extern 1 (safe _) => apply codec_safe : res.

#[export] Instance int_codec t : ExactCodec (in_int t) (int_encode t) (int_decode_exact t).
Proof. split; [apply int_decode_exact_Ok|apply int_decode_exact_safe]. Qed.

Lemma fixed_decode_exact_Ok n bs v :
  fixed_decode_exact n bs = Ok v ↔ len v = n ∧ bs = v.
Proof.
  unfold fixed_decode_exact. split.
  - intros H. res_inv. bool_to_prop. split; [lia|done].
  - intros [Hl ->]. by rewrite Hl, Z.ltb_irrefl.
Qed.

#[export] Instance fixed_codec n :
  ExactCodec (λ v, len v = n) (λ v, v) (fixed_decode_exact n).
Proof.
  split; [apply fixed_decode_exact_Ok|].
  intros bs. unfold fixed_decode_exact. eauto with res.
Qed.

Lemma fixed_read_Ok n cursor v rest :
  0 ≤ n → fixed_read n cursor = Ok (v, rest) ↔ len v = n ∧ cursor = v ++ rest.
Proof.
  intros Hn. unfold fixed_read. split.
  - intros H. destruct (_ <? _) eqn:Hl; [done|]. bool_to_prop.
    destruct (split_at_len cursor n) as (a & b & -> & Ha); [lia|].
    rewrite (slice_app_l a b) in H by lia. simpl in H.
    rewrite slice_app_r in H by lia.
    rewrite slice_all in H by (rewrite ?len_app; lia). by res_inv.
  - intros [Hv ->]. pose proof (len_nonneg rest).
    rewrite len_app, (proj2 (Z.ltb_ge _ _)) by lia. by slice_simpl.
Qed.

(** Every canonical integer type decodes a byte string exactly when it is
    the big-endian (two's-complement) encoding of an in-range value, both for
    a whole buffer and at the front of a cursor, and no input aborts. *)
Theorem int_codec_canonical t bs v rest :
  (int_decode_exact t bs = Ok v ↔ in_int t v ∧ bs = int_encode t v) ∧
  (int_read t bs = Ok (v, rest) ↔ in_int t v ∧ bs = int_encode t v ++ rest) ∧
  int_decode_exact t bs ≠ Panic ∧ int_read t bs ≠ Panic.
Proof.
  split_and!; [apply int_decode_exact_Ok|apply int_read_Ok|
    apply int_decode_exact_safe|apply int_read_safe].
Qed.

Lemma bounded_read_Ok p cursor max b rest :
  bounded_read p cursor max = Ok (b, rest) ↔
  max_len b = max ∧ len (payload b) ≤ max ∧
  len (payload b) < 256 ^ Z.of_nat (prefix_bytes p) ∧
  cursor = bounded_encode p b ++ rest.
Proof.
  unfold bounded_read, bounded_encode; cbv zeta. split.
  - intros H. destruct (_ <? _) eqn:Hl; [done|]. bool_to_prop.
    destruct (split_at_len cursor (Z.of_nat (prefix_bytes p))) as (h & r & -> & Hh); [lia|].
    rewrite (slice_app_l h r) in H by lia. simpl in H.
    rewrite slice_app_r in H by lia.
    rewrite slice_all in H by (rewrite ?len_app; lia). simpl in H. res_inv.
    bool_to_prop. pose proof (be_val_bound h) as Hb.
    destruct (split_at_len r (be_val h)) as (a & c & -> & Ha); [lia|].
    rewrite slice_app_l in * by lia.
    rewrite slice_app_r, slice_all in * by (rewrite ?len_app; lia).
    simplify_eq. simpl. rewrite Hh in Hb. split_and!; [done|lia|lia|].
    rewrite Ha, <-app_assoc. f_equal.
    assert (length h = prefix_bytes p) as <- by (unfold len in Hh; lia).
    by rewrite be_bytes_be_val.
  - intros (<- & Hm & Hp & ->). rewrite <-app_assoc.
    pose proof (len_nonneg rest). pose proof (len_nonneg (payload b)).
    rewrite !len_app, len_be_bytes, (proj2 (Z.ltb_ge _ _)) by lia.
    slice_simpl. simpl. slice_simpl. simpl.
    rewrite be_val_be_bytes, Z.mod_small by lia.
    rewrite (proj2 (Z.ltb_ge _ _)) by lia.
    rewrite len_app, (proj2 (Z.ltb_ge _ _)) by lia. slice_simpl. simpl.
    slice_simpl. by destruct b.
Qed.

Lemma bounded_read_safe p cursor max : safe (bounded_read p cursor max).
Proof.
  unfold bounded_read; cbv zeta. destruct (_ <? _) eqn:Hl; [done|]. bool_to_prop.
  destruct (split_at_len cursor (Z.of_nat (prefix_bytes p))) as (h & r & -> & Hh); [lia|].
  slice_simpl. simpl. slice_simpl. simpl. pose proof (be_val_bound h).
  safe_step; [done|]. safe_step; [done|]. bool_to_prop.
  by rewrite !slice_Ok by lia.
Qed.

(** A length-prefixed byte string is accepted exactly when it is the
    canonical encoding of a payload that fits the caller's bound and the
    prefix width, with nothing before or after it; no input aborts. *)
Theorem bounded_bytes_canonical p bs max b :
  (bounded_decode_exact p bs max = Ok b ↔
   max_len b = max ∧ len (payload b) ≤ max ∧
   len (payload b) < 256 ^ Z.of_nat (prefix_bytes p) ∧ bs = bounded_encode p b) ∧
  bounded_decode_exact p bs max ≠ Panic.
Proof.
  unfold bounded_decode_exact. split.
  - split.
    + intros H. res_inv1. destruct x as [v c]. res_inv. bool_to_prop.
      apply len_0_nil in Heqb0 as ->.
      match goal with H : bounded_read _ _ _ = _ |- _ => apply bounded_read_Ok in H end.
      by rewrite app_nil_r in *.
    + intros (H1 & H2 & H3 & ->).
      rewrite <-(app_nil_r (bounded_encode p b)) at 1.
      by rewrite (proj2 (bounded_read_Ok p _ max b [])).
  - apply rbind_safe; [apply bounded_read_safe|]. intros [v c] _. by destruct (negb _).
Qed.

(** Every byte string of the right length encodes exactly one integer. *)
Lemma int_encode_surj t bs :
  len bs = Z.of_nat (BYTE_LEN t) → ∃ v, in_int t v ∧ bs = int_encode t v.
Proof.
  intros H. exists (from_be_bytes t bs).
  by rewrite int_encode_from_be_bytes; auto using from_be_bytes_range.
Qed.

(** Concatenations of fixed-width fields *)
Lemma app_inj_len (a b c d : bytes) : len a = len b → a ++ c = b ++ d → a = b ∧ c = d.
Proof. intros Hl. apply app_inj_1. unfold len in Hl. lia. Qed.

Lemma be_bytes_inj_u (n : nat) v w :
  in_u (8 * Z.of_nat n) v → in_u (8 * Z.of_nat n) w → be_bytes n v = be_bytes n w → v = w.
Proof.
  unfold in_u. rewrite !Z.pow_mul_r by lia. change (2 ^ 8) with 256.
  intros Hv Hw H%be_bytes_inj. by rewrite !Z.mod_small in H.
Qed.
