(* ===== verification/ToyCrypto.v ===== *)
(** A concrete instance of the cryptographic interface: the properties that
    assume its laws are evaluated at it. The digest is a polynomial in the bytes
    of the message; a signature is made of two digests. *)
From S2P Require Import Prelude Bytes Machine Primitives.

Definition toy_digest (m : bytes) : bytes :=
  be_bytes 32 (foldl (λ acc b, (acc * 257 + byte_val b + 1) mod 4294967291) 1 m).

Definition toy_key : Type := { b : bytes | (len b =? 32) = true }.

Definition toy_key_of (b : bytes) : option toy_key :=
  match decide ((len b =? 32) = true) with
  | left H => Some (exist _ b H)
  | right _ => None
  end.

Definition toy_sign (k : bytes) (m : bytes) : bytes := toy_digest (k ++ m) ++ toy_digest m.

Lemma toy_key_len n : (len (be_bytes 32 n) =? 32) = true.
Proof. rewrite len_be_bytes. done. Qed.

Lemma toy_key_eq (a b : toy_key) : `a = `b → a = b.
Proof. destruct a as [a Ha], b as [b Hb]. cbn. intros <-. f_equal. apply proof_irrel. Qed.

#[export] Instance toy_key_eq_dec : EqDecision toy_key := λ a b,
  match decide (`a = `b) with
  | left H => left (toy_key_eq a b H)
  | right H => right (λ E, H (f_equal proj1_sig E))
  end.

Definition toy_crypto : Crypto := {|
  sha256_digest := toy_digest;
  VerifyingKey := toy_key;
  vk_eq_dec := toy_key_eq_dec;
  vk_from_bytes := toy_key_of;
  vk_to_bytes := λ k, `k;
  verify_strict := λ k m s, bool_decide (s = toy_sign (`k) m);
  SigningKey := Z;
  sk_from_bytes := be_val;
  sk_verifying_key := λ sk, exist _ (be_bytes 32 sk) (toy_key_len sk);
  sk_sign := λ sk m, toy_sign (be_bytes 32 sk) m;
|}.

#[export] Instance toy_crypto_laws : CryptoLaws toy_crypto.
Proof.
  assert (∀ m, len (toy_digest m) = 32) as Hlen by (intros; apply len_be_bytes).
  split; cbn [sha256_digest VerifyingKey vk_from_bytes vk_to_bytes verify_strict SigningKey
    sk_from_bytes sk_verifying_key sk_sign toy_crypto].
  - done.
  - intros [b Hb]. by apply Z.eqb_eq.
  - intros [b Hb]. unfold toy_key_of. cbn [proj1_sig]. destruct (decide _) as [H|]; [|done].
    do 2 f_equal. apply proof_irrel.
  - unfold toy_key_of. intros b k. destruct (decide _); intros; by simplify_eq.
  - intros sk m. unfold toy_sign. by rewrite len_app, !Hlen.
  - intros. by apply bool_decide_eq_true.
Qed.
