(* ===== verification/Address.v ===== *)
(** [onx-data-structures], [address.rs] and [shard.rs]: workchains, accounts,
    full addresses and shard prefixes. *)
From S2P Require Import Prelude Bytes Machine Primitives.

(** ** Errors ([error.rs]) *)

Inductive DataStructureError : Type :=
  | Primitive (e : PrimitiveError)
  | InvalidShardMarker
  | ShardPrefixLengthExceeded (length : Z)
  | AddressShardMismatch
  | InvalidMessageType (tag : Z)
  | HeaderMagicMismatch (magic : Z)
  | MergeParentReferenceInconsistency
  | TruncatedInput (expected got : Z)
  | DSTrailingBytes (remaining : Z).

#[export] Instance DataStructureError_eq_dec : EqDecision DataStructureError.
Proof. solve_decision. Defined.

(** The exact-length check every fixed layout starts with. *)
Definition check_exact_len (n : Z) (bs : bytes) : result DataStructureError unit :=
  if len bs <? n then Err (TruncatedInput n (len bs))
  else if n <? len bs then Err (DSTrailingBytes (len bs - n))
  else Ok tt.

Lemma check_exact_len_Ok n bs u : check_exact_len n bs = Ok u ↔ len bs = n.
Proof.
  unfold check_exact_len. destruct u. split.
  - intros H. res_inv. bool_to_prop. lia.
  - intros ->. by rewrite Z.ltb_irrefl.
Qed.
Lemma check_exact_len_safe n bs : safe (check_exact_len n bs).
Proof. unfold check_exact_len. eauto with res. Qed.
Lemma check_exact_len_ok n bs : len bs = n → check_exact_len n bs = Ok tt.
Proof. apply check_exact_len_Ok. Qed.
#[export] Hint Resolve check_exact_len_safe : res.
#[export] Hint Resolve check_exact_len_ok : decode.

(** ** Addresses ([address.rs]) *)

(** A [WorkchainIdent] is its [i32], an [AccountId] its 32 bytes. *)
Definition MASTERCHAIN : Z := -1.
Definition BASIC : Z := 0.
Definition is_masterchain (w : Z) : bool := w =? -1.
Definition workchain_to_bytes (w : Z) : bytes := int_encode Int32 w.
Definition workchain_from_bytes (bs : bytes) : Z := from_be_bytes Int32 bs.
Definition account_to_bytes (a : bytes) : bytes := uint256_encode a.

Record FullAddress : Type := { addr_workchain : Z; addr_account : bytes }.

#[export] Instance FullAddress_eq_dec : EqDecision FullAddress.
Proof. solve_decision. Defined.
#[export] Instance FullAddress_countable : Countable FullAddress.
Proof.
  apply (inj_countable' (λ a, (addr_workchain a, addr_account a))
    (λ '(w, a), {| addr_workchain := w; addr_account := a |})). by intros [].
Defined.

Definition FullAddress_wf (a : FullAddress) : Prop :=
  in_int Int32 (addr_workchain a) ∧ len (addr_account a) = 32.

Definition FullAddress_to_bytes (a : FullAddress) : bytes :=
  workchain_to_bytes (addr_workchain a) ++ account_to_bytes (addr_account a).

Definition FullAddress_from_bytes (bs : bytes) : result DataStructureError FullAddress :=
  let? _ := check_exact_len 36 bs in
  let? wc_bytes := slice bs 0 4 in
  let? acct_bytes := slice bs 4 36 in
  Ok {| addr_workchain := workchain_from_bytes wc_bytes; addr_account := acct_bytes |}.

Lemma FullAddress_to_bytes_len a : FullAddress_wf a → len (FullAddress_to_bytes a) = 36.
Proof.
  intros [_ Ha]. unfold FullAddress_to_bytes, workchain_to_bytes, account_to_bytes.
  autorewrite with len. unfold uint256_encode. rewrite Ha. done.
Qed.

(** Cuts a byte string of known length into named pieces. *)
Tactic Notation "cut_bytes" ident(bs) constr(n) "as" ident(a) ident(Ha) :=
  let b := fresh "rest" in
  destruct (split_at_len bs n) as (a & b & -> & Ha);
  [ autorewrite with len in *; lia
  | autorewrite with len in *; rename b into bs ].

#[export] Instance FullAddress_codec :
  ExactCodec FullAddress_wf FullAddress_to_bytes FullAddress_from_bytes.
Proof.
  assert (∀ w a, len w = 4 → len a = 32 → FullAddress_from_bytes (w ++ a) =
    Ok {| addr_workchain := workchain_from_bytes w; addr_account := a |}) as Hap.
  { intros w a Hw Ha. unfold FullAddress_from_bytes.
    rewrite (proj2 (check_exact_len_Ok 36 _ tt)) by (autorewrite with len; lia).
    simpl. slice_simpl. simpl. by slice_simpl. }
  split.
  - intros bs v. split.
    + intros H. assert (len bs = 36) as Hl.
      { unfold FullAddress_from_bytes in H. res_inv. by apply check_exact_len_Ok in H0. }
      cut_bytes bs 4 as w Hw. rewrite Hap in H by lia. res_inv.
      split; [split; cbn; [by apply from_be_bytes_range|lia]|].
      unfold FullAddress_to_bytes, workchain_to_bytes, workchain_from_bytes.
      cbn [addr_workchain addr_account]. by rewrite int_encode_from_be_bytes.
    + intros [[Hw Ha] ->]. unfold FullAddress_to_bytes, workchain_to_bytes.
      rewrite Hap by (unfold account_to_bytes, uint256_encode; autorewrite with len; done).
      unfold workchain_from_bytes. rewrite from_be_bytes_encode by done. by destruct v.
  - intros bs. unfold FullAddress_from_bytes. safe_step; [eauto with res|].
    apply check_exact_len_Ok in H. by rewrite !slice_Ok by lia.
Qed.

(** ** Shards ([shard.rs]) *)

Record ShardIdent : Type := { workchain_id : Z; shard_prefix_ident : Z }.

#[export] Instance ShardIdent_eq_dec : EqDecision ShardIdent.
Proof. solve_decision. Defined.
#[export] Instance ShardIdent_countable : Countable ShardIdent.
Proof.
  apply (inj_countable' (λ s, (workchain_id s, shard_prefix_ident s))
    (λ '(w, p), {| workchain_id := w; shard_prefix_ident := p |})). by intros [].
Defined.

Definition ROOT_PREFIX : Z := 2 ^ 63.

Definition prefix_len (s : ShardIdent) : result DataStructureError Z :=
  let val := shard_prefix_ident s in
  if val =? 0 then Err InvalidShardMarker
  else
    let prefix_len := 63 - trailing_zeros val in
    if 60 <? prefix_len then Err (ShardPrefixLengthExceeded prefix_len)
    else Ok prefix_len.

Definition shard_validate (s : ShardIdent) : result DataStructureError unit :=
  let? _ := prefix_len s in Ok tt.

Definition shard_new (w prefix : Z) : result DataStructureError ShardIdent :=
  let shard := {| workchain_id := w; shard_prefix_ident := prefix |} in
  let? _ := shard_validate shard in Ok shard.

Definition shard_root (w : Z) : ShardIdent :=
  {| workchain_id := w; shard_prefix_ident := ROOT_PREFIX |}.

Definition prefix_mask (l : Z) : Z := if l =? 0 then 0 else shl64 (not64 0) (64 - l).

Definition from_prefix_bits (w bits l : Z) : result DataStructureError ShardIdent :=
  if 60 <? l then Err (ShardPrefixLengthExceeded l)
  else
    let marker_bit := shl64 1 (63 - l) in
    let prefix_ident := Z.lor (Z.land bits (prefix_mask l)) marker_bit in
    Ok {| workchain_id := w; shard_prefix_ident := prefix_ident |}.

Definition contains_account (s : ShardIdent) (a : bytes) : result DataStructureError bool :=
  let? l := prefix_len s in
  if l =? 0 then Ok true
  else
    let? head := slice a 0 8 in
    let acct_msb_u64 := be_val head in
    let mask := shl64 (not64 0) (64 - l) in
    Ok (Z.land (shard_prefix_ident s) mask =? Z.land acct_msb_u64 mask).

Definition validate_account_id (s : ShardIdent) (a : bytes) : result DataStructureError unit :=
  let? b := contains_account s a in
  if b then Ok tt else Err AddressShardMismatch.

Definition validate_full_address (s : ShardIdent) (a : FullAddress) :
    result DataStructureError unit :=
  if negb (workchain_id s =? addr_workchain a) then Err AddressShardMismatch
  else validate_account_id s (addr_account a).

Definition shard_to_bytes (s : ShardIdent) : bytes :=
  workchain_to_bytes (workchain_id s) ++ int_encode Uint64 (shard_prefix_ident s).

Definition shard_from_bytes (bs : bytes) : result DataStructureError ShardIdent :=
  let? _ := check_exact_len 12 bs in
  let? wc_bytes := slice bs 0 4 in
  let? p_bytes := slice bs 4 12 in
  let? p := map_err Primitive (int_decode_exact Uint64 p_bytes) in
  let shard := {| workchain_id := workchain_from_bytes wc_bytes; shard_prefix_ident := p |} in
  let? _ := shard_validate shard in
  Ok shard.

(** The types of the fields *)
Definition shard_typed (s : ShardIdent) : Prop :=
  in_int Int32 (workchain_id s) ∧ in_u 64 (shard_prefix_ident s).

(** [s] denotes the [l]-bit prefix [p] (as a number): [p], the marker bit and zeros. *)
Definition shard_prefix (s : ShardIdent) (l p : Z) : Prop :=
  0 ≤ l ≤ 60 ∧ 0 ≤ p < 2 ^ l ∧ shard_prefix_ident s = (2 * p + 1) * 2 ^ (63 - l).

Lemma pow64_split l : 0 ≤ l ≤ 63 → 2 ^ 64 = 2 ^ l * 2 * 2 ^ (63 - l).
Proof.
  intros. change (2 ^ l * 2) with (2 ^ l * 2 ^ 1).
  rewrite <-!Z.pow_add_r by lia. f_equal. lia.
Qed.

Lemma shard_prefix_u64 s l p : shard_prefix s l p → in_u 64 (shard_prefix_ident s).
Proof.
  intros (Hl & Hp & ->). unfold in_u. rewrite (pow64_split l) by lia.
  assert (0 < 2 ^ (63 - l)) by lia. nia.
Qed.

Lemma prefix_len_Ok s l :
  in_u 64 (shard_prefix_ident s) →
  prefix_len s = Ok l ↔ ∃ p, shard_prefix s l p.
Proof.
  intros Hs. unfold prefix_len, shard_prefix. cbv zeta. split.
  - intros H. res_inv. bool_to_prop. unfold in_u in Hs.
    destruct (trailing_zeros_spec (shard_prefix_ident s)) as (Hn & k & Hk & Heq); [lia|].
    pose proof (trailing_zeros_bound (shard_prefix_ident s) 64 ltac:(lia)) as Hb.
    set (n := trailing_zeros (shard_prefix_ident s)) in *.
    exists k. replace (63 - (63 - n)) with n by lia.
    pose proof (pow64_split (63 - n) ltac:(lia)) as Hsp.
    replace (63 - (63 - n)) with n in Hsp by lia. assert (0 < 2 ^ n) by lia.
    split_and!; [lia..|nia|done].
  - intros (p & Hl & Hp & ->).
    rewrite trailing_zeros_shift by lia.
    assert (0 < 2 ^ (63 - l)) by lia.
    destruct (Z.eqb_spec ((2 * p + 1) * 2 ^ (63 - l)) 0); [nia|].
    rewrite (proj2 (Z.ltb_ge _ _)) by lia. f_equal. lia.
Qed.

(** *** Prefixes as numbers *)

Lemma shard_prefix_top s l p :
  shard_prefix s l p → shard_prefix_ident s / 2 ^ (64 - l) = p.
Proof.
  intros (Hl & Hp & ->). replace (64 - l) with (1 + (63 - l)) by lia.
  rewrite Z.pow_add_r by lia. assert (0 < 2 ^ (63 - l)) by lia.
  rewrite Z.div_mul_cancel_r by lia. rewrite Z.mul_comm.
  rewrite Z.add_comm, Z.div_add by lia. done.
Qed.

Lemma shard_prefix_inj s l p l' p' :
  shard_prefix s l p → shard_prefix s l' p' → l = l' ∧ p = p'.
Proof.
  intros H H'. pose proof (shard_prefix_u64 _ _ _ H) as Hu.
  assert (prefix_len s = Ok l) by (apply prefix_len_Ok; eauto).
  assert (prefix_len s = Ok l') by (apply prefix_len_Ok; eauto).
  assert (l = l') as <- by congruence.
  apply shard_prefix_top in H, H'. split; congruence.
Qed.

Lemma land_prefix v l :
  0 ≤ l ≤ 64 → in_u 64 v →
  Z.land v (prefix_mask l) = v / 2 ^ (64 - l) * 2 ^ (64 - l).
Proof.
  intros Hl Hv. unfold prefix_mask. destruct (Z.eqb_spec l 0) as [->|].
  - rewrite Z.land_0_r. rewrite Z.div_small; [done|]. apply Hv.
  - apply land_prefix_mask; [lia|done].
Qed.

Lemma prefix_bound v l : 0 ≤ l ≤ 64 → in_u 64 v → 0 ≤ v / 2 ^ (64 - l) < 2 ^ l.
Proof.
  intros Hl [Hv0 Hv]. split; [apply Z.div_pos; lia|].
  apply Z.div_lt_upper_bound; [lia|]. rewrite <-Z.pow_add_r by lia.
  by replace (64 - l + l) with 64 by lia.
Qed.

Lemma from_prefix_bits_Ok w bits l s :
  0 ≤ l → in_u 64 bits →
  from_prefix_bits w bits l = Ok s ↔
  workchain_id s = w ∧ shard_prefix s l (bits / 2 ^ (64 - l)).
Proof.
  intros Hl Hb. unfold from_prefix_bits. cbv zeta.
  destruct (Z.ltb_spec 60 l).
  { split; [done|]. intros [_ [? _]]. lia. }
  rewrite land_prefix, shl64_1 by (done || lia).
  replace (64 - l) with (63 - l + 1) by lia. rewrite lor_marker by lia.
  replace (63 - l + 1) with (64 - l) by lia.
  pose proof (prefix_bound bits l ltac:(lia) Hb). unfold shard_prefix. split.
  - intros [= <-]. cbn. split_and!; [done|lia..|done].
  - intros (<- & _ & _ & <-). by destruct s.
Qed.

(** The shard of workchain [w] with the prefix [p] of [l] bits *)
Definition shard_at (w l p : Z) : ShardIdent :=
  {| workchain_id := w; shard_prefix_ident := (2 * p + 1) * 2 ^ (63 - l) |}.

Lemma shard_at_prefix w l p : 0 ≤ l ≤ 60 → 0 ≤ p < 2 ^ l → shard_prefix (shard_at w l p) l p.
Proof. intros. unfold shard_prefix. auto. Qed.

Lemma shard_prefix_at s l p : shard_prefix s l p → s = shard_at (workchain_id s) l p.
Proof. intros (_ & _ & Hi). destruct s; unfold shard_at; cbn in *. by rewrite Hi. Qed.

Lemma prefix_len_at w l p : 0 ≤ l ≤ 60 → 0 ≤ p < 2 ^ l → prefix_len (shard_at w l p) = Ok l.
Proof.
  intros Hl Hp. pose proof (shard_at_prefix w l p Hl Hp) as Hs.
  apply prefix_len_Ok; [by eapply shard_prefix_u64|eauto].
Qed.

(** *** Accounts of a shard *)

(** Bit [i] of an account identifier, most significant first *)
Definition account_bit (a : bytes) (i : Z) : bool := Z.testbit (be_val a) (255 - i).

Lemma account_head a : len a = 32 →
  ∃ h t, a = h ++ t ∧ len h = 8 ∧ be_val h = be_val a / 2 ^ 192 ∧ in_u 64 (be_val h).
Proof.
  intros Ha. destruct (split_at_len a 8) as (h & t & -> & Hh); [lia|].
  exists h, t. pose proof (be_val_bound h) as Hbh. pose proof (be_val_bound t) as Hbt.
  rewrite len_app in Ha. rewrite be_val_app. replace (len t) with 24 in * by lia.
  rewrite Hh in Hbh. split_and!; [done|done| |].
  - rewrite Z.div_add_l by done. rewrite Z.div_small; [lia|done].
  - unfold in_u. done.
Qed.

Lemma contains_account_Ok s l p a :
  shard_prefix s l p → len a = 32 →
  contains_account s a = Ok (bool_decide (be_val a / 2 ^ (256 - l) = p)).
Proof.
  intros Hs Ha. pose proof (shard_prefix_u64 _ _ _ Hs) as Hu. unfold contains_account.
  rewrite (proj2 (prefix_len_Ok s l Hu)) by eauto. simpl.
  destruct (account_head a Ha) as (h & t & -> & Hh & Hv & Hub).
  pose proof Hs as (Hl & Hp & _). pose proof (be_val_bound (h ++ t)) as Hbv. rewrite Ha in Hbv.
  destruct (Z.eqb_spec l 0) as [->|].
  { rewrite bool_decide_true; [done|]. rewrite Z.div_small by done.
    change (2 ^ 0) with 1 in Hp. lia. }
  rewrite slice_app_l by lia. simpl. f_equal.
  assert (shl64 (not64 0) (64 - l) = prefix_mask l) as ->
    by (unfold prefix_mask; by rewrite (proj2 (Z.eqb_neq l 0))).
  rewrite !land_prefix by (done || lia). rewrite (shard_prefix_top _ _ _ Hs), Hv.
  rewrite Z.div_div by lia. rewrite <-Z.pow_add_r by lia.
  replace (192 + (64 - l)) with (256 - l) by lia. assert (0 < 2 ^ (64 - l)) by lia.
  by apply eqb_mul_pow2; lia.
Qed.

Lemma prefix_eq_bits x y n m l :
  0 ≤ l → l ≤ n → l ≤ m → in_u n x → in_u m y →
  x / 2 ^ (n - l) = y / 2 ^ (m - l) ↔
  ∀ i, 0 ≤ i < l → Z.testbit x (n - 1 - i) = Z.testbit y (m - 1 - i).
Proof.
  intros Hl Hn Hm Hx Hy. rewrite <-!Z.shiftr_div_pow2 by lia. split.
  - intros H i Hi. pose proof (f_equal (λ z, Z.testbit z (l - 1 - i)) H) as Hb. simpl in Hb.
    rewrite !Z.shiftr_spec in Hb by lia.
    replace (l - 1 - i + (n - l)) with (n - 1 - i) in Hb by lia.
    by replace (l - 1 - i + (m - l)) with (m - 1 - i) in Hb by lia.
  - intros H. apply Z.bits_inj'. intros j Hj. rewrite !Z.shiftr_spec by lia.
    destruct (Z.lt_ge_cases j l).
    + specialize (H (l - 1 - j) ltac:(lia)).
      replace (n - 1 - (l - 1 - j)) with (j + (n - l)) in H by lia.
      by replace (m - 1 - (l - 1 - j)) with (j + (m - l)) in H by lia.
    + rewrite (testbit_high n x), (testbit_high m y); done || lia.
Qed.

(** For every prefix length up to 60, the shard built from prefix bits
    reports that length and contains exactly the accounts whose identifier
    starts with those bits; longer prefixes are refused. *)
Theorem shard_prefix_membership w bits l a :
  0 ≤ l → in_u 64 bits → len a = 32 →
  (l ≤ 60 → ∃ s, from_prefix_bits w bits l = Ok s ∧ workchain_id s = w ∧
     prefix_len s = Ok l ∧
     ∃ b, contains_account s a = Ok b ∧
       (b = true ↔ ∀ i, 0 ≤ i < l → account_bit a i = Z.testbit bits (63 - i))) ∧
  (60 < l → from_prefix_bits w bits l = Err (ShardPrefixLengthExceeded l)).
Proof.
  intros Hl Hb Ha. split.
  - intros Hl60.
    destruct (from_prefix_bits w bits l) as [s|e|] eqn:Hs;
      [|unfold from_prefix_bits in Hs; by rewrite (proj2 (Z.ltb_ge _ _)) in Hs by lia..].
    apply from_prefix_bits_Ok in Hs as [Hw Hs]; [|done..].
    exists s. split_and!; [done|done| |].
    { apply prefix_len_Ok; eauto using shard_prefix_u64. }
    eexists. split; [by apply contains_account_Ok|].
    rewrite bool_decide_eq_true. pose proof (be_val_bound a) as Hba. rewrite Ha in Hba.
    apply (prefix_eq_bits _ _ 256 64); [lia..|done|done].
  - intros. unfold from_prefix_bits. by rewrite (proj2 (Z.ltb_lt _ _)).
Qed.

Lemma shard_prefix_membership_witness :
  ∃ s, from_prefix_bits 0 (2 ^ 63) 1 = Ok s ∧ workchain_id s = 0 ∧ prefix_len s = Ok 1 ∧
     ∃ b, contains_account s (replicate 32 Byte.xff) = Ok b ∧
       (b = true ↔ ∀ i, 0 ≤ i < 1 →
          account_bit (replicate 32 Byte.xff) i = Z.testbit (2 ^ 63) (63 - i)).
Proof.
  apply (shard_prefix_membership 0 (2 ^ 63) 1 (replicate 32 Byte.xff));
    [lia|unfold in_u; lia|reflexivity|lia].
Defined.

(** *** Serialisation *)

Definition ShardIdent_wf (s : ShardIdent) : Prop :=
  in_int Int32 (workchain_id s) ∧ ∃ l p, shard_prefix s l p.

Lemma ShardIdent_wf_u64 s : ShardIdent_wf s → in_int Uint64 (shard_prefix_ident s).
Proof.
  intros [_ (l & p & Hs)]. by apply in_int_u64, (shard_prefix_u64 _ l p).
Qed.

Lemma shard_validate_Ok s u :
  in_u 64 (shard_prefix_ident s) →
  shard_validate s = Ok u ↔ ∃ l p, shard_prefix s l p.
Proof.
  intros Hs. unfold shard_validate. destruct u. split.
  - intros H. res_inv. apply prefix_len_Ok in H0 as [p ?]; eauto.
  - intros (l & p & H). by rewrite (proj2 (prefix_len_Ok s l Hs)) by eauto.
Qed.

Lemma prefix_len_safe s : safe (prefix_len s).
Proof. unfold prefix_len. cbv zeta. eauto with res. Qed.
Lemma shard_validate_safe s : safe (shard_validate s).
Proof. apply rbind_safe; [apply prefix_len_safe|done]. Qed.
#[export] Hint Resolve prefix_len_safe shard_validate_safe : res.

Lemma shard_to_bytes_len s : len (shard_to_bytes s) = 12.
Proof. unfold shard_to_bytes, workchain_to_bytes. by autorewrite with len. Qed.
#[export] Hint Rewrite shard_to_bytes_len : len.

#[export] Instance ShardIdent_codec : ExactCodec ShardIdent_wf shard_to_bytes shard_from_bytes.
Proof.
  assert (∀ w p, len w = 4 → len p = 8 → shard_from_bytes (w ++ p) =
    let s := {| workchain_id := from_be_bytes Int32 w;
                shard_prefix_ident := from_be_bytes Uint64 p |} in
    let? _ := shard_validate s in Ok s) as Hap.
  { intros w p Hw Hp. unfold shard_from_bytes, workchain_from_bytes.
    rewrite (proj2 (check_exact_len_Ok 12 _ tt)) by (autorewrite with len; lia).
    simpl. slice_simpl. simpl. slice_simpl. simpl.
    by rewrite <-(int_encode_from_be_bytes Uint64 p) at 1 by done;
      rewrite (proj2 (int_decode_exact_Ok Uint64 _ (from_be_bytes Uint64 p)))
        by (split; [by apply from_be_bytes_range|done]). }
  split.
  - intros bs v. split.
    + intros H. assert (len bs = 12) as Hl.
      { unfold shard_from_bytes in H. res_inv. by apply check_exact_len_Ok in H0. }
      cut_bytes bs 4 as w Hw. assert (len bs = 8) as Hb by lia.
      rewrite Hap in H by done. cbv zeta in H. res_inv.
      pose proof (from_be_bytes_range Uint64 bs Hb) as Hr.
      apply shard_validate_Ok in H0; [|by apply in_int_u64].
      split; [split; [by apply from_be_bytes_range|done]|].
      unfold shard_to_bytes, workchain_to_bytes. cbn [workchain_id shard_prefix_ident].
      by rewrite !int_encode_from_be_bytes.
    + intros [Hwf ->]. pose proof (ShardIdent_wf_u64 _ Hwf) as Hu.
      destruct Hwf as [Hw Hp]. unfold shard_to_bytes, workchain_to_bytes.
      rewrite Hap by apply int_encode_len. cbv zeta.
      rewrite !from_be_bytes_encode by done. destruct v as [w p].
      cbn [workchain_id shard_prefix_ident] in *.
      by rewrite (proj2 (shard_validate_Ok {| workchain_id := w; shard_prefix_ident := p |}
        tt (proj1 (in_int_u64 p) Hu)) Hp).
  - intros bs. unfold shard_from_bytes. safe_step; [eauto with res|].
    apply check_exact_len_Ok in H. rewrite !slice_Ok by lia. simpl.
    repeat safe_step.
Qed.
