(* ===== verification/Message.v ===== *)
(** [onx-data-structures], [message.rs]: the message record, its canonical
    layout and its shard validation. *)
From S2P Require Import Prelude Bytes Machine Primitives Address.

Inductive MessageType : Type := Internal | ExternalInbound | ExternalOutbound.

#[export] Instance MessageType_eq_dec : EqDecision MessageType.
Proof. solve_decision. Defined.

Definition msg_from_tag (tag : Z) : result DataStructureError MessageType :=
  if tag =? 1 then Ok Internal
  else if tag =? 2 then Ok ExternalInbound
  else if tag =? 3 then Ok ExternalOutbound
  else Err (InvalidMessageType tag).

Definition msg_tag (t : MessageType) : Z :=
  match t with Internal => 1 | ExternalInbound => 2 | ExternalOutbound => 3 end.

Record Message : Type := {
  msg_type : MessageType;
  src_address : FullAddress;
  dest_address : FullAddress;
  amount_nanos : Z;
  extra_currencies : list (Z * Z);
  created_lt : Z;
  body_cell_hash : bytes;
}.

#[export] Instance Message_eq_dec : EqDecision Message.
Proof. solve_decision. Defined.

Definition MESSAGE_DOMAIN_TAG : bytes := from_ascii "ONX_MSG_HASH_V1".
Definition FIXED_BYTE_LENGTH : Z := 133.

Definition pair_to_bytes (p : Z * Z) : bytes :=
  int_encode Uint32 p.1 ++ int_encode Uint128 p.2.

(** [checked_mul(20).expect(..)] needs [2^64 / 20] pairs in memory to fail. *)
Definition Message_to_bytes (m : Message) : bytes :=
  [byte_of (msg_tag (msg_type m))]
  ++ FullAddress_to_bytes (src_address m)
  ++ FullAddress_to_bytes (dest_address m)
  ++ int_encode Uint128 (amount_nanos m)
  ++ int_encode Uint32 (len (extra_currencies m))
  ++ concat (pair_to_bytes <$> extra_currencies m)
  ++ int_encode Uint64 (created_lt m)
  ++ uint256_encode (body_cell_hash m).

Definition decode_int (t : int_type) (bs : bytes) : result DataStructureError Z :=
  map_err Primitive (int_decode_exact t bs).
Definition decode_uint256 (bs : bytes) : result DataStructureError bytes :=
  map_err Primitive (uint256_decode_exact bs).

(** The loop over [0..count] *)
Fixpoint read_pairs (count : nat) (bs : bytes) (offset : Z) :
    result DataStructureError (list (Z * Z)) :=
  match count with
  | O => Ok []
  | S count =>
      let? id_bytes := slice bs offset (offset + 4) in
      let? currency_id := decode_int Uint32 id_bytes in
      let? value_bytes := slice bs (offset + 4) (offset + 20) in
      let? value := decode_int Uint128 value_bytes in
      let? rest := read_pairs count bs (offset + 20) in
      Ok ((currency_id, value) :: rest)
  end.

(** [usize] is 64 bits wide; [checked_mul] and [checked_add] report
    [usize::MAX] when the declared size does not fit. *)
Definition Message_from_bytes (bs : bytes) : result DataStructureError Message :=
  if len bs <? FIXED_BYTE_LENGTH then Err (TruncatedInput FIXED_BYTE_LENGTH (len bs))
  else
    let? tag := index bs 0 in
    let? ty := msg_from_tag (byte_val tag) in
    let? src_bytes := slice bs 1 37 in
    let? src := FullAddress_from_bytes src_bytes in
    let? dest_bytes := slice bs 37 73 in
    let? dest := FullAddress_from_bytes dest_bytes in
    let? amount_bytes := slice bs 73 89 in
    let? amount := decode_int Uint128 amount_bytes in
    let? count_bytes := slice bs 89 93 in
    let? count := decode_int Uint32 count_bytes in
    let? pairs_len := ok_or (checked_mul_u 64 count 20) (TruncatedInput u64_max (len bs)) in
    let? expected := ok_or (checked_add_u 64 FIXED_BYTE_LENGTH pairs_len)
                       (TruncatedInput u64_max (len bs)) in
    if len bs <? expected then Err (TruncatedInput expected (len bs))
    else if expected <? len bs then Err (DSTrailingBytes (len bs - expected))
    else
      let? extra := read_pairs (Z.to_nat count) bs 93 in
      let offset := 93 + 20 * count in
      let? lt_bytes := slice bs offset (offset + 8) in
      let? lt := decode_int Uint64 lt_bytes in
      let? body_bytes := slice bs (offset + 8) (offset + 40) in
      let? body := decode_uint256 body_bytes in
      Ok {| msg_type := ty; src_address := src; dest_address := dest;
            amount_nanos := amount; extra_currencies := extra;
            created_lt := lt; body_cell_hash := body |}.

Definition validate_source_shard (m : Message) (s : ShardIdent) :=
  validate_full_address s (src_address m).
Definition validate_dest_shard (m : Message) (s : ShardIdent) :=
  validate_full_address s (dest_address m).

Definition message_validate_against_shard (m : Message) (s : ShardIdent) :
    result DataStructureError unit :=
  match msg_type m with
  | Internal =>
      if is_ok (validate_source_shard m s) || is_ok (validate_dest_shard m s)
      then Ok tt else Err AddressShardMismatch
  | ExternalInbound => validate_dest_shard m s
  | ExternalOutbound => validate_source_shard m s
  end.

Definition message_hash `{Crypto} (m : Message) : bytes :=
  domain_hash MESSAGE_DOMAIN_TAG (Message_to_bytes m).

(** The ranges of the field types; a [Vec] holds fewer than [2^32] pairs. *)
Definition pair_wf (p : Z * Z) : Prop := in_int Uint32 p.1 ∧ in_int Uint128 p.2.
Definition Message_wf (m : Message) : Prop :=
  FullAddress_wf (src_address m) ∧ FullAddress_wf (dest_address m) ∧
  in_int Uint128 (amount_nanos m) ∧
  Forall pair_wf (extra_currencies m) ∧ in_int Uint32 (len (extra_currencies m)) ∧
  in_int Uint64 (created_lt m) ∧ len (body_cell_hash m) = 32.

(** ** Decoding steps *)

Lemma decode_int_encode t v : in_int t v → decode_int t (int_encode t v) = Ok v.
Proof.
  intros. unfold decode_int. by rewrite (proj2 (int_decode_exact_Ok t _ v)).
Qed.
Lemma decode_int_safe t bs : safe (decode_int t bs).
Proof. unfold decode_int. auto with res. Qed.

Lemma decode_uint256_id v : len v = 32 → decode_uint256 v = Ok v.
Proof.
  intros. unfold decode_uint256, uint256_decode_exact.
  by rewrite (proj2 (fixed_decode_exact_Ok 32 v v)).
Qed.
Lemma decode_uint256_safe bs : safe (decode_uint256 bs).
Proof. apply map_err_safe, codec_safe. Qed.
#[export] Hint Resolve decode_int_safe decode_uint256_safe : res.
#[export] Hint Resolve decode_int_encode decode_uint256_id : decode.

Lemma FullAddress_decode a :
  FullAddress_wf a → FullAddress_from_bytes (FullAddress_to_bytes a) = Ok a.
Proof. intros. by apply codec_exact. Qed.

#[export] Hint Resolve FullAddress_decode : decode.

Lemma FullAddress_encode_surj bs :
  len bs = 36 → ∃ a, FullAddress_wf a ∧ bs = FullAddress_to_bytes a.
Proof.
  intros H. cut_bytes bs 4 as w Hw.
  exists {| addr_workchain := from_be_bytes Int32 w; addr_account := bs |}.
  split; [split; cbn; [by apply from_be_bytes_range|lia]|].
  unfold FullAddress_to_bytes, workchain_to_bytes. cbn [addr_workchain addr_account].
  by rewrite int_encode_from_be_bytes.
Qed.

Lemma msg_from_tag_tag t : msg_from_tag (byte_val (byte_of (msg_tag t))) = Ok t.
Proof. by destruct t. Qed.

Lemma msg_from_tag_Ok b t : msg_from_tag (byte_val b) = Ok t → b = byte_of (msg_tag t).
Proof.
  intros H. apply (inj byte_val). rewrite byte_val_of. revert H. unfold msg_from_tag.
  repeat case_match; intros; simplify_eq; bool_to_prop; done.
Qed.

Lemma msg_from_tag_safe z : safe (msg_from_tag z).
Proof. unfold msg_from_tag. by repeat case_match. Qed.
#[export] Hint Resolve msg_from_tag_safe : res.
#[export] Hint Resolve msg_from_tag_tag : decode.

(** ** The pairs *)

Lemma pair_to_bytes_len p : len (pair_to_bytes p) = 20.
Proof. unfold pair_to_bytes. by autorewrite with len. Qed.
Lemma pairs_len ps : len (concat (pair_to_bytes <$> ps)) = 20 * len ps.
Proof.
  induction ps as [|p ps IH]; [done|]. cbn [fmap list_fmap concat].
  rewrite len_app, pair_to_bytes_len, IH, len_cons. lia.
Qed.
#[export] Hint Rewrite pair_to_bytes_len pairs_len : len.

Lemma read_pairs_app_r n l k off :
  len l ≤ off → read_pairs n (l ++ k) off = read_pairs n k (off - len l).
Proof.
  revert off. induction n as [|n IH]; intros off Hoff; [done|]. cbn [read_pairs].
  rewrite !slice_app_r, IH by lia.
  by replace (off - len l + 4) with (off + 4 - len l) by lia;
    replace (off - len l + 20) with (off + 20 - len l) by lia.
Qed.

Lemma read_pairs_encode ps post :
  Forall pair_wf ps → read_pairs (length ps) (concat (pair_to_bytes <$> ps) ++ post) 0 = Ok ps.
Proof.
  induction ps as [|[i v] ps IH]; intros Hps; [done|].
  apply Forall_cons in Hps as [[Hi Hv] Hps]. cbn [fst snd] in *.
  cbn [length read_pairs fmap list_fmap concat].
  rewrite <-(app_assoc (pair_to_bytes _)), read_pairs_app_r by (autorewrite with len; lia).
  autorewrite with len. change (0 + 20 - 20) with 0. rewrite IH by done.
  change (pair_to_bytes (i, v)) with (int_encode Uint32 i ++ int_encode Uint128 v).
  rewrite <-!app_assoc. by decode_simpl.
Qed.

Lemma pairs_surj n bs :
  len bs = 20 * Z.of_nat n →
  ∃ ps, length ps = n ∧ Forall pair_wf ps ∧ bs = concat (pair_to_bytes <$> ps).
Proof.
  revert bs. induction n as [|n IH]; intros bs Hl.
  { exists []. by rewrite (len_0_nil bs) by lia. }
  cut_bytes bs 4 as a Ha. cut_bytes bs 16 as b Hb.
  destruct (int_encode_surj Uint32 a Ha) as (i & Hi & ->).
  destruct (int_encode_surj Uint128 b Hb) as (v & Hv & ->).
  destruct (IH bs ltac:(autorewrite with len in *; lia)) as (ps & <- & Hps & ->).
  exists ((i, v) :: ps). split_and!; [done|by constructor|].
  cbn [fmap list_fmap concat].
  change (pair_to_bytes (i, v)) with (int_encode Uint32 i ++ int_encode Uint128 v).
  by rewrite <-app_assoc.
Qed.

(** ** The message codec *)

Lemma Message_to_bytes_len m :
  Message_wf m → len (Message_to_bytes m) = 133 + 20 * len (extra_currencies m).
Proof.
  intros (Hs & Hd & _ & _ & _ & _ & Hb). unfold Message_to_bytes, uint256_encode.
  autorewrite with len. rewrite !FullAddress_to_bytes_len, Hb by done. simpl. lia.
Qed.

Lemma Message_roundtrip m : Message_wf m → Message_from_bytes (Message_to_bytes m) = Ok m.
Proof.
  intros Hwf. pose proof (Message_to_bytes_len m Hwf) as Hlen.
  destruct Hwf as (Hs & Hd & Ha & Hps & Hc & Hlt & Hb).
  pose proof (len_nonneg (extra_currencies m)) as Hnn.
  assert (len (extra_currencies m) < 2 ^ 32) as Hc32 by (clear -Hc; int_lia).
  unfold Message_from_bytes, FIXED_BYTE_LENGTH.
  rewrite Hlen, (proj2 (Z.ltb_ge _ _)) by lia.
  unfold Message_to_bytes, uint256_encode.
  pose proof (FullAddress_to_bytes_len _ Hs) as Hsl.
  pose proof (FullAddress_to_bytes_len _ Hd) as Hdl.
  decode_simpl. rewrite !(proj2 (Z.ltb_ge _ _)) by lia.
  rewrite !read_pairs_app_r by (autorewrite with len; lia). autorewrite with len.
  rewrite Hsl, Hdl. unfold len at 1. rewrite Nat2Z.id.
  change (93 - (1 + 0) - 36 - 36 - 16 - 4) with 0.
  rewrite read_pairs_encode by done. decode_simpl. by destruct m.
Qed.

Lemma Message_surj bs v :
  Message_from_bytes bs = Ok v → ∃ m, Message_wf m ∧ bs = Message_to_bytes m.
Proof.
  intros H. assert (133 ≤ len bs) as Hl.
  { unfold Message_from_bytes, FIXED_BYTE_LENGTH in H. res_inv. by bool_to_prop. }
  revert H. cut_bytes bs 1 as tag Htag. cut_bytes bs 36 as src Hsrc.
  cut_bytes bs 36 as dst Hdst. cut_bytes bs 16 as amt Hamt. cut_bytes bs 4 as cnt Hcnt.
  destruct (len_1_inv tag Htag) as [t ->].
  destruct (FullAddress_encode_surj src Hsrc) as (s & Hs & ->).
  destruct (FullAddress_encode_surj dst Hdst) as (d & Hd & ->).
  destruct (int_encode_surj Uint128 amt Hamt) as (a & Ha & ->).
  destruct (int_encode_surj Uint32 cnt Hcnt) as (c & Hc & ->).
  assert (c < 2 ^ 32) by (clear -Hc; int_lia).
  unfold Message_from_bytes, FIXED_BYTE_LENGTH. decode_simpl.
  rewrite (proj2 (Z.ltb_ge _ _)) by (autorewrite with len; lia).
  destruct (msg_from_tag (byte_val t)) as [ty|e|] eqn:Ht; try done.
  apply msg_from_tag_Ok in Ht as ->. decode_simpl.
  do 2 (case_match; [done|]). intros _. bool_to_prop. autorewrite with len in *.
  assert (0 ≤ c) by (clear -Hc; int_lia).
  cut_bytes bs (20 * c) as pairs Hpairs. cut_bytes bs 8 as lt Hlt.
  destruct (pairs_surj (Z.to_nat c) pairs) as (ps & Hn & Hps & ->); [lia|].
  destruct (int_encode_surj Uint64 lt Hlt) as (l & Hl' & ->).
  assert (len ps = c) as <- by (unfold len; lia).
  exists {| msg_type := ty; src_address := s; dest_address := d; amount_nanos := a;
            extra_currencies := ps; created_lt := l; body_cell_hash := bs |}.
  split; [|done].
  split_and!; cbn [src_address dest_address amount_nanos extra_currencies
    created_lt body_cell_hash]; try done. rewrite Hlt in *. lia.
Qed.

Lemma read_pairs_safe n bs off :
  0 ≤ off → off + 20 * Z.of_nat n ≤ len bs → safe (read_pairs n bs off).
Proof.
  revert off. induction n as [|n IH]; intros off H0 Hl; [done|]. cbn [read_pairs].
  repeat safe_step; apply IH; lia.
Qed.

Lemma decode_int_range t bs v : decode_int t bs = Ok v → in_int t v.
Proof. unfold decode_int. by intros [? _]%map_err_Ok%int_decode_exact_Ok. Qed.

Lemma Message_from_bytes_safe bs : safe (Message_from_bytes bs).
Proof.
  unfold Message_from_bytes, FIXED_BYTE_LENGTH. cbv zeta.
  repeat safe_step.
  all: repeat match goal with
    | H : decode_int Uint32 _ = Ok _ |- _ => apply decode_int_range in H
    | H : ok_or (checked_mul_u _ _ _) _ = Ok _ |- _ => apply ok_or_Ok, checked_mul_u_Some in H as [-> _]
    | H : ok_or (checked_add_u _ _ _) _ = Ok _ |- _ => apply ok_or_Ok, checked_add_u_Some in H as [-> _]
    end.
  all: rewrite in_int_u32 in *; unfold in_u in *; bool_to_prop.
  all: (apply read_pairs_safe || apply slice_safe); lia.
Qed.

#[export] Instance Message_codec : ExactCodec Message_wf Message_to_bytes Message_from_bytes.
Proof.
  apply codec_intro;
    [apply Message_roundtrip|apply Message_surj|apply Message_from_bytes_safe].
Qed.

(** Distinct messages have distinct encodings, hence distinct hashes unless
    SHA-256 collides. *)
Lemma message_hash_binding `{Crypto} m m' :
  Message_wf m → Message_wf m' → message_hash m = message_hash m' →
  m = m' ∨ sha256_collision.
Proof.
  intros Hm Hm' [Heq|?]%domain_hash_binding; [left|by right].
  by apply (codec_enc_inj Message_wf Message_to_bytes Message_from_bytes).
Qed.

(** The message decoder accepts exactly the canonical encodings of
    well-formed messages, aborts on no input, and the message hash identifies
    the message up to SHA-256 collisions. *)
Theorem message_canonical `{Crypto} bs m m' :
  (Message_from_bytes bs = Ok m ↔ Message_wf m ∧ bs = Message_to_bytes m) ∧
  Message_from_bytes bs ≠ Panic ∧
  (Message_wf m → Message_wf m' → message_hash m = message_hash m' →
   m = m' ∨ sha256_collision).
Proof.
  split_and!; [apply codec_exact|apply codec_safe|apply message_hash_binding].
Qed.
