(* ===== verification/Block.v ===== *)
(** [onx-data-structures], [block.rs]: the block header and its fixed
    layout. *)
From S2P Require Import Prelude Bytes Machine Primitives Address Message.

Definition BLOCK_HEADER_MAGIC : Z := 0x1F2E3D4C.
Definition MERGE_RESULT_FLAG : Z := 0x0010.

Record BlockHeader : Type := {
  magic_constructor : Z;
  header_shard : ShardIdent;
  seq_no : Z;
  flags : Z;
  gen_utime : Z;
  start_lt : Z;
  end_lt : Z;
  prev_key_block : Z;
  prev_ref_hash : bytes;
  prev_ref_hash_2 : bytes;
  master_ref_hash : bytes;
  state_root_hash : bytes;
  in_msg_root_hash : bytes;
  out_msg_root_hash : bytes;
}.

#[export] Instance BlockHeader_eq_dec : EqDecision BlockHeader.
Proof. solve_decision. Defined.

Definition BLOCK_BYTE_LENGTH : Z :=
  4 + 12 + 4 + 2 + 4 + 8 + 8 + 4 + 32 + 32 + 32 + 32 + 32 + 32.

Definition BlockHeader_to_bytes (h : BlockHeader) : bytes :=
  int_encode Uint32 (magic_constructor h)
  ++ shard_to_bytes (header_shard h)
  ++ int_encode Uint32 (seq_no h)
  ++ int_encode Uint16 (flags h)
  ++ int_encode Uint32 (gen_utime h)
  ++ int_encode Uint64 (start_lt h)
  ++ int_encode Uint64 (end_lt h)
  ++ int_encode Uint32 (prev_key_block h)
  ++ uint256_encode (prev_ref_hash h)
  ++ uint256_encode (prev_ref_hash_2 h)
  ++ uint256_encode (master_ref_hash h)
  ++ uint256_encode (state_root_hash h)
  ++ uint256_encode (in_msg_root_hash h)
  ++ uint256_encode (out_msg_root_hash h).

Definition is_merge_flag (flags : Z) : bool := negb (Z.land flags MERGE_RESULT_FLAG =? 0).

(** The field at [offset .. offset + n], decoded by [dec] *)
Definition field {A} (dec : bytes → result DataStructureError A) (bs : bytes) (offset n : Z) :
    result DataStructureError A :=
  let? piece := slice bs offset (offset + n) in
  dec piece.

Definition BlockHeader_from_bytes (bs : bytes) : result DataStructureError BlockHeader :=
  let? _ := check_exact_len BLOCK_BYTE_LENGTH bs in
  let? magic := field (decode_int Uint32) bs 0 4 in
  if negb (magic =? BLOCK_HEADER_MAGIC) then Err (HeaderMagicMismatch magic)
  else
    let? shard := field shard_from_bytes bs 4 12 in
    let? seq := field (decode_int Uint32) bs 16 4 in
    let? fl := field (decode_int Uint16) bs 20 2 in
    let? utime := field (decode_int Uint32) bs 22 4 in
    let? slt := field (decode_int Uint64) bs 26 8 in
    let? elt := field (decode_int Uint64) bs 34 8 in
    let? pkb := field (decode_int Uint32) bs 42 4 in
    let? prev := field decode_uint256 bs 46 32 in
    let? prev2 := field decode_uint256 bs 78 32 in
    let is_merge_result := is_merge_flag fl in
    let is_prev_2_zero := bool_decide (prev2 = Uint256_ZERO) in
    if negb is_merge_result && negb is_prev_2_zero
    then Err MergeParentReferenceInconsistency
    else if is_merge_result && is_prev_2_zero
    then Err MergeParentReferenceInconsistency
    else
      let? master := field decode_uint256 bs 110 32 in
      let? state := field decode_uint256 bs 142 32 in
      let? inm := field decode_uint256 bs 174 32 in
      let? outm := field decode_uint256 bs 206 32 in
      Ok {| magic_constructor := magic; header_shard := shard; seq_no := seq; flags := fl;
            gen_utime := utime; start_lt := slt; end_lt := elt; prev_key_block := pkb;
            prev_ref_hash := prev; prev_ref_hash_2 := prev2; master_ref_hash := master;
            state_root_hash := state; in_msg_root_hash := inm; out_msg_root_hash := outm |}.

Definition block_hash `{Crypto} (h : BlockHeader) : bytes :=
  domain_hash BLOCK_HEADER_V1 (BlockHeader_to_bytes h).

(** Field types *)
Definition BlockHeader_typed (h : BlockHeader) : Prop :=
  in_int Uint32 (magic_constructor h) ∧ shard_typed (header_shard h) ∧
  in_int Uint32 (seq_no h) ∧ in_int Uint16 (flags h) ∧ in_int Uint32 (gen_utime h) ∧
  in_int Uint64 (start_lt h) ∧ in_int Uint64 (end_lt h) ∧ in_int Uint32 (prev_key_block h) ∧
  len (prev_ref_hash h) = 32 ∧ len (prev_ref_hash_2 h) = 32 ∧ len (master_ref_hash h) = 32 ∧
  len (state_root_hash h) = 32 ∧ len (in_msg_root_hash h) = 32 ∧ len (out_msg_root_hash h) = 32.

(** The rules every decoded header obeys: the magic, a valid shard, and a second
    parent exactly in merge results. *)
Definition BlockHeader_wf (h : BlockHeader) : Prop :=
  BlockHeader_typed h ∧ magic_constructor h = BLOCK_HEADER_MAGIC ∧
  ShardIdent_wf (header_shard h) ∧
  (is_merge_flag (flags h) = true ↔ prev_ref_hash_2 h ≠ Uint256_ZERO).

(** ** The codec *)

Lemma field_step {A} (dec : bytes → result DataStructureError A) bs o n piece v :
  slice (E:=DataStructureError) bs o (o + n) = Ok piece → dec piece = Ok v →
  field dec bs o n = Ok v.
Proof. unfold field. by intros ->. Qed.

Lemma field_safe {A} (dec : bytes → result DataStructureError A) bs o n :
  0 ≤ o → 0 ≤ n → o + n ≤ len bs → (∀ b, safe (dec b)) → safe (field dec bs o n).
Proof. intros. unfold field. rewrite slice_Ok by lia. simpl. auto. Qed.

Lemma shard_decode s : ShardIdent_wf s → shard_from_bytes (shard_to_bytes s) = Ok s.
Proof. intros. by apply codec_exact. Qed.
#[export] Hint Resolve shard_decode : decode.
#[export] Hint Extern 1 (safe (field _ _ _ _)) =>
  apply field_safe; [lia|lia|lia|solve [intros; auto with res]] : res.

Lemma is_merge_flag_spec f : is_merge_flag f = Z.testbit f 4.
Proof.
  unfold is_merge_flag, MERGE_RESULT_FLAG. change 0x0010 with (2 ^ 4).
  destruct (Z.testbit f 4) eqn:Hb.
  - destruct (Z.eqb_spec (Z.land f (2 ^ 4)) 0) as [H|]; [|done].
    apply (f_equal (λ z, Z.testbit z 4)) in H.
    by rewrite Z.land_spec, Hb, Z.pow2_bits_true, Z.bits_0 in H.
  - destruct (Z.eqb_spec (Z.land f (2 ^ 4)) 0) as [|H]; [done|destruct H].
    apply Z.bits_inj'. intros i Hi. rewrite Z.land_spec, Z.bits_0, Z.pow2_bits_eqb by lia.
    destruct (Z.eqb_spec 4 i) as [<-|]; [by rewrite Hb|by rewrite andb_false_r].
Qed.

Lemma BlockHeader_roundtrip h :
  BlockHeader_wf h → BlockHeader_from_bytes (BlockHeader_to_bytes h) = Ok h.
Proof.
  intros ((Hm & _ & Hs & Hf & Hu & Hsl & Hel & Hk & Hp & Hp2 & Hmr & Hst & Hi & Ho)
    & Hmagic & Hsh & Hmerge).
  unfold BlockHeader_from_bytes, BlockHeader_to_bytes, uint256_encode, BLOCK_BYTE_LENGTH, field.
  decode_simpl. rewrite Hmagic. change (negb (_ =? _)) with false. cbv iota.
  destruct (is_merge_flag (flags h)) eqn:Hflag.
  - rewrite bool_decide_false by by apply Hmerge. rewrite <-Hmagic. by destruct h.
  - rewrite bool_decide_true
      by (apply dec_stable; intros Hne; apply Hmerge in Hne; congruence).
    rewrite <-Hmagic. by destruct h.
Qed.

Lemma BlockHeader_surj bs v :
  BlockHeader_from_bytes bs = Ok v → ∃ h, BlockHeader_wf h ∧ bs = BlockHeader_to_bytes h.
Proof.
  intros H. assert (len bs = 238) as Hl.
  { unfold BlockHeader_from_bytes in H. res_inv. by apply check_exact_len_Ok in H0. }
  revert H. cut_bytes bs 4 as b1 H1. cut_bytes bs 12 as b2 H2. cut_bytes bs 4 as b3 H3.
  cut_bytes bs 2 as b4 H4. cut_bytes bs 4 as b5 H5. cut_bytes bs 8 as b6 H6.
  cut_bytes bs 8 as b7 H7. cut_bytes bs 4 as b8 H8. cut_bytes bs 32 as b9 H9.
  cut_bytes bs 32 as b10 H10. cut_bytes bs 32 as b11 H11. cut_bytes bs 32 as b12 H12.
  cut_bytes bs 32 as b13 H13.
  destruct (int_encode_surj Uint32 b1 H1) as (m & Hm & ->).
  destruct (int_encode_surj Uint32 b3 H3) as (q & Hq & ->).
  destruct (int_encode_surj Uint16 b4 H4) as (f & Hf & ->).
  destruct (int_encode_surj Uint32 b5 H5) as (u & Hu & ->).
  destruct (int_encode_surj Uint64 b6 H6) as (sl & Hsl & ->).
  destruct (int_encode_surj Uint64 b7 H7) as (el & Hel & ->).
  destruct (int_encode_surj Uint32 b8 H8) as (k & Hk & ->).
  unfold BlockHeader_from_bytes, BLOCK_BYTE_LENGTH, field. decode_simpl.
  destruct (Z.eqb_spec m BLOCK_HEADER_MAGIC) as [->|]; [|done]. cbn [negb].
  destruct (shard_from_bytes b2) as [sh|e|] eqn:Hsh; try done.
  apply codec_exact in Hsh as [Hsh ->]. decode_simpl. intros H.
  eexists {| magic_constructor := BLOCK_HEADER_MAGIC; header_shard := sh; seq_no := q;
    flags := f; gen_utime := u; start_lt := sl; end_lt := el; prev_key_block := k;
    prev_ref_hash := b9; prev_ref_hash_2 := b10; master_ref_hash := b11;
    state_root_hash := b12; in_msg_root_hash := b13; out_msg_root_hash := bs |}.
  split; [|done]. rewrite H9, H10, H11, H12, H13 in Hl. autorewrite with len in Hl.
  assert (is_merge_flag f = true ↔ b10 ≠ Uint256_ZERO) as Hmerge.
  { clear -H. destruct (is_merge_flag f), (bool_decide_reflect (b10 = Uint256_ZERO));
      cbn [negb andb] in H; done. }
  destruct Hsh as [Hw (l & p & Hp)].
  split; [|split; [done|split; [split; cbn [header_shard]; eauto|done]]].
  unfold BlockHeader_typed, shard_typed. cbn [magic_constructor header_shard seq_no flags gen_utime
    start_lt end_lt prev_key_block prev_ref_hash prev_ref_hash_2 master_ref_hash state_root_hash
    in_msg_root_hash out_msg_root_hash workchain_id shard_prefix_ident].
  split_and!; try done; try lia. apply (shard_prefix_u64 _ _ _ Hp).
Qed.

Lemma BlockHeader_from_bytes_safe bs : safe (BlockHeader_from_bytes bs).
Proof.
  unfold BlockHeader_from_bytes. safe_step; [eauto with res|].
  apply check_exact_len_Ok in H. unfold BLOCK_BYTE_LENGTH in H. cbv zeta.
  repeat safe_step.
Qed.

#[export] Instance BlockHeader_codec :
  ExactCodec BlockHeader_wf BlockHeader_to_bytes BlockHeader_from_bytes.
Proof.
  apply codec_intro;
    [apply BlockHeader_roundtrip|apply BlockHeader_surj|apply BlockHeader_from_bytes_safe].
Qed.

Lemma block_hash_binding `{Crypto} h h' :
  BlockHeader_wf h → BlockHeader_wf h' → block_hash h = block_hash h' →
  h = h' ∨ sha256_collision.
Proof.
  intros Hh Hh' [Heq|?]%domain_hash_binding; [left|by right].
  by apply (codec_enc_inj BlockHeader_wf BlockHeader_to_bytes BlockHeader_from_bytes).
Qed.

(** The block-header decoder accepts exactly the 238-byte encodings of
    headers with the magic constructor, a valid shard and a second parent
    reference present exactly when flag bit 4 (MERGE_RESULT) is set; it aborts
    on no input; block hashes identify such headers up to SHA-256 collisions. *)
Theorem block_header_canonical `{Crypto} bs h h' :
  (BlockHeader_from_bytes bs = Ok h ↔ BlockHeader_wf h ∧ bs = BlockHeader_to_bytes h) ∧
  (BlockHeader_from_bytes bs = Ok h → len bs = 238 ∧
     (Z.testbit (flags h) 4 = true ↔ prev_ref_hash_2 h ≠ Uint256_ZERO)) ∧
  BlockHeader_from_bytes bs ≠ Panic ∧
  (BlockHeader_wf h → BlockHeader_wf h' → block_hash h = block_hash h' →
   h = h' ∨ sha256_collision).
Proof.
  split_and!; [apply codec_exact| |apply codec_safe|apply block_hash_binding].
  intros Hd. pose proof Hd as Hwf. apply codec_exact in Hwf as [Hwf _]. split.
  - unfold BlockHeader_from_bytes in Hd. res_inv.
    by match goal with Hc : check_exact_len _ _ = _ |- _ => apply check_exact_len_Ok in Hc end.
  - rewrite <-is_merge_flag_spec. apply Hwf.
Qed.
