(* ===== verification/Cell.v ===== *)
(** [onx-state-model], [error.rs] and [cell.rs]: cells, their layout and their
    representation hash. *)
From S2P Require Import Prelude Bytes Machine Primitives.

(** The messages the text variants carry are not modelled. *)
Inductive StateModelError : Type :=
  | InvalidDescriptor
  | DataTooLarge (length max : Z)
  | TooManyReferences (count max : Z)
  | DeserializationError
  | SMTrailingBytes (remaining : Z)
  | InvalidStateType (v : Z)
  | InvalidStateTransition
  | LogicalTimeRegression (current next : Z)
  | BalanceUnderflow
  | CyclicCellReference
  | StateRootMismatch (expected actual : bytes)
  | InvalidMerkleProof.

#[export] Instance StateModelError_eq_dec : EqDecision StateModelError.
Proof. solve_decision. Defined.

Definition ONX_CELL_HASH_V1_TAG : bytes := from_ascii "ONX_CELL_HASH_V1".
Definition MAX_CELL_DATA_BYTES : Z := 128.
Definition MAX_CELL_REFS : Z := 4.

Record Cell : Type := { data_bytes : bytes; cell_refs : list bytes; is_special : bool }.

#[export] Instance Cell_eq_dec : EqDecision Cell.
Proof. solve_decision. Defined.

Definition new_with_special (data : bytes) (refs : list bytes) (special : bool) :
    result StateModelError Cell :=
  if MAX_CELL_DATA_BYTES <? len data then Err (DataTooLarge (len data) MAX_CELL_DATA_BYTES)
  else if MAX_CELL_REFS <? len refs then Err (TooManyReferences (len refs) MAX_CELL_REFS)
  else Ok {| data_bytes := data; cell_refs := refs; is_special := special |}.

Definition Cell_new (data : bytes) (refs : list bytes) : result StateModelError Cell :=
  new_with_special data refs false.

Definition descriptor_bytes (c : Cell) : Z * Z :=
  let d1 := as_u 8 (len (cell_refs c)) in
  let d1 := if is_special c then Z.lor d1 0x08 else d1 in
  (d1, as_u 8 (len (data_bytes c))).

Definition cell_hash `{Crypto} (c : Cell) : bytes :=
  let '(d1, d2) := descriptor_bytes c in
  domain_hash ONX_CELL_HASH_V1_TAG
    ([byte_of d1] ++ [byte_of d2] ++ data_bytes c ++ concat (cell_refs c)).

Definition Cell_to_bytes (c : Cell) : bytes :=
  let '(d1, d2) := descriptor_bytes c in
  let descriptor_u16 := Z.lor (as_u 16 (Z.shiftl d1 8)) d2 in
  int_encode Uint16 descriptor_u16 ++ data_bytes c ++ concat (cell_refs c).

(** The loop over [0..ref_count] *)
Fixpoint read_refs (n : nat) (bs : bytes) (offset : Z) : result StateModelError (list bytes) :=
  match n with
  | O => Ok []
  | S n =>
      let? ref_hash := slice bs offset (offset + 32) in
      let? rest := read_refs n bs (offset + 32) in
      Ok (ref_hash :: rest)
  end.

(** The cell and the number of bytes consumed *)
Definition Cell_from_bytes (bs : bytes) : result StateModelError (Cell * Z) :=
  if len bs <? 2 then Err DeserializationError
  else
    let? (descriptor_u16, _) := map_err (λ _, DeserializationError) (int_read Uint16 bs) in
    let offset := 2 in
    let d1 := as_u 8 (Z.shiftr descriptor_u16 8) in
    let d2 := as_u 8 (Z.land descriptor_u16 0xFF) in
    let ref_count := Z.land d1 0x07 in
    let special := negb (Z.land d1 0x08 =? 0) in
    let data_len := d2 in
    if MAX_CELL_REFS <? ref_count then Err (TooManyReferences ref_count MAX_CELL_REFS)
    else if MAX_CELL_DATA_BYTES <? data_len then Err (DataTooLarge data_len MAX_CELL_DATA_BYTES)
    else
      let required_len := offset + data_len + ref_count * 32 in
      if len bs <? required_len then Err DeserializationError
      else
        let? data := slice bs offset (offset + data_len) in
        let? refs := read_refs (Z.to_nat ref_count) bs (offset + data_len) in
        let? cell := new_with_special data refs special in
        Ok (cell, offset + data_len + 32 * ref_count).

(** What [new_with_special] guarantees, and the references' type *)
Definition Cell_wf (c : Cell) : Prop :=
  len (data_bytes c) ≤ 128 ∧ len (cell_refs c) ≤ 4 ∧ Forall (λ r : bytes, len r = 32) (cell_refs c).

Lemma new_with_special_Ok data refs special c :
  new_with_special data refs special = Ok c ↔
  c = {| data_bytes := data; cell_refs := refs; is_special := special |} ∧
  len data ≤ 128 ∧ len refs ≤ 4.
Proof.
  unfold new_with_special, MAX_CELL_DATA_BYTES, MAX_CELL_REFS. split.
  - intros H. res_inv. bool_to_prop. split_and!; [done|lia|lia].
  - intros (-> & ? & ?). by rewrite !(proj2 (Z.ltb_ge _ _)) by lia.
Qed.

(** ** Descriptors *)

Lemma descriptor_range c :
  Cell_wf c → (descriptor_bytes c).2 = len (data_bytes c) ∧
  (descriptor_bytes c).1 = len (cell_refs c) + (if is_special c then 8 else 0).
Proof.
  intros (Hd & Hr & _). unfold descriptor_bytes. cbn [fst snd].
  pose proof (len_nonneg (data_bytes c)). pose proof (len_nonneg (cell_refs c)).
  rewrite !as_u_id by (unfold in_u; lia). split; [done|].
  destruct (is_special c); [|lia].
  assert (∃ n, len (cell_refs c) = n ∧ (n = 0 ∨ n = 1 ∨ n = 2 ∨ n = 3 ∨ n = 4)) as (n & -> & Hn)
    by (eexists; split; [done|lia]).
  by destruct Hn as [-> | [-> | [-> | [-> | -> ]]]].
Qed.

Lemma descriptor_encode d1 d2 :
  0 ≤ d1 < 256 → 0 ≤ d2 < 256 →
  int_encode Uint16 (Z.lor (as_u 16 (Z.shiftl d1 8)) d2) = [byte_of d1; byte_of d2].
Proof.
  intros H1 H2. rewrite Z.shiftl_mul_pow2, as_u_id by (unfold in_u; lia).
  rewrite <-Z.add_nocarry_lor.
  2:{ apply Z.bits_inj'. intros i Hi. rewrite Z.land_spec, Z.bits_0.
      destruct (Z.lt_ge_cases i 8).
      - by rewrite <-Z.shiftl_mul_pow2, Z.shiftl_spec_low by lia.
      - rewrite (testbit_high 8 d2) by (unfold in_u; lia). by rewrite andb_false_r. }
  unfold int_encode. cbn [BYTE_LEN be_bytes]. change (256 ^ Z.of_nat 1) with 256.
  change (256 ^ Z.of_nat 0) with 1. change (2 ^ 8) with 256.
  rewrite Z.div_add_l, (Z.div_small d2), Z.add_0_r, Z.div_1_r by lia. f_equal. f_equal.
  rewrite <-byte_of_mod, Z.add_comm, Z.mod_add by lia. apply byte_of_mod.
Qed.

(** The two halves of a decoded descriptor *)
Lemma descriptor_halves b1 b2 v :
  int_encode Uint16 v = [b1; b2] → in_int Uint16 v →
  as_u 8 (Z.shiftr v 8) = byte_val b1 ∧ as_u 8 (Z.land v 0xFF) = byte_val b2.
Proof.
  intros He Hv. apply (f_equal (from_be_bytes Uint16)) in He.
  rewrite from_be_bytes_encode in He by done. unfold from_be_bytes in He. cbn in He.
  pose proof (byte_val_bound b1). pose proof (byte_val_bound b2).
  change 0xFF with (Z.ones 8). rewrite Z.land_ones, Z.shiftr_div_pow2 by lia.
  change (2 ^ 8) with 256. unfold as_u. change (2 ^ 8) with 256.
  replace v with (byte_val b1 * 256 + byte_val b2) by lia.
  rewrite Z.div_add_l, (Z.div_small (byte_val b2)), Z.add_0_r by lia.
  rewrite (Z.add_comm (_ * _)), Z.mod_add, Z.mod_mod, !Z.mod_small by lia. done.
Qed.

(** The low nibble of [d1] is the reference count and the special flag; its high
    nibble is ignored. *)
Lemma d1_split b :
  byte_val b = 16 * (byte_val b / 16) + Z.land (byte_val b) 7
               + (if negb (Z.land (byte_val b) 8 =? 0) then 8 else 0).
Proof. by destruct b. Qed.

(** ** References *)

Lemma refs_len refs : Forall (λ r : bytes, len r = 32) refs → len (concat refs) = 32 * len refs.
Proof.
  induction 1 as [|r refs Hr _ IH]; [done|]. cbn [concat]. autorewrite with len. lia.
Qed.

Lemma read_refs_app_r n l k off :
  len l ≤ off → read_refs n (l ++ k) off = read_refs n k (off - len l).
Proof.
  revert off. induction n as [|n IH]; intros off Hoff; [done|]. cbn [read_refs].
  rewrite slice_app_r, IH by lia.
  by replace (off - len l + 32) with (off + 32 - len l) by lia.
Qed.

Lemma read_refs_encode refs post :
  Forall (λ r : bytes, len r = 32) refs → read_refs (length refs) (concat refs ++ post) 0 = Ok refs.
Proof.
  induction 1 as [|r refs Hr _ IH]; [done|]. cbn [length read_refs concat].
  rewrite <-app_assoc, read_refs_app_r by lia. rewrite Hr. change (0 + 32 - 32) with 0.
  rewrite IH. by decode_simpl.
Qed.

Lemma refs_surj n bs :
  len bs = 32 * Z.of_nat n →
  ∃ refs, length refs = n ∧ Forall (λ r : bytes, len r = 32) refs ∧ bs = concat refs.
Proof.
  revert bs. induction n as [|n IH]; intros bs Hl.
  { exists []. by rewrite (len_0_nil bs) by lia. }
  destruct (split_at_len bs 32) as (a & b & -> & Ha); [lia|].
  destruct (IH b) as (refs & <- & Hrefs & ->); [autorewrite with len in *; lia|].
  exists (a :: refs). split_and!; [done|by constructor|done].
Qed.

Lemma read_refs_safe n bs off :
  0 ≤ off → off + 32 * Z.of_nat n ≤ len bs → safe (read_refs n bs off).
Proof.
  revert off. induction n as [|n IH]; intros off H0 Hl; [done|]. cbn [read_refs].
  repeat safe_step; apply IH; lia.
Qed.

(** ** The cell codec *)

(** The layout of [c], with [hi] in the four bits of [d1] that carry nothing *)
Definition cell_layout (hi : Z) (c : Cell) : bytes :=
  [byte_of (16 * hi + (descriptor_bytes c).1)] ++ [byte_of (descriptor_bytes c).2]
  ++ data_bytes c ++ concat (cell_refs c).

Lemma Cell_to_bytes_layout c : Cell_wf c → Cell_to_bytes c = cell_layout 0 c.
Proof.
  intros Hwf. pose proof (descriptor_range c Hwf) as [H2 H1].
  destruct Hwf as (Hd & Hr & _). pose proof (len_nonneg (data_bytes c)).
  pose proof (len_nonneg (cell_refs c)).
  unfold Cell_to_bytes, cell_layout. destruct (descriptor_bytes c) as [d1 d2]. cbn [fst snd] in *.
  rewrite descriptor_encode by (destruct (is_special c); lia). done.
Qed.

Lemma len_cell_hash `{CryptoLaws} c : len (cell_hash c) = 32.
Proof. unfold cell_hash. destruct (descriptor_bytes c). apply len_domain_hash. Qed.

Lemma cell_hash_layout `{Crypto} c :
  cell_hash c = domain_hash ONX_CELL_HASH_V1_TAG (cell_layout 0 c).
Proof. unfold cell_hash, cell_layout. by destruct (descriptor_bytes c). Qed.

Lemma cell_layout_len hi c :
  Cell_wf c → len (cell_layout hi c) = 2 + len (data_bytes c) + 32 * len (cell_refs c).
Proof.
  intros (_ & _ & Hf). unfold cell_layout. autorewrite with len. rewrite refs_len by done. lia.
Qed.

(** Decoding a well-formed layout *)
Lemma Cell_from_bytes_parts b1 b2 refs data post :
  Z.land (byte_val b1) 7 = len refs → byte_val b2 = len data →
  len refs ≤ 4 → len data ≤ 128 → Forall (λ r : bytes, len r = 32) refs →
  Cell_from_bytes ([b1] ++ [b2] ++ data ++ concat refs ++ post) =
  Ok ({| data_bytes := data; cell_refs := refs;
         is_special := negb (Z.land (byte_val b1) 8 =? 0) |}, 2 + len data + 32 * len refs).
Proof.
  intros Hb1 Hb2 Hr Hd Hf. unfold Cell_from_bytes. pose proof (refs_len refs Hf) as Hlr.
  pose proof (len_nonneg data). pose proof (len_nonneg refs). pose proof (len_nonneg post).
  destruct (int_encode_surj Uint16 [b1; b2] eq_refl) as (v & Hv & He).
  rewrite (proj2 (Z.ltb_ge _ _)) by (autorewrite with len; lia).
  rewrite (proj2 (int_read_Ok Uint16 ([b1] ++ [b2] ++ data ++ concat refs ++ post) v
    (data ++ concat refs ++ post))) by (rewrite <-He; done).
  cbn [map_err]. bind_simpl. cbv zeta.
  destruct (descriptor_halves b1 b2 v (eq_sym He) Hv) as [-> ->].
  rewrite Hb1, Hb2. unfold MAX_CELL_REFS, MAX_CELL_DATA_BYTES.
  rewrite !(proj2 (Z.ltb_ge _ _)) by (autorewrite with len; lia).
  rewrite !read_refs_app_r by (autorewrite with len; lia).
  decode_simpl. autorewrite with len.
  replace (2 + len data - (1 + 0) - (1 + 0) - len data) with 0 by lia.
  rewrite to_nat_len, read_refs_encode by done. bind_simpl.
  by rewrite (proj2 (new_with_special_Ok _ _ _ _)) by eauto.
Qed.

Lemma cell_byte_bits hi c :
  Cell_wf c → 0 ≤ hi < 16 →
  Z.land (byte_val (byte_of (16 * hi + (descriptor_bytes c).1))) 7 = len (cell_refs c) ∧
  negb (Z.land (byte_val (byte_of (16 * hi + (descriptor_bytes c).1))) 8 =? 0) = is_special c.
Proof.
  intros Hwf Hhi. rewrite (proj2 (descriptor_range c Hwf)). destruct Hwf as (_ & Hr & _).
  pose proof (len_nonneg (cell_refs c)) as H0. revert H0 Hr Hhi.
  generalize (len (cell_refs c)) as r. intros r H0 Hr Hhi.
  assert (Forall (λ h, Forall (λ r : Z, ∀ s : bool,
    Z.land (byte_val (byte_of (16 * h + (r + if s then 8 else 0)))) 7 = r ∧
    negb (Z.land (byte_val (byte_of (16 * h + (r + if s then 8 else 0)))) 8 =? 0) = s)
    (seqZ 0 5)) (seqZ 0 16)) as Hall.
  { repeat constructor; by destruct s. }
  rewrite Forall_forall in Hall. specialize (Hall hi). rewrite elem_of_seqZ, Forall_forall in Hall.
  apply Hall; [lia|]. apply elem_of_seqZ. lia.
Qed.

Lemma Cell_from_bytes_layout hi c rest :
  Cell_wf c → 0 ≤ hi < 16 →
  Cell_from_bytes (cell_layout hi c ++ rest) = Ok (c, len (cell_layout hi c)).
Proof.
  intros Hwf Hhi. pose proof (cell_byte_bits hi c Hwf Hhi) as [H7 H8].
  pose proof (descriptor_range c Hwf) as [H2 _]. rewrite cell_layout_len by done.
  destruct Hwf as (Hd & Hr & Hf). unfold cell_layout. rewrite <-!app_assoc.
  rewrite Cell_from_bytes_parts; [|done| |done..].
  - rewrite H8. by destruct c.
  - rewrite H2, byte_val_of, Z.mod_small; [done|]. pose proof (len_nonneg (data_bytes c)). lia.
Qed.

Lemma Cell_from_bytes_surj bs c n :
  Cell_from_bytes bs = Ok (c, n) →
  ∃ hi c' rest, 0 ≤ hi < 16 ∧ Cell_wf c' ∧ bs = cell_layout hi c' ++ rest.
Proof.
  intros H. unfold Cell_from_bytes in H. destruct (Z.ltb_spec (len bs) 2); [done|].
  destruct (split_at_len bs 1) as (a & bs' & -> & Ha); [lia|].
  destruct (split_at_len bs' 1) as (b & r & -> & Hb); [autorewrite with len in *; lia|].
  destruct (len_1_inv a Ha) as [b1 ->], (len_1_inv b Hb) as [b2 ->]. clear Ha Hb.
  destruct (int_encode_surj Uint16 [b1; b2] eq_refl) as (v & Hv & He).
  rewrite (proj2 (int_read_Ok Uint16 _ v r)) in H by (rewrite <-He; done).
  cbn [map_err] in H. rewrite rbind_ret in H. cbv beta iota zeta in H.
  destruct (descriptor_halves b1 b2 v (eq_sym He) Hv) as [Hd1 Hd2]. rewrite Hd1, Hd2 in H.
  unfold MAX_CELL_REFS, MAX_CELL_DATA_BYTES in H.
  do 3 (res_inv1). clear H. bool_to_prop. autorewrite with len in *.
  pose proof (byte_val_bound b1). pose proof (byte_val_bound b2).
  assert (0 ≤ Z.land (byte_val b1) 7) by (apply Z.land_nonneg; lia).
  set (rc := Z.land (byte_val b1) 7) in *.
  destruct (split_at_len r (byte_val b2)) as (data & r' & -> & Hdata); [lia|].
  destruct (split_at_len r' (rc * 32)) as (rb & rest & -> & Hrb); [autorewrite with len in *; lia|].
  destruct (refs_surj (Z.to_nat rc) rb) as (refs & Hn & Hf & ->); [lia|].
  exists (byte_val b1 / 16), {| data_bytes := data; cell_refs := refs;
    is_special := negb (Z.land (byte_val b1) 8 =? 0) |}, rest.
  assert (len refs = rc) as Hrefs by (unfold len; lia).
  assert (Cell_wf {| data_bytes := data; cell_refs := refs;
    is_special := negb (Z.land (byte_val b1) 8 =? 0) |}) as Hwf.
  { split_and!; cbn; [lia|lia|done]. }
  pose proof (descriptor_range _ Hwf) as [Hdb2 Hdb1].
  split; [split; [apply Z.div_pos|apply Z.div_lt_upper_bound]; lia|]. split; [done|].
  unfold cell_layout. rewrite Hdb1, Hdb2. cbn [data_bytes cell_refs is_special].
  rewrite Hrefs, Hdata, Z.add_assoc. unfold rc. rewrite <-d1_split, !byte_of_val.
  by rewrite <-!app_assoc.
Qed.

Lemma Cell_from_bytes_Ok bs c n :
  Cell_from_bytes bs = Ok (c, n) ↔
  Cell_wf c ∧ ∃ hi rest, 0 ≤ hi < 16 ∧ bs = cell_layout hi c ++ rest ∧ n = len (cell_layout hi c).
Proof.
  split.
  - intros H. destruct (Cell_from_bytes_surj _ _ _ H) as (hi & c' & rest & Hhi & Hwf & ->).
    rewrite Cell_from_bytes_layout in H by done. simplify_eq. eauto 10.
  - intros (Hwf & hi & rest & Hhi & -> & ->). by apply Cell_from_bytes_layout.
Qed.

Lemma new_with_special_safe data refs s : safe (new_with_special data refs s).
Proof. unfold new_with_special. eauto with res. Qed.
#[export] Hint Resolve new_with_special_safe : res.

Lemma Cell_from_bytes_safe bs : safe (Cell_from_bytes bs).
Proof.
  unfold Cell_from_bytes. cbv zeta. pose proof (len_nonneg bs).
  safe_step; [done|]. safe_step; [apply map_err_safe, int_read_safe|]. destruct a as [v r].
  assert (0 ≤ Z.land (as_u 8 (Z.shiftr v 8)) 7) by (apply Z.land_nonneg; lia).
  pose proof (as_u_bound 8 (Z.land v 255) ltac:(lia)) as [? _].
  repeat safe_step. apply read_refs_safe; lia.
Qed.
#[export] Hint Resolve Cell_from_bytes_safe : res.

(** Equal hashes: equal cells, or a collision. *)
Lemma cell_hash_binding `{Crypto} c c' :
  Cell_wf c → Cell_wf c' → cell_hash c = cell_hash c' → c = c' ∨ sha256_collision.
Proof.
  intros Hc Hc'. rewrite !cell_hash_layout.
  intros [Heq|?]%domain_hash_binding; [left|by right].
  pose proof (Cell_from_bytes_layout 0 c [] Hc ltac:(lia)) as H1.
  pose proof (Cell_from_bytes_layout 0 c' [] Hc' ltac:(lia)) as H2.
  rewrite Heq in H1. congruence.
Qed.

(** A cell is read exactly from its layout - descriptor, at most 128 data
    bytes, at most four 32-byte references - followed by anything, and the count
    of bytes consumed is the layout's; the four high descriptor bits are ignored.
    Encodings decode to themselves, no input aborts, and the representation hash
    identifies a cell up to SHA-256 collisions. *)
Theorem cell_decoding `{Crypto} bs c c' n :
  (Cell_from_bytes bs = Ok (c, n) ↔ Cell_wf c ∧ ∃ hi rest,
     0 ≤ hi < 16 ∧ bs = cell_layout hi c ++ rest ∧ n = len (cell_layout hi c)) ∧
  (Cell_wf c → Cell_from_bytes (Cell_to_bytes c) = Ok (c, len (Cell_to_bytes c))) ∧
  Cell_from_bytes bs ≠ Panic ∧
  (Cell_wf c → Cell_wf c' → cell_hash c = cell_hash c' → c = c' ∨ sha256_collision).
Proof.
  split_and!; [apply Cell_from_bytes_Ok| |apply Cell_from_bytes_safe|apply cell_hash_binding].
  intros Hc. rewrite Cell_to_bytes_layout by done.
  rewrite <-(app_nil_r (cell_layout 0 c)) at 1. by apply Cell_from_bytes_layout.
Qed.
