(* ===== verification/Boc.v ===== *)
(** [onx-state-model], [boc.rs]: bags of cells, the search for cycles and the
    wire format. *)
From S2P Require Import Prelude Bytes Machine Primitives Cell.

(** The [HashMap] is a finite map; what depends on its iteration order takes
    that order as an argument. *)
Record BagOfCells : Type := { boc_root_hash : bytes; boc_cells : gmap bytes Cell }.

#[export] Instance BagOfCells_eq_dec : EqDecision BagOfCells.
Proof. solve_decision. Defined.

(** ** The cycle search ([verify_dag]) *)

(** The sets [visiting] and [visited] *)
Definition dfs_state : Type := gset bytes * gset bytes.

(** [fuel] bounds the recursion depth; [verify_dag_fuel] is never used up. *)
Fixpoint dfs (fuel : nat) (cells : gmap bytes Cell) (node : bytes) (st : dfs_state) :
    result StateModelError dfs_state :=
  match fuel with
  | O => Panic
  | S fuel =>
      let '(visiting, visited) := st in
      if bool_decide (node ∈ visiting) then Err CyclicCellReference
      else if bool_decide (node ∈ visited) then Ok (visiting, visited)
      else
        let visiting := {[node]} ∪ visiting in
        let? (visiting, visited) :=
          match cells !! node with
          | Some cell => foldM (dfs fuel cells) (cell_refs cell) (visiting, visited)
          | None => Ok (visiting, visited)
          end in
        Ok (visiting ∖ {[node]}, {[node]} ∪ visited)
  end.

Definition verify_dag_fuel (b : BagOfCells) : nat := S (size (boc_cells b)).

Definition verify_dag (b : BagOfCells) : result StateModelError unit :=
  let? _ := dfs (verify_dag_fuel b) (boc_cells b) (boc_root_hash b) (∅, ∅) in Ok tt.

(** ** Operations *)

Definition boc_new (root : bytes) (cells : gmap bytes Cell) : result StateModelError BagOfCells :=
  match cells !! root with
  | None => Err DeserializationError
  | Some _ =>
      let boc := {| boc_root_hash := root; boc_cells := cells |} in
      let? _ := verify_dag boc in
      Ok boc
  end.

Section operations.
Context {C : Crypto}.

Definition from_root (root : Cell) : result StateModelError BagOfCells :=
  Ok {| boc_root_hash := cell_hash root; boc_cells := {[ cell_hash root := root ]} |}.

(** The bag as left by the call, and the result: a refused cell stays inserted. *)
Definition add_cell (b : BagOfCells) (c : Cell) : BagOfCells * result StateModelError bytes :=
  let hash := cell_hash c in
  let b := {| boc_root_hash := boc_root_hash b; boc_cells := <[ hash := c ]> (boc_cells b) |} in
  (b, let? _ := verify_dag b in Ok hash).

Definition get_cell (b : BagOfCells) (hash : bytes) : option Cell := boc_cells b !! hash.

Definition boc_entry (e : bytes * Cell) : bytes :=
  e.1 ++ int_encode Uint32 (len (Cell_to_bytes e.2)) ++ Cell_to_bytes e.2.

(** [order] is the iteration order of the [HashMap]. *)
Definition BagOfCells_to_bytes (order : list (bytes * Cell)) (b : BagOfCells) : bytes :=
  boc_root_hash b ++ int_encode Uint32 (len order) ++ concat (boc_entry <$> order).

(** The loop over [0..count] *)
Fixpoint read_cells (n : nat) (bs : bytes) (offset : Z) (cells : gmap bytes Cell) :
    result StateModelError (gmap bytes Cell * Z) :=
  match n with
  | O => Ok (cells, offset)
  | S n =>
      if len bs <? offset + 36 then Err DeserializationError
      else
        let? hash := slice bs offset (offset + 32) in
        let offset := offset + 32 in
        let? cell_cursor := slice bs offset (len bs) in
        let? (len_val, _) := map_err (λ _, DeserializationError) (int_read Uint32 cell_cursor) in
        let offset := offset + 4 in
        if len bs <? offset + len_val then Err DeserializationError
        else
          let? content := slice bs offset (offset + len_val) in
          let? (cell, cell_consumed) := Cell_from_bytes content in
          if negb (cell_consumed =? len_val) then Err (SMTrailingBytes (len_val - cell_consumed))
          else
            let offset := offset + len_val in
            if negb (bool_decide (cell_hash cell = hash)) then Err DeserializationError
            else read_cells n bs offset (<[ hash := cell ]> cells)
  end.

Definition BagOfCells_from_bytes (bs : bytes) : result StateModelError (BagOfCells * Z) :=
  if len bs <? 36 then Err DeserializationError
  else
    let? root_hash := slice bs 0 32 in
    let? cursor := slice bs 32 (len bs) in
    let? (count, _) := map_err (λ _, DeserializationError) (int_read Uint32 cursor) in
    let offset := 36 in
    let remaining := saturating_sub_u (len bs) offset in
    if remaining / 36 <? count then Err DeserializationError
    else
      let? (cells, offset) := read_cells (Z.to_nat count) bs offset ∅ in
      let? boc := boc_new root_hash cells in
      Ok (boc, offset).
End operations.

(** ** What the search decides *)

(** [a] holds a reference to [b]. *)
Definition edge (cells : gmap bytes Cell) (a b : bytes) : Prop :=
  ∃ c, cells !! a = Some c ∧ b ∈ cell_refs c.

(** No chain of references from [root] comes back to a cell it went through. *)
Definition acyclic_from (cells : gmap bytes Cell) (root : bytes) : Prop :=
  ∀ x, rtc (edge cells) root x → ¬ tc (edge cells) x x.

Section search.
Variable cells : gmap bytes Cell.
Local Abbreviation E := (edge cells).

(** [x] starts no infinite chain of references. *)
Local Abbreviation grounded := (Acc (flip E)).

Lemma grounded_acyclic x : grounded x → ¬ tc E x x.
Proof.
  induction 1 as [x _ IH]. intros Hc.
  assert (∃ y, E x y ∧ rtc E y x) as (y & Hy & Hyx).
  { inversion Hc; subst; [exists x|eexists]; eauto using tc_rtc, rtc_refl. }
  apply (IH y); [done|]. eapply tc_rtc_l; [done|]. by apply tc_once.
Qed.

Lemma grounded_reach x y : grounded x → rtc E x y → grounded y.
Proof. intros Hx. induction 1; [done|]. apply IHrtc. by apply Hx. Qed.

Lemma dfs_Ok fuel : ∀ node vg vd vg' vd',
  dfs fuel cells node (vg, vd) = Ok (vg', vd') →
  set_Forall grounded vd →
  vg' = vg ∧ vd ⊆ vd' ∧ node ∈ vd' ∧ set_Forall grounded vd'.
Proof.
  induction fuel as [|fuel IH]; intros node vg vd vg' vd' H Hvd; [done|]. cbn [dfs] in H.
  case_bool_decide; [done|]. case_bool_decide; [by simplify_eq|].
  apply rbind_Ok in H as ([vg1 vd1] & Hl & H). cbn in H. injection H as <- <-.
  assert (vg1 = {[node]} ∪ vg ∧ vd ⊆ vd1 ∧ (∀ y, E node y → y ∈ vd1) ∧ set_Forall grounded vd1)
    as (-> & Hsub & Hch & Hgr).
  { destruct (cells !! node) as [c|] eqn:Hc.
    - set (P (k : list bytes) (st : dfs_state) :=
        st.1 = {[node]} ∪ vg ∧ vd ⊆ st.2 ∧ (∀ y, y ∈ cell_refs c → y ∈ k ∨ y ∈ st.2) ∧
        set_Forall grounded st.2).
      apply (foldM_inv P) in Hl as (Hg1 & Hg2 & Hg3 & Hg4).
      + split_and!; [done|done| |done]. intros y (c' & Hc' & Hy). simplify_eq.
        by destruct (Hg3 y Hy) as [?%not_elem_of_nil|].
      + intros x k [g d] [g' d'] (Hg1 & Hg2 & Hg3 & Hg4) Hx. cbn [fst snd] in *. subst g.
        apply IH in Hx as (-> & Hd & Hxd & Hgr); [|done]. split_and!; cbn; [done|set_solver| |done].
        intros y Hy. destruct (Hg3 y Hy) as [[->|?]%elem_of_cons|?]; auto.
      + split_and!; cbn; auto.
    - simplify_eq. split_and!; try done. intros y (c & Hc' & _). congruence. }
  split_and!; [|set_solver|set_solver|].
  - apply set_eq. set_solver.
  - apply set_Forall_union; [|done]. apply set_Forall_singleton. constructor.
    intros y Hy. apply Hgr. by apply Hch.
Qed.

(** The loop over the children of [node] keeps this invariant. *)
Definition children_inv (c : Cell) (vg : gset bytes) (k : list bytes) (st : dfs_state) : Prop :=
  st.1 = vg ∧ set_Forall grounded st.2 ∧ k ⊆ cell_refs c.

Lemma children_inv_step fuel c vg x k st st' :
  children_inv c vg (x :: k) st → dfs fuel cells x st = Ok st' → children_inv c vg k st'.
Proof.
  destruct st as [g d], st' as [g' d']. intros (Hg & Hd & Hk) Hx.
  cbn [fst snd] in *. subst g. apply dfs_Ok in Hx as (-> & _ & _ & ?); [|done]. split_and!; set_solver.
Qed.

Lemma dfs_Err fuel : ∀ node vg vd e,
  dfs fuel cells node (vg, vd) = Err e →
  set_Forall grounded vd → (∀ v, v ∈ vg → tc E v node) →
  e = CyclicCellReference ∧ ∃ x, rtc E node x ∧ tc E x x.
Proof.
  induction fuel as [|fuel IH]; intros node vg vd e H Hvd Hvg; [done|]. cbn [dfs] in H.
  case_bool_decide; [simplify_eq; split; [done|exists node; eauto using rtc_refl]|].
  case_bool_decide; [done|].
  apply rbind_Err in H as [Hl|([vg1 vd1] & _ & ?)]; [|done].
  destruct (cells !! node) as [c|] eqn:Hc; [|done].
  apply (foldM_err (children_inv c ({[node]} ∪ vg))) in Hl
    as (x & k & [g d] & (Hg & Hd & Hk) & Hx).
  - cbn [fst snd] in *. subst g.
    assert (E node x) as Hnx by (exists c; set_solver).
    apply IH in Hx as (-> & z & Hz & Hzz); [|done|].
    + split; [done|]. exists z. split; [by eapply rtc_l|done].
    + intros v [->%elem_of_singleton|Hv]%elem_of_union; [by apply tc_once|].
      eapply tc_r; eauto.
  - intros. by eapply children_inv_step.
  - split_and!; done.
Qed.

Lemma dfs_safe fuel : ∀ node vg vd,
  set_Forall grounded vd → (size (dom cells ∖ vg) < fuel)%nat →
  safe (dfs fuel cells node (vg, vd)).
Proof.
  induction fuel as [|fuel IH]; intros node vg vd Hvd Hf; [lia|]. cbn [dfs].
  case_bool_decide as Hn; [done|]. case_bool_decide; [done|].
  apply rbind_safe; [|by intros []]. destruct (cells !! node) as [c|] eqn:Hc; [|done].
  apply (foldM_safe (children_inv c ({[node]} ∪ vg))).
  - intros x k [g d] (Hg & Hd & _). cbn in *. subst g. apply IH; [done|].
    assert (size (dom cells ∖ ({[node]} ∪ vg)) < size (dom cells ∖ vg))%nat; [|lia].
    apply subset_size. assert (node ∈ dom cells) by (apply elem_of_dom; eauto). set_solver.
  - intros. by eapply children_inv_step.
  - split_and!; done.
Qed.

Lemma verify_dag_safe root : safe (verify_dag {| boc_root_hash := root; boc_cells := cells |}).
Proof.
  apply rbind_safe; [|done]. unfold verify_dag_fuel. cbn [boc_cells boc_root_hash].
  apply dfs_safe; [apply set_Forall_empty|]. rewrite difference_empty_L, size_dom. lia.
Qed.

Lemma verify_dag_Ok root u :
  verify_dag {| boc_root_hash := root; boc_cells := cells |} = Ok u ↔ acyclic_from cells root.
Proof.
  unfold verify_dag, verify_dag_fuel. cbn [boc_cells boc_root_hash]. split.
  - intros H. res_inv. destruct x as [g d].
    apply dfs_Ok in H0 as (_ & _ & Hr & Hg); [|apply set_Forall_empty].
    intros x Hx. apply grounded_acyclic. by apply (grounded_reach root); [apply Hg|].
  - intros Ha. pose proof (verify_dag_safe root) as Hs. revert Hs.
    unfold verify_dag, verify_dag_fuel. cbn [boc_cells boc_root_hash].
    destruct (dfs _ _ _ _) as [st|e|] eqn:Hd; [by destruct u| |done]. intros _.
    apply dfs_Err in Hd as (-> & x & Hx & Hc); [by apply Ha in Hc|apply set_Forall_empty|].
    set_solver.
Qed.
End search.

Lemma verify_dag_acyclic b : verify_dag b = Ok tt ↔ acyclic_from (boc_cells b) (boc_root_hash b).
Proof. destruct b. apply verify_dag_Ok. Qed.

(** C31: [verify_dag] always returns; it accepts a bag exactly when no chain of
    references starting at the root runs into a cycle, and its only error is
    [CyclicCellReference]. *)
Theorem verify_dag_decides b :
  verify_dag b ≠ Panic ∧
  (verify_dag b = Ok tt ↔ acyclic_from (boc_cells b) (boc_root_hash b)) ∧
  (verify_dag b = Err CyclicCellReference ↔
     ∃ x, rtc (edge (boc_cells b)) (boc_root_hash b) x ∧ tc (edge (boc_cells b)) x x) ∧
  (∀ e, verify_dag b = Err e → e = CyclicCellReference).
Proof.
  assert (verify_dag b ≠ Panic) as Hs by (destruct b; apply verify_dag_safe).
  assert (∀ e, verify_dag b = Err e → e = CyclicCellReference ∧
    ∃ x, rtc (edge (boc_cells b)) (boc_root_hash b) x ∧ tc (edge (boc_cells b)) x x) as He.
  { intros e He. unfold verify_dag in He. apply rbind_Err in He as [He|(? & _ & ?)]; [|done].
    eapply dfs_Err; [done|apply set_Forall_empty|set_solver]. }
  split_and!; [done|apply verify_dag_acyclic| |intros e; apply He].
  split; [apply He|]. intros (x & Hx & Hc). destruct (verify_dag b) as [[]|e|] eqn:Hv; [| |done].
  - apply verify_dag_acyclic in Hv. by apply Hv in Hc.
  - f_equal. by apply He.
Qed.

(** ** The wire format *)

Section wire.
Context {C : Crypto}.

(** Every cell is stored under its own hash, the root is present and nothing
    reachable is on a cycle. *)
Definition cells_valid (cells : gmap bytes Cell) : Prop :=
  map_Forall (λ h c, Cell_wf c ∧ cell_hash c = h) cells.
Definition boc_valid (b : BagOfCells) : Prop :=
  cells_valid (boc_cells b) ∧ is_Some (boc_cells b !! boc_root_hash b) ∧
  acyclic_from (boc_cells b) (boc_root_hash b).

Lemma boc_new_Ok root cells b :
  boc_new root cells = Ok b ↔
  b = {| boc_root_hash := root; boc_cells := cells |} ∧
  is_Some (cells !! root) ∧ acyclic_from cells root.
Proof.
  unfold boc_new. destruct (cells !! root) as [c|] eqn:Hc.
  - split.
    + intros Hb. apply rbind_Ok in Hb as (u & Hu & Hb). simplify_eq.
      apply verify_dag_Ok in Hu. eauto.
    + intros (-> & _ & Ha). by rewrite (proj2 (verify_dag_Ok cells root tt) Ha).
  - split; [done|]. by intros (_ & [? ?] & _).
Qed.

Lemma boc_new_safe root cells : safe (boc_new root cells).
Proof.
  unfold boc_new. destruct (cells !! root); [|done].
  apply rbind_safe; [apply verify_dag_safe|done].
Qed.

(** One entry: its hash, the length field and the cell. *)
Lemma read_cells_entry n pre h c post cells :
  len h = 32 → Cell_wf c →
  read_cells (S n) (pre ++ boc_entry (h, c) ++ post) (len pre) cells =
  if bool_decide (cell_hash c = h)
  then read_cells n (pre ++ boc_entry (h, c) ++ post) (len pre + len (boc_entry (h, c)))
         (<[ h := c ]> cells)
  else Err DeserializationError.
Proof.
  intros Hh Hc. pose proof (len_nonneg pre). pose proof (len_nonneg post).
  set (cb := Cell_to_bytes c).
  assert (len cb = 2 + len (data_bytes c) + 32 * len (cell_refs c)) as Hcb
    by (unfold cb; rewrite Cell_to_bytes_layout, cell_layout_len; done).
  pose proof (len_nonneg (data_bytes c)). pose proof (len_nonneg (cell_refs c)).
  assert (in_int Uint32 (len cb)) by (destruct Hc as (? & ? & _); int_lia).
  assert (boc_entry (h, c) = h ++ int_encode Uint32 (len cb) ++ cb) as -> by done.
  cbn [read_cells]. rewrite (proj2 (Z.ltb_ge _ _)) by (autorewrite with len; lia).
  rewrite <-!app_assoc. decode_simpl.
  rewrite (proj2 (int_read_Ok Uint32 _ (len cb) (cb ++ post))) by done.
  cbn [map_err]. bind_simpl.
  rewrite (proj2 (Z.ltb_ge _ _)) by (autorewrite with len; lia).
  decode_simpl.
  rewrite (proj2 (Cell_from_bytes_Ok cb c (len cb))).
  2:{ split; [done|]. exists 0, []. rewrite app_nil_r. unfold cb.
      rewrite Cell_to_bytes_layout by done. done. }
  bind_simpl. rewrite Z.eqb_refl. cbn [negb]. rewrite !len_app, int_encode_width.
  change (width Uint32) with 4. rewrite Hh.
  replace (len pre + (32 + (4 + len cb))) with (len pre + 32 + 4 + len cb) by lia.
  by case_bool_decide.
Qed.

Lemma read_cells_encode order : ∀ pre post cells,
  Forall (λ e, len e.1 = 32 ∧ Cell_wf e.2 ∧ cell_hash e.2 = e.1) order →
  read_cells (length order) (pre ++ concat (boc_entry <$> order) ++ post) (len pre) cells =
  Ok (foldl (λ m e, <[ e.1 := e.2 ]> m) cells order,
      len pre + len (concat (boc_entry <$> order))).
Proof.
  induction order as [|[h c] order IH]; intros pre post cells Hall.
  { cbn. rewrite len_nil. by rewrite Z.add_0_r. }
  apply Forall_cons in Hall as [(Hh & Hc & Hhash) Hall]. cbn [fst snd] in *.
  cbn [length fmap list_fmap concat foldl fst snd]. rewrite <-(app_assoc (boc_entry _)).
  rewrite read_cells_entry, bool_decide_true by done.
  rewrite (app_assoc pre), <-len_app, IH by done.
  rewrite !len_app. f_equal. f_equal. lia.
Qed.

Lemma read_cells_valid n : ∀ bs offset cells cells' offset',
  read_cells n bs offset cells = Ok (cells', offset') → cells_valid cells → cells_valid cells'.
Proof.
  induction n as [|n IH]; intros bs offset cells cells' offset' H Hv; cbn [read_cells] in H.
  { by simplify_eq. }
  case_match; [done|]. do 2 apply rbind_Ok in H as (? & _ & H).
  apply rbind_Ok in H as ([len_val r] & _ & H). case_match; [done|].
  apply rbind_Ok in H as (content & _ & H). apply rbind_Ok in H as ([c consumed] & Hc & H).
  do 2 (case_match; [done|]).
  bool_to_prop. eapply IH; [exact H|]. apply map_Forall_insert_2; [|done].
  by apply Cell_from_bytes_Ok in Hc as [? _].
Qed.

Lemma read_cells_safe n : ∀ bs offset cells,
  0 ≤ offset → safe (read_cells n bs offset cells).
Proof.
  induction n as [|n IH]; intros bs offset cells Ho; [done|]. cbn [read_cells].
  safe_step; [done|]. bool_to_prop. do 2 safe_step; [auto with res|].
  safe_step; [apply map_err_safe, int_read_safe|]. destruct a1 as [v r].
  assert (0 ≤ v).
  { match goal with Hr : map_err _ (int_read _ _) = _ |- _ =>
      apply map_err_Ok, int_read_Ok in Hr as [Hv _] end. int_lia. }
  repeat safe_step. apply IH. lia.
Qed.

Lemma foldl_insert_map (order : list (bytes * Cell)) : ∀ acc : gmap bytes Cell,
  NoDup order.*1 → (∀ k, k ∈ order.*1 → acc !! k = None) →
  foldl (λ m e, <[ e.1 := e.2 ]> m) acc order = list_to_map order ∪ acc.
Proof.
  induction order as [|[k c] order IH]; intros acc Hnd Hacc.
  { cbn. by rewrite map_empty_union. }
  cbn [fmap list_fmap fst] in *. apply NoDup_cons in Hnd as [Hk Hnd].
  cbn [foldl list_to_map foldr uncurry fst snd]. rewrite IH; [|done|].
  - rewrite <-insert_union_r, insert_union_l; [done|]. by apply not_elem_of_list_to_map.
  - intros j Hj. rewrite lookup_insert_ne by (by intros ->). apply Hacc. by constructor.
Qed.

Lemma BagOfCells_roundtrip order b rest :
  boc_valid b → len (boc_root_hash b) = 32 → map_Forall (λ h _, len h = 32) (boc_cells b) →
  order ≡ₚ map_to_list (boc_cells b) → len order < 2 ^ 32 →
  BagOfCells_from_bytes (BagOfCells_to_bytes order b ++ rest) =
  Ok (b, len (BagOfCells_to_bytes order b)).
Proof.
  intros (Hv & Hroot & Hac) Hlr Hlh Hord Hcount.
  assert (Forall (λ e, len e.1 = 32 ∧ Cell_wf e.2 ∧ cell_hash e.2 = e.1) order) as Hall.
  { rewrite Hord. apply Forall_forall. intros [h c] Hhc%elem_of_map_to_list. cbn.
    split_and!; [by eapply Hlh|by eapply Hv..]. }
  assert (in_int Uint32 (len order)) as Hc32 by (pose proof (len_nonneg order); int_lia).
  assert (36 * len order ≤ len (concat (boc_entry <$> order))) as Hmin.
  { clear -Hall. induction Hall as [|e order (He & _) _ IH]; [done|].
    cbn [fmap list_fmap concat]. rewrite len_app, len_cons.
    assert (36 ≤ len (boc_entry e)); [|lia]. unfold boc_entry. autorewrite with len.
    pose proof (len_nonneg (Cell_to_bytes e.2)). lia. }
  pose proof (len_nonneg rest). pose proof (len_nonneg order).
  set (pre := boc_root_hash b ++ int_encode Uint32 (len order)).
  assert (len pre = 36) as Hpre by (unfold pre; autorewrite with len; lia).
  unfold BagOfCells_from_bytes, BagOfCells_to_bytes.
  rewrite (proj2 (Z.ltb_ge _ _)) by (autorewrite with len; lia).
  rewrite <-!app_assoc. decode_simpl.
  rewrite (proj2 (int_read_Ok Uint32 _ (len order) _)) by done.
  cbn [map_err]. bind_simpl. cbv zeta. unfold saturating_sub_u.
  rewrite (proj2 (Z.ltb_ge _ _)).
  2:{ apply Z.div_le_lower_bound; [lia|]. autorewrite with len. lia. }
  rewrite app_assoc. fold pre. rewrite <-Hpre at 1. rewrite to_nat_len, read_cells_encode by done.
  bind_simpl. rewrite foldl_insert_map.
  2:{ rewrite Hord. apply NoDup_fst_map_to_list. }
  2:{ intros. apply lookup_empty. }
  rewrite map_union_empty, (list_to_map_proper order _ ltac:(rewrite Hord;
    apply NoDup_fst_map_to_list) Hord), list_to_map_to_list.
  rewrite (proj2 (boc_new_Ok _ _ b)) by (destruct b; done). bind_simpl.
  by rewrite app_assoc, len_app.
Qed.

Lemma BagOfCells_from_bytes_valid bs b n : BagOfCells_from_bytes bs = Ok (b, n) → boc_valid b.
Proof.
  intros H. unfold BagOfCells_from_bytes in H. repeat res_inv1. destruct x1 as [count r].
  repeat res_inv1. destruct x1 as [cells offset]. repeat res_inv1. simplify_eq.
  match goal with Hb : boc_new _ _ = _ |- _ => apply boc_new_Ok in Hb as (-> & Hr & Ha) end. split; [|done].
  by eapply read_cells_valid; [done|apply map_Forall_empty].
Qed.

Lemma BagOfCells_from_bytes_safe bs : safe (BagOfCells_from_bytes bs).
Proof.
  unfold BagOfCells_from_bytes. safe_step; [done|]. bool_to_prop. cbv zeta.
  do 2 (safe_step; [auto with res|]). safe_step; [apply map_err_safe, int_read_safe|].
  destruct a1 as [v r]. safe_step; [done|]. safe_step; [apply read_cells_safe; lia|].
  destruct a1 as [cells offset]. safe_step; [apply boc_new_safe|done].
Qed.

(** C32: whatever bytes arrive, reading a bag of cells returns, and an accepted
    bag stores every cell under its own hash, contains its root and has no
    reachable cycle; conversely every such bag is read back from its encoding,
    whatever order its hash map was written in and whatever follows it. *)
Theorem bag_of_cells_wire bs b n order rest :
  BagOfCells_from_bytes bs ≠ Panic ∧
  (BagOfCells_from_bytes bs = Ok (b, n) → boc_valid b) ∧
  (boc_valid b → len (boc_root_hash b) = 32 → map_Forall (λ h _, len h = 32) (boc_cells b) →
   order ≡ₚ map_to_list (boc_cells b) → len order < 2 ^ 32 →
   BagOfCells_from_bytes (BagOfCells_to_bytes order b ++ rest) =
   Ok (b, len (BagOfCells_to_bytes order b))).
Proof.
  split_and!; [apply BagOfCells_from_bytes_safe|apply BagOfCells_from_bytes_valid|
    apply BagOfCells_roundtrip].
Qed.
End wire.
