(* ===== verification/Account.v ===== *)
(** [onx-state-model], [account.rs]: account states, their layout and the rules
    of their transitions. *)
From S2P Require Import Prelude Bytes Machine Primitives Cell.

Inductive AccountType : Type := TUninitialized | TActive | TFrozen | TDestroyed.

Definition account_from_u8 (v : Z) : result StateModelError AccountType :=
  if v =? 0 then Ok TUninitialized
  else if v =? 1 then Ok TActive
  else if v =? 2 then Ok TFrozen
  else if v =? 3 then Ok TDestroyed
  else Err (InvalidStateType v).

Definition account_to_u8 (t : AccountType) : Z :=
  match t with TUninitialized => 0 | TActive => 1 | TFrozen => 2 | TDestroyed => 3 end.

Record StorageStat : Type := { cell_count : Z; byte_count : Z }.

#[export] Instance StorageStat_eq_dec : EqDecision StorageStat.
Proof. solve_decision. Defined.

Inductive AccountState : Type :=
  | Uninitialized
  | Active (balance last_trans_lt : Z) (code_hash data_hash : bytes) (storage_stat : StorageStat)
  | Frozen (balance last_trans_lt : Z) (storage_hash : bytes)
  | Destroyed.

#[export] Instance AccountState_eq_dec : EqDecision AccountState.
Proof. solve_decision. Defined.

Definition account_type (s : AccountState) : AccountType :=
  match s with
  | Uninitialized => TUninitialized
  | Active _ _ _ _ _ => TActive
  | Frozen _ _ _ => TFrozen
  | Destroyed => TDestroyed
  end.

Definition balance_nanos (s : AccountState) : Z :=
  match s with
  | Active balance _ _ _ _ | Frozen balance _ _ => balance
  | Uninitialized | Destroyed => 0
  end.

Definition AccountState_to_bytes (s : AccountState) : bytes :=
  match s with
  | Uninitialized => [byte_of (account_to_u8 TUninitialized)]
  | Active balance lt code data stat =>
      [byte_of (account_to_u8 TActive)]
      ++ int_encode Uint128 balance
      ++ int_encode Uint64 lt
      ++ code
      ++ data
      ++ int_encode Uint32 (cell_count stat)
      ++ int_encode Uint64 (byte_count stat)
  | Frozen balance lt storage =>
      [byte_of (account_to_u8 TFrozen)]
      ++ int_encode Uint128 balance
      ++ int_encode Uint64 lt
      ++ storage
  | Destroyed => [byte_of (account_to_u8 TDestroyed)]
  end.

(** [T::read(&mut cursor)] with the error mapped *)
Definition read_int (t : int_type) (cursor : bytes) : result StateModelError (Z * bytes) :=
  map_err (λ _, DeserializationError) (int_read t cursor).

(** [if cursor.len() < n { .. }] is left to the callers: [&cursor[..32]] and the
    advanced cursor. *)
Definition take_hash (cursor : bytes) : result StateModelError (bytes * bytes) :=
  let? h := slice cursor 0 32 in
  let? cursor := slice cursor 32 (len cursor) in
  Ok (h, cursor).

(** The state and the number of bytes consumed *)
Definition AccountState_from_bytes (bs : bytes) : result StateModelError (AccountState * Z) :=
  if len bs =? 0 then Err DeserializationError
  else
    let? (state_type_val, cursor) := read_int Uint8 bs in
    let? state_type := account_from_u8 state_type_val in
    match state_type with
    | TUninitialized => Ok (Uninitialized, 1)
    | TDestroyed => Ok (Destroyed, 1)
    | TFrozen =>
        let? (balance, cursor) := read_int Uint128 cursor in
        let? (lt, cursor) := read_int Uint64 cursor in
        if len cursor <? 32 then Err DeserializationError
        else
          let? storage := slice cursor 0 32 in
          Ok (Frozen balance lt storage, 1 + 16 + 8 + 32)
    | TActive =>
        let? (balance, cursor) := read_int Uint128 cursor in
        let? (lt, cursor) := read_int Uint64 cursor in
        if len cursor <? 64 then Err DeserializationError
        else
          let? (code, cursor) := take_hash cursor in
          let? (data, cursor) := take_hash cursor in
          let? (cells, cursor) := read_int Uint32 cursor in
          let? (bytes_count, cursor) := read_int Uint64 cursor in
          Ok (Active balance lt code data {| cell_count := cells; byte_count := bytes_count |},
              1 + 16 + 8 + 32 + 32 + 4 + 8)
    end.

(** The check shared by the four arms between [Active] and [Frozen] states *)
Definition check_lt (cur_lt next_lt new_lt : Z) : result StateModelError unit :=
  if (new_lt <=? cur_lt) || negb (next_lt =? new_lt)
  then Err (LogicalTimeRegression cur_lt new_lt) else Ok tt.

Definition validate_transition (s next : AccountState) (new_lt : Z) :
    result StateModelError unit :=
  match s, next with
  | Destroyed, _ => Err InvalidStateTransition
  | Uninitialized, Active _ last_lt _ _ _ =>
      if negb (last_lt =? new_lt) then Err (LogicalTimeRegression last_lt new_lt) else Ok tt
  | Uninitialized, Uninitialized => Ok tt
  | Uninitialized, _ => Err InvalidStateTransition
  | Active _ cur_lt _ _ _, Active _ next_lt _ _ _
  | Active _ cur_lt _ _ _, Frozen _ next_lt _ => check_lt cur_lt next_lt new_lt
  | Active _ _ _ _ _, Destroyed => Ok tt
  | Frozen _ cur_lt _, Active _ next_lt _ _ _ => check_lt cur_lt next_lt new_lt
  | Frozen _ cur_lt _, Frozen _ next_lt _ => check_lt cur_lt next_lt new_lt
  | Frozen _ _ _, Destroyed => Ok tt
  | _, _ => Err InvalidStateTransition
  end.

Definition validate_transition_with_delta (s next : AccountState) (new_lt balance_delta : Z) :
    result StateModelError unit :=
  let? _ := validate_transition s next new_lt in
  let cur_balance := balance_nanos s in
  if (balance_delta <? 0) && (cur_balance <? Z.abs balance_delta) then Err BalanceUnderflow
  else
    let? expected_next_balance :=
      if 0 <=? balance_delta
      then Ok (saturating_add_u 128 cur_balance balance_delta)
      else sub_u cur_balance (Z.abs balance_delta) in
    match next with
    | Active balance _ _ _ _ | Frozen balance _ _ =>
        if negb (balance =? expected_next_balance) then Err InvalidStateTransition else Ok tt
    | _ => Ok tt
    end.

(** Field types *)
Definition AccountState_wf (s : AccountState) : Prop :=
  match s with
  | Active balance lt code data stat =>
      in_int Uint128 balance ∧ in_int Uint64 lt ∧ len code = 32 ∧ len data = 32 ∧
      in_int Uint32 (cell_count stat) ∧ in_int Uint64 (byte_count stat)
  | Frozen balance lt storage => in_int Uint128 balance ∧ in_int Uint64 lt ∧ len storage = 32
  | Uninitialized | Destroyed => True
  end.

(** ** The codec *)

Lemma read_int_Ok t cursor v rest :
  read_int t cursor = Ok (v, rest) ↔ in_int t v ∧ cursor = int_encode t v ++ rest.
Proof. unfold read_int. rewrite map_err_Ok. apply int_read_Ok. Qed.
Lemma read_int_safe t cursor : safe (read_int t cursor).
Proof. apply map_err_safe, int_read_safe. Qed.
Lemma read_int_encode t v rest : in_int t v → read_int t (int_encode t v ++ rest) = Ok (v, rest).
Proof. intros. by apply read_int_Ok. Qed.
#[export] Hint Resolve read_int_safe : res.
#[export] Hint Resolve read_int_encode : decode.

Lemma take_hash_Ok cursor h rest :
  take_hash cursor = Ok (h, rest) → len h = 32 ∧ cursor = h ++ rest.
Proof.
  unfold take_hash. intros H. apply rbind_Ok in H as (h' & Hh & H).
  pose proof Hh as Hl. apply slice_inv in Hl as (_ & Hl & Hlen).
  destruct (split_at_len cursor 32) as (a & b & -> & Ha); [lia|].
  rewrite slice_app_l in Hh by lia. rewrite slice_app_r, slice_all in H by (autorewrite with len; lia).
  cbn in H. simplify_eq. done.
Qed.
Lemma take_hash_encode h rest : len h = 32 → take_hash (h ++ rest) = Ok (h, rest).
Proof. intros Hh. unfold take_hash. by decode_simpl. Qed.
Lemma take_hash_safe cursor : 32 ≤ len cursor → safe (take_hash cursor).
Proof. intros. unfold take_hash. repeat safe_step. Qed.
#[export] Hint Resolve take_hash_encode : decode.

Lemma account_tag_byte t : account_to_u8 t = byte_val (byte_of (account_to_u8 t)).
Proof. by destruct t. Qed.

Lemma read_tag t rest :
  read_int Uint8 ([byte_of (account_to_u8 t)] ++ rest) = Ok (account_to_u8 t, rest).
Proof.
  apply read_int_Ok. by destruct t.
Qed.
#[export] Hint Resolve read_tag : decode.

Lemma account_from_to t : account_from_u8 (account_to_u8 t) = Ok t.
Proof. by destruct t. Qed.
#[export] Hint Resolve account_from_to : decode.

Lemma AccountState_roundtrip s rest :
  AccountState_wf s →
  AccountState_from_bytes (AccountState_to_bytes s ++ rest) =
  Ok (s, len (AccountState_to_bytes s)).
Proof.
  intros Hwf. unfold AccountState_from_bytes, AccountState_to_bytes. pose proof (len_nonneg rest).
  destruct s as [|b lt code data [cc bc]|b lt st|]; cbn [AccountState_wf cell_count byte_count] in *;
    destruct_and?; rewrite <-?app_assoc, (proj2 (Z.eqb_neq _ 0)) by (autorewrite with len; lia).
  - decode_simpl. done.
  - decode_simpl. autorewrite with len. rewrite (proj2 (Z.ltb_ge _ _)) by lia.
    f_equal. f_equal. lia.
  - decode_simpl. autorewrite with len. rewrite (proj2 (Z.ltb_ge _ _)) by lia.
    f_equal. f_equal. lia.
  - decode_simpl. done.
Qed.

Lemma account_from_u8_Ok v t : account_from_u8 v = Ok t → v = account_to_u8 t.
Proof. unfold account_from_u8. intros. repeat case_match; simplify_eq; bool_to_prop; done. Qed.

Lemma AccountState_from_bytes_sound bs s n :
  AccountState_from_bytes bs = Ok (s, n) →
  AccountState_wf s ∧ ∃ rest, bs = AccountState_to_bytes s ++ rest.
Proof.
  intros H. unfold AccountState_from_bytes in H. case_match; [done|].
  apply rbind_Ok in H as ([tag c] & Htag & H). apply read_int_Ok in Htag as [_ ->].
  apply rbind_Ok in H as (t & Ht & H). apply account_from_u8_Ok in Ht as ->.
  assert (int_encode Uint8 (account_to_u8 t) = [byte_of (account_to_u8 t)]) as -> by by destruct t.
  destruct t; unfold AccountState_to_bytes.
  - simplify_eq. split; [done|]. by eexists.
  - apply rbind_Ok in H as ([b c1] & Hb & H). apply read_int_Ok in Hb as [Hb ->].
    apply rbind_Ok in H as ([lt c2] & Hlt & H). apply read_int_Ok in Hlt as [Hlt ->].
    case_match; [done|]. apply rbind_Ok in H as ([code c3] & Hco & H).
    apply take_hash_Ok in Hco as [Hco ->]. apply rbind_Ok in H as ([data c4] & Hd & H).
    apply take_hash_Ok in Hd as [Hd ->]. apply rbind_Ok in H as ([cc c5] & Hcc & H).
    apply read_int_Ok in Hcc as [Hcc ->]. apply rbind_Ok in H as ([bc c6] & Hbc & H).
    apply read_int_Ok in Hbc as [Hbc ->]. simplify_eq.
    split; [done|]. eexists. by rewrite <-!app_assoc.
  - apply rbind_Ok in H as ([b c1] & Hb & H). apply read_int_Ok in Hb as [Hb ->].
    apply rbind_Ok in H as ([lt c2] & Hlt & H). apply read_int_Ok in Hlt as [Hlt ->].
    case_match; [done|]. bool_to_prop. destruct (split_at_len c2 32) as (st & r & -> & Hst); [lia|].
    rewrite slice_app_l in H by lia. cbn [rbind] in H. simplify_eq.
    split; [done|]. eexists. by rewrite <-!app_assoc.
  - simplify_eq. split; [done|]. by eexists.
Qed.

Lemma AccountState_from_bytes_safe bs : safe (AccountState_from_bytes bs).
Proof.
  unfold AccountState_from_bytes. safe_step; [done|]. safe_step; [auto with res|].
  destruct a as [tag c]. safe_step; [unfold account_from_u8; by repeat case_match|].
  destruct a; try done; (safe_step; [auto with res|]; destruct a as [b c1];
    safe_step; [auto with res|]; destruct a as [lt c2]; safe_step; [done|]; bool_to_prop).
  - safe_step; [apply take_hash_safe; lia|]. destruct a as [h c3].
    match goal with Hh : take_hash _ = _ |- _ => apply take_hash_Ok in Hh as [? ->] end.
    autorewrite with len in *. safe_step; [apply take_hash_safe; lia|]. destruct a as [h' c4].
    do 2 (safe_step; [auto with res|]; destruct a as [? ?]). done.
  - repeat safe_step.
Qed.

(** An account state is read exactly from its encoding - all fields in
    range, the count of bytes consumed right, whatever follows - so two states
    never share an encoding; no input aborts. *)
Theorem account_state_codec bs s n :
  AccountState_from_bytes bs ≠ Panic ∧
  (AccountState_from_bytes bs = Ok (s, n) ↔ AccountState_wf s ∧
     n = len (AccountState_to_bytes s) ∧ ∃ rest, bs = AccountState_to_bytes s ++ rest).
Proof.
  split; [apply AccountState_from_bytes_safe|]. split.
  - intros H. pose proof H as H'. apply AccountState_from_bytes_sound in H' as (Hwf & rest & ->).
    rewrite AccountState_roundtrip in H by done. simplify_eq. eauto.
  - intros (Hwf & -> & rest & ->). by apply AccountState_roundtrip.
Qed.

(** ** Histories of transitions *)

(** The logical time of a state that has one *)
Definition state_lt (s : AccountState) : option Z :=
  match s with
  | Active _ lt _ _ _ | Frozen _ lt _ => Some lt
  | Uninitialized | Destroyed => None
  end.

(** Transitions accepted one after the other: next state, logical time, delta *)
Fixpoint run_history (s : AccountState) (l : list (AccountState * Z * Z)) :
    result StateModelError AccountState :=
  match l with
  | [] => Ok s
  | (next, new_lt, delta) :: l =>
      let? _ := validate_transition_with_delta s next new_lt delta in
      run_history next l
  end.

Lemma validate_transition_live s next lt u :
  validate_transition s next lt = Ok u →
  s ≠ Destroyed ∧ (s ≠ Uninitialized → next ≠ Uninitialized) ∧
  (∀ b, state_lt next = Some b → b = lt) ∧
  (∀ a b, state_lt s = Some a → state_lt next = Some b → a < b).
Proof.
  unfold validate_transition, check_lt. intros H.
  destruct s, next; try done; cbn in *; res_inv; bool_to_prop; split_and!; intros;
    simplify_eq; done || lia.
Qed.

Lemma delta_step s next lt d u :
  validate_transition_with_delta s next lt d = Ok u →
  validate_transition s next lt = Ok tt ∧
  (d < 0 → - d ≤ balance_nanos s) ∧
  (is_Some (state_lt next) → balance_nanos next < u128_max →
     balance_nanos next = balance_nanos s + d).
Proof.
  unfold validate_transition_with_delta. intros H.
  apply rbind_Ok in H as ([] & Hv & H). split; [done|].
  destruct (_ && _) eqn:Hg in H; [done|].
  assert (d < 0 → - d ≤ balance_nanos s) as Hd.
  { intros. apply andb_false_iff in Hg as [?|?]; bool_to_prop; lia. }
  split; [done|]. apply rbind_Ok in H as (e & He & H).
  assert (e < u128_max → e = balance_nanos s + d) as Hcase.
  { unfold u128_max. destruct (Z.leb_spec 0 d).
    - simplify_eq. unfold saturating_add_u. lia.
    - unfold sub_u in He. destruct (checked_sub_u _ _) eqn:Hc; [|done]. simpl in He.
      apply checked_sub_u_Some in Hc. simplify_eq. lia. }
  intros [b Hb] Hmax. destruct next; try done; cbn [balance_nanos] in *; res_inv; bool_to_prop;
    subst; auto.
Qed.

Lemma validate_with_delta_safe s next lt d :
  safe (validate_transition_with_delta s next lt d).
Proof.
  unfold validate_transition_with_delta.
  safe_step; [unfold validate_transition, check_lt; destruct s, next; auto with res|].
  cbv zeta. destruct (_ && _) eqn:Hg; [done|].
  apply rbind_safe; [|intros; destruct next; auto with res].
  destruct (Z.leb_spec 0 d); [done|]. apply andb_false_iff in Hg as [?|?]; bool_to_prop; [lia|].
  unfold sub_u, checked_sub_u. by rewrite (proj2 (Z.leb_le _ _)) by lia.
Qed.

(** The sum of the balance changes of a history *)
Definition total_delta (l : list (AccountState * Z * Z)) : Z :=
  foldr (λ '(_, _, d) acc, d + acc) 0 l.

(** C17: along any accepted history of transitions, a destroyed account never
    changes again and an account never becomes uninitialised; logical times
    strictly increase from each live state to every later one; and between
    two live states whose run stays below the [u128] maximum, the balance moves by
    exactly the sum of the deltas. No history aborts. *)
Theorem account_history s l s' :
  run_history s l ≠ Panic ∧
  (run_history s l = Ok s' →
    (s = Destroyed → l = []) ∧
    (s ≠ Uninitialized → s' ≠ Uninitialized) ∧
    (∀ a b, l ≠ [] → state_lt s = Some a → state_lt s' = Some b → a < b) ∧
    (is_Some (state_lt s) → is_Some (state_lt s') →
     Forall (λ '(next, _, _), balance_nanos next < u128_max) l →
     balance_nanos s' = balance_nanos s + total_delta l)).
Proof.
  split.
  { revert s. induction l as [|[[next lt] d] l IH]; intros s; [done|]. cbn [run_history].
    apply rbind_safe; [apply validate_with_delta_safe|intros; apply IH]. }
  revert s. induction l as [|[[next lt] d] l IH]; intros s H; cbn [run_history] in H.
  { simplify_eq. split_and!; try done. intros. cbn. lia. }
  apply rbind_Ok in H as ([] & Hstep & H). pose proof H as Hrun.
  apply IH in H as (Hdes & Hun & Hlt & Hbal).
  apply delta_step in Hstep as (Hv & _ & Hd).
  apply validate_transition_live in Hv as (Hs & Hnu & Hnl & Hmono).
  assert (is_Some (state_lt s) → is_Some (state_lt s') → is_Some (state_lt next)) as Hlive.
  { intros Hls Hls'. destruct next; [|by eexists..|].
    - exfalso. apply Hnu; [|done]. intros ->. by destruct Hls.
    - rewrite (Hdes eq_refl) in Hrun. cbn in Hrun. simplify_eq. by destruct Hls'. }
  split_and!.
  - done.
  - auto.
  - intros a b _ Ha Hb. destruct (Hlive ltac:(eauto) ltac:(eauto)) as [c Hc].
    specialize (Hmono a c Ha Hc). destruct l as [|p l].
    + cbn in Hrun. simplify_eq. congruence.
    + specialize (Hlt c b ltac:(done) Hc Hb). lia.
  - intros Hls Hls' [Hmax Hall]%Forall_cons. pose proof (Hlive Hls Hls') as Hln.
    rewrite (Hbal Hln Hls' Hall), (Hd Hln Hmax). cbn. fold (total_delta l). lia.
Qed.
