(* ===== verification/Tree.v ===== *)
(** [onx-state-model], [tree.rs]: the shard state tree, its root hash and its
    Merkle proofs. *)
From S2P Require Import Prelude Bytes Machine Primitives ToyCrypto Address Cell Boc Account.

Definition ONX_TRIE_NODE_TAG : bytes := from_ascii "ONX_TRIE_NODE_V1".
Definition MERKLE_PROOF_MAGIC : Z := 0x4D505246.

(** [AccountId] is ordered as its 32 bytes, that is as the number they encode. *)
Abbreviation tree_accounts := (gmap bytes AccountState).

Definition account_le (x y : bytes * AccountState) : Prop := be_val x.1 ≤ be_val y.1.
#[export] Instance account_le_dec : RelDecision account_le.
Proof. intros x y. unfold account_le. apply _. Defined.

(** The iteration order of the [BTreeMap] *)
Definition tree_iter (t : tree_accounts) : list (bytes * AccountState) :=
  merge_sort account_le (map_to_list t).

Definition tree_insert (t : tree_accounts) (account_id : bytes) (state : AccountState) :
    tree_accounts := <[ account_id := state ]> t.

Definition tree_get (t : tree_accounts) (account_id : bytes) : option AccountState :=
  t !! account_id.

(** [val.chunks(n)] *)
Fixpoint chunks_fuel (fuel n : nat) (l : bytes) : list bytes :=
  match fuel, l with
  | S fuel, _ :: _ => take n l :: chunks_fuel fuel n (drop n l)
  | _, _ => []
  end.
Definition chunks (n : nat) (l : bytes) : list bytes := chunks_fuel (length l) n l.

Abbreviation item := (bytes * bytes)%type.

(** [(key[byte_idx] & (1 << bit_idx)) == 0] *)
Definition key_bit_clear (bit_depth : Z) (it : item) : result StateModelError bool :=
  let byte_idx := bit_depth / 8 in
  let bit_idx := 7 - bit_depth mod 8 in
  let? b := index it.1 byte_idx in
  Ok (Z.land (byte_val b) (2 ^ bit_idx) =? 0).

(** [items.iter().cloned().partition(f)] *)
Fixpoint partitionM (f : item → result StateModelError bool) (l : list item) :
    result StateModelError (list item * list item) :=
  match l with
  | [] => Ok ([], [])
  | x :: l =>
      let? b := f x in
      let? (lo, hi) := partitionM f l in
      Ok (if b then (x :: lo, hi) else (lo, x :: hi))
  end.

Section trie.
Context {C : Crypto}.

Definition cell_map : Type := gmap bytes Cell.

(** Stores a cell under its hash. *)
Definition store_cell (c : Cell) (m : cell_map) : cell_map := <[ cell_hash c := c ]> m.

(** The chunk loop of a leaf: the hashes so far and the map *)
Definition store_chunk (chunk : bytes) (st : list bytes * cell_map) :
    result StateModelError (list bytes * cell_map) :=
  let '(hashes, m) := st in
  let? chunk_cell := Cell_new chunk [] in
  Ok (hashes ++ [cell_hash chunk_cell], store_cell chunk_cell m).

(** The depth is at most 256, so 257 units of fuel are never used up. *)
Fixpoint build_trie_cells (fuel : nat) (items : list item) (bit_depth : Z) (m : cell_map) :
    result StateModelError (Cell * cell_map) :=
  match fuel with
  | O => Panic
  | S fuel =>
      match items with
      | [] =>
          let? empty_cell := Cell_new (String.list_byte_of_string "EMPTY_SUBTREE") [] in
          Ok (empty_cell, store_cell empty_cell m)
      | (key, val) :: _ =>
          if (len items =? 1) || (256 <=? bit_depth) then
            let? (val_chunks, m) := foldM store_chunk (chunks 128 val) ([], m) in
            let? leaf_cell := Cell_new key val_chunks in
            Ok (leaf_cell, store_cell leaf_cell m)
          else
            let? (lo, hi) := partitionM (key_bit_clear bit_depth) items in
            let? (left_cell, m) := build_trie_cells fuel lo (bit_depth + 1) m in
            let? (right_cell, m) := build_trie_cells fuel hi (bit_depth + 1) m in
            let? branch_cell := Cell_new [] [cell_hash left_cell; cell_hash right_cell] in
            Ok (branch_cell, store_cell branch_cell m)
      end
  end.

Definition tree_items (t : tree_accounts) : list item :=
  (λ '(acc_id, state), (acc_id, AccountState_to_bytes state)) <$> tree_iter t.

Definition build_tree (t : tree_accounts) : result StateModelError (Cell * cell_map) :=
  build_trie_cells 257 (tree_items t) 0 ∅.

Definition tree_state_root_hash (t : tree_accounts) : result StateModelError bytes :=
  match build_tree t with
  | Ok (root_cell, _) => Ok (cell_hash root_cell)
  | Err _ => Ok (domain_hash ONX_TRIE_NODE_TAG (String.list_byte_of_string "EMPTY_TREE"))
  | Panic => Panic
  end.

Record MerkleProof : Type := {
  magic_bytes : Z;
  target_key : bytes;
  proof_root_hash : bytes;
  proof_boc : BagOfCells;
}.

Definition generate_proof (t : tree_accounts) (target_account_id : bytes) :
    result StateModelError MerkleProof :=
  let? (root_cell, proof_cells) := build_tree t in
  let root_hash := cell_hash root_cell in
  let? boc := boc_new root_hash proof_cells in
  Ok {| magic_bytes := MERKLE_PROOF_MAGIC; target_key := target_account_id;
        proof_root_hash := root_hash; proof_boc := boc |}.

Definition proof_verify (p : MerkleProof) : result StateModelError unit :=
  if negb (magic_bytes p =? MERKLE_PROOF_MAGIC) then Err InvalidMerkleProof
  else
    let? _ := verify_dag (proof_boc p) in
    if negb (bool_decide (boc_root_hash (proof_boc p) = proof_root_hash p))
    then Err InvalidMerkleProof else Ok tt.

(** [order] is the iteration order of the bag's hash map. *)
Definition MerkleProof_to_bytes (order : list (bytes * Cell)) (p : MerkleProof) : bytes :=
  int_encode Uint32 (magic_bytes p) ++ target_key p ++ proof_root_hash p
  ++ BagOfCells_to_bytes order (proof_boc p).

Definition MerkleProof_from_bytes (bs : bytes) : result StateModelError (MerkleProof * Z) :=
  if len bs <? 4 + 32 + 32 then Err DeserializationError
  else
    let? (magic, cursor) := read_int Uint32 bs in
    let? (target, cursor) := take_hash cursor in
    let? (root, cursor) := take_hash cursor in
    let? (boc, consumed) := BagOfCells_from_bytes cursor in
    let proof := {| magic_bytes := magic; target_key := target;
                    proof_root_hash := root; proof_boc := boc |} in
    let? _ := proof_verify proof in
    Ok (proof, 4 + 32 + 32 + consumed).
End trie.

(** ** Key bits *)

Lemma be_val_testbit (a : bytes) b (c : bytes) j :
  0 ≤ j < 8 → Z.testbit (be_val (a ++ [b] ++ c)) (8 * len c + j) = Z.testbit (byte_val b) j.
Proof.
  intros Hj. pose proof (len_nonneg c). pose proof (be_val_bound c) as Hc.
  pose proof (byte_val_bound b) as Hb. rewrite be_val_app, len_app.
  change ([b] ++ c) with (b :: c). rewrite be_val_cons.
  change (len [b]) with 1. rewrite Z.pow_add_r by lia. change (256 ^ 1) with 256.
  replace (256 ^ len c) with (2 ^ (8 * len c)) in * by (rewrite Z.pow_mul_r by lia; done).
  assert (0 < 2 ^ (8 * len c)) by lia.
  replace (8 * len c + j) with (j + 8 * len c) by lia. rewrite <-Z.shiftr_spec by lia.
  rewrite Z.shiftr_div_pow2 by lia.
  replace (be_val a * (256 * 2 ^ (8 * len c)) + (byte_val b * 2 ^ (8 * len c) + be_val c))
    with ((be_val a * 256 + byte_val b) * 2 ^ (8 * len c) + be_val c) by ring.
  rewrite Z.div_add_l, (Z.div_small (be_val c)), Z.add_0_r by lia.
  rewrite <-(Z.mod_pow2_bits_low (byte_val b) 8 j), <-(Z.mod_pow2_bits_low _ 8 j) by lia.
  f_equal. change (2 ^ 8) with 256. rewrite Z.add_comm, Z.mod_add by lia. done.
Qed.

Lemma land_pow2_zero v j : 0 ≤ j → (Z.land v (2 ^ j) =? 0) = negb (Z.testbit v j).
Proof.
  intros Hj. destruct (Z.testbit v j) eqn:Hb; cbn.
  - apply Z.eqb_neq. intros H. apply (f_equal (λ z, Z.testbit z j)) in H.
    by rewrite Z.land_spec, Hb, Z.pow2_bits_true, Z.bits_0 in H.
  - apply Z.eqb_eq. apply Z.bits_inj'. intros i Hi.
    rewrite Z.land_spec, Z.bits_0, Z.pow2_bits_eqb by lia.
    destruct (Z.eqb_spec j i) as [<-|]; [by rewrite Hb|by rewrite andb_false_r].
Qed.

Lemma key_bit_clear_Ok d it :
  0 ≤ d < 256 → len it.1 = 32 → key_bit_clear d it = Ok (negb (account_bit it.1 d)).
Proof.
  intros Hd Hl. unfold key_bit_clear, account_bit.
  pose proof (Z.div_mod d 8 ltac:(lia)) as Hdm. pose proof (Z.mod_pos_bound d 8 ltac:(lia)).
  assert (0 ≤ d / 8 < 32) as Hq by (split; [apply Z.div_pos|apply Z.div_lt_upper_bound]; lia).
  destruct (split_at_len it.1 (d / 8)) as (a & r & Hit & Ha); [lia|]. rewrite Hit in *.
  rewrite len_app in Hl.
  destruct (split_at_len r 1) as (b1 & c & -> & Hb); [lia|].
  destruct (len_1_inv b1 Hb) as [b ->]. autorewrite with len in Hl.
  assert (index (E:=StateModelError) (a ++ [b] ++ c) (d / 8) = Ok b) as ->.
  { unfold index. rewrite (proj2 (Z.leb_le _ _)) by lia. rewrite <-Ha, to_nat_len.
    by rewrite lookup_app_r, Nat.sub_diag by lia. }
  cbn [rbind]. f_equal. rewrite land_pow2_zero by lia. f_equal.
  replace (255 - d) with (8 * len c + (7 - d mod 8)) by lia.
  rewrite be_val_testbit by lia. done.
Qed.

Definition clear_items (d : Z) (l : list item) : list item :=
  filter (λ it, account_bit it.1 d = false) l.
Definition set_items (d : Z) (l : list item) : list item :=
  filter (λ it, account_bit it.1 d = true) l.

Lemma partition_key d l :
  0 ≤ d < 256 → Forall (λ it : item, len it.1 = 32) l →
  partitionM (key_bit_clear d) l = Ok (clear_items d l, set_items d l).
Proof.
  intros Hd. induction 1 as [|it l Hit _ IH]; [done|]. cbn [partitionM].
  rewrite key_bit_clear_Ok by done. cbn [rbind]. rewrite IH. cbn [rbind].
  unfold clear_items, set_items. rewrite !filter_cons.
  by destruct (account_bit it.1 d).
Qed.

(** ** The cells of a tree, without the map and the errors *)

Section shape.
Context {C : Crypto}.

Definition empty_cell : Cell :=
  {| data_bytes := String.list_byte_of_string "EMPTY_SUBTREE"; cell_refs := []; is_special := false |}.
Definition value_cell (v : bytes) : Cell :=
  {| data_bytes := v; cell_refs := []; is_special := false |}.
Definition leaf_cell (k v : bytes) : Cell :=
  {| data_bytes := k; cell_refs := [cell_hash (value_cell v)]; is_special := false |}.
Definition branch_cell (l r : Cell) : Cell :=
  {| data_bytes := []; cell_refs := [cell_hash l; cell_hash r]; is_special := false |}.

(** The root cell of a subtree with [n] key bits left *)
Fixpoint trie_cell (n : nat) (items : list item) : Cell :=
  match items with
  | [] => empty_cell
  | [(k, v)] => leaf_cell k v
  | (k, v) :: _ =>
      match n with
      | O => leaf_cell k v
      | S n' =>
          let d := 256 - Z.of_nat n in
          branch_cell (trie_cell n' (clear_items d items)) (trie_cell n' (set_items d items))
      end
  end.

(** Keys are 32 bytes and every value fits one chunk. *)
Definition items_ok (l : list item) : Prop :=
  Forall (λ it : item, len it.1 = 32 ∧ 0 < len it.2 ≤ 128) l.

Lemma items_ok_filter (P : item → Prop) `{!∀ x, Decision (P x)} l :
  items_ok l → items_ok (filter P l).
Proof. unfold items_ok. rewrite !Forall_forall. intros Hf x [_ Hx]%list_elem_of_filter. auto. Qed.

Lemma chunks_one v : 0 < len v ≤ 128 → chunks 128 v = [v].
Proof.
  unfold chunks, len. intros Hv. destruct v as [|b v]; [simpl in Hv; lia|].
  cbn [length chunks_fuel]. rewrite take_ge, drop_ge by (simpl in *; lia).
  by destruct (length v).
Qed.

Lemma Cell_new_Ok data refs :
  len data ≤ 128 → len refs ≤ 4 →
  Cell_new data refs = Ok {| data_bytes := data; cell_refs := refs; is_special := false |}.
Proof. intros. unfold Cell_new. by apply new_with_special_Ok. Qed.

Lemma store_cell_valid c m :
  Cell_wf c → cells_valid m → cells_valid (store_cell c m) ∧ store_cell c m !! cell_hash c = Some c.
Proof.
  intros Hc Hm. unfold store_cell. split; [by apply map_Forall_insert_2|apply lookup_insert_eq].
Qed.

Context {L : CryptoLaws C}.

Lemma cell_hash_len c : len (cell_hash c) = 32.
Proof. rewrite cell_hash_layout. apply len_domain_hash. Qed.

Lemma empty_cell_wf : Cell_wf empty_cell.
Proof. unfold Cell_wf, empty_cell. cbn [data_bytes cell_refs]. refine (conj _ (conj _ _)); done. Qed.
Lemma value_cell_wf v : len v ≤ 128 → Cell_wf (value_cell v).
Proof. unfold Cell_wf, value_cell. cbn [data_bytes cell_refs]. intros. refine (conj _ (conj _ _)); done. Qed.
Lemma leaf_cell_wf k v : len k = 32 → Cell_wf (leaf_cell k v).
Proof.
  unfold Cell_wf, leaf_cell. cbn [data_bytes cell_refs]. intros ->.
  refine (conj _ (conj _ _)); [done|done|]. repeat constructor; apply cell_hash_len.
Qed.
Lemma branch_cell_wf l r : Cell_wf (branch_cell l r).
Proof.
  unfold Cell_wf, branch_cell. cbn [data_bytes cell_refs].
  refine (conj _ (conj _ _)); [done|done|]. repeat constructor; apply cell_hash_len.
Qed.

Lemma trie_cell_wf n : ∀ items, items_ok items → Cell_wf (trie_cell n items).
Proof.
  intros items Hok. destruct n as [|n], items as [|[k v] [|it items]]; cbn [trie_cell];
    auto using empty_cell_wf, branch_cell_wf;
    apply Forall_inv in Hok as [Hk _]; by apply leaf_cell_wf.
Qed.

(** The code computes exactly these cells and stores them under their hashes. *)
Lemma build_trie_cells_spec n : ∀ fuel items m,
  (n < fuel)%nat → (n ≤ 256)%nat → items_ok items → cells_valid m →
  ∃ m', build_trie_cells fuel items (256 - Z.of_nat n) m = Ok (trie_cell n items, m') ∧
        cells_valid m' ∧ m' !! cell_hash (trie_cell n items) = Some (trie_cell n items).
Proof.
  assert (∀ fuel k v its d m, (len ((k, v) :: its) =? 1) || (256 <=? d) = true →
    items_ok ((k, v) :: its) → cells_valid m →
    ∃ m', build_trie_cells (S fuel) ((k, v) :: its) d m = Ok (leaf_cell k v, m') ∧
      cells_valid m' ∧ m' !! cell_hash (leaf_cell k v) = Some (leaf_cell k v)) as Hleaf.
  { intros fuel k v its d m Hc Hok Hm. apply Forall_inv in Hok as [Hk Hv]. cbn [fst snd] in *.
    cbn [build_trie_cells]. rewrite Hc, chunks_one by lia. cbn [foldM store_chunk].
    rewrite Cell_new_Ok by (done || lia). cbn [rbind app].
    rewrite Cell_new_Ok by (done || lia). cbn [rbind].
    eexists. split; [done|]. apply store_cell_valid; [by apply leaf_cell_wf|].
    apply store_cell_valid; [apply value_cell_wf; lia|done]. }
  induction n as [|n IH]; intros fuel items m Hf Hn Hok Hm; destruct fuel as [|fuel]; try lia;
    (destruct items as [|[k v] its];
      [eexists; split; [done|]; apply store_cell_valid; [apply empty_cell_wf|done]|]).
  { assert (trie_cell 0 ((k, v) :: its) = leaf_cell k v) as -> by by destruct its.
    apply Hleaf; [|done..]. by rewrite orb_true_r. }
  destruct its as [|it its]; [by apply Hleaf|].
  set (items := (k, v) :: it :: its) in *. set (d := 256 - Z.of_nat (S n)).
  assert (Forall (λ it : item, len it.1 = 32) items) as Hlen
    by (eapply Forall_impl; [exact Hok|]; by intros ? []).
  destruct (IH fuel (clear_items d items) m) as (m1 & Hl & Hm1 & _);
    [lia|lia|by apply items_ok_filter|done|].
  destruct (IH fuel (set_items d items) m1) as (m2 & Hr & Hm2 & _);
    [lia|lia|by apply items_ok_filter|done|].
  change (trie_cell (S n) items) with
    (branch_cell (trie_cell n (clear_items d items)) (trie_cell n (set_items d items))).
  eexists. split; [|apply store_cell_valid; [apply branch_cell_wf|exact Hm2]].
  assert ((len items =? 1) || (256 <=? d) = false) as Hc.
  { apply orb_false_iff. unfold items, d. rewrite !len_cons. pose proof (len_nonneg its).
    split; [apply Z.eqb_neq|apply Z.leb_gt]; lia. }
  unfold items at 1. cbn [build_trie_cells]. fold items. rewrite Hc.
  rewrite partition_key by (done || unfold d; lia). cbn [rbind].
  replace (d + 1) with (256 - Z.of_nat n) by (unfold d; lia).
  rewrite Hl. cbn [rbind]. rewrite Hr. cbn [rbind]. done.
Qed.

(** *** The root hash fixes the items *)

(** Distinct keys that agree on their first [d] bits *)
Definition items_at (d : Z) (l : list item) : Prop :=
  items_ok l ∧ NoDup l.*1 ∧
  ∀ x y i, x ∈ l → y ∈ l → 0 ≤ i < d → account_bit x.1 i = account_bit y.1 i.

Lemma NoDup_fst_filter (P : item → Prop) `{!∀ x, Decision (P x)} (l : list item) :
  NoDup l.*1 → NoDup (filter P l).*1.
Proof.
  induction l as [|x l IH]; [done|]. cbn [fmap list_fmap]. intros [Hx Hnd]%NoDup_cons.
  rewrite filter_cons. case_decide; [|auto]. cbn [fmap list_fmap]. apply NoDup_cons.
  split; [|auto]. intros (y & Hxy & Hy)%list_elem_of_fmap. apply Hx.
  apply list_elem_of_fmap. exists y. split; [done|]. by apply list_elem_of_filter in Hy as [_ ?].
Qed.

Lemma items_at_filter d b l :
  items_at d l → items_at (d + 1) (filter (λ it : item, account_bit it.1 d = b) l).
Proof.
  intros (Hok & Hnd & Hbits).
  split; [by apply items_ok_filter|split; [by apply NoDup_fst_filter|]].
  intros x y i [Hx Hxl]%list_elem_of_filter [Hy Hyl]%list_elem_of_filter Hi.
  destruct (decide (i = d)) as [->|]; [congruence|]. apply Hbits; done || lia.
Qed.

Lemma account_bits_eq a b :
  len a = 32 → len b = 32 → (∀ i, 0 ≤ i < 256 → account_bit a i = account_bit b i) → a = b.
Proof.
  intros Ha Hb H. rewrite <-(be_bytes_be_val a), <-(be_bytes_be_val b).
  pose proof (be_val_bound a). pose proof (be_val_bound b).
  assert (be_val a = be_val b) as ->; [|f_equal; unfold len in *; lia].
  assert (in_u 256 (be_val a)) by (unfold in_u; rewrite Ha in *; done).
  assert (in_u 256 (be_val b)) by (unfold in_u; rewrite Hb in *; done).
  apply Z.bits_inj'. intros i Hi. destruct (Z.lt_ge_cases i 256).
  - specialize (H (255 - i) ltac:(lia)). unfold account_bit in H.
    by replace (255 - (255 - i)) with i in H by lia.
  - rewrite !(testbit_high 256) by (done || lia). done.
Qed.

(** With all 256 bits equal there is at most one item. *)
Lemma items_at_256 x y l : items_at 256 (x :: y :: l) → False.
Proof.
  intros (Hok & Hnd & Hbits). assert (x.1 = y.1) as Heq.
  { apply account_bits_eq; [..|intros; apply Hbits; [constructor|constructor 2; constructor|lia]].
    - by apply Forall_inv in Hok as [? _].
    - by apply Forall_inv_tail, Forall_inv in Hok as [? _]. }
  cbn [fmap list_fmap] in Hnd. apply NoDup_cons in Hnd as [Hx _]. apply Hx. rewrite Heq. by constructor.
Qed.

Lemma elem_of_split_bit (x : item) d (l : list item) :
  x ∈ l ↔ x ∈ clear_items d l ∨ x ∈ set_items d l.
Proof.
  unfold clear_items, set_items. rewrite !list_elem_of_filter. destruct (account_bit x.1 d); naive_solver.
Qed.

Lemma data_len_empty : len (data_bytes empty_cell) = 13.
Proof. done. Qed.
Lemma data_len_leaf k v : len (data_bytes (leaf_cell k v)) = len k.
Proof. done. Qed.
Lemma data_len_branch l r : len (data_bytes (branch_cell l r)) = 0.
Proof. done. Qed.

Lemma trie_cell_binding n : ∀ l l',
  items_at (256 - Z.of_nat n) l → items_at (256 - Z.of_nat n) l' →
  cell_hash (trie_cell n l) = cell_hash (trie_cell n l') →
  (∀ x, x ∈ l ↔ x ∈ l') ∨ sha256_collision.
Proof.
  assert (∀ k v k' v', len v ≤ 128 → len v' ≤ 128 → leaf_cell k v = leaf_cell k' v' →
    (∀ x : item, x ∈ [(k, v)] ↔ x ∈ [(k', v')]) ∨ sha256_collision) as Hleaf.
  { intros k v k' v' Hv Hv' Heq. unfold leaf_cell in Heq. injection Heq as -> Hh.
    apply cell_hash_binding in Hh as [Hv2|?];
      [|by right|by apply value_cell_wf|by apply value_cell_wf].
    injection Hv2 as ->. by left. }
  induction n as [|n IH]; intros l l' Hl Hl' Hh.
  all: pose proof (proj1 Hl) as Hok; pose proof (proj1 Hl') as Hok'.
  all: apply cell_hash_binding in Hh as [Hh|?];
    [|by right|by apply trie_cell_wf|by apply trie_cell_wf].
  all: pose proof (f_equal (λ c, len (data_bytes c)) Hh) as Hlen; cbv beta in Hlen.
  all: destruct l as [|[k v] [|it l]], l' as [|[k' v'] [|it' l']]; cbn [trie_cell] in Hh, Hlen;
    try (exfalso; exact (items_at_256 _ _ _ Hl)); try (exfalso; exact (items_at_256 _ _ _ Hl'));
    try (by left); try (apply Forall_inv in Hok as [Hk Hv]); try (apply Forall_inv in Hok' as [Hk' Hv']);
    cbn [fst snd] in *; rewrite ?data_len_empty, ?data_len_leaf, ?data_len_branch in Hlen;
    try (rewrite Hk in Hlen); try (rewrite Hk' in Hlen); try discriminate Hlen;
    try (apply Hleaf; [apply Hv|apply Hv'|exact Hh]).
  set (d := 256 - Z.of_nat (S n)) in *.
  set (m := (k, v) :: it :: l) in *. set (m' := (k', v') :: it' :: l') in *.
  unfold branch_cell in Hh. injection Hh as Hlh Hrh.
  replace (256 - Z.of_nat n) with (d + 1) in IH by (unfold d; lia).
  apply IH in Hlh as [Hlo|?]; [|by right|by apply items_at_filter|by apply items_at_filter].
  apply IH in Hrh as [Hhi|?]; [|by right|by apply items_at_filter|by apply items_at_filter].
  left. intros x. by rewrite (elem_of_split_bit x d m), (elem_of_split_bit x d m'), Hlo, Hhi.
Qed.

(** *** Chains of references in the built map *)

(** In a map whose cells are stored under their hashes, the references of a
    subtree's root lead nowhere but into the subtree. *)
Lemma trie_cell_grounded m n : ∀ l,
  cells_valid m → items_ok l →
  Acc (flip (edge m)) (cell_hash (trie_cell n l)) ∨ sha256_collision.
Proof.
  assert (∀ c, cells_valid m → Cell_wf c →
    Forall (λ r, Acc (flip (edge m)) r ∨ sha256_collision) (cell_refs c) →
    Acc (flip (edge m)) (cell_hash c) ∨ sha256_collision) as Hcell.
  { intros c Hm Hc Hrefs.
    assert (Forall (Acc (flip (edge m))) (cell_refs c) ∨ sha256_collision) as [Hacc|?]; [|
      |by right].
    { induction Hrefs as [|r refs [?|?] _ IH]; [by left| |by right].
      destruct IH as [?|?]; [left; by constructor|by right]. }
    destruct (m !! cell_hash c) as [c'|] eqn:Hm'.
    - destruct (Hm _ _ Hm') as [Hc' Hh]. apply cell_hash_binding in Hh as [->|?]; [|by right|done..].
      left. constructor. intros y (c1 & Hc1 & Hy). simplify_eq.
      rewrite Forall_forall in Hacc. by apply Hacc.
    - left. constructor. intros y (c1 & Hc1 & Hy). congruence. }
  assert (cells_valid m → ∀ k v, len k = 32 → len v ≤ 128 →
    Acc (flip (edge m)) (cell_hash (leaf_cell k v)) ∨ sha256_collision) as Hleaf.
  { intros Hm k v Hk Hv. apply Hcell; [done|by apply leaf_cell_wf|]. constructor; [|done].
    apply Hcell; [exact Hm|by apply value_cell_wf|apply Forall_nil_2]. }
  assert (cells_valid m → Acc (flip (edge m)) (cell_hash empty_cell) ∨ sha256_collision) as Hempty.
  { intros Hm. apply Hcell; [exact Hm|apply empty_cell_wf|apply Forall_nil_2]. }
  assert (∀ k v l, items_ok ((k, v) :: l) → len k = 32 ∧ len v ≤ 128) as Hhead.
  { intros k v l Hok. apply Forall_inv in Hok as [? [_ ?]]. done. }
  induction n as [|n IH]; intros l Hm Hok; destruct l as [|[k v] [|it l]]; cbn [trie_cell].
  1,4: by apply Hempty.
  1,2,3: destruct (Hhead _ _ _ Hok); by apply Hleaf.
  apply Hcell; [exact Hm|apply branch_cell_wf|].
  repeat apply Forall_cons_2; [..|apply Forall_nil_2];
    (apply IH; [exact Hm|by apply items_ok_filter]).
Qed.

(** ** The tree *)

Definition tree_wf (t : tree_accounts) : Prop :=
  map_Forall (λ k s, len k = 32 ∧ AccountState_wf s) t.

Lemma AccountState_to_bytes_len s :
  AccountState_wf s → 0 < len (AccountState_to_bytes s) ≤ 128.
Proof.
  destruct s as [|b lt code data st|b lt st|]; cbn [AccountState_wf AccountState_to_bytes];
    intros; destruct_and?; autorewrite with len; lia.
Qed.

Lemma elem_of_tree_items t k v :
  (k, v) ∈ tree_items t ↔ ∃ s, t !! k = Some s ∧ v = AccountState_to_bytes s.
Proof.
  unfold tree_items, tree_iter. rewrite list_elem_of_fmap. split.
  - intros ([k' s] & [= -> ->] & Hks). rewrite merge_sort_Permutation in Hks.
    apply elem_of_map_to_list in Hks. eauto.
  - intros (s & Hs & ->). exists (k, s). split; [done|].
    rewrite merge_sort_Permutation. by apply elem_of_map_to_list.
Qed.

Lemma tree_items_at t : tree_wf t → items_at 0 (tree_items t).
Proof.
  intros Hwf. split; [|split].
  - apply Forall_forall. intros [k v] (s & Hs & ->)%elem_of_tree_items.
    destruct (Hwf _ _ Hs) as [Hk Hst]. split; [done|]. by apply AccountState_to_bytes_len.
  - unfold tree_items. rewrite <-list_fmap_compose.
    rewrite (list_fmap_ext _ fst) by (by intros ? []).
    unfold tree_iter. rewrite merge_sort_Permutation. apply NoDup_fst_map_to_list.
  - intros. lia.
Qed.

Lemma build_tree_spec t :
  tree_wf t → ∃ m, build_tree t = Ok (trie_cell 256 (tree_items t), m) ∧ cells_valid m ∧
    m !! cell_hash (trie_cell 256 (tree_items t)) = Some (trie_cell 256 (tree_items t)).
Proof.
  intros Hwf. apply (build_trie_cells_spec 256 257); [lia|lia| |apply map_Forall_empty].
  by apply tree_items_at.
Qed.

Lemma tree_state_root_hash_Ok t :
  tree_wf t → tree_state_root_hash t = Ok (cell_hash (trie_cell 256 (tree_items t))).
Proof.
  intros Hwf. unfold tree_state_root_hash. by destruct (build_tree_spec t Hwf) as (m & -> & _).
Qed.


(** ** Proofs *)

Lemma generate_proof_Ok t k :
  tree_wf t →
  (∃ boc, generate_proof t k = Ok {| magic_bytes := MERKLE_PROOF_MAGIC; target_key := k;
            proof_root_hash := boc_root_hash boc; proof_boc := boc |} ∧
          boc_valid boc ∧ tree_state_root_hash t = Ok (boc_root_hash boc)) ∨
  sha256_collision.
Proof.
  intros Hwf. destruct (build_tree_spec t Hwf) as (m & Hb & Hm & Hroot).
  destruct (trie_cell_grounded m 256 (tree_items t) Hm) as [Hacc|?]; [|left|by right].
  { apply tree_items_at, Hwf. }
  set (h := cell_hash (trie_cell 256 (tree_items t))) in *.
  exists {| boc_root_hash := h; boc_cells := m |}. cbn [boc_root_hash].
  assert (acyclic_from m h) as Hac.
  { intros x Hx. apply grounded_acyclic. by apply (grounded_reach m h). }
  split_and!.
  - unfold generate_proof. rewrite Hb. cbn [rbind]. fold h.
    rewrite (proj2 (boc_new_Ok h m {| boc_root_hash := h; boc_cells := m |})) by eauto. done.
  - split; [done|]. split; [by eexists|done].
  - by apply tree_state_root_hash_Ok.
Qed.

Lemma proof_verify_Ok p :
  proof_verify p = Ok tt ↔
  magic_bytes p = MERKLE_PROOF_MAGIC ∧ boc_root_hash (proof_boc p) = proof_root_hash p ∧
  acyclic_from (boc_cells (proof_boc p)) (boc_root_hash (proof_boc p)).
Proof.
  unfold proof_verify. rewrite <-verify_dag_acyclic.
  destruct (Z.eqb_spec (magic_bytes p) MERKLE_PROOF_MAGIC); cbn [negb]; [|naive_solver].
  destruct (verify_dag (proof_boc p)) as [[]|err|]; cbn [rbind]; [|naive_solver..].
  case_bool_decide; cbn [negb]; naive_solver.
Qed.

(** Reading a written proof comes down to its verification. *)
Lemma MerkleProof_from_to order p rest :
  in_int Uint32 (magic_bytes p) → len (target_key p) = 32 → len (proof_root_hash p) = 32 →
  boc_valid (proof_boc p) → map_Forall (λ h _, len h = 32) (boc_cells (proof_boc p)) →
  order ≡ₚ map_to_list (boc_cells (proof_boc p)) → len order < 2 ^ 32 →
  MerkleProof_from_bytes (MerkleProof_to_bytes order p ++ rest) =
  let? _ := proof_verify p in Ok (p, len (MerkleProof_to_bytes order p)).
Proof.
  intros Hm Ht Hlr Hboc Hkeys Hord Hcount.
  assert (len (boc_root_hash (proof_boc p)) = 32) as Hroot.
  { destruct Hboc as (_ & [c Hc] & _). by eapply Hkeys. }
  pose proof (len_nonneg (BagOfCells_to_bytes order (proof_boc p))). pose proof (len_nonneg rest).
  unfold MerkleProof_from_bytes, MerkleProof_to_bytes. rewrite <-!app_assoc.
  rewrite (proj2 (Z.ltb_ge _ _)) by (autorewrite with len; lia).
  decode_simpl. rewrite BagOfCells_roundtrip by done.
  cbn [rbind]. destruct p as [mg tk rh bc]. cbn [magic_bytes target_key proof_root_hash proof_boc] in *.
  destruct (proof_verify _); cbn [rbind]; [|done..]. autorewrite with len. do 2 f_equal. lia.
Qed.

Lemma MerkleProof_roundtrip order p rest :
  in_int Uint32 (magic_bytes p) → len (target_key p) = 32 →
  proof_verify p = Ok tt → boc_valid (proof_boc p) →
  map_Forall (λ h _, len h = 32) (boc_cells (proof_boc p)) →
  order ≡ₚ map_to_list (boc_cells (proof_boc p)) → len order < 2 ^ 32 →
  MerkleProof_from_bytes (MerkleProof_to_bytes order p ++ rest) =
  Ok (p, len (MerkleProof_to_bytes order p)).
Proof.
  intros Hm Ht Hv Hboc Hkeys Hord Hcount.
  pose proof (proj1 (proof_verify_Ok p) Hv) as (_ & Hr & _).
  rewrite MerkleProof_from_to, Hv; [done|done|done| |done..].
  rewrite <-Hr. destruct Hboc as (_ & [c Hc] & _). by eapply Hkeys.
Qed.

Lemma MerkleProof_from_bytes_safe bs : safe (MerkleProof_from_bytes bs).
Proof.
  unfold MerkleProof_from_bytes. safe_step; [done|]. bool_to_prop.
  safe_step; [auto with res|]. destruct a as [mg c1]. apply read_int_Ok in H as [_ ->].
  autorewrite with len in *. safe_step; [apply take_hash_safe; lia|]. destruct a as [tk c2].
  apply take_hash_Ok in H as [? ->]. autorewrite with len in *.
  safe_step; [apply take_hash_safe; lia|]. destruct a as [rh c3].
  safe_step; [apply BagOfCells_from_bytes_safe|]. destruct a as [boc n].
  apply rbind_safe; [|done]. unfold proof_verify. case_match; [done|].
  apply rbind_safe; [destruct (proof_boc _); apply verify_dag_safe|]. intros. by case_match.
Qed.

End shape.

(** ** Instances *)

Definition sample_key : bytes := replicate 32 Byte.x01.
Definition sample_tree : tree_accounts :=
  {[ sample_key := Frozen 5 1 (replicate 32 Byte.x00) ]}.

Lemma sample_tree_wf : tree_wf sample_tree.
Proof.
  apply map_Forall_singleton. split; [done|]. cbn. rewrite in_int_u128, in_int_u64.
  unfold in_u. split_and!; done || lia.
Qed.


