(* ===== verification/Admission.v ===== *)
(** [onx-transactions], [error.rs], [admission.rs] and [processed.rs]: which
    messages are admitted, and the record of the delivered ones. *)
From S2P Require Import Prelude Bytes Machine Primitives Address Message Account ToyCrypto.

Inductive TransactionsError : Type :=
  | WrongMessageType (expected actual : MessageType)
  | NonZeroExternalValue
  | UnsortedExtraCurrencies
  | DuplicateCurrencyId (currency_id : Z)
  | TentativeSignatureInvalid
  | TentativeGasLimitExceeded (used limit : Z)
  | InternalSourceNotActive
  | DuplicateDelivery
  | FifoOrderViolation (previous_lt next_lt : Z)
  | TxLogicalTimeRegression (previous_lt next_lt : Z)
  | IncompatibleRoute
  | RouteEndpointMismatch
  | InvalidHypercubeHop
  | InsufficientTransitFee (available required : Z)
  | ExpiryOverflow.

#[export] Instance TransactionsError_eq_dec : EqDecision TransactionsError.
Proof. solve_decision. Defined.
#[export] Instance AccountType_eq_dec : EqDecision AccountType.
Proof. solve_decision. Defined.

(** ** Admission ([admission.rs]) *)

Definition MAX_TENTATIVE_GAS : Z := 10000.

Record TentativeExecutionOutcome : Type := { signature_valid : bool; gas_used : Z }.

(** The loop over [windows(2)] *)
Fixpoint validate_extra_currencies_sorted (l : list (Z * Z)) : result TransactionsError unit :=
  match l with
  | (a, _) :: (((b, _) :: _) as rest) =>
      if a =? b then Err (DuplicateCurrencyId a)
      else if b <? a then Err UnsortedExtraCurrencies
      else validate_extra_currencies_sorted rest
  | _ => Ok tt
  end.

Definition validate_message_shape (m : Message) : result TransactionsError unit :=
  let? _ := validate_extra_currencies_sorted (extra_currencies m) in
  if bool_decide (msg_type m = ExternalInbound)
     && (negb (amount_nanos m =? 0) || negb (len (extra_currencies m) =? 0))
  then Err NonZeroExternalValue else Ok tt.

Definition admit_internal (m : Message) (source_account_type : AccountType) :
    result TransactionsError unit :=
  if negb (bool_decide (msg_type m = Internal))
  then Err (WrongMessageType Internal (msg_type m))
  else
    let? _ := validate_message_shape m in
    if negb (bool_decide (source_account_type = TActive)) then Err InternalSourceNotActive
    else Ok tt.

Definition admit_external_inbound (m : Message) (outcome : TentativeExecutionOutcome) :
    result TransactionsError unit :=
  if negb (bool_decide (msg_type m = ExternalInbound))
  then Err (WrongMessageType ExternalInbound (msg_type m))
  else
    let? _ := validate_message_shape m in
    if negb (signature_valid outcome) then Err TentativeSignatureInvalid
    else if MAX_TENTATIVE_GAS <? gas_used outcome
    then Err (TentativeGasLimitExceeded (gas_used outcome) MAX_TENTATIVE_GAS)
    else Ok tt.

Definition admit_external_outbound (m : Message) : result TransactionsError unit :=
  if negb (bool_decide (msg_type m = ExternalOutbound))
  then Err (WrongMessageType ExternalOutbound (msg_type m))
  else validate_message_shape m.

(** The rule the loop checks: identifiers strictly increase along the list. *)
Definition currencies_ascending : list (Z * Z) → Prop := StronglySorted (λ a b, a.1 < b.1).

Lemma extra_currencies_Ok l u :
  validate_extra_currencies_sorted l = Ok u ↔ currencies_ascending l.
Proof.
  destruct u. unfold currencies_ascending. induction l as [|[a x] [|[b y] l] IH].
  - split; [constructor|done].
  - split; [repeat constructor|done].
  - cbn [validate_extra_currencies_sorted]. split.
    + intros H. destruct (Z.eqb_spec a b); [done|]. destruct (Z.ltb_spec b a); [done|].
      apply IH in H. constructor; [done|]. apply StronglySorted_inv in H as [_ Hb].
      constructor; [cbn; lia|]. eapply Forall_impl; [exact Hb|]. cbn. intros. lia.
    + intros H. apply StronglySorted_inv in H as [Hs Ha]. apply Forall_inv in Ha. cbn in Ha.
      rewrite (proj2 (Z.eqb_neq a b)), (proj2 (Z.ltb_ge b a)) by lia. by apply IH.
Qed.

Lemma message_shape_Ok m u :
  validate_message_shape m = Ok u ↔
  currencies_ascending (extra_currencies m) ∧
  (msg_type m = ExternalInbound → amount_nanos m = 0 ∧ extra_currencies m = []).
Proof.
  unfold validate_message_shape. destruct u.
  destruct (validate_extra_currencies_sorted (extra_currencies m)) as [[]|e|] eqn:Hs; cbn [rbind].
  - apply extra_currencies_Ok in Hs. case_bool_decide as Ht; cbn [andb]; [|naive_solver].
    destruct (Z.eqb_spec (amount_nanos m) 0), (Z.eqb_spec (len (extra_currencies m)) 0) as [Hl|Hl];
      cbn [negb orb]; try naive_solver.
    + apply len_0_nil in Hl. naive_solver.
    + split; [done|]. intros (_ & H). destruct (H Ht) as [_ Hn]. by rewrite Hn in Hl.
  - split; [done|]. intros [H _]. by rewrite (proj2 (extra_currencies_Ok _ tt) H) in Hs.
  - split; [done|]. intros [H _]. by rewrite (proj2 (extra_currencies_Ok _ tt) H) in Hs.
Qed.

(** Exactly the well-shaped messages are admitted: currency identifiers
    strictly ascending (so none twice); an internal message from an active
    account; an external inbound message of no value whose tentative execution
    verified within the gas cap; an external outbound message of any value. *)
Theorem admission_rules m ty o :
  (admit_internal m ty = Ok tt ↔
     msg_type m = Internal ∧ currencies_ascending (extra_currencies m) ∧ ty = TActive) ∧
  (admit_external_inbound m o = Ok tt ↔
     msg_type m = ExternalInbound ∧ amount_nanos m = 0 ∧ extra_currencies m = [] ∧
     signature_valid o = true ∧ gas_used o ≤ 10000) ∧
  (admit_external_outbound m = Ok tt ↔
     msg_type m = ExternalOutbound ∧ currencies_ascending (extra_currencies m)) ∧
  (currencies_ascending (extra_currencies m) → NoDup (extra_currencies m).*1).
Proof.
  pose proof (message_shape_Ok m tt) as Hshape. split_and!.
  - unfold admit_internal. case_bool_decide as Ht; cbn [negb]; [|naive_solver].
    rewrite rbind_Ok. setoid_rewrite message_shape_Ok.
    case_bool_decide; cbn [negb]; rewrite Ht; naive_solver.
  - unfold admit_external_inbound, MAX_TENTATIVE_GAS.
    case_bool_decide as Ht; cbn [negb]; [|naive_solver].
    rewrite rbind_Ok. setoid_rewrite message_shape_Ok.
    destruct (signature_valid o); cbn [negb]; [|naive_solver].
    destruct (Z.ltb_spec 10000 (gas_used o)); [naive_solver lia|]. split; [naive_solver|].
    intros (_ & Ha & He & _). exists tt. rewrite He. repeat split; done || constructor.
  - unfold admit_external_outbound. case_bool_decide as Ht; cbn [negb]; [|naive_solver].
    rewrite Hshape, Ht. naive_solver.
  - unfold currencies_ascending. generalize (extra_currencies m).
    induction 1 as [|a l _ IH Ha]; cbn; [constructor|].
    apply NoDup_cons. split; [|done]. intros (b & Hb & Hin)%list_elem_of_fmap.
    rewrite Forall_forall in Ha. specialize (Ha b Hin). lia.
Qed.

(** ** Delivered messages ([processed.rs]) *)

Definition ProcessedMessageTracker : Type := gset bytes.

(** The set as left by the call, and the result *)
Definition tracker_admit (s : ProcessedMessageTracker) (h : bytes) :
    ProcessedMessageTracker * result TransactionsError unit :=
  ({[h]} ∪ s, if bool_decide (h ∈ s) then Err DuplicateDelivery else Ok tt).

Definition tracker_admit_message `{Crypto} (s : ProcessedMessageTracker) (m : Message) :=
  tracker_admit s (message_hash m).

Definition tracker_contains (s : ProcessedMessageTracker) (h : bytes) : bool :=
  bool_decide (h ∈ s).

Definition tracker_prune (s : ProcessedMessageTracker) (h : bytes) : ProcessedMessageTracker :=
  s ∖ {[h]}.

(** Any sequence of calls between two deliveries *)
Inductive tracker_op : Type := OpAdmit (m : Message) | OpPrune (h : bytes).

Definition tracker_step `{Crypto} (s : ProcessedMessageTracker) (op : tracker_op) :=
  match op with
  | OpAdmit m => (tracker_admit_message s m).1
  | OpPrune h => tracker_prune s h
  end.

Definition tracker_run `{Crypto} : list tracker_op → ProcessedMessageTracker → ProcessedMessageTracker :=
  flip (foldl tracker_step).

Lemma tracker_keeps `{Crypto} ops s h :
  h ∈ s → OpPrune h ∉ ops → h ∈ tracker_run ops s.
Proof.
  unfold tracker_run, flip. revert s. induction ops as [|op ops IH]; intros s Hs Hp; [done|].
  apply not_elem_of_cons in Hp as [Hop Hp]. cbn. apply IH; [|done].
  destruct op as [m|h']; cbn; [set_solver|]. unfold tracker_prune.
  assert (h ≠ h') by congruence. set_solver.
Qed.

(** A message is delivered at most once until its hash is pruned: after
    [m] was recorded, whatever other calls follow, [m] is refused again, and
    a message that is accepted there is a different one. *)
Theorem no_double_delivery `{Crypto} s ops m m' :
  OpPrune (message_hash m) ∉ ops →
  let s' := tracker_run ops (tracker_admit_message s m).1 in
  (tracker_admit_message s' m).2 = Err DuplicateDelivery ∧
  ((tracker_admit_message s' m').2 = Ok tt → m' ≠ m) ∧
  (Message_wf m → Message_wf m' → message_hash m' = message_hash m →
   m' = m ∨ sha256_collision).
Proof.
  intros Hp s'. assert (message_hash m ∈ s') as Hin.
  { apply tracker_keeps; [|done]. cbn. set_solver. }
  assert ((tracker_admit_message s' m).2 = Err DuplicateDelivery) as Herr.
  { cbn. by rewrite bool_decide_true. }
  split_and!; [done|by intros Hok ->; rewrite Herr in Hok|].
  intros Hm Hm' Hh. by apply message_hash_binding.
Qed.

Definition sample_address (n : Z) : FullAddress :=
  {| addr_workchain := 0; addr_account := be_bytes 32 n |}.
Definition sample_message (src dest lt : Z) : Message :=
  {| msg_type := Internal; src_address := sample_address src; dest_address := sample_address dest;
     amount_nanos := 10; extra_currencies := []; created_lt := lt;
     body_cell_hash := replicate 32 Byte.x00 |}.

Lemma sample_message_wf src dest lt : in_u 64 lt → Message_wf (sample_message src dest lt).
Proof.
  intros Hlt. unfold Message_wf, FullAddress_wf, sample_message, sample_address.
  cbn [src_address dest_address amount_nanos extra_currencies created_lt body_cell_hash
    addr_workchain addr_account]. rewrite !len_be_bytes, in_int_u64, in_int_u32, in_int_u128.
  unfold in_u in *. split_and!; done || lia || constructor.
Qed.

Lemma no_double_delivery_witness :
  let m := sample_message 1 2 3 in
  let s' := tracker_run (H:=toy_crypto) [OpAdmit (sample_message 4 5 6)]
              (tracker_admit_message (H:=toy_crypto) ∅ m).1 in
  (tracker_admit_message (H:=toy_crypto) s' m).2 = Err DuplicateDelivery.
Proof.
  apply (no_double_delivery (H:=toy_crypto) ∅ [OpAdmit (sample_message 4 5 6)]
    (sample_message 1 2 3) (sample_message 1 2 3)).
  by intros ?%list_elem_of_singleton.
Defined.
