(* ===== verification/OutQueue.v ===== *)
(** [onx-transactions], [output_queue.rs]: the output queue and its delivery
    order. *)
From S2P Require Import Prelude Bytes Machine Primitives Address Message Admission.

Abbreviation LaneKey := (FullAddress * FullAddress)%type.
Abbreviation Lane := (list Message).

(** The [BTreeMap] of lanes *)
Abbreviation OutputQueue := (gmap (FullAddress * FullAddress) (list Message)).

Definition lane_key (m : Message) : LaneKey := (src_address m, dest_address m).

(** The derived order on addresses: workchain, then account bytes *)
Definition address_lt (a b : FullAddress) : bool :=
  (addr_workchain a <? addr_workchain b)
  || (addr_workchain a =? addr_workchain b) && (be_val (addr_account a) <? be_val (addr_account b)).

Definition lane_le (x y : LaneKey * Lane) : Prop :=
  address_lt y.1.1 x.1.1 = false ∧
  (address_lt x.1.1 y.1.1 = true ∨ address_lt y.1.2 x.1.2 = false).
#[export] Instance lane_le_dec : RelDecision lane_le.
Proof. intros x y. unfold lane_le. apply _. Defined.

(** [self.lanes.iter()] *)
Definition lanes_iter (q : OutputQueue) : list (LaneKey * Lane) :=
  merge_sort lane_le (map_to_list q).

Definition queue_new : OutputQueue := ∅.

(** The queue as left by the call, and the result: the entry is created before
    the check. *)
Definition enqueue (q : OutputQueue) (m : Message) : OutputQueue * result TransactionsError unit :=
  let key := lane_key m in
  let lane := default [] (q !! key) in
  let q := <[ key := lane ]> q in
  let push := (<[ key := lane ++ [m] ]> q, Ok tt) in
  match last lane with
  | Some back =>
      if created_lt m <=? created_lt back
      then (q, Err (TxLogicalTimeRegression (created_lt back) (created_lt m)))
      else push
  | None => push
  end.

Definition peek_next (q : OutputQueue) : option Message :=
  min_by_key created_lt (omap (λ '(_, lane), head lane) (lanes_iter q)).

Definition pop_next (q : OutputQueue) : option Message * OutputQueue :=
  match min_by_key snd (omap (λ '(key, lane), m ← head lane; Some (key, created_lt m))
                          (lanes_iter q)) with
  | None => (None, q)
  | Some (key, _) =>
      match q !! key with
      | None => (None, q)
      | Some lane =>
          let message := head lane in
          let lane := tail lane in
          (message, if len lane =? 0 then delete key q else <[ key := lane ]> q)
      end
  end.

(** One step of the loop of [validate_delivery_order] *)
Definition check_delivery (m : Message) (last_lt_per_pair : gmap LaneKey Z) :
    result TransactionsError (gmap LaneKey Z) :=
  let key := lane_key m in
  match last_lt_per_pair !! key with
  | Some previous_lt =>
      if created_lt m <=? previous_lt
      then Err (FifoOrderViolation previous_lt (created_lt m))
      else Ok (<[ key := created_lt m ]> last_lt_per_pair)
  | None => Ok (<[ key := created_lt m ]> last_lt_per_pair)
  end.

Definition validate_delivery_order (sequence : list Message) : result TransactionsError unit :=
  let? _ := foldM check_delivery sequence ∅ in Ok tt.

Definition queue_is_empty (q : OutputQueue) : bool := bool_decide (q = ∅).

Definition queue_len (q : OutputQueue) : Z :=
  foldr (λ x acc, len x.2 + acc) 0 (lanes_iter q).

(** ** The invariant *)

Definition lt_before (a b : Message) : Prop := created_lt a < created_lt b.

(** No lane is empty, each holds the messages of its pair only, oldest first. *)
Definition queue_ok (q : OutputQueue) : Prop :=
  map_Forall (λ key lane, lane ≠ [] ∧ Forall (λ m, lane_key m = key) lane ∧
    StronglySorted lt_before lane) q.

(** The messages waiting, in no particular order *)
Definition contents (q : OutputQueue) : list Message := (map_to_list q).*2 ≫= id.

Lemma queue_ok_new : queue_ok queue_new.
Proof. apply map_Forall_empty. Qed.

Lemma StronglySorted_snoc (l : list Message) m :
  StronglySorted lt_before l → (∀ b, last l = Some b → lt_before b m) →
  StronglySorted lt_before (l ++ [m]).
Proof.
  intros Hl Hb. induction Hl as [|a l Hl IH Ha]; cbn; [repeat constructor|].
  constructor.
  - apply IH. intros b Hbl. apply Hb. destruct l; [done|]. by rewrite last_cons_cons.
  - apply Forall_app. split; [done|]. constructor; [|done]. unfold lt_before in *.
    destruct (last l) as [b|] eqn:Hlast.
    + assert (last (a :: l) = Some b) as Hb' by (by rewrite last_cons, Hlast).
      specialize (Hb b Hb'). apply last_Some_elem_of in Hlast. rewrite Forall_forall in Ha.
      specialize (Ha b Hlast). lia.
    + apply last_None in Hlast as ->. apply Hb. done.
Qed.

(** What [enqueue] does: it either refuses a message that is not newer than the
    back of its lane and changes nothing, or appends it to its lane. *)
Lemma enqueue_spec q m :
  queue_ok q →
  ((∃ back, (q !! lane_key m) ≫= last = Some back ∧ created_lt m ≤ created_lt back ∧
     enqueue q m = (q, Err (TxLogicalTimeRegression (created_lt back) (created_lt m)))) ∨
   ((∀ back, (q !! lane_key m) ≫= last = Some back → lt_before back m) ∧
     enqueue q m = (<[ lane_key m := default [] (q !! lane_key m) ++ [m] ]> q, Ok tt))).
Proof.
  intros Hq. unfold enqueue. rewrite insert_insert_eq.
  destruct (q !! lane_key m) as [lane|] eqn:Hl; cbn [default mbind option_bind from_option id].
  - destruct (last lane) as [back|] eqn:Hb; [|right; done].
    destruct (Z.leb_spec (created_lt m) (created_lt back)).
    + left. exists back. split_and!; [done|done|]. by rewrite insert_id.
    + right. split; [|done]. intros ? [= <-]. done.
  - right. done.
Qed.

Lemma enqueue_ok q m : queue_ok q → queue_ok (enqueue q m).1.
Proof.
  intros Hq. destruct (enqueue_spec q m Hq) as [(b & _ & _ & ->)|[Hlast ->]]; [done|]. cbn [fst].
  apply map_Forall_insert_2; [|done].
  destruct (q !! lane_key m) as [lane|] eqn:Hl; cbn in *.
  - destruct (Hq _ _ Hl) as (Hne & Hkeys & Hs). split_and!.
    + by destruct lane.
    + apply Forall_app. auto.
    + by apply StronglySorted_snoc.
  - split_and!; [done|by constructor|repeat constructor].
Qed.

(** ** The next message *)

(** The heads of the lanes with their keys, in iteration order *)
Definition heads (q : OutputQueue) : list (LaneKey * Message) :=
  omap (λ '(key, lane), m ← head lane; Some (key, m)) (lanes_iter q).

Lemma heads_snd q : omap (λ '(_, lane), head lane) (lanes_iter q) = (heads q).*2.
Proof.
  unfold heads. induction (lanes_iter q) as [|[k [|m lane]] l IH]; cbn; [done|done|].
  f_equal. exact IH.
Qed.

Lemma heads_lt q :
  omap (λ '(key, lane), m ← head lane; Some (key, created_lt m)) (lanes_iter q)
  = (λ '(key, m), (key, created_lt m)) <$> heads q.
Proof.
  unfold heads. induction (lanes_iter q) as [|[k [|m lane]] l IH]; cbn; [done|done|].
  f_equal. exact IH.
Qed.

Lemma elem_of_heads q key m :
  (key, m) ∈ heads q ↔ ∃ lane, q !! key = Some (m :: lane).
Proof.
  unfold heads. rewrite list_elem_of_omap. split.
  - intros ([k lane] & Hin & Hm). unfold lanes_iter in Hin.
    rewrite merge_sort_Permutation in Hin. apply elem_of_map_to_list in Hin.
    destruct lane as [|m' lane]; cbn in Hm; simplify_eq. eauto.
  - intros (lane & Hl). exists (key, m :: lane). split; [|done]. unfold lanes_iter.
    rewrite merge_sort_Permutation. by apply elem_of_map_to_list.
Qed.

Lemma elem_of_contents q m : m ∈ contents q ↔ ∃ key lane, q !! key = Some lane ∧ m ∈ lane.
Proof.
  unfold contents. rewrite list_elem_of_bind. split.
  - intros (lane & Hm & ([key l] & -> & Hin)%list_elem_of_fmap).
    apply elem_of_map_to_list in Hin. eauto.
  - intros (key & lane & Hl & Hm). exists lane. split; [done|]. apply list_elem_of_fmap.
    exists (key, lane). split; [done|]. by apply elem_of_map_to_list.
Qed.

Lemma contents_insert q key lane :
  contents (<[ key := lane ]> q) ≡ₚ lane ++ contents (delete key q).
Proof.
  unfold contents. rewrite <-insert_delete_eq.
  rewrite map_to_list_insert by apply lookup_delete_eq. done.
Qed.

Lemma contents_lookup q key lane :
  q !! key = Some lane → contents q ≡ₚ lane ++ contents (delete key q).
Proof. intros Hl. rewrite <-contents_insert. by rewrite insert_id. Qed.

(** The queue after the head of a lane is taken *)
Definition drop_head (q : OutputQueue) (key : LaneKey) (lane : Lane) : OutputQueue :=
  if len lane =? 0 then delete key q else <[ key := lane ]> q.

Lemma drop_head_contents q key m lane :
  q !! key = Some (m :: lane) → contents q ≡ₚ m :: contents (drop_head q key lane).
Proof.
  intros Hl. rewrite (contents_lookup _ _ _ Hl). unfold drop_head.
  destruct (Z.eqb_spec (len lane) 0) as [H0|_]; cbn.
  - by rewrite (len_0_nil lane H0).
  - by rewrite contents_insert.
Qed.

Lemma drop_head_ok q key m lane :
  queue_ok q → q !! key = Some (m :: lane) → queue_ok (drop_head q key lane).
Proof.
  intros Hq Hl. destruct (Hq _ _ Hl) as (_ & Hk & Hs). unfold drop_head.
  destruct (Z.eqb_spec (len lane) 0) as [H0|H0].
  - by apply map_Forall_delete.
  - apply map_Forall_insert_2; [|done]. split_and!.
    + intros ->. by apply H0.
    + by apply Forall_inv_tail in Hk.
    + by apply StronglySorted_inv in Hs as [? _].
Qed.

Lemma pop_next_spec q :
  queue_ok q →
  (q = ∅ ∧ pop_next q = (None, ∅) ∧ peek_next q = None) ∨
  (∃ m lane, pop_next q = (Some m, drop_head q (lane_key m) lane) ∧
     peek_next q = Some m ∧ q !! lane_key m = Some (m :: lane) ∧
     ∀ m', m' ∈ contents q → created_lt m ≤ created_lt m').
Proof.
  intros Hq. unfold pop_next, peek_next. rewrite heads_snd, heads_lt, !min_by_key_fmap.
  set (f := λ x : LaneKey * Message, created_lt x.2).
  change (created_lt ∘ snd) with f.
  rewrite (min_by_key_ext (snd ∘ _) f) by (by intros []).
  destruct (min_by_key f (heads q)) as [[key m]|] eqn:Hmin; cbn [fmap option_fmap option_map].
  - right. apply min_by_key_Some in Hmin as [Hin Hall].
    apply elem_of_heads in Hin as [lane Hl]. destruct (Hq _ _ Hl) as (_ & Hk & Hs).
    apply Forall_inv in Hk. subst key. exists m, lane. rewrite Hl. cbn [head tail].
    split_and!; [done|done|done|]. intros m' Hm'.
    apply elem_of_contents in Hm' as (key' & lane' & Hl' & Hm').
    destruct (Hq _ _ Hl') as (Hne & _ & Hs'). destruct lane' as [|h lane']; [done|].
    assert ((key', h) ∈ heads q) as Hh by (apply elem_of_heads; eauto).
    rewrite Forall_forall in Hall. specialize (Hall _ Hh). cbn in Hall.
    apply StronglySorted_inv in Hs' as [_ Hh']. rewrite Forall_forall in Hh'.
    apply elem_of_cons in Hm' as [->|Hm']; [done|]. specialize (Hh' _ Hm').
    unfold lt_before in Hh'. unfold f in Hall. cbn in Hall. lia.
  - left. apply min_by_key_None in Hmin. assert (q = ∅) as ->; [|done].
    apply map_empty. intros key. destruct (q !! key) as [lane|] eqn:Hl; [|done].
    destruct (Hq _ _ Hl) as (Hne & _). destruct lane as [|m lane]; [done|].
    assert ((key, m) ∈ heads q) as Hh by (apply elem_of_heads; eauto).
    rewrite Hmin in Hh. by apply not_elem_of_nil in Hh.
Qed.

Lemma queue_len_contents q : queue_len q = len (contents q).
Proof.
  assert (∀ l : list (LaneKey * Lane),
    foldr (λ x acc, len x.2 + acc) 0 l = len (l.*2 ≫= id)) as Hsum.
  { induction l as [|[k lane] l IH]; [done|]. cbn. by rewrite len_app, IH. }
  unfold queue_len, contents, lanes_iter. rewrite Hsum. apply len_Permutation.
  by rewrite merge_sort_Permutation.
Qed.

(** Every call keeps the lanes well formed. [enqueue] either appends the
    message to its own lane, or refuses it and leaves the queue as it was,
    because the lane's last message is not older. [pop_next] removes exactly the
    message [peek_next] shows, one of least logical time among all that wait,
    and answers [None] only for the empty queue; [len] counts the messages. *)
Theorem output_queue_operations q m :
  queue_ok q →
  (queue_ok (enqueue q m).1 ∧
   ((enqueue q m).2 = Ok tt ∧ contents (enqueue q m).1 ≡ₚ m :: contents q ∨
    ∃ back, (enqueue q m) = (q, Err (TxLogicalTimeRegression (created_lt back) (created_lt m))) ∧
      back ∈ contents q ∧ lane_key back = lane_key m ∧ created_lt m ≤ created_lt back)) ∧
  queue_len q = len (contents q) ∧
  ((q = ∅ ∧ pop_next q = (None, q) ∧ peek_next q = None) ∨
   ∃ m' q', pop_next q = (Some m', q') ∧ peek_next q = Some m' ∧ queue_ok q' ∧
     contents q ≡ₚ m' :: contents q' ∧ ∀ x, x ∈ contents q → created_lt m' ≤ created_lt x).
Proof.
  intros Hq. split_and!; [by apply enqueue_ok| |apply queue_len_contents|].
  - destruct (enqueue_spec q m Hq) as [(back & Hb & Hle & Heq)|[_ Heq]]; rewrite Heq; cbn [fst snd].
    + right. exists back. destruct (q !! lane_key m) as [lane|] eqn:Hl; [|done].
      cbn in Hb. apply last_Some_elem_of in Hb. destruct (Hq _ _ Hl) as (_ & Hk & _).
      rewrite Forall_forall in Hk. split_and!; [done| |by apply Hk|done].
      apply elem_of_contents. eauto.
    + left. split; [done|]. rewrite contents_insert.
      destruct (q !! lane_key m) as [lane|] eqn:Hl; cbn.
      * rewrite (contents_lookup _ _ _ Hl), <-app_assoc. cbn. by rewrite Permutation_middle.
      * by rewrite delete_id.
  - destruct (pop_next_spec q Hq) as [(-> & Hp & Hk)|(m' & lane & Hp & Hk & Hl & Hmin)]; [by left|].
    right. exists m', (drop_head q (lane_key m') lane).
    split_and!; [done|done|by eapply drop_head_ok|by apply drop_head_contents|done].
Qed.

(** ** Deliveries in order *)

(** Of two deliveries of one pair the later has the greater logical time. *)
Definition fifo_order : list Message → Prop :=
  StronglySorted (λ a b, lane_key a = lane_key b → created_lt a < created_lt b).

Definition newer_than_seen (seen : gmap LaneKey Z) (m : Message) : Prop :=
  ∀ lt, seen !! lane_key m = Some lt → lt < created_lt m.

Lemma check_delivery_Ok m seen seen' :
  check_delivery m seen = Ok seen' ↔
  newer_than_seen seen m ∧ seen' = <[ lane_key m := created_lt m ]> seen.
Proof.
  unfold check_delivery, newer_than_seen. destruct (seen !! lane_key m) as [lt|] eqn:Hl; cbn.
  - destruct (Z.leb_spec (created_lt m) lt); [|naive_solver].
    split; [done|]. intros [Hn _]. specialize (Hn lt eq_refl). lia.
  - naive_solver.
Qed.

Lemma newer_than_insert m seen x :
  newer_than_seen seen m →
  newer_than_seen (<[ lane_key m := created_lt m ]> seen) x ↔
  newer_than_seen seen x ∧ (lane_key m = lane_key x → created_lt m < created_lt x).
Proof.
  unfold newer_than_seen. intros Hm. destruct (decide (lane_key m = lane_key x)) as [He|Hne].
  - rewrite He, lookup_insert_eq. rewrite He in Hm. split.
    + intros H. specialize (H _ eq_refl). split; [|done]. intros lt Hlt.
      specialize (Hm lt Hlt). lia.
    + intros [_ H] lt [= <-]. auto.
  - rewrite lookup_insert_ne by done. split; [by split|by intros []].
Qed.

Lemma delivery_loop l : ∀ seen,
  (∃ seen', foldM check_delivery l seen = Ok seen') ↔
  fifo_order l ∧ Forall (newer_than_seen seen) l.
Proof.
  unfold fifo_order. induction l as [|m l IH]; intros seen; cbn.
  { split; [repeat constructor|]. intros _. by eexists. }
  split.
  - intros (seen' & (s1 & [Hm ->]%check_delivery_Ok & H)%rbind_Ok).
    destruct (proj1 (IH _) (ex_intro _ _ H)) as [Hs Hall].
    assert (∀ x, x ∈ l → newer_than_seen seen x ∧
      (lane_key m = lane_key x → created_lt m < created_lt x)) as Hx.
    { rewrite Forall_forall in Hall. intros x Hx. by apply newer_than_insert, Hall. }
    split; constructor; try done; apply Forall_forall; intros x Hxl; by apply Hx.
  - intros [[Hs Hm]%StronglySorted_inv [Hnew Hall]%Forall_cons].
    destruct (proj2 (IH (<[ lane_key m := created_lt m ]> seen))) as [seen' H].
    + split; [done|]. rewrite !Forall_forall in *. intros x Hx.
      apply newer_than_insert; auto.
    + exists seen'. apply rbind_Ok. eexists. split; [|exact H]. by apply check_delivery_Ok.
Qed.

Lemma validate_delivery_order_Ok l : validate_delivery_order l = Ok tt ↔ fifo_order l.
Proof.
  unfold validate_delivery_order. rewrite rbind_Ok. transitivity (∃ s, foldM check_delivery l ∅ = Ok s).
  { naive_solver. }
  rewrite delivery_loop. split; [naive_solver|]. intros H. split; [done|].
  apply Forall_forall. intros x _ lt. by rewrite lookup_empty.
Qed.

(** Delivering everything: [pop_next] until the queue is empty *)
Fixpoint drain (fuel : nat) (q : OutputQueue) : list Message :=
  match fuel, pop_next q with
  | S fuel, (Some m, q) => m :: drain fuel q
  | _, _ => []
  end.

Lemma drain_spec n : ∀ q, queue_ok q → length (contents q) = n →
  drain n q ≡ₚ contents q ∧ StronglySorted (λ a b, created_lt a ≤ created_lt b) (drain n q) ∧
  fifo_order (drain n q).
Proof.
  induction n as [|n IH]; intros q Hq Hn.
  { apply nil_length_inv in Hn as ->. repeat constructor. }
  destruct (pop_next_spec q Hq) as [(-> & _)|(m & lane & Hp & _ & Hl & Hmin)]; [done|].
  pose proof (drop_head_contents _ _ _ _ Hl) as Hc. set (q' := drop_head q (lane_key m) lane) in *.
  assert (queue_ok q') as Hq' by by eapply drop_head_ok.
  destruct (IH q' Hq') as (Hperm & Hsort & Hfifo).
  { rewrite Hc in Hn. cbn in Hn. lia. }
  cbn [drain]. rewrite Hp. split_and!.
  - by rewrite Hperm, Hc.
  - constructor; [done|]. rewrite Hperm. apply Forall_forall. intros x Hx. apply Hmin.
    rewrite Hc. by constructor.
  - constructor; [done|]. rewrite Hperm. apply Forall_forall. intros x Hx He.
    apply elem_of_contents in Hx as (key & k & Hk & Hx).
    destruct (Hq' _ _ Hk) as (_ & Hkeys & _). rewrite Forall_forall in Hkeys.
    specialize (Hkeys x Hx). subst key. rewrite <-He in Hk.
    assert (k = lane) as ->.
    { unfold q', drop_head in Hk. destruct (_ =? _); [by rewrite lookup_delete_eq in Hk|].
      rewrite lookup_insert_eq in Hk. congruence. }
    destruct (Hq _ _ Hl) as (_ & _ & Hs). apply StronglySorted_inv in Hs as [_ Hs].
    rewrite Forall_forall in Hs. by apply Hs.
Qed.

(** C27: [validate_delivery_order] accepts exactly the sequences in which every
    pair's logical times strictly increase, and emptying any well-formed queue
    through [pop_next] delivers all its messages, once each, in nondecreasing
    logical time and in an order that check accepts. *)
Theorem deliveries_fifo q l :
  queue_ok q →
  (validate_delivery_order l = Ok tt ↔
     ∀ i j a b, (i < j)%nat → l !! i = Some a → l !! j = Some b →
       lane_key a = lane_key b → created_lt a < created_lt b) ∧
  let s := drain (length (contents q)) q in
  s ≡ₚ contents q ∧ StronglySorted (λ a b, created_lt a ≤ created_lt b) s ∧
  validate_delivery_order s = Ok tt.
Proof.
  intros Hq. split.
  - rewrite validate_delivery_order_Ok. unfold fifo_order. rewrite StronglySorted_lookup. naive_solver.
  - intros s. destruct (drain_spec _ q Hq eq_refl) as (Hp & Hs & Hf).
    split_and!; [done|done|by apply validate_delivery_order_Ok].
Qed.

Definition sample_queue : OutputQueue :=
  (enqueue (enqueue (enqueue queue_new (sample_message 1 2 5)).1 (sample_message 2 3 4)).1
    (sample_message 1 2 6)).1.

Lemma sample_queue_ok : queue_ok sample_queue.
Proof. do 3 apply enqueue_ok. apply queue_ok_new. Qed.

Lemma output_queue_operations_witness :
  queue_len sample_queue = len (contents sample_queue) ∧ queue_len sample_queue = 3.
Proof.
  split; [|by vm_compute].
  apply (output_queue_operations sample_queue (sample_message 1 2 6)), sample_queue_ok.
Defined.

Lemma deliveries_fifo_witness :
  validate_delivery_order (drain (length (contents sample_queue)) sample_queue) = Ok tt.
Proof. apply (deliveries_fifo sample_queue []), sample_queue_ok. Defined.
