(* ===== verification/Delivery.v ===== *)
(** The way of a message from a sender's output queue to a receiver that admits
    it: onx-transactions, output_queue.rs and processed.rs, over the encoding of
    onx-data-structures. *)
From S2P Require Import Prelude Bytes Machine Primitives ToyCrypto Address Message Admission OutQueue.

(** ** The sender *)

(** The queue after a list of attempts, and the messages it took *)
Fixpoint enqueue_all (ms : list Message) (q : OutputQueue) : OutputQueue * list Message :=
  match ms with
  | [] => (q, [])
  | m :: ms =>
      let '(q, r) := enqueue q m in
      let '(q, taken) := enqueue_all ms q in
      (q, if is_ok r then m :: taken else taken)
  end.

Lemma enqueue_all_spec ms : ∀ q, queue_ok q →
  queue_ok (enqueue_all ms q).1 ∧ contents (enqueue_all ms q).1 ≡ₚ contents q ++ (enqueue_all ms q).2 ∧
  (enqueue_all ms q).2 `sublist_of` ms.
Proof.
  induction ms as [|m ms IH]; intros q Hq; cbn [enqueue_all]; [by rewrite app_nil_r|].
  pose proof (enqueue_ok q m Hq) as Hq'. destruct (enqueue_spec q m Hq) as [(b & _ & _ & He)|[_ He]];
    rewrite He in *; cbn [fst] in Hq'; destruct (IH _ Hq') as (Hok & Hc & Hs);
    destruct (enqueue_all ms _) as [q2 taken]; cbn [fst snd is_ok] in *.
  - split_and!; [done|done|by apply sublist_cons].
  - split_and!; [done| |by apply sublist_skip]. rewrite Hc, contents_insert.
    destruct (q !! lane_key m) as [lane|] eqn:Hl; cbn [default from_option id].
    + rewrite (contents_lookup _ _ _ Hl). solve_Permutation.
    + rewrite delete_id by done. cbn. solve_Permutation.
Qed.

(** ** The receiver *)

Section receiver.
Context `{Crypto}.

(** One datagram: what does not decode is dropped, what the tracker refuses is
    not delivered. *)
Definition receive_datagram (st : ProcessedMessageTracker * list Message) (bs : bytes) :
    ProcessedMessageTracker * list Message :=
  let '(tracker, delivered) := st in
  match Message_from_bytes bs with
  | Ok m =>
      match tracker_admit_message tracker m with
      | (tracker, Ok _) => (tracker, delivered ++ [m])
      | (tracker, _) => (tracker, delivered)
      end
  | _ => (tracker, delivered)
  end.

Definition receive_all (arrivals : list bytes) : ProcessedMessageTracker * list Message :=
  foldl receive_datagram (∅, []) arrivals.
Definition delivered (arrivals : list bytes) : list Message := (receive_all arrivals).2.

(** The messages of the datagrams that decode *)
Definition decoded (arrivals : list bytes) : list Message :=
  omap (λ bs, match Message_from_bytes bs with Ok m => Some m | _ => None end) arrivals.

(** The first copies in a list *)
Definition first_copies (l : list Message) : list Message :=
  foldl (λ acc m, if decide (m ∈ acc) then acc else acc ++ [m]) [] l.

Lemma first_copies_snoc l m :
  first_copies (l ++ [m]) = if decide (m ∈ first_copies l) then first_copies l else first_copies l ++ [m].
Proof. unfold first_copies. by rewrite foldl_app. Qed.

Lemma first_copies_spec l : NoDup (first_copies l) ∧ ∀ m, m ∈ first_copies l ↔ m ∈ l.
Proof.
  induction l as [|m l IH] using rev_ind; [by split; [constructor|]|]. rewrite first_copies_snoc.
  destruct IH as [Hnd Hin]. case_decide as Hm.
  - split; [done|]. intros x. rewrite elem_of_app, list_elem_of_singleton, Hin. apply Hin in Hm. naive_solver.
  - split; [|intros x; rewrite !elem_of_app, Hin; done].
    apply NoDup_app. split; [done|]. split; [|apply NoDup_singleton]. by intros x Hx ->%list_elem_of_singleton.
Qed.

(** Hashes that tell the messages of a list apart *)
Definition hashes_bind (l : list Message) : Prop :=
  ∀ m m', m ∈ l → m' ∈ l → message_hash m = message_hash m' → m = m'.

Lemma hashes_bind_or_collision l : Forall Message_wf l → sha256_collision ∨ hashes_bind l.
Proof.
  intros Hwf. rewrite Forall_forall in Hwf.
  destruct (decide (Exists (λ m, Exists (λ m', message_hash m = message_hash m' ∧ m ≠ m') l) l)) as [He|Hn].
  - left. apply Exists_exists in He as (m & Hm & He). apply Exists_exists in He as (m' & Hm' & Hh & Hne).
    apply message_hash_binding in Hh as [?|?]; [done|done|by apply Hwf..].
  - right. intros m m' Hm Hm' Hh. apply dec_stable. intros Hne. apply Hn.
    apply Exists_exists. exists m. split; [done|]. apply Exists_exists. by exists m'.
Qed.

(** The tracker holds the hashes of what was delivered: the first copies of what
    was decoded. *)
Lemma receive_all_spec arrivals :
  hashes_bind (decoded arrivals) →
  receive_all arrivals = (list_to_set (message_hash <$> first_copies (decoded arrivals)), first_copies (decoded arrivals)).
Proof.
  unfold receive_all. induction arrivals as [|bs arrivals IH] using rev_ind; [done|].
  unfold decoded in *. rewrite omap_app, foldl_app. cbn [omap list_omap foldl]. intros Hbind.
  set (l := omap _ arrivals) in *.
  rewrite IH by (intros m m' Hm Hm'; apply Hbind; apply elem_of_app; by left). unfold receive_datagram.
  destruct (Message_from_bytes bs) as [m|e|] eqn:Hbs; rewrite ?app_nil_r; [|done..].
  destruct (first_copies_spec l) as [_ Hin]. rewrite first_copies_snoc.
  unfold tracker_admit_message, tracker_admit.
  assert (message_hash m ∈@{gset bytes} list_to_set (message_hash <$> first_copies l) ↔ m ∈ first_copies l) as Hm.
  { rewrite elem_of_list_to_set, list_elem_of_fmap. split; [|intros Hm; by exists m].
    intros (m' & Hh & Hm'). apply Hin in Hm' as Hl. rewrite (Hbind m m'); [done|set_solver|set_solver|done]. }
  case_decide as Hd.
  - rewrite bool_decide_true by (by apply Hm). f_equal. apply Hm in Hd. set_solver.
  - rewrite bool_decide_false by (by rewrite Hm). f_equal. rewrite fmap_app, list_to_set_app_L. cbn. set_solver.
Qed.

(** A network that keeps the order but repeats what it carried, between datagrams
    that are no messages *)
Inductive carried : list Message → list Message → list bytes → Prop :=
  | carried_end past : carried past [] []
  | carried_next past m future l :
      carried (past ++ [m]) future l → carried past (m :: future) (Message_to_bytes m :: l)
  | carried_again past m future l :
      m ∈ past → carried past future l → carried past future (Message_to_bytes m :: l)
  | carried_noise past bs future l :
      is_ok (Message_from_bytes bs) = false → carried past future l → carried past future (bs :: l).

Lemma carried_decoded past future l :
  Forall Message_wf (past ++ future) → NoDup (past ++ future) → carried past future l →
  foldl (λ acc m, if decide (m ∈ acc) then acc else acc ++ [m]) past (decoded l) = past ++ future ∧
  ∀ m, m ∈ decoded l → m ∈ past ++ future.
Proof.
  intros Hwf Hnd Hc. unfold decoded.
  induction Hc as [past|past m future l _ IH|past m future l Hm _ IH|past bs future l Hbs _ IH]; cbn [omap list_omap foldl].
  - split; [by rewrite app_nil_r|]. intros m Hm. by apply not_elem_of_nil in Hm.
  - rewrite cons_middle, (assoc_L (++)) in Hwf, Hnd. destruct (IH Hwf Hnd) as [Hf Hin].
    rewrite Message_roundtrip by (rewrite Forall_forall in Hwf; apply Hwf; set_solver). cbn [foldl].
    assert (m ∉ past) as Hfresh.
    { intros Hm. rewrite <-(assoc_L (++)) in Hnd. apply NoDup_app in Hnd as (_ & Hd & _). by apply (Hd m Hm); left. }
    rewrite decide_False by done. rewrite Hf, <-(assoc_L (++)). split; [done|].
    intros x [->|Hx]%elem_of_cons; [set_solver|]. apply Hin in Hx. by rewrite <-(assoc_L (++)) in Hx.
  - destruct (IH Hwf Hnd) as [Hf Hin].
    rewrite Message_roundtrip by (rewrite Forall_forall in Hwf; apply Hwf; set_solver). cbn [foldl].
    rewrite decide_True by done. split; [done|]. intros x [->|Hx]%elem_of_cons; [set_solver|by apply Hin].
  - destruct (IH Hwf Hnd) as [Hf Hin]. by destruct (Message_from_bytes bs).
Qed.

(** *** From the sender to the receiver *)

Lemma fifo_NoDup l : fifo_order l → NoDup l.
Proof.
  unfold fifo_order. induction 1 as [|m l _ IH Hm]; constructor; [|done]. intros Hin.
  rewrite Forall_forall in Hm. specialize (Hm m Hin eq_refl). lia.
Qed.

Lemma decoded_spec arrivals m :
  m ∈ decoded arrivals ↔ Message_wf m ∧ Message_to_bytes m ∈ arrivals.
Proof.
  unfold decoded. rewrite list_elem_of_omap. split.
  - intros (bs & Hbs & Hm). destruct (Message_from_bytes bs) as [m'|e|] eqn:Hd; [|done..]. injection Hm as ->.
    pose proof (Message_surj _ _ Hd) as (m' & Hwf & ->). rewrite Message_roundtrip in Hd by done.
    by injection Hd as ->.
  - intros [Hwf Hin]. exists (Message_to_bytes m). split; [done|]. by rewrite Message_roundtrip.
Qed.

(** C10: exactly-once delivery, from the sender's queue to the receiver's tracker.
    Whatever messages are enqueued, the queue sends those it took, once each and
    oldest first. If the receiver is sent copies of these only, beside datagrams
    that are no messages, it delivers exactly those that arrived, once each,
    however the network loses, repeats and reorders them; and if the network keeps
    their order, everything is delivered in an order that the delivery check
    accepts, however often what was carried is carried again. Otherwise SHA-256
    collides. *)
Theorem exactly_once_delivery sends arrivals :
  Forall Message_wf sends →
  let q := (enqueue_all sends queue_new).1 in
  let sent := drain (length (contents q)) q in
  sent ≡ₚ (enqueue_all sends queue_new).2 ∧ NoDup sent ∧
  ((∀ bs m, bs ∈ arrivals → Message_from_bytes bs = Ok m → m ∈ sent) →
   sha256_collision ∨
   NoDup (delivered arrivals) ∧
   (∀ m, m ∈ delivered arrivals ↔ m ∈ sent ∧ Message_to_bytes m ∈ arrivals)) ∧
  (carried [] sent arrivals →
   sha256_collision ∨ delivered arrivals = sent ∧ validate_delivery_order (delivered arrivals) = Ok tt).
Proof.
  intros Hwf q sent. destruct (enqueue_all_spec sends queue_new queue_ok_new) as (Hq & Hc & Hs).
  destruct (drain_spec _ q Hq eq_refl) as (Hp & _ & Hfifo). fold sent in Hp, Hfifo.
  change (contents queue_new) with (@nil Message) in Hc. cbn [app] in Hc.
  assert (sent ≡ₚ (enqueue_all sends queue_new).2) as Hperm by (etrans; [exact Hp|exact Hc]).
  assert (NoDup sent) as Hnd by by apply fifo_NoDup.
  assert (Forall Message_wf sent) as Hwfs.
  { rewrite Hperm, Forall_forall. rewrite Forall_forall in Hwf. intros m Hm. apply Hwf. by eapply elem_of_sublist. }
  assert (∀ P : Prop, (hashes_bind (decoded arrivals) → P) → sha256_collision ∨ P) as Hbind.
  { intros R HR. destruct (hashes_bind_or_collision (decoded arrivals)) as [?|?]; [|by left|right; by apply HR].
    apply Forall_forall. by intros m [? _]%decoded_spec. }
  split; [done|]. split; [done|]. unfold delivered. split.
  - intros Hsent. apply Hbind. intros Hb. rewrite receive_all_spec by done. cbn [snd].
    destruct (first_copies_spec (decoded arrivals)) as [Hnd' Hin]. split; [done|]. intros m. rewrite Hin, decoded_spec.
    rewrite Forall_forall in Hwfs. split; [|naive_solver]. intros [Hm Ha]. split; [|done].
    apply (Hsent _ _ Ha). by apply Message_roundtrip.
  - intros Hcar. apply Hbind. intros Hb. rewrite receive_all_spec by done. cbn [snd].
    assert (first_copies (decoded arrivals) = sent) as ->; [|split; [done|by apply validate_delivery_order_Ok]].
    by apply (carried_decoded [] sent arrivals).
Qed.
End receiver.

(** ** A sample: the second message is refused by the queue, the first arrives twice *)

Definition sample_sends : list Message := [sample_message 1 2 5; sample_message 1 2 4; sample_message 2 3 7].
Definition sample_sent : list Message := [sample_message 1 2 5; sample_message 2 3 7].
Definition sample_arrivals : list bytes :=
  [Message_to_bytes (sample_message 1 2 5); [Byte.x00]; Message_to_bytes (sample_message 1 2 5);
   Message_to_bytes (sample_message 2 3 7)].

Lemma exactly_once_delivery_witness :
  let q := (enqueue_all sample_sends queue_new).1 in
  drain (length (contents q)) q = sample_sent ∧
  (sha256_collision (H:=toy_crypto) ∨ delivered (H:=toy_crypto) sample_arrivals = sample_sent).
Proof.
  assert (drain (length (contents (enqueue_all sample_sends queue_new).1)) (enqueue_all sample_sends queue_new).1
    = sample_sent) as Hsent by (apply (bool_decide_unpack _); vm_compute; exact I).
  split; [exact Hsent|].
  destruct (exactly_once_delivery (H:=toy_crypto) sample_sends sample_arrivals) as (_ & _ & _ & Hall).
  - repeat constructor; apply sample_message_wf; unfold in_u; lia.
  - rewrite Hsent in Hall. destruct Hall as [Hcol|[Hd _]]; [|left; exact Hcol|right; exact Hd].
    apply carried_next, carried_noise; [vm_compute; reflexivity|].
    apply carried_again; [apply elem_of_app; right; apply list_elem_of_singleton; reflexivity|].
    apply carried_next, carried_end.
Defined.
