(* ===== verification/Router.v ===== *)
(** [onx-transactions], [router.rs]: slow-path routes over the hypercube of
    shards. *)
From S2P Require Import Prelude Bytes Machine Primitives Address Message Admission.

Definition MAX_CROSS_WORKCHAIN_LT_WINDOW : Z := 1000000.

Record RouteHop : Type := { hop_from : ShardIdent; hop_to : ShardIdent }.
Record RoutePlan : Type := { hops : list RouteHop; transit_fee : Z; remaining_value : Z }.

Definition are_neighbors (l r : ShardIdent) : bool :=
  match prefix_len l with
  | Ok length =>
      if negb (workchain_id l =? workchain_id r)
         || negb (bool_decide (prefix_len r = Ok length)) then false
      else
        let mask := prefix_mask length in
        count_ones 64 (Z.land (Z.lxor (shard_prefix_ident l) (shard_prefix_ident r)) mask) =? 1
  | _ => false
  end.

(** One hop of the loop of [validate_hypercube_route] *)
Definition check_hop (hop : RouteHop) (current : ShardIdent) : result TransactionsError ShardIdent :=
  if negb (bool_decide (hop_from hop = current)) || negb (are_neighbors (hop_from hop) (hop_to hop))
  then Err InvalidHypercubeHop else Ok (hop_to hop).

Definition validate_hypercube_route (hops : list RouteHop) (source destination : ShardIdent) :
    result TransactionsError unit :=
  let? current := foldM check_hop hops source in
  if bool_decide (current = destination) then Ok tt else Err InvalidHypercubeHop.

(** The loop variables: [current_bits], [current] and [hops] *)
Definition route_state : Type := Z * ShardIdent * list RouteHop.

(** One iteration, for [bit_index] *)
Definition route_step (workchain prefix_len target_bits bit_index : Z) (st : route_state) :
    result TransactionsError route_state :=
  let '(current_bits, current, hops) := st in
  let bit := 63 - bit_index in
  if negb (Z.land (Z.shiftr current_bits bit) 1 =? Z.land (Z.shiftr target_bits bit) 1) then
    let current_bits := Z.lxor current_bits (shl64 1 bit) in
    let? next := map_err (λ _, IncompatibleRoute)
                   (from_prefix_bits workchain current_bits prefix_len) in
    Ok (current_bits, next, hops ++ [{| hop_from := current; hop_to := next |}])
  else Ok st.

(** [debug_assert_eq!] aborts when its sides differ. *)
Definition plan_hypercube_route (m : Message) (source destination : ShardIdent) (fee_per_hop : Z) :
    result TransactionsError RoutePlan :=
  if negb (bool_decide (msg_type m = Internal))
     || is_err (validate_source_shard m source)
     || is_err (validate_dest_shard m destination)
  then Err RouteEndpointMismatch
  else
    let? length := map_err (λ _, IncompatibleRoute) (prefix_len source) in
    if negb (workchain_id source =? workchain_id destination) then Err IncompatibleRoute
    else
      let? dest_length := map_err (λ _, IncompatibleRoute) (prefix_len destination) in
      if negb (dest_length =? length) then Err IncompatibleRoute
      else
        let mask := prefix_mask length in
        let target_bits := Z.land (shard_prefix_ident destination) mask in
        let current_bits := Z.land (shard_prefix_ident source) mask in
        let? (_, current, hops) :=
          foldM (route_step (workchain_id source) length target_bits) (seqZ 0 length)
            (current_bits, source, []) in
        if negb (bool_decide (current = destination)) then Panic
        else
          let? transit_fee :=
            ok_or (checked_mul_u 128 fee_per_hop (len hops))
              (InsufficientTransitFee (amount_nanos m) u128_max) in
          let? remaining_value :=
            ok_or (checked_sub_u (amount_nanos m) transit_fee)
              (InsufficientTransitFee (amount_nanos m) transit_fee) in
          Ok {| hops := hops; transit_fee := transit_fee; remaining_value := remaining_value |}.

Definition cross_workchain_expiry (m : Message) : result TransactionsError Z :=
  ok_or (checked_add_u 64 (created_lt m) MAX_CROSS_WORKCHAIN_LT_WINDOW) ExpiryOverflow.

Definition is_cross_workchain_expired (m : Message) (current_lt : Z) : result TransactionsError bool :=
  let? expiry := cross_workchain_expiry m in
  Ok (expiry <? current_lt).

(** ** Neighbours *)

Lemma count_ones_pow2 i : 0 ≤ i < 64 → count_ones 64 (2 ^ i) = 1.
Proof.
  intros Hi. assert (Forall (λ i, count_ones 64 (2 ^ i) = 1) (seqZ 0 64)) as Hall.
  { repeat (constructor; [reflexivity|]). constructor. }
  rewrite Forall_forall in Hall. apply Hall. apply elem_of_seqZ. lia.
Qed.

(** Flipping one prefix bit gives a neighbour. *)
Lemma neighbors_flip w l p j :
  0 ≤ l ≤ 60 → 0 ≤ p < 2 ^ l → 0 ≤ j < l →
  0 ≤ Z.lxor p (2 ^ j) < 2 ^ l ∧
  are_neighbors (shard_at w l p) (shard_at w l (Z.lxor p (2 ^ j))) = true.
Proof.
  intros Hl Hp Hj.
  assert (in_u l (2 ^ j)) as H2 by (split; [lia|apply Z.pow_lt_mono_r; lia]).
  assert (in_u l (Z.lxor p (2 ^ j))) as Hq by (apply lxor_bound; done || lia).
  split; [done|]. unfold are_neighbors. rewrite !prefix_len_at by (done || lia).
  cbn [workchain_id shard_at]. rewrite Z.eqb_refl, bool_decide_true by done. cbn [negb orb].
  set (q := Z.lxor p (2 ^ j)) in *.
  assert (Z.lxor ((2 * p + 1) * 2 ^ (63 - l)) ((2 * q + 1) * 2 ^ (63 - l)) = 2 ^ (j + 1) * 2 ^ (63 - l)) as Hx.
  { apply lxor_pow2_mul; [lia|]. apply Z.bits_inj'. intros i Hi. rewrite Z.lxor_spec.
    destruct (decide (i = 0)) as [->|].
    - rewrite !Z.testbit_odd_0. rewrite Z.pow2_bits_false by lia. done.
    - replace i with (Z.succ (i - 1)) by lia. rewrite !Z.testbit_odd_succ by lia.
      unfold q. rewrite Z.lxor_spec, !Z.pow2_bits_eqb by lia.
      replace (j + 1 =? Z.succ (i - 1)) with (j =? i - 1)
        by (apply eq_true_iff_eq; rewrite !Z.eqb_eq; lia).
      by destruct (Z.testbit p (i - 1)), (j =? i - 1). }
  change (shard_prefix_ident (shard_at w l p)) with ((2 * p + 1) * 2 ^ (63 - l)).
  change (shard_prefix_ident (shard_at w l q)) with ((2 * q + 1) * 2 ^ (63 - l)).
  rewrite Hx, <-Z.pow_add_r by lia.
  replace (j + 1 + (63 - l)) with (64 - l + j) by lia.
  assert (2 ^ (64 - l + j) < 2 ^ 64) by (apply Z.pow_lt_mono_r; lia).
  rewrite land_prefix by (unfold in_u; lia).
  assert (0 < 2 ^ (64 - l)) by lia.
  replace (2 ^ (64 - l + j) / 2 ^ (64 - l) * 2 ^ (64 - l)) with (2 ^ (64 - l + j))
    by (rewrite Z.pow_add_r, (Z.mul_comm (2 ^ (64 - l))), Z.div_mul by lia; lia).
  rewrite count_ones_pow2 by lia. done.
Qed.

(** ** The planned route *)

(** The number of differing bits among the first [i] (most significant first)
    of two [l]-bit prefixes *)
Definition differing (l p t i : Z) : Z :=
  len (filter (λ k, Z.testbit p (l - 1 - k) ≠ Z.testbit t (l - 1 - k)) (seqZ 0 i)).

(** The prefix after [i] bits were corrected: the first [i] bits are the
    target's, the others the source's *)
Definition corrected (l p t i : Z) : Z :=
  t / 2 ^ (l - i) * 2 ^ (l - i) + p mod 2 ^ (l - i).

Lemma corrected_testbit l p t i k :
  0 ≤ i ≤ l → 0 ≤ k →
  Z.testbit (corrected l p t i) k = if k <? l - i then Z.testbit p k else Z.testbit t k.
Proof.
  intros Hi Hk. unfold corrected. set (n := l - i).
  assert (0 ≤ n) by lia. pose proof (Z.mod_pos_bound p (2 ^ n) ltac:(lia)).
  rewrite Z.add_nocarry_lor.
  2:{ apply Z.bits_inj'. intros j Hj. rewrite Z.land_spec, Z.bits_0, <-Z.shiftl_mul_pow2 by lia.
      destruct (Z.lt_ge_cases j n); [by rewrite Z.shiftl_spec_low by lia|].
      by rewrite Z.mod_pow2_bits_high, andb_false_r by lia. }
  rewrite Z.lor_spec, <-Z.shiftl_mul_pow2 by lia.
  destruct (Z.ltb_spec k n).
  - by rewrite Z.shiftl_spec_low, Z.mod_pow2_bits_low by lia.
  - rewrite Z.mod_pow2_bits_high, orb_false_r by lia.
    rewrite Z.shiftl_spec, <-Z.shiftr_div_pow2, Z.shiftr_spec by lia. f_equal. lia.
Qed.

Lemma corrected_bound l p t i :
  0 ≤ i ≤ l → 0 ≤ p < 2 ^ l → 0 ≤ t < 2 ^ l → 0 ≤ corrected l p t i < 2 ^ l.
Proof.
  intros Hi Hp Ht. unfold corrected. assert (0 < 2 ^ (l - i)) by lia.
  pose proof (Z.mod_pos_bound p (2 ^ (l - i)) ltac:(lia)).
  assert (2 ^ l = 2 ^ i * 2 ^ (l - i)) as Hsp by (rewrite <-Z.pow_add_r by lia; f_equal; lia).
  assert (0 ≤ t / 2 ^ (l - i) < 2 ^ i); [|nia].
  split; [apply Z.div_pos; lia|apply Z.div_lt_upper_bound; [lia|]]. lia.
Qed.

Lemma corrected_0 l p t : 0 ≤ l → 0 ≤ p < 2 ^ l → 0 ≤ t < 2 ^ l → corrected l p t 0 = p.
Proof.
  intros Hl Hp Ht. unfold corrected. rewrite Z.sub_0_r, Z.div_small, Z.mod_small by lia. lia.
Qed.
Lemma corrected_all l p t : corrected l p t l = t.
Proof. unfold corrected. rewrite Z.sub_diag, Z.pow_0_r, Z.div_1_r, Z.mod_1_r. lia. Qed.

Lemma corrected_succ l p t i :
  0 ≤ i < l → 0 ≤ p < 2 ^ l → 0 ≤ t < 2 ^ l →
  corrected l p t (i + 1) =
  if Bool.eqb (Z.testbit p (l - 1 - i)) (Z.testbit t (l - 1 - i)) then corrected l p t i
  else Z.lxor (corrected l p t i) (2 ^ (l - 1 - i)).
Proof.
  intros Hi Hp Ht. apply Z.bits_inj'. intros k Hk. rewrite corrected_testbit by lia.
  destruct (Bool.eqb _ _) eqn:He.
  - apply eqb_prop in He. rewrite corrected_testbit by lia.
    destruct (Z.ltb_spec k (l - (i + 1))), (Z.ltb_spec k (l - i)); try done; [lia|].
    by replace k with (l - 1 - i) by lia.
  - apply eqb_false_iff in He. rewrite Z.lxor_spec, corrected_testbit, Z.pow2_bits_eqb by lia.
    destruct (Z.ltb_spec k (l - (i + 1))), (Z.ltb_spec k (l - i)), (Z.eqb_spec (l - 1 - i) k);
      try lia; rewrite ?xorb_false_r; try done.
    subst k. destruct (Z.testbit p _), (Z.testbit t _); done.
Qed.

Lemma bit_of_scaled v n k :
  0 ≤ n → 0 ≤ k → Z.land (Z.shiftr (v * 2 ^ n) (n + k)) 1 = Z.b2z (Z.testbit v k).
Proof.
  intros Hn Hk. change 1 with (Z.ones 1). rewrite Z.land_ones by lia. change (2 ^ 1) with 2.
  rewrite <-Z.shiftl_mul_pow2, <-Z.shiftr_shiftr, Z.shiftr_shiftl_l, Z.sub_diag by lia.
  rewrite Z.shiftl_0_r, Z.testbit_spec' by lia. by rewrite Z.shiftr_div_pow2 by lia.
Qed.

Lemma check_hops_app hs h s c :
  foldM check_hop hs s = Ok c → hop_from h = c → are_neighbors (hop_from h) (hop_to h) = true →
  foldM check_hop (hs ++ [h]) s = Ok (hop_to h).
Proof.
  intros Hh Hf Hn. rewrite foldM_app, Hh. cbn. unfold check_hop.
  by rewrite bool_decide_true, Hn by done.
Qed.

Section route.
Variables w l p t : Z.
Hypothesis Hl : 0 ≤ l ≤ 60.
Hypothesis Hp : 0 ≤ p < 2 ^ l.
Hypothesis Ht : 0 ≤ t < 2 ^ l.

Lemma from_prefix_bits_at q :
  0 ≤ q < 2 ^ l → from_prefix_bits w (q * 2 ^ (64 - l)) l = Ok (shard_at w l q).
Proof.
  intros Hq. assert (0 < 2 ^ (64 - l)) by lia.
  assert (2 ^ 64 = 2 ^ l * 2 ^ (64 - l)) by (rewrite <-Z.pow_add_r by lia; f_equal; lia).
  apply from_prefix_bits_Ok; [lia|split; nia|]. split; [done|].
  rewrite Z.div_mul by lia. by apply shard_at_prefix.
Qed.

Lemma prefix_bits_at q :
  0 ≤ q < 2 ^ l → Z.land (shard_prefix_ident (shard_at w l q)) (prefix_mask l) = q * 2 ^ (64 - l).
Proof.
  intros Hq. pose proof (shard_at_prefix w l q Hl Hq) as Hs.
  rewrite land_prefix by (lia || by eapply shard_prefix_u64).
  by rewrite (shard_prefix_top _ _ _ Hs).
Qed.

Lemma differing_succ i :
  0 ≤ i → differing l p t (i + 1) = differing l p t i +
    if Bool.eqb (Z.testbit p (l - 1 - i)) (Z.testbit t (l - 1 - i)) then 0 else 1.
Proof.
  intros Hi. unfold differing. rewrite seqZ_app, filter_app, len_app by lia. f_equal.
  change (seqZ (0 + i) 1) with [0 + i]. rewrite filter_cons, filter_nil, Z.add_0_l.
  destruct (Bool.eqb _ _) eqn:He; [apply eqb_prop in He|apply eqb_false_iff in He].
  - by rewrite decide_False by naive_solver.
  - by rewrite decide_True.
Qed.

Lemma route_loop n :
  Z.of_nat n ≤ l →
  ∃ hs, foldM (route_step w l (t * 2 ^ (64 - l))) (seqZ 0 (Z.of_nat n))
          (p * 2 ^ (64 - l), shard_at w l p, []) =
        Ok (corrected l p t (Z.of_nat n) * 2 ^ (64 - l),
            shard_at w l (corrected l p t (Z.of_nat n)), hs) ∧
    foldM check_hop hs (shard_at w l p) = Ok (shard_at w l (corrected l p t (Z.of_nat n))) ∧
    len hs = differing l p t (Z.of_nat n).
Proof.
  induction n as [|n IH]; intros Hn.
  { exists []. rewrite corrected_0 by lia. done. }
  destruct IH as (hs & Hrun & Hhs & Hlen); [lia|].
  rewrite Nat2Z.inj_succ. unfold Z.succ. set (i := Z.of_nat n) in *.
  rewrite seqZ_app, foldM_app, Hrun by lia. cbn [rbind]. change (seqZ (0 + i) 1) with [0 + i].
  rewrite Z.add_0_l. cbn [foldM route_step].
  replace (63 - i) with (64 - l + (l - 1 - i)) by lia.
  rewrite !bit_of_scaled by lia. rewrite corrected_testbit by lia.
  rewrite (proj2 (Z.ltb_lt _ _)) by lia. rewrite corrected_succ, differing_succ by lia.
  pose proof (corrected_bound l p t i ltac:(lia) Hp Ht) as Hc.
  destruct (Bool.eqb _ _) eqn:He; [apply eqb_prop in He|apply eqb_false_iff in He].
  - rewrite He, Z.eqb_refl. cbn [negb rbind]. exists hs. rewrite Z.add_0_r. done.
  - assert ((Z.b2z (Z.testbit p (l - 1 - i)) =? Z.b2z (Z.testbit t (l - 1 - i))) = false) as ->.
    { destruct (Z.testbit p _), (Z.testbit t _); done. }
    cbn [negb]. rewrite shl64_1 by lia.
    destruct (neighbors_flip w l (corrected l p t i) (l - 1 - i)) as [Hq Hnb]; [lia..|].
    assert (Z.lxor (corrected l p t i * 2 ^ (64 - l)) (2 ^ (64 - l + (l - 1 - i))) =
      Z.lxor (corrected l p t i) (2 ^ (l - 1 - i)) * 2 ^ (64 - l)) as ->.
    { rewrite (Z.add_comm (64 - l)), Z.pow_add_r by lia. by apply lxor_pow2_mul; [lia|]. }
    rewrite from_prefix_bits_at by done. cbn [map_err rbind]. eexists. split; [done|]. split.
    + by eapply check_hops_app.
    + rewrite len_app, Hlen. done.
Qed.
End route.

Lemma route_complete source destination l p t :
  shard_prefix source l p → shard_prefix destination l t →
  workchain_id source = workchain_id destination →
  ∃ hs, foldM (route_step (workchain_id source) l
            (Z.land (shard_prefix_ident destination) (prefix_mask l))) (seqZ 0 l)
          (Z.land (shard_prefix_ident source) (prefix_mask l), source, []) =
        Ok (t * 2 ^ (64 - l), destination, hs) ∧
    foldM check_hop hs source = Ok destination ∧ len hs = differing l p t l.
Proof.
  intros Hs Hd Hw. pose proof Hs as (Hl & Hp & _). pose proof Hd as (_ & Ht & _).
  rewrite (shard_prefix_at _ _ _ Hs), (shard_prefix_at _ _ _ Hd), <-Hw.
  cbn [workchain_id shard_at]. rewrite !prefix_bits_at by done.
  destruct (route_loop (workchain_id source) l p t Hl Hp Ht (Z.to_nat l)) as (hs & Hr & Hh & Hlen);
    [lia|].
  rewrite Z2Nat.id, corrected_all in * by lia. eauto.
Qed.

(** C28: a planned route is accepted by [validate_hypercube_route] from source
    to destination, has one hop per differing prefix bit - no more and no fewer -
    and splits the message's value into fee and remainder without loss; planning
    fails only for mismatched endpoints, incompatible shards or a value that does
    not cover the fee, and never aborts. *)
Theorem planned_route_valid m source destination fee :
  shard_typed source → shard_typed destination → 0 ≤ fee →
  plan_hypercube_route m source destination fee ≠ Panic ∧
  (∀ plan, plan_hypercube_route m source destination fee = Ok plan →
    validate_hypercube_route (hops plan) source destination = Ok tt ∧
    (∃ l p t, shard_prefix source l p ∧ shard_prefix destination l t ∧
       len (hops plan) = differing l p t l) ∧
    transit_fee plan = fee * len (hops plan) ∧
    remaining_value plan + transit_fee plan = amount_nanos m ∧ 0 ≤ remaining_value plan).
Proof.
  intros [_ Hs] [_ Hd] Hfee. unfold plan_hypercube_route.
  destruct (_ || _ || _); [done|].
  destruct (prefix_len source) as [l|e|] eqn:Hsl; [|done|by apply prefix_len_safe in Hsl].
  apply prefix_len_Ok in Hsl as [p Hp]; [|done]. cbn [map_err rbind].
  destruct (Z.eqb_spec (workchain_id source) (workchain_id destination)) as [Hw|]; [|done].
  destruct (prefix_len destination) as [l'|e|] eqn:Hdl; [|done|by apply prefix_len_safe in Hdl].
  apply prefix_len_Ok in Hdl as [t Ht]; [|done]. cbn [map_err rbind negb].
  destruct (Z.eqb_spec l' l) as [->|]; [|done]. cbn [negb]. cbv zeta.
  destruct (route_complete source destination l p t Hp Ht Hw) as (hs & -> & Hh & Hlen).
  cbn [rbind]. rewrite bool_decide_true by done. cbn [negb].
  destruct (checked_mul_u 128 fee (len hs)) as [tf|] eqn:Htf; [|done]. cbn [ok_or rbind].
  destruct (checked_sub_u (amount_nanos m) tf) as [rem|] eqn:Hrem; [|done]. cbn [ok_or rbind].
  apply checked_mul_u_Some in Htf as [-> _]. apply checked_sub_u_Some in Hrem as [-> ?].
  split; [done|]. intros plan [= <-]. cbn [hops transit_fee remaining_value]. split_and!.
  - unfold validate_hypercube_route. rewrite Hh. cbn [rbind]. by rewrite bool_decide_true.
  - exists l, p, t. done.
  - done.
  - lia.
  - lia.
Qed.

Definition sample_shard (bits : Z) : ShardIdent :=
  {| workchain_id := 0; shard_prefix_ident := bits * 2 ^ 60 + 2 ^ 59 |}.

Lemma planned_route_valid_witness :
  ∃ plan, plan_hypercube_route (sample_message 0 (2 ^ 256 - 1) 1) (sample_shard 0)
            (sample_shard 15) 2 = Ok plan ∧
    validate_hypercube_route (hops plan) (sample_shard 0) (sample_shard 15) = Ok tt ∧
    len (hops plan) = 4 ∧ remaining_value plan = 2.
Proof.
  eexists. split; [by vm_compute|]. split; [|by vm_compute].
  apply (planned_route_valid (sample_message 0 (2 ^ 256 - 1) 1) (sample_shard 0)
    (sample_shard 15) 2); [| |lia|by vm_compute];
    (split; [by vm_compute|by vm_compute]).
Defined.
