(* ===== verification/Blocks.v ===== *)
(** [onx-blocks]: header flags ([flags.rs]), succession ([validity.rs]) and the
    masterchain's shard configuration ([masterchain.rs]). *)
From S2P Require Import Prelude Bytes Machine Primitives ToyCrypto Address Message Block.

Inductive BlocksError : Type :=
  | DataStructure (e : DataStructureError)
  | UnresolvableParent
  | SequenceDiscontinuity (expected actual : Z)
  | NonMonotonicTime
  | BStateRootMismatch
  | ConflictingSplitMergeFlags (flags : Z)
  | ReservedFlagBitSet (flags : Z)
  | InvalidSuccessorAfterCommit
  | UnsortedShardEntries
  | DuplicateShardEntry
  | InvalidMasterchainReference.

#[export] Instance BlocksError_eq_dec : EqDecision BlocksError.
Proof. solve_decision. Defined.

(** ** Flags *)

Definition SPLIT_PREPARE : Z := 0x0001.
Definition SPLIT_COMMIT : Z := 0x0002.
Definition MERGE_PREPARE : Z := 0x0004.
Definition MERGE_COMMIT : Z := 0x0008.
Definition MERGE_RESULT : Z := 0x0010.

Definition ANNOUNCEMENT_MASK : Z :=
  Z.lor (Z.lor (Z.lor SPLIT_PREPARE SPLIT_COMMIT) MERGE_PREPARE) MERGE_COMMIT.
Definition RESERVED_MASK : Z := u16_max - Z.lor ANNOUNCEMENT_MASK MERGE_RESULT.

Definition validate_flags (flags : Z) : result BlocksError unit :=
  if negb (Z.land flags RESERVED_MASK =? 0) then Err (ReservedFlagBitSet flags)
  else if 1 <? count_ones 16 (Z.land flags ANNOUNCEMENT_MASK)
  then Err (ConflictingSplitMergeFlags flags)
  else Ok tt.

Definition is_split_commit (flags : Z) : bool := negb (Z.land flags SPLIT_COMMIT =? 0).
Definition is_merge_commit (flags : Z) : bool := negb (Z.land flags MERGE_COMMIT =? 0).
Definition is_merge_result (flags : Z) : bool := negb (Z.land flags MERGE_RESULT =? 0).

(** ** Succession *)

Record RecomputedRoots : Type := {
  r_state_root_hash : bytes;
  r_in_msg_root_hash : bytes;
  r_out_msg_root_hash : bytes;
}.

Section validity.
Context {C : Crypto}.

Definition validate_block_successor (header parent : BlockHeader) (parent_2 : option BlockHeader)
    (recomputed : RecomputedRoots) : result BlocksError unit :=
  let? _ := validate_flags (flags header) in
  let? _ :=
    if is_merge_result (flags header) then
      let? p2 := ok_or parent_2 UnresolvableParent in
      if negb (bool_decide (prev_ref_hash header = block_hash parent))
         || negb (bool_decide (prev_ref_hash_2 header = block_hash p2))
      then Err UnresolvableParent
      else
        let max_parent_seq := Z.max (seq_no parent) (seq_no p2) in
        if negb (seq_no header =? max_parent_seq + 1)
        then Err (SequenceDiscontinuity (wrapping_add_u 32 max_parent_seq 1) (seq_no header))
        else if (gen_utime header <? gen_utime parent) || (gen_utime header <? gen_utime p2)
        then Err NonMonotonicTime
        else if (start_lt header <? end_lt parent) || (start_lt header <? end_lt p2)
             || (end_lt header <? start_lt header)
        then Err NonMonotonicTime
        else Ok tt
    else
      if negb (bool_decide (prev_ref_hash header = block_hash parent))
      then Err UnresolvableParent
      else if negb (seq_no header =? seq_no parent + 1)
      then Err (SequenceDiscontinuity (wrapping_add_u 32 (seq_no parent) 1) (seq_no header))
      else if gen_utime header <? gen_utime parent then Err NonMonotonicTime
      else if (start_lt header <? end_lt parent) || (end_lt header <? start_lt header)
      then Err NonMonotonicTime
      else Ok tt in
  if negb (bool_decide (state_root_hash header = r_state_root_hash recomputed))
     || negb (bool_decide (in_msg_root_hash header = r_in_msg_root_hash recomputed))
     || negb (bool_decide (out_msg_root_hash header = r_out_msg_root_hash recomputed))
  then Err BStateRootMismatch
  else if is_split_commit (flags parent) || is_merge_commit (flags parent)
  then Err InvalidSuccessorAfterCommit
  else
    match parent_2 with
    | Some p2 =>
        if is_split_commit (flags p2) || is_merge_commit (flags p2)
        then Err InvalidSuccessorAfterCommit else Ok tt
    | None => Ok tt
    end.

Definition validate_ordinary_successor (header parent : BlockHeader)
    (recomputed : RecomputedRoots) : result BlocksError unit :=
  validate_block_successor header parent None recomputed.

Definition validate_master_ref (header : BlockHeader)
    (resolved_masterchain_block : option BlockHeader) : result BlocksError unit :=
  if is_masterchain (workchain_id (header_shard header)) then
    if negb (bool_decide (master_ref_hash header = Uint256_ZERO))
    then Err InvalidMasterchainReference else Ok tt
  else
    match resolved_masterchain_block with
    | Some masterchain_block =>
        if is_masterchain (workchain_id (header_shard masterchain_block))
           && bool_decide (master_ref_hash header = block_hash masterchain_block)
        then Ok tt else Err InvalidMasterchainReference
    | None => Err InvalidMasterchainReference
    end.
End validity.

(** ** The shard configuration *)

Record ShardEntry : Type := { e_shard : ShardIdent; e_block_hash : bytes; e_seq_no : Z }.

#[export] Instance ShardEntry_eq_dec : EqDecision ShardEntry.
Proof. solve_decision. Defined.

Definition ENTRY_BYTE_LENGTH : Z := 48.

Definition ShardEntry_to_bytes (e : ShardEntry) : bytes :=
  shard_to_bytes (e_shard e) ++ uint256_encode (e_block_hash e) ++ int_encode Uint32 (e_seq_no e).

Definition ShardEntry_from_bytes (bs : bytes) : result BlocksError ShardEntry :=
  map_err DataStructure (
    let? _ := check_exact_len ENTRY_BYTE_LENGTH bs in
    let? shard := field shard_from_bytes bs 0 12 in
    let? hash := field decode_uint256 bs 12 32 in
    let? seq := field (decode_int Uint32) bs 44 4 in
    Ok {| e_shard := shard; e_block_hash := hash; e_seq_no := seq |}).

(** [MasterchainBlockExtra] is its vector of entries. *)
Definition MasterchainBlockExtra : Type := (list ShardEntry).

Definition extra_to_bytes (extra : MasterchainBlockExtra) : bytes :=
  int_encode Uint32 (len extra) ++ concat (ShardEntry_to_bytes <$> extra).

(** The loop over [windows(2)]; equal-length arrays compare as numbers. *)
Fixpoint extra_validate (entries : MasterchainBlockExtra) : result BlocksError unit :=
  match entries with
  | x :: ((y :: _) as rest) =>
      let a := shard_to_bytes (e_shard x) in
      let b := shard_to_bytes (e_shard y) in
      if bool_decide (a = b) then Err DuplicateShardEntry
      else if be_val b <? be_val a then Err UnsortedShardEntries
      else extra_validate rest
  | _ => Ok tt
  end.

(** The loop over [0..count] *)
Fixpoint read_entries (n : nat) (bs : bytes) (offset : Z) :
    result BlocksError MasterchainBlockExtra :=
  match n with
  | O => Ok []
  | S n =>
      let? piece := slice bs offset (offset + ENTRY_BYTE_LENGTH) in
      let? entry := ShardEntry_from_bytes piece in
      let? rest := read_entries n bs (offset + ENTRY_BYTE_LENGTH) in
      Ok (entry :: rest)
  end.

Definition extra_from_bytes (bs : bytes) : result BlocksError MasterchainBlockExtra :=
  if len bs <? 4 then Err (DataStructure (TruncatedInput 4 (len bs)))
  else
    let? count_bytes := slice bs 0 4 in
    let? count := map_err DataStructure (decode_int Uint32 count_bytes) in
    let? entries_len := ok_or (checked_mul_u 64 count ENTRY_BYTE_LENGTH)
                          (DataStructure (TruncatedInput u64_max (len bs))) in
    let? expected := ok_or (checked_add_u 64 4 entries_len)
                       (DataStructure (TruncatedInput u64_max (len bs))) in
    if len bs <? expected then Err (DataStructure (TruncatedInput expected (len bs)))
    else if expected <? len bs then Err (DataStructure (DSTrailingBytes (len bs - expected)))
    else
      let? extra := read_entries (Z.to_nat count) bs 4 in
      let? _ := extra_validate extra in
      Ok extra.

Definition is_canonical (extra : MasterchainBlockExtra) (shard : ShardIdent) (hash : bytes)
    (seq : Z) : bool :=
  existsb (λ e, bool_decide (e_shard e = shard) && bool_decide (e_block_hash e = hash)
                && (e_seq_no e =? seq)) extra.

(** ** Flags, proved *)

Definition well_formed_flags : list Z := [0; 1; 2; 4; 8; 16; 17; 18; 20; 24].

Lemma reserved_bits f : in_u 16 f → Z.land f RESERVED_MASK = 0 ↔ f < 32.
Proof.
  intros Hf. change RESERVED_MASK with (Z.shiftl (Z.ones 11) 5).
  assert (Z.land f (Z.shiftl (Z.ones 11) 5) = f / 32 * 32) as ->.
  { change 32 with (2 ^ 5). apply Z.bits_inj'. intros i Hi.
    rewrite <-Z.shiftl_mul_pow2, <-Z.shiftr_div_pow2, Z.land_spec, !Z.shiftl_spec by lia.
    destruct (Z.lt_ge_cases i 5); [by rewrite !(Z.testbit_neg_r _ (i - 5)), andb_false_r by lia|].
    rewrite Z.shiftr_spec by lia. replace (i - 5 + 5) with i by lia.
    destruct (Z.lt_ge_cases i 16); [by rewrite Z.ones_spec_low, andb_true_r by lia|].
    by rewrite (testbit_high 16 f) by (done || lia). }
  pose proof (Z.div_mod f 32 ltac:(lia)). pose proof (Z.mod_pos_bound f 32 ltac:(lia)).
  unfold in_u in Hf. lia.
Qed.

Lemma validate_flags_table :
  Forall (λ f, is_ok (validate_flags f) = bool_decide (f ∈ well_formed_flags)) (seqZ 0 32).
Proof. repeat (constructor; [by vm_compute|]). constructor. Qed.

Lemma validate_flags_Ok f u : in_u 16 f → validate_flags f = Ok u ↔ f ∈ well_formed_flags.
Proof.
  intros Hf. destruct (Z.lt_ge_cases f 32) as [Hlt|Hge].
  - pose proof validate_flags_table as Ht. rewrite Forall_forall in Ht.
    rewrite <-(bool_decide_eq_true (f ∈ _)), <-Ht.
    + destruct u, (validate_flags f) as [[]|e|]; cbn; naive_solver.
    + apply elem_of_seqZ. unfold in_u in Hf. lia.
  - unfold validate_flags. destruct (Z.eqb_spec (Z.land f RESERVED_MASK) 0) as [H|].
    + apply reserved_bits in H; [lia|done].
    + split; [done|]. unfold well_formed_flags. intros. exfalso.
      repeat match goal with H : _ ∈ _ :: _ |- _ => apply elem_of_cons in H as [?|H]; [lia|] end.
      by eapply not_elem_of_nil.
Qed.

(** ** Succession, as a specification *)

Section succession.
Context {C : Crypto}.

Definition announces_commit (h : BlockHeader) : bool :=
  is_split_commit (flags h) || is_merge_commit (flags h).

(** The references of a header: two for a merge result, else one. *)
Definition parent_refs (h : BlockHeader) : list bytes :=
  if is_merge_result (flags h) then [prev_ref_hash h; prev_ref_hash_2 h] else [prev_ref_hash h].

(** [h] is a valid successor of the blocks [parents]. *)
Record valid_successor (h : BlockHeader) (parents : list BlockHeader) (r : RecomputedRoots) : Prop := {
  succ_flags : flags h ∈ well_formed_flags;
  succ_refs : parent_refs h = block_hash <$> parents;
  succ_seq : seq_no h = 1 + foldr Z.max 0 (seq_no <$> parents);
  succ_time : Forall (λ p, gen_utime p ≤ gen_utime h ∧ end_lt p ≤ start_lt h) parents;
  succ_lt : start_lt h ≤ end_lt h;
  succ_roots : state_root_hash h = r_state_root_hash r ∧
    in_msg_root_hash h = r_in_msg_root_hash r ∧ out_msg_root_hash h = r_out_msg_root_hash r;
  succ_no_commit : Forall (λ p, announces_commit p = false) parents;
}.

(** The parents a header is checked against *)
Definition parents_of (h parent parent_2 : BlockHeader) : list BlockHeader :=
  if is_merge_result (flags h) then [parent; parent_2] else [parent].

Lemma guard_Ok {E} (c : bool) (e : E) : (if c then Err e else Ok tt) = Ok tt ↔ c = false.
Proof. by destruct c. Qed.

Lemma guard_then {E A} (c : bool) (e : E) (m : result E A) a :
  (if c then Err e else m) = Ok a ↔ c = false ∧ m = Ok a.
Proof. destruct c; naive_solver. Qed.

Lemma rbind_unit {E} (m : result E unit) (k : unit → result E unit) :
  rbind m k = Ok tt ↔ m = Ok tt ∧ k tt = Ok tt.
Proof. rewrite rbind_Ok. split; [intros ([] & ? & ?); done|eauto]. Qed.

Lemma negb_bool_decide_false (P : Prop) `{!Decision P} : negb (bool_decide P) = false ↔ P.
Proof. by rewrite negb_false_iff, bool_decide_eq_true. Qed.

Lemma successor_iff h p p2 r :
  in_u 16 (flags h) → 0 ≤ seq_no p → 0 ≤ seq_no p2 →
  validate_block_successor h p (if is_merge_result (flags h) then Some p2 else None) r = Ok tt ↔
  valid_successor h (parents_of h p p2) r.
Proof.
  intros Hf Hp Hp2. unfold validate_block_successor, parents_of.
  assert (valid_successor h (if is_merge_result (flags h) then [p; p2] else [p]) r ↔
    flags h ∈ well_formed_flags ∧
    (parent_refs h = block_hash <$> (if is_merge_result (flags h) then [p; p2] else [p]) ∧
     seq_no h = 1 + foldr Z.max 0 (seq_no <$> (if is_merge_result (flags h) then [p; p2] else [p])) ∧
     Forall (λ p, gen_utime p ≤ gen_utime h ∧ end_lt p ≤ start_lt h)
       (if is_merge_result (flags h) then [p; p2] else [p]) ∧ start_lt h ≤ end_lt h) ∧
    (state_root_hash h = r_state_root_hash r ∧ in_msg_root_hash h = r_in_msg_root_hash r ∧
      out_msg_root_hash h = r_out_msg_root_hash r) ∧
    Forall (λ p, announces_commit p = false) (if is_merge_result (flags h) then [p; p2] else [p])) as ->.
  { split; [intros []; done|]. intros (? & (? & ? & ? & ?) & ? & ?). by split. }
  rewrite !rbind_unit, validate_flags_Ok by done. unfold parent_refs.
  rewrite guard_then, !orb_false_iff, !negb_bool_decide_false.
  destruct (is_merge_result (flags h)); cbn [ok_or rbind fmap list_fmap foldr];
    rewrite !Forall_cons, !Forall_nil; unfold announces_commit;
    repeat rewrite ?guard_then, ?guard_Ok, ?orb_false_iff, ?negb_bool_decide_false, ?Z.ltb_ge,
      ?negb_false_iff, ?Z.eqb_eq.
  - split.
    + intros H. destruct_and? H. repeat split; try done; try lia. congruence.
    + intros H. destruct_and? H.
      match goal with Hr : [_; _] = [_; _] |- _ => injection Hr as ? ? end.
      repeat split; done || lia.
  - split.
    + intros H. destruct_and? H. repeat split; try done; try lia. congruence.
    + intros H. destruct_and? H.
      match goal with Hr : [_] = [_] |- _ => injection Hr as ? end.
      repeat split; done || lia.
Qed.

Lemma block_hashes_binding ps qs :
  Forall BlockHeader_wf ps → Forall BlockHeader_wf qs →
  block_hash <$> ps = block_hash <$> qs → ps = qs ∨ sha256_collision.
Proof.
  intros Hps. revert qs. induction Hps as [|p ps Hp _ IH]; intros qs Hqs Heq.
  { symmetry in Heq. apply fmap_nil_inv in Heq as ->. by left. }
  destruct qs as [|q qs]; [done|]. apply Forall_cons in Hqs as [Hq Hqs].
  cbn in Heq. injection Heq as Hpq Heq.
  apply block_hash_binding in Hpq as [->|?]; [|by right|done|done].
  destruct (IH qs Hqs Heq) as [->|?]; auto.
Qed.

Lemma validate_block_successor_safe h p p2 r : safe (validate_block_successor h p p2 r).
Proof.
  unfold validate_block_successor. apply rbind_safe; [unfold validate_flags; auto with res|].
  intros _ _. apply rbind_safe; [|intros _ _; repeat safe_step].
  destruct (is_merge_result _); [|repeat safe_step].
  apply rbind_safe; [auto with res|]. intros q _. cbv zeta. repeat safe_step.
Qed.

End succession.

(** ** The shard configuration, proved *)

Definition ShardEntry_wf (e : ShardEntry) : Prop :=
  ShardIdent_wf (e_shard e) ∧ len (e_block_hash e) = 32 ∧ in_int Uint32 (e_seq_no e).

Lemma ShardEntry_to_bytes_len e : ShardEntry_wf e → len (ShardEntry_to_bytes e) = 48.
Proof.
  intros (_ & Hh & _). unfold ShardEntry_to_bytes, uint256_encode. autorewrite with len. lia.
Qed.

Lemma ShardEntry_roundtrip e :
  ShardEntry_wf e → ShardEntry_from_bytes (ShardEntry_to_bytes e) = Ok e.
Proof.
  intros (Hs & Hh & Hq). apply map_err_Ok.
  unfold ShardEntry_to_bytes, ENTRY_BYTE_LENGTH, field, uint256_encode. decode_simpl. by destruct e.
Qed.

Lemma ShardEntry_surj bs v :
  ShardEntry_from_bytes bs = Ok v → ∃ e, ShardEntry_wf e ∧ bs = ShardEntry_to_bytes e.
Proof.
  intros H. apply map_err_Ok in H. revert H.
  destruct (check_exact_len ENTRY_BYTE_LENGTH bs) as [u|e|] eqn:Hl; [|done..].
  apply check_exact_len_Ok in Hl. unfold ENTRY_BYTE_LENGTH in Hl.
  cut_bytes bs 12 as s Hs. cut_bytes bs 32 as h Hh.
  destruct (int_encode_surj Uint32 bs) as (q & Hq & ->); [cbn; lia|]. cbn [rbind].
  unfold field. decode_simpl. destruct (shard_from_bytes s) as [sh|e|] eqn:Hsh; [|done..].
  apply codec_exact in Hsh as [Hwf ->]. intros _.
  exists {| e_shard := sh; e_block_hash := h; e_seq_no := q |}. by split.
Qed.

#[export] Instance ShardEntry_codec :
  ExactCodec ShardEntry_wf ShardEntry_to_bytes ShardEntry_from_bytes.
Proof.
  apply codec_intro; [apply ShardEntry_roundtrip|apply ShardEntry_surj|].
  intros bs. apply map_err_safe. safe_step; [auto with res|].
  match goal with H : check_exact_len _ _ = _ |- _ => apply check_exact_len_Ok in H end.
  unfold ENTRY_BYTE_LENGTH in *. repeat safe_step.
Qed.

(** Strictly ascending encodings: sorted, and no shard twice *)
Definition shards_ascending : list ShardEntry → Prop :=
  StronglySorted (λ a b, be_val (shard_to_bytes (e_shard a)) < be_val (shard_to_bytes (e_shard b))).

Lemma extra_validate_Ok l u : extra_validate l = Ok u ↔ shards_ascending l.
Proof.
  destruct u. unfold shards_ascending. induction l as [|x [|y l] IH].
  - split; [constructor|done].
  - split; [repeat constructor|done].
  - assert (extra_validate (x :: y :: l) =
      if bool_decide (shard_to_bytes (e_shard x) = shard_to_bytes (e_shard y))
      then Err DuplicateShardEntry
      else if be_val (shard_to_bytes (e_shard y)) <? be_val (shard_to_bytes (e_shard x))
      then Err UnsortedShardEntries else extra_validate (y :: l)) as -> by done.
    rewrite !guard_then, bool_decide_eq_false, Z.ltb_ge, IH.
    set (v := λ e, be_val (shard_to_bytes (e_shard e))).
    change (be_val (shard_to_bytes (e_shard x))) with (v x).
    change (be_val (shard_to_bytes (e_shard y))) with (v y). split.
    + intros (Hne & Hle & Hs). assert (v x < v y) as Hlt.
      { assert (v x ≠ v y); [|lia]. intros Hv. apply Hne, be_val_inj; [by autorewrite with len|done]. }
      constructor; [done|]. constructor; [done|].
      apply StronglySorted_inv in Hs as [_ Hy]. eapply Forall_impl; [exact Hy|].
      cbn. unfold v in *. intros. lia.
    + intros [Hs Hx]%StronglySorted_inv. apply Forall_inv in Hx. fold (v x) (v y) in Hx.
      split_and!; [|lia|done]. intros He. unfold v in Hx. rewrite He in Hx. lia.
Qed.

Lemma entries_len es :
  Forall ShardEntry_wf es → len (concat (ShardEntry_to_bytes <$> es)) = 48 * len es.
Proof.
  induction 1 as [|e es He _ IH]; [done|]. cbn [fmap list_fmap concat].
  rewrite len_app, ShardEntry_to_bytes_len, IH, len_cons by done. lia.
Qed.

Lemma read_entries_app_r n l k off :
  len l ≤ off → read_entries n (l ++ k) off = read_entries n k (off - len l).
Proof.
  revert off. induction n as [|n IH]; intros off Hoff; [done|]. cbn [read_entries].
  unfold ENTRY_BYTE_LENGTH. rewrite slice_app_r, IH by (unfold ENTRY_BYTE_LENGTH; lia).
  by replace (off - len l + 48) with (off + 48 - len l) by lia.
Qed.

Lemma read_entries_encode es post :
  Forall ShardEntry_wf es →
  read_entries (length es) (concat (ShardEntry_to_bytes <$> es) ++ post) 0 = Ok es.
Proof.
  induction 1 as [|e es He _ IH]; [done|]. pose proof (ShardEntry_to_bytes_len e He) as Hl.
  cbn [length read_entries fmap list_fmap concat]. unfold ENTRY_BYTE_LENGTH.
  rewrite <-app_assoc, read_entries_app_r by lia. rewrite Hl. change (0 + 48 - 48) with 0.
  rewrite IH. decode_simpl. rewrite ShardEntry_roundtrip by done. done.
Qed.

Lemma read_entries_surj n bs off l :
  0 ≤ off → off + 48 * Z.of_nat n = len bs → read_entries n bs off = Ok l →
  ∃ pre, len pre = off ∧ Forall ShardEntry_wf l ∧ length l = n ∧
         bs = pre ++ concat (ShardEntry_to_bytes <$> l).
Proof.
  revert off l. induction n as [|n IH]; intros off l H0 Hl H; cbn [read_entries] in H.
  { simplify_eq. exists bs. split_and!; [lia|done|done|by rewrite app_nil_r]. }
  apply rbind_Ok in H as (piece & Hp & H). apply rbind_Ok in H as (e & He & H).
  apply rbind_Ok in H as (rest & Hr & H). simplify_eq. unfold ENTRY_BYTE_LENGTH in *.
  apply IH in Hr as (pre & Hpre & Hf & Hn & Hbs); [|lia|lia].
  apply codec_exact in He as [Hwf ->]. rewrite Hbs in Hp.
  destruct (split_at_len pre off) as (a & b & -> & Ha); [lia|]. rewrite len_app in Hpre.
  rewrite <-app_assoc, slice_app_r, slice_app_l in Hp by lia. simplify_eq.
  exists a. split_and!; [done|by constructor|cbn; lia|]. cbn [fmap list_fmap concat].
  by rewrite <-app_assoc.
Qed.

Lemma read_entries_safe n bs off :
  0 ≤ off → off + 48 * Z.of_nat n ≤ len bs → safe (read_entries n bs off).
Proof.
  revert off. induction n as [|n IH]; intros off H0 Hl; [done|]. cbn [read_entries].
  unfold ENTRY_BYTE_LENGTH. repeat safe_step. apply IH; lia.
Qed.

Definition extra_wf (es : MasterchainBlockExtra) : Prop :=
  Forall ShardEntry_wf es ∧ in_int Uint32 (len es) ∧ shards_ascending es.

#[export] Instance extra_codec : ExactCodec extra_wf extra_to_bytes extra_from_bytes.
Proof.
  apply codec_intro.
  - intros es (Hes & Hc & Hs). unfold extra_from_bytes, extra_to_bytes, ENTRY_BYTE_LENGTH.
    pose proof (len_nonneg es). assert (len es < 2 ^ 32) by (clear -Hc; int_lia).
    rewrite (proj2 (Z.ltb_ge _ _)) by (rewrite len_app, entries_len by done; autorewrite with len; lia).
    decode_simpl. rewrite decode_int_encode by done. cbn [map_err]. decode_simpl.
    rewrite !len_app, !entries_len by done. autorewrite with len.
    rewrite !(proj2 (Z.ltb_ge _ _)) by lia.
    rewrite read_entries_app_r by (autorewrite with len; lia). autorewrite with len.
    change (4 - 4) with 0. rewrite to_nat_len.
    rewrite <-(app_nil_r (concat _)), read_entries_encode by done. cbn [rbind].
    by rewrite (proj2 (extra_validate_Ok es tt) Hs).
  - intros bs v H. unfold extra_from_bytes, ENTRY_BYTE_LENGTH in H.
    destruct (Z.ltb_spec (len bs) 4); [done|].
    destruct (split_at_len bs 4) as (c & rest & -> & Hc); [lia|].
    rewrite slice_app_l in H by lia. cbn [rbind] in H.
    destruct (int_encode_surj Uint32 c Hc) as (n & Hn & ->).
    assert (0 ≤ n < 2 ^ 32) as Hnb by (clear -Hn; int_lia).
    rewrite decode_int_encode in H by done. cbn [map_err rbind] in H.
    rewrite checked_mul_u_ok in H by lia. cbn [rbind] in H.
    rewrite checked_add_u_ok in H by lia. cbn [rbind] in H.
    do 2 (case_match; [done|]). bool_to_prop. autorewrite with len in *.
    apply rbind_Ok in H as (es & Hes & H). apply rbind_Ok in H as (u & Hu & H). simplify_eq.
    apply extra_validate_Ok in Hu.
    rewrite read_entries_app_r in Hes by (autorewrite with len; lia). autorewrite with len in Hes.
    apply read_entries_surj in Hes as (pre & Hpre & Hf & Hlen & ->); [|lia|lia].
    apply len_0_nil in Hpre as ->. exists v. assert (len v = n) as <- by (unfold len; lia).
    split; [by split|done].
  - intros bs. unfold extra_from_bytes, ENTRY_BYTE_LENGTH.
    safe_step; [done|]. bool_to_prop. safe_step; [auto with res|].
    safe_step; [auto with res|].
    match goal with H : map_err _ _ = _ |- _ => apply map_err_Ok, decode_int_range in H; rename H into Hr end.
    rewrite in_int_u32 in Hr. destruct Hr as [Hr0 Hr1].
    rewrite checked_mul_u_ok by lia. cbn [rbind]. rewrite checked_add_u_ok by lia. cbn [rbind].
    do 2 (safe_step; [done|]). bool_to_prop. safe_step; [apply read_entries_safe; lia|].
    apply rbind_safe; [|done]. clear. induction a1 as [|x [|y l] IH]; [done|done|].
    cbn [extra_validate]. do 2 (case_match; [done|]). done.
Qed.

(** A shard configuration is accepted exactly as the canonical encoding of
    a list of well-formed entries in strictly ascending order of their shards'
    bytes, and no input aborts; such a configuration names one block per shard, so
    at most one block of a shard is canonical under it. *)
Theorem shard_configuration bs extra s h n h' n' :
  (extra_from_bytes bs = Ok extra ↔ extra_wf extra ∧ bs = extra_to_bytes extra) ∧
  extra_from_bytes bs ≠ Panic ∧
  (extra_validate extra = Ok tt → is_canonical extra s h n = true →
   is_canonical extra s h' n' = true → h = h' ∧ n = n').
Proof.
  split_and!; [apply codec_exact|apply codec_safe|]. intros Hs%extra_validate_Ok H1 H2.
  unfold is_canonical in *. rewrite existsb_exists in *.
  destruct H1 as (e & He & H1), H2 as (e' & He' & H2). bool_to_prop. subst.
  assert (e = e') as ->; [|done].
  assert (∀ i j x y, (i < j)%nat → extra !! i = Some x → extra !! j = Some y →
    e_shard x = e_shard y → False) as Hlt.
  { intros i j x y Hij Hx Hy Hsh. unfold shards_ascending in Hs. rewrite StronglySorted_lookup in Hs.
    specialize (Hs i j x y Hij Hx Hy). rewrite Hsh in Hs. lia. }
  apply list_elem_of_In, list_elem_of_lookup_1 in He as [i Hi].
  apply list_elem_of_In, list_elem_of_lookup_1 in He' as [j Hj].
  destruct (Nat.lt_trichotomy i j) as [Hij|[->|Hij]]; [|congruence|];
    exfalso; eapply Hlt; eauto; congruence.
Qed.

(** ** Instances *)

Definition sample_header (seq : Z) (prev : bytes) (fl : Z) : BlockHeader :=
  {| magic_constructor := BLOCK_HEADER_MAGIC; header_shard := shard_root 0; seq_no := seq;
     flags := fl; gen_utime := 100 + seq; start_lt := 10 * seq; end_lt := 10 * seq + 9;
     prev_key_block := 0; prev_ref_hash := prev; prev_ref_hash_2 := Uint256_ZERO;
     master_ref_hash := Uint256_ZERO; state_root_hash := Uint256_ZERO;
     in_msg_root_hash := Uint256_ZERO; out_msg_root_hash := Uint256_ZERO |}.

Definition sample_roots : RecomputedRoots :=
  {| r_state_root_hash := Uint256_ZERO; r_in_msg_root_hash := Uint256_ZERO;
     r_out_msg_root_hash := Uint256_ZERO |}.

Lemma sample_header_wf seq prev :
  0 ≤ seq < 1000 → len prev = 32 → BlockHeader_wf (sample_header seq prev 0).
Proof.
  intros Hs Hp. assert (shard_prefix (shard_root 0) 0 0) as Hsp by (unfold shard_prefix; done).
  split; [|split; [done|split]].
  - unfold BlockHeader_typed, shard_typed. cbn [magic_constructor header_shard seq_no flags gen_utime
      start_lt end_lt prev_key_block prev_ref_hash prev_ref_hash_2 master_ref_hash state_root_hash
      in_msg_root_hash out_msg_root_hash workchain_id shard_prefix_ident sample_header shard_root].
    rewrite !in_int_u32, !in_int_u64, in_int_u16. unfold in_u, ROOT_PREFIX, BLOCK_HEADER_MAGIC.
    split_and!; done || lia.
  - split; [done|]. exists 0, 0. done.
  - by split.
Qed.

Definition sample_parent : BlockHeader := sample_header 4 Uint256_ZERO 0.
Definition sample_child : BlockHeader := sample_header 5 (block_hash (H:=toy_crypto) sample_parent) 0.

