(* ===== verification/Sync.v ===== *)
(** [onx-blocks], [sync.rs]: the index of verified headers. *)
From S2P Require Import Prelude Bytes Machine Primitives ToyCrypto Address Message Block Blocks.

Record SyncCandidate : Type := {
  c_header : BlockHeader;
  recomputed_roots : RecomputedRoots;
  c_masterchain_extra : option MasterchainBlockExtra;
  canonicality_proof : option bytes;
}.

Record StoredBlock : Type := {
  s_header : BlockHeader;
  s_masterchain_extra : option MasterchainBlockExtra;
}.

(** [BlockSyncEngine]: the [HashMap] of stored blocks *)
Definition BlockSyncEngine : Type := (gmap bytes StoredBlock).

Inductive SyncError : Type :=
  | BlockError (e : BlocksError)
  | DuplicateBlock (h : bytes)
  | MissingParent (h : bytes)
  | MissingMasterchainProof (h : bytes)
  | MissingMasterchainExtra
  | UnexpectedMasterchainExtra
  | MissingCanonicalityProof
  | UnexpectedCanonicalityProof
  | InvalidCanonicalityProof (h : bytes).

Section engine.
Context {C : Crypto}.

Definition on_masterchain (h : BlockHeader) : bool := is_masterchain (workchain_id (header_shard h)).

Definition validate_role_fields (c : SyncCandidate) : result SyncError unit :=
  if on_masterchain (c_header c) then
    let? extra := ok_or (c_masterchain_extra c) MissingMasterchainExtra in
    let? _ := map_err BlockError (extra_validate extra) in
    match canonicality_proof c with
    | Some _ => Err UnexpectedCanonicalityProof
    | None => Ok tt
    end
  else
    match c_masterchain_extra c with
    | Some _ => Err UnexpectedMasterchainExtra
    | None =>
        match canonicality_proof c with
        | None => Err MissingCanonicalityProof
        | Some _ => Ok tt
        end
    end.

(** The index as left by the call, and the result *)
Definition insert_trusted (e : BlockSyncEngine) (header : BlockHeader)
    (extra : option MasterchainBlockExtra) : BlockSyncEngine * result SyncError unit :=
  let candidate := {|
    c_header := header;
    recomputed_roots := {| r_state_root_hash := state_root_hash header;
                           r_in_msg_root_hash := in_msg_root_hash header;
                           r_out_msg_root_hash := out_msg_root_hash header |};
    c_masterchain_extra := extra;
    canonicality_proof := if on_masterchain header then None else Some Uint256_ZERO |} in
  match validate_role_fields candidate with
  | Ok _ =>
      let hash := block_hash (c_header candidate) in
      match e !! hash with
      | Some _ => (e, Err (DuplicateBlock hash))
      | None => (<[ hash := {| s_header := c_header candidate;
                               s_masterchain_extra := c_masterchain_extra candidate |} ]> e, Ok tt)
      end
  | Err err => (e, Err err)
  | Panic => (e, Panic)
  end.

Definition validate_candidate (c : SyncCandidate) (staged : BlockSyncEngine) :
    result SyncError BlockSyncEngine :=
  let? _ := validate_role_fields c in
  let header := c_header c in
  let hash := block_hash header in
  match staged !! hash with
  | Some _ => Err (DuplicateBlock hash)
  | None =>
      let? parent := ok_or (staged !! prev_ref_hash header) (MissingParent (prev_ref_hash header)) in
      let? parent_2 :=
        if is_merge_result (flags header) then
          let? p := ok_or (staged !! prev_ref_hash_2 header)
                      (MissingParent (prev_ref_hash_2 header)) in
          Ok (Some (s_header p))
        else Ok None in
      let? _ := map_err BlockError
                  (validate_block_successor header (s_header parent) parent_2 (recomputed_roots c)) in
      let? _ :=
        if on_masterchain header then map_err BlockError (validate_master_ref header None)
        else
          let? master := ok_or (staged !! master_ref_hash header)
                           (MissingMasterchainProof (master_ref_hash header)) in
          let? _ := map_err BlockError (validate_master_ref header (Some (s_header master))) in
          let? proof_hash := unwrap (canonicality_proof c) in
          let? proof := ok_or (staged !! proof_hash) (MissingMasterchainProof proof_hash) in
          let? extra := ok_or (s_masterchain_extra proof) MissingMasterchainExtra in
          if negb (is_canonical extra (header_shard header) hash (seq_no header))
          then Err (InvalidCanonicalityProof proof_hash) else Ok tt in
      Ok (<[ hash := {| s_header := header; s_masterchain_extra := c_masterchain_extra c |} ]> staged)
  end.

Definition import_batch (e : BlockSyncEngine) (candidates : list SyncCandidate) :
    BlockSyncEngine * result SyncError unit :=
  match foldM validate_candidate candidates e with
  | Ok staged => (staged, Ok tt)
  | Err err => (e, Err err)
  | Panic => (e, Panic)
  end.

Definition import_reverse_batch (e : BlockSyncEngine) (candidates : list SyncCandidate) :
    BlockSyncEngine * result SyncError unit :=
  import_batch e (reverse candidates).

Definition engine_header (e : BlockSyncEngine) (hash : bytes) : option BlockHeader :=
  s_header <$> e !! hash.

(** ** The invariant *)

(** Blocks are stored under their hashes; exactly the masterchain's carry a
    shard configuration, and it is in order. *)
Definition stored_ok (h : bytes) (b : StoredBlock) : Prop :=
  block_hash (s_header b) = h ∧ BlockHeader_typed (s_header b) ∧
  (on_masterchain (s_header b) = true ↔ is_Some (s_masterchain_extra b)) ∧
  (∀ x, s_masterchain_extra b = Some x → shards_ascending x).

(** What was checked of an indexed block that is no trusted anchor: it is a valid
    successor of indexed blocks; a masterchain block refers to no master; a shard
    block refers to an indexed masterchain block and an indexed configuration
    commits it. *)
Definition justified (e : BlockSyncEngine) (h : bytes) (b : StoredBlock) : Prop :=
  (∃ ps r, ps ≠ [] ∧ valid_successor (s_header b) ps r ∧
     Forall (λ p, ∃ pb, e !! block_hash p = Some pb ∧ s_header pb = p) ps) ∧
  (on_masterchain (s_header b) = true → master_ref_hash (s_header b) = Uint256_ZERO) ∧
  (on_masterchain (s_header b) = false →
     (∃ mb, e !! master_ref_hash (s_header b) = Some mb ∧ on_masterchain (s_header mb) = true) ∧
     ∃ ph pb x, e !! ph = Some pb ∧ s_masterchain_extra pb = Some x ∧
       is_canonical x (header_shard (s_header b)) h (seq_no (s_header b)) = true).

Definition engine_ok (trusted : gset bytes) (e : BlockSyncEngine) : Prop :=
  map_Forall (λ h b, stored_ok h b ∧ (h ∈ trusted ∨ justified e h b)) e.

Lemma engine_ok_empty t : engine_ok t ∅.
Proof. apply map_Forall_empty. Qed.

Lemma justified_mono e e' h b : e ⊆ e' → justified e h b → justified e' h b.
Proof.
  intros Hsub ((ps & r & Hne & Hs & Hps) & Hm & Hsh). split_and!; [|done|].
  - exists ps, r. split_and!; [done|done|]. eapply Forall_impl; [exact Hps|].
    intros p (pb & Hpb & ?). exists pb. split; [|done]. by eapply lookup_weaken.
  - intros Hf. destruct (Hsh Hf) as ((mb & Hmb & ?) & ph & pb & x & Hpb & ? & ?).
    split; [exists mb|exists ph, pb, x]; split_and?; try done; by eapply lookup_weaken.
Qed.

Lemma engine_ok_insert t e h b :
  engine_ok t e → e !! h = None → stored_ok h b → h ∈ t ∨ justified e h b →
  engine_ok t (<[ h := b ]> e).
Proof.
  intros He Hnew Hb Hj. assert (e ⊆ <[ h := b ]> e) by by apply insert_subseteq.
  apply map_Forall_insert_2.
  - split; [done|]. destruct Hj; [by left|right]. by eapply justified_mono.
  - intros h' b' Hb'. destruct (He _ _ Hb') as [? [?|?]]; split; auto.
    right. by eapply justified_mono.
Qed.

Lemma engine_ok_trust t t' e : t ⊆ t' → engine_ok t e → engine_ok t' e.
Proof. intros Ht He h b Hb. destruct (He h b Hb) as [? [?|?]]; split; auto. Qed.

Lemma role_fields_Ok c u :
  validate_role_fields c = Ok u →
  (on_masterchain (c_header c) = true ↔ is_Some (c_masterchain_extra c)) ∧
  (∀ x, c_masterchain_extra c = Some x → shards_ascending x) ∧
  (on_masterchain (c_header c) = false → is_Some (canonicality_proof c)).
Proof.
  unfold validate_role_fields. intros H. destruct (on_masterchain (c_header c)).
  - apply rbind_Ok in H as (x & Hx & H). apply ok_or_Ok in Hx.
    apply rbind_Ok in H as (u' & Hv & H). apply map_err_Ok, extra_validate_Ok in Hv.
    split_and!; [split; eauto|intros ? ?; by simplify_eq|done].
  - destruct (c_masterchain_extra c); [done|]. destruct (canonicality_proof c); [|done].
    split_and!; [split; [done|by intros []]|done|eauto].
Qed.

Lemma master_ref_Ok h o u :
  validate_master_ref h o = Ok u →
  (on_masterchain h = true → master_ref_hash h = Uint256_ZERO) ∧
  (on_masterchain h = false → ∃ mb, o = Some mb ∧ on_masterchain mb = true).
Proof.
  unfold validate_master_ref. fold (on_masterchain h). destruct (on_masterchain h).
  - case_bool_decide; [|done]. done.
  - destruct o as [mb|]; [|done]. fold (on_masterchain mb).
    destruct (on_masterchain mb) eqn:Hm; [|done]. split; [done|]. eauto.
Qed.

Lemma validate_candidate_ok t e c e' :
  engine_ok t e → BlockHeader_typed (c_header c) →
  validate_candidate c e = Ok e' → engine_ok t e' ∧ e ⊆ e'.
Proof.
  intros He Hty H. unfold validate_candidate in H.
  apply rbind_Ok in H as (u & Hrole & H). apply role_fields_Ok in Hrole as (Hmx & Hx & _).
  destruct (e !! block_hash (c_header c)) as [|] eqn:Hnew; [done|].
  set (h := c_header c) in *.
  apply rbind_Ok in H as (pb & Hpb & H). apply ok_or_Ok in Hpb.
  apply rbind_Ok in H as (p2 & Hp2 & H).
  apply rbind_Ok in H as ([] & Hsucc & H). apply map_err_Ok in Hsucc.
  apply rbind_Ok in H as ([] & Hmaster & H). simplify_eq.
  split; [|by apply insert_subseteq]. apply engine_ok_insert; [done|done| |right].
  { split_and!; cbn; done. }
  destruct (He _ _ Hpb) as [(Hph & Hpt & _) _].
  assert (in_u 16 (flags h)) as Hf by (apply in_int_u16, Hty).
  assert (∀ q, BlockHeader_typed q → 0 ≤ seq_no q) as Hseq by (intros q (_ & _ & Hq & _); int_lia).
  split_and!; cbn [s_header s_masterchain_extra].
  - destruct (is_merge_result (flags h)) eqn:Hm.
    + apply rbind_Ok in Hp2 as (qb & Hqb & Hp2). apply ok_or_Ok in Hqb. simplify_eq.
      destruct (He _ _ Hqb) as [(Hqh & Hqt & _) _].
      exists [s_header pb; s_header qb], (recomputed_roots c). split_and!; [done| |].
      * pose proof (successor_iff h (s_header pb) (s_header qb) (recomputed_roots c) Hf) as Hi.
        rewrite Hm in Hi. unfold parents_of in Hi. rewrite Hm in Hi. apply Hi; auto.
      * constructor; [exists pb; by rewrite Hph|]. constructor; [exists qb; by rewrite Hqh|done].
    + simplify_eq. exists [s_header pb], (recomputed_roots c). split_and!; [done| |].
      * pose proof (successor_iff h (s_header pb) (s_header pb) (recomputed_roots c) Hf) as Hi.
        rewrite Hm in Hi. unfold parents_of in Hi. rewrite Hm in Hi. apply Hi; auto.
      * constructor; [exists pb; by rewrite Hph|done].
  - intros Hm. rewrite Hm in Hmaster. apply map_err_Ok, master_ref_Ok in Hmaster as [? _]. auto.
  - intros Hm. rewrite Hm in Hmaster.
    apply rbind_Ok in Hmaster as (mb & Hmb & Hmaster). apply ok_or_Ok in Hmb.
    apply rbind_Ok in Hmaster as (? & Hr & Hmaster). apply map_err_Ok, master_ref_Ok in Hr as [_ Hr].
    destruct (Hr Hm) as (mb' & [= <-] & Hmm).
    apply rbind_Ok in Hmaster as (ph & _ & Hmaster).
    apply rbind_Ok in Hmaster as (prb & Hprb & Hmaster). apply ok_or_Ok in Hprb.
    apply rbind_Ok in Hmaster as (y & Hxx & Hmaster). apply ok_or_Ok in Hxx.
    destruct (is_canonical _ _ _ _) eqn:Hcan in Hmaster; [|done]. split; [eauto|].
    exists ph, prb, y. done.
Qed.

Lemma validate_candidate_safe c e : safe (validate_candidate c e).
Proof.
  unfold validate_candidate.
  assert (safe (validate_role_fields c)) as Hrole.
  { unfold validate_role_fields. repeat safe_step.
    apply map_err_safe. generalize a. clear. induction a as [|x [|y l] IH]; [done|done|].
    cbn [extra_validate]. do 2 (case_match; [done|]). done. }
  apply rbind_safe; [done|]. intros u Hu. apply role_fields_Ok in Hu as (_ & _ & Hproof).
  destruct (e !! _); [done|]. apply rbind_safe; [auto with res|]. intros pb _.
  apply rbind_safe; [repeat safe_step|]. intros p2 _.
  apply rbind_safe; [apply map_err_safe, validate_block_successor_safe|]. intros _ _.
  assert (∀ h o, safe (validate_master_ref h o)) as Hmr.
  { intros h o. unfold validate_master_ref. repeat safe_step. }
  apply rbind_safe; [|done]. destruct (on_masterchain (c_header c)); [apply map_err_safe, Hmr|].
  apply rbind_safe; [auto with res|]. intros mb _. apply rbind_safe; [apply map_err_safe, Hmr|].
  intros _ _. destruct (Hproof eq_refl) as [ph ->]. repeat safe_step.
Qed.

Lemma import_batch_ok t e l :
  engine_ok t e → Forall (λ c, BlockHeader_typed (c_header c)) l →
  engine_ok t (import_batch e l).1 ∧ e ⊆ (import_batch e l).1.
Proof.
  intros He Hl. unfold import_batch. destruct (foldM validate_candidate l e) as [e'|err|] eqn:Hf; try done.
  cbn [fst].
  apply (foldM_inv (λ k s, engine_ok t s ∧ e ⊆ s ∧ Forall (λ c, BlockHeader_typed (c_header c)) k)) in Hf
    as (? & ? & _); [done| |done].
  intros c k s s' (Hs & Hsub & [Hc Hk]%Forall_cons) Hv.
  apply validate_candidate_ok with (t := t) in Hv as [? ?]; [|done..].
  split_and!; [done|by etrans|done].
Qed.

(** ** Histories *)

Inductive sync_op : Type :=
  | Trust (header : BlockHeader) (extra : option MasterchainBlockExtra)
  | Import (l : list SyncCandidate)
  | ImportReverse (l : list SyncCandidate).

Definition sync_step (e : BlockSyncEngine) (op : sync_op) : BlockSyncEngine :=
  match op with
  | Trust header extra => (insert_trusted e header extra).1
  | Import l => (import_batch e l).1
  | ImportReverse l => (import_reverse_batch e l).1
  end.

Definition op_typed (op : sync_op) : Prop :=
  match op with
  | Trust header _ => BlockHeader_typed header
  | Import l | ImportReverse l => Forall (λ c, BlockHeader_typed (c_header c)) l
  end.

(** The anchors handed over by a history *)
Definition anchors (ops : list sync_op) : gset bytes :=
  list_to_set (omap (λ op, match op with Trust h _ => Some (block_hash h) | _ => None end) ops).

Lemma insert_trusted_ok t e h x :
  engine_ok t e → BlockHeader_typed h → block_hash h ∈ t →
  engine_ok t (insert_trusted e h x).1 ∧ e ⊆ (insert_trusted e h x).1.
Proof.
  intros He Hty Ht. unfold insert_trusted.
  destruct (validate_role_fields _) as [u|err|] eqn:Hr; try done.
  apply role_fields_Ok in Hr as (Hm & Hx & _). cbn [c_header c_masterchain_extra] in *.
  destruct (e !! block_hash h) eqn:Hnew; [done|]. cbn [fst].
  split; [|by apply insert_subseteq]. apply engine_ok_insert; [done|done| |by left].
  split_and!; cbn; done.
Qed.

Lemma history_ok ops : ∀ t e,
  Forall op_typed ops → engine_ok t e → anchors ops ⊆ t → engine_ok t (foldl sync_step e ops).
Proof.
  induction ops as [|op ops IH]; intros t e Hops He Ht; [done|].
  apply Forall_cons in Hops as [Hop Hops]. cbn [foldl]. apply IH; [done| |].
  - destruct op as [h x|l|l]; cbn [sync_step op_typed] in *.
    + apply insert_trusted_ok; [done|done|]. apply Ht. unfold anchors. set_solver.
    + by apply import_batch_ok.
    + unfold import_reverse_batch. apply import_batch_ok; [done|]. by apply Forall_reverse.
  - etrans; [|exact Ht]. unfold anchors. destruct op; cbn; set_solver.
Qed.

(** The step from an indexed block to a parent that is indexed too *)
Definition parent_edge (e : BlockSyncEngine) (h h' : bytes) : Prop :=
  ∃ b b', e !! h = Some b ∧ e !! h' = Some b' ∧ h' ∈ parent_refs (s_header b) ∧
          seq_no (s_header b') < seq_no (s_header b).

(** C12: batches are all or nothing and never abort; and after any history of
    trusted insertions and imports - forward or reversed - every indexed block
    is reached, through parents that are indexed and have smaller sequence
    numbers, from a trusted anchor, every shard block among the imported ones being
    committed by an indexed masterchain configuration. *)
Theorem sync_engine_history ops e l :
  Forall op_typed ops →
  (import_batch e l).2 ≠ Panic ∧
  ((import_batch e l).2 ≠ Ok tt → (import_batch e l).1 = e) ∧
  let e := foldl sync_step ∅ ops in
  ∀ h b, e !! h = Some b →
    block_hash (s_header b) = h ∧ (h ∈ anchors ops ∨ justified e h b) ∧
    ∃ t, t ∈ anchors ops ∧ rtc (parent_edge e) h t.
Proof.
  intros Hops. split_and!.
  - unfold import_batch. assert (safe (foldM validate_candidate l e)) as Hs.
    { apply (foldM_safe (λ _ _, True)); [|done|done]. intros. apply validate_candidate_safe. }
    by destruct (foldM _ _ _).
  - unfold import_batch. by destruct (foldM _ _ _).
  - intros e'. pose proof (history_ok ops (anchors ops) ∅ Hops (engine_ok_empty _)
      ltac:(done)) as He. fold e' in He. clearbody e'.
    assert (∀ n h b, e' !! h = Some b → seq_no (s_header b) < Z.of_nat n →
      ∃ t, t ∈ anchors ops ∧ rtc (parent_edge e') h t) as Hchain.
    { induction n as [|n IH]; intros h b Hb Hn.
      - destruct (He _ _ Hb) as [(_ & (_ & _ & Hq & _) & _) _]. exfalso. int_lia.
      - destruct (He _ _ Hb) as [_ [?|Hj]]; [exists h; split; [done|apply rtc_refl]|].
        destruct Hj as ((ps & r & Hne & Hs & Hps) & _). destruct ps as [|p ps]; [done|].
        apply Forall_inv in Hps as (pb & Hpb & <-).
        pose proof (succ_seq _ _ _ Hs) as Hseq. cbn in Hseq.
        destruct (IH _ _ Hpb) as (t & Ht & Hr); [lia|]. exists t. split; [done|].
        eapply rtc_l; [|exact Hr]. exists b, pb. split_and!; [done|done| |lia].
        rewrite (succ_refs _ _ _ Hs). cbn. constructor. }
    intros h b Hb. destruct (He _ _ Hb) as [(Hh & _) Hj]. split_and!; [done|done|].
    destruct (He _ _ Hb) as [(_ & (_ & _ & Hq & _) & _) _].
    apply (Hchain (S (Z.to_nat (seq_no (s_header b)))) h b Hb). int_lia.
Qed.
End engine.

Definition sample_master : BlockHeader :=
  {| magic_constructor := BLOCK_HEADER_MAGIC; header_shard := shard_root (-1); seq_no := 1;
     flags := 0; gen_utime := 1; start_lt := 1; end_lt := 2; prev_key_block := 0;
     prev_ref_hash := Uint256_ZERO; prev_ref_hash_2 := Uint256_ZERO;
     master_ref_hash := Uint256_ZERO; state_root_hash := Uint256_ZERO;
     in_msg_root_hash := Uint256_ZERO; out_msg_root_hash := Uint256_ZERO |}.

Lemma sample_master_typed : BlockHeader_typed sample_master.
Proof.
  unfold BlockHeader_typed, shard_typed. cbn [magic_constructor header_shard seq_no flags gen_utime
    start_lt end_lt prev_key_block prev_ref_hash prev_ref_hash_2 master_ref_hash state_root_hash
    in_msg_root_hash out_msg_root_hash workchain_id shard_prefix_ident sample_master shard_root].
  rewrite !in_int_u32, !in_int_u64, in_int_u16. unfold in_u, ROOT_PREFIX, BLOCK_HEADER_MAGIC.
  split_and!; done || lia.
Qed.

Lemma sync_engine_history_witness :
  let ops := [Trust sample_master (Some [])] in
  let e := foldl (sync_step (C:=toy_crypto)) ∅ ops in
  bool_decide (is_Some (e !! block_hash (H:=toy_crypto) sample_master)) = true ∧
  ∀ h b, e !! h = Some b →
    block_hash (H:=toy_crypto) (s_header b) = h ∧
    (h ∈ anchors (C:=toy_crypto) ops ∨ justified (C:=toy_crypto) e h b) ∧
    ∃ t, t ∈ anchors (C:=toy_crypto) ops ∧ rtc (parent_edge e) h t.
Proof.
  split; [by vm_compute|].
  apply (sync_engine_history (C:=toy_crypto) [Trust sample_master (Some [])] ∅ []).
  constructor; [apply sample_master_typed|done].
Defined.
