(* ===== verification/Consensus.v ===== *)
(** [onx-consensus]: the election ([election.rs]), stakes, quorums, late rewards
    and finality ([lib.rs]). *)
From S2P Require Import Prelude Bytes Machine Primitives ToyCrypto Address Message Block.

Inductive ConsensusError : Type :=
  | InvalidCandidateStake
  | InvalidLoadFactor
  | DuplicateCandidate
  | EmptyValidatorSet
  | InsufficientQuorumStake
  | InvalidSignature
  | DuplicateValidatorSignature
  | InvalidSignatureDepth
  | InvalidityProofVerificationFailed
  | ChallengeWindowExpired
  | DoubleSigningDetected
  | UnknownValidator
  | InvalidLeader
  | InvalidRound
  | InvalidStep
  | ConflictingProposal.

#[export] Instance ConsensusError_eq_dec : EqDecision ConsensusError.
Proof. solve_decision. Defined.

Definition DEFAULT_VALIDATOR_CAP : Z := 100.
Definition DEFAULT_MAX_LOAD_FACTOR_SCALED : Z := 1000.
Definition MIN_LOAD_FACTOR_SCALED : Z := 100.
Definition ELECTION_EPOCH_BLOCKS : Z := Z.shiftl 1 19.
Definition STAKE_LOCKUP_BLOCKS : Z := 2 * ELECTION_EPOCH_BLOCKS.

Record ElectionConfig : Type := { validator_cap : Z; max_load_factor_scaled : Z }.
Definition ElectionConfig_default : ElectionConfig :=
  {| validator_cap := DEFAULT_VALIDATOR_CAP;
     max_load_factor_scaled := DEFAULT_MAX_LOAD_FACTOR_SCALED |}.

(** [s'_i = min(s_i, l_i * s_T)]; the cap is cast to 64 bits. *)
Definition calculate_actual_stake (proposed_stake load_factor_scaled min_selected_stake : Z) : Z :=
  let cap := saturating_mul_u 128 load_factor_scaled min_selected_stake / 100 in
  Z.min proposed_stake (as_u 64 cap).

Section election.
Context {C : Crypto}.

Record CandidateValidatorSpec : Type := {
  cand_public_key : VerifyingKey;
  proposed_stake : Z;
  max_load_factor : Z;
}.
Record ValidatorSetEntry : Type := {
  validator_id : Z;
  public_key : VerifyingKey;
  actual_stake : Z;
}.
Record StakeRefund : Type := { refund_public_key : VerifyingKey; amount : Z }.
Record ElectionResult : Type := {
  validators : list ValidatorSetEntry;
  refunds : list StakeRefund;
}.

(** The order of [sort_by]: descending stake, then ascending key bytes *)
Definition candidate_le (l r : CandidateValidatorSpec) : Prop :=
  proposed_stake r < proposed_stake l ∨
  proposed_stake l = proposed_stake r ∧
  be_val (vk_to_bytes (cand_public_key l)) ≤ be_val (vk_to_bytes (cand_public_key r)).
#[export] Instance candidate_le_dec : RelDecision candidate_le.
Proof. intros l r. unfold candidate_le. apply _. Defined.

(** One iteration of the checking loop, with the set of keys seen *)
Definition check_candidate (config : ElectionConfig) (c : CandidateValidatorSpec)
    (seen : gset bytes) : result ConsensusError (gset bytes) :=
  if proposed_stake c =? 0 then Err InvalidCandidateStake
  else if (max_load_factor c <? MIN_LOAD_FACTOR_SCALED)
       || (max_load_factor_scaled config <? max_load_factor c) then Err InvalidLoadFactor
  else if bool_decide (vk_to_bytes (cand_public_key c) ∈ seen) then Err DuplicateCandidate
  else Ok ({[ vk_to_bytes (cand_public_key c) ]} ∪ seen).

(** The loop over the sorted candidates from [index] on; [u64] subtraction
    checks for underflow. *)
Fixpoint settle (selected_count minimum_selected_stake index : Z)
    (candidates : list CandidateValidatorSpec) : result ConsensusError ElectionResult :=
  match candidates with
  | [] => Ok {| validators := []; refunds := [] |}
  | c :: rest =>
      let locked :=
        if index <? selected_count
        then calculate_actual_stake (proposed_stake c) (max_load_factor c) minimum_selected_stake
        else 0 in
      let? refund := sub_u (proposed_stake c) locked in
      let? tail := settle selected_count minimum_selected_stake (index + 1) rest in
      Ok {| validators :=
              (if index <? selected_count
               then [{| validator_id := as_u 32 index; public_key := cand_public_key c;
                        actual_stake := locked |}] else [])
              ++ validators tail;
            refunds := {| refund_public_key := cand_public_key c; amount := refund |}
                       :: refunds tail |}
  end.

Definition run_election (candidates : list CandidateValidatorSpec) (config : ElectionConfig) :
    result ConsensusError ElectionResult :=
  if validator_cap config =? 0 then Err EmptyValidatorSet
  else
    let? _ := foldM (check_candidate config) candidates ∅ in
    let candidates := merge_sort candidate_le candidates in
    let selected_count := Z.min (len candidates) (validator_cap config) in
    if selected_count =? 0 then Err EmptyValidatorSet
    else
      let? last := index candidates (selected_count - 1) in
      let minimum_selected_stake := proposed_stake last in
      settle selected_count minimum_selected_stake 0 candidates.
End election.

(** ** Quorums ([lib.rs]) *)

Section quorum.
Context {C : Crypto}.

Record BlockSignatureWithDepth : Type := {
  vote_validator_id : Z;
  depth : Z;
  vote_signature : bytes;
}.

Record BftQuorumTracker : Type := {
  q_shard : ShardIdent;
  q_block_hash : bytes;
  total_group_stake : Z;
  signed_stake : Z;
  signatories : list Z;
}.

Definition tracker_new (shard : ShardIdent) (hash : bytes) (total : Z) : BftQuorumTracker :=
  {| q_shard := shard; q_block_hash := hash; total_group_stake := total; signed_stake := 0;
     signatories := [] |}.

(** The tracker as left by the call, and the result *)
Definition add_vote (t : BftQuorumTracker) (vote : BlockSignatureWithDepth)
    (validator : ValidatorSetEntry) : BftQuorumTracker * result ConsensusError unit :=
  if negb (vote_validator_id vote =? validator_id validator) then (t, Err InvalidSignature)
  else if existsb (Z.eqb (vote_validator_id vote)) (signatories t)
  then (t, Err DuplicateValidatorSignature)
  else if is_err (PublicKey_verify (public_key validator) VALIDATOR_SIGN_V1 (q_block_hash t)
                    (vote_signature vote))
  then (t, Err InvalidSignature)
  else ({| q_shard := q_shard t; q_block_hash := q_block_hash t;
           total_group_stake := total_group_stake t;
           signed_stake := saturating_add_u 64 (signed_stake t) (actual_stake validator);
           signatories := signatories t ++ [vote_validator_id vote] |}, Ok tt).

(** Products of a [u64] with 3 fit in 128 bits. *)
Definition has_quorum (t : BftQuorumTracker) : bool :=
  total_group_stake t * 2 <=? signed_stake t * 3.

Definition verify_quorum (t : BftQuorumTracker) : result ConsensusError unit :=
  if has_quorum t then Ok tt else Err InsufficientQuorumStake.
End quorum.

(** [9u128.pow(k)] and [10u128.pow(k)] fit for [k <= 16]. *)
Definition calculate_late_reward (base_reward blocks_late : Z) : Z :=
  if 16 <? blocks_late then 0
  else saturating_mul_u 128 base_reward (9 ^ blocks_late) / 10 ^ blocks_late.

Definition CHALLENGE_WINDOW_BLOCKS : Z := 1048576.

Definition is_block_irrevocably_final (masterchain_commit_height current_masterchain_height : Z)
    (has_accepted_invalidity_proof : bool) : bool :=
  if has_accepted_invalidity_proof then false
  else saturating_add_u 64 masterchain_commit_height CHALLENGE_WINDOW_BLOCKS
       <=? current_masterchain_height.

Definition evaluate_candidate_block_header (header : BlockHeader) : result ConsensusError unit :=
  Ok tt.

(** ** The election, proved *)

Definition zsum {A} (f : A → Z) (l : list A) : Z := foldr (λ x acc, f x + acc) 0 l.

Lemma zsum_Permutation {A} (f : A → Z) l k : l ≡ₚ k → zsum f l = zsum f k.
Proof. unfold zsum. induction 1; cbn; lia. Qed.

Lemma zsum_app {A} (f : A → Z) l k : zsum f (l ++ k) = zsum f l + zsum f k.
Proof. unfold zsum. induction l; cbn; lia. Qed.

Lemma actual_stake_range p l m : 0 ≤ p → 0 ≤ calculate_actual_stake p l m ≤ p.
Proof.
  intros Hp. unfold calculate_actual_stake. cbv zeta.
  pose proof (as_u_bound 64 (saturating_mul_u 128 l m / 100) ltac:(lia)) as [? _]. lia.
Qed.

(** While the cap fits 64 bits, the stake is [min(s_i, l_i * s_T)]. *)
Lemma actual_stake_min p l m :
  0 ≤ l < 2 ^ 16 → 0 ≤ m < 2 ^ 64 → l * m / 100 < 2 ^ 64 →
  calculate_actual_stake p l m = Z.min p (l * m / 100).
Proof.
  intros Hl Hm Hcap. unfold calculate_actual_stake, saturating_mul_u. cbv zeta.
  assert (0 ≤ l * m ∧ l * m < 2 ^ 128 - 1) as [Hnn Hlt].
  { clear Hcap. split; [apply Z.mul_nonneg_nonneg; lia|].
    apply (Z.le_lt_trans _ (65535 * (2 ^ 64 - 1))); [|done].
    apply Z.mul_le_mono_nonneg; lia. }
  rewrite (Z.min_l (l * m)) by (clear Hcap; lia).
  rewrite as_u_id; [done|]. split; [apply Z.div_pos; lia|done].
Qed.

Section election_proofs.
Context {C : Crypto} {L : CryptoLaws C}.

Definition candidate_wf (c : CandidateValidatorSpec) : Prop :=
  0 ≤ proposed_stake c < 2 ^ 64 ∧ 0 ≤ max_load_factor c < 2 ^ 16.

Definition key_bytes (c : CandidateValidatorSpec) : bytes := vk_to_bytes (cand_public_key c).

#[export] Instance candidate_le_total : Total candidate_le.
Proof. intros l r. unfold candidate_le. lia. Qed.
#[export] Instance candidate_le_trans : Transitive candidate_le.
Proof. intros a b c. unfold candidate_le. lia. Qed.

Lemma candidate_le_same_key a b : candidate_le a b → candidate_le b a → key_bytes a = key_bytes b.
Proof.
  unfold candidate_le, key_bytes. intros. apply be_val_inj; [by rewrite !vk_to_bytes_len|lia].
Qed.

Lemma check_candidate_Ok config c seen seen' :
  check_candidate config c seen = Ok seen' ↔
  (proposed_stake c ≠ 0 ∧ 100 ≤ max_load_factor c ≤ max_load_factor_scaled config ∧
   key_bytes c ∉ seen) ∧ seen' = {[ key_bytes c ]} ∪ seen.
Proof.
  unfold check_candidate, MIN_LOAD_FACTOR_SCALED, key_bytes.
  destruct (Z.eqb_spec (proposed_stake c) 0); [naive_solver|].
  destruct (Z.ltb_spec (max_load_factor c) 100); cbn [orb]; [naive_solver lia|].
  destruct (Z.ltb_spec (max_load_factor_scaled config) (max_load_factor c)); [naive_solver lia|].
  case_bool_decide; [naive_solver|]. split; [intros [= <-]|intros [_ ->]]; done.
Qed.

Lemma check_loop config l : ∀ seen,
  (∃ s, foldM (check_candidate config) l seen = Ok s) ↔
  Forall (λ c, proposed_stake c ≠ 0 ∧ 100 ≤ max_load_factor c ≤ max_load_factor_scaled config) l ∧
  NoDup (key_bytes <$> l) ∧ Forall (λ c, key_bytes c ∉ seen) l.
Proof.
  induction l as [|c l IH]; intros seen; cbn.
  { split; [intros _; repeat constructor|intros _; by eexists]. }
  rewrite !Forall_cons, NoDup_cons. split.
  - intros (s & (s1 & [(? & ? & ?) ->]%check_candidate_Ok & Hs)%rbind_Ok).
    destruct (proj1 (IH _) (ex_intro _ _ Hs)) as (? & ? & Hn). rewrite Forall_forall in Hn.
    split_and!; try (done || lia).
    + intros (d & Hd & Hin)%list_elem_of_fmap. apply (Hn d Hin). set_solver.
    + apply Forall_forall. intros d Hd. specialize (Hn d Hd). set_solver.
  - intros ((Hc & Hl) & (Hnc & Hnd) & (Hcs & Hls)).
    destruct (proj2 (IH ({[key_bytes c]} ∪ seen))) as [s Hs].
    + split_and!; [done|done|]. rewrite Forall_forall in *. intros d Hd.
      specialize (Hls d Hd). intros [He%elem_of_singleton|?]%elem_of_union; [|done].
      apply Hnc. rewrite <-He. apply list_elem_of_fmap. eauto.
    + exists s. apply rbind_Ok. eexists. split; [|exact Hs]. apply check_candidate_Ok.
      destruct Hc as [? ?]. done.
Qed.

(** One candidate's outcome at position [k] *)
Definition outcome (sc ms k : Z) (c : CandidateValidatorSpec) (r : ElectionResult) (i : nat) : Prop :=
  ∃ rf, refunds r !! i = Some rf ∧ refund_public_key rf = cand_public_key c ∧
    if k <? sc then
      ∃ v, validators r !! i = Some v ∧ validator_id v = as_u 32 k ∧
        public_key v = cand_public_key c ∧
        actual_stake v = calculate_actual_stake (proposed_stake c) (max_load_factor c) ms ∧
        actual_stake v + amount rf = proposed_stake c
    else amount rf = proposed_stake c.

Lemma settle_spec sc ms l : ∀ i,
  Forall candidate_wf l → 0 ≤ i →
  ∃ r, settle sc ms i l = Ok r ∧
    length (refunds r) = length l ∧
    length (validators r) = Nat.min (length l) (Z.to_nat (sc - i)) ∧
    (∀ k c, l !! k = Some c → outcome sc ms (i + Z.of_nat k) c r k) ∧
    zsum actual_stake (validators r) + zsum amount (refunds r) = zsum proposed_stake l.
Proof.
  induction l as [|c l IH]; intros i Hwf Hi.
  { eexists. split; [done|]. by split_and!. }
  apply Forall_cons in Hwf as [[Hc _] Hwf].
  destruct (IH (i + 1) Hwf ltac:(lia)) as (r & Hr & Hlr & Hlv & Hout & Hsum).
  cbn [settle].
  pose proof (actual_stake_range (proposed_stake c) (max_load_factor c) ms ltac:(lia)) as Ha.
  remember (calculate_actual_stake (proposed_stake c) (max_load_factor c) ms) as a eqn:Hea.
  destruct (Z.ltb_spec i sc) as [Hlt|Hge].
  - unfold sub_u, checked_sub_u. rewrite (proj2 (Z.leb_le _ _)) by lia. cbn [unwrap rbind].
    rewrite Hr. cbn [rbind app]. eexists. split; [done|]. cbn [refunds validators length].
    split_and!; [lia|lia| |].
    + intros [|k] d Hd; cbn in Hd.
      * simplify_eq. eexists. cbn [lookup list_lookup refunds validators].
        rewrite Z.add_0_r, (proj2 (Z.ltb_lt _ _)) by done. split_and!; [done|done|].
        eexists. cbn. split_and!; try done. cbn [actual_stake]. lia.
      * specialize (Hout k d Hd). unfold outcome in *. cbn [refunds validators lookup list_lookup].
        by replace (i + Z.of_nat (S k)) with (i + 1 + Z.of_nat k) by lia.
    + unfold zsum in *. cbn. lia.
  - unfold sub_u, checked_sub_u. rewrite (proj2 (Z.leb_le _ _)) by lia. cbn [unwrap rbind].
    rewrite Hr. cbn [rbind app]. eexists. split; [done|]. cbn [refunds validators length].
    split_and!; [lia|lia| |].
    + intros [|k] d Hd; cbn in Hd.
      * simplify_eq. eexists. cbn [lookup list_lookup refunds validators].
        rewrite Z.add_0_r, (proj2 (Z.ltb_ge _ _)) by done. split_and!; [done|done|]. cbn. lia.
      * specialize (Hout k d Hd). unfold outcome in *. cbn [refunds validators lookup list_lookup].
        replace (i + Z.of_nat (S k)) with (i + 1 + Z.of_nat k) by lia.
        by rewrite (proj2 (Z.ltb_ge _ sc)) in Hout |- * by lia.
    + unfold zsum in *. cbn. lia.
Qed.

Lemma sorted_unique l l' :
  NoDup (key_bytes <$> l) → l ≡ₚ l' → merge_sort candidate_le l = merge_sort candidate_le l'.
Proof.
  apply (merge_sort_unique candidate_le key_bytes). apply candidate_le_same_key.
Qed.

Lemma check_loop_safe config l seen : safe (foldM (check_candidate config) l seen).
Proof.
  apply (foldM_safe (λ _ _, True)); [|done|done]. intros c ? s _.
  unfold check_candidate. by repeat case_match.
Qed.

(** What the election promises for an accepted submission list *)
Definition elected (candidates : list CandidateValidatorSpec) (config : ElectionConfig)
    (r : ElectionResult) : Prop :=
  ∃ sorted last, sorted ≡ₚ candidates ∧ StronglySorted candidate_le sorted ∧
    let seats := Z.min (len candidates) (validator_cap config) in
    sorted !! Z.to_nat (seats - 1) = Some last ∧
    len (validators r) = seats ∧ len (refunds r) = len candidates ∧
    (∀ k c, sorted !! k = Some c → outcome seats (proposed_stake last) (Z.of_nat k) c r k) ∧
    zsum actual_stake (validators r) + zsum amount (refunds r) = zsum proposed_stake candidates.

Definition submissible (config : ElectionConfig) (cs : list CandidateValidatorSpec) : Prop :=
  validator_cap config ≠ 0 ∧ cs ≠ [] ∧
  Forall (λ c, proposed_stake c ≠ 0 ∧
    100 ≤ max_load_factor c ≤ max_load_factor_scaled config) cs ∧
  NoDup (key_bytes <$> cs).

#[export] Instance submissible_Proper config : Proper ((≡ₚ) ==> (↔)) (submissible config).
Proof.
  intros l k Hp. unfold submissible.
  assert (l = [] ↔ k = []) as ->; [|by rewrite Hp].
  split; intros ->; apply Permutation_nil; [done|by symmetry].
Qed.

Lemma submissible_check config cs :
  submissible config cs ↔ validator_cap config ≠ 0 ∧ cs ≠ [] ∧
    ∃ s, foldM (check_candidate config) cs ∅ = Ok s.
Proof.
  unfold submissible. rewrite check_loop.
  split; intros; destruct_and!; split_and!; try done. apply Forall_forall. set_solver.
Qed.

Lemma run_election_runs cs config :
  Forall candidate_wf cs → 0 ≤ validator_cap config → submissible config cs →
  ∃ res, run_election cs config = Ok res ∧ elected cs config res.
Proof.
  intros Hwf Hcap (Hc & Hne & s & Hs)%submissible_check. unfold run_election.
  rewrite (proj2 (Z.eqb_neq _ _)) by done. rewrite Hs, rbind_ret.
  assert (0 < len cs) by (unfold len; destruct cs; [done|cbn; lia]).
  pose proof (merge_sort_Permutation candidate_le cs) as Hms.
  cbv zeta. rewrite (len_Permutation _ _ Hms), (proj2 (Z.eqb_neq _ 0)) by lia.
  destruct (lookup_lt_is_Some_2 (merge_sort candidate_le cs)
    (Z.to_nat (Z.min (len cs) (validator_cap config) - 1))) as [last Hl].
  { rewrite Hms. unfold len in *. lia. }
  unfold index. rewrite (proj2 (Z.leb_le _ _)) by lia. rewrite Hl. cbn [unwrap].
  rewrite rbind_ret.
  destruct (settle_spec (Z.min (len cs) (validator_cap config)) (proposed_stake last)
    (merge_sort candidate_le cs) 0) as (res & -> & Hr & Hv & Ho & Hsum); [by rewrite Hms|done|].
  exists res. split; [done|]. exists (merge_sort candidate_le cs), last.
  rewrite (zsum_Permutation _ _ _ Hms) in Hsum. rewrite Hms in Hr, Hv. unfold len in *.
  cbv zeta. split_and!; try done; try lia. apply StronglySorted_merge_sort; apply _.
Qed.

Lemma run_election_nil config :
  0 ≤ validator_cap config → run_election [] config = Err EmptyValidatorSet.
Proof.
  intros Hcap. unfold run_election. destruct (Z.eqb_spec (validator_cap config) 0); [done|].
  cbn [foldM]. rewrite rbind_ret. cbv zeta.
  change (merge_sort candidate_le []) with (@nil CandidateValidatorSpec).
  by rewrite len_nil, (proj2 (Z.eqb_eq _ 0)) by lia.
Qed.

Lemma run_election_Ok cs config res :
  0 ≤ validator_cap config → run_election cs config = Ok res → submissible config cs.
Proof.
  intros Hcap H. destruct (decide (cs = [])) as [->|]; [by rewrite run_election_nil in H|].
  unfold run_election in H. destruct (Z.eqb_spec (validator_cap config) 0); [done|].
  apply submissible_check. res_inv. eauto.
Qed.

Lemma run_election_perm cs cs' config :
  cs ≡ₚ cs' → submissible config cs → run_election cs config = run_election cs' config.
Proof.
  intros Hp Hs. pose proof Hs as (_ & _ & _ & Hnd).
  pose proof Hs as (_ & _ & s & Hs1)%submissible_check.
  rewrite Hp in Hs. apply submissible_check in Hs as (_ & _ & s' & Hs2). unfold run_election.
  by rewrite Hs1, Hs2, !rbind_ret, (sorted_unique _ _ Hnd Hp).
Qed.

(** C13: an election never aborts. It is held exactly when the validator cap is
    positive, a candidate was submitted, all stakes are positive, all load
    factors lie in the allowed range and no key was submitted twice. Then the
    [min(n, cap)] highest candidates (ties broken by key bytes) take the seats
    in order, each locks its stake capped by the load factor times the lowest
    selected stake and gets the rest back, the others get everything back, no
    stake is lost or created, and the result does not depend on the order in
    which the candidates were submitted. *)
Theorem run_election_correct candidates config :
  Forall candidate_wf candidates → 0 ≤ validator_cap config →
  let r := run_election candidates config in
  safe r ∧
  ((∃ res, r = Ok res) ↔ submissible config candidates) ∧
  ∀ res, r = Ok res → elected candidates config res ∧
    ∀ candidates', candidates' ≡ₚ candidates → run_election candidates' config = Ok res.
Proof.
  intros Hwf Hcap r. subst r. split_and!.
  - destruct (decide (candidates = [])) as [->|Hne]; [by rewrite run_election_nil|].
    destruct (Z.eqb_spec (validator_cap config) 0) as [Hz|Hnz].
    { unfold run_election. by rewrite Hz. }
    pose proof (check_loop_safe config candidates ∅) as Hsafe.
    destruct (foldM (check_candidate config) candidates ∅) as [s|e|] eqn:Hs; [| |done].
    + destruct (run_election_runs candidates config Hwf Hcap) as (res & -> & _); [|done].
      apply submissible_check. eauto.
    + unfold run_election. by rewrite Hs, (proj2 (Z.eqb_neq _ _)) by done.
  - split; [intros [res Hr]; by eapply run_election_Ok|].
    intros Hs. destruct (run_election_runs _ _ Hwf Hcap Hs) as (res & ? & _). eauto.
  - intros res Hr. pose proof (run_election_Ok _ _ _ Hcap Hr) as Hs.
    destruct (run_election_runs _ _ Hwf Hcap Hs) as (res' & Hr' & He).
    assert (res' = res) as -> by (apply (inj (Ok (E:=ConsensusError))); congruence).
    split; [done|]. intros cs' Hp. by rewrite <-(run_election_perm candidates).
Qed.
End election_proofs.

Definition toy_vk (n : Z) : VerifyingKey (Crypto:=toy_crypto) :=
  sk_verifying_key (Crypto:=toy_crypto) n.

Definition sample_candidates : list (CandidateValidatorSpec (C:=toy_crypto)) :=
  [ {| cand_public_key := toy_vk 3; proposed_stake := 500; max_load_factor := 150 |};
    {| cand_public_key := toy_vk 2; proposed_stake := 900; max_load_factor := 200 |};
    {| cand_public_key := toy_vk 1; proposed_stake := 300; max_load_factor := 300 |} ].

Lemma run_election_correct_witness :
  let config := {| validator_cap := 2; max_load_factor_scaled := 1000 |} in
  match run_election sample_candidates config with
  | Ok r => bool_decide ((actual_stake <$> validators r) = [900; 500]) &&
            bool_decide ((amount <$> refunds r) = [0; 0; 300])
  | _ => false
  end = true ∧ safe (run_election sample_candidates config).
Proof.
  split; [by vm_compute|].
  apply (run_election_correct (C:=toy_crypto)); [|done].
  repeat constructor; cbn; lia.
Defined.

(** ** Stakes, late rewards and finality, proved *)

(** The locked stake never exceeds the proposed one; it is
    [min(s_i, l_i * s_T / 100)] while the cap fits 64 bits, and the same of the
    cap modulo [2^64] otherwise: a cap of exactly [2^64] locks nothing at all. *)
Theorem actual_stake_cap (s l m : Z) :
  in_u 64 s → in_u 16 l → in_u 64 m →
  0 ≤ calculate_actual_stake s l m ≤ s ∧
  calculate_actual_stake s l m = Z.min s ((l * m / 100) mod 2 ^ 64) ∧
  (l * m / 100 < 2 ^ 64 → calculate_actual_stake s l m = Z.min s (l * m / 100)) ∧
  (100 ≤ l → m ≤ s → l * m / 100 < 2 ^ 64 → m ≤ calculate_actual_stake s l m) ∧
  calculate_actual_stake (2 ^ 63) 200 (2 ^ 63) = 0.
Proof.
  intros Hs Hl Hm. unfold in_u in *.
  assert (calculate_actual_stake s l m = Z.min s ((l * m / 100) mod 2 ^ 64)) as Heq.
  { unfold calculate_actual_stake, saturating_mul_u, as_u. cbv zeta. do 3 f_equal.
    apply Z.min_l. apply (Z.le_trans _ (65535 * (2 ^ 64 - 1))); [|done].
    apply Z.mul_le_mono_nonneg; lia. }
  split_and!; [apply actual_stake_range; lia..|done| | |by vm_compute].
  - intros. by apply actual_stake_min.
  - intros Hl1 Hms Hc. rewrite actual_stake_min by done. apply Z.min_glb; [done|].
    apply Z.div_le_lower_bound; [done|]. apply Z.mul_le_mono_nonneg_r; lia.
Qed.

Lemma actual_stake_cap_witness :
  in_u 64 500 ∧ in_u 16 150 ∧ in_u 64 300 ∧ calculate_actual_stake 500 150 300 = Z.min 500 450.
Proof.
  split_and!; [done..|].
  apply (actual_stake_cap 500 150 300); done.
Defined.

Section quorum_proofs.
Context {C : Crypto}.

Definition vote_call : Type := BlockSignatureWithDepth * ValidatorSetEntry.

(** The tracker after a sequence of calls *)
Definition after_votes (t : BftQuorumTracker) (calls : list vote_call) : BftQuorumTracker :=
  foldl (λ t c, fst (add_vote t c.1 c.2)) t calls.

(** The vote names the validator and carries its signature of the block hash. *)
Definition vote_valid (hash : bytes) (c : vote_call) : Prop :=
  vote_validator_id c.1 = validator_id c.2 ∧
  PublicKey_verify (public_key c.2) VALIDATOR_SIGN_V1 hash (vote_signature c.1) = Ok tt.

Definition tracker_holds (hash : bytes) (total : Z) (t : BftQuorumTracker)
    (acc : list vote_call) : Prop :=
  q_block_hash t = hash ∧ total_group_stake t = total ∧
  signatories t = (λ c, vote_validator_id c.1) <$> acc ∧
  NoDup (signatories t) ∧ Forall (vote_valid hash) acc ∧
  signed_stake t = Z.min (zsum (λ c, actual_stake c.2) acc) (2 ^ 64 - 1).

Lemma vote_verify_cases (k : VerifyingKey) tag m s :
  (PublicKey_verify k tag m s = Ok tt ∧ is_err (PublicKey_verify k tag m s) = false) ∨
  (PublicKey_verify k tag m s ≠ Ok tt ∧ is_err (PublicKey_verify k tag m s) = true).
Proof. unfold PublicKey_verify. case_match; [by left|by right]. Qed.

Lemma add_vote_spec t v e :
  (vote_valid (q_block_hash t) (v, e) ∧ ¬ vote_validator_id v ∈ signatories t ∧
    add_vote t v e =
      ({| q_shard := q_shard t; q_block_hash := q_block_hash t;
          total_group_stake := total_group_stake t;
          signed_stake := saturating_add_u 64 (signed_stake t) (actual_stake e);
          signatories := signatories t ++ [vote_validator_id v] |}, Ok tt)) ∨
  ((vote_valid (q_block_hash t) (v, e) → vote_validator_id v ∈ signatories t) ∧
    fst (add_vote t v e) = t ∧ is_err (snd (add_vote t v e)) = true).
Proof.
  unfold vote_valid, add_vote. cbn [fst snd].
  destruct (Z.eqb_spec (vote_validator_id v) (validator_id e)); cbn [negb]; [|right; naive_solver].
  destruct (existsb _ _) eqn:Hex.
  { right. split; [|done]. intros _. apply existsb_exists in Hex as (x & Hx & ->%Z.eqb_eq).
    by apply list_elem_of_In. }
  assert (vote_validator_id v ∉ signatories t) as Hnin.
  { intros Hin. apply not_true_iff_false in Hex. apply Hex, existsb_exists.
    eexists. by rewrite <-list_elem_of_In, Z.eqb_refl. }
  edestruct vote_verify_cases as [[Hv ->]|[Hv ->]]; [left; by split_and!|right].
  split; [|done]. intros [_ ?]. done.
Qed.

Lemma after_votes_spec hash total calls : ∀ t acc,
  Forall (λ c, 0 ≤ actual_stake c.2) calls → Forall (λ c, 0 ≤ actual_stake c.2) acc →
  tracker_holds hash total t acc →
  ∃ acc', tracker_holds hash total (after_votes t calls) acc' ∧
    acc' ⊆ acc ++ calls ∧ acc ⊆ acc' ∧
    (∀ c, c ∈ calls → vote_valid hash c → vote_validator_id c.1 ∈ signatories (after_votes t calls)).
Proof.
  induction calls as [|[v e] calls IH]; intros t acc Hcs Hacc Ht.
  { exists acc. split_and!; [done|set_solver|done|]. intros c []%elem_of_nil. }
  apply Forall_cons in Hcs as [Hs Hcs]. cbn [snd] in Hs.
  pose proof Ht as (Hh & Htot & Hsig & Hnd & Hval & Hst).
  destruct (add_vote_spec t v e) as [(Hv & Hn & Hadd)|(Hv & Hadd & _)].
  - destruct (IH (fst (add_vote t v e)) (acc ++ [(v, e)])) as (acc' & Ht' & Hsub & Hsup & Hall).
    + done.
    + apply Forall_app. by split; [|repeat constructor].
    + rewrite Hadd. unfold tracker_holds. cbn [fst q_block_hash total_group_stake signatories
        signed_stake]. split_and!; [done|done| | | |].
      * by rewrite fmap_app, Hsig.
      * apply NoDup_app. split_and!; [done|set_solver|apply NoDup_singleton].
      * apply Forall_app. split; [done|]. apply Forall_singleton. by rewrite <-Hh.
      * rewrite Hst, zsum_app. unfold saturating_add_u. cbn [zsum foldr snd].
        assert (0 ≤ zsum (λ c, actual_stake c.2) acc)
          by (clear -Hacc; induction Hacc; cbn in *; [done|unfold zsum in *; lia]).
        lia.
    + exists acc'. cbn [after_votes foldl fst snd]. unfold after_votes in *.
      split_and!; [done|set_solver|set_solver|].
      intros c [->|Hc]%elem_of_cons Hvc; [|by apply Hall].
      destruct Ht' as (_ & _ & -> & _). apply list_elem_of_fmap. exists (v, e). set_solver.
  - destruct (IH t acc) as (acc' & Ht' & Hsub & Hsup & Hall); [done..|].
    exists acc'. cbn [after_votes foldl fst snd]. rewrite Hadd. unfold after_votes in *.
    split_and!; [done|set_solver|set_solver|].
    intros c [->|Hc]%elem_of_cons Hvc; [|by apply Hall].
    rewrite Hh in Hv. specialize (Hv Hvc). cbn [fst].
    rewrite Hsig in Hv. apply list_elem_of_fmap in Hv as (d & -> & Hd).
    destruct Ht' as (_ & _ & -> & _). apply list_elem_of_fmap. exists d. set_solver.
Qed.

(** Whatever votes are submitted in whatever order, the tracker counts
    exactly the validators of which a vote with a matching id and a verifying
    signature of the block hash was submitted, each once; the signed stake is
    the (saturating) sum of their stakes; rejected votes change nothing; and the
    quorum holds exactly when three times the signed stake reaches twice the
    total stake. *)
Theorem quorum_tracker shard hash total (calls : list vote_call) :
  Forall (λ c, 0 ≤ actual_stake c.2) calls →
  let t := after_votes (tracker_new shard hash total) calls in
  (∃ acc, acc ⊆ calls ∧ Forall (vote_valid hash) acc ∧
    signatories t = (λ c, vote_validator_id c.1) <$> acc ∧ NoDup (signatories t) ∧
    signed_stake t = Z.min (zsum (λ c, actual_stake c.2) acc) (2 ^ 64 - 1)) ∧
  (∀ c, c ∈ calls → vote_valid hash c → vote_validator_id c.1 ∈ signatories t) ∧
  (∀ c, is_err (snd (add_vote t c.1 c.2)) = true → fst (add_vote t c.1 c.2) = t) ∧
  (verify_quorum t = Ok tt ↔ 2 * total ≤ 3 * signed_stake t).
Proof.
  intros Hcs t.
  destruct (after_votes_spec hash total calls (tracker_new shard hash total) [])
    as (acc & (Hh & Htot & Hsig & Hnd & Hval & Hst) & Hsub & _ & Hall); [done|constructor| |].
  { unfold tracker_holds. cbn. by split_and!; try constructor. }
  fold t in Hh, Htot, Hsig, Hnd, Hst, Hall. split_and!; [by exists acc|done| |].
  - intros [v e] He. cbn [fst snd] in *.
    destruct (add_vote_spec t v e) as [(_ & _ & Ha)|(_ & Ha & _)]; [|done].
    by rewrite Ha in He.
  - unfold verify_quorum, has_quorum. rewrite Htot. case_match; bool_to_prop; split; lia || done.
Qed.
End quorum_proofs.

Definition sample_votes (hash : bytes) : list (vote_call (C:=toy_crypto)) :=
  (λ n, ({| vote_validator_id := n; depth := 0;
            vote_signature := SecretKey_sign (C:=toy_crypto) n VALIDATOR_SIGN_V1 hash |},
         {| validator_id := n; public_key := toy_vk n; actual_stake := 100 * n |})) <$> [1; 2; 2].

Lemma quorum_tracker_witness :
  let t := after_votes (tracker_new (shard_root 0) Uint256_ZERO 450) (sample_votes Uint256_ZERO) in
  bool_decide (signatories t = [1; 2]) = true ∧
  (verify_quorum t = Ok tt ↔ 2 * 450 ≤ 3 * signed_stake t).
Proof.
  split; [by vm_compute|].
  apply (quorum_tracker (shard_root 0) Uint256_ZERO 450 (sample_votes Uint256_ZERO)).
  repeat constructor; cbn; lia.
Defined.

(** A late signature earns nothing after 16 blocks, and otherwise the base
    reward times [(9/10)^k], rounded down, while the product fits 128 bits; it
    never exceeds the base reward and never grows with the delay, even where the
    product saturates. *)
Theorem late_reward_decay (base k : Z) :
  in_u 128 base → 0 ≤ k →
  (16 < k → calculate_late_reward base k = 0) ∧
  (k ≤ 16 → base * 9 ^ k < 2 ^ 128 →
    calculate_late_reward base k = base * 9 ^ k / 10 ^ k) ∧
  0 ≤ calculate_late_reward base k ≤ base ∧
  calculate_late_reward base (k + 1) ≤ calculate_late_reward base k.
Proof.
  intros [Hb Hb'] Hk. unfold calculate_late_reward, saturating_mul_u.
  assert (0 < 9 ^ k ∧ 9 ^ k ≤ 10 ^ k ∧ 0 < 10 ^ k) as (H9 & Hle & H10).
  { split_and!; [by apply Z.pow_pos_nonneg|apply Z.pow_le_mono_l; lia|by apply Z.pow_pos_nonneg]. }
  assert (0 ≤ base * 9 ^ k) as Hnn by (apply Z.mul_nonneg_nonneg; lia).
  set (M := 2 ^ 128 - 1) in *. assert (0 ≤ M) by done.
  assert (0 ≤ Z.min (base * 9 ^ k) M / 10 ^ k) as Hpos by (apply Z.div_pos; lia).
  split_and!.
  - intros. by rewrite (proj2 (Z.ltb_lt _ _)).
  - intros. rewrite (proj2 (Z.ltb_ge _ _)), Z.min_l by lia. done.
  - by case_match.
  - case_match; [done|]. apply Z.div_le_upper_bound; [done|].
    transitivity (base * 9 ^ k); [lia|]. rewrite (Z.mul_comm (10 ^ k)).
    by apply Z.mul_le_mono_nonneg_l.
  - destruct (Z.ltb_spec 16 (k + 1)); destruct (Z.ltb_spec 16 k); try lia.
    rewrite !Z.pow_add_r, !Z.pow_1_r, Z.mul_assoc by lia.
    rewrite <-(Z.div_mul_cancel_r (Z.min (base * 9 ^ k) M) _ 10) by lia.
    apply Z.div_le_mono; lia.
Qed.

Lemma late_reward_decay_witness :
  in_u 128 1000 ∧ calculate_late_reward 1000 (2 + 1) ≤ calculate_late_reward 1000 2 ∧
  calculate_late_reward 1000 2 = 810.
Proof.
  split_and!; [done| |by vm_compute].
  apply (late_reward_decay 1000 2); done.
Defined.
