(* ===== verification/Engine.v ===== *)
(** [onx-consensus], [engine.rs]: the round-based BFT state machine of one shard
    height. *)
From S2P Require Import Prelude Bytes Machine Primitives ToyCrypto Address Message Consensus.

Inductive VotePhase : Type := PreVote | PreCommit | Commit.

(** Observable state of the current view *)
Inductive ConsensusStep : Type :=
  | StepProposal
  | StepPreVote
  | StepPreCommit
  | StepCommit
  | StepFinalized.

#[export] Instance VotePhase_eq_dec : EqDecision VotePhase.
Proof. solve_decision. Defined.
#[export] Instance ConsensusStep_eq_dec : EqDecision ConsensusStep.
Proof. solve_decision. Defined.

Definition phase_rank (phase : VotePhase) : Z :=
  match phase with PreVote => 1 | PreCommit => 2 | Commit => 3 end.

#[export] Instance VotePhase_countable : Countable VotePhase.
Proof.
  apply (inj_countable' phase_rank (λ n, if n =? 1 then PreVote else if n =? 2 then PreCommit else Commit)).
  by intros [].
Defined.

Record RoundTimeouts : Type := { t_proposal : Z; t_prevote : Z; t_precommit : Z; t_commit : Z }.
Definition RoundTimeouts_default : RoundTimeouts :=
  {| t_proposal := 3; t_prevote := 3; t_precommit := 3; t_commit := 3 |}.

Record ConsensusProposal : Type := {
  p_height : Z;
  p_round : Z;
  p_block_hash : bytes;
  proposer_id : Z;
  p_signature : bytes;
}.

Record ConsensusVote : Type := {
  v_height : Z;
  v_round : Z;
  v_phase : VotePhase;
  v_block_hash : bytes;
  v_validator_id : Z;
  v_signature : bytes;
}.

Record FinalizedBlock : Type := {
  f_height : Z;
  f_round : Z;
  f_block_hash : bytes;
  commit_votes : list ConsensusVote;
}.

#[export] Instance ConsensusVote_eq_dec : EqDecision ConsensusVote.
Proof. solve_decision. Defined.

Definition proposal_signing_bytes (shard : ShardIdent) (height round : Z) (hash : bytes) : bytes :=
  String.list_byte_of_string "ONX_CATCHAIN_PROPOSAL_V1" ++ shard_to_bytes shard ++ be_bytes 8 height ++
  be_bytes 4 round ++ hash.

Definition vote_signing_bytes (shard : ShardIdent) (height round : Z) (phase : VotePhase)
    (hash : bytes) : bytes :=
  String.list_byte_of_string "ONX_CATCHAIN_VOTE_V1" ++ shard_to_bytes shard ++ be_bytes 8 height ++
  be_bytes 4 round ++
  [byte_of (match phase with PreVote => 1 | PreCommit => 2 | Commit => 3 end)] ++ hash.

(** The keys of a [BTreeMap<u32, _>], ascending *)
Definition btree_keys {A} (m : gmap Z A) : list Z := merge_sort Z.le (elements (dom m)).

(** The values of a [BTreeMap<u32, _>], in key order *)
Definition btree_values {A} (m : gmap Z A) : list A := omap (m !!.) (btree_keys m).

Section engine.
Context {C : Crypto}.

Record ConsensusEngine : Type := {
  e_shard : ShardIdent;
  e_height : Z;
  e_validators : gmap Z ValidatorSetEntry;
  e_total_stake : Z;
  e_timeouts : RoundTimeouts;
  e_round_started_at : Z;
  e_round : Z;
  e_step : ConsensusStep;
  e_proposal : option ConsensusProposal;
  e_votes : gmap VotePhase (gmap Z ConsensusVote);
  e_finalized : option FinalizedBlock;
}.

(** The registration loop of [new] *)
Definition add_validator (v : ValidatorSetEntry) (acc : gmap Z ValidatorSetEntry * Z) :
    result ConsensusError (gmap Z ValidatorSetEntry * Z) :=
  let '(entries, total) := acc in
  match entries !! validator_id v with
  | Some _ => Err DuplicateCandidate
  | None => Ok (<[ validator_id v := v ]> entries, saturating_add_u 64 total (actual_stake v))
  end.

Definition engine_new (shard : ShardIdent) (height : Z) (vs : list ValidatorSetEntry)
    (now : Z) (timeouts : RoundTimeouts) : result ConsensusError ConsensusEngine :=
  let? acc := foldM add_validator vs (∅, 0) in
  let '(entries, total) := acc in
  if bool_decide (entries = ∅) || (total =? 0) then Err EmptyValidatorSet
  else Ok {| e_shard := shard; e_height := height; e_validators := entries;
             e_total_stake := total; e_timeouts := timeouts; e_round_started_at := now;
             e_round := 0; e_step := StepProposal; e_proposal := None; e_votes := ∅;
             e_finalized := None |}.

Implicit Type e : ConsensusEngine.

(** Aborts without validators *)
Definition leader (e : ConsensusEngine) : result ConsensusError Z :=
  let ks := btree_keys (e_validators e) in
  if len ks =? 0 then Panic else index ks (e_round e mod len ks).

Definition vote_stake (e : ConsensusEngine) (phase : VotePhase) : Z :=
  foldl (λ total v, saturating_add_u 64 total (actual_stake v)) 0
    (omap (e_validators e !!.)
       (match e_votes e !! phase with Some v => btree_keys v | None => [] end)).

Definition has_supermajority (e : ConsensusEngine) (phase : VotePhase) : bool :=
  e_total_stake e * 2 <=? vote_stake e phase * 3.

Definition set_step (s : ConsensusStep) (e : ConsensusEngine) : ConsensusEngine :=
  {| e_shard := e_shard e; e_height := e_height e; e_validators := e_validators e;
     e_total_stake := e_total_stake e; e_timeouts := e_timeouts e;
     e_round_started_at := e_round_started_at e; e_round := e_round e; e_step := s;
     e_proposal := e_proposal e; e_votes := e_votes e; e_finalized := e_finalized e |}.

Definition set_proposal (p : option ConsensusProposal) (e : ConsensusEngine) : ConsensusEngine :=
  {| e_shard := e_shard e; e_height := e_height e; e_validators := e_validators e;
     e_total_stake := e_total_stake e; e_timeouts := e_timeouts e;
     e_round_started_at := e_round_started_at e; e_round := e_round e; e_step := e_step e;
     e_proposal := p; e_votes := e_votes e; e_finalized := e_finalized e |}.

Definition set_votes (vs : gmap VotePhase (gmap Z ConsensusVote)) (e : ConsensusEngine) :
    ConsensusEngine :=
  {| e_shard := e_shard e; e_height := e_height e; e_validators := e_validators e;
     e_total_stake := e_total_stake e; e_timeouts := e_timeouts e;
     e_round_started_at := e_round_started_at e; e_round := e_round e; e_step := e_step e;
     e_proposal := e_proposal e; e_votes := vs; e_finalized := e_finalized e |}.

Definition set_finalized (f : option FinalizedBlock) (e : ConsensusEngine) : ConsensusEngine :=
  {| e_shard := e_shard e; e_height := e_height e; e_validators := e_validators e;
     e_total_stake := e_total_stake e; e_timeouts := e_timeouts e;
     e_round_started_at := e_round_started_at e; e_round := e_round e; e_step := e_step e;
     e_proposal := e_proposal e; e_votes := e_votes e; e_finalized := f |}.

Definition set_round (r now : Z) (e : ConsensusEngine) : ConsensusEngine :=
  {| e_shard := e_shard e; e_height := e_height e; e_validators := e_validators e;
     e_total_stake := e_total_stake e; e_timeouts := e_timeouts e; e_round_started_at := now;
     e_round := r; e_step := e_step e; e_proposal := e_proposal e; e_votes := e_votes e;
     e_finalized := e_finalized e |}.

(** [receive_proposal]: the engine after an accepted proposal; a refused one
    leaves it as it was. *)
Definition receive_proposal (e : ConsensusEngine) (p : ConsensusProposal) :
    result ConsensusError ConsensusEngine :=
  if bool_decide (e_step e = StepFinalized) then Err InvalidStep
  else if negb (p_height p =? e_height e) || negb (p_round p =? e_round e)
  then Err InvalidRound
  else
    let? l := leader e in
    if negb (proposer_id p =? l) then Err InvalidLeader
    else
      let? proposer := ok_or (e_validators e !! proposer_id p) UnknownValidator in
      let? _ := map_err (λ _, InvalidSignature)
        (PublicKey_verify (public_key proposer) VALIDATOR_SIGN_V1
           (proposal_signing_bytes (e_shard e) (p_height p) (p_round p) (p_block_hash p))
           (p_signature p)) in
      match e_proposal e with
      | Some old =>
          if bool_decide (p_block_hash old = p_block_hash p) then Ok e
          else Err ConflictingProposal
      | None => Ok (set_step StepPreVote (set_proposal (Some p) e))
      end.

(** Aborts when no proposal is held at a commit quorum *)
Definition advance_after_quorum (e : ConsensusEngine) (phase : VotePhase) :
    result ConsensusError ConsensusEngine :=
  match phase with
  | PreVote => Ok (set_step StepPreCommit e)
  | PreCommit => Ok (set_step StepCommit e)
  | Commit =>
      let commits := btree_values (default ∅ (e_votes e !! Commit)) in
      let e := set_votes (delete Commit (e_votes e)) e in
      let? p := unwrap (e_proposal e) in
      Ok (set_step StepFinalized
            (set_finalized
               (Some {| f_height := e_height e; f_round := e_round e;
                        f_block_hash := p_block_hash p; commit_votes := commits |}) e))
  end.

Definition expected_phase (s : ConsensusStep) : option VotePhase :=
  match s with
  | StepPreVote => Some PreVote
  | StepPreCommit => Some PreCommit
  | StepCommit => Some Commit
  | _ => None
  end.

(** [receive_vote]: the engine after an accepted vote; a refused one leaves it
    as it was (the bucket that [entry] may create is only refused when it
    already holds a vote). *)
Definition receive_vote (e : ConsensusEngine) (v : ConsensusVote) :
    result ConsensusError ConsensusEngine :=
  if negb (v_height v =? e_height e) || negb (v_round v =? e_round e) then Err InvalidRound
  else if negb (bool_decide ((p_block_hash <$> e_proposal e) = Some (v_block_hash v)))
  then Err ConflictingProposal
  else
    let? expected := ok_or (expected_phase (e_step e)) InvalidStep in
    let? validator := ok_or (e_validators e !! v_validator_id v) UnknownValidator in
    let? _ := map_err (λ _, InvalidSignature)
      (PublicKey_verify (public_key validator) VALIDATOR_SIGN_V1
         (vote_signing_bytes (e_shard e) (v_height v) (v_round v) (v_phase v) (v_block_hash v))
         (v_signature v)) in
    if negb (bool_decide (v_phase v = expected)) then
      if phase_rank (v_phase v) <? phase_rank expected then Ok e else Err InvalidStep
    else
      let bucket := default ∅ (e_votes e !! v_phase v) in
      match bucket !! v_validator_id v with
      | Some _ => Err DuplicateValidatorSignature
      | None =>
          let e := set_votes (<[ v_phase v := <[ v_validator_id v := v ]> bucket ]> (e_votes e)) e in
          if has_supermajority e expected then advance_after_quorum e expected else Ok e
      end.

Definition timeout_for_step (e : ConsensusEngine) : Z :=
  match e_step e with
  | StepProposal => t_proposal (e_timeouts e)
  | StepPreVote => t_prevote (e_timeouts e)
  | StepPreCommit => t_precommit (e_timeouts e)
  | StepCommit => t_commit (e_timeouts e)
  | StepFinalized => 2 ^ 64 - 1
  end.

Definition on_timeout (e : ConsensusEngine) (now : Z) : bool * ConsensusEngine :=
  if bool_decide (e_step e = StepFinalized)
     || (saturating_sub_u now (e_round_started_at e) <? timeout_for_step e)
  then (false, e)
  else (true, set_votes ∅ (set_proposal None (set_step StepProposal
               (set_round (saturating_add_u 32 (e_round e) 1) now e)))).

(** What a caller can do to an engine *)
Inductive engine_event : Type :=
  | EvProposal (p : ConsensusProposal)
  | EvVote (v : ConsensusVote)
  | EvTimeout (now : Z).

(** The engine after an event: a refused message leaves it as it was. *)
Definition engine_step (e : ConsensusEngine) (ev : engine_event) : result ConsensusError ConsensusEngine :=
  match ev with
  | EvProposal p => match receive_proposal e p with Err _ => Ok e | r => r end
  | EvVote v => match receive_vote e v with Err _ => Ok e | r => r end
  | EvTimeout now => Ok (snd (on_timeout e now))
  end.

Definition engine_run (evs : list engine_event) (e : ConsensusEngine) : result ConsensusError ConsensusEngine :=
  foldM (λ ev e, engine_step e ev) evs e.
End engine.

(** ** Weights of sets of validators *)

Section weights.
Context (w : Z → Z) (Hw : ∀ i, 0 ≤ w i).

Definition weight (X : gset Z) : Z := zsum w (elements X).

Lemma weight_nonneg X : 0 ≤ weight X.
Proof. unfold weight, zsum. induction (elements X) as [|i l IH]; cbn; [done|specialize (Hw i); lia]. Qed.

Lemma weight_disj_union X Y : X ## Y → weight (X ∪ Y) = weight X + weight Y.
Proof.
  intros H. unfold weight. by rewrite (zsum_Permutation _ _ _ (elements_disj_union X Y H)), zsum_app.
Qed.

Lemma weight_subseteq X Y : X ⊆ Y → weight X ≤ weight Y.
Proof.
  intros H. rewrite (union_difference_L X Y H), weight_disj_union by set_solver.
  pose proof (weight_nonneg (Y ∖ X)). lia.
Qed.

Lemma weight_union_intersection X Y : weight (X ∪ Y) + weight (X ∩ Y) = weight X + weight Y.
Proof.
  assert (X ∪ Y = (X ∖ Y) ∪ Y) as -> by (apply set_eq; intros i; destruct (decide (i ∈ Y)); set_solver).
  rewrite weight_disj_union by set_solver.
  assert (X = (X ∖ Y) ∪ (X ∩ Y)) as HX by (apply set_eq; intros i; destruct (decide (i ∈ Y)); set_solver).
  rewrite HX at 3. rewrite weight_disj_union by set_solver. lia.
Qed.

(** Two sets of two thirds of the total share a third of it. *)
Lemma quorum_intersection X Y U :
  X ⊆ U → Y ⊆ U → 2 * weight U ≤ 3 * weight X → 2 * weight U ≤ 3 * weight Y →
  weight U ≤ 3 * weight (X ∩ Y).
Proof.
  intros HX HY ? ?. pose proof (weight_union_intersection X Y).
  pose proof (weight_subseteq (X ∪ Y) U ltac:(set_solver)). lia.
Qed.

Lemma weight_empty : weight ∅ = 0.
Proof. unfold weight. by rewrite elements_empty. Qed.

Lemma weight_insert i X : i ∉ X → weight ({[ i ]} ∪ X) = w i + weight X.
Proof.
  intros H. rewrite weight_disj_union by set_solver. unfold weight at 1.
  rewrite elements_singleton. cbn. lia.
Qed.
End weights.

Lemma weight_ext w w' X : (∀ i, i ∈ X → w i = w' i) → weight w X = weight w' X.
Proof.
  intros H. unfold weight, zsum. assert (∀ i, i ∈ elements X → w i = w' i) as H'.
  { intros i Hi. apply H. by apply elem_of_elements. }
  clear H. induction (elements X) as [|i l IH]; cbn; [done|].
  rewrite H' by constructor. rewrite IH; [done|]. intros j Hj. apply H'. by constructor.
Qed.

Lemma saturating_sum {A} (f : A → Z) l : ∀ acc,
  (∀ x, x ∈ l → 0 ≤ f x) → 0 ≤ acc →
  foldl (λ t x, saturating_add_u 64 t (f x)) (Z.min acc (2 ^ 64 - 1)) l =
    Z.min (acc + zsum f l) (2 ^ 64 - 1).
Proof.
  induction l as [|x l IH]; intros acc Hl Hacc; cbn [foldl]; [unfold zsum; cbn [foldr]; f_equal; lia|].
  assert (0 ≤ f x) by (apply Hl; constructor).
  assert (saturating_add_u 64 (Z.min acc (2 ^ 64 - 1)) (f x) = Z.min (acc + f x) (2 ^ 64 - 1)) as ->.
  { unfold saturating_add_u. lia. }
  rewrite IH; [unfold zsum; cbn [foldr]; f_equal; lia| |lia]. intros y Hy. apply Hl. by constructor.
Qed.

Lemma btree_keys_Permutation {A} (m : gmap Z A) : btree_keys m ≡ₚ elements (dom m).
Proof. unfold btree_keys. by rewrite merge_sort_Permutation. Qed.

Lemma elem_of_btree_keys {A} (m : gmap Z A) i : i ∈ btree_keys m ↔ is_Some (m !! i).
Proof. by rewrite btree_keys_Permutation, elem_of_elements, elem_of_dom. Qed.

Lemma elem_of_btree_values {A} (m : gmap Z A) x : x ∈ btree_values m ↔ ∃ i, m !! i = Some x.
Proof.
  unfold btree_values. rewrite list_elem_of_omap. split; [naive_solver|].
  intros [i Hi]. exists i. by rewrite elem_of_btree_keys, Hi.
Qed.

(** Values that carry their own key *)
Lemma btree_values_keys {A} (k : A → Z) (m : gmap Z A) :
  (∀ i x, m !! i = Some x → k x = i) → k <$> btree_values m = btree_keys m.
Proof.
  intros Hk. unfold btree_values.
  assert (∀ i, i ∈ btree_keys m → is_Some (m !! i)) as H by (intros; by apply elem_of_btree_keys).
  induction (btree_keys m) as [|i l IH]; [done|].
  destruct (H i) as [x Hx]; [constructor|]. cbn. rewrite Hx. cbn. rewrite (Hk _ _ Hx).
  f_equal. apply IH. intros j Hj. apply H. by constructor.
Qed.

(** ** Signing bytes *)

(** The fields of a signed message before its last one *)
Lemma signed_fields_inj s s' h h' r r' k k' :
  ShardIdent_wf s → ShardIdent_wf s' → in_u 64 h → in_u 64 h' → in_u 32 r → in_u 32 r' →
  shard_to_bytes s ++ be_bytes 8 h ++ be_bytes 4 r ++ k =
    shard_to_bytes s' ++ be_bytes 8 h' ++ be_bytes 4 r' ++ k' →
  s = s' ∧ h = h' ∧ r = r' ∧ k = k'.
Proof.
  intros Hs Hs' Hh Hh' Hr Hr' H.
  apply app_inj_len in H as [H1 H]; [|by autorewrite with len].
  apply app_inj_len in H as [H2 H]; [|by rewrite !len_be_bytes].
  apply app_inj_len in H as [H3 H]; [|by rewrite !len_be_bytes].
  split_and!; [exact (codec_enc_inj _ _ shard_from_bytes _ _ Hs Hs' H1)
    |by apply (be_bytes_inj_u 8)|by apply (be_bytes_inj_u 4)|done].
Qed.

(** What a validator signs determines everything it signs for: two votes
    with equal signing bytes agree on shard, height, round, phase and block, two
    proposals on shard, height, round and block, and no vote has the signing
    bytes of a proposal. A signature is never valid for another phase, view or
    kind of message by reuse of its bytes. *)
Theorem signing_bytes_separate s s' h h' r r' ph ph' b b' :
  ShardIdent_wf s → ShardIdent_wf s' → in_u 64 h → in_u 64 h' → in_u 32 r → in_u 32 r' →
  (vote_signing_bytes s h r ph b = vote_signing_bytes s' h' r' ph' b' →
    s = s' ∧ h = h' ∧ r = r' ∧ ph = ph' ∧ b = b') ∧
  (proposal_signing_bytes s h r b = proposal_signing_bytes s' h' r' b' →
    s = s' ∧ h = h' ∧ r = r' ∧ b = b') ∧
  vote_signing_bytes s h r ph b ≠ proposal_signing_bytes s' h' r' b'.
Proof.
  intros Hs Hs' Hh Hh' Hr Hr'. split_and!.
  - intros H%app_inv_head. apply signed_fields_inj in H as (-> & -> & -> & H); [|done..].
    split_and!; [done..| |]; destruct ph, ph'; simplify_eq/=; done.
  - intros H%app_inv_head. by apply signed_fields_inj in H as (-> & -> & -> & ->).
  - intros H%(f_equal (take 14)). unfold vote_signing_bytes, proposal_signing_bytes in H.
    cbn in H. discriminate.
Qed.

Lemma root_wf : ShardIdent_wf (shard_root 0).
Proof. unfold ShardIdent_wf. split; [done|]. exists 0, 0. unfold shard_prefix. done. Qed.

Lemma signing_bytes_separate_witness :
  let s := shard_root 0 in
  ShardIdent_wf s ∧ in_u 64 7 ∧ in_u 32 2 ∧
  vote_signing_bytes s 7 2 Commit Uint256_ZERO ≠ proposal_signing_bytes s 7 2 Uint256_ZERO.
Proof.
  split_and!; [apply root_wf|done..|].
  apply (signing_bytes_separate (shard_root 0) (shard_root 0) 7 7 2 2 Commit Commit);
    done || apply root_wf.
Defined.

(** ** The invariant of an engine *)

Section engine_proofs.
Context {C : Crypto}.
Implicit Types (e : ConsensusEngine) (ph : VotePhase).

Definition stake_at (vs : gmap Z ValidatorSetEntry) (i : Z) : Z :=
  match vs !! i with Some v => actual_stake v | None => 0 end.

Definition registry_wf (vs : gmap Z ValidatorSetEntry) : Prop :=
  map_Forall (λ i v, validator_id v = i ∧ 0 ≤ actual_stake v) vs.

Lemma stake_at_nonneg vs i : registry_wf vs → 0 ≤ stake_at vs i.
Proof. intros H. unfold stake_at. destruct (vs !! i) eqn:E; [by apply (H i)|done]. Qed.

(** The stake of a set of validators *)
Definition stake_of (vs : gmap Z ValidatorSetEntry) (X : gset Z) : Z := weight (stake_at vs) X.

Definition bucket e ph : gmap Z ConsensusVote := default ∅ (e_votes e !! ph).

Lemma vote_stake_weight e ph :
  registry_wf (e_validators e) →
  vote_stake e ph = Z.min (stake_of (e_validators e) (dom (bucket e ph))) (2 ^ 64 - 1).
Proof.
  intros Hwf. unfold vote_stake, bucket.
  assert (match e_votes e !! ph with Some v => btree_keys v | None => [] end =
    btree_keys (default ∅ (e_votes e !! ph))) as -> by by destruct (e_votes e !! ph).
  generalize (default ∅ (e_votes e !! ph)). intros b.
  change 0 with (Z.min 0 (2 ^ 64 - 1)) at 1. rewrite (saturating_sum actual_stake); [|..|done].
  - f_equal. unfold stake_of, weight.
    rewrite <-(zsum_Permutation _ _ _ (btree_keys_Permutation b)).
    induction (btree_keys b) as [|i l IH]; [done|]. cbn in *. unfold stake_at at 1.
    destruct (e_validators e !! i); cbn; unfold zsum in *; lia.
  - intros x (i & _ & Hi)%list_elem_of_omap. by apply (Hwf i).
Qed.

(** The vote carries a verifying signature of a registered validator. *)
Definition vote_signed e (v : ConsensusVote) : Prop :=
  ∃ val, e_validators e !! v_validator_id v = Some val ∧
    PublicKey_verify (public_key val) VALIDATOR_SIGN_V1
      (vote_signing_bytes (e_shard e) (v_height v) (v_round v) (v_phase v) (v_block_hash v))
      (v_signature v) = Ok tt.

(** The vote is for phase [ph] of the current round and the proposed block. *)
Definition vote_for e ph (v : ConsensusVote) : Prop :=
  v_height v = e_height e ∧ v_round v = e_round e ∧ v_phase v = ph ∧
  p_block_hash <$> e_proposal e = Some (v_block_hash v) ∧ vote_signed e v.

Definition proposal_for e (p : ConsensusProposal) : Prop :=
  p_height p = e_height e ∧ p_round p = e_round e ∧ leader e = Ok (proposer_id p) ∧
  ∃ val, e_validators e !! proposer_id p = Some val ∧
    PublicKey_verify (public_key val) VALIDATOR_SIGN_V1
      (proposal_signing_bytes (e_shard e) (p_height p) (p_round p) (p_block_hash p))
      (p_signature p) = Ok tt.

(** A finalized block with votes of distinct validators holding two thirds of
    the stake *)
Definition certified e (f : FinalizedBlock) : Prop :=
  f_height f = e_height e ∧ f_round f = e_round e ∧
  p_block_hash <$> e_proposal e = Some (f_block_hash f) ∧
  NoDup (v_validator_id <$> commit_votes f) ∧
  Forall (vote_for e Commit) (commit_votes f) ∧
  2 * e_total_stake e ≤
    3 * Z.min (stake_of (e_validators e) (list_to_set (v_validator_id <$> commit_votes f)))
          (2 ^ 64 - 1).

Definition step_rank (s : ConsensusStep) : Z :=
  match s with
  | StepProposal => 0 | StepPreVote => 1 | StepPreCommit => 2 | StepCommit => 3 | StepFinalized => 4
  end.

Record engine_inv e : Prop := {
  inv_registry : registry_wf (e_validators e);
  inv_total : e_total_stake e =
    Z.min (stake_of (e_validators e) (dom (e_validators e))) (2 ^ 64 - 1);
  inv_nonempty : e_validators e ≠ ∅ ∧ 0 < e_total_stake e;
  inv_step : e_proposal e = None ↔ e_step e = StepProposal;
  inv_proposal : ∀ p, e_proposal e = Some p → proposal_for e p;
  inv_votes : ∀ ph i v, bucket e ph !! i = Some v → v_validator_id v = i ∧ vote_for e ph v;
  inv_future : ∀ ph, step_rank (e_step e) < phase_rank ph → bucket e ph = ∅;
  inv_past : ∀ ph, phase_rank ph < step_rank (e_step e) → ph ≠ Commit →
    has_supermajority e ph = true;
  inv_current : ∀ ph, expected_phase (e_step e) = Some ph → has_supermajority e ph = false;
  inv_finalized : match e_finalized e with
    | Some f => e_step e = StepFinalized ∧ certified e f
    | None => e_step e ≠ StepFinalized end;
}.

Lemma no_votes_no_quorum e ph :
  registry_wf (e_validators e) → 0 < e_total_stake e → bucket e ph = ∅ →
  has_supermajority e ph = false.
Proof.
  intros Hwf Ht Hb. unfold has_supermajority. rewrite vote_stake_weight, Hb, dom_empty_L by done.
  unfold stake_of. rewrite weight_empty. apply Z.leb_gt. lia.
Qed.

Lemma leader_in e :
  e_validators e ≠ ∅ → ∃ l v, leader e = Ok l ∧ e_validators e !! l = Some v.
Proof.
  intros Hne. unfold leader. cbv zeta.
  assert (0 < len (btree_keys (e_validators e))) as Hl.
  { apply map_choose in Hne as (i & x & Hi).
    assert (i ∈ btree_keys (e_validators e)) as Hin by (apply elem_of_btree_keys; eauto).
    destruct (btree_keys (e_validators e)); [by apply elem_of_nil in Hin|].
    unfold len. cbn. lia. }
  rewrite (proj2 (Z.eqb_neq _ _)) by lia.
  pose proof (Z.mod_pos_bound (e_round e) _ Hl) as Hm.
  unfold index. rewrite (proj2 (Z.leb_le _ _)) by lia.
  destruct (lookup_lt_is_Some_2 (btree_keys (e_validators e))
    (Z.to_nat (e_round e mod len (btree_keys (e_validators e))))) as [l Hlk].
  { unfold len in *. lia. }
  rewrite Hlk. cbn. assert (l ∈ btree_keys (e_validators e)) as [v Hv]%elem_of_btree_keys.
  { by eapply list_elem_of_lookup_2. }
  eauto.
Qed.

(** Registration *)
Lemma add_validators vs : ∀ entries total,
  registry_wf entries → Forall (λ v, 0 ≤ actual_stake v) vs →
  total = Z.min (stake_of entries (dom entries)) (2 ^ 64 - 1) →
  safe (foldM add_validator vs (entries, total)) ∧
  ∀ entries' total', foldM add_validator vs (entries, total) = Ok (entries', total') →
    registry_wf entries' ∧ total' = Z.min (stake_of entries' (dom entries')) (2 ^ 64 - 1) ∧
    dom entries' = dom entries ∪ list_to_set (validator_id <$> vs).
Proof.
  induction vs as [|v vs IH]; intros entries total Hwf Hvs Ht.
  { split; [done|]. intros ? ? [= <- <-]. split_and!; [done|done|set_solver]. }
  apply Forall_cons in Hvs as [Hv Hvs]. cbn [foldM add_validator].
  destruct (entries !! validator_id v) eqn:He; [done|].
  rewrite rbind_ret.
  assert (registry_wf (<[ validator_id v := v ]> entries)) as Hwf'
    by (apply map_Forall_insert_2; done).
  edestruct (IH (<[ validator_id v := v ]> entries)
    (saturating_add_u 64 total (actual_stake v))) as [Hs Hok]; [|done| |split; [done|]].
  - done.
  - rewrite dom_insert_L. unfold stake_of.
    rewrite weight_insert; [|intros j; by apply stake_at_nonneg|by apply not_elem_of_dom].
    unfold stake_at at 1.
    rewrite lookup_insert_eq.
    rewrite (weight_ext (stake_at (<[ validator_id v := v ]> entries)) (stake_at entries)).
    + rewrite Ht. unfold saturating_add_u, stake_of. lia.
    + intros i Hi. unfold stake_at. rewrite lookup_insert_ne; [done|]. intros <-.
      by apply not_elem_of_dom in He.
  - intros ? ? H. apply Hok in H as (? & ? & Hd). split_and!; [done|done|].
    rewrite Hd, dom_insert_L, fmap_cons, list_to_set_cons. set_solver.
Qed.

Lemma engine_new_inv shard height vs now to :
  Forall (λ v, 0 ≤ actual_stake v) vs →
  safe (engine_new shard height vs now to) ∧
  ∀ e, engine_new shard height vs now to = Ok e →
    engine_inv e ∧ e_shard e = shard ∧ e_height e = height ∧
    dom (e_validators e) = list_to_set (validator_id <$> vs).
Proof.
  intros Hvs. unfold engine_new.
  destruct (add_validators vs ∅ 0) as [Hs Hok]; [done|done| |].
  { unfold stake_of. by rewrite dom_empty_L, weight_empty. }
  split.
  - apply rbind_safe; [done|]. intros [entries total] _. eauto with res.
  - intros e ([entries total] & Hf & He)%rbind_Ok. apply Hok in Hf as (Hwf & Ht & Hd).
    destruct (bool_decide (entries = ∅)) eqn:Hne; [done|].
    destruct (Z.eqb_spec total 0); [done|]. cbn [orb] in He. simplify_eq.
    apply bool_decide_eq_false in Hne. split_and!; [|done|done|cbn; set_solver].
    assert (0 ≤ stake_of entries (dom entries)) as Hnn.
    { apply weight_nonneg. intros i. by apply stake_at_nonneg. }
    split; cbn; try done.
    + split; [done|]. lia.
    + by intros [].
Qed.

Definition same_config e e' : Prop :=
  e_shard e' = e_shard e ∧ e_height e' = e_height e ∧ e_validators e' = e_validators e ∧
  e_total_stake e' = e_total_stake e.

Lemma verify_err_Ok (k : VerifyingKey) tag m sig u :
  map_err (λ _, InvalidSignature) (PublicKey_verify k tag m sig) = Ok u ↔
  PublicKey_verify k tag m sig = Ok tt.
Proof. rewrite map_err_Ok. by destruct u. Qed.

Lemma verify_safe (k : VerifyingKey) tag m sig : safe (PublicKey_verify k tag m sig).
Proof. unfold PublicKey_verify. eauto with res. Qed.

Lemma no_bucket e ph : engine_inv e → e_step e = StepProposal → bucket e ph = ∅.
Proof. intros He Hs. apply inv_future; [done|]. rewrite Hs. by destruct ph. Qed.

Lemma receive_proposal_inv e p :
  engine_inv e →
  safe (receive_proposal e p) ∧
  ∀ e', receive_proposal e p = Ok e' → engine_inv e' ∧ same_config e e'.
Proof.
  intros He. destruct (leader_in e (proj1 (inv_nonempty _ He))) as (l & lv & Hl & Hlv).
  unfold receive_proposal. rewrite Hl, rbind_ret. split.
  { repeat (case_match || apply rbind_safe || intros); try done; eauto using verify_safe with res. }
  intros e' H. case_bool_decide as Hfin; [done|].
  destruct (Z.eqb_spec (p_height p) (e_height e)) as [Hh|]; [|done].
  destruct (Z.eqb_spec (p_round p) (e_round e)) as [Hr|]; [|done]. cbn [negb orb] in H.
  destruct (Z.eqb_spec (proposer_id p) l) as [Hp|]; [|done]. cbn [negb] in H.
  rewrite Hp, Hlv in H. cbn [ok_or] in H. rewrite rbind_ret in H.
  apply rbind_Ok in H as (u & Hv%verify_err_Ok & H).
  destruct (e_proposal e) as [old|] eqn:Hold.
  { case_bool_decide; [|done]. by simplify_eq. }
  pose proof (proj1 (inv_step _ He) Hold) as Hstep. simplify_eq. split; [|done].
  destruct (inv_nonempty _ He) as [Hne Ht].
  split; cbn [e_validators e_total_stake e_proposal e_step e_finalized set_step set_proposal
    step_rank expected_phase].
  - apply He.
  - apply He.
  - done.
  - done.
  - intros p' [= <-]. split_and!; [done|done|done|]. by exists lv.
  - intros ph i v Hv'. change (bucket e ph !! i = Some v) in Hv'. by rewrite no_bucket in Hv'.
  - intros ph _. by apply (no_bucket e).
  - by intros [].
  - intros ph [= <-]. apply no_votes_no_quorum; [apply He|done|by apply (no_bucket e)].
  - pose proof (inv_finalized _ He) as Hf. destruct (e_finalized e); [|done].
    by destruct Hf as [? _].
Qed.

(** The engine with one more vote *)
Definition with_vote e (v : ConsensusVote) : ConsensusEngine :=
  set_votes (<[ v_phase v := <[ v_validator_id v := v ]> (bucket e (v_phase v)) ]> (e_votes e)) e.

Lemma with_vote_bucket e v ph :
  bucket (with_vote e v) ph =
    if decide (v_phase v = ph) then <[ v_validator_id v := v ]> (bucket e ph) else bucket e ph.
Proof.
  unfold bucket at 1, with_vote. cbn [e_votes set_votes].
  case_decide as H; [subst; by rewrite lookup_insert_eq|by rewrite lookup_insert_ne].
Qed.

Lemma supermajority_ext e e' ph :
  e_validators e' = e_validators e → e_total_stake e' = e_total_stake e →
  e_votes e' !! ph = e_votes e !! ph → has_supermajority e' ph = has_supermajority e ph.
Proof. intros H1 H2 H3. unfold has_supermajority, vote_stake. by rewrite H1, H2, H3. Qed.

Lemma with_vote_other e v ph :
  v_phase v ≠ ph → has_supermajority (with_vote e v) ph = has_supermajority e ph.
Proof. intros H. apply supermajority_ext; [done..|]. by apply lookup_insert_ne. Qed.

Lemma with_vote_votes e v ph i w :
  engine_inv e → vote_for e (v_phase v) v → bucket (with_vote e v) ph !! i = Some w →
  v_validator_id w = i ∧ vote_for e ph w.
Proof.
  intros He Hv. rewrite with_vote_bucket. case_decide as Hph; [|by apply inv_votes].
  intros [[<- <-]|[_ ?]]%lookup_insert_Some; [by rewrite <-Hph|by apply inv_votes].
Qed.

(** A commit quorum makes a certificate. *)
Lemma commit_certificate e f :
  registry_wf (e_validators e) →
  (∀ i w, bucket e Commit !! i = Some w → v_validator_id w = i ∧ vote_for e Commit w) →
  has_supermajority e Commit = true →
  f_height f = e_height e → f_round f = e_round e →
  p_block_hash <$> e_proposal e = Some (f_block_hash f) →
  commit_votes f = btree_values (bucket e Commit) → certified e f.
Proof.
  intros Hwf Hb Hq Hh Hr Hp Hc.
  assert (v_validator_id <$> commit_votes f = btree_keys (bucket e Commit)) as Hids.
  { rewrite Hc. apply btree_values_keys. intros i x Hx. by apply Hb. }
  split_and!; [done..| | |].
  - rewrite Hids, btree_keys_Permutation. apply NoDup_elements.
  - apply Forall_forall. intros w. rewrite Hc, elem_of_btree_values. intros [i Hi]. by apply (Hb i).
  - unfold has_supermajority in Hq. rewrite vote_stake_weight in Hq by done. bool_to_prop.
    rewrite Hids, btree_keys_Permutation, list_to_set_elements_L. lia.
Qed.

Lemma phase_rank_inj ph ph' : phase_rank ph = phase_rank ph' → ph = ph'.
Proof. by destruct ph, ph'. Qed.

(** A vote the engine takes into the bucket of its current phase *)
Record taken e (v : ConsensusVote) : Prop := {
  tk_inv : engine_inv e;
  tk_phase : expected_phase (e_step e) = Some (v_phase v);
  tk_for : vote_for e (v_phase v) v;
}.

Section taken_vote.
Context (e : ConsensusEngine) (v : ConsensusVote) (Htk : taken e v).

Lemma taken_rank : phase_rank (v_phase v) = step_rank (e_step e).
Proof.
  pose proof (tk_phase _ _ Htk) as Hs.
  destruct (e_step e); cbn in Hs; (done || by injection Hs as <-).
Qed.

Lemma taken_unfinished : e_finalized e = None.
Proof.
  pose proof (inv_finalized _ (tk_inv _ _ Htk)) as Hf. destruct (e_finalized e); [|done].
  destruct Hf as [Hf _]. pose proof (tk_phase _ _ Htk) as Hs. by rewrite Hf in Hs.
Qed.

Lemma taken_proposal : ∃ p, e_proposal e = Some p ∧ p_block_hash p = v_block_hash v.
Proof.
  destruct (tk_for _ _ Htk) as (_ & _ & _ & Hv & _).
  destruct (e_proposal e) as [p|]; [|done]. cbn in Hv. simplify_eq. eauto.
Qed.

Lemma taken_votes ph i w :
  bucket (with_vote e v) ph !! i = Some w → v_validator_id w = i ∧ vote_for e ph w.
Proof. apply with_vote_votes; apply Htk. Qed.

Lemma taken_future ph : step_rank (e_step e) < phase_rank ph → bucket (with_vote e v) ph = ∅.
Proof.
  pose proof taken_rank. intros Hlt. rewrite with_vote_bucket.
  case_decide; [subst; lia|by apply inv_future, Hlt; apply Htk].
Qed.

Lemma taken_past ph :
  has_supermajority (with_vote e v) (v_phase v) = true →
  phase_rank ph < step_rank (e_step e) + 1 → ph ≠ Commit →
  has_supermajority (with_vote e v) ph = true.
Proof.
  pose proof taken_rank. intros Hq Hlt Hc. destruct (decide (v_phase v = ph)) as [<-|Hne]; [done|].
  rewrite with_vote_other by done. apply inv_past; [apply Htk| |done].
  assert (phase_rank (v_phase v) ≠ phase_rank ph) by (by intros ?%phase_rank_inj). lia.
Qed.

Lemma taken_kept :
  has_supermajority (with_vote e v) (v_phase v) = false → engine_inv (with_vote e v).
Proof.
  intros Hq. pose proof (tk_inv _ _ Htk) as He. pose proof taken_rank as Hrank.
  split; [apply He|apply He|apply He|apply He|apply He|apply taken_votes|apply taken_future
         | | |apply He].
  - intros ph Hlt Hc. cbn [e_step with_vote set_votes] in Hlt.
    rewrite with_vote_other by (intros Heq; subst ph; lia). by apply inv_past.
  - intros ph Hs. cbn [e_step with_vote set_votes] in Hs.
    pose proof (tk_phase _ _ Htk). by simplify_eq.
Qed.

Lemma taken_advanced s ph :
  has_supermajority (with_vote e v) (v_phase v) = true →
  expected_phase s = Some ph → step_rank s = step_rank (e_step e) + 1 →
  engine_inv (set_step s (with_vote e v)).
Proof.
  intros Hq Hs Hr. pose proof (tk_inv _ _ Htk) as He.
  assert (phase_rank ph = step_rank s ∧ s ≠ StepFinalized ∧ s ≠ StepProposal)
    as (Hps & Hsf & Hsp) by (destruct s; by simplify_eq/=).
  destruct taken_proposal as (p & Hp & _).
  split; [apply He|apply He|apply He| |apply He|apply taken_votes| | | |].
  - cbn. by rewrite Hp.
  - intros ph' Hlt. apply taken_future. cbn [e_step set_step] in Hlt. lia.
  - intros ph' Hlt. apply taken_past; [done|]. cbn [e_step set_step] in Hlt. lia.
  - intros ph' Heq. cbn [e_step set_step] in Heq. simplify_eq.
    apply no_votes_no_quorum; [apply He|apply He|]. apply taken_future. lia.
  - unfold set_step. cbn [e_finalized with_vote set_votes]. by rewrite taken_unfinished.
Qed.

(** The engine after the commit quorum *)
Definition committed (p : ConsensusProposal) : ConsensusEngine :=
  set_step StepFinalized
    (set_finalized
       (Some {| f_height := e_height e; f_round := e_round e; f_block_hash := p_block_hash p;
                commit_votes := btree_values (bucket (with_vote e v) Commit) |})
       (set_votes (delete Commit (e_votes (with_vote e v))) (with_vote e v))).

Lemma committed_bucket p ph :
  bucket (committed p) ph = if decide (ph = Commit) then ∅ else bucket (with_vote e v) ph.
Proof.
  unfold bucket, committed. cbn [e_votes set_step set_finalized set_votes].
  case_decide as H; [subst; by rewrite lookup_delete_eq|by rewrite lookup_delete_ne].
Qed.

Lemma taken_committed p :
  e_proposal e = Some p → v_phase v = Commit →
  has_supermajority (with_vote e v) Commit = true → engine_inv (committed p).
Proof.
  intros Hp Hph Hq. pose proof (tk_inv _ _ Htk) as He. pose proof taken_rank as Hrank.
  assert (step_rank (e_step e) = 3) as H3 by (by rewrite <-Hrank, Hph).
  split; [apply He|apply He|apply He| |apply He| | | | |].
  - cbn. by rewrite Hp.
  - intros ph i w. rewrite committed_bucket. case_decide; [done|]. apply taken_votes.
  - intros ph Hlt. cbn [e_step committed set_step] in Hlt. by destruct ph.
  - intros ph _ Hc. rewrite (supermajority_ext (with_vote e v)); [|done|done|].
    + apply taken_past; [by rewrite Hph| |done]. rewrite H3. by destruct ph.
    + by apply lookup_delete_ne.
  - done.
  - cbn [e_finalized committed set_step set_finalized]. split; [done|].
    apply (commit_certificate (with_vote e v)); [apply He|apply taken_votes|done|done|done| |done].
    cbn. by rewrite Hp.
Qed.

(** Whether the vote completed the quorum of its phase or not, it is stored, or
    the engine moves to the next step, and the invariant holds. *)
Lemma taken_result :
  if has_supermajority (with_vote e v) (v_phase v)
  then ∃ e', advance_after_quorum (with_vote e v) (v_phase v) = Ok e' ∧ engine_inv e' ∧
         same_config e e' ∧ step_rank (e_step e') = step_rank (e_step e) + 1 ∧
         e_proposal e' = e_proposal e ∧ e_round e' = e_round e
  else engine_inv (with_vote e v).
Proof.
  destruct (has_supermajority _ _) eqn:Hq; [|by apply taken_kept].
  pose proof taken_rank as Hrank.
  destruct (v_phase v) eqn:Hph; cbn [advance_after_quorum phase_rank] in *; rewrite <-Hrank.
  - eexists. split; [done|]. split; [|done].
    apply (taken_advanced _ PreCommit); [by rewrite Hph|done|by rewrite <-Hrank].
  - eexists. split; [done|]. split; [|done].
    apply (taken_advanced _ Commit); [by rewrite Hph|done|by rewrite <-Hrank].
  - destruct taken_proposal as (p & Hp & _).
    change (e_proposal (set_votes _ _)) with (e_proposal e). rewrite Hp. cbn [unwrap].
    rewrite rbind_ret. eexists. split; [done|]. split; [by apply (taken_committed p)|].
    by split_and!.
Qed.
End taken_vote.

(** A vote is refused, is late evidence for an earlier phase, or is taken. *)
Lemma receive_vote_cases e v :
  engine_inv e →
  (∃ er, receive_vote e v = Err er) ∨
  receive_vote e v = Ok e ∨
  (taken e v ∧ receive_vote e v =
     if has_supermajority (with_vote e v) (v_phase v)
     then advance_after_quorum (with_vote e v) (v_phase v) else Ok (with_vote e v)).
Proof.
  intros He. unfold receive_vote.
  destruct (Z.eqb_spec (v_height v) (e_height e)) as [Hh|]; [|by left; eexists].
  destruct (Z.eqb_spec (v_round v) (e_round e)) as [Hr|]; [|by left; eexists]. cbn [negb orb].
  case_bool_decide as Hp; [|by left; eexists]. cbn [negb].
  destruct (expected_phase (e_step e)) as [ph|] eqn:Hs; [|by left; eexists].
  cbn [ok_or]. rewrite rbind_ret.
  destruct (e_validators e !! v_validator_id v) as [val|] eqn:Hval; [|by left; eexists].
  cbn [ok_or]. rewrite rbind_ret.
  destruct (map_err _ _) as [u|er|] eqn:Hsig; [|by left; eexists|].
  2: { exfalso. revert Hsig. apply map_err_safe, verify_safe. }
  apply verify_err_Ok in Hsig. rewrite rbind_ret.
  case_bool_decide as Hph; cbn [negb]; [|case_match; [by right; left|by left; eexists]].
  change (default ∅ _) with (bucket e (v_phase v)). subst ph.
  destruct (bucket e (v_phase v) !! v_validator_id v); [by left; eexists|].
  right; right. split; [|done]. split; [done|done|]. split_and!; try done. by exists val.
Qed.

Lemma receive_vote_inv e v :
  engine_inv e →
  safe (receive_vote e v) ∧
  ∀ e', receive_vote e v = Ok e' → engine_inv e' ∧ same_config e e'.
Proof.
  intros He. destruct (receive_vote_cases e v He) as [[er ->]|[->|[Htk ->]]].
  - done.
  - split; [done|]. by intros ? [= <-].
  - pose proof (taken_result e v Htk) as Hres. destruct (has_supermajority _ _).
    + destruct Hres as (e' & -> & ? & ? & _). split; [done|]. by intros ? [= <-].
    + split; [done|]. by intros ? [= <-].
Qed.

Lemma on_timeout_inv e now :
  engine_inv e → engine_inv (snd (on_timeout e now)) ∧ same_config e (snd (on_timeout e now)).
Proof.
  intros He. unfold on_timeout. case_bool_decide as Hf; [done|]. cbn [orb].
  case_match; [done|]. cbn [snd]. split; [|done].
  destruct (inv_nonempty _ He) as [Hne Ht].
  split; [apply He|apply He|done|done|done|done|done| | |].
  - by intros [].
  - done.
  - pose proof (inv_finalized _ He) as Hfin. cbn. destruct (e_finalized e); [|done].
    by destruct Hfin.
Qed.

Lemma engine_step_inv e ev :
  engine_inv e →
  ∃ e', engine_step e ev = Ok e' ∧ engine_inv e' ∧ same_config e e'.
Proof.
  intros He. destruct ev as [p|v|now]; cbn [engine_step].
  - destruct (receive_proposal_inv e p He) as [Hs Hok].
    destruct (receive_proposal e p) as [e'|er|] eqn:Hr; [|by exists e|done].
    destruct (Hok e' eq_refl). eauto.
  - destruct (receive_vote_inv e v He) as [Hs Hok].
    destruct (receive_vote e v) as [e'|er|] eqn:Hr; [|by exists e|done].
    destruct (Hok e' eq_refl). eauto.
  - destruct (on_timeout_inv e now He). eauto.
Qed.

Lemma engine_run_inv evs : ∀ e,
  engine_inv e → ∃ e', engine_run evs e = Ok e' ∧ engine_inv e' ∧ same_config e e'.
Proof.
  induction evs as [|ev evs IH]; intros e He; [by exists e|].
  unfold engine_run in *. cbn [foldM].
  destruct (engine_step_inv e ev He) as (e1 & -> & He1 & Hc1). rewrite rbind_ret.
  destruct (IH e1 He1) as (e2 & -> & He2 & Hc2). exists e2. split; [done|]. split; [done|].
  unfold same_config in *. intuition congruence.
Qed.

Lemma finalized_step e ev : e_step e = StepFinalized → engine_step e ev = Ok e.
Proof.
  intros Hs. destruct ev as [p|v|now]; cbn [engine_step].
  - unfold receive_proposal. by rewrite Hs.
  - unfold receive_vote. rewrite Hs. by repeat (case_match; cbn); simplify_eq.
  - unfold on_timeout. by rewrite Hs.
Qed.

Lemma finalized_run evs e : e_step e = StepFinalized → engine_run evs e = Ok e.
Proof.
  intros Hs. induction evs as [|ev evs IH]; [done|]. unfold engine_run in *. cbn [foldM].
  by rewrite finalized_step.
Qed.

(** C2: whatever proposals, votes and clock readings a created engine is fed,
    it never aborts and keeps its shard, height, validators and total stake. A
    block it reports as final is the leader's signed proposal of the round of
    the certificate and carries commit votes of distinct registered validators,
    each with a verifying signature for exactly this shard, height, round and
    block, holding at least two thirds of the stake; and pre-vote and pre-commit
    quorums were reached first. Once final, nothing changes the engine. *)
Theorem engine_history shard height vs now to evs e0 :
  Forall (λ v, 0 ≤ actual_stake v) vs → engine_new shard height vs now to = Ok e0 →
  ∃ e, engine_run evs e0 = Ok e ∧ same_config e0 e ∧
    (e_step e = StepFinalized ↔ is_Some (e_finalized e)) ∧
    (∀ p, e_proposal e = Some p → proposal_for e p) ∧
    (∀ f, e_finalized e = Some f → certified e f ∧
       has_supermajority e PreVote = true ∧ has_supermajority e PreCommit = true ∧
       ∀ evs', engine_run evs' e = Ok e).
Proof.
  intros Hvs He0. destruct (proj2 (engine_new_inv _ _ _ _ _ Hvs) _ He0) as (Hinv & _).
  destruct (engine_run_inv evs e0 Hinv) as (e & Hrun & He & Hc).
  exists e. pose proof (inv_finalized _ He) as Hf. split_and!; [done|done| |apply He|].
  - destruct (e_finalized e); [|naive_solver]. split; [by eexists|by destruct Hf].
  - intros f Hf'. rewrite Hf' in Hf. destruct Hf as [Hs Hcert]. split_and!; [done| | |].
    + apply inv_past; [done|by rewrite Hs|done].
    + apply inv_past; [done|by rewrite Hs|done].
    + intros evs'. by apply finalized_run.
Qed.

Lemma engine_new_fields shard height vs now to e :
  engine_new shard height vs now to = Ok e →
  foldM add_validator vs (∅, 0) = Ok (e_validators e, e_total_stake e) ∧
  e_shard e = shard ∧ e_height e = height.
Proof.
  unfold engine_new. intros ([entries total] & Hf & H)%rbind_Ok. rewrite Hf. case_match; [done|].
  by simplify_eq.
Qed.

(** The voters of a certificate *)
Definition voters (f : FinalizedBlock) : gset Z := list_to_set (v_validator_id <$> commit_votes f).

Lemma voter_vote e f i :
  certified e f → i ∈ voters f → ∃ v, v_validator_id v = i ∧ v_block_hash v = f_block_hash f ∧
    vote_for e Commit v.
Proof.
  intros (_ & _ & Hp & _ & Hall & _) Hi. unfold voters in Hi.
  apply elem_of_list_to_set, list_elem_of_fmap in Hi as (v & -> & Hv).
  rewrite Forall_forall in Hall. specialize (Hall v Hv). exists v. split_and!; [done| |done].
  destruct Hall as (_ & _ & _ & Hb & _). congruence.
Qed.

Lemma voters_registered e f : certified e f → voters f ⊆ dom (e_validators e).
Proof.
  intros Hc i Hi. destruct (voter_vote _ _ _ Hc Hi) as (v & <- & _ & Hv).
  destruct Hv as (_ & _ & _ & _ & val & Hval & _). by apply elem_of_dom_2 in Hval.
Qed.

(** The voters of both certificates *)
Lemma double_signers shard height vs now1 now2 to1 to2 evs1 evs2 e01 e02 e1 e2 f1 f2 :
  Forall (λ v, 0 ≤ actual_stake v) vs →
  engine_new shard height vs now1 to1 = Ok e01 → engine_new shard height vs now2 to2 = Ok e02 →
  engine_run evs1 e01 = Ok e1 → engine_run evs2 e02 = Ok e2 →
  e_finalized e1 = Some f1 → e_finalized e2 = Some f2 →
  f_round f1 = f_round f2 → f_block_hash f1 ≠ f_block_hash f2 → e_total_stake e01 < 2 ^ 64 - 1 →
  ∃ X : gset Z, e_total_stake e01 ≤ 3 * stake_of (e_validators e01) X ∧ X ⊆ dom (e_validators e01) ∧
    ∀ i, i ∈ X → ∃ v1 v2, v_validator_id v1 = i ∧ v_validator_id v2 = i ∧
      vote_signed e01 v1 ∧ vote_signed e01 v2 ∧ v_phase v1 = Commit ∧ v_phase v2 = Commit ∧
      v_height v1 = height ∧ v_height v2 = height ∧ v_round v1 = f_round f1 ∧ v_round v2 = f_round f1 ∧
      v_block_hash v1 = f_block_hash f1 ∧ v_block_hash v2 = f_block_hash f2.
Proof.
  intros Hvs Hn1 Hn2 Hr1 Hr2 Hf1 Hf2 Hround Hneq Hsat.
  assert (engine_inv e01 ∧ engine_inv e02) as [Hi1 Hi2].
  { split; eapply (proj2 (engine_new_inv _ _ _ _ _ Hvs)); eassumption. }
  destruct (engine_new_fields _ _ _ _ _ _ Hn1) as (Hfo1 & Hsh1 & Hhe1).
  destruct (engine_new_fields _ _ _ _ _ _ Hn2) as (Hfo2 & Hsh2 & Hhe2).
  assert (e_total_stake e02 = e_total_stake e01 ∧ e_validators e02 = e_validators e01)
    as [Ht0 Hv0] by (split; congruence).
  destruct (engine_run_inv evs1 e01 Hi1) as (e1' & Hr1' & He1 & Hs1 & Hh1 & Hv1 & Ht1).
  destruct (engine_run_inv evs2 e02 Hi2) as (e2' & Hr2' & He2 & Hs2 & Hh2 & Hv2 & Ht2).
  rewrite Hr1 in Hr1'. apply (inj Ok) in Hr1' as <-.
  rewrite Hr2 in Hr2'. apply (inj Ok) in Hr2' as <-.
  pose proof (inv_finalized _ He1) as Hc1. rewrite Hf1 in Hc1. destruct Hc1 as [_ Hc1].
  pose proof (inv_finalized _ He2) as Hc2. rewrite Hf2 in Hc2. destruct Hc2 as [_ Hc2].
  pose proof (voters_registered _ _ Hc1) as Hd1. pose proof (voters_registered _ _ Hc2) as Hd2.
  pose proof Hc1 as (_ & Hfr1 & _ & _ & _ & Hq1). pose proof Hc2 as (_ & Hfr2 & _ & _ & _ & Hq2).
  fold (voters f1) in Hq1. fold (voters f2) in Hq2.
  rewrite Hv1 in Hq1, Hd1. rewrite Hv2, Hv0 in Hq2, Hd2.
  rewrite Ht1 in Hq1. rewrite Ht2, Ht0 in Hq2.
  pose proof (inv_total _ Hi1) as Htot.
  assert (stake_of (e_validators e01) (dom (e_validators e01)) = e_total_stake e01) as Hw by lia.
  exists (voters f1 ∩ voters f2). split; [|split; [set_solver|]].
  - rewrite <-Hw. apply quorum_intersection; [|done|done| |].
    + intros i. apply stake_at_nonneg, Hi1.
    + unfold stake_of in *. lia.
    + unfold stake_of in *. lia.
  - intros i [Hx1 Hx2]%elem_of_intersection.
    destruct (voter_vote _ _ _ Hc1 Hx1) as (v1 & ? & ? & ? & ? & ? & _ & Hg1).
    destruct (voter_vote _ _ _ Hc2 Hx2) as (v2 & ? & ? & ? & ? & ? & _ & Hg2).
    exists v1, v2. split_and!; try done; try congruence.
    + unfold vote_signed in *. by rewrite Hv1, Hs1 in Hg1.
    + unfold vote_signed in *. rewrite Hv2, Hs2, Hv0, Hsh2, <-Hsh1 in Hg2. done.
Qed.

(** Two engines of one height with the same validators that finalize
    different blocks in one round expose validators with at least a third of the
    stake, each of which signed commit votes for both blocks (as long as the
    total stake does not saturate 64 bits). *)
Theorem conflicting_finality shard height vs now1 now2 to1 to2 evs1 evs2 e01 e02 e1 e2 f1 f2 :
  Forall (λ v, 0 ≤ actual_stake v) vs →
  engine_new shard height vs now1 to1 = Ok e01 → engine_new shard height vs now2 to2 = Ok e02 →
  engine_run evs1 e01 = Ok e1 → engine_run evs2 e02 = Ok e2 →
  e_finalized e1 = Some f1 → e_finalized e2 = Some f2 →
  f_round f1 = f_round f2 → f_block_hash f1 ≠ f_block_hash f2 → e_total_stake e01 < 2 ^ 64 - 1 →
  ∃ X : gset Z, e_total_stake e01 ≤ 3 * stake_of (e_validators e01) X ∧
    ∀ i, i ∈ X → ∃ v1 v2, v_validator_id v1 = i ∧ v_validator_id v2 = i ∧
      vote_signed e01 v1 ∧ vote_signed e01 v2 ∧ v_phase v1 = Commit ∧ v_phase v2 = Commit ∧
      v_height v1 = v_height v2 ∧ v_round v1 = v_round v2 ∧
      v_block_hash v1 = f_block_hash f1 ∧ v_block_hash v2 = f_block_hash f2.
Proof.
  intros Hvs Hn1 Hn2 Hr1 Hr2 Hf1 Hf2 Hround Hneq Hsat.
  destruct (double_signers shard height vs now1 now2 to1 to2 evs1 evs2 e01 e02 e1 e2 f1 f2) as (X & HX & _ & Hall);
    [done..|].
  exists X. split; [done|]. intros i Hi. destruct (Hall i Hi) as (v1 & v2 & ? & ? & ? & ? & ? & ? & ? & ? & ? & ? & ? & ?).
  exists v1, v2. split_and!; congruence || done.
Qed.

(** *** A round with enough votes *)

Lemma receive_taken e v :
  taken e v →
  receive_vote e v =
    match bucket e (v_phase v) !! v_validator_id v with
    | Some _ => Err DuplicateValidatorSignature
    | None => if has_supermajority (with_vote e v) (v_phase v)
              then advance_after_quorum (with_vote e v) (v_phase v) else Ok (with_vote e v)
    end.
Proof.
  intros [He Hs (Hh & Hr & _ & Hp & val & Hval & Hsig)]. unfold receive_vote.
  rewrite (proj2 (Z.eqb_eq _ _) Hh), (proj2 (Z.eqb_eq _ _) Hr). cbn [negb orb].
  rewrite bool_decide_eq_true_2 by done. rewrite Hs, Hval. cbn [negb ok_or]. bind_simpl.
  rewrite Hsig. cbn [map_err]. bind_simpl. by rewrite bool_decide_eq_true_2 by done.
Qed.

(** Votes for a phase that is over change nothing. *)
Lemma late_vote e v :
  engine_inv e → phase_rank (v_phase v) < step_rank (e_step e) → engine_step e (EvVote v) = Ok e.
Proof.
  intros He Hlt. cbn [engine_step].
  destruct (receive_vote_cases e v He) as [[er ->]|[->|[Htk _]]]; [done..|].
  pose proof (taken_rank e v Htk). lia.
Qed.

Lemma late_votes vs e :
  engine_inv e → Forall (λ v, phase_rank (v_phase v) < step_rank (e_step e)) vs →
  engine_run (EvVote <$> vs) e = Ok e.
Proof.
  intros He. induction 1 as [|v vs Hv Hvs IH]; [done|].
  unfold engine_run in *. rewrite fmap_cons. cbn [foldM]. by rewrite late_vote.
Qed.

(** What a vote is checked against does not change within a round. *)
Definition same_round e e' : Prop :=
  same_config e e' ∧ e_proposal e' = e_proposal e ∧ e_round e' = e_round e.

Lemma vote_for_round e e' ph v : same_round e e' → vote_for e ph v → vote_for e' ph v.
Proof.
  intros ((Hs & Hh & Hv & _) & Hp & Hr). unfold vote_for, vote_signed. by rewrite Hs, Hh, Hv, Hp, Hr.
Qed.

Lemma same_round_trans e1 e2 e3 : same_round e1 e2 → same_round e2 e3 → same_round e1 e3.
Proof. unfold same_round, same_config. intuition congruence. Qed.

(** Feeding the votes of a phase leads past it, or leaves all of them counted. *)
Lemma feed_votes ph vs : ∀ e,
  engine_inv e → expected_phase (e_step e) = Some ph → Forall (vote_for e ph) vs →
  ∃ e', engine_run (EvVote <$> vs) e = Ok e' ∧ engine_inv e' ∧ same_round e e' ∧
    (step_rank (e_step e') = step_rank (e_step e) + 1 ∨
     (e_step e' = e_step e ∧ dom (bucket e ph) ⊆ dom (bucket e' ph) ∧
      list_to_set (v_validator_id <$> vs) ⊆ dom (bucket e' ph))).
Proof.
  induction vs as [|v vs IH]; intros e He Hs Hvs.
  { exists e. split_and!; try done. right. set_solver. }
  apply Forall_cons in Hvs as [Hv Hvs].
  assert (v_phase v = ph) as Hph by apply Hv.
  assert (taken e v) as Htk by (split; subst; done).
  pose proof (taken_rank e v Htk) as Hrk.
  unfold engine_run in *. rewrite fmap_cons. cbn [foldM engine_step].
  rewrite (receive_taken _ _ Htk), Hph.
  destruct (bucket e ph !! v_validator_id v) eqn:Hb.
  { rewrite rbind_ret. destruct (IH e He Hs Hvs) as (e' & -> & He' & Hsr & Hcase).
    exists e'. split_and!; [done|done|done|]. destruct Hcase as [?|(? & Hsub & Hids)]; [by left|right].
    split_and!; [done|done|]. rewrite fmap_cons, list_to_set_cons.
    apply elem_of_dom_2 in Hb. set_solver. }
  pose proof (taken_result e v Htk) as Hres. rewrite Hph in Hres.
  destruct (has_supermajority (with_vote e v) ph).
  - destruct Hres as (e1 & -> & He1 & Hc1 & Hr1 & Hp1 & Hrd1). rewrite rbind_ret.
    pose proof (late_votes vs e1 He1) as Hlate. unfold engine_run in Hlate. rewrite Hlate.
    + exists e1. split_and!; [done|done|done|by left].
    + eapply Forall_impl; [exact Hvs|]. intros w Hw. assert (v_phase w = ph) as -> by apply Hw.
      rewrite Hr1, <-Hrk, Hph. lia.
  - rewrite rbind_ret. assert (same_round e (with_vote e v)) as Hsr by done.
    destruct (IH (with_vote e v) Hres Hs) as (e' & -> & He' & Hsr' & Hcase).
    { eapply Forall_impl; [exact Hvs|]. intros w. by apply vote_for_round. }
    exists e'. split_and!; [done|done|by eapply same_round_trans|].
    destruct Hcase as [?|(? & Hsub & Hids)]; [by left|right]. split_and!; [done| |].
    + rewrite with_vote_bucket, Hph, decide_True in Hsub by done. set_solver.
    + rewrite with_vote_bucket, Hph, decide_True in Hsub by done.
      rewrite fmap_cons, list_to_set_cons. set_solver.
Qed.

(** Votes of two thirds of the stake for a phase end it. *)
Definition phase_quorum e ph (vs : list ConsensusVote) : Prop :=
  Forall (vote_for e ph) vs ∧
  2 * e_total_stake e ≤
    3 * Z.min (stake_of (e_validators e) (list_to_set (v_validator_id <$> vs))) (2 ^ 64 - 1).

Lemma phase_quorum_round e e' ph vs : same_round e e' → phase_quorum e ph vs → phase_quorum e' ph vs.
Proof.
  intros Hsr [Hvs Hq]. split.
  - eapply Forall_impl; [exact Hvs|]. intros v. by apply vote_for_round.
  - destruct Hsr as ((_ & _ & -> & ->) & _). done.
Qed.

Lemma phase_ends e ph vs :
  engine_inv e → expected_phase (e_step e) = Some ph → phase_quorum e ph vs →
  ∃ e', engine_run (EvVote <$> vs) e = Ok e' ∧ engine_inv e' ∧ same_round e e' ∧
    step_rank (e_step e') = step_rank (e_step e) + 1.
Proof.
  intros He Hs [Hvs Hq]. destruct (feed_votes ph vs e He Hs Hvs) as (e' & Hr & He' & Hsr & Hcase).
  exists e'. split_and!; [done|done|done|]. destruct Hcase as [?|(Hst & _ & Hsub)]; [done|exfalso].
  assert (has_supermajority e' ph = false) as Hno by (apply inv_current; [done|by rewrite Hst]).
  unfold has_supermajority in Hno. rewrite vote_stake_weight in Hno by apply He'.
  destruct Hsr as ((_ & _ & Hv & Ht) & _). rewrite Hv, Ht in Hno. bool_to_prop.
  assert (stake_of (e_validators e) (list_to_set (v_validator_id <$> vs)) ≤
          stake_of (e_validators e) (dom (bucket e' ph))).
  { apply weight_subseteq; [|done]. intros i. apply stake_at_nonneg, He. }
  lia.
Qed.

Lemma engine_run_app evs evs' e :
  engine_run (evs ++ evs') e = rbind (engine_run evs e) (engine_run evs').
Proof. unfold engine_run. apply foldM_app. Qed.

Lemma receive_first_proposal e p :
  engine_inv e → e_step e = StepProposal → proposal_for e p →
  receive_proposal e p = Ok (set_step StepPreVote (set_proposal (Some p) e)).
Proof.
  intros He Hs (Hh & Hr & Hl & val & Hval & Hsig). unfold receive_proposal.
  rewrite bool_decide_eq_false_2 by (by rewrite Hs).
  rewrite (proj2 (Z.eqb_eq _ _) Hh), (proj2 (Z.eqb_eq _ _) Hr), Hl. cbn [negb orb]. bind_simpl.
  rewrite Z.eqb_refl, Hval. cbn [negb ok_or]. bind_simpl. rewrite Hsig. cbn [map_err]. bind_simpl.
  by rewrite (proj2 (inv_step _ He) Hs).
Qed.

(** C4: a round with an honest leader and quorum terminates in a final block:
    from any reachable engine that waits for a proposal, the leader's proposal
    and then votes of two thirds of the stake for each phase in turn (in any
    order, with duplicates) finalize the proposed block. *)
Theorem round_finalizes shard height vs now to evs e0 e p vs1 vs2 vs3 :
  Forall (λ v, 0 ≤ actual_stake v) vs → engine_new shard height vs now to = Ok e0 →
  engine_run evs e0 = Ok e → e_step e = StepProposal → proposal_for e p →
  phase_quorum (set_proposal (Some p) e) PreVote vs1 →
  phase_quorum (set_proposal (Some p) e) PreCommit vs2 →
  phase_quorum (set_proposal (Some p) e) Commit vs3 →
  ∃ e' f, engine_run (EvProposal p :: (EvVote <$> (vs1 ++ vs2 ++ vs3))) e = Ok e' ∧
    e_step e' = StepFinalized ∧ e_finalized e' = Some f ∧ f_block_hash f = p_block_hash p ∧
    f_height f = height ∧ f_round f = e_round e.
Proof.
  intros Hvs Hn Hrun Hs Hp Hq1 Hq2 Hq3.
  destruct (proj2 (engine_new_inv _ _ _ _ _ Hvs) _ Hn) as (Hi0 & _ & Hht & _).
  destruct (engine_run_inv evs e0 Hi0) as (e1 & Hrun1 & He & _ & Hht1 & _).
  rewrite Hrun in Hrun1. apply (inj Ok) in Hrun1 as <-.
  pose proof (receive_first_proposal e p He Hs Hp) as Hrp.
  set (ep := set_step StepPreVote (set_proposal (Some p) e)) in *.
  destruct (proj2 (receive_proposal_inv e p He) _ Hrp) as [Hep _].
  destruct (phase_ends ep PreVote vs1 Hep eq_refl Hq1) as (ea & Hra & Hea & Hsa & Hka).
  assert (e_step ea = StepPreCommit) as Hta by (by destruct (e_step ea)).
  destruct (phase_ends ea PreCommit vs2 Hea) as (eb & Hrb & Heb & Hsb & Hkb);
    [by rewrite Hta|by apply (phase_quorum_round ep)|].
  assert (e_step eb = StepCommit) as Htb by (rewrite Hta in Hkb; by destruct (e_step eb)).
  pose proof (same_round_trans _ _ _ Hsa Hsb) as Hsab.
  destruct (phase_ends eb Commit vs3 Heb) as (ec & Hrc & Hec & Hsc & Hkc);
    [by rewrite Htb|by apply (phase_quorum_round ep)|].
  assert (e_step ec = StepFinalized) as Htc by (rewrite Htb in Hkc; by destruct (e_step ec)).
  pose proof (same_round_trans _ _ _ Hsab Hsc) as ((_ & Hh' & _) & Hp' & Hr').
  pose proof (inv_finalized _ Hec) as Hf. destruct (e_finalized ec) as [f|] eqn:Hfe; [|done].
  destruct Hf as (_ & Hfh & Hfr & Hfp & _). exists ec, f.
  split_and!; [|done|done| | |].
  - unfold engine_run at 1. cbn [foldM engine_step]. rewrite Hrp. bind_simpl. fold ep.
    change (engine_run (EvVote <$> (vs1 ++ vs2 ++ vs3)) ep = Ok ec).
    rewrite !fmap_app, !engine_run_app, Hra. bind_simpl. rewrite engine_run_app, Hrb. by bind_simpl.
  - rewrite Hp' in Hfp. cbn in Hfp. by simplify_eq.
  - rewrite Hfh, Hh'. cbn. congruence.
  - rewrite Hfr, Hr'. done.
Qed.
End engine_proofs.

(** ** Samples: three validators of equal stake *)

Definition sample_validators : list (ValidatorSetEntry (C:=toy_crypto)) :=
  (λ n, {| validator_id := n; public_key := toy_vk n; actual_stake := 100 |}) <$> [1; 2; 3].

Definition sample_proposal (hash : bytes) : ConsensusProposal :=
  {| p_height := 7; p_round := 0; p_block_hash := hash; proposer_id := 1;
     p_signature := SecretKey_sign (C:=toy_crypto) 1 VALIDATOR_SIGN_V1
                      (proposal_signing_bytes (shard_root 0) 7 0 hash) |}.

Definition sample_vote (hash : bytes) (ph : VotePhase) (n : Z) : ConsensusVote :=
  {| v_height := 7; v_round := 0; v_phase := ph; v_block_hash := hash; v_validator_id := n;
     v_signature := SecretKey_sign (C:=toy_crypto) n VALIDATOR_SIGN_V1
                      (vote_signing_bytes (shard_root 0) 7 0 ph hash) |}.

Definition sample_round (hash : bytes) (voters : list Z) : list engine_event :=
  EvProposal (sample_proposal hash) ::
  (EvVote <$> ((sample_vote hash PreVote <$> voters) ++ (sample_vote hash PreCommit <$> voters) ++
               (sample_vote hash Commit <$> voters))).

Definition engine_or (r : result ConsensusError (ConsensusEngine (C:=toy_crypto))) :
    ConsensusEngine (C:=toy_crypto) :=
  match r with
  | Ok e => e
  | _ => {| e_shard := shard_root 0; e_height := 0; e_validators := ∅; e_total_stake := 0;
            e_timeouts := RoundTimeouts_default; e_round_started_at := 0; e_round := 0;
            e_step := StepProposal; e_proposal := None; e_votes := ∅; e_finalized := None |}
  end.

Definition sample_e0 :=
  engine_or (engine_new (shard_root 0) 7 sample_validators 0 RoundTimeouts_default).
Definition sample_run (hash : bytes) (voters : list Z) :=
  engine_or (engine_run (sample_round hash voters) sample_e0).

Lemma engine_or_Ok r : is_ok r = true → r = Ok (engine_or r).
Proof. by destruct r. Qed.

Lemma sample_stakes : Forall (λ v, 0 ≤ actual_stake v) sample_validators.
Proof. repeat constructor; cbn; lia. Qed.

Lemma sample_e0_new :
  engine_new (shard_root 0) 7 sample_validators 0 RoundTimeouts_default = Ok sample_e0.
Proof. apply engine_or_Ok. by vm_compute. Qed.

Lemma engine_history_witness :
  bool_decide (e_step (sample_run Uint256_ZERO [1; 3]) = StepFinalized) = true ∧
  ∃ e, engine_run (sample_round Uint256_ZERO [1; 3]) sample_e0 = Ok e ∧ same_config sample_e0 e.
Proof.
  split; [by vm_compute|].
  destruct (engine_history (shard_root 0) 7 sample_validators 0 RoundTimeouts_default
    (sample_round Uint256_ZERO [1; 3]) sample_e0 sample_stakes sample_e0_new)
    as (e & Hrun & Hcfg & _). exact (ex_intro _ e (conj Hrun Hcfg)).
Defined.

Lemma sample_run_Ok hash voters :
  is_ok (engine_run (sample_round hash voters) sample_e0) = true →
  engine_run (sample_round hash voters) sample_e0 = Ok (sample_run hash voters).
Proof. apply engine_or_Ok. Qed.

Definition finalized_or (e : ConsensusEngine (C:=toy_crypto)) : FinalizedBlock :=
  default {| f_height := 0; f_round := 0; f_block_hash := []; commit_votes := [] |} (e_finalized e).

Lemma finalized_or_Some e : bool_decide (is_Some (e_finalized e)) = true →
  e_finalized e = Some (finalized_or e).
Proof. intros [f H]%bool_decide_eq_true. unfold finalized_or. by rewrite H. Qed.

Lemma sample_blocks_differ :
  f_block_hash (finalized_or (sample_run Uint256_ZERO [1; 2])) ≠
  f_block_hash (finalized_or (sample_run Uint256_MAX [2; 3])).
Proof.
  assert (f_block_hash (finalized_or (sample_run Uint256_ZERO [1; 2])) = Uint256_ZERO) as ->
    by (vm_compute; reflexivity).
  assert (f_block_hash (finalized_or (sample_run Uint256_MAX [2; 3])) = Uint256_MAX) as ->
    by (vm_compute; reflexivity).
  by vm_compute.
Qed.

Lemma conflicting_finality_witness :
  ∃ X : gset Z, e_total_stake sample_e0 ≤ 3 * stake_of (e_validators sample_e0) X ∧
    ∀ i, i ∈ X → ∃ v1 v2, v_validator_id v1 = i ∧ v_validator_id v2 = i ∧
      vote_signed sample_e0 v1 ∧ vote_signed sample_e0 v2.
Proof.
  destruct (conflicting_finality (shard_root 0) 7 sample_validators 0 0 RoundTimeouts_default
    RoundTimeouts_default (sample_round Uint256_ZERO [1; 2]) (sample_round Uint256_MAX [2; 3])
    sample_e0 sample_e0 (sample_run Uint256_ZERO [1; 2]) (sample_run Uint256_MAX [2; 3])
    (finalized_or (sample_run Uint256_ZERO [1; 2])) (finalized_or (sample_run Uint256_MAX [2; 3])))
    as (X & HX & Hall).
  - apply sample_stakes.
  - apply sample_e0_new.
  - apply sample_e0_new.
  - apply sample_run_Ok. by vm_compute.
  - apply sample_run_Ok. by vm_compute.
  - apply finalized_or_Some. by vm_compute.
  - apply finalized_or_Some. by vm_compute.
  - by vm_compute.
  - apply sample_blocks_differ.
  - apply Z.ltb_lt. by vm_compute.
  - exists X. split; [exact HX|]. intros i Hi. destruct (Hall i Hi) as (v1 & v2 & H1 & H2 & H3 & H4 & _).
    exact (ex_intro _ v1 (ex_intro _ v2 (conj H1 (conj H2 (conj H3 H4))))).
Defined.

(** The signature checks, as something to evaluate *)
Definition signed_by (vs : gmap Z (ValidatorSetEntry (C:=toy_crypto))) (i : Z) (m sig : bytes) : bool :=
  match vs !! i with
  | Some val => is_ok (PublicKey_verify (public_key val) VALIDATOR_SIGN_V1 m sig)
  | None => false
  end.

Lemma signed_by_true vs i m sig :
  signed_by vs i m sig = true → ∃ val, vs !! i = Some val ∧
    PublicKey_verify (public_key val) VALIDATOR_SIGN_V1 m sig = Ok tt.
Proof.
  unfold signed_by. destruct (vs !! i) as [val|]; [|discriminate]. intros H. exists val.
  split; [reflexivity|]. by destruct (PublicKey_verify _ _ _ _) as [[]| |].
Qed.

Lemma sample_proposal_for : proposal_for sample_e0 (sample_proposal Uint256_ZERO).
Proof.
  do 3 (split; [vm_compute; reflexivity|]).
  apply signed_by_true. vm_compute. reflexivity.
Qed.

Lemma sample_vote_for ph n :
  n = 1 ∨ n = 2 →
  vote_for (set_proposal (Some (sample_proposal Uint256_ZERO)) sample_e0) ph
    (sample_vote Uint256_ZERO ph n).
Proof.
  intros Hn. do 4 (split; [reflexivity|]). apply signed_by_true.
  destruct Hn as [-> | ->], ph; vm_compute; reflexivity.
Qed.

Lemma sample_phase_quorum ph :
  phase_quorum (set_proposal (Some (sample_proposal Uint256_ZERO)) sample_e0) ph
    (sample_vote Uint256_ZERO ph <$> [1; 2]).
Proof.
  split.
  - apply Forall_cons; split; [|apply Forall_cons; split; [|constructor]]; apply sample_vote_for;
      [by left|by right].
  - apply Z.leb_le. destruct ph; vm_compute; reflexivity.
Qed.

Lemma round_finalizes_witness :
  ∃ e' f, engine_run (sample_round Uint256_ZERO [1; 2]) sample_e0 = Ok e' ∧
    e_finalized e' = Some f ∧ f_block_hash f = Uint256_ZERO.
Proof.
  destruct (round_finalizes (shard_root 0) 7 sample_validators 0 RoundTimeouts_default [] sample_e0
    sample_e0 (sample_proposal Uint256_ZERO) (sample_vote Uint256_ZERO PreVote <$> [1; 2])
    (sample_vote Uint256_ZERO PreCommit <$> [1; 2]) (sample_vote Uint256_ZERO Commit <$> [1; 2]))
    as (e' & f & H1 & _ & H2 & H3 & _).
  - apply sample_stakes.
  - apply sample_e0_new.
  - reflexivity.
  - by vm_compute.
  - apply sample_proposal_for.
  - apply sample_phase_quorum.
  - apply sample_phase_quorum.
  - apply sample_phase_quorum.
  - exact (ex_intro _ e' (ex_intro _ f (conj H1 (conj H2 H3)))).
Defined.
