(* ===== verification/Sharding.v ===== *)
(** [onx-sharding]: the shard tree ([lib.rs]) and the migration of shard states
    across splits and merges ([pipeline.rs]). *)
From S2P Require Import Prelude Bytes Machine Primitives ToyCrypto Address Message Account Tree Admission.

Inductive ShardingError : Type :=
  | InvalidShardPrefixLength
  | NonPartitioningLeaves
  | AnnouncementSequenceViolation
  | TaskGroupDriftExceeded
  | InvalidMergeSiblings
  | AccountOutsideShard
  | MessageOutsideShard.

#[export] Instance ShardingError_eq_dec : EqDecision ShardingError.
Proof. solve_decision. Defined.

(** ** The shard tree *)

Inductive ShardTreeNode : Type :=
  | Leaf (shard : ShardIdent) (block_bytes_avg gas_used_avg : Z)
  | Internal_node (shard : ShardIdent) (left right : ShardTreeNode).

Definition new_leaf (shard : ShardIdent) : ShardTreeNode := Leaf shard 0 0.

Definition split_leaf (t : ShardTreeNode) : result ShardingError ShardTreeNode :=
  match t with
  | Leaf shard _ _ =>
      let? len := map_err (λ _, InvalidShardPrefixLength) (prefix_len shard) in
      if 60 <=? len then Err InvalidShardPrefixLength
      else
        let base_ident := shard_prefix_ident shard in
        let child_0_ident :=
          Z.lor (Z.land base_ident (not64 (shl64 1 (63 - len)))) (shl64 1 (62 - len)) in
        let child_1_ident := Z.lor (Z.lor base_ident (shl64 1 (63 - len))) (shl64 1 (62 - len)) in
        let child_0 := {| workchain_id := workchain_id shard; shard_prefix_ident := child_0_ident |} in
        let child_1 := {| workchain_id := workchain_id shard; shard_prefix_ident := child_1_ident |} in
        Ok (Internal_node shard (new_leaf child_0) (new_leaf child_1))
  | Internal_node _ _ _ => Err InvalidShardPrefixLength
  end.

(** Products of [u64] values: they abort on overflow. *)
Definition should_split (block_bytes_avg byte_limit gas_used_avg gas_limit : Z) :
    result ShardingError bool :=
  let? a := mul_u 64 block_bytes_avg 100 in
  let? b := mul_u 64 byte_limit 75 in
  if b <=? a then
    let? c := mul_u 64 gas_used_avg 100 in
    let? d := mul_u 64 gas_limit 75 in
    Ok (d <=? c)
  else Ok false.

Definition should_merge (block_bytes_avg byte_limit gas_used_avg gas_limit : Z) :
    result ShardingError bool :=
  let? a := mul_u 64 block_bytes_avg 100 in
  let? b := mul_u 64 byte_limit 20 in
  if a <=? b then
    let? c := mul_u 64 gas_used_avg 100 in
    let? d := mul_u 64 gas_limit 20 in
    Ok (c <=? d)
  else Ok false.

Fixpoint tree_hash `{Crypto} (t : ShardTreeNode) : bytes :=
  match t with
  | Leaf shard _ _ => domain_hash BLOCK_HEADER_V1 ([byte_of 0] ++ shard_to_bytes shard)
  | Internal_node shard lc rc =>
      domain_hash BLOCK_HEADER_V1
        ([byte_of 1] ++ shard_to_bytes shard ++ tree_hash lc ++ tree_hash rc)
  end.

(** ** Announcements and triggers *)

Definition PREPARE_LEAD_BLOCKS : Z := 8.
Definition SPLIT_LOAD_WINDOW_BLOCKS : Z := 256.
Definition MERGE_LOAD_WINDOW_BLOCKS : Z := 1024.

Inductive TransitionKind : Type := Split | Merge.
Record LoadSample : Type := { block_bytes : Z; gas_used_sample : Z }.

(** 128-bit products of [u64] values with percentages do not overflow. *)
Definition at_least_percent (value limit percent : Z) : bool :=
  negb (limit =? 0) && (limit * percent <=? value * 100).
Definition at_most_percent (value limit percent : Z) : bool :=
  negb (limit =? 0) && (value * 100 <=? limit * percent).

Definition split_trigger_met (samples : list LoadSample) (byte_limit gas_limit : Z) : bool :=
  (len samples =? SPLIT_LOAD_WINDOW_BLOCKS) &&
  forallb (λ s, at_least_percent (block_bytes s) byte_limit 75 &&
                at_least_percent (gas_used_sample s) gas_limit 75) samples.

Definition merge_trigger_met (samples : list LoadSample) (byte_limit gas_limit : Z) : bool :=
  (len samples =? MERGE_LOAD_WINDOW_BLOCKS) &&
  forallb (λ s, at_most_percent (block_bytes s) byte_limit 20 &&
                at_most_percent (gas_used_sample s) gas_limit 20) samples.

Definition validate_transition_commit (kind : TransitionKind) (prepare_heights : list Z)
    (commit_height announced_assignment_epoch commit_assignment_epoch : Z) :
    result ShardingError unit :=
  let expected_prepares := match kind with Split => 1 | Merge => 2 end in
  if negb (len prepare_heights =? expected_prepares)
     || existsb (λ height, match checked_add_u 64 height PREPARE_LEAD_BLOCKS with
                           | None => true
                           | Some expected => negb (expected =? commit_height)
                           end) prepare_heights
  then Err AnnouncementSequenceViolation
  else if 1 <? Z.abs (announced_assignment_epoch - commit_assignment_epoch)
  then Err TaskGroupDriftExceeded
  else Ok tt.

(** ** Shard states *)

Record ShardState : Type := {
  state_shard : ShardIdent;
  accounts : tree_accounts;
  pending_messages : list Message;
}.

Definition check_account (shard : ShardIdent) (kv : bytes * AccountState) (_ : unit) :
    result ShardingError unit :=
  let? b := map_err (λ _, AccountOutsideShard) (contains_account shard kv.1) in
  if b then Ok tt else Err AccountOutsideShard.

Definition check_message (shard : ShardIdent) (m : Message) (_ : unit) : result ShardingError unit :=
  if is_err (validate_dest_shard m shard) then Err MessageOutsideShard else Ok tt.

Definition validate_ownership (s : ShardState) : result ShardingError unit :=
  let? _ := foldM (check_account (state_shard s)) (tree_iter (accounts s)) tt in
  foldM (check_message (state_shard s)) (pending_messages s) tt.

Section sharding.
Context {C : Crypto}.

(** The order of [sort_messages]; the sort is stable. *)
Definition message_le (l r : Message) : Prop :=
  created_lt l < created_lt r ∨
  created_lt l = created_lt r ∧ be_val (message_hash l) ≤ be_val (message_hash r).
#[export] Instance message_le_dec : RelDecision message_le.
Proof. intros l r. unfold message_le. apply _. Defined.

Definition sort_messages (ms : list Message) : list Message := merge_sort message_le ms.

(** One account of the parent *)
Definition split_account (left_shard : ShardIdent) (kv : bytes * AccountState)
    (acc : tree_accounts * tree_accounts) : result ShardingError (tree_accounts * tree_accounts) :=
  let '(la, ra) := acc in
  let? b := map_err (λ _, AccountOutsideShard) (contains_account left_shard kv.1) in
  Ok (if b then (<[ kv.1 := kv.2 ]> la, ra) else (la, <[ kv.1 := kv.2 ]> ra)).

(** One pending message of the parent *)
Definition split_message (left_shard right_shard : ShardIdent) (m : Message)
    (acc : list Message * list Message) : result ShardingError (list Message * list Message) :=
  let '(lm, rm) := acc in
  if is_ok (validate_dest_shard m left_shard) then Ok (lm ++ [m], rm)
  else if is_ok (validate_dest_shard m right_shard) then Ok (lm, rm ++ [m])
  else Err MessageOutsideShard.

(** [unreachable!] aborts. *)
Definition split_shard_state (parent : ShardState) : result ShardingError (ShardState * ShardState) :=
  let? _ := validate_ownership parent in
  let? tree := split_leaf (new_leaf (state_shard parent)) in
  match tree with
  | Internal_node _ (Leaf left_shard _ _) (Leaf right_shard _ _) =>
      let? (la, ra) := foldM (split_account left_shard) (tree_iter (accounts parent)) (∅, ∅) in
      let? (lm, rm) := foldM (split_message left_shard right_shard) (pending_messages parent) ([], []) in
      Ok ({| state_shard := left_shard; accounts := la; pending_messages := sort_messages lm |},
          {| state_shard := right_shard; accounts := ra; pending_messages := sort_messages rm |})
  | _ => Panic
  end.

Definition common_parent (first second : ShardIdent) : result ShardingError ShardIdent :=
  let? length := map_err (λ _, InvalidMergeSiblings) (prefix_len first) in
  if (length =? 0) || negb (workchain_id first =? workchain_id second)
     || negb (bool_decide (prefix_len second = Ok length))
  then Err InvalidMergeSiblings
  else
    let child_mask := shl64 (not64 0) (64 - length) in
    let differing :=
      Z.land (Z.lxor (shard_prefix_ident first) (shard_prefix_ident second)) child_mask in
    if negb (differing =? shl64 1 (64 - length)) then Err InvalidMergeSiblings
    else map_err (λ _, InvalidMergeSiblings)
           (from_prefix_bits (workchain_id first) (shard_prefix_ident first) (length - 1)).

(** [extend] replaces entries of the first map. *)
Definition merge_shard_states (first second : ShardState) : result ShardingError ShardState :=
  let? _ := validate_ownership first in
  let? _ := validate_ownership second in
  let? parent := common_parent (state_shard first) (state_shard second) in
  Ok {| state_shard := parent; accounts := accounts second ∪ accounts first;
        pending_messages := sort_messages (pending_messages first ++ pending_messages second) |}.
End sharding.

(** ** Splitting a leaf *)

Lemma ident_bits p n i :
  0 ≤ n → 0 ≤ i → Z.testbit ((2 * p + 1) * 2 ^ n) i =
    (n <=? i) && ((i =? n) || Z.testbit p (i - n - 1)).
Proof.
  intros Hn Hi. rewrite <-Z.shiftl_mul_pow2, Z.shiftl_spec by done.
  destruct (Z.leb_spec n i); cbn [andb]; [|apply Z.testbit_neg_r; lia].
  destruct (Z.eqb_spec i n) as [->|]; cbn [orb].
  - rewrite Z.sub_diag. apply Z.testbit_odd_0.
  - replace (i - n) with (Z.succ (i - n - 1)) at 1 by lia. apply Z.testbit_odd_succ. lia.
Qed.

(** Setting the marker bit again *)
Lemma lor_same_marker p n : 0 ≤ n → Z.lor ((2 * p + 1) * 2 ^ n) (2 ^ n) = (2 * p + 1) * 2 ^ n.
Proof.
  intros Hn. apply Z.bits_inj'. intros i Hi. rewrite Z.lor_spec, ident_bits, Z.pow2_bits_eqb by done.
  rewrite (Z.eqb_sym i n). destruct (Z.eqb_spec n i) as [->|]; [|by rewrite orb_false_r].
  by rewrite Z.leb_refl.
Qed.

(** Clearing the marker bit *)
Lemma land_clear_marker p n :
  0 ≤ p → 0 ≤ n → (2 * p + 1) * 2 ^ n < 2 ^ 64 →
  Z.land ((2 * p + 1) * 2 ^ n) (not64 (2 ^ n)) = 2 * p * 2 ^ n.
Proof.
  intros Hp Hn Hlt. assert (0 < 2 ^ n) by lia. assert (2 ^ n < 2 ^ 64) as Hn64 by nia.
  assert (n < 64) by (apply (Z.pow_lt_mono_r_iff 2); lia).
  unfold not64. change (2 ^ 64 - 1) with (Z.ones 64).
  rewrite (Z.sub_nocarry_ldiff (Z.ones 64)).
  2: { apply Z.bits_inj'. intros i Hi. rewrite Z.ldiff_spec, Z.pow2_bits_eqb, Z.bits_0 by done.
       destruct (Z.eqb_spec n i) as [->|]; [|done]. by rewrite Z.ones_spec_low by lia. }
  assert (Z.land ((2 * p + 1) * 2 ^ n) (Z.ldiff (Z.ones 64) (2 ^ n)) =
          Z.ldiff ((2 * p + 1) * 2 ^ n) (2 ^ n)) as ->.
  { assert (in_u 64 ((2 * p + 1) * 2 ^ n)) as Hu by (unfold in_u; nia).
    apply Z.bits_inj'. intros i Hi. rewrite Z.land_spec, !Z.ldiff_spec.
    destruct (Z.lt_ge_cases i 64); [by rewrite Z.ones_spec_low by lia|].
    by rewrite (testbit_high 64 _ i Hu) by lia. }
  rewrite <-Z.sub_nocarry_ldiff; [lia|].
  apply Z.bits_inj'. intros i Hi. rewrite Z.ldiff_spec, ident_bits, Z.pow2_bits_eqb, Z.bits_0 by done.
  destruct (Z.eqb_spec n i) as [->|]; [|done]. by rewrite Z.leb_refl, Z.eqb_refl.
Qed.

Lemma split_leaf_spec s l p a b :
  shard_prefix s l p →
  split_leaf (Leaf s a b) =
    if 60 <=? l then Err InvalidShardPrefixLength
    else Ok (Internal_node s (new_leaf (shard_at (workchain_id s) (l + 1) (2 * p)))
               (new_leaf (shard_at (workchain_id s) (l + 1) (2 * p + 1)))).
Proof.
  intros Hs. pose proof Hs as (Hl & Hp & Hid). pose proof (shard_prefix_u64 _ _ _ Hs) as Hu.
  cbn [split_leaf]. rewrite (proj2 (prefix_len_Ok s l Hu)) by eauto. cbn [map_err]. rewrite rbind_ret.
  destruct (Z.leb_spec 60 l); [done|]. cbv zeta. rewrite Hid in *.
  rewrite !shl64_1 by lia. rewrite lor_same_marker by lia.
  rewrite land_clear_marker by (lia || apply Hu).
  replace (63 - l) with (62 - l + 1) by lia. rewrite !lor_marker by lia.
  unfold shard_at, new_leaf. by replace (63 - (l + 1)) with (62 - l) by lia.
Qed.

(** ** Ownership *)

(** [s] contains account [a]. *)
Definition in_shard (s : ShardIdent) (a : bytes) : Prop := contains_account s a = Ok true.
#[export] Instance in_shard_dec s a : Decision (in_shard s a).
Proof. unfold in_shard. apply _. Defined.

Definition dest_in (s : ShardIdent) (m : Message) : Prop :=
  workchain_id s = addr_workchain (dest_address m) ∧ in_shard s (addr_account (dest_address m)).
#[export] Instance dest_in_dec s m : Decision (dest_in s m).
Proof. unfold dest_in. apply _. Defined.

Definition valid_shard (s : ShardIdent) : Prop := ∃ l p, shard_prefix s l p.

Record shard_state_wf (st : ShardState) : Prop := {
  ssw_shard : valid_shard (state_shard st);
  ssw_accounts : map_Forall (λ k _, len k = 32) (accounts st);
  ssw_messages : Forall Message_wf (pending_messages st);
}.

Definition owned (st : ShardState) : Prop :=
  map_Forall (λ k _, in_shard (state_shard st) k) (accounts st) ∧
  Forall (dest_in (state_shard st)) (pending_messages st).

Lemma Ok_true_bool_decide P `{Decision P} :
  Ok (E:=DataStructureError) (bool_decide P) = Ok true ↔ P.
Proof. split; [by intros ?%(inj Ok)%bool_decide_eq_true|]. intros. by rewrite bool_decide_true. Qed.

Lemma contains_account_bool s a :
  valid_shard s → len a = 32 → contains_account s a = Ok (bool_decide (in_shard s a)).
Proof.
  intros (l & p & Hs) Ha. pose proof (contains_account_Ok s l p a Hs Ha) as Hc.
  rewrite Hc. f_equal. apply bool_decide_ext. unfold in_shard. rewrite Hc.
  by rewrite Ok_true_bool_decide.
Qed.

Lemma validate_dest_shard_spec s m :
  valid_shard s → Message_wf m →
  validate_dest_shard m s = if decide (dest_in s m) then Ok tt else Err AddressShardMismatch.
Proof.
  intros Hs (_ & [_ Ha] & _). unfold validate_dest_shard, validate_full_address, validate_account_id, dest_in.
  destruct (Z.eqb_spec (workchain_id s) (addr_workchain (dest_address m))); cbn [negb].
  - rewrite (contains_account_bool s _ Hs Ha), rbind_ret.
    case_decide; destruct (bool_decide _) eqn:Hb; bool_to_prop; naive_solver.
  - rewrite decide_False; [done|]. naive_solver.
Qed.

Lemma elem_of_tree_iter t k x : (k, x) ∈ tree_iter t ↔ t !! k = Some x.
Proof. unfold tree_iter. rewrite merge_sort_Permutation. apply elem_of_map_to_list. Qed.

Lemma check_account_Ok s kv :
  valid_shard s → len kv.1 = 32 →
  safe (check_account s kv tt) ∧ (check_account s kv tt = Ok tt ↔ in_shard s kv.1).
Proof.
  intros Hs Hk. unfold check_account. rewrite contains_account_bool by done. cbn [map_err].
  rewrite rbind_ret. by case_bool_decide.
Qed.

Lemma check_message_Ok s m :
  valid_shard s → Message_wf m →
  safe (check_message s m tt) ∧ (check_message s m tt = Ok tt ↔ dest_in s m).
Proof.
  intros Hs Hm. unfold check_message. rewrite validate_dest_shard_spec by done.
  by case_decide.
Qed.

Lemma validate_ownership_spec st :
  shard_state_wf st →
  safe (validate_ownership st) ∧ (validate_ownership st = Ok tt ↔ owned st).
Proof.
  intros [Hs Ha Hm]. unfold validate_ownership, owned.
  assert (∀ kv, kv ∈ tree_iter (accounts st) → len kv.1 = 32) as Hkeys.
  { intros [k x] Hin%elem_of_tree_iter. by apply (Ha k x). }
  rewrite Forall_forall in Hm. split.
  - apply rbind_safe.
    + apply (foldM_safe (λ k _, k ⊆ tree_iter (accounts st))); [| |done].
      * intros kv l [] Hl. apply check_account_Ok; [done|]. apply Hkeys. set_solver.
      * intros kv l [] [] Hl _. set_solver.
    + intros [] _. apply (foldM_safe (λ k _, k ⊆ pending_messages st)); [| |done].
      * intros m l [] Hl. apply check_message_Ok; [done|]. apply Hm. set_solver.
      * intros m l [] [] Hl _. set_solver.
  - rewrite rbind_Ok. split.
    + intros ([] & H1 & H2). rewrite foldM_check in H1. rewrite foldM_check in H2.
      rewrite Forall_forall in H1. rewrite Forall_forall in H2. split.
      * intros k x Hk. apply elem_of_tree_iter in Hk.
        apply (check_account_Ok _ (k, x)); [done|by apply (Hkeys (k, x))|by apply H1].
      * apply Forall_forall. intros m Hin. apply check_message_Ok; [done|by apply Hm|by apply H2].
    + intros [H1 H2]. exists tt. rewrite !foldM_check, !Forall_forall. rewrite Forall_forall in H2. split.
      * intros [k x] Hin. apply check_account_Ok; [done|by apply (Hkeys (k, x))|].
        apply elem_of_tree_iter in Hin. by apply (H1 k x).
      * intros m Hin. apply check_message_Ok; [done|by apply Hm|by apply H2].
Qed.

(** *** The children of a shard *)

Definition child (s : ShardIdent) (l p b : Z) : ShardIdent := shard_at (workchain_id s) (l + 1) (2 * p + b).

Lemma child_valid s l p b :
  shard_prefix s l p → l < 60 → b = 0 ∨ b = 1 → shard_prefix (child s l p b) (l + 1) (2 * p + b).
Proof.
  intros (Hl & Hp & _) Hlt Hb. apply shard_at_prefix; [lia|]. rewrite Z.pow_add_r by lia. lia.
Qed.

(** Every account of a shard belongs to exactly one of its children. *)
Lemma child_partition s l p a :
  shard_prefix s l p → l < 60 → len a = 32 →
  (in_shard s a ↔ in_shard (child s l p 0) a ∨ in_shard (child s l p 1) a) ∧
  ¬ (in_shard (child s l p 0) a ∧ in_shard (child s l p 1) a).
Proof.
  intros Hs Hl Ha. unfold in_shard.
  rewrite (contains_account_Ok s l p a Hs Ha).
  rewrite (contains_account_Ok _ _ _ a (child_valid s l p 0 Hs Hl (or_introl eq_refl)) Ha).
  rewrite (contains_account_Ok _ _ _ a (child_valid s l p 1 Hs Hl (or_intror eq_refl)) Ha).
  pose proof Hs as (Hl0 & _ & _).
  assert (be_val a / 2 ^ (256 - l) = be_val a / 2 ^ (256 - (l + 1)) / 2) as ->.
  { rewrite Z.div_div by lia. replace (256 - l) with (256 - (l + 1) + 1) by lia.
    by rewrite Z.pow_add_r by lia. }
  set (x := be_val a / 2 ^ (256 - (l + 1))).
  rewrite !Ok_true_bool_decide. pose proof (Z.div_mod x 2 ltac:(lia)). pose proof (Z.mod_pos_bound x 2 ltac:(lia)).
  split; lia.
Qed.

(** ** Splitting and merging states *)

Section sharding_proofs.
Context {C : Crypto}.

Definition in_left (s : ShardIdent) (kv : bytes * AccountState) : Prop := in_shard s kv.1.
#[export] Instance in_left_dec s kv : Decision (in_left s kv).
Proof. unfold in_left. apply _. Defined.

Lemma split_accounts_loop s l : ∀ la ra : tree_accounts,
  valid_shard s → NoDup l.*1 → (∀ kv, kv ∈ l → len kv.1 = 32) →
  (∀ k, k ∈ l.*1 → la !! k = None ∧ ra !! k = None) →
  ∃ la' ra', foldM (split_account s) l (la, ra) = Ok (la', ra') ∧
    (∀ k x, la' !! k = Some x ↔ (k, x) ∈ l ∧ in_shard s k ∨ la !! k = Some x) ∧
    (∀ k x, ra' !! k = Some x ↔ (k, x) ∈ l ∧ ¬ in_shard s k ∨ ra !! k = Some x).
Proof.
  induction l as [|[k0 x0] l IH]; intros la ra Hs Hnd Hk Hfresh.
  { exists la, ra. split; [done|]. split; set_solver. }
  rewrite fmap_cons in Hnd. apply NoDup_cons in Hnd as [Hn Hnd]. cbn [fst] in Hn.
  destruct (Hfresh k0) as [Hla Hra]; [rewrite fmap_cons; constructor|].
  assert (∀ k x, (k, x) ∈ l → k ≠ k0) as Hne.
  { intros k x Hin ->. apply Hn. apply list_elem_of_fmap. by exists (k0, x). }
  cbn [foldM split_account fst snd]. rewrite contains_account_bool by (done || (apply (Hk (k0, x0)); constructor)).
  cbn [map_err]. rewrite !rbind_ret.
  destruct (IH (if bool_decide (in_shard s k0) then <[ k0 := x0 ]> la else la)
    (if bool_decide (in_shard s k0) then ra else <[ k0 := x0 ]> ra)) as (la' & ra' & Hf & Hl & Hr).
  { done. } { done. } { intros kv Hkv. apply Hk. by constructor. }
  { intros k Hin. assert (k ≠ k0) by (intros ->; done).
    destruct (Hfresh k) as [? ?]; [rewrite fmap_cons; by constructor|].
    case_bool_decide; rewrite ?lookup_insert_ne by congruence; done. }
  exists la', ra'. split; [by case_bool_decide|]. split; intros k x.
  - rewrite Hl, elem_of_cons. case_bool_decide.
    + rewrite lookup_insert_Some. naive_solver.
    + naive_solver.
  - rewrite Hr, elem_of_cons. case_bool_decide.
    + naive_solver.
    + rewrite lookup_insert_Some. naive_solver.
Qed.

Lemma split_accounts_spec s t :
  valid_shard s → map_Forall (λ k _, len k = 32) t →
  foldM (split_account s) (tree_iter t) (∅, ∅) =
    Ok (filter (in_left s) t, filter (λ kv, ¬ in_left s kv) t).
Proof.
  intros Hs Ht.
  destruct (split_accounts_loop s (tree_iter t) ∅ ∅) as (la & ra & -> & Hl & Hr).
  - done.
  - unfold tree_iter. rewrite merge_sort_Permutation. apply NoDup_fst_map_to_list.
  - intros [k x] Hin%elem_of_tree_iter. by apply (Ht k x).
  - done.
  - assert (la = filter (in_left s) t) as ->; [|assert (ra = filter (λ kv, ¬ in_left s kv) t) as ->]; [| |done].
    + apply map_eq. intros k. apply option_eq. intros x.
      rewrite Hl, map_lookup_filter_Some, elem_of_tree_iter. unfold in_left. cbn. set_solver.
    + apply map_eq. intros k. apply option_eq. intros x.
      rewrite Hr, map_lookup_filter_Some, elem_of_tree_iter. unfold in_left. cbn. set_solver.
Qed.

Lemma split_messages_spec s s' l : ∀ lm rm,
  valid_shard s → valid_shard s' → Forall Message_wf l →
  Forall (λ m, dest_in s m ∨ dest_in s' m) l →
  foldM (split_message s s') l (lm, rm) =
    Ok (lm ++ filter (dest_in s) l, rm ++ filter (λ m, ¬ dest_in s m) l).
Proof.
  induction l as [|m l IH]; intros lm rm Hs Hs' Hwf Hin; [by rewrite !app_nil_r|].
  apply Forall_cons in Hwf as [Hm Hwf]. apply Forall_cons in Hin as [Hd Hin].
  cbn [foldM split_message]. rewrite !validate_dest_shard_spec by done. rewrite !filter_cons.
  destruct (decide (dest_in s m)); cbn [is_ok].
  - rewrite rbind_ret, IH, decide_False by (done || tauto). by rewrite <-app_assoc.
  - rewrite (decide_True (P:=dest_in s' m)) by tauto. cbn [is_ok].
    rewrite rbind_ret, IH, decide_True by done. by rewrite <-app_assoc.
Qed.

Lemma lxor_1 p : Z.lxor p 1 = p + 1 - 2 * (p mod 2).
Proof.
  pose proof (Z.add_lxor_2land p 1) as H. pose proof (Z.land_ones p 1 ltac:(lia)) as Hl.
  change (Z.ones 1) with 1 in Hl. change (2 ^ 1) with 2 in Hl. lia.
Qed.

(** The masked difference of two shard identifiers of one length *)
Lemma differing_prefixes s s' l p p' :
  shard_prefix s l p → shard_prefix s' l p' → l ≠ 0 →
  Z.land (Z.lxor (shard_prefix_ident s) (shard_prefix_ident s')) (shl64 (not64 0) (64 - l)) =
    Z.lxor p p' * 2 ^ (64 - l).
Proof.
  intros Hs Hs' Hl. pose proof (shard_prefix_u64 _ _ _ Hs). pose proof (shard_prefix_u64 _ _ _ Hs').
  pose proof Hs as (Hl0 & _).
  assert (shl64 (not64 0) (64 - l) = prefix_mask l) as ->
    by (unfold prefix_mask; by rewrite (proj2 (Z.eqb_neq l 0))).
  rewrite land_prefix by (lia || by apply lxor_bound). f_equal.
  rewrite <-Z.shiftr_div_pow2, Z.shiftr_lxor, !Z.shiftr_div_pow2 by lia.
  by rewrite (shard_prefix_top _ _ _ Hs), (shard_prefix_top _ _ _ Hs').
Qed.

(** [s] and [s'] are the two children of [par]. *)
Definition siblings (par s s' : ShardIdent) : Prop :=
  ∃ l p b, shard_prefix par l p ∧ l < 60 ∧ (b = 0 ∨ b = 1) ∧
    s = child par l p b ∧ s' = child par l p (1 - b).

Lemma siblings_sym par s s' : siblings par s s' → siblings par s' s.
Proof.
  intros (l & p & b & Hp & Hl & Hb & -> & ->). exists l, p, (1 - b).
  split_and!; [done|done|lia|done|]. f_equal. lia.
Qed.

Lemma half_prefix l p : 0 < l → 0 ≤ p < 2 ^ l → 0 ≤ p / 2 < 2 ^ (l - 1).
Proof.
  intros Hl. replace l with (l - 1 + 1) at 1 by lia. rewrite Z.pow_add_r by lia. change (2 ^ 1) with 2.
  intros. split; [apply Z.div_pos; lia|apply Z.div_lt_upper_bound; lia].
Qed.

Lemma common_parent_prefixes s s' l p l' p' :
  shard_prefix s l p → shard_prefix s' l' p' →
  common_parent s s' =
    if decide (l ≠ 0 ∧ workchain_id s = workchain_id s' ∧ l' = l ∧ Z.lxor p p' = 1)
    then Ok (shard_at (workchain_id s) (l - 1) (p / 2)) else Err InvalidMergeSiblings.
Proof.
  intros Hs Hs'. pose proof Hs as (Hl & Hp & Hid).
  pose proof (shard_prefix_u64 _ _ _ Hs) as Hu. pose proof (shard_prefix_u64 _ _ _ Hs') as Hu'.
  unfold common_parent. rewrite (proj2 (prefix_len_Ok s l Hu)), (proj2 (prefix_len_Ok s' l' Hu')) by eauto.
  cbn [map_err]. rewrite rbind_ret.
  destruct (Z.eqb_spec l 0); cbn [orb]; [rewrite decide_False; tauto|].
  destruct (Z.eqb_spec (workchain_id s) (workchain_id s')); cbn [negb orb];
    [|rewrite decide_False; tauto].
  case_bool_decide as Hll; cbn [negb]; [|rewrite decide_False; naive_solver].
  apply (inj Ok) in Hll as ->. cbv zeta.
  rewrite (differing_prefixes s s' l p p'), shl64_1 by (done || lia).
  assert (0 < 2 ^ (64 - l)) by lia.
  destruct (Z.eqb_spec (Z.lxor p p' * 2 ^ (64 - l)) (2 ^ (64 - l))); cbn [negb].
  - rewrite decide_True by (split_and!; (done || nia)).
    assert (from_prefix_bits (workchain_id s) (shard_prefix_ident s) (l - 1) =
      Ok (shard_at (workchain_id s) (l - 1) (p / 2))) as ->; [|done].
    apply from_prefix_bits_Ok; [lia|done|]. split; [done|].
    replace (shard_prefix_ident s / 2 ^ (64 - (l - 1))) with (p / 2).
    { apply shard_at_prefix; [lia|]. apply half_prefix; lia. }
    rewrite <-(shard_prefix_top _ _ _ Hs), Z.div_div by lia.
    replace (64 - (l - 1)) with (64 - l + 1) by lia. by rewrite Z.pow_add_r by lia.
  - rewrite decide_False; [done|]. intros (_ & _ & _ & Hx). rewrite Hx in *. lia.
Qed.

Lemma common_parent_spec s s' par :
  valid_shard s → valid_shard s' → common_parent s s' = Ok par ↔ siblings par s s'.
Proof.
  intros (l & p & Hs) (l' & p' & Hs'). rewrite (common_parent_prefixes s s' l p l' p' Hs Hs').
  pose proof Hs as (Hl & Hp & _). split.
  - case_decide as H; [|done]. destruct H as (Hl0 & Hw & -> & Hx). intros [= <-].
    assert (p' = Z.lxor p 1) as Hp'.
    { rewrite <-Hx, <-Z.lxor_assoc, Z.lxor_nilpotent. by rewrite Z.lxor_0_l. }
    rewrite lxor_1 in Hp'. pose proof (Z.div_mod p 2 ltac:(lia)).
    pose proof (Z.mod_pos_bound p 2 ltac:(lia)).
    exists (l - 1), (p / 2), (p mod 2). split_and!; [|lia|lia| |].
    + apply shard_at_prefix; [lia|]. apply half_prefix; lia.
    + rewrite (shard_prefix_at s l p Hs) at 1. unfold child. cbn [workchain_id shard_at]. f_equal; lia.
    + rewrite (shard_prefix_at s' l p' Hs') at 1. unfold child. cbn [workchain_id shard_at].
      rewrite <-Hw. f_equal; lia.
  - intros (l0 & p0 & b & Hpar & Hl0 & Hb & -> & ->).
    pose proof (child_valid par l0 p0 b Hpar Hl0 Hb) as H1.
    pose proof (child_valid par l0 p0 (1 - b) Hpar Hl0 ltac:(lia)) as H2.
    destruct (shard_prefix_inj _ _ _ _ _ Hs H1) as [-> ->].
    destruct (shard_prefix_inj _ _ _ _ _ Hs' H2) as [-> ->].
    pose proof Hpar as (Hl1 & Hp1 & _).
    rewrite decide_True.
    + f_equal. rewrite (shard_prefix_at par l0 p0 Hpar) at 2. cbn [child workchain_id shard_at].
      f_equal; [lia|]. symmetry. apply (Z.div_unique _ 2 p0 b); lia.
    + cbn [child workchain_id shard_at]. split_and!; [lia|done|done|].
      assert (2 * p0 + (1 - b) = Z.lxor (2 * p0 + b) 1) as ->.
      { rewrite lxor_1. replace ((2 * p0 + b) mod 2) with b; [lia|].
        apply (Z.mod_unique _ 2 p0); lia. }
      by rewrite <-Z.lxor_assoc, Z.lxor_nilpotent, Z.lxor_0_l.
Qed.

#[export] Instance message_le_total : Total message_le.
Proof. intros l r. unfold message_le. lia. Qed.
#[export] Instance message_le_trans : Transitive message_le.
Proof. intros a b c. unfold message_le. lia. Qed.

Lemma sort_messages_sorted ms : StronglySorted message_le (sort_messages ms).
Proof. apply StronglySorted_merge_sort; apply _. Qed.
Lemma sort_messages_Permutation ms : sort_messages ms ≡ₚ ms.
Proof. apply merge_sort_Permutation. Qed.

(** What a shard state becomes at a split: [l] and [p] are its prefix. *)
Definition left_state (st : ShardState) (l p : Z) : ShardState :=
  let s := child (state_shard st) l p 0 in
  {| state_shard := s; accounts := filter (in_left s) (accounts st);
     pending_messages := sort_messages (filter (dest_in s) (pending_messages st)) |}.
Definition right_state (st : ShardState) (l p : Z) : ShardState :=
  let s := child (state_shard st) l p 0 in
  {| state_shard := child (state_shard st) l p 1;
     accounts := filter (λ kv, ¬ in_left s kv) (accounts st);
     pending_messages := sort_messages (filter (λ m, ¬ dest_in s m) (pending_messages st)) |}.

Lemma dest_children s l p m :
  shard_prefix s l p → l < 60 → Message_wf m →
  (dest_in s m ↔ dest_in (child s l p 0) m ∨ dest_in (child s l p 1) m) ∧
  ¬ (dest_in (child s l p 0) m ∧ dest_in (child s l p 1) m).
Proof.
  intros Hs Hl (_ & [_ Ha] & _).
  destruct (child_partition s l p (addr_account (dest_address m)) Hs Hl Ha) as [H1 H2].
  unfold dest_in. cbn [child workchain_id shard_at]. tauto.
Qed.

Lemma split_runs st l p :
  shard_state_wf st → shard_prefix (state_shard st) l p →
  split_shard_state st =
    if decide (owned st)
    then if 60 <=? l then Err InvalidShardPrefixLength
         else Ok (left_state st l p, right_state st l p)
    else match validate_ownership st with Err e => Err e | _ => Panic end.
Proof.
  intros Hwf Hp. destruct (validate_ownership_spec st Hwf) as [Hsafe Hok].
  unfold split_shard_state. case_decide as Ho.
  2: { destruct (validate_ownership st) as [[]|e|]; [by destruct Ho; apply Hok|done|done]. }
  rewrite (proj2 Hok Ho), rbind_ret. unfold new_leaf. rewrite (split_leaf_spec _ _ _ 0 0 Hp).
  destruct (Z.leb_spec 60 l) as [|Hl]; [done|]. rewrite rbind_ret. unfold new_leaf. cbv iota beta.
  change (shard_at (workchain_id (state_shard st)) (l + 1) (2 * p + 1)) with (child (state_shard st) l p 1).
  replace (shard_at (workchain_id (state_shard st)) (l + 1) (2 * p)) with (child (state_shard st) l p 0)
    by (unfold child; f_equal; lia).
  pose proof (child_valid _ _ _ 0 Hp Hl (or_introl eq_refl)) as H0.
  pose proof (child_valid _ _ _ 1 Hp Hl (or_intror eq_refl)) as H1.
  rewrite split_accounts_spec by (by eexists _, _ || apply Hwf). rewrite rbind_ret. cbv iota beta.
  rewrite split_messages_spec.
  - by rewrite rbind_ret.
  - by eexists _, _.
  - by eexists _, _.
  - apply Hwf.
  - destruct Ho as [_ Ho]. pose proof (ssw_messages _ Hwf) as Hm. rewrite Forall_forall in Ho, Hm |- *.
    intros m Hin. by apply (dest_children _ _ _ m Hp Hl (Hm m Hin)), Ho.
Qed.

Lemma children_owned st l p :
  shard_state_wf st → shard_prefix (state_shard st) l p → l < 60 → owned st →
  (shard_state_wf (left_state st l p) ∧ owned (left_state st l p)) ∧
  (shard_state_wf (right_state st l p) ∧ owned (right_state st l p)).
Proof.
  intros [Hs Ha Hm] Hp Hl [Hoa Hom]. rewrite Forall_forall in Hm. rewrite Forall_forall in Hom.
  pose proof (child_valid _ _ _ 0 Hp Hl (or_introl eq_refl)) as H0.
  pose proof (child_valid _ _ _ 1 Hp Hl (or_intror eq_refl)) as H1.
  split; split; split; cbn [left_state right_state state_shard accounts pending_messages].
  - by eexists _, _.
  - intros k x [Hk _]%map_lookup_filter_Some. by apply (Ha k x).
  - apply Forall_forall. intros m. rewrite sort_messages_Permutation, list_elem_of_filter.
    intros [_ ?]. by apply Hm.
  - by intros k x [_ Hk]%map_lookup_filter_Some.
  - apply Forall_forall. intros m. rewrite sort_messages_Permutation, list_elem_of_filter. by intros [? _].
  - by eexists _, _.
  - intros k x [Hk _]%map_lookup_filter_Some. by apply (Ha k x).
  - apply Forall_forall. intros m. rewrite sort_messages_Permutation, list_elem_of_filter.
    intros [_ ?]. by apply Hm.
  - intros k x [Hk Hn]%map_lookup_filter_Some. cbn in Hn.
    destruct (proj1 (proj1 (child_partition _ _ _ k Hp Hl (Ha k x Hk))) (Hoa k x Hk)); [done|done].
  - apply Forall_forall. intros m. rewrite sort_messages_Permutation, list_elem_of_filter.
    intros [Hn Hin]. destruct (proj1 (proj1 (dest_children _ _ _ m Hp Hl (Hm m Hin))) (Hom m Hin)); done.
Qed.

Lemma merge_runs a b :
  shard_state_wf a → shard_state_wf b →
  safe (merge_shard_states a b) ∧
  ∀ m, merge_shard_states a b = Ok m ↔ owned a ∧ owned b ∧ ∃ par,
    siblings par (state_shard a) (state_shard b) ∧
    m = {| state_shard := par; accounts := accounts b ∪ accounts a;
           pending_messages := sort_messages (pending_messages a ++ pending_messages b) |}.
Proof.
  intros Ha Hb. destruct (validate_ownership_spec a Ha) as [Hsa Hoa].
  destruct (validate_ownership_spec b Hb) as [Hsb Hob]. unfold merge_shard_states. split.
  - apply rbind_safe; [done|]. intros [] _. apply rbind_safe; [done|]. intros [] _.
    apply rbind_safe; [|done]. destruct (ssw_shard _ Ha) as (l & p & Hp).
    destruct (ssw_shard _ Hb) as (l' & p' & Hp'). rewrite (common_parent_prefixes _ _ _ _ _ _ Hp Hp').
    by case_decide.
  - intros m. rewrite !rbind_Ok. split.
    + intros ([] & Hoa' & ([] & Hob' & (par & Hpar & [= <-])%rbind_Ok)%rbind_Ok).
      apply Hoa in Hoa'. apply Hob in Hob'. apply common_parent_spec in Hpar; [|apply Ha|apply Hb].
      eauto.
    + intros (Hoa' & Hob' & par & Hpar & ->). apply Hoa in Hoa'. apply Hob in Hob'.
      apply common_parent_spec in Hpar; [|apply Ha|apply Hb].
      exists tt. split; [done|]. by rewrite Hob', rbind_ret, Hpar.
Qed.

Lemma left_right_accounts st l p :
  accounts (left_state st l p) ∪ accounts (right_state st l p) = accounts st ∧
  accounts (left_state st l p) ##ₘ accounts (right_state st l p).
Proof.
  cbn [left_state right_state accounts].
  split; [apply map_filter_union_complement|apply map_disjoint_filter_complement].
Qed.

Lemma left_right_messages st l p :
  pending_messages (left_state st l p) ++ pending_messages (right_state st l p) ≡ₚ pending_messages st.
Proof.
  cbn [left_state right_state pending_messages]. rewrite !sort_messages_Permutation.
  apply filter_complement_Permutation.
Qed.

(** [m] is [st] with its messages in the committed order. *)
Definition same_state (m st : ShardState) : Prop :=
  state_shard m = state_shard st ∧ accounts m = accounts st ∧
  pending_messages m ≡ₚ pending_messages st ∧ StronglySorted message_le (pending_messages m).

(** What a split does, for the properties that build on it *)
Lemma split_spec st :
  shard_state_wf st →
  safe (split_shard_state st) ∧
  ((∃ r, split_shard_state st = Ok r) ↔
    owned st ∧ ∃ l p, shard_prefix (state_shard st) l p ∧ l < 60) ∧
  ∀ L R, split_shard_state st = Ok (L, R) →
    siblings (state_shard st) (state_shard L) (state_shard R) ∧
    accounts L ∪ accounts R = accounts st ∧ accounts L ##ₘ accounts R ∧
    pending_messages L ++ pending_messages R ≡ₚ pending_messages st ∧
    StronglySorted message_le (pending_messages L) ∧ StronglySorted message_le (pending_messages R) ∧
    owned L ∧ owned R ∧
    (∃ m, merge_shard_states L R = Ok m ∧ same_state m st) ∧
    (∃ m, merge_shard_states R L = Ok m ∧ same_state m st).
Proof.
  intros Hwf. destruct (ssw_shard _ Hwf) as (l & p & Hp). rewrite (split_runs st l p Hwf Hp).
  destruct (validate_ownership_spec st Hwf) as [Hsafe Hok]. split_and!.
  - case_decide as Ho; [by case_match|].
    destruct (validate_ownership st) as [[]|e|]; [by destruct Ho; apply Hok|done|done].
  - split.
    + intros [r Hr]. case_decide; [|by destruct (validate_ownership st)]. split; [done|].
      exists l, p. split; [done|]. case_match; bool_to_prop; [done|lia].
    + intros (Ho & l' & p' & Hp' & Hl). destruct (shard_prefix_inj _ _ _ _ _ Hp Hp') as [<- <-].
      rewrite decide_True, (proj2 (Z.leb_gt _ _)) by done. by eexists.
  - intros L R Hr. case_decide as Ho; [|by destruct (validate_ownership st)].
    destruct (Z.leb_spec 60 l) as [|Hl]; [done|]. simplify_eq.
    destruct (children_owned st l p Hwf Hp Hl Ho) as [[HwL HoL] [HwR HoR]].
    destruct (left_right_accounts st l p) as [Hacc Hdis].
    pose proof (left_right_messages st l p) as Hmsg.
    assert (siblings (state_shard st) (state_shard (left_state st l p))
      (state_shard (right_state st l p))) as Hsib.
    { exists l, p, 0. split_and!; try done. by left. }
    split_and!; try done; try apply sort_messages_sorted.
    + eexists. split; [apply merge_runs; [done|done|]; split; [done|]; split; [done|]; by eexists|].
      split_and!; [done| | |apply sort_messages_sorted].
      * cbn [accounts]. by rewrite map_union_comm.
      * cbn [pending_messages]. by rewrite sort_messages_Permutation.
    + eexists. split.
      { apply merge_runs; [done|done|]. split; [done|]. split; [done|].
        eexists. split; [by apply siblings_sym|done]. }
      split_and!; [done|done| |apply sort_messages_sorted].
      cbn [pending_messages]. rewrite sort_messages_Permutation.
      by rewrite (Permutation_app_comm (pending_messages (right_state st l p))).
Qed.

(** C19: a shard state is split exactly when it owns its accounts and messages
    and its prefix is shorter than 60 bits, and nothing makes the split abort.
    The children's accounts partition the parent's, their messages together are
    the parent's, each in committed order; each child owns what it received;
    and merging the children, in either order, gives the parent back. *)
Theorem split_partitions st :
  shard_state_wf st →
  safe (split_shard_state st) ∧
  ((∃ r, split_shard_state st = Ok r) ↔
    owned st ∧ ∃ l p, shard_prefix (state_shard st) l p ∧ l < 60) ∧
  ∀ L R, split_shard_state st = Ok (L, R) →
    siblings (state_shard st) (state_shard L) (state_shard R) ∧
    accounts L ∪ accounts R = accounts st ∧ accounts L ##ₘ accounts R ∧
    pending_messages L ++ pending_messages R ≡ₚ pending_messages st ∧
    StronglySorted message_le (pending_messages L) ∧ StronglySorted message_le (pending_messages R) ∧
    owned L ∧ owned R ∧
    (∃ m, merge_shard_states L R = Ok m ∧ same_state m st) ∧
    (∃ m, merge_shard_states R L = Ok m ∧ same_state m st).
Proof. apply split_spec. Qed.

Lemma children_disjoint a b par l p :
  shard_prefix par l p → l < 60 → shard_state_wf a → shard_state_wf b → owned a → owned b →
  state_shard a = child par l p 0 → state_shard b = child par l p 1 →
  accounts a ##ₘ accounts b.
Proof.
  intros Hp Hl Ha Hb [Hoa _] [Hob _] Hsa Hsb. apply map_disjoint_spec. intros k x y Hx Hy.
  pose proof (Hoa k x Hx) as H0. pose proof (Hob k y Hy) as H1. rewrite Hsa in H0. rewrite Hsb in H1.
  apply (child_partition par l p k Hp Hl (ssw_accounts _ Ha k x Hx)). done.
Qed.

(** A state put together from two children owns its content, ... *)
Lemma joined_owned m a b l p :
  shard_prefix (state_shard m) l p → l < 60 → shard_state_wf a → shard_state_wf b →
  owned a → owned b →
  state_shard a = child (state_shard m) l p 0 → state_shard b = child (state_shard m) l p 1 →
  accounts m = accounts a ∪ accounts b →
  pending_messages m ≡ₚ pending_messages a ++ pending_messages b →
  shard_state_wf m ∧ owned m.
Proof.
  intros Hp Hl [_ Ha1 Ha2] [_ Hb1 Hb2] [Hoa1 Hoa2] [Hob1 Hob2] Hsa Hsb Hacc Hmsg.
  rewrite Hsa in Hoa1, Hoa2. rewrite Hsb in Hob1, Hob2. split.
  { split; [by eexists _, _|rewrite Hacc; by apply map_Forall_union_2|].
    rewrite Hmsg. by apply Forall_app. }
  rewrite Forall_forall in Ha2, Hoa2. rewrite Forall_forall in Hb2, Hob2. split.
  - rewrite Hacc. apply map_Forall_union_2; intros k x Hk.
    + apply (child_partition _ _ _ k Hp Hl (Ha1 k x Hk)). left. by apply (Hoa1 k x).
    + apply (child_partition _ _ _ k Hp Hl (Hb1 k x Hk)). right. by apply (Hob1 k x).
  - rewrite Hmsg. apply Forall_app; split; apply Forall_forall; intros w Hw.
    + apply (dest_children _ _ _ w Hp Hl (Ha2 w Hw)). left. by apply Hoa2.
    + apply (dest_children _ _ _ w Hp Hl (Hb2 w Hw)). right. by apply Hob2.
Qed.

(** ... and splits into them. *)
Lemma joined_splits m a b l p :
  shard_prefix (state_shard m) l p → l < 60 → shard_state_wf a → shard_state_wf b →
  owned a → owned b →
  state_shard a = child (state_shard m) l p 0 → state_shard b = child (state_shard m) l p 1 →
  accounts m = accounts a ∪ accounts b →
  pending_messages m ≡ₚ pending_messages a ++ pending_messages b →
  owned m ∧ ∃ L R, split_shard_state m = Ok (L, R) ∧ same_state L a ∧ same_state R b.
Proof.
  intros Hp Hl Ha Hb Hoa Hob Hsa Hsb Hacc Hmsg.
  pose proof (children_disjoint _ _ _ _ _ Hp Hl Ha Hb Hoa Hob Hsa Hsb) as Hdis.
  destruct (joined_owned m a b l p) as [Hm Ho]; [done..|].
  destruct Hoa as [Hoa1 Hoa2]. destruct Hob as [Hob1 Hob2]. rewrite Hsa in Hoa1, Hoa2.
  rewrite Hsb in Hob1, Hob2. destruct Ha as [_ Ha1 Ha2]. destruct Hb as [_ Hb1 Hb2].
  rewrite Forall_forall in Ha2, Hoa2. rewrite Forall_forall in Hb2, Hob2.
  split; [done|]. exists (left_state m l p), (right_state m l p).
  rewrite (split_runs m l p Hm Hp), decide_True, (proj2 (Z.leb_gt _ _)) by done. split; [done|].
  assert (∀ k x, accounts b !! k = Some x → ¬ in_shard (child (state_shard m) l p 0) k) as Hbn.
  { intros k x Hk H0. apply (child_partition _ _ _ k Hp Hl (Hb1 k x Hk)). split; [done|].
    by apply (Hob1 k x). }
  assert (∀ w, w ∈ pending_messages b → ¬ dest_in (child (state_shard m) l p 0) w) as Hbd.
  { intros w Hw H0. apply (dest_children _ _ _ w Hp Hl (Hb2 w Hw)). split; [done|]. by apply Hob2. }
  split; (split_and!; [done| | |apply sort_messages_sorted]);
    cbn [left_state right_state accounts pending_messages].
  - apply map_eq. intros k. apply option_eq. intros x.
    rewrite map_lookup_filter_Some, Hacc, lookup_union_Some by done. unfold in_left. cbn [fst].
    split; [intros [[?|?] ?]; [done|by destruct (Hbn k x)]|]. intros Hk. split; [by left|by apply (Hoa1 k x)].
  - rewrite sort_messages_Permutation, Hmsg, filter_app.
    rewrite (list_filter_all _ (pending_messages a)) by done.
    by rewrite (list_filter_none _ (pending_messages b)), app_nil_r by done.
  - apply map_eq. intros k. apply option_eq. intros x.
    rewrite map_lookup_filter_Some, Hacc, lookup_union_Some by done. unfold in_left. cbn [fst].
    split; [intros [[Hk|?] Hn]; [by destruct Hn; apply (Hoa1 k x)|done]|].
    intros Hk. split; [by right|by apply (Hbn k x)].
  - rewrite sort_messages_Permutation, Hmsg, filter_app.
    rewrite (list_filter_none _ (pending_messages a)).
    + by rewrite (list_filter_all _ (pending_messages b)) by done.
    + intros w Hw Hn. by apply Hn, Hoa2.
Qed.

(** C20: two shard states merge exactly when each owns its content and they are
    the two children of one shard, and nothing makes the merge abort. The merged
    state holds both account maps, which are disjoint, and all messages in
    committed order, it owns them, and splitting it again restores both states
    up to the order of their messages. *)
Theorem merge_joins a b :
  shard_state_wf a → shard_state_wf b →
  safe (merge_shard_states a b) ∧
  ((∃ m, merge_shard_states a b = Ok m) ↔
    owned a ∧ owned b ∧ ∃ par, siblings par (state_shard a) (state_shard b)) ∧
  ∀ m, merge_shard_states a b = Ok m →
    siblings (state_shard m) (state_shard a) (state_shard b) ∧ owned m ∧
    accounts a ##ₘ accounts b ∧ accounts m = accounts a ∪ accounts b ∧
    pending_messages m ≡ₚ pending_messages a ++ pending_messages b ∧
    StronglySorted message_le (pending_messages m) ∧
    ∃ L R, split_shard_state m = Ok (L, R) ∧
      ((same_state L a ∧ same_state R b) ∨ (same_state L b ∧ same_state R a)).
Proof.
  intros Ha Hb. destruct (merge_runs a b Ha Hb) as [Hsafe Hrun]. split; [done|]. split.
  { split.
    - intros [m Hm]. apply Hrun in Hm as (? & ? & par & ? & _). eauto.
    - intros (? & ? & par & ?). eexists. apply Hrun. eauto. }
  intros m Hm. apply Hrun in Hm as (Hoa & Hob & par & Hsib & Hm).
  assert (state_shard m = par ∧ accounts m = accounts b ∪ accounts a ∧
    pending_messages m ≡ₚ pending_messages a ++ pending_messages b ∧
    StronglySorted message_le (pending_messages m)) as (Hs & Hacc & Hmsg & Hsort).
  { subst m. split_and!; [done|done|apply sort_messages_Permutation|apply sort_messages_sorted]. }
  clear Hm. subst par. pose proof Hsib as (l & p & c & Hp & Hl & Hc & Hsa & Hsb).
  destruct Hc as [-> | ->].
  - change (1 - 0) with 1 in Hsb.
    pose proof (children_disjoint a b _ l p Hp Hl Ha Hb Hoa Hob Hsa Hsb) as Hdis.
    rewrite (map_union_comm (accounts b)) in Hacc by done.
    destruct (joined_splits m a b l p) as (Ho & L & R & ? & ? & ?); [done..|].
    split_and!; [done|done|done|done|done|done|]. exists L, R. auto.
  - change (1 - 1) with 0 in Hsb.
    pose proof (children_disjoint b a _ l p Hp Hl Hb Ha Hob Hoa Hsb Hsa) as Hdis.
    destruct (joined_splits m b a l p) as (Ho & L & R & ? & ? & ?); [done..| |].
    { by rewrite Hmsg, Permutation_app_comm. }
    split_and!; [done|done|done|by rewrite (map_union_comm (accounts a))|done|done|].
    exists L, R. auto.
Qed.
End sharding_proofs.

(** ** The commitment to the shard tree *)

Section tree_proofs.
Context {C : Crypto} {L : CryptoLaws C}.

Fixpoint tree_shards_wf (t : ShardTreeNode) : Prop :=
  match t with
  | Leaf s _ _ => ShardIdent_wf s
  | Internal_node s lc rc => ShardIdent_wf s ∧ tree_shards_wf lc ∧ tree_shards_wf rc
  end.

(** Equality up to the load averages *)
Fixpoint same_shape (t t' : ShardTreeNode) : Prop :=
  match t, t' with
  | Leaf s _ _, Leaf s' _ _ => s = s'
  | Internal_node s lc rc, Internal_node s' lc' rc' => s = s' ∧ same_shape lc lc' ∧ same_shape rc rc'
  | _, _ => False
  end.

Lemma tree_hash_len t : len (tree_hash t) = 32.
Proof. destruct t; apply len_domain_hash. Qed.

(** The tree commitment determines the tree of shards, leaf by leaf, unless
    SHA-256 collides; the load averages are not part of it. *)
Theorem tree_commitment t t' :
  tree_shards_wf t → tree_shards_wf t' →
  (same_shape t t' → tree_hash t = tree_hash t') ∧
  (tree_hash t = tree_hash t' → same_shape t t' ∨ sha256_collision).
Proof.
  revert t'. induction t as [s b g|s lc IHl rc IHr]; intros [s' b' g'|s' lc' rc'];
    cbn [tree_shards_wf same_shape tree_hash].
  - intros Hs Hs'. split; [by intros ->|]. intros [H%app_inv_head|?]%domain_hash_binding; [|by right].
    left. exact (codec_enc_inj _ _ shard_from_bytes _ _ Hs Hs' H).
  - intros _ _. split; [done|]. intros [H|?]%domain_hash_binding; [by simplify_eq|by right].
  - intros _ _. split; [done|]. intros [H|?]%domain_hash_binding; [by simplify_eq|by right].
  - intros (Hs & Hl & Hr) (Hs' & Hl' & Hr').
    destruct (IHl lc' Hl Hl') as [Hl1 Hl2]. destruct (IHr rc' Hr Hr') as [Hr1 Hr2]. split.
    { intros (-> & Hl3 & Hr3). by rewrite (Hl1 Hl3), (Hr1 Hr3). }
    intros [H|?]%domain_hash_binding; [|by right].
    apply app_inj_1 in H as [_ H]; [|done].
    apply app_inj_1 in H as [H1 H]; [|apply Nat2Z.inj; exact (eq_trans (shard_to_bytes_len s) (eq_sym (shard_to_bytes_len s')))].
    apply app_inj_1 in H as [H2 H3]; [|apply Nat2Z.inj; exact (eq_trans (tree_hash_len _) (eq_sym (tree_hash_len _)))].
    pose proof (codec_enc_inj _ _ shard_from_bytes _ _ Hs Hs' H1) as ->.
    destruct (Hl2 H2) as [?|?]; [|by right]. destruct (Hr2 H3) as [?|?]; [|by right]. by left.
Qed.
End tree_proofs.

(** ** Announcements and triggers *)

(** A full window whose every sample passes a test *)
Lemma window_met (n : nat) (f : LoadSample → bool) (P : LoadSample → Prop) (Q : Prop) l :
  (0 < n)%nat → (∀ s, f s = true ↔ Q ∧ P s) →
  (len l =? Z.of_nat n) && forallb f l = true ↔ length l = n ∧ Q ∧ Forall P l.
Proof.
  intros Hn Hf. rewrite andb_true_iff, Z.eqb_eq, forallb_forall, Forall_forall. unfold len. split.
  - intros [Hl Hall]. assert (length l = n) as Hl' by lia.
    assert (∀ s, s ∈ l → Q ∧ P s) as H by (intros s Hs; apply Hf, Hall; by apply list_elem_of_In).
    destruct l as [|s l]; [cbn in Hl'; lia|]. split_and!; [done|apply (H s); constructor|].
    intros x Hx. by apply H.
  - intros (Hl & HQ & Hall). split; [lia|]. intros x Hx. apply Hf. split; [done|]. apply Hall.
    by apply list_elem_of_In.
Qed.

(** A transition is committed exactly when it carries one (split) or two
    (merge) announcements, each exactly eight blocks old, and the task group
    rotated at most once in between; heights near the end of the 64-bit range
    are refused, not wrapped. A window of loads triggers exactly when it has its
    full length and every sample meets both thresholds of a positive limit. *)
Theorem transition_rules kind hs h a c samples byte_limit gas_limit :
  (validate_transition_commit kind hs h a c = Ok tt ↔
    length hs = match kind with Split => 1%nat | Merge => 2%nat end ∧
    Forall (λ x, x + 8 = h ∧ x + 8 < 2 ^ 64) hs ∧ Z.abs (a - c) ≤ 1) ∧
  (split_trigger_met samples byte_limit gas_limit = true ↔
    length samples = 256%nat ∧ byte_limit ≠ 0 ∧ gas_limit ≠ 0 ∧
    Forall (λ s, 75 * byte_limit ≤ 100 * block_bytes s ∧
                 75 * gas_limit ≤ 100 * gas_used_sample s) samples) ∧
  (merge_trigger_met samples byte_limit gas_limit = true ↔
    length samples = 1024%nat ∧ byte_limit ≠ 0 ∧ gas_limit ≠ 0 ∧
    Forall (λ s, 100 * block_bytes s ≤ 20 * byte_limit ∧
                 100 * gas_used_sample s ≤ 20 * gas_limit) samples).
Proof.
  split_and!.
  - unfold validate_transition_commit. cbv zeta.
    destruct (Z.eqb_spec (len hs) (match kind with Split => 1 | Merge => 2 end)) as [Hl|Hl];
      cbn [negb orb].
    2: { split; [done|]. intros (Hn & _). unfold len in Hl. destruct kind; lia. }
    assert (length hs = match kind with Split => 1%nat | Merge => 2%nat end) as Hn
      by (unfold len in Hl; destruct kind; lia).
    destruct (existsb _ hs) eqn:Hex.
    + split; [done|]. intros (_ & Hall & _). exfalso.
      apply existsb_exists in Hex as (x & Hx & Hbad). apply list_elem_of_In in Hx.
      rewrite Forall_forall in Hall. destruct (Hall x Hx) as [Heq Hlt]. revert Hbad.
      unfold checked_add_u, PREPARE_LEAD_BLOCKS. rewrite (proj2 (Z.ltb_lt _ _)) by done.
      by rewrite (proj2 (Z.eqb_eq _ _)).
    + assert (Forall (λ x, x + 8 = h ∧ x + 8 < 2 ^ 64) hs) as Hall.
      { apply Forall_forall. intros x Hx. apply not_true_iff_false in Hex.
        destruct (Z.lt_ge_cases (x + 8) (2 ^ 64)).
        - split; [|done]. destruct (Z.eq_dec (x + 8) h) as [|Hne]; [done|]. exfalso. apply Hex, existsb_exists.
          exists x. split; [by apply list_elem_of_In|].
          unfold checked_add_u, PREPARE_LEAD_BLOCKS. rewrite (proj2 (Z.ltb_lt _ _)) by done.
          by rewrite (proj2 (Z.eqb_neq _ _)).
        - exfalso. apply Hex, existsb_exists. exists x. split; [by apply list_elem_of_In|].
          unfold checked_add_u, PREPARE_LEAD_BLOCKS. by rewrite (proj2 (Z.ltb_ge _ _)). }
      destruct (Z.ltb_spec 1 (Z.abs (a - c))); split; [done|intros (_ & _ & ?); lia| |done].
      intros _. split_and!; [done|done|lia].
  - unfold split_trigger_met, SPLIT_LOAD_WINDOW_BLOCKS.
    rewrite (window_met 256 (λ s, at_least_percent (block_bytes s) byte_limit 75 &&
      at_least_percent (gas_used_sample s) gas_limit 75)
      (λ s, 75 * byte_limit ≤ 100 * block_bytes s ∧ 75 * gas_limit ≤ 100 * gas_used_sample s)
      (byte_limit ≠ 0 ∧ gas_limit ≠ 0)); [tauto|lia|].
    intros s. unfold at_least_percent. rewrite !andb_true_iff, !negb_true_iff, !Z.eqb_neq, !Z.leb_le. lia.
  - unfold merge_trigger_met, MERGE_LOAD_WINDOW_BLOCKS.
    rewrite (window_met 1024 (λ s, at_most_percent (block_bytes s) byte_limit 20 &&
      at_most_percent (gas_used_sample s) gas_limit 20)
      (λ s, 100 * block_bytes s ≤ 20 * byte_limit ∧ 100 * gas_used_sample s ≤ 20 * gas_limit)
      (byte_limit ≠ 0 ∧ gas_limit ≠ 0)); [tauto|lia|].
    intros s. unfold at_most_percent. rewrite !andb_true_iff, !negb_true_iff, !Z.eqb_neq, !Z.leb_le. lia.
Qed.

(** ** Samples *)

Lemma tree_commitment_witness :
  let t := Internal_node (shard_root 0) (Leaf (shard_at 0 1 0) 7 8) (Leaf (shard_at 0 1 1) 0 0) in
  let t' := Internal_node (shard_root 0) (new_leaf (shard_at 0 1 0)) (new_leaf (shard_at 0 1 1)) in
  tree_hash (H:=toy_crypto) t = tree_hash (H:=toy_crypto) t'.
Proof.
  intros t t'. assert (∀ l p, 0 ≤ l ≤ 60 → 0 ≤ p < 2 ^ l → ShardIdent_wf (shard_at 0 l p)) as Hat.
  { intros l p Hl Hp. split; [done|]. exists l, p. by apply shard_at_prefix. }
  apply (tree_commitment (C:=toy_crypto) t t').
  - split; [apply (Hat 0 0); done|]. split; apply Hat; done.
  - split; [apply (Hat 0 0); done|]. split; apply Hat; done.
  - done.
Defined.

Definition sample_state : ShardState :=
  {| state_shard := shard_root 0;
     accounts := <[ be_bytes 32 5 := Uninitialized ]> (<[ be_bytes 32 (2 ^ 255) := Destroyed ]> ∅);
     pending_messages := [sample_message 1 (2 ^ 255) 7; sample_message 1 2 9; sample_message 3 4 3] |}.

Lemma sample_state_wf : shard_state_wf sample_state.
Proof.
  split.
  - exists 0, 0. by unfold shard_prefix.
  - apply map_Forall_insert_2; [apply len_be_bytes|].
    apply map_Forall_insert_2; [apply len_be_bytes|]. apply map_Forall_empty.
  - repeat (constructor; [apply sample_message_wf; unfold in_u; lia|]). constructor.
Qed.

Lemma split_partitions_witness :
  ∃ r, split_shard_state (C:=toy_crypto) sample_state = Ok r ∧
    (len (pending_messages r.1), len (pending_messages r.2)) = (2, 1) ∧ owned r.1 ∧ owned r.2.
Proof.
  destruct (split_partitions (C:=toy_crypto) sample_state sample_state_wf) as (_ & _ & H).
  assert (match split_shard_state (C:=toy_crypto) sample_state with
    | Ok r => bool_decide ((len (pending_messages r.1), len (pending_messages r.2)) = (2, 1))
    | _ => false end = true) as Hr by by vm_compute.
  destruct (split_shard_state (C:=toy_crypto) sample_state) as [[l r]|e|] eqn:Hs;
    [|discriminate Hr|discriminate Hr].
  destruct (H l r eq_refl) as (_ & _ & _ & _ & _ & _ & Hl & Hr' & _).
  apply bool_decide_eq_true in Hr.
  exact (ex_intro _ (l, r) (conj eq_refl (conj Hr (conj Hl Hr')))).
Defined.

Definition sample_half (b : Z) : ShardState :=
  {| state_shard := shard_at 0 1 b;
     accounts := <[ be_bytes 32 (b * 2 ^ 255 + 5) := Uninitialized ]> ∅;
     pending_messages := [sample_message 1 (b * 2 ^ 255 + 9) 7; sample_message 1 (b * 2 ^ 255) 6] |}.

Lemma sample_half_wf b : b = 0 ∨ b = 1 → shard_state_wf (sample_half b).
Proof.
  intros Hb. split.
  - exists 1, b. apply shard_at_prefix; lia.
  - apply map_Forall_insert_2; [apply len_be_bytes|]. apply map_Forall_empty.
  - repeat (constructor; [apply sample_message_wf; unfold in_u; lia|]). constructor.
Qed.

Lemma merge_joins_witness :
  ∃ m, merge_shard_states (C:=toy_crypto) (sample_half 1) (sample_half 0) = Ok m ∧
    len (pending_messages m) = 4 ∧ owned m.
Proof.
  destruct (merge_joins (C:=toy_crypto) (sample_half 1) (sample_half 0)
    (sample_half_wf 1 (or_intror eq_refl)) (sample_half_wf 0 (or_introl eq_refl))) as (_ & _ & H).
  assert (match merge_shard_states (C:=toy_crypto) (sample_half 1) (sample_half 0) with
    | Ok m => len (pending_messages m) =? 4 | _ => false end = true) as Hr by by vm_compute.
  destruct (merge_shard_states (C:=toy_crypto) (sample_half 1) (sample_half 0)) as [m|e|] eqn:Hs;
    [|discriminate Hr|discriminate Hr].
  destruct (H m eq_refl) as (_ & Ho & _).
  apply Z.eqb_eq in Hr. exact (ex_intro _ m (conj eq_refl (conj Hr Ho))).
Defined.
