(* ===== verification/Economics.v ===== *)
(** [onx-economics]: fees and inflation ([lib.rs]), slashing and the distribution
    of epoch rewards ([slashing.rs]). *)
From S2P Require Import Prelude Bytes Machine Primitives Consensus.

Inductive EconomicsError : Type :=
  | ZeroDenominator
  | SupplyCapExceeded
  | InvalidFeeRate
  | InvalidValidatorStake
  | DuplicateValidator.

#[export] Instance EconomicsError_eq_dec : EqDecision EconomicsError.
Proof. solve_decision. Defined.

Definition INITIAL_SUPPLY_NANOS : Z := 5000000000000000000.
Definition ANNUAL_INFLATION_RATE_BPS : Z := 175.
Definition FEE_BURN_RATIO_PERCENT : Z := 50.
Definition STORAGE_FEE_RATE_PER_BYTE_PER_MLT : Z := 10.

Definition calculate_storage_fee (byte_count last_trans_lt new_lt : Z) : result EconomicsError Z :=
  if new_lt <=? last_trans_lt then Ok 0
  else
    let? elapsed_lt := sub_u new_lt last_trans_lt in
    Ok (saturating_mul_u 128 (saturating_mul_u 128 byte_count elapsed_lt)
          STORAGE_FEE_RATE_PER_BYTE_PER_MLT / 1000000).

(** The product aborts on overflow. *)
Definition split_transaction_fee (total_fee_nanos : Z) : result EconomicsError (Z * Z) :=
  let? product := mul_u 128 total_fee_nanos FEE_BURN_RATIO_PERCENT in
  let burn_amount := product / 100 in
  Ok (burn_amount, saturating_sub_u total_fee_nanos burn_amount).

Definition calculate_epoch_inflation_reward (total_stake_nanos epochs_per_year : Z) :
    result EconomicsError Z :=
  if epochs_per_year =? 0 then Err ZeroDenominator
  else
    let? product := mul_u 128 total_stake_nanos ANNUAL_INFLATION_RATE_BPS in
    let annual_reward := product / 10000 in
    Ok (annual_reward / epochs_per_year).

(** ** Slashing *)

Definition DOUBLE_SIGN_SLASH_BPS : Z := 10000.
Definition OFFLINE_SLASH_BPS : Z := 1000.

Inductive SlashingReason : Type := DoubleSigning | PersistentOffline.

Record SlashOutcome : Type := { debited : Z; remaining_stake : Z }.

Definition apply_slash (stake_nanos basis_points : Z) : SlashOutcome :=
  let debited := saturating_mul_u 128 stake_nanos basis_points / 10000 in
  {| debited := debited; remaining_stake := saturating_sub_u stake_nanos debited |}.

Definition slash_for_misconduct (stake_nanos : Z) (reason : SlashingReason) : SlashOutcome :=
  let basis_points := match reason with
                      | DoubleSigning => DOUBLE_SIGN_SLASH_BPS
                      | PersistentOffline => OFFLINE_SLASH_BPS
                      end in
  apply_slash stake_nanos basis_points.

(** ** Rewards *)

Record ValidatorStake : Type := { stake_id : Z; stake_nanos : Z }.
Record ValidatorReward : Type := { reward_id : Z; reward_nanos : Z }.

#[export] Instance ValidatorStake_eq_dec : EqDecision ValidatorStake.
Proof. solve_decision. Defined.
#[export] Instance ValidatorReward_eq_dec : EqDecision ValidatorReward.
Proof. solve_decision. Defined.

(** The key of the stable [sort_by_key] *)
Definition stake_le (a b : ValidatorStake) : Prop := stake_id a ≤ stake_id b.
#[export] Instance stake_le_dec : RelDecision stake_le.
Proof. intros a b. unfold stake_le. apply _. Defined.

Definition check_stake (v : ValidatorStake) (acc : gset Z * Z) : result EconomicsError (gset Z * Z) :=
  let '(ids, total_stake) := acc in
  if stake_nanos v =? 0 then Err InvalidValidatorStake
  else if bool_decide (stake_id v ∈ ids) then Err DuplicateValidator
  else Ok ({[ stake_id v ]} ∪ ids, saturating_add_u 128 total_stake (stake_nanos v)).

(** [iter().sum()] aborts on overflow. *)
Definition sum_rewards (rewards : list ValidatorReward) : result EconomicsError Z :=
  foldM (λ r acc, add_u 128 acc (reward_nanos r)) rewards 0.

(** [for reward in iter_mut().take(n) { reward.reward_nanos += 1 }] *)
Fixpoint increment_first (n : nat) (rewards : list ValidatorReward) :
    result EconomicsError (list ValidatorReward) :=
  match n, rewards with
  | S n, r :: rest =>
      let? x := add_u 128 (reward_nanos r) 1 in
      let? rest := increment_first n rest in
      Ok ({| reward_id := reward_id r; reward_nanos := x |} :: rest)
  | _, _ => Ok rewards
  end.

(** [distribute_epoch_rewards] after the sort *)
Definition distribute_sorted (validators : list ValidatorStake) (epochs_per_year : Z) :
    result EconomicsError (list ValidatorReward) :=
  let? (_, total_stake) := foldM check_stake validators (∅, 0) in
  if total_stake =? 0 then Err InvalidValidatorStake
  else
    let? total_reward := calculate_epoch_inflation_reward total_stake epochs_per_year in
    let rewards :=
      (λ v, {| reward_id := stake_id v;
               reward_nanos := saturating_mul_u 128 total_reward (stake_nanos v) / total_stake |})
      <$> validators in
    let? allocated := sum_rewards rewards in
    let? rest := sub_u total_reward allocated in
    increment_first (Z.to_nat (as_u 64 rest)) rewards.

Definition distribute_epoch_rewards (validators : list ValidatorStake) (epochs_per_year : Z) :
    result EconomicsError (list ValidatorReward) :=
  distribute_sorted (merge_sort stake_le validators) epochs_per_year.

(** ** Fees and slashes, proved *)

Lemma mul_u_Ok {E} w a b c : mul_u (E:=E) w a b = Ok c ↔ c = a * b ∧ a * b < 2 ^ w.
Proof.
  unfold mul_u. destruct (checked_mul_u w a b) as [d|] eqn:Hd; cbn [unwrap].
  - apply checked_mul_u_Some in Hd. split; [intros <-%(inj Ok); tauto|]. intros [-> _]. f_equal. tauto.
  - split; [done|]. intros [-> H]. unfold checked_mul_u in Hd.
    by rewrite (proj2 (Z.ltb_lt _ _)) in Hd.
Qed.

(** The fee of a transaction is split without loss into halves that differ
    by at most one nanocoin, the validators getting the odd one; the split
    aborts only on fees of more than [2^128 / 50]. A slash debits the rounded
    share and leaves the rest, all of it for double signing and a tenth for
    absence, as long as the product fits 128 bits. The storage fee is zero
    unless logical time advanced, and otherwise exact until it saturates. *)
Theorem fees_and_slashes (fee stake bytes last new : Z) :
  in_u 128 fee → in_u 128 stake → in_u 64 bytes → in_u 64 last → in_u 64 new →
  (split_transaction_fee fee = Panic ↔ 2 ^ 128 ≤ fee * 50) ∧
  (∀ burn validator, split_transaction_fee fee = Ok (burn, validator) →
    burn = fee / 2 ∧ burn + validator = fee ∧ burn ≤ validator ≤ burn + 1) ∧
  (stake * 10000 < 2 ^ 128 →
    slash_for_misconduct stake DoubleSigning = {| debited := stake; remaining_stake := 0 |} ∧
    slash_for_misconduct stake PersistentOffline =
      {| debited := stake / 10; remaining_stake := stake - stake / 10 |}) ∧
  (∀ bp, 0 ≤ bp ≤ 10000 →
    let o := apply_slash stake bp in 0 ≤ debited o ≤ stake ∧ debited o + remaining_stake o = stake) ∧
  (new ≤ last → calculate_storage_fee bytes last new = Ok 0) ∧
  (last < new → bytes * (new - last) * 10 < 2 ^ 128 →
    calculate_storage_fee bytes last new = Ok (bytes * (new - last) * 10 / 1000000)).
Proof.
  intros Hf Hs Hb Hla Hn. unfold in_u in *. split_and!.
  - unfold split_transaction_fee, FEE_BURN_RATIO_PERCENT, mul_u, checked_mul_u.
    destruct (Z.ltb_spec (fee * 50) (2 ^ 128)); cbn; split; done || lia.
  - intros burn validator (x & [-> _]%mul_u_Ok & [= <- <-])%rbind_Ok.
    unfold FEE_BURN_RATIO_PERCENT, saturating_sub_u.
    replace (fee * 50 / 100) with (fee / 2)
      by (symmetry; change 100 with (2 * 50); apply Z.div_mul_cancel_r; lia).
    pose proof (Z.div_mod fee 2 ltac:(lia)). pose proof (Z.mod_pos_bound fee 2 ltac:(lia)). lia.
  - intros Hfit. unfold slash_for_misconduct, apply_slash, saturating_mul_u, saturating_sub_u,
      DOUBLE_SIGN_SLASH_BPS, OFFLINE_SLASH_BPS. cbv zeta. rewrite !Z.min_l by lia.
    rewrite Z.div_mul by lia. split; [f_equal; lia|].
    replace (stake * 1000 / 10000) with (stake / 10)
      by (symmetry; change 10000 with (10 * 1000); apply Z.div_mul_cancel_r; lia).
    pose proof (Z.div_le_upper_bound stake 10 stake ltac:(lia) ltac:(lia)). f_equal. lia.
  - intros bp Hbp. cbv zeta. unfold apply_slash, saturating_mul_u, saturating_sub_u.
    cbn [debited remaining_stake].
    assert (0 ≤ stake * bp) by (apply Z.mul_nonneg_nonneg; lia).
    assert (stake * bp ≤ stake * 10000) by (apply Z.mul_le_mono_nonneg_l; lia).
    assert (0 ≤ Z.min (stake * bp) (2 ^ 128 - 1) / 10000) by (apply Z.div_pos; lia).
    assert (Z.min (stake * bp) (2 ^ 128 - 1) / 10000 ≤ stake) by (apply Z.div_le_upper_bound; lia).
    lia.
  - intros. unfold calculate_storage_fee. by rewrite (proj2 (Z.leb_le _ _)).
  - intros Hlt Hfit. unfold calculate_storage_fee,
      STORAGE_FEE_RATE_PER_BYTE_PER_MLT, saturating_mul_u.
    rewrite (proj2 (Z.leb_gt _ _)), sub_u_ok by lia. rewrite rbind_ret.
    assert (0 ≤ bytes * (new - last)) by (apply Z.mul_nonneg_nonneg; lia).
    by rewrite !Z.min_l by lia.
Qed.

Lemma fees_and_slashes_witness :
  in_u 128 101 ∧ split_transaction_fee 101 = Ok (50, 51) ∧
  slash_for_misconduct 1005 PersistentOffline = {| debited := 100; remaining_stake := 905 |}.
Proof.
  split; [done|]. split; [reflexivity|].
  apply (fees_and_slashes 101 1005 10 1 5); unfold in_u; lia.
Defined.

(** ** The distribution, proved *)

#[export] Instance stake_le_total : Total stake_le.
Proof. intros a b. unfold stake_le. lia. Qed.
#[export] Instance stake_le_trans : Transitive stake_le.
Proof. intros a b c. unfold stake_le. lia. Qed.

Lemma zsum_nonneg {A} (f : A → Z) l : (∀ x, x ∈ l → 0 ≤ f x) → 0 ≤ zsum f l.
Proof.
  unfold zsum. induction l as [|x l IH]; intros H; cbn; [done|].
  assert (0 ≤ f x) by (apply H; constructor). specialize (IH (λ y Hy, H y (list_elem_of_further _ _ _ Hy))). lia.
Qed.

Lemma check_stakes l : ∀ ids t,
  0 ≤ t < 2 ^ 128 → Forall (λ v, 0 ≤ stake_nanos v) l →
  match foldM check_stake l (ids, t) with
  | Ok (_, t') => t' = Z.min (t + zsum stake_nanos l) (2 ^ 128 - 1) ∧
      Forall (λ v, stake_nanos v ≠ 0) l ∧ NoDup (stake_id <$> l) ∧ Forall (λ v, stake_id v ∉ ids) l
  | Err _ => ¬ (Forall (λ v, stake_nanos v ≠ 0) l ∧ NoDup (stake_id <$> l) ∧
                Forall (λ v, stake_id v ∉ ids) l)
  | Panic => False
  end.
Proof.
  induction l as [|v l IH]; intros ids t Ht Hl; cbn [foldM check_stake].
  { split_and!; [unfold zsum; cbn; lia|by repeat constructor..]. }
  apply Forall_cons in Hl as [Hv Hl].
  destruct (Z.eqb_spec (stake_nanos v) 0); [cbn; rewrite Forall_cons; tauto|].
  case_bool_decide as Hin; [cbn; rewrite !Forall_cons; tauto|].
  rewrite rbind_ret. assert (0 ≤ saturating_add_u 128 t (stake_nanos v) < 2 ^ 128) as Ht'
    by (unfold saturating_add_u; lia).
  specialize (IH ({[ stake_id v ]} ∪ ids) _ Ht' Hl).
  assert (Forall (λ w, stake_id w ∉ {[ stake_id v ]} ∪ ids) l ↔
          (stake_id v ∉ stake_id <$> l) ∧ Forall (λ w, stake_id w ∉ ids) l) as Heq.
  { rewrite !Forall_forall. split.
    - intros H. split; [intros (w & Hw & Hwl)%list_elem_of_fmap|intros w Hwl];
        specialize (H w Hwl); set_solver.
    - intros [H1 H2] w Hwl. specialize (H2 w Hwl).
      assert (stake_id w ≠ stake_id v); [|set_solver]. intros He. apply H1.
      rewrite <-He. apply list_elem_of_fmap. eauto. }
  destruct (foldM check_stake l _) as [[ids' t']|e|];
    [|rewrite !Forall_cons, fmap_cons, NoDup_cons; tauto|done].
  rewrite !Forall_cons, fmap_cons, NoDup_cons.
  destruct IH as (-> & ? & ? & [? ?]%Heq). split_and!; try done.
  unfold saturating_add_u. change (zsum stake_nanos (v :: l)) with (stake_nanos v + zsum stake_nanos l).
  pose proof (zsum_nonneg stake_nanos l (proj1 (Forall_forall _ _) Hl)). lia.
Qed.

Lemma sum_rewards_Ok l : ∀ acc,
  0 ≤ acc → (∀ r, r ∈ l → 0 ≤ reward_nanos r) → acc + zsum reward_nanos l < 2 ^ 128 →
  foldM (E:=EconomicsError) (λ r acc, add_u 128 acc (reward_nanos r)) l acc = Ok (acc + zsum reward_nanos l).
Proof.
  induction l as [|r l IH]; intros acc Hacc Hl Hlt; cbn [foldM].
  { unfold zsum. cbn. f_equal. lia. }
  change (zsum reward_nanos (r :: l)) with (reward_nanos r + zsum reward_nanos l) in *.
  assert (0 ≤ reward_nanos r) by (apply Hl; constructor).
  assert (0 ≤ zsum reward_nanos l) by (apply zsum_nonneg; intros; apply Hl; by constructor).
  rewrite add_u_ok by lia. rewrite rbind_ret, IH; [f_equal; lia|lia| |lia]. intros x Hx. apply Hl. by constructor.
Qed.

Lemma increment_first_Ok n : ∀ l,
  (n ≤ length l)%nat → (∀ r, r ∈ l → reward_nanos r + 1 < 2 ^ 128) →
  ∃ l', increment_first n l = Ok l' ∧ length l' = length l ∧
    zsum reward_nanos l' = zsum reward_nanos l + Z.of_nat n ∧
    ∀ i r, l !! i = Some r → l' !! i =
      Some {| reward_id := reward_id r;
              reward_nanos := reward_nanos r + (if (i <? n)%nat then 1 else 0) |}.
Proof.
  induction n as [|n IH]; intros [|r l] Hn Hl; cbn [increment_first]; cbn [length] in Hn; try lia.
  - exists []. done.
  - exists (r :: l). split_and!; [done|done|lia|]. intros i x ->. destruct x. cbn. do 2 f_equal. lia.
  - rewrite add_u_ok by (apply Hl; constructor). rewrite rbind_ret.
    destruct (IH l) as (l' & -> & Hlen & Hsum & Hlk); [lia|intros; apply Hl; by constructor|].
    rewrite rbind_ret. eexists. split; [done|]. split_and!.
    + cbn. lia.
    + unfold zsum in *. cbn. lia.
    + intros [|i] x Hx; cbn in Hx |- *; [by simplify_eq|]. by apply Hlk.
Qed.

(** Floors of proportional shares leave less than one unit per share. *)
Lemma shares_rest (R T : Z) (l : list ValidatorStake) :
  0 ≤ R → 0 < T → Forall (λ v, 0 ≤ stake_nanos v) l →
  let q := zsum (λ v, R * stake_nanos v / T) l in
  q * T ≤ R * zsum stake_nanos l ∧
  (l ≠ [] → R * zsum stake_nanos l < (q + Z.of_nat (length l)) * T).
Proof.
  intros HR HT. induction 1 as [|v l Hv Hl [IH1 IH2]]; [unfold zsum; cbn; split; [lia|done]|].
  cbv zeta in *.
  change (zsum stake_nanos (v :: l)) with (stake_nanos v + zsum stake_nanos l).
  change (zsum (λ v, R * stake_nanos v / T) (v :: l)) with
    (R * stake_nanos v / T + zsum (λ v, R * stake_nanos v / T) l).
  cbn [length]. pose proof (Z.div_mod (R * stake_nanos v) T ltac:(lia)).
  pose proof (Z.mod_pos_bound (R * stake_nanos v) T HT). split; [lia|]. intros _.
  destruct l as [|w l]; [cbn in *; lia|]. specialize (IH2 ltac:(done)). cbn [length] in *. lia.
Qed.

(** The shares of a distribution: [sorted] by identifier, the first [k] with one more *)
Definition shares (R T : Z) (sorted : list ValidatorStake) (k : nat) (l : list ValidatorReward) : Prop :=
  length l = length sorted ∧
  ∀ i v, sorted !! i = Some v → l !! i =
    Some {| reward_id := stake_id v;
            reward_nanos := R * stake_nanos v / T + (if (i <? k)%nat then 1 else 0) |}.

Definition distributable (vs : list ValidatorStake) (epochs : Z) : Prop :=
  epochs ≠ 0 ∧ vs ≠ [] ∧ Forall (λ v, stake_nanos v ≠ 0) vs ∧ NoDup (stake_id <$> vs).

#[export] Instance distributable_dec vs epochs : Decision (distributable vs epochs).
Proof. unfold distributable. apply _. Defined.

Definition epoch_reward (vs : list ValidatorStake) (epochs : Z) : Z :=
  zsum stake_nanos vs * 175 / 10000 / epochs.

Lemma epoch_reward_bound vs epochs :
  0 ≤ zsum stake_nanos vs < 2 ^ 66 → 0 < epochs →
  0 ≤ epoch_reward vs epochs ∧ epoch_reward vs epochs * zsum stake_nanos vs + 1 < 2 ^ 128 ∧
  epoch_reward vs epochs < 2 ^ 64.
Proof.
  intros HT He. unfold epoch_reward. set (T := zsum stake_nanos vs) in *.
  assert (0 ≤ T * 175 / 10000) as H0 by (apply Z.div_pos; lia).
  assert (T * 175 / 10000 ≤ T * 175 / 10000) by lia.
  assert (T * 175 / 10000 < 2 ^ 61) as H1 by (apply Z.div_lt_upper_bound; lia).
  assert (T * 175 / 10000 / epochs ≤ T * 175 / 10000) as H2.
  { apply Z.div_le_upper_bound; [done|]. nia. }
  assert (0 ≤ T * 175 / 10000 / epochs) as H3 by (apply Z.div_pos; lia).
  split; [done|]. split; [|lia].
  assert (T * 175 / 10000 / epochs * T ≤ 2 ^ 61 * 2 ^ 66) by (apply Z.mul_le_mono_nonneg; lia). lia.
Qed.

Lemma zsum_member {A} (f : A → Z) l x : (∀ y, y ∈ l → 0 ≤ f y) → x ∈ l → f x ≤ zsum f l.
Proof.
  induction l as [|y l IH]; intros Hf Hx; [by apply elem_of_nil in Hx|].
  change (f x ≤ f y + zsum f l). assert (0 ≤ f y) by (apply Hf; constructor).
  assert (∀ z, z ∈ l → 0 ≤ f z) as Hf' by (intros; apply Hf; by constructor).
  pose proof (zsum_nonneg f l Hf'). apply elem_of_cons in Hx as [->|Hx]; [lia|].
  specialize (IH Hf' Hx). lia.
Qed.

(** The rounded shares and their sum *)
Definition floors (R T : Z) (s : list ValidatorStake) : list ValidatorReward :=
  (λ v, {| reward_id := stake_id v; reward_nanos := R * stake_nanos v / T |}) <$> s.

Lemma floors_saturating R s :
  0 ≤ R → R * zsum stake_nanos s < 2 ^ 128 - 1 → Forall (λ v, 0 ≤ stake_nanos v) s →
  (λ v, {| reward_id := stake_id v;
           reward_nanos := saturating_mul_u 128 R (stake_nanos v) / zsum stake_nanos s |}) <$> s
  = floors R (zsum stake_nanos s) s.
Proof.
  intros HR Hlt Hs. rewrite Forall_forall in Hs. apply list_fmap_ext. intros i v Hv.
  f_equal. unfold saturating_mul_u. rewrite Z.min_l; [done|].
  pose proof (zsum_member stake_nanos s v Hs (list_elem_of_lookup_2 _ _ _ Hv)).
  assert (R * stake_nanos v ≤ R * zsum stake_nanos s) by (by apply Z.mul_le_mono_nonneg_l). lia.
Qed.

Lemma zsum_fmap {A B} (f : B → Z) (g : A → B) l : zsum f (g <$> l) = zsum (λ x, f (g x)) l.
Proof. unfold zsum. induction l as [|x l IH]; cbn; [done|]. by rewrite IH. Qed.

Lemma floors_sum R s :
  0 ≤ R < 2 ^ 64 → 0 < zsum stake_nanos s → Forall (λ v, 0 ≤ stake_nanos v) s →
  ∃ q, 0 ≤ q ∧ sum_rewards (floors R (zsum stake_nanos s) s) = Ok q ∧
    zsum reward_nanos (floors R (zsum stake_nanos s) s) = q ∧
    q ≤ R < q + Z.of_nat (length s) ∧ ∀ r, r ∈ floors R (zsum stake_nanos s) s → 0 ≤ reward_nanos r ≤ q.
Proof.
  intros HR HT Hs. set (T := zsum stake_nanos s) in *.
  destruct (shares_rest R T s ltac:(lia) HT Hs) as [Hq1 Hq2]. fold T in Hq1, Hq2.
  set (q := zsum (λ v, R * stake_nanos v / T) s) in *. exists q.
  assert (zsum reward_nanos (floors R T s) = q) as Hq by apply zsum_fmap.
  assert (∀ r, r ∈ floors R T s → 0 ≤ reward_nanos r) as Hnn.
  { intros r (v & -> & Hv)%list_elem_of_fmap. rewrite Forall_forall in Hs. specialize (Hs v Hv).
    cbn. apply Z.div_pos; [|done]. apply Z.mul_nonneg_nonneg; lia. }
  assert (s ≠ []) as Hne by (intros ->; done). specialize (Hq2 Hne).
  assert (q ≤ R ∧ R < q + Z.of_nat (length s)) as [Hle Hlt].
  { split; [apply (Z.mul_le_mono_pos_r _ _ T); done|apply (Z.mul_lt_mono_pos_r T); done]. }
  assert (0 ≤ q) by (rewrite <-Hq; by apply zsum_nonneg).
  split_and!; [done| |done|done|done|].
  - unfold sum_rewards. rewrite sum_rewards_Ok; [by rewrite Hq|done|done|]. rewrite Hq. lia.
  - intros r Hr. split; [by apply Hnn|]. rewrite <-Hq. by apply zsum_member.
Qed.

Lemma distribute_sorted_runs s epochs :
  Forall (λ v, 0 ≤ stake_nanos v) s → 0 < epochs → zsum stake_nanos s < 2 ^ 66 →
  distributable s epochs →
  ∃ l k, distribute_sorted s epochs = Ok l ∧
    zsum reward_nanos l = epoch_reward s epochs ∧ (k < length s)%nat ∧
    shares (epoch_reward s epochs) (zsum stake_nanos s) s k l.
Proof.
  intros Hs0 He HT (Hep & Hne & Hpos & Hnd). unfold distribute_sorted.
  assert (0 < zsum stake_nanos s) as HTpos.
  { destruct s as [|v s]; [done|]. rewrite Forall_forall in Hs0.
    pose proof (zsum_member stake_nanos (v :: s) v Hs0 (list_elem_of_here _ _)).
    apply Forall_cons in Hpos as [? _]. specialize (Hs0 v (list_elem_of_here _ _)). cbn in Hs0. lia. }
  destruct (epoch_reward_bound s epochs) as (HR0 & HRT & HR64); [lia|lia|].
  assert (zsum stake_nanos s * 175 / 10000 / epochs = epoch_reward s epochs) as HR by done.
  set (R := epoch_reward s epochs) in *. clearbody R.
  pose proof (check_stakes s ∅ 0 ltac:(lia) Hs0) as Hcheck.
  destruct (foldM check_stake s (∅, 0)) as [[ids t']|er|]; [|exfalso|done].
  2: { apply Hcheck. split_and!; [done|done|]. apply Forall_forall. set_solver. }
  destruct Hcheck as (-> & _). rewrite rbind_ret, Z.add_0_l, Z.min_l by lia. cbv iota beta.
  rewrite (proj2 (Z.eqb_neq _ _)) by lia. unfold calculate_epoch_inflation_reward.
  rewrite (proj2 (Z.eqb_neq _ _)) by done. rewrite mul_u_ok by (unfold ANNUAL_INFLATION_RATE_BPS; lia).
  rewrite !rbind_ret. unfold ANNUAL_INFLATION_RATE_BPS. rewrite HR.
  rewrite floors_saturating by (done || lia).
  destruct (floors_sum R s ltac:(lia) HTpos Hs0) as (q & Hq0 & -> & Hq & Hrest & Hb). rewrite rbind_ret.
  rewrite sub_u_ok by lia. rewrite rbind_ret, as_u_id by (unfold in_u; lia).
  assert (length (floors R (zsum stake_nanos s) s) = length s) as Hlen by apply length_fmap.
  destruct (increment_first_Ok (Z.to_nat (R - q)) (floors R (zsum stake_nanos s) s))
    as (l & Hl & Hll & Hsum & Hlk); [rewrite Hlen; lia| |].
  { intros r Hr. destruct (Hb r Hr). lia. }
  exists l, (Z.to_nat (R - q)). split_and!; [done|rewrite Hsum, Hq; lia|lia|split; [congruence|]].
  intros i v Hv. apply (Hlk i {| reward_id := stake_id v;
    reward_nanos := R * stake_nanos v / zsum stake_nanos s |}).
  unfold floors. by rewrite list_lookup_fmap, Hv.
Qed.

#[export] Instance distributable_Proper epochs : Proper ((≡ₚ) ==> (↔)) (λ vs, distributable vs epochs).
Proof.
  intros l k Hp. unfold distributable. assert (l = [] ↔ k = []) as ->; [|by rewrite Hp].
  split; intros ->; apply Permutation_nil; [done|by symmetry].
Qed.

Lemma distribute_sorted_Ok s epochs :
  Forall (λ v, 0 ≤ stake_nanos v) s → zsum stake_nanos s < 2 ^ 66 → 0 ≤ epochs →
  ¬ distributable s epochs → ∃ e, distribute_sorted s epochs = Err e.
Proof.
  intros Hs0 HT He Hn. unfold distribute_sorted.
  pose proof (check_stakes s ∅ 0 ltac:(lia) Hs0) as Hcheck.
  destruct (foldM check_stake s (∅, 0)) as [[ids t']|er|]; [|by eexists|done].
  destruct Hcheck as (-> & Hpos & Hnd & _). rewrite rbind_ret. cbv iota beta.
  case_match eqn:Ht; [by eexists|]. unfold calculate_epoch_inflation_reward.
  destruct (Z.eqb_spec epochs 0); [by eexists|]. destruct Hn. unfold distributable.
  split_and!; [done| |done|done]. by intros ->.
Qed.

(** C30: epoch rewards. While the total stake stays below [2^66] nanocoins (the
    initial supply is below [2^63]), the distribution never aborts and succeeds
    exactly for a non-empty list of distinct validators with positive stakes and
    a positive number of epochs. Then the minted total is exactly the epoch
    reward, every validator gets its proportional share rounded down, the
    lowest identifiers one nanocoin more until the rest is used up, and the
    order in which the validators are listed does not matter. *)
Theorem reward_distribution vs epochs :
  Forall (λ v, 0 ≤ stake_nanos v) vs → 0 ≤ epochs → zsum stake_nanos vs < 2 ^ 66 →
  let r := distribute_epoch_rewards vs epochs in
  safe r ∧ ((∃ l, r = Ok l) ↔ distributable vs epochs) ∧
  ∀ l, r = Ok l →
    zsum reward_nanos l = epoch_reward vs epochs ∧
    (∃ sorted k, sorted ≡ₚ vs ∧ StronglySorted stake_le sorted ∧ (k < length vs)%nat ∧
      shares (epoch_reward vs epochs) (zsum stake_nanos vs) sorted k l) ∧
    ∀ vs', vs' ≡ₚ vs → distribute_epoch_rewards vs' epochs = Ok l.
Proof.
  intros Hvs He HT r. subst r. unfold distribute_epoch_rewards.
  pose proof (merge_sort_Permutation stake_le vs) as Hp.
  pose proof (zsum_Permutation stake_nanos _ _ Hp) as HsT.
  pose proof (distributable_Proper epochs _ _ Hp) as Hd. cbv beta in Hd.
  assert (epoch_reward (merge_sort stake_le vs) epochs = epoch_reward vs epochs) as HR
    by (unfold epoch_reward; by rewrite HsT).
  assert (Forall (λ v, 0 ≤ stake_nanos v) (merge_sort stake_le vs)) as Hs by by rewrite Hp.
  destruct (decide (distributable vs epochs)) as [Hdis|Hdis].
  - destruct (distribute_sorted_runs (merge_sort stake_le vs) epochs) as (l & k & Hrun & Hsum & Hk & Hl);
      [done|destruct Hdis; lia|lia|by apply Hd|].
    rewrite HR in Hsum. rewrite HR, HsT in Hl. rewrite (Permutation_length Hp) in Hk. rewrite Hrun.
    split; [done|]. split; [split; eauto|]. intros ? [= <-]. split; [done|]. split.
    { exists (merge_sort stake_le vs), k. split_and!; [done| |done|done].
      apply StronglySorted_merge_sort; apply _. }
    intros vs' Hvs'. rewrite (merge_sort_unique stake_le stake_id vs' vs); [done| | |done].
    + intros a b Hab Hba. by apply (Z.le_antisymm _ _ Hab Hba).
    + rewrite Hvs'. apply Hdis.
  - destruct (distribute_sorted_Ok (merge_sort stake_le vs) epochs) as [e ->]; [done|lia|done|by rewrite Hd|].
    split; [done|]. split; [|by intros ? ?]. split; [by intros (? & ?)|done].
Qed.

(** 300 and 100 nanocoins over one epoch mint 7, shared 2 and 5 *)
Definition sample_validators : list ValidatorStake :=
  [{| stake_id := 2; stake_nanos := 300 |}; {| stake_id := 1; stake_nanos := 100 |}].

Lemma reward_distribution_witness :
  distribute_epoch_rewards sample_validators 1
  = Ok [{| reward_id := 1; reward_nanos := 2 |}; {| reward_id := 2; reward_nanos := 5 |}] ∧
  zsum reward_nanos [{| reward_id := 1; reward_nanos := 2 |}; {| reward_id := 2; reward_nanos := 5 |}]
  = epoch_reward sample_validators 1.
Proof.
  assert (distribute_epoch_rewards sample_validators 1
    = Ok [{| reward_id := 1; reward_nanos := 2 |}; {| reward_id := 2; reward_nanos := 5 |}]) as H
    by (vm_compute; reflexivity).
  destruct (reward_distribution sample_validators 1) as (_ & _ & Hl).
  - unfold sample_validators. repeat constructor; cbn; lia.
  - lia.
  - cbn. lia.
  - split; [exact H|]. apply (Hl _ H).
Defined.

