(* ===== verification/Accountability.v ===== *)
(** The composition of an election, the consensus engines it seats and the slash
    for double signing: onx-consensus (election.rs, engine.rs) and onx-economics
    (slashing.rs). *)
From S2P Require Import Prelude Bytes Machine Primitives ToyCrypto Address Consensus Engine Economics.

Section seats.
Context {C : Crypto} {L : CryptoLaws C}.
Implicit Types (v : ValidatorSetEntry) (vs : list ValidatorSetEntry).

(** ** The registry of an engine *)

Definition registry_of (vs : list ValidatorSetEntry) : gmap Z ValidatorSetEntry :=
  list_to_map ((λ v, (validator_id v, v)) <$> vs).

Lemma registry_of_lookup vs i v :
  NoDup (validator_id <$> vs) → registry_of vs !! i = Some v ↔ v ∈ vs ∧ validator_id v = i.
Proof.
  intros Hnd. unfold registry_of. rewrite <-elem_of_list_to_map.
  - rewrite list_elem_of_fmap. split; [by intros (w & [= -> ->] & Hw)|]. intros [Hv <-]. by exists v.
  - by rewrite <-list_fmap_compose.
Qed.

(** Validators with identifiers of their own are all registered. *)
Lemma add_validators_all vs : ∀ entries t,
  NoDup (validator_id <$> vs) → (∀ v, v ∈ vs → entries !! validator_id v = None) →
  ∃ t', foldM add_validator vs (entries, t) = Ok (registry_of vs ∪ entries, t').
Proof.
  induction vs as [|v vs IH]; intros entries t Hnd Hfree; cbn [foldM].
  { exists t. unfold registry_of. cbn. by rewrite (left_id_L ∅ (∪)). }
  rewrite fmap_cons in Hnd. apply NoDup_cons in Hnd as [Hv Hnd]. unfold add_validator at 1. rewrite Hfree by left. rewrite rbind_ret.
  edestruct (IH (<[validator_id v := v]> entries)) as [t' Ht']; [done| |].
  - intros w Hw. rewrite lookup_insert_ne; [apply Hfree; by right|]. intros He. apply Hv. rewrite He.
    by apply list_elem_of_fmap_2.
  - exists t'. rewrite Ht'. f_equal. f_equal. unfold registry_of. cbn [fmap list_fmap list_to_map foldr].
    rewrite <-insert_union_r, insert_union_l; [done|]. apply not_elem_of_dom. rewrite dom_list_to_map_L.
    rewrite <-list_fmap_compose. intros Hin%elem_of_list_to_set. by apply Hv.
Qed.

(** The stake of some of the registered validators is the sum over them. *)
Lemma stake_of_registry vs (X : gset Z) :
  NoDup (validator_id <$> vs) → X ⊆ list_to_set (validator_id <$> vs) →
  stake_of (registry_of vs) X = zsum actual_stake (filter (λ v, validator_id v ∈ X) vs).
Proof.
  intros Hnd HX. unfold stake_of, weight.
  assert (elements X ≡ₚ validator_id <$> filter (λ v, validator_id v ∈ X) vs) as Hp.
  { apply NoDup_Permutation; [apply NoDup_elements| |].
    - eapply sublist_NoDup; [exact Hnd|]. apply fmap_sublist, sublist_filter.
    - intros i. rewrite elem_of_elements, list_elem_of_fmap. split.
      + intros Hi. specialize (HX i Hi). apply elem_of_list_to_set, list_elem_of_fmap in HX as (v & -> & Hv).
        exists v. split; [done|]. by apply list_elem_of_filter.
      + by intros (v & -> & [Hi _]%list_elem_of_filter). }
  rewrite (zsum_Permutation _ _ _ Hp), zsum_fmap. clear Hp.
  assert (Forall (λ v, v ∈ vs) (filter (λ v, validator_id v ∈ X) vs)) as Hall.
  { apply Forall_forall. by intros v [_ Hv]%list_elem_of_filter. }
  induction Hall as [|v l Hv _ IH]; [done|]. unfold zsum in *. cbn [foldr]. rewrite IH. f_equal.
  unfold stake_at. by rewrite (proj2 (registry_of_lookup vs _ v Hnd)).
Qed.

(** ** The elected validators *)

(** What an election seats: identifiers are the ranks, stakes are not negative
    and add up to at most what was proposed. *)
Lemma elected_seats cs config res :
  Forall candidate_wf cs → 0 ≤ validator_cap config → run_election cs config = Ok res →
  len (validators res) ≤ 2 ^ 32 →
  NoDup (validator_id <$> validators res) ∧ Forall (λ v, 0 ≤ actual_stake v) (validators res) ∧
  zsum actual_stake (validators res) ≤ zsum proposed_stake cs.
Proof.
  intros Hwf Hcap Hrun Hlen.
  pose proof (run_election_Ok _ _ _ Hcap Hrun) as Hsub.
  destruct (run_election_runs _ _ Hwf Hcap Hsub) as (res' & Hrun' & sorted & last & Hp & _ & Hlast & Hseats & Href & Hout & Hsum).
  rewrite Hrun in Hrun'. apply (inj Ok) in Hrun' as <-.
  assert (∀ k v, validators res !! k = Some v → validator_id v = Z.of_nat k ∧ 0 ≤ actual_stake v) as Hids.
  { intros k v Hv. pose proof (lookup_lt_Some _ _ _ Hv) as Hk. unfold len in *.
    destruct (lookup_lt_is_Some_2 sorted k) as [c Hc]; [rewrite Hp; lia|].
    destruct (Hout k c Hc) as (rf & _ & _ & Ho). rewrite (proj2 (Z.ltb_lt _ _)) in Ho by lia.
    destruct Ho as (v' & Hv' & Hid & _ & Hst & _). rewrite Hv in Hv'. injection Hv' as <-.
    rewrite Hid, Hst. unfold as_u. rewrite Z.mod_small by lia. split; [done|].
    assert (candidate_wf c) as [Hpc _].
    { rewrite Forall_forall in Hwf. apply Hwf. rewrite <-Hp. by eapply list_elem_of_lookup_2. }
    apply actual_stake_range. lia. }
  assert (Forall (λ r, 0 ≤ amount r) (refunds res)) as Hamounts.
  { apply Forall_lookup. intros k rf Hrf. pose proof (lookup_lt_Some _ _ _ Hrf) as Hk. unfold len in *.
    destruct (lookup_lt_is_Some_2 sorted k) as [c Hc]; [rewrite Hp; lia|].
    assert (candidate_wf c) as [Hpc _].
    { rewrite Forall_forall in Hwf. apply Hwf. rewrite <-Hp. by eapply list_elem_of_lookup_2. }
    destruct (Hout k c Hc) as (rf' & Hrf' & _ & Ho). rewrite Hrf in Hrf'. injection Hrf' as <-.
    case_match; [|lia]. destruct Ho as (v & _ & _ & _ & Hst & Hadd).
    pose proof (actual_stake_range (proposed_stake c) (max_load_factor c) (proposed_stake last) ltac:(lia)). lia. }
  split_and!.
  - apply NoDup_alt. intros i j x Hi Hj. rewrite list_lookup_fmap in Hi, Hj.
    apply fmap_Some in Hi as (v & Hv & ->). apply fmap_Some in Hj as (w & Hw & He).
    apply Hids in Hv as [Hv _]. apply Hids in Hw as [Hw _]. lia.
  - apply Forall_lookup. intros k v Hv. by apply Hids in Hv as [_ ?].
  - assert (0 ≤ zsum amount (refunds res)); [|lia]. apply zsum_nonneg. intros rf Hrf.
    rewrite Forall_forall in Hamounts. by apply Hamounts.
Qed.

(** An elected set with some stake seats an engine of its total stake. *)
Lemma elected_engine cs config res shard height now to :
  Forall candidate_wf cs → 0 ≤ validator_cap config → run_election cs config = Ok res →
  len (validators res) ≤ 2 ^ 32 → zsum proposed_stake cs < 2 ^ 64 - 1 → 0 < zsum actual_stake (validators res) →
  ∃ e, engine_new shard height (validators res) now to = Ok e ∧
    e_validators e = registry_of (validators res) ∧ e_total_stake e = zsum actual_stake (validators res) ∧
    e_shard e = shard ∧ e_height e = height.
Proof.
  intros Hwf Hcap Hrun Hlen Hprop Hpos.
  destruct (elected_seats _ _ _ Hwf Hcap Hrun Hlen) as (Hnd & Hst & Hle).
  destruct (add_validators_all (validators res) ∅ 0 Hnd) as [t Ht]; [by intros|]. rewrite (right_id_L ∅ (∪)) in Ht.
  assert (dom (registry_of (validators res)) = list_to_set (validator_id <$> validators res)) as Hdom.
  { unfold registry_of. by rewrite dom_list_to_map_L, <-list_fmap_compose. }
  assert (t = zsum actual_stake (validators res)) as ->.
  { destruct (add_validators (validators res) ∅ 0) as [_ Hok]; [done|done|unfold stake_of; by rewrite dom_empty_L, weight_empty|].
    apply Hok in Ht as (_ & -> & _). rewrite stake_of_registry by (done || by rewrite Hdom).
    rewrite list_filter_all; [lia|]. intros v Hv. rewrite Hdom. apply elem_of_list_to_set. by apply list_elem_of_fmap_2. }
  eexists. split.
  - unfold engine_new. rewrite Ht, rbind_ret.
    rewrite bool_decide_false, (proj2 (Z.eqb_neq _ _)) by (lia || (intros He; rewrite He in Hdom; 
      destruct (validators res); [by unfold zsum in Hpos|cbn in Hdom; set_solver])). reflexivity.
  - done.
Qed.

(** Slashing for double signing takes the whole stake. *)
Lemma double_signing_debits stake :
  0 ≤ stake < 2 ^ 64 → debited (slash_for_misconduct stake DoubleSigning) = stake.
Proof.
  intros Hs. unfold slash_for_misconduct, apply_slash, saturating_mul_u, DOUBLE_SIGN_SLASH_BPS. cbn [debited].
  rewrite Z.min_l by lia. apply Z.div_mul. lia.
Qed.

Lemma zsum_ext {A} (f g : A → Z) l : (∀ x, x ∈ l → f x = g x) → zsum f l = zsum g l.
Proof.
  unfold zsum. induction l as [|x l IH]; intros H; cbn [foldr]; [done|]. rewrite H by left. f_equal. apply IH.
  intros y Hy. apply H. by right.
Qed.

Lemma actual_stake_bound vs v :
  Forall (λ v, 0 ≤ actual_stake v) vs → v ∈ vs → 0 ≤ actual_stake v ≤ zsum actual_stake vs.
Proof.
  intros Hall Hv. rewrite Forall_forall in Hall. split; [by apply Hall|]. by apply zsum_member.
Qed.

(** C1: accountable safety, from the election to the slash. The validators that
    an election seats (no more than 2^32, the proposed stakes adding up to less
    than 64 bits hold, some stake locked) start an engine for any shard and height,
    whose total stake is the locked stake. Whatever proposals, votes and timeouts
    two such engines see, if they finalize different blocks in one round, then
    there are seated validators, each with verifying commit signatures for both
    blocks, and slashing them for double signing debits at least a third of the
    stake that the election locked. *)
Theorem elected_finality cs config res shard height :
  Forall candidate_wf cs → 0 ≤ validator_cap config → run_election cs config = Ok res →
  len (validators res) ≤ 2 ^ 32 → zsum proposed_stake cs < 2 ^ 64 - 1 → 0 < zsum actual_stake (validators res) →
  ∀ now1 now2 to1 to2, ∃ e01 e02,
    engine_new shard height (validators res) now1 to1 = Ok e01 ∧
    engine_new shard height (validators res) now2 to2 = Ok e02 ∧
    e_total_stake e01 = zsum actual_stake (validators res) ∧
    ∀ evs1 evs2 e1 e2 f1 f2,
      engine_run evs1 e01 = Ok e1 → engine_run evs2 e02 = Ok e2 →
      e_finalized e1 = Some f1 → e_finalized e2 = Some f2 →
      f_round f1 = f_round f2 → f_block_hash f1 ≠ f_block_hash f2 →
      ∃ guilty, guilty `sublist_of` validators res ∧
        zsum actual_stake (validators res) ≤
          3 * zsum (λ v, debited (slash_for_misconduct (actual_stake v) DoubleSigning)) guilty ∧
        ∀ v, v ∈ guilty → ∃ s1 s2,
          PublicKey_verify (public_key v) VALIDATOR_SIGN_V1
            (vote_signing_bytes shard height (f_round f1) Commit (f_block_hash f1)) s1 = Ok tt ∧
          PublicKey_verify (public_key v) VALIDATOR_SIGN_V1
            (vote_signing_bytes shard height (f_round f1) Commit (f_block_hash f2)) s2 = Ok tt.
Proof.
  intros Hwf Hcap Hrun Hlen Hprop Hpos now1 now2 to1 to2.
  destruct (elected_seats _ _ _ Hwf Hcap Hrun Hlen) as (Hnd & Hst & Hle).
  destruct (elected_engine cs config res shard height now1 to1) as (e01 & Hn1 & Hv1 & Ht1 & Hsh1 & Hh1); [done..|].
  destruct (elected_engine cs config res shard height now2 to2) as (e02 & Hn2 & _ & _ & _ & _); [done..|].
  exists e01, e02. split_and!; [done..|]. intros evs1 evs2 e1 e2 f1 f2 Hr1 Hr2 Hf1 Hf2 Hround Hneq.
  destruct (double_signers shard height (validators res) now1 now2 to1 to2 evs1 evs2 e01 e02 e1 e2 f1 f2)
    as (X & HX & Hdom & Hall); [done..|lia|].
  exists (filter (λ v, validator_id v ∈ X) (validators res)). split; [apply sublist_filter|]. split.
  - rewrite Hv1, Ht1, stake_of_registry in HX; [|done|].
    + etrans; [exact HX|]. apply Z.mul_le_mono_nonneg_l; [lia|]. apply Z.eq_le_incl, zsum_ext. intros v Hv.
      apply list_elem_of_filter in Hv as [_ Hv]. symmetry. apply double_signing_debits.
      destruct (actual_stake_bound (validators res) v) as [? ?]; [done..|]. lia.
    + rewrite Hv1 in Hdom. unfold registry_of in Hdom. rewrite dom_list_to_map_L, <-list_fmap_compose in Hdom. exact Hdom.
  - intros v [Hv Hin]%list_elem_of_filter.
    destruct (Hall _ Hv) as (v1 & v2 & Hi1 & Hi2 & (w1 & Hw1 & Hs1) & (w2 & Hw2 & Hs2) & Hp1 & Hp2 & Hg1 & Hg2 & Hd1 & Hd2 & Hb1 & Hb2).
    rewrite Hv1 in Hw1, Hw2. rewrite Hi1 in Hw1. rewrite Hi2 in Hw2.
    apply registry_of_lookup in Hw1 as [Hw1 He1]; [|done]. apply registry_of_lookup in Hw2 as [Hw2 He2]; [|done].
    assert (∀ w, w ∈ validators res → validator_id w = validator_id v → w = v) as Huniq.
    { intros w Hw He. assert (registry_of (validators res) !! validator_id v = Some w) as H1 by (by apply registry_of_lookup).
      assert (registry_of (validators res) !! validator_id v = Some v) as H2 by (by apply registry_of_lookup). congruence. }
    apply Huniq in Hw1 as ->; [|done]. apply Huniq in Hw2 as ->; [|done].
    exists (v_signature v1), (v_signature v2).
    rewrite Hsh1, Hg1, Hd1, Hp1, Hb1 in Hs1. rewrite Hsh1, Hg2, Hd2, Hp2, Hb2 in Hs2. by split.
Qed.
End seats.

(** ** Samples: an election of three candidates of equal stake *)

Definition sample_seats_candidates : list (CandidateValidatorSpec (C:=toy_crypto)) :=
  (λ n, {| cand_public_key := toy_vk n; proposed_stake := 100; max_load_factor := 100 |}) <$> [1; 2; 3].
Definition sample_seats_config : ElectionConfig := {| validator_cap := 3; max_load_factor_scaled := 1000 |}.

Definition sample_election : result ConsensusError (ElectionResult (C:=toy_crypto)) :=
  run_election sample_seats_candidates sample_seats_config.
Definition sample_seats : ElectionResult (C:=toy_crypto) :=
  match sample_election with Ok r => r | _ => {| validators := []; refunds := [] |} end.

Lemma sample_elected : sample_election = Ok sample_seats.
Proof.
  assert (is_ok sample_election = true) as H by (vm_compute; reflexivity).
  unfold sample_seats. by destruct sample_election.
Qed.

(** The vote and the proposal of validator [i], who holds the key [i + 1] *)
Definition ballot (round : Z) (hash : bytes) (ph : VotePhase) (i : Z) : ConsensusVote :=
  {| v_height := 7; v_round := round; v_phase := ph; v_block_hash := hash; v_validator_id := i;
     v_signature := SecretKey_sign (C:=toy_crypto) (i + 1) VALIDATOR_SIGN_V1
                      (vote_signing_bytes (shard_root 0) 7 round ph hash) |}.
Definition motion (round : Z) (hash : bytes) (i : Z) : ConsensusProposal :=
  {| p_height := 7; p_round := round; p_block_hash := hash; proposer_id := i;
     p_signature := SecretKey_sign (C:=toy_crypto) (i + 1) VALIDATOR_SIGN_V1
                      (proposal_signing_bytes (shard_root 0) 7 round hash) |}.

Definition ballots (round : Z) (hash : bytes) (phases : list VotePhase) (voters : list Z) : list ConsensusVote :=
  ph ← phases; ballot round hash ph <$> voters.

Definition full_round (round : Z) (hash : bytes) (proposer : Z) (voters : list Z) : list engine_event :=
  EvProposal (motion round hash proposer) :: (EvVote <$> ballots round hash [PreVote; PreCommit; Commit] voters).

Definition seats_e0 : ConsensusEngine (C:=toy_crypto) :=
  engine_or (engine_new (shard_root 0) 7 (validators sample_seats) 0 RoundTimeouts_default).

Lemma seats_run evs :
  is_ok (engine_run evs seats_e0) = true → engine_run evs seats_e0 = Ok (engine_or (engine_run evs seats_e0)).
Proof. apply engine_or_Ok. Qed.

Lemma seats_e0_new : engine_new (shard_root 0) 7 (validators sample_seats) 0 RoundTimeouts_default = Ok seats_e0.
Proof. apply engine_or_Ok. by vm_compute. Qed.

Lemma elected_finality_witness :
  run_election sample_seats_candidates sample_seats_config = Ok sample_seats ∧
  ∃ guilty, guilty `sublist_of` validators sample_seats ∧
    300 ≤ 3 * zsum (λ v, debited (slash_for_misconduct (actual_stake v) DoubleSigning)) guilty.
Proof.
  split; [exact sample_elected|].
  destruct (elected_finality sample_seats_candidates sample_seats_config sample_seats (shard_root 0) 7)
    with (now1 := 0) (now2 := 0) (to1 := RoundTimeouts_default) (to2 := RoundTimeouts_default)
    as (e01 & e02 & He1 & He2 & _ & Hall).
  - repeat constructor; cbn; lia.
  - cbn; lia.
  - exact sample_elected.
  - apply Z.leb_le. vm_compute. reflexivity.
  - apply Z.ltb_lt. vm_compute. reflexivity.
  - apply Z.ltb_lt. vm_compute. reflexivity.
  - rewrite seats_e0_new in He1, He2. apply (inj Ok) in He1 as <-. apply (inj Ok) in He2 as <-.
    destruct (Hall (full_round 0 Uint256_ZERO 0 [0; 1]) (full_round 0 Uint256_MAX 0 [1; 2])
      (engine_or (engine_run (full_round 0 Uint256_ZERO 0 [0; 1]) seats_e0))
      (engine_or (engine_run (full_round 0 Uint256_MAX 0 [1; 2]) seats_e0))
      (finalized_or (engine_or (engine_run (full_round 0 Uint256_ZERO 0 [0; 1]) seats_e0)))
      (finalized_or (engine_or (engine_run (full_round 0 Uint256_MAX 0 [1; 2]) seats_e0)))) as (guilty & Hg & Hs & _).
    + apply seats_run. vm_compute. reflexivity.
    + apply seats_run. vm_compute. reflexivity.
    + apply finalized_or_Some. vm_compute. reflexivity.
    + apply finalized_or_Some. vm_compute. reflexivity.
    + vm_compute. reflexivity.
    + apply (bool_decide_unpack _). vm_compute. exact I.
    + exists guilty. split; [exact Hg|exact Hs].
Defined.

(** ** Across rounds *)

Definition event_votes (evs : list engine_event) : list ConsensusVote :=
  omap (λ ev, match ev with EvVote v => Some v | _ => None end) evs.

(** Nobody votes for two blocks in one phase of one round. *)
Definition no_double_vote (vs : list ConsensusVote) : Prop :=
  ∀ v v', v ∈ vs → v' ∈ vs → v_validator_id v = v_validator_id v' → v_round v = v_round v' →
    v_phase v = v_phase v' → v_block_hash v = v_block_hash v'.

Definition consistent (v v' : ConsensusVote) : bool :=
  negb ((v_validator_id v =? v_validator_id v') && (v_round v =? v_round v') && bool_decide (v_phase v = v_phase v'))
  || bool_decide (v_block_hash v = v_block_hash v').

Lemma no_double_vote_check vs : forallb (λ v, forallb (consistent v) vs) vs = true → no_double_vote vs.
Proof.
  intros H v v' Hv Hv' Hi Hr Hp. apply list_elem_of_In in Hv, Hv'.
  apply (proj1 (forallb_forall _ _) H), (proj1 (forallb_forall _ _)) with (x := v') in Hv; [|done].
  unfold consistent in Hv. rewrite Hi, Hr, Hp, !Z.eqb_refl, bool_decide_true in Hv by done. cbn in Hv.
  by apply bool_decide_eq_true in Hv.
Qed.

(** The signature checks, as something to evaluate *)
Lemma votes_signed_check vs :
  forallb (λ v, signed_by (e_validators seats_e0) (v_validator_id v)
    (vote_signing_bytes (e_shard seats_e0) (v_height v) (v_round v) (v_phase v) (v_block_hash v)) (v_signature v)) vs = true →
  Forall (vote_signed seats_e0) vs.
Proof.
  intros H. apply Forall_forall. intros v Hv. apply list_elem_of_In in Hv.
  apply (proj1 (forallb_forall _ _) H) in Hv. by apply signed_by_true.
Qed.

(** The votes of the first round whose commit votes are lost on the way to some *)
Definition finished_round : list engine_event := full_round 0 Uint256_ZERO 0 [0; 1].
Definition lost_commits : list engine_event :=
  EvProposal (motion 0 Uint256_ZERO 0) :: (EvVote <$> ballots 0 Uint256_ZERO [PreVote; PreCommit] [0; 1]) ++
  EvTimeout 3600 :: full_round 1 Uint256_MAX 1 [1; 2].

