(* ===== verification/Values.v ===== *)
(** [onx-execution], [types.rs]: exceptions, operand-stack values, the read
    cursor over a cell and the write accumulator, at the level of single bits. *)
From S2P Require Import Prelude Bytes Machine Primitives Message Cell.

Inductive ExceptionKind : Type :=
  OutOfGas | IntegerOverflow | AbsentNode | MalformedCell | TypeMismatch.

#[export] Instance ExceptionKind_eq_dec : EqDecision ExceptionKind.
Proof. solve_decision. Defined.

Record ExecutionContext : Type := { gen_utime : Z; start_lt : Z; end_lt : Z; gas_limit_ctx : Z }.

Record Slice : Type := {
  slice_cell : Cell; bit_offset : Z; ref_offset : Z; child_cells : list Cell }.

Record Builder : Type := {
  builder_data : bytes; current_bit_len : Z; references : list Cell }.

(** [Integer] holds the 32 big-endian bytes. *)
Inductive StackValue : Type :=
  | Integer (b : bytes)
  | ByteString (b : bytes)
  | CellV (c : Cell)
  | SliceV (s : Slice)
  | BuilderV (b : Builder).

Inductive ExecutionResult : Type :=
  | Success (new_data : Cell) (out_messages : list Message) (gas_used : Z)
  | Exception (kind : ExceptionKind) (gas_used : Z).

#[export] Instance Slice_eq_dec : EqDecision Slice.
Proof. solve_decision. Defined.
#[export] Instance Builder_eq_dec : EqDecision Builder.
Proof. solve_decision. Defined.
#[export] Instance StackValue_eq_dec : EqDecision StackValue.
Proof. solve_decision. Defined.

(** [x.div_ceil(y)] *)
Definition div_ceil (x y : Z) : Z := if x mod y =? 0 then x / y else x / y + 1.

(** ** Bits of byte strings: bit [0] is the most significant bit of byte [0] *)

(** [(bs[i / 8] >> (7 - i % 8)) & 1 == 1] *)
Definition get_bit {E} (bs : bytes) (i : Z) : result E bool :=
  let? b := index bs (i / 8) in
  Ok (Z.land (Z.shiftr (byte_val b) (7 - i mod 8)) 1 =? 1).

(** [bs[i / 8] |= 1 << (7 - i % 8)] *)
Definition set_bit {E} (bs : bytes) (i : Z) : result E bytes :=
  let? b := index bs (i / 8) in
  Ok (<[Z.to_nat (i / 8) := byte_of (Z.lor (byte_val b) (Z.shiftl 1 (7 - i mod 8)))]> bs).

(** ** The read cursor *)

Definition slice_new (cell : Cell) : Slice :=
  {| slice_cell := cell; bit_offset := 0; ref_offset := 0; child_cells := [] |}.

Definition new_with_children (cell : Cell) (children : list Cell) : Slice :=
  {| slice_cell := cell; bit_offset := 0; ref_offset := 0; child_cells := children |}.

Definition remaining_bits (s : Slice) : Z :=
  saturating_sub_u (len (data_bytes (slice_cell s)) * 8) (bit_offset s).

Definition remaining_refs (s : Slice) : Z :=
  saturating_sub_u (len (cell_refs (slice_cell s))) (ref_offset s).

(** The body of the loop over [0..width_bits] *)
Definition copy_bit (data : bytes) (offset width_bits i : Z) (res : bytes) :
    result ExceptionKind bytes :=
  let? bit := get_bit data (offset + i) in
  if bit then set_bit res ((256 - width_bits) + i) else Ok res.

Definition read_bits (s : Slice) (width_bits : Z) : result ExceptionKind (Slice * bytes) :=
  if (remaining_bits s <? width_bits) || (256 <? width_bits) then Err MalformedCell
  else
    let? res := foldM (copy_bit (data_bytes (slice_cell s)) (bit_offset s) width_bits)
                  (seqZ 0 width_bits) (be_bytes 32 0) in
    Ok ({| slice_cell := slice_cell s; bit_offset := bit_offset s + width_bits;
           ref_offset := ref_offset s; child_cells := child_cells s |}, res).

(** ** The write accumulator *)

Definition builder_default : Builder :=
  {| builder_data := []; current_bit_len := 0; references := [] |}.

(** The body of the loop over [0..width_bits] *)
Definition append_bit (val_bytes : bytes) (bit_len width_bits i : Z) (data : bytes) :
    result ExceptionKind bytes :=
  let? bit := get_bit val_bytes ((256 - width_bits) + i) in
  let dest_bit_idx := bit_len + i in
  let data := if len data <=? dest_bit_idx / 8 then data ++ [byte_of 0] else data in
  if bit then set_bit data dest_bit_idx else Ok data.

Definition append_bits (b : Builder) (val_bytes : bytes) (width_bits : Z) :
    result ExceptionKind Builder :=
  if 256 <? width_bits then Err MalformedCell
  else
    let? target_total_bits := add_u 64 (current_bit_len b) width_bits in
    if 128 * 8 <? target_total_bits then Err MalformedCell
    else
      let? data := foldM (append_bit val_bytes (current_bit_len b) width_bits)
                     (seqZ 0 width_bits) (builder_data b) in
      Ok {| builder_data := data; current_bit_len := target_total_bits; references := references b |}.

(** ** Integers on the stack *)

(** [i128::to_be_bytes], sign-extended to 32 bytes *)
Definition from_i128 (v : Z) : StackValue :=
  Integer ((if v <? 0 then be_bytes 16 (2 ^ 128 - 1) else be_bytes 16 0) ++ be_bytes 16 v).

Definition to_i128 (v : StackValue) : result ExceptionKind Z :=
  match v with
  | Integer b => let? low := slice b 16 32 in Ok (as_i 128 (be_val low))
  | _ => Err TypeMismatch
  end.

(** ** Bit strings *)

Definition byte_bits (b : byte) : list bool := (λ k, Z.testbit (byte_val b) (7 - k)) <$> seqZ 0 8.
Definition bits_of (bs : bytes) : list bool := bs ≫= byte_bits.
Definition bits_val (l : list bool) : Z := foldl (λ acc b, 2 * acc + Z.b2z b) 0 l.

Lemma length_byte_bits b : length (byte_bits b) = 8%nat.
Proof. done. Qed.

Lemma len_bits_of bs : len (bits_of bs) = 8 * len bs.
Proof.
  unfold bits_of. induction bs as [|b bs IH]; [done|].
  cbn [mbind list_bind]. rewrite len_app, IH, len_cons. unfold len at 1. rewrite length_byte_bits. lia.
Qed.
#[export] Hint Rewrite len_bits_of : len.

Lemma bits_of_app a b : bits_of (a ++ b) = bits_of a ++ bits_of b.
Proof. apply bind_app. Qed.

Lemma foldl_byte_bits b acc :
  foldl (λ acc b, 2 * acc + Z.b2z b) acc (byte_bits b) = acc * 256 + byte_val b.
Proof.
  destruct b; match goal with |- context [byte_bits ?x] =>
    let l := eval vm_compute in (byte_bits x) in change (byte_bits x) with l;
    let v := eval vm_compute in (byte_val x) in change (byte_val x) with v end;
    cbn [foldl Z.b2z]; lia.
Qed.

Lemma bits_val_bits_of bs : bits_val (bits_of bs) = be_val bs.
Proof.
  unfold bits_val, be_val. generalize 0 as acc. induction bs as [|b bs IH]; intros acc; [done|].
  unfold bits_of. cbn [mbind list_bind]. fold (bits_of bs). rewrite foldl_app, foldl_byte_bits. apply IH.
Qed.

Lemma bits_val_snoc l b : bits_val (l ++ [b]) = 2 * bits_val l + Z.b2z b.
Proof. unfold bits_val. by rewrite foldl_app. Qed.

Lemma pow2_len_snoc {A} (l : list A) x : 2 ^ len (l ++ [x]) = 2 * 2 ^ len l.
Proof. rewrite len_app, Z.pow_add_r by (apply len_nonneg || done). change (2 ^ len [x]) with 2. lia. Qed.

Lemma bits_val_app l k : bits_val (l ++ k) = bits_val l * 2 ^ len k + bits_val k.
Proof.
  induction k as [|b k IH] using rev_ind.
  { rewrite app_nil_r. change (2 ^ len (@nil bool)) with 1. change (bits_val []) with 0. lia. }
  rewrite app_assoc, !bits_val_snoc, pow2_len_snoc, IH. lia.
Qed.

Lemma bits_val_bound l : 0 ≤ bits_val l < 2 ^ len l.
Proof.
  induction l as [|b l IH] using rev_ind; [done|].
  rewrite bits_val_snoc, pow2_len_snoc. destruct b; cbn [Z.b2z]; lia.
Qed.

Lemma bits_val_false n : bits_val (replicate n false) = 0.
Proof. unfold bits_val. induction n as [|n IH]; [done|]. exact IH. Qed.

Lemma byte_bits_lookup b (k : nat) :
  (k < 8)%nat → byte_bits b !! k = Some (Z.testbit (byte_val b) (7 - Z.of_nat k)).
Proof.
  intros Hk. unfold byte_bits. rewrite list_lookup_fmap, lookup_seqZ_lt by lia. by rewrite Z.add_0_l.
Qed.

Lemma bits_of_lookup bs i :
  0 ≤ i < 8 * len bs →
  ∃ b, bs !! Z.to_nat (i / 8) = Some b ∧
    bits_of bs !! Z.to_nat i = Some (Z.testbit (byte_val b) (7 - i mod 8)).
Proof.
  revert i. induction bs as [|b bs IH]; intros i Hi; [change (8 * len (@nil byte)) with 0 in Hi; lia|].
  rewrite len_cons in Hi. unfold bits_of. cbn [mbind list_bind]. fold (bits_of bs).
  destruct (Z.lt_ge_cases i 8).
  - exists b. rewrite Z.div_small, Z.mod_small by lia. split; [done|].
    rewrite lookup_app_l by (rewrite length_byte_bits; lia).
    rewrite byte_bits_lookup by lia. do 2 f_equal. lia.
  - destruct (IH (i - 8) ltac:(lia)) as (c & Hc & Hb). exists c.
    assert (i = (i - 8) + 1 * 8) as Hi8 by lia.
    assert (i / 8 = (i - 8) / 8 + 1) as -> by (rewrite Hi8 at 1; apply Z.div_add; lia).
    assert (i mod 8 = (i - 8) mod 8) as -> by (rewrite Hi8 at 1; apply Z.mod_add; lia). split.
    + assert (0 ≤ (i - 8) / 8) by (apply Z.div_pos; lia).
      rewrite <-Hc, Z2Nat.inj_add, Nat.add_1_r by lia. done.
    + rewrite lookup_app_r by (rewrite length_byte_bits; lia). rewrite length_byte_bits, <-Hb.
      f_equal. lia.
Qed.

Lemma get_bit_spec {E} bs i x :
  0 ≤ i → bits_of bs !! Z.to_nat i = Some x → get_bit (E:=E) bs i = Ok x.
Proof.
  intros H0 Hx. pose proof (lookup_lt_Some _ _ _ Hx) as Hl. pose proof (len_bits_of bs) as Hlen.
  destruct (bits_of_lookup bs i) as (b & Hb & Hb'); [unfold len in *; lia|].
  assert (0 ≤ i / 8) by (apply Z.div_pos; lia). unfold get_bit, index. rewrite (proj2 (Z.leb_le _ _)) by lia. rewrite Hb. cbn [unwrap].
  rewrite rbind_ret. f_equal. assert (x = Z.testbit (byte_val b) (7 - i mod 8)) as -> by congruence.
  pose proof (Z.mod_pos_bound i 8 ltac:(lia)).
  change 1 with (Z.ones 1) at 1. rewrite Z.land_ones, Z.shiftr_div_pow2 by lia.
  rewrite <-Z.testbit_spec' by lia. by destruct (Z.testbit _ _).
Qed.

Lemma byte_bits_set b (m : Z) :
  0 ≤ m < 8 →
  byte_bits (byte_of (Z.lor (byte_val b) (Z.shiftl 1 (7 - m)))) = <[Z.to_nat m := true]> (byte_bits b).
Proof.
  intros Hm. apply list_eq. intros k. destruct (decide (k < 8)%nat) as [Hk|Hk].
  2: { rewrite !lookup_ge_None_2; [done| |]; rewrite ?length_insert, length_byte_bits; lia. }
  rewrite byte_bits_lookup, byte_val_of by done. change 256 with (2 ^ 8).
  rewrite Z.mod_pow2_bits_low, Z.lor_spec, Z.shiftl_1_l, Z.pow2_bits_eqb by lia.
  destruct (decide (k = Z.to_nat m)) as [->|Hne].
  - rewrite list_lookup_insert_eq by (rewrite length_byte_bits; lia).
    rewrite (proj2 (Z.eqb_eq _ _)) by lia. by rewrite orb_true_r.
  - rewrite list_lookup_insert_ne, byte_bits_lookup by done.
    rewrite (proj2 (Z.eqb_neq _ _)) by lia. by rewrite orb_false_r.
Qed.

Lemma set_bit_spec {E} bs i :
  0 ≤ i < 8 * len bs →
  ∃ bs', set_bit (E:=E) bs i = Ok bs' ∧ len bs' = len bs ∧
    bits_of bs' = <[Z.to_nat i := true]> (bits_of bs).
Proof.
  intros Hi. destruct (bits_of_lookup bs i Hi) as (b & Hb & _).
  pose proof (Z.mod_pos_bound i 8 ltac:(lia)) as Hm. pose proof (Z.div_mod i 8 ltac:(lia)) as Hdm.
  assert (0 ≤ i / 8) by (apply Z.div_pos; lia).
  unfold set_bit, index. rewrite (proj2 (Z.leb_le _ _)) by lia. rewrite Hb. cbn [unwrap].
  rewrite rbind_ret. eexists. split; [done|]. unfold len in *. rewrite length_insert. split; [done|].
  set (c := byte_of _). pose proof (lookup_lt_Some _ _ _ Hb) as Hl.
  rewrite <-(take_drop_middle bs _ _ Hb) at 2. rewrite insert_take_drop by done.
  rewrite !bits_of_app. unfold bits_of at 2 4. cbn [mbind list_bind].
  fold (bits_of (drop (S (Z.to_nat (i / 8))) bs)). unfold c. rewrite byte_bits_set by done.
  pose proof (len_bits_of (take (Z.to_nat (i / 8)) bs)) as Ht. unfold len in Ht.
  rewrite length_take in Ht. rewrite insert_app_r_alt by lia. f_equal.
  rewrite insert_app_l by (rewrite length_byte_bits; lia). do 2 f_equal. lia.
Qed.

(** ** The loops *)

Lemma foldM_seqZ {E S} (P : Z → S → Prop) (f : Z → S → result E S) n s :
  0 ≤ n → P 0 s →
  (∀ i t, 0 ≤ i < n → P i t → ∃ t', f i t = Ok t' ∧ P (i + 1) t') →
  ∃ t, foldM f (seqZ 0 n) s = Ok t ∧ P n t.
Proof.
  intros Hn H0 Hf. rewrite <-(Z2Nat.id n) in * by done. clear Hn.
  induction (Z.to_nat n) as [|k IH]; [by exists s|].
  destruct IH as (t & Ht & Hp); [intros; apply Hf; (lia || done)|].
  destruct (Hf (Z.of_nat k) t ltac:(lia) Hp) as (t' & Ht' & Hp').
  exists t'. rewrite Nat2Z.inj_succ, <-Z.add_1_r, seqZ_app, foldM_app, Ht by lia.
  split; [|done]. change (seqZ (0 + Z.of_nat k) 1) with [Z.of_nat k]. cbn [rbind foldM]. by rewrite Ht'.
Qed.

Lemma insert_after {A} (l k : list A) y x : <[length l := x]> (l ++ y :: k) = (l ++ [x]) ++ k.
Proof. by rewrite insert_app_r_alt, Nat.sub_diag, <-app_assoc. Qed.

(** The bits of [data] from [offset] on, right-aligned in 256 bits *)
Lemma read_loop data offset w :
  0 ≤ offset → 0 ≤ w ≤ 256 → offset + w ≤ 8 * len data →
  ∃ res, foldM (copy_bit data offset w) (seqZ 0 w) (be_bytes 32 0) = Ok res ∧ len res = 32 ∧
    bits_of res = replicate (Z.to_nat (256 - w)) false
                    ++ take (Z.to_nat w) (drop (Z.to_nat offset) (bits_of data)).
Proof.
  intros Ho Hw Hl. set (B := drop (Z.to_nat offset) (bits_of data)).
  pose proof (len_bits_of data) as Hlen. unfold len in *.
  edestruct (foldM_seqZ (λ j res, len res = 32 ∧ bits_of res =
    (replicate (Z.to_nat (256 - w)) false ++ take (Z.to_nat j) B) ++ replicate (Z.to_nat (w - j)) false)
    (copy_bit data offset w) w) as (res & Hres & Hlr & Hb); [lia| | |].
  3: { exists res. split; [exact Hres|]. split; [done|]. rewrite Hb.
       replace (Z.to_nat (w - w)) with 0%nat by lia. cbn [replicate]. by rewrite app_nil_r. }
  - split; [done|]. change (bits_of (be_bytes 32 0)) with (replicate 256 false).
    change (take (Z.to_nat 0) B) with (@nil bool). rewrite app_nil_r, <-replicate_add. f_equal. lia.
  - intros i res Hi [Hres Hbits]. destruct (lookup_lt_is_Some_2 B (Z.to_nat i)) as [x Hx].
    { unfold B. rewrite length_drop. lia. }
    unfold copy_bit. rewrite (get_bit_spec _ _ x), rbind_ret; [|lia|].
    2: { rewrite <-Hx. unfold B. rewrite lookup_drop. f_equal. lia. }
    replace (Z.to_nat (w - i)) with (S (Z.to_nat (w - (i + 1)))) in Hbits by lia.
    cbn [replicate] in Hbits. replace (Z.to_nat (i + 1)) with (S (Z.to_nat i)) by lia.
    rewrite (take_S_r _ _ _ Hx), app_assoc. destruct x.
    + destruct (set_bit_spec (E:=ExceptionKind) res (256 - w + i)) as (res' & Hset & Hl' & Hb'); [lia|].
      exists res'. split; [done|]. split; [lia|]. rewrite Hb', Hbits, <-insert_after with (y := false).
      f_equal. rewrite length_app, length_replicate, length_take. unfold B. rewrite length_drop. lia.
    + exists res. split; [done|]. split; [done|]. by rewrite Hbits, <-!app_assoc.
Qed.

Lemma read_bits_spec s w :
  0 ≤ bit_offset s → 0 ≤ w →
  if decide (w ≤ 256 ∧ bit_offset s + w ≤ 8 * len (data_bytes (slice_cell s)) ∨ w = 0) then
    ∃ r, read_bits s w = Ok ({| slice_cell := slice_cell s; bit_offset := bit_offset s + w;
           ref_offset := ref_offset s; child_cells := child_cells s |}, r) ∧ len r = 32 ∧
      bits_of r = replicate (Z.to_nat (256 - w)) false
        ++ take (Z.to_nat w) (drop (Z.to_nat (bit_offset s)) (bits_of (data_bytes (slice_cell s))))
  else read_bits s w = Err MalformedCell.
Proof.
  intros Ho Hw. unfold read_bits, remaining_bits, saturating_sub_u. case_decide as Hd.
  - rewrite !(proj2 (Z.ltb_ge _ _)) by lia. cbn [orb].
    destruct Hd as [[Hw' Hl]|Hz]; [|subst w].
    + destruct (read_loop (data_bytes (slice_cell s)) (bit_offset s) w) as (r & -> & Hr & Hb); [lia..|].
      rewrite rbind_ret. by exists r.
    + exists (be_bytes 32 0). cbn [seqZ foldM]. split; [done|]. split; [done|].
      by rewrite take_0, app_nil_r.
  - match goal with |- (if ?b then _ else _) = _ => assert (b = true) as -> end; [|done].
    apply orb_true_iff. rewrite !Z.ltb_lt. lia.
Qed.

(** The bits written so far, up to the padding of the last byte *)
Definition filled (data : bytes) (l : list bool) : Prop :=
  ∃ pad, (pad < 8)%nat ∧ bits_of data = l ++ replicate pad false.

Lemma append_loop v l data w :
  len v = 32 → 0 ≤ w ≤ 256 → filled data l →
  ∃ data', foldM (append_bit v (len l) w) (seqZ 0 w) data = Ok data' ∧
    filled data' (l ++ drop (Z.to_nat (256 - w)) (bits_of v)).
Proof.
  intros Hv Hw Hf. set (V := drop (Z.to_nat (256 - w)) (bits_of v)).
  pose proof (len_bits_of v) as Hlv. unfold len in Hv, Hlv.
  assert (length V = Z.to_nat w) as HV by (unfold V; rewrite length_drop; lia).
  edestruct (foldM_seqZ (λ j data, filled data (l ++ take (Z.to_nat j) V)) (append_bit v (len l) w) w data)
    as (data' & Hdata & Hfill); [lia| | |].
  3: { exists data'. split; [exact Hdata|]. by rewrite <-HV, firstn_all in Hfill. }
  - change (take (Z.to_nat 0) V) with (@nil bool). by rewrite app_nil_r.
  - intros i d Hi (pad & Hpad & Hd). destruct (lookup_lt_is_Some_2 V (Z.to_nat i)) as [x Hx]; [lia|].
    unfold append_bit. rewrite (get_bit_spec _ _ x), rbind_ret; [|lia|].
    2: { rewrite <-Hx. unfold V. rewrite lookup_drop. f_equal. lia. }
    replace (Z.to_nat (i + 1)) with (S (Z.to_nat i)) by lia. rewrite (take_S_r _ _ _ Hx), app_assoc.
    set (l' := l ++ take (Z.to_nat i) V) in *.
    assert (len l' = len l + i) as Hl' by (unfold l', len; rewrite length_app, length_take; lia).
    assert (∃ d' p, (if len d <=? (len l + i) / 8 then d ++ [byte_of 0] else d) = d' ∧ (p < 8)%nat ∧
      bits_of d' = l' ++ false :: replicate p false) as (d' & p & -> & Hp & Hb).
    { pose proof (f_equal len Hd) as Hlen. rewrite len_bits_of, len_app in Hlen.
      unfold len at 3 in Hlen. rewrite length_replicate in Hlen. destruct (Z.leb_spec (len d) ((len l + i) / 8)).
      - assert (8 * len d ≤ len l + i).
        { pose proof (Z.mul_div_le (len l + i) 8). lia. }
        assert (pad = 0%nat) as -> by lia. exists (d ++ [byte_of 0]), 7%nat. split_and!; [done|lia|].
        rewrite bits_of_app, Hd, app_nil_r. done.
      - assert (len l + i < 8 * len d).
        { pose proof (Z.div_mod (len l + i) 8). pose proof (Z.mod_pos_bound (len l + i) 8). lia. }
        destruct pad as [|p]; [lia|]. exists d, p. split_and!; [done|lia|done]. }
    destruct x.
    + pose proof (f_equal len Hb) as Hlen. rewrite len_bits_of, len_app, len_cons in Hlen.
      pose proof (len_nonneg (replicate p false)). pose proof (len_nonneg l).
      destruct (set_bit_spec (E:=ExceptionKind) d' (len l + i)) as (d'' & Hset & _ & Hb'); [lia|].
      exists d''. split; [done|]. exists p. split; [lia|]. rewrite Hb', Hb, <-insert_after with (y := false).
      f_equal. unfold len in *. lia.
    + exists d'. split; [done|]. exists p. split; [lia|]. by rewrite Hb, <-!app_assoc.
Qed.

Definition builder_bits (b : Builder) (l : list bool) : Prop :=
  current_bit_len b = len l ∧ filled (builder_data b) l.

Lemma append_bits_spec b l v w :
  builder_bits b l → len l ≤ 1024 → len v = 32 → 0 ≤ w →
  if decide (w ≤ 256 ∧ len l + w ≤ 1024) then
    ∃ b', append_bits b v w = Ok b' ∧ references b' = references b ∧
      builder_bits b' (l ++ drop (Z.to_nat (256 - w)) (bits_of v))
  else append_bits b v w = Err MalformedCell.
Proof.
  intros [Hcur Hf] Hl Hv Hw. unfold append_bits. rewrite Hcur. case_decide as Hd.
  - rewrite (proj2 (Z.ltb_ge 256 w)), add_u_ok, rbind_ret, (proj2 (Z.ltb_ge _ _)) by lia.
    destruct (append_loop v l (builder_data b) w) as (d & -> & Hd'); [done|lia|done|].
    rewrite rbind_ret. eexists. split; [done|]. split; [done|]. split; [|done]. cbn [current_bit_len].
    rewrite len_app. f_equal. pose proof (len_bits_of v) as Hlv. unfold len in *. rewrite length_drop. lia.
  - destruct (Z.ltb_spec 256 w); [done|]. rewrite add_u_ok, rbind_ret by lia.
    by rewrite (proj2 (Z.ltb_lt _ _)) by lia.
Qed.

(** ** Integers on the stack *)

Lemma to_from_i128 v : in_i 128 v → to_i128 (from_i128 v) = Ok v.
Proof.
  intros Hv. unfold from_i128, to_i128. rewrite slice_app_r by (case_match; done).
  assert (len (if v <? 0 then be_bytes 16 (2 ^ 128 - 1) else be_bytes 16 0) = 16) as ->
    by (case_match; apply len_be_bytes).
  rewrite slice_all by done. rewrite rbind_ret, be_val_be_bytes. f_equal.
  change (256 ^ Z.of_nat 16) with (2 ^ 128). unfold as_i. rewrite Zplus_mod_idemp_l. by apply as_i_id.
Qed.

Lemma to_i128_ok b : len b = 32 → ∃ v, to_i128 (Integer b) = Ok v ∧ in_i 128 v.
Proof.
  intros Hb. unfold to_i128. rewrite slice_Ok by lia. rewrite rbind_ret.
  eexists. split; [done|]. by apply as_i_bound.
Qed.

Lemma len_from_i128 v : ∃ b, from_i128 v = Integer b ∧ len b = 32.
Proof. eexists. split; [done|]. rewrite len_app. case_match; by rewrite !len_be_bytes. Qed.

(** ** Storing and loading *)

(** Several values, each with its width *)
Definition append_all (ps : list (bytes * Z)) (b : Builder) : result ExceptionKind Builder :=
  foldM (λ p b, append_bits b p.1 p.2) ps b.

Fixpoint read_all (s : Slice) (ws : list Z) : result ExceptionKind (Slice * list bytes) :=
  match ws with
  | [] => Ok (s, [])
  | w :: ws =>
      let? (s, v) := read_bits s w in
      let? (s, vs) := read_all s ws in
      Ok (s, v :: vs)
  end.

Definition field (p : bytes * Z) : list bool := drop (Z.to_nat (256 - p.2)) (bits_of p.1).
Definition field_wf (p : bytes * Z) : Prop := len p.1 = 32 ∧ 0 ≤ p.2 ≤ 256.
Definition fields (ps : list (bytes * Z)) : list bool := ps ≫= field.

Lemma len_field p : field_wf p → len (field p) = p.2.
Proof.
  intros [Hl Hw]. unfold field. pose proof (len_bits_of p.1) as Hb. unfold len in *.
  rewrite length_drop. lia.
Qed.

Lemma field_value p r :
  field_wf p → len r = 32 →
  bits_of r = replicate (Z.to_nat (256 - p.2)) false ++ field p →
  r = be_bytes 32 (be_val p.1 mod 2 ^ p.2).
Proof.
  intros Hp Hr Hb. pose proof (len_field p Hp) as Hlf. destruct Hp as [Hl Hw].
  rewrite <-(be_bytes_be_val r). replace (length r) with 32%nat by (unfold len in Hr; lia). f_equal.
  rewrite <-!bits_val_bits_of, Hb, bits_val_app, bits_val_false, Z.mul_0_l, Z.add_0_l.
  rewrite <-(take_drop (Z.to_nat (256 - p.2)) (bits_of p.1)). fold (field p).
  rewrite bits_val_app, Hlf, Z.add_comm, Z.mod_add by lia. symmetry. apply Z.mod_small.
  pose proof (bits_val_bound (field p)) as Hbd. by rewrite Hlf in Hbd.
Qed.

Lemma append_all_spec ps : ∀ b l,
  Forall field_wf ps → builder_bits b l → len l ≤ 1024 →
  if decide (len (l ++ fields ps) ≤ 1024) then
    ∃ b', append_all ps b = Ok b' ∧ references b' = references b ∧ builder_bits b' (l ++ fields ps)
  else append_all ps b = Err MalformedCell.
Proof.
  unfold append_all, fields. induction ps as [|p ps IH]; intros b l Hps Hb Hl.
  { cbn [mbind list_bind]. rewrite app_nil_r. rewrite decide_True by done. by exists b. }
  apply Forall_cons in Hps as [Hp Hps]. cbn [mbind list_bind foldM]. rewrite app_assoc.
  pose proof (append_bits_spec b l p.1 p.2 Hb Hl (proj1 Hp) ltac:(apply Hp)) as Happ.
  pose proof (len_field p Hp) as Hlf. destruct (decide (p.2 ≤ 256 ∧ len l + p.2 ≤ 1024)) as [Hd|Hd].
  - destruct Happ as (b' & -> & Hr & Hb'). rewrite rbind_ret. fold (field p) in Hb'.
    specialize (IH b' (l ++ field p) Hps Hb' ltac:(rewrite len_app; lia)).
    case_decide; [|done]. by rewrite <-Hr.
  - rewrite Happ, decide_False; [done|]. rewrite !len_app. destruct Hp as [_ Hw].
    pose proof (len_nonneg (ps ≫= field)). lia.
Qed.

Lemma read_all_spec ps : ∀ s l k,
  Forall field_wf ps → bits_of (data_bytes (slice_cell s)) = l ++ fields ps ++ k →
  bit_offset s = len l →
  ∃ s', read_all s ps.*2 = Ok (s', (λ p, be_bytes 32 (be_val p.1 mod 2 ^ p.2)) <$> ps) ∧
    slice_cell s' = slice_cell s ∧ bit_offset s' = len (l ++ fields ps).
Proof.
  unfold fields. induction ps as [|p ps IH]; intros s l k Hps Hbits Ho.
  { exists s. split; [done|]. cbn [mbind list_bind]. by rewrite app_nil_r. }
  apply Forall_cons in Hps as [Hp Hps]. pose proof (len_field p Hp) as Hlf.
  cbn [mbind list_bind fmap list_fmap read_all] in *. rewrite <-!app_assoc in Hbits.
  pose proof (f_equal len Hbits) as Hlen. rewrite len_bits_of, !len_app in Hlen.
  pose proof (len_nonneg (ps ≫= field)). pose proof (len_nonneg k). pose proof (len_nonneg l).
  destruct Hp as [Hp1 Hp2]. pose proof (read_bits_spec s p.2 ltac:(lia) ltac:(lia)) as Hread.
  rewrite decide_True in Hread by lia. destruct Hread as (r & -> & Hr & Hb). rewrite rbind_ret.
  cbv iota beta. edestruct (IH {| slice_cell := slice_cell s; bit_offset := bit_offset s + p.2;
    ref_offset := ref_offset s; child_cells := child_cells s |} (l ++ field p) k) as (s' & -> & Hc & Ho').
  { done. } { cbn [slice_cell]. by rewrite <-app_assoc. } { cbn [bit_offset]. rewrite len_app. lia. }
  rewrite rbind_ret. exists s'. rewrite app_assoc. split_and!; [|done|done]. do 3 f_equal.
  apply field_value; [by split|done|]. rewrite Hb, Hbits. f_equal.
  rewrite Ho. unfold len at 1. rewrite Nat2Z.id, drop_app_length.
  rewrite take_app_le by (unfold len in *; lia). apply take_ge. unfold len in *. lia.
Qed.

(** Values stored in a builder field by field, each at a width of at most
    256 bits, are read back from the finished cell in order and reduced to their
    widths, and nothing but the padding of the last byte is left to read. The
    stores fail exactly when the widths exceed the 1024 bits of a cell. *)
Theorem stored_fields_load ps :
  Forall field_wf ps →
  let total := len (fields ps) in
  (total ≤ 1024 → ∃ b c s,
    append_all ps builder_default = Ok b ∧ Cell_new (builder_data b) [] = Ok c ∧
    read_all (slice_new c) ps.*2 = Ok (s, (λ p, be_bytes 32 (be_val p.1 mod 2 ^ p.2)) <$> ps) ∧
    remaining_bits s < 8) ∧
  (1024 < total → append_all ps builder_default = Err MalformedCell).
Proof.
  intros Hps total. subst total.
  assert (builder_bits builder_default []) as Hb0 by (split; [done|by exists 0%nat; split; [lia|]]).
  pose proof (append_all_spec ps builder_default [] Hps Hb0 ltac:(done)) as Happ.
  cbn [app] in Happ. split; intros Ht.
  2: { rewrite decide_False in Happ by lia. done. }
  rewrite decide_True in Happ by done. destruct Happ as (b & -> & _ & _ & pad & Hpad & Hbits).
  pose proof (f_equal len Hbits) as Hlen. rewrite len_bits_of, len_app in Hlen.
  assert (len (replicate pad false) = Z.of_nat pad) as Hlp by (unfold len; by rewrite length_replicate).
  assert (Cell_new (builder_data b) [] =
    Ok {| data_bytes := builder_data b; cell_refs := []; is_special := false |}) as Hc.
  { apply new_with_special_Ok. split_and!; [done|lia|done]. }
  eexists b, _. edestruct (read_all_spec ps (slice_new {| data_bytes := builder_data b;
    cell_refs := []; is_special := false |}) [] (replicate pad false)) as (s & Hs & Hsc & Hso); [done..|].
  exists s. split_and!; [done|exact Hc|exact Hs|].
  unfold remaining_bits, saturating_sub_u. rewrite Hsc, Hso. cbn [slice_new slice_cell data_bytes app]. lia.
Qed.

Definition sample_fields : list (bytes * Z) := [(be_bytes 32 5, 3); (be_bytes 32 1000, 8); (be_bytes 32 77, 256)].

Lemma stored_fields_load_witness :
  ∃ b c s, append_all sample_fields builder_default = Ok b ∧ Cell_new (builder_data b) [] = Ok c ∧
    read_all (slice_new c) [3; 8; 256] = Ok (s, [be_bytes 32 5; be_bytes 32 232; be_bytes 32 77]) ∧
    remaining_bits s < 8.
Proof.
  destruct (stored_fields_load sample_fields) as [H _].
  - unfold sample_fields, field_wf. repeat constructor; cbn; lia.
  - destruct H as (b & c & s & H1 & H2 & H3 & H4); [vm_compute; discriminate|].
    exists b, c, s. split; [exact H1|]. split; [exact H2|]. split; [|exact H4].
    refine (eq_trans H3 _). vm_compute. reflexivity.
Defined.

Lemma div_ceil_nonneg x y : 0 ≤ x → 0 < y → 0 ≤ div_ceil x y.
Proof. intros. unfold div_ceil. pose proof (Z.div_pos x y). case_match; lia. Qed.

(** ** Well-formed values *)

Definition slice_wf (s : Slice) : Prop :=
  Cell_wf (slice_cell s) ∧ 0 ≤ bit_offset s ∧ 0 ≤ ref_offset s ∧ Forall Cell_wf (child_cells s).

Definition builder_wf (b : Builder) : Prop :=
  0 ≤ current_bit_len b ≤ 8 * len (builder_data b) ∧ len (builder_data b) ≤ 128 ∧
  len (references b) ≤ 4 ∧ Forall Cell_wf (references b).

Definition value_wf (v : StackValue) : Prop :=
  match v with
  | Integer b => len b = 32
  | ByteString _ => True
  | CellV c => Cell_wf c
  | SliceV s => slice_wf s
  | BuilderV b => builder_wf b
  end.

Lemma from_i128_wf v : value_wf (from_i128 v).
Proof. destruct (len_from_i128 v) as (b & -> & Hb). exact Hb. Qed.

Lemma slice_new_wf c : Cell_wf c → slice_wf (slice_new c).
Proof. intros. split_and!; [done|cbn; lia|cbn; lia|constructor]. Qed.

Lemma read_bits_wf s w :
  slice_wf s → 0 ≤ w →
  match read_bits s w with Ok (s', r) => slice_wf s' ∧ len r = 32 | Err _ => True | Panic => False end.
Proof.
  intros (Hc & Hb & Hr & Hk) Hw. pose proof (read_bits_spec s w Hb Hw) as H. case_decide.
  - destruct H as (r & -> & Hlr & _). split; [|done]. split_and!; [done|cbn; lia|done|done].
  - by rewrite H.
Qed.

Lemma append_bit_bounds v bit_len w i d :
  len v = 32 → 0 ≤ i < w → w ≤ 256 → 0 ≤ bit_len → bit_len + w ≤ 1024 →
  bit_len + i ≤ 8 * len d → len d ≤ 128 →
  ∃ d', append_bit v bit_len w i d = Ok d' ∧ bit_len + (i + 1) ≤ 8 * len d' ∧ len d' ≤ 128.
Proof.
  intros Hv Hi Hw Hb Ht Hd Hd'. unfold append_bit.
  destruct (lookup_lt_is_Some_2 (bits_of v) (Z.to_nat (256 - w + i))) as [x Hx].
  { pose proof (len_bits_of v). unfold len in *. lia. }
  rewrite (get_bit_spec _ _ x), rbind_ret; [|lia|done].
  assert (∃ e, (if len d <=? (bit_len + i) / 8 then d ++ [byte_of 0] else d) = e ∧
    bit_len + (i + 1) ≤ 8 * len e ∧ len e ≤ 128) as (e & -> & He & He').
  { pose proof (Z.div_mod (bit_len + i) 8 ltac:(lia)). pose proof (Z.mod_pos_bound (bit_len + i) 8 ltac:(lia)).
    destruct (Z.leb_spec (len d) ((bit_len + i) / 8)); eexists; (split; [done|]);
      rewrite ?len_app; change (len [byte_of 0]) with 1; lia. }
  destruct x; [|by exists e].
  destruct (set_bit_spec (E:=ExceptionKind) e (bit_len + i)) as (d' & -> & Hl & _); [lia|]. exists d'. by rewrite Hl.
Qed.

Lemma append_bits_wf b v w :
  builder_wf b → len v = 32 → 0 ≤ w →
  match append_bits b v w with Ok b' => builder_wf b' | Err _ => True | Panic => False end.
Proof.
  intros (Hc & Hd & Hr & Hk) Hv Hw. unfold append_bits.
  destruct (Z.ltb_spec 256 w); [done|]. rewrite add_u_ok, rbind_ret by lia.
  destruct (Z.ltb_spec (128 * 8) (current_bit_len b + w)); [done|].
  destruct (foldM_seqZ (λ i d, current_bit_len b + i ≤ 8 * len d ∧ len d ≤ 128)
    (append_bit v (current_bit_len b) w) w (builder_data b)) as (d & -> & Hd1 & Hd2); [lia|lia| |].
  { intros i t Hi [H1 H2]. apply append_bit_bounds; lia || done. }
  rewrite rbind_ret. split_and!; cbn; lia || done.
Qed.
