(* ===== verification/Vm.v ===== *)
(** [onx-execution], [continuation.rs] and [interpreter.rs]: the virtual machine.
    An instruction is a computation that threads the interpreter's state and may
    raise an exception, keeping the state it reached, or abort. The operand stack
    and the call stack are lists whose head is the top. *)
From S2P Require Import Prelude Bytes Machine Primitives Message Cell Values.

(** ** Control registers *)

Record Continuation : Type := { cont_code : Cell; cont_pc_bits : Z }.
Record ControlRegisters : Type := {
  c0 : option Continuation; c1 : option Continuation; c2 : option Continuation }.

Definition set_c0 (r : ControlRegisters) (k : Continuation) : ControlRegisters :=
  {| c0 := Some k; c1 := c1 r; c2 := c2 r |}.
Definition set_c1 (r : ControlRegisters) (k : Continuation) : ControlRegisters :=
  {| c0 := c0 r; c1 := Some k; c2 := c2 r |}.
Definition set_c2 (r : ControlRegisters) (k : Continuation) : ControlRegisters :=
  {| c0 := c0 r; c1 := c1 r; c2 := Some k |}.
Definition take_c0 (r : ControlRegisters) : ControlRegisters * option Continuation :=
  ({| c0 := None; c1 := c1 r; c2 := c2 r |}, c0 r).
Definition take_c1 (r : ControlRegisters) : ControlRegisters * option Continuation :=
  ({| c0 := c0 r; c1 := None; c2 := c2 r |}, c1 r).
Definition take_return (r : ControlRegisters) (alternative : bool) :
    ControlRegisters * option Continuation :=
  if alternative then take_c1 r else take_c0 r.

(** ** State *)

Definition MAX_STACK_DEPTH : Z := 1023.

Record Interpreter : Type := {
  stack : list StackValue;
  call_stack : list (Cell * Z);
  current_code : Cell;
  pc_bits : Z;
  data : Cell;
  out_messages : list Message;
  gas_limit : Z;
  gas_used : Z;
  context : ExecutionContext;
  code_refs : list Cell;
  control_registers : ControlRegisters;
}.

Definition interpreter_new (code data : Cell) (_message : Message) (context : ExecutionContext) :
    Interpreter :=
  {| stack := []; call_stack := []; current_code := code; pc_bits := 0; data := data;
     out_messages := []; gas_limit := gas_limit_ctx context; gas_used := 0; context := context;
     code_refs := []; control_registers := {| c0 := None; c1 := None; c2 := None |} |}.

Definition with_stack (st : list StackValue) (s : Interpreter) : Interpreter :=
  {| stack := st; call_stack := call_stack s; current_code := current_code s; pc_bits := pc_bits s;
     data := data s; out_messages := out_messages s; gas_limit := gas_limit s; gas_used := gas_used s;
     context := context s; code_refs := code_refs s; control_registers := control_registers s |}.
Definition with_call_stack (cs : list (Cell * Z)) (s : Interpreter) : Interpreter :=
  {| stack := stack s; call_stack := cs; current_code := current_code s; pc_bits := pc_bits s;
     data := data s; out_messages := out_messages s; gas_limit := gas_limit s; gas_used := gas_used s;
     context := context s; code_refs := code_refs s; control_registers := control_registers s |}.
Definition with_code (c : Cell) (pc : Z) (s : Interpreter) : Interpreter :=
  {| stack := stack s; call_stack := call_stack s; current_code := c; pc_bits := pc;
     data := data s; out_messages := out_messages s; gas_limit := gas_limit s; gas_used := gas_used s;
     context := context s; code_refs := code_refs s; control_registers := control_registers s |}.
Definition with_gas (g : Z) (s : Interpreter) : Interpreter :=
  {| stack := stack s; call_stack := call_stack s; current_code := current_code s; pc_bits := pc_bits s;
     data := data s; out_messages := out_messages s; gas_limit := gas_limit s; gas_used := g;
     context := context s; code_refs := code_refs s; control_registers := control_registers s |}.
Definition with_registers (r : ControlRegisters) (s : Interpreter) : Interpreter :=
  {| stack := stack s; call_stack := call_stack s; current_code := current_code s; pc_bits := pc_bits s;
     data := data s; out_messages := out_messages s; gas_limit := gas_limit s; gas_used := gas_used s;
     context := context s; code_refs := code_refs s; control_registers := r |}.

(** ** Instruction monad *)

Definition M (A : Type) : Type := Interpreter → Interpreter * result ExceptionKind A.

Definition ret {A} (a : A) : M A := λ s, (s, Ok a).
Definition throw {A} (e : ExceptionKind) : M A := λ s, (s, Err e).
Definition lift {A} (r : result ExceptionKind A) : M A := λ s, (s, r).
Definition get : M Interpreter := λ s, (s, Ok s).
Definition modify (f : Interpreter → Interpreter) : M unit := λ s, (f s, Ok tt).
Definition bind {A B} (m : M A) (k : A → M B) : M B := λ s,
  match m s with
  | (s', Ok a) => k a s'
  | (s', Err e) => (s', Err e)
  | (s', Panic) => (s', Panic)
  end.

Declare Scope vm_scope.
Delimit Scope vm_scope with vm.
Notation "'let*' x ':=' m 'in' k" := (bind m (λ x, k))
  (at level 10, x pattern, m at level 200, k at level 200) : vm_scope.
Notation "m ';;;' k" := (bind m (λ _, k)) (at level 100, right associativity) : vm_scope.
#[local] Open Scope vm_scope.

(** ** Primitive operations *)

Definition set_exception_handler (k : Continuation) (s : Interpreter) : Interpreter :=
  with_registers (set_c2 (control_registers s) k) s.

Definition set_alternative_return (k : Continuation) (s : Interpreter) : Interpreter :=
  with_registers (set_c1 (control_registers s) k) s.

Definition jump_to (k : Continuation) : M unit := modify (with_code (cont_code k) (cont_pc_bits k)).

Definition return_to_control_register (alternative : bool) : M bool :=
  let* s := get in
  let '(r, k) := take_return (control_registers s) alternative in
  modify (with_registers r) ;;;
  match k with
  | Some k => jump_to k ;;; ret true
  | None => ret false
  end.

Definition consume_gas (amount : Z) : M unit := λ s,
  let new_gas := saturating_add_u 64 (gas_used s) amount in
  if gas_limit s <? new_gas then (with_gas (gas_limit s) s, Err OutOfGas)
  else (with_gas new_gas s, Ok tt).

Definition pop : M StackValue := λ s,
  match stack s with
  | v :: st => (with_stack st s, Ok v)
  | [] => (s, Err MalformedCell)
  end.

Definition push (v : StackValue) : M unit := λ s,
  if MAX_STACK_DEPTH <=? len (stack s) then (s, Err MalformedCell)
  else (with_stack (v :: stack s) s, Ok tt).

Definition pop_integer : M bytes :=
  let* v := pop in match v with Integer b => ret b | _ => throw TypeMismatch end.
Definition pop_bytes : M bytes :=
  let* v := pop in match v with ByteString b => ret b | _ => throw TypeMismatch end.
Definition pop_cell : M Cell :=
  let* v := pop in match v with CellV c => ret c | _ => throw TypeMismatch end.
Definition pop_slice : M Slice :=
  let* v := pop in match v with SliceV x => ret x | _ => throw TypeMismatch end.
Definition pop_builder : M Builder :=
  let* v := pop in match v with BuilderV b => ret b | _ => throw TypeMismatch end.

(** [StackValue::Integer(self.pop_integer()?).to_i128()?] *)
Definition pop_i128 : M Z := let* b := pop_integer in lift (to_i128 (Integer b)).

(** [1] and [0] for the outcome of a test *)
Definition push_bool (b : bool) : M unit := push (from_i128 (if b then 1 else 0)).

(** One byte of code at a bit position; [u8] shifts drop the bits that leave the byte. *)
Definition read_uint8 : M Z := λ s,
  let code := data_bytes (current_code s) in
  if len code * 8 <? pc_bits s + 8 then (s, Err MalformedCell)
  else
    let byte_idx := pc_bits s / 8 in
    let bit_rem := pc_bits s mod 8 in
    let val :=
      if bit_rem =? 0 then (let? b := index code byte_idx in Ok (byte_val b))
      else
        let? b1 := index code byte_idx in
        let b2 := from_option byte_val 0 (code !! Z.to_nat (byte_idx + 1)) in
        Ok (Z.lor (as_u 8 (Z.shiftl (byte_val b1) bit_rem)) (Z.shiftr b2 (8 - bit_rem))) in
    match val with
    | Ok v => (with_code (current_code s) (pc_bits s + 8) s, Ok v)
    | Err e => (s, Err e)
    | Panic => (s, Panic)
    end.

Definition read_uint16 : M Z :=
  let* high := read_uint8 in
  let* low := read_uint8 in
  ret (Z.lor (Z.shiftl high 8) low).

Fixpoint read_bytes_exact (n : nat) : M bytes :=
  match n with
  | O => ret []
  | S n =>
      let* b := read_uint8 in
      let* rest := read_bytes_exact n in
      ret (byte_of b :: rest)
  end.

(** [pc.checked_add_signed(offset * 8)], within the code *)
Definition jump_relative (offset : Z) : M unit :=
  let* s := get in
  let pc := pc_bits s + offset * 8 in
  if (pc <? 0) || (2 ^ 64 <=? pc) || (len (data_bytes (current_code s)) * 8 <? pc)
  then throw MalformedCell
  else modify (with_code (current_code s) pc).

(** ** Instructions *)

Inductive ArithOp : Type := ADD | SUB | NEG | MUL | DIVMOD | CMP.
Inductive ExtOp : Type := DIV | SHL | SHR.
Inductive BranchCond : Type := Always | IfNonzero | IfZero.

Inductive StackOp : Type :=
  NOP | DROP | DUP | SWAP | OVER | ROT | PICK | ROLL | PUSHINT | PUSHBYTES | NIP | TUCK | BLKSWAP.
Inductive ValueOp : Type :=
  ISZERO | CONV | BYTELEN | CONCAT | SUBBYTES | BYTEEQ | HASHBYTES | HASHCELL | CHKSIGNU.
Inductive CellOp : Type :=
  NEWC | ENDC | STBITS | STREF | STBYTES | CTOS | LDU | LDI | LDREF | ISEXOTIC | SEMPTY | SBITS | SREFS.
Inductive ControlOp : Type :=
  Branch (call : bool) (cond : BranchCond) | RET | THROW | IFELSE | IFRET | REPEAT | UNTIL.

Inductive Op : Type :=
  | StackI (op : StackOp) | ArithI (op : ArithOp) | ExtI (op : ExtOp) | ValueI (op : ValueOp)
  | CellI (op : CellOp) | ControlI (op : ControlOp).

Definition decode (opcode : Z) : option Op :=
  match opcode with
  | 0x00 => Some (StackI NOP) | 0x01 => Some (StackI DROP) | 0x02 => Some (StackI DUP) | 0x03 => Some (StackI SWAP)
  | 0x04 => Some (StackI OVER) | 0x05 => Some (StackI ROT) | 0x06 => Some (StackI PICK) | 0x07 => Some (StackI ROLL)
  | 0x08 => Some (StackI PUSHINT) | 0x09 => Some (StackI PUSHBYTES) | 0x0A => Some (StackI NIP) | 0x0B => Some (StackI TUCK)
  | 0x0C => Some (StackI BLKSWAP)
  | 0x10 => Some (ArithI ADD) | 0x11 => Some (ArithI SUB) | 0x12 => Some (ArithI NEG)
  | 0x13 => Some (ArithI MUL) | 0x14 => Some (ArithI DIVMOD) | 0x15 => Some (ArithI CMP)
  | 0x16 => Some (ValueI ISZERO)
  | 0x17 => Some (ExtI DIV) | 0x18 => Some (ExtI SHL) | 0x19 => Some (ExtI SHR)
  | 0x20 => Some (ValueI CONV)
  | 0x30 => Some (ValueI BYTELEN) | 0x31 => Some (ValueI CONCAT) | 0x32 => Some (ValueI SUBBYTES) | 0x33 => Some (ValueI BYTEEQ)
  | 0x40 => Some (CellI NEWC) | 0x41 => Some (CellI ENDC) | 0x42 => Some (CellI STBITS) | 0x43 => Some (CellI STREF)
  | 0x44 => Some (CellI STBYTES) | 0x45 => Some (CellI CTOS) | 0x46 => Some (CellI LDU) | 0x47 => Some (CellI LDI)
  | 0x48 => Some (CellI LDREF) | 0x49 => Some (CellI ISEXOTIC) | 0x4A => Some (CellI SEMPTY) | 0x4B => Some (CellI SBITS)
  | 0x4C => Some (CellI SREFS)
  | 0x60 => Some (ValueI HASHBYTES) | 0x61 => Some (ValueI HASHCELL) | 0x62 => Some (ValueI CHKSIGNU)
  | 0x70 => Some (ControlI (Branch false Always)) | 0x71 => Some (ControlI (Branch true Always))
  | 0x72 => Some (ControlI RET)
  | 0x73 => Some (ControlI (Branch false IfNonzero)) | 0x74 => Some (ControlI (Branch false IfZero))
  | 0x75 => Some (ControlI (Branch true IfNonzero)) | 0x76 => Some (ControlI (Branch true IfZero))
  | 0x77 => Some (ControlI THROW) | 0x78 => Some (ControlI IFELSE) | 0x79 => Some (ControlI IFRET)
  | 0x7A => Some (ControlI REPEAT) | 0x7B => Some (ControlI UNTIL)
  | _ => None
  end.

(** ** Arithmetic on [i128] *)

Definition overflow (o : option Z) : result ExceptionKind Z := ok_or o IntegerOverflow.

(** [a.checked_shl(n)]: bits that leave the width are lost *)
Definition checked_shl_i (a n : Z) : option Z :=
  if n <? 128 then Some (as_i 128 (Z.shiftl a n)) else None.

(** [a >> n] *)
Definition shr_i (a n : Z) : result ExceptionKind Z :=
  if (0 <=? n) && (n <? 128) then Ok (Z.shiftr a n) else Panic.

(** [-a] *)
Definition neg_i (a : Z) : result ExceptionKind Z := unwrap (fit_i 128 (- a)).

(** The two divisions; [a / b] aborts when the quotient does not fit. *)
Definition divmod (a b : Z) : result ExceptionKind (Z * Z) :=
  if b =? 0 then Err IntegerOverflow
  else
    let? q := unwrap (fit_i 128 (Z.quot a b)) in
    Ok (q, Z.rem a b).

Definition compare_i (a b : Z) : Z := if a <? b then -1 else if b <? a then 1 else 0.

Definition ext_result (op : ExtOp) (width a b : Z) : result ExceptionKind Z :=
  match op with
  | DIV => if b =? 0 then Err IntegerOverflow else overflow (fit_i 128 (Z.quot a b))
  | SHL =>
      if (b <? 0) || (width <=? b) then Err IntegerOverflow else overflow (checked_shl_i a b)
  | SHR => if (b <? 0) || (width <=? b) then Err IntegerOverflow else shr_i a b
  end.

(** The width and flavor rules: 0 unsigned, 1 signed, 2 modulo the width *)
Definition ext_fit (width flavor result : Z) : Prelude.result ExceptionKind Z :=
  let? limit := overflow (checked_shl_i 1 (width - 1)) in
  let? fits :=
    match flavor with
    | 0 => if 0 <=? result
           then let? modulus := overflow (fit_i 128 (limit * 2)) in Ok (result <? modulus)
           else Ok false
    | 1 => let? low := neg_i limit in Ok ((low <=? result) && (result <? limit))
    | _ => Ok true
    end in
  if negb fits then Err IntegerOverflow
  else if flavor =? 2 then
    let? modulus := overflow (fit_i 128 (limit * 2)) in Ok (result mod modulus)
  else Ok result.

(** ** Execution of one instruction *)

Section exec.
Context {C : Crypto}.

Definition ONX_EXEC_HASH_V1 : bytes := from_ascii "ONX_EXEC_HASH_V1".

Definition unary (f : Z → result ExceptionKind Z) : M unit :=
  let* a := pop_i128 in
  let* r := lift (f a) in
  push (from_i128 r).

Definition binary (f : Z → Z → result ExceptionKind Z) : M unit :=
  let* b := pop_i128 in
  let* a := pop_i128 in
  let* r := lift (f a b) in
  push (from_i128 r).

Definition exec_arith (op : ArithOp) : M unit :=
  consume_gas (match op with MUL | DIVMOD => 8 | _ => 4 end) ;;;
  let* width := read_uint16 in
  let* _flavor := read_uint8 in
  if (width =? 0) || (256 <? width) then throw MalformedCell
  else match op with
  | ADD => binary (λ a b, overflow (fit_i 128 (a + b)))
  | SUB => binary (λ a b, overflow (fit_i 128 (a - b)))
  | NEG => unary (λ a, overflow (fit_i 128 (- a)))
  | MUL => binary (λ a b, overflow (fit_i 128 (a * b)))
  | DIVMOD =>
      let* b := pop_i128 in
      let* a := pop_i128 in
      let* (q, r) := lift (divmod a b) in
      push (from_i128 q) ;;; push (from_i128 r)
  | CMP => binary (λ a b, Ok (compare_i a b))
  end.

Definition exec_ext (op : ExtOp) : M unit :=
  consume_gas (match op with DIV => 8 | _ => 4 end) ;;;
  let* width := read_uint16 in
  let* flavor := read_uint8 in
  if (width =? 0) || (128 <? width) || (2 <? flavor) then throw MalformedCell
  else
    let* b := pop_i128 in
    let* a := pop_i128 in
    let* r := lift (ext_result op width a b) in
    let* r := lift (ext_fit width flavor r) in
    push (from_i128 r).

(** [self.stack[start..].rotate_left(left)] *)
Definition blkswap (l r : Z) : M unit :=
  let* s := get in
  let count := l + r in
  if (l =? 0) || (r =? 0) || (len (stack s) <? count) then throw MalformedCell
  else
    let top := take (Z.to_nat r) (stack s) in
    let next := take (Z.to_nat l) (drop (Z.to_nat r) (stack s)) in
    modify (with_stack (next ++ top ++ drop (Z.to_nat count) (stack s))).

Definition exec_stack (op : StackOp) : M unit :=
  match op with
  | NOP => consume_gas 1
  | DROP => consume_gas 1 ;;; (let* _ := pop in ret tt)
  | DUP =>
      consume_gas 1 ;;;
      let* s := get in
      match stack s with top :: _ => push top | [] => throw MalformedCell end
  | SWAP =>
      consume_gas 1 ;;;
      let* a := pop in let* b := pop in
      push a ;;; push b
  | OVER =>
      consume_gas 1 ;;;
      let* s := get in
      match stack s with _ :: second :: _ => push second | _ => throw MalformedCell end
  | ROT =>
      consume_gas 1 ;;;
      let* c := pop in let* b := pop in let* a := pop in
      push b ;;; push c ;;; push a
  | PICK =>
      consume_gas 1 ;;;
      let* depth := read_uint8 in
      let* s := get in
      match stack s !! Z.to_nat depth with Some item => push item | None => throw MalformedCell end
  | ROLL =>
      consume_gas 1 ;;;
      let* depth := read_uint8 in
      let* s := get in
      match stack s !! Z.to_nat depth with
      | Some item => modify (with_stack (delete (Z.to_nat depth) (stack s))) ;;; push item
      | None => throw MalformedCell
      end
  | NIP =>
      consume_gas 1 ;;;
      let* s := get in
      if len (stack s) <? 2 then throw MalformedCell
      else let* top := pop in let* _ := pop in push top
  | TUCK =>
      consume_gas 1 ;;;
      let* s := get in
      if len (stack s) <? 2 then throw MalformedCell
      else
        let* b := pop in let* a := pop in
        push b ;;; push a ;;; push b
  | BLKSWAP =>
      consume_gas 1 ;;;
      let* l := read_uint8 in
      let* r := read_uint8 in
      blkswap l r
  | PUSHINT =>
      consume_gas 1 ;;;
      let* _signed := read_uint8 in
      let* bs := read_bytes_exact 32 in
      push (Integer bs)
  | PUSHBYTES =>
      let* len := read_uint16 in
      consume_gas (1 + div_ceil len 32) ;;;
      let* bs := read_bytes_exact (Z.to_nat len) in
      push (ByteString bs)
  end.

(** CHKSIGNU *)
Definition exec_chksignu : M unit :=
  consume_gas 4000 ;;;
  let* hash32 := pop_integer in
  let* sig_bytes := pop_bytes in
  let* pubkey_bytes := pop_bytes in
  if negb (len pubkey_bytes =? 32) || negb (len sig_bytes =? 64) then throw TypeMismatch
  else
    push_bool (match PublicKey_decode_exact pubkey_bytes, Signature_decode_exact sig_bytes with
               | Ok pk, Ok sig => is_ok (PublicKey_verify pk TX_BODY_V1 hash32 sig)
               | _, _ => false
               end).

(** Integers without a width rule, byte strings, hashes and signatures *)
Definition exec_value (op : ValueOp) : M unit :=
  match op with
  | ISZERO => consume_gas 4 ;;; let* a := pop_integer in push_bool (bool_decide (a = be_bytes 32 0))
  | CONV =>
      consume_gas 4 ;;;
      let* _width := read_uint16 in
      let* _signed := read_uint8 in
      let* a := pop_integer in
      push (Integer a)
  | BYTELEN => consume_gas 1 ;;; let* bs := pop_bytes in push (from_i128 (len bs))
  | CONCAT =>
      let* b := pop_bytes in
      let* a := pop_bytes in
      let total_len := len a + len b in
      consume_gas (4 + div_ceil total_len 32) ;;;
      push (ByteString (a ++ b))
  | SUBBYTES =>
      consume_gas 4 ;;;
      let* n := pop_i128 in
      let* o := pop_i128 in
      let* bs := pop_bytes in
      let n := as_u 64 n in
      let o := as_u 64 o in
      let* last := lift (add_u 64 o n) in
      if len bs <? last then throw MalformedCell
      else let* sub := lift (Bytes.slice bs o last) in push (ByteString sub)
  | BYTEEQ =>
      let* b := pop_bytes in
      let* a := pop_bytes in
      let min_len := Z.min (len a) (len b) in
      consume_gas (1 + div_ceil min_len 32) ;;;
      push_bool (bool_decide (a = b))
  | HASHBYTES =>
      consume_gas 200 ;;; let* bs := pop_bytes in push (Integer (domain_hash ONX_EXEC_HASH_V1 bs))
  | HASHCELL => consume_gas 200 ;;; let* c := pop_cell in push (Integer (cell_hash c))
  | CHKSIGNU => exec_chksignu
  end.

Definition load (width : Z) (sl : Slice) : M unit :=
  let* (sl, bs) := lift (read_bits sl width) in
  push (SliceV sl) ;;; push (Integer bs).

Definition exec_cell (op : CellOp) : M unit :=
  match op with
  | NEWC => consume_gas 10 ;;; push (BuilderV builder_default)
  | ENDC =>
      consume_gas 10 ;;;
      let* b := pop_builder in
      let* cell := lift (map_err (λ _, MalformedCell)
                           (Cell_new (builder_data b) (cell_hash <$> references b))) in
      push (CellV cell)
  | STBITS =>
      consume_gas 10 ;;;
      let* width := read_uint16 in
      let* _signed := read_uint8 in
      let* bs := pop_integer in
      let* b := pop_builder in
      let* b := lift (append_bits b bs width) in
      push (BuilderV b)
  | STREF =>
      consume_gas 10 ;;;
      let* cell := pop_cell in
      let* b := pop_builder in
      if 4 <=? len (references b) then throw MalformedCell
      else push (BuilderV {| builder_data := builder_data b; current_bit_len := current_bit_len b;
                             references := references b ++ [cell] |})
  | STBYTES =>
      let* bs := pop_bytes in
      consume_gas (10 + div_ceil (len bs) 32) ;;;
      let* b := pop_builder in
      if 128 <? len (builder_data b) + len bs then throw MalformedCell
      else push (BuilderV {| builder_data := builder_data b ++ bs;
                             current_bit_len := current_bit_len b; references := references b |})
  | CTOS =>
      consume_gas 10 ;;;
      let* cell := pop_cell in
      if is_special cell then throw AbsentNode else push (SliceV (slice_new cell))
  | LDU | LDI =>
      consume_gas 10 ;;;
      let* width := read_uint16 in
      let* sl := pop_slice in
      load width sl
  | LDREF =>
      consume_gas 10 ;;;
      let* sl := pop_slice in
      if remaining_refs sl =? 0 then throw MalformedCell
      else
        let* cell :=
          match child_cells sl !! Z.to_nat (ref_offset sl) with
          | Some c => ret c
          | None =>
              let* ref_hash := lift (index (cell_refs (slice_cell sl)) (ref_offset sl)) in
              lift (unwrap (match Cell_new [] [ref_hash] with Ok c => Some c | _ => None end))
          end in
        push (SliceV {| slice_cell := slice_cell sl; bit_offset := bit_offset sl;
                        ref_offset := ref_offset sl + 1; child_cells := child_cells sl |}) ;;;
        push (CellV cell)
  | ISEXOTIC => consume_gas 10 ;;; let* cell := pop_cell in push_bool (is_special cell)
  | SEMPTY =>
      consume_gas 1 ;;;
      let* sl := pop_slice in
      push_bool ((remaining_bits sl =? 0) && (remaining_refs sl =? 0))
  | SBITS => consume_gas 1 ;;; let* sl := pop_slice in push (from_i128 (remaining_bits sl))
  | SREFS => consume_gas 1 ;;; let* sl := pop_slice in push (from_i128 (remaining_refs sl))
  end.

(** The return that [RET] and [IFRET] share: [false] when there is no [c0] *)
Definition exec_return : M bool :=
  let* returned := return_to_control_register false in
  if returned then
    let* s := get in
    let cs := tail (call_stack s) in
    modify (with_call_stack cs) ;;;
    modify (with_registers
      {| c0 := (λ '(code, pc), {| cont_code := code; cont_pc_bits := pc |}) <$> head cs;
         c1 := c1 (control_registers s); c2 := c2 (control_registers s) |}) ;;;
    ret true
  else ret false.

Definition branch_condition (cond : BranchCond) : M bool :=
  match cond with
  | Always => ret true
  | IfNonzero => let* a := pop_i128 in ret (negb (a =? 0))
  | IfZero => let* a := pop_i128 in ret (a =? 0)
  end.

Definition save_return : M unit :=
  let* s := get in
  modify (with_call_stack ((current_code s, pc_bits s) :: call_stack s)) ;;;
  modify (with_registers (set_c0 (control_registers s)
    {| cont_code := current_code s; cont_pc_bits := pc_bits s |})).

(** [false]: execution finished *)
Definition exec_control (op : ControlOp) : M bool :=
  match op with
  | Branch call cond =>
      consume_gas 4 ;;;
      let* ref_idx := read_uint8 in
      let* condition := branch_condition cond in
      if condition then
        let* s := get in
        match code_refs s !! Z.to_nat ref_idx with
        | None => throw MalformedCell
        | Some target_code =>
            (if call then save_return else ret tt) ;;;
            modify (with_code target_code 0) ;;; ret true
        end
      else ret true
  | RET => consume_gas 4 ;;; exec_return
  | THROW =>
      consume_gas 4 ;;;
      let* kind_byte := read_uint8 in
      match kind_byte with
      | 0 => throw IntegerOverflow
      | 1 => throw AbsentNode
      | 2 => throw MalformedCell
      | 3 => throw TypeMismatch
      | _ => throw MalformedCell
      end
  | IFELSE =>
      consume_gas 4 ;;;
      let* true_offset := read_uint8 in
      let* false_offset := read_uint8 in
      let* a := pop_i128 in
      let offset := if negb (a =? 0) then as_i 8 true_offset else as_i 8 false_offset in
      jump_relative offset ;;; ret true
  | IFRET =>
      consume_gas 4 ;;;
      let* a := pop_i128 in
      if negb (a =? 0) then exec_return else ret true
  | REPEAT =>
      consume_gas 4 ;;;
      let* count := read_uint8 in
      let* offset := read_uint8 in
      (if 0 <? count then jump_relative (as_i 8 offset) else ret tt) ;;; ret true
  | UNTIL =>
      consume_gas 4 ;;;
      let* offset := read_uint8 in
      let* a := pop_i128 in
      (if a =? 0 then jump_relative (as_i 8 offset) else ret tt) ;;; ret true
  end.

Definition exec (op : Op) : M bool :=
  match op with
  | StackI op => exec_stack op ;;; ret true
  | ArithI op => exec_arith op ;;; ret true
  | ExtI op => exec_ext op ;;; ret true
  | ValueI op => exec_value op ;;; ret true
  | CellI op => exec_cell op ;;; ret true
  | ControlI op => exec_control op
  end.

Definition step : M bool :=
  let* s := get in
  if len (data_bytes (current_code s)) * 8 <=? pc_bits s then
    match call_stack s with
    | (prev_code, prev_pc) :: cs =>
        modify (with_call_stack cs) ;;; modify (with_code prev_code prev_pc) ;;; ret true
    | [] => ret false
    end
  else
    let* opcode := read_uint8 in
    match decode opcode with
    | Some op => exec op
    | None => throw MalformedCell
    end.

(** ** The run loop *)

Inductive RunOutcome : Type := Returned (r : ExecutionResult) | Aborted.

Definition exception_code (kind : ExceptionKind) : Z :=
  match kind with
  | OutOfGas => 0 | IntegerOverflow => 1 | AbsentNode => 2 | MalformedCell => 3 | TypeMismatch => 4
  end.

(** The exception path of the loop: [Ok] when the [c2] handler takes over *)
Definition handle (kind : ExceptionKind) : M unit :=
  let* s := get in
  match c2 (control_registers s) with
  | Some handler => push (from_i128 (exception_code kind)) ;;; jump_to handler
  | None => throw kind
  end.

(** [None]: the fuel did not suffice *)
Fixpoint run (fuel : nat) (s : Interpreter) : option (Interpreter * RunOutcome) :=
  match fuel with
  | O => None
  | S fuel =>
      match step s with
      | (s, Ok true) => run fuel s
      | (s, Ok false) => Some (s, Returned (Success (data s) (out_messages s) (gas_used s)))
      | (s, Err kind) =>
          match handle kind s with
          | (s, Ok _) => run fuel s
          | (s, Err _) => Some (s, Returned (Exception kind (gas_used s)))
          | (s, Panic) => Some (s, Aborted)
          end
      | (s, Panic) => Some (s, Aborted)
      end
  end.

(** [execute], with the fuel that suffices for the context's gas limit *)
Definition execute (code data : Cell) (message : Message) (context : ExecutionContext) :
    option (Interpreter * RunOutcome) :=
  run (Z.to_nat (gas_limit_ctx context) + 1) (interpreter_new code data message context).
End exec.
