(* ===== verification/VmSafety.v ===== *)
(** The virtual machine is typed and runs within its gas: invariants of one step
    and termination of runs. *)
From S2P Require Import Prelude Bytes Machine Primitives ToyCrypto Message Cell Values Vm.
#[local] Open Scope vm_scope.

(** ** Typing and gas *)

Definition continuation_wf (k : Continuation) : Prop := Cell_wf (cont_code k) ∧ 0 ≤ cont_pc_bits k.
Definition frame_wf (f : Cell * Z) : Prop := Cell_wf f.1 ∧ 0 ≤ f.2.

Record registers_wf (r : ControlRegisters) : Prop := {
  wf_c0 : ∀ k, c0 r = Some k → continuation_wf k;
  wf_c1 : ∀ k, c1 r = Some k → continuation_wf k;
  wf_c2 : ∀ k, c2 r = Some k → continuation_wf k;
}.

Record state_wf (s : Interpreter) : Prop := {
  wf_stack : Forall value_wf (stack s);
  wf_depth : len (stack s) ≤ 1023;
  wf_calls : Forall frame_wf (call_stack s);
  wf_code : Cell_wf (current_code s);
  wf_pc : 0 ≤ pc_bits s;
  wf_gas : 0 ≤ gas_used s ≤ gas_limit s;
  wf_limit : gas_limit s < 2 ^ 64 - 1;
  wf_refs : Forall Cell_wf (code_refs s);
  wf_registers : registers_wf (control_registers s);
}.

(** What no instruction changes *)
Record extends (s s' : Interpreter) : Prop := {
  same_data : data s' = data s;
  same_messages : out_messages s' = out_messages s;
  same_context : context s' = context s;
  same_limit : gas_limit s' = gas_limit s;
  same_refs : code_refs s' = code_refs s;
  same_handler : c2 (control_registers s') = c2 (control_registers s);
  more_gas : gas_used s ≤ gas_used s';
}.

#[export] Instance extends_preorder : PreOrder extends.
Proof.
  split; [by intros s; constructor|]. intros s1 s2 s3 [] []. constructor; congruence || lia.
Qed.

(** Gas used, less the frames that are still to be returned to *)
Definition progress (s : Interpreter) : Z := gas_used s - len (call_stack s).

(** From typed states [m] reaches typed states, makes [n] progress when it
    succeeds, and aborts only if [P]. *)
Definition spec {A} (P : Prop) (n : Z) (m : M A) (Q : A → Prop) : Prop :=
  ∀ s, state_wf s →
    state_wf (m s).1 ∧ extends s (m s).1 ∧
    match (m s).2 with
    | Ok a => Q a ∧ progress s + n ≤ progress (m s).1
    | Err _ => True
    | Panic => P
    end.

Create HintDb vm discriminated.

Section spec_rules.
Context {A B : Type} (P : Prop).
Implicit Types (n : Z) (Q : A → Prop).

Lemma spec_ret n a Q : Q a → n ≤ 0 → spec P n (ret a) Q.
Proof. intros Ha Hn s Hs. split; [done|]. split; [done|]. cbn. lia || (split; [done|lia]). Qed.

Lemma spec_throw n e Q : spec P n (throw e) Q.
Proof. intros s Hs. by split_and!. Qed.

Lemma spec_lift n r Q :
  match r with Ok a => Q a | Err _ => True | Panic => P end → n ≤ 0 → spec P n (lift r) Q.
Proof. intros Hr Hn s Hs. split; [done|]. split; [done|]. cbn. destruct r; [|done..]. split; [done|lia]. Qed.

Lemma spec_bind n1 n2 n (m : M A) (k : A → M B) Q (R : B → Prop) :
  spec P n1 m Q → n ≤ n1 + n2 → (∀ a, Q a → spec P n2 (k a) R) → spec P n (bind m k) R.
Proof.
  intros Hm Hn Hk s Hs. unfold bind. destruct (Hm s Hs) as (Hs' & He & Hr).
  destruct (m s) as [s' [a|e|]]; cbn [fst snd] in *; [|done..].
  destruct Hr as [Ha Hp]. destruct (Hk a Ha s' Hs') as (Hs'' & He' & Hr).
  split; [done|]. split; [by etrans|]. destruct (k a s').2; [|done..].
  destruct Hr as [Hb Hp']. split; [done|lia].
Qed.

Lemma spec_bind0 n (m : M A) (k : A → M B) Q (R : B → Prop) :
  spec P 0 m Q → (∀ a, Q a → spec P n (k a) R) → spec P n (bind m k) R.
Proof. intros Hm. apply (spec_bind 0 n); [done|lia]. Qed.

Lemma spec_weaken n n' m Q Q' :
  spec P n' m Q' → n ≤ n' → (∀ a, Q' a → Q a) → spec P n m Q.
Proof.
  intros Hm Hn HQ s Hs. destruct (Hm s Hs) as (Hs' & He & Hr). split; [done|]. split; [done|].
  destruct (m s).2; [|done..]. destruct Hr as [Ha Hp]. split; [by apply HQ|lia].
Qed.

Lemma spec_get n (k : Interpreter → M A) Q :
  (∀ s, state_wf s → spec P n (k s) Q) → spec P n (bind get k) Q.
Proof. intros Hk s Hs. by apply Hk. Qed.
End spec_rules.

Lemma spec_modify P n f :
  (∀ s, state_wf s → state_wf (f s) ∧ extends s (f s) ∧ progress s + n ≤ progress (f s)) →
  spec P n (modify f) (λ _, True).
Proof. intros Hf s Hs. destruct (Hf s Hs) as (H1 & H2 & H3). by split_and!. Qed.

(** ** Primitive operations *)

Lemma with_stack_wf st s : state_wf s → Forall value_wf st → len st ≤ 1023 → state_wf (with_stack st s).
Proof. intros []. by constructor. Qed.

Lemma with_stack_extends st s : extends s (with_stack st s).
Proof. by constructor. Qed.

Lemma spec_with_stack P st :
  Forall value_wf st → len st ≤ 1023 → spec P 0 (modify (with_stack st)) (λ _, True).
Proof.
  intros Hv Hl. apply spec_modify. intros s Hs. split_and!; [by apply with_stack_wf| |unfold progress; cbn; lia].
  apply with_stack_extends.
Qed.

Lemma spec_with_code P c pc :
  Cell_wf c → 0 ≤ pc → spec P 0 (modify (with_code c pc)) (λ _, True).
Proof. intros Hc Hpc. apply spec_modify. intros s []. split_and!; by constructor || (unfold progress; cbn; lia). Qed.

Lemma spec_with_registers P f :
  (∀ r, registers_wf r → registers_wf (f r) ∧ c2 (f r) = c2 r) →
  spec P 0 (modify (λ s, with_registers (f (control_registers s)) s)) (λ _, True).
Proof.
  intros Hf. apply spec_modify. intros s []. destruct (Hf (control_registers s)); [done|].
  split_and!; [by constructor|by constructor|unfold progress; cbn; lia].
Qed.

Lemma spec_consume P k : 0 ≤ k → spec P k (consume_gas k) (λ _, True).
Proof.
  intros Hk s Hs. pose proof (wf_gas s Hs). pose proof (wf_limit s Hs).
  unfold consume_gas, saturating_add_u, progress.
  destruct (Z.ltb_spec (gas_limit s) (Z.min (gas_used s + k) (2 ^ 64 - 1))); cbn [fst snd].
  - destruct Hs. split_and!; [constructor; cbn; done || lia|constructor; cbn; done || lia|done].
  - destruct Hs. split_and!; [constructor; cbn; done || lia|constructor; cbn; done || lia|done|unfold progress; cbn; lia].
Qed.

Lemma spec_pop P : spec P 0 pop value_wf.
Proof.
  intros s Hs. unfold pop. destruct (stack s) as [|v st] eqn:Hst; cbn [fst snd]; [by split_and!|].
  pose proof (wf_stack s Hs) as Hv. pose proof (wf_depth s Hs) as Hd. rewrite Hst in Hv, Hd.
  apply Forall_cons in Hv as [Hv Hvs]. rewrite len_cons in Hd.
  split_and!; [apply with_stack_wf; done || lia|apply with_stack_extends|done|unfold progress; cbn; lia].
Qed.

Lemma spec_push P v : value_wf v → spec P 0 (push v) (λ _, True).
Proof.
  intros Hv s Hs. unfold push, MAX_STACK_DEPTH. destruct (Z.leb_spec 1023 (len (stack s))); cbn [fst snd];
    [by split_and!|].
  split_and!; [|apply with_stack_extends|done|unfold progress; cbn; lia].
  apply with_stack_wf; [done|constructor; [done|apply Hs]|rewrite len_cons; lia].
Qed.

Lemma spec_pop_match {A} P (m : StackValue → M A) (Q : A → Prop) :
  (∀ v, value_wf v → spec P 0 (m v) Q) → spec P 0 (bind pop m) Q.
Proof. intros Hm. eapply spec_bind0; [apply spec_pop|exact Hm]. Qed.

Lemma spec_pop_integer P : spec P 0 pop_integer (λ b, len b = 32).
Proof. apply spec_pop_match. intros [] Hv; apply spec_throw || (apply spec_ret; [done|lia]). Qed.
Lemma spec_pop_bytes P : spec P 0 pop_bytes (λ _, True).
Proof. apply spec_pop_match. intros [] Hv; apply spec_throw || (apply spec_ret; [done|lia]). Qed.
Lemma spec_pop_cell P : spec P 0 pop_cell Cell_wf.
Proof. apply spec_pop_match. intros [] Hv; apply spec_throw || (apply spec_ret; [done|lia]). Qed.
Lemma spec_pop_slice P : spec P 0 pop_slice slice_wf.
Proof. apply spec_pop_match. intros [] Hv; apply spec_throw || (apply spec_ret; [done|lia]). Qed.
Lemma spec_pop_builder P : spec P 0 pop_builder builder_wf.
Proof. apply spec_pop_match. intros [] Hv; apply spec_throw || (apply spec_ret; [done|lia]). Qed.

Lemma spec_pop_i128 P : spec P 0 pop_i128 (in_i 128).
Proof.
  eapply spec_bind0; [apply spec_pop_integer|]. intros b Hb.
  destruct (to_i128_ok b Hb) as (v & Hv & Hr). rewrite Hv. apply spec_lift; done || lia.
Qed.

Lemma spec_push_bool P b : spec P 0 (push_bool b) (λ _, True).
Proof. apply spec_push, from_i128_wf. Qed.

Lemma code_byte (code : bytes) i : in_u 8 (from_option byte_val 0 (code !! i)).
Proof. destruct (code !! i); [apply byte_val_bound|done]. Qed.

Lemma spec_read_uint8 P : spec P 0 read_uint8 (in_u 8).
Proof.
  intros s Hs. pose proof (wf_pc s Hs) as Hpc. unfold read_uint8.
  destruct (Z.ltb_spec (len (data_bytes (current_code s)) * 8) (pc_bits s + 8)); [by split_and!|].
  destruct (lookup_lt_is_Some_2 (data_bytes (current_code s)) (Z.to_nat (pc_bits s / 8))) as [b Hb].
  { pose proof (Z.mul_div_le (pc_bits s) 8 ltac:(lia)). pose proof (Z.div_pos (pc_bits s) 8).
    unfold len in *. lia. }
  assert (index (E:=ExceptionKind) (data_bytes (current_code s)) (pc_bits s / 8) = Ok b) as Hi.
  { unfold index. rewrite (proj2 (Z.leb_le _ _)) by (apply Z.div_pos; lia). by rewrite Hb. }
  rewrite Hi, !rbind_ret.
  match goal with |- context [if ?c then Ok (E:=?E) ?x else Ok ?y] =>
    assert (∃ v, (if c then Ok (E:=E) x else Ok y) = Ok v ∧ in_u 8 v) as (v & -> & Hv) end.
  { case_match; eexists; (split; [done|]); [apply byte_val_bound|].
    apply lor_bound; [lia|apply as_u_bound; lia|]. destruct (code_byte (data_bytes (current_code s)) (Z.to_nat (pc_bits s / 8 + 1))) as [H1 H2].
    pose proof (Z.mod_pos_bound (pc_bits s) 8 ltac:(lia)). rewrite Z.shiftr_div_pow2 by lia. split.
    - apply Z.div_pos; lia.
    - apply Z.div_lt_upper_bound; [lia|]. assert (1 ≤ 2 ^ (8 - pc_bits s mod 8)) by lia. nia. }
  cbn [fst snd]. destruct Hs. split_and!; [constructor; cbn; done || lia|by constructor|done|unfold progress; cbn; lia].
Qed.

Lemma spec_read_uint16 P : spec P 0 read_uint16 (in_u 16).
Proof.
  eapply spec_bind0; [apply spec_read_uint8|]. intros h Hh.
  eapply spec_bind0; [apply spec_read_uint8|]. intros l Hl. apply spec_ret; [|lia].
  apply lor_bound; [lia| |unfold in_u in *; lia]. unfold in_u in *. rewrite Z.shiftl_mul_pow2; lia.
Qed.

Lemma spec_read_bytes_exact P n : spec P 0 (read_bytes_exact n) (λ bs, len bs = Z.of_nat n).
Proof.
  induction n as [|n IH]; [by apply spec_ret|].
  eapply spec_bind0; [apply spec_read_uint8|]. intros b _.
  eapply spec_bind0; [exact IH|]. cbv beta. intros bs Hbs. apply spec_ret; [rewrite len_cons|]; lia.
Qed.

Lemma spec_jump_relative P offset : spec P 0 (jump_relative offset) (λ _, True).
Proof.
  apply spec_get. intros s Hs. cbv beta zeta. case_match; [apply spec_throw|]. bool_to_prop.
  apply spec_with_code; [apply Hs|done].
Qed.

#[export] Hint Resolve spec_ret spec_throw spec_pop spec_push spec_pop_integer spec_pop_bytes
  spec_pop_cell spec_pop_slice spec_pop_builder spec_pop_i128 spec_push_bool spec_read_uint8
  spec_read_uint16 spec_read_bytes_exact spec_jump_relative spec_with_stack spec_with_code from_i128_wf slice_new_wf : vm.
#[export] Hint Extern 1 (value_wf _) => done : vm.

Ltac operand_nonneg :=
  first [ apply len_nonneg | apply Z.add_nonneg_nonneg; apply len_nonneg
        | apply Z.min_glb; apply len_nonneg | match goal with H : in_u _ _ |- _ => apply H end ].

(** One step of a computation, from left to right *)
Ltac vm_step :=
  match goal with
  | |- spec _ _ (bind get _) _ => apply spec_get; intros ? ?
  | |- spec _ _ (bind (bind _ _) _) _ => fail 1
  | |- spec _ _ (bind (consume_gas (_ + div_ceil ?x 32)) _) _ =>
      lazymatch goal with H : 0 ≤ div_ceil x 32 |- _ => fail | _ => idtac end;
      assert (0 ≤ div_ceil x 32) by (apply div_ceil_nonneg; [operand_nonneg|done])
  | |- spec ?P ?n (bind (consume_gas ?k) _) _ =>
      apply (spec_bind _ k (n - k) _ _ _ (λ _, True)); [apply spec_consume|lia|intros ? _]
  | |- spec _ _ (bind _ _) _ => eapply spec_bind0; [solve [eauto with vm]|cbv beta; intros ? ?]
  | |- spec _ _ (if ?b then _ else _) _ => destruct b eqn:?
  | |- spec _ _ (match ?x with _ => _ end) _ => destruct x eqn:?
  | |- spec _ _ (throw _) _ => apply spec_throw
  | |- spec _ _ (ret _) _ => apply spec_ret; [|lia]
  | |- spec _ _ (push _) _ => apply (spec_weaken _ _ 0 _ _ (λ _, True)); [apply spec_push; first [solve [eauto with vm]|idtac]|lia|done]
  | |- spec _ _ (push_bool _) _ =>
      apply (spec_weaken _ _ 0 _ _ (λ _, True)); [apply spec_push_bool|lia|done]
  end.
Ltac vm_steps := cbv zeta; repeat (vm_step; cbv beta zeta).

Section exec_proofs.
Context {C : Crypto} {L : CryptoLaws C}.

Lemma spec_unary P f :
  (∀ a, f a ≠ Panic) → spec P 0 (unary f) (λ _, True).
Proof.
  intros Hf. unfold unary. vm_steps. eapply spec_bind0.
  - apply (spec_lift _ _ _ (λ _, True)); [|done]. specialize (Hf a). by destruct (f a).
  - intros r _. vm_steps.
Qed.

Lemma spec_binary P f :
  (∀ a b, f a b ≠ Panic) → spec P 0 (binary f) (λ _, True).
Proof.
  intros Hf. unfold binary. vm_steps. eapply spec_bind0.
  - apply (spec_lift _ _ _ (λ _, True)); [|done]. by destruct (f _ _) eqn:Heq; [..|apply Hf in Heq].
  - intros r _. vm_steps.
Qed.

Lemma lift_any P n {A} (r : result ExceptionKind A) :
  (r = Panic → P) → n ≤ 0 → spec P n (lift r) (λ _, True).
Proof. intros Hr Hn. apply spec_lift; [|done]. destruct r; auto. Qed.

Lemma overflow_safe o : overflow o ≠ Panic.
Proof. by destruct o. Qed.

Lemma spec_at_most P n m : spec P 0 m (λ _, True) → n ≤ 0 → spec P n m (λ _ : unit, True).
Proof. intros Hm Hn. by apply (spec_weaken _ _ 0 _ _ (λ _, True)). Qed.

Lemma exec_arith_spec op : spec (op = DIVMOD) 1 (exec_arith op) (λ _, True).
Proof.
  unfold exec_arith. destruct op; cbv iota; vm_steps; try lia;
    try (apply spec_at_most; [|lia]; apply spec_unary || apply spec_binary; intros;
         apply overflow_safe || done).
  eapply spec_bind0; [by apply lift_any|]. intros [q r] _. vm_steps; lia.
Qed.

Lemma exec_ext_spec op : spec True 1 (exec_ext op) (λ _, True).
Proof.
  unfold exec_ext. destruct op; cbv iota; vm_steps; try lia;
  (eapply spec_bind0; [by apply lift_any|]; intros r _;
   eapply spec_bind0; [by apply lift_any|]; intros r' _; vm_steps; lia).
Qed.

Lemma spec_blkswap P l r : 0 ≤ l → 0 ≤ r → spec P 0 (blkswap l r) (λ _, True).
Proof.
  intros Hl Hr. unfold blkswap. vm_steps. bool_to_prop.
  match goal with H : state_wf ?s |- _ => pose proof (wf_stack s H) as Hv; pose proof (wf_depth s H) as Hd end.
  rewrite <-(take_drop (Z.to_nat r)), Forall_app in Hv. destruct Hv as [Hv1 Hv].
  rewrite <-(take_drop (Z.to_nat l) (drop _ _)), Forall_app in Hv. destruct Hv as [Hv2 Hv].
  rewrite drop_drop in Hv. replace (Z.to_nat r + Z.to_nat l)%nat with (Z.to_nat (l + r)) in Hv by lia.
  apply spec_with_stack; [by rewrite !Forall_app|].
  unfold len in *. rewrite !length_app, !length_take, !length_drop. lia.
Qed.

Lemma stack_value s i v : state_wf s → stack s !! i = Some v → value_wf v.
Proof. intros Hs. apply Forall_lookup_1, Hs. Qed.

Lemma spec_stack_delete P s i v :
  state_wf s → stack s !! i = Some v → spec P 0 (modify (with_stack (delete i (stack s)))) (λ _, True).
Proof.
  intros Hs Hi. apply spec_with_stack; [apply Forall_delete, Hs|].
  pose proof (wf_depth s Hs). unfold len in *. rewrite length_delete; [lia|by eexists].
Qed.

Lemma exec_stack_spec P op : spec P 1 (exec_stack op) (λ _, True).
Proof.
  destruct op; cbn [exec_stack]; vm_steps; try lia; try (eapply stack_value; eassumption).
  - apply (spec_consume P 1). lia.
  - match goal with H : state_wf ?s, Hs : stack ?s = _ |- _ =>
      pose proof (wf_stack s H) as Hv; rewrite Hs in Hv; by apply Forall_cons in Hv as [? _] end.
  - match goal with H : state_wf ?s, Hs : stack ?s = _ |- _ =>
      pose proof (wf_stack s H) as Hv; rewrite Hs in Hv; apply Forall_cons in Hv as [_ Hv];
      by apply Forall_cons in Hv as [? _] end.
  - eapply spec_bind0; [by eapply spec_stack_delete|]. intros _ _. vm_steps. by eapply stack_value.
  - apply spec_at_most; [|lia]. apply spec_blkswap; by match goal with H : in_u _ _ |- _ => apply H end.
Qed.

Lemma exec_value_spec op : spec (op = SUBBYTES) 1 (exec_value op) (λ _, True).
Proof.
  destruct op; cbn [exec_value]; unfold exec_chksignu; vm_steps; try lia; try (apply len_domain_hash || apply len_cell_hash).
  eapply spec_bind0; [by apply lift_any|]. cbv beta. intros last _. vm_steps.
  eapply spec_bind0; [by apply lift_any|]. intros sub _. vm_steps.
Qed.

Lemma load_spec P w sl : 0 ≤ w → slice_wf sl → spec P 0 (load w sl) (λ _, True).
Proof.
  intros Hw Hsl. unfold load. eapply spec_bind0.
  - apply (spec_lift _ _ _ (λ r, slice_wf r.1 ∧ len r.2 = 32)); [|done].
    pose proof (read_bits_wf sl w Hsl Hw). by destruct (read_bits sl w) as [[]|?|].
  - intros [sl' bs] [Hs Hb]. vm_steps; exact Hb.
Qed.

Lemma append_spec P b bs w :
  builder_wf b → len bs = 32 → 0 ≤ w → spec P 0 (lift (append_bits b bs w)) builder_wf.
Proof.
  intros Hb Hbs Hw. apply spec_lift; [|done]. pose proof (append_bits_wf b bs w Hb Hbs Hw).
  by destruct (append_bits b bs w).
Qed.

Lemma endc_spec P b :
  builder_wf b → spec P 0 (lift (map_err (λ _, MalformedCell)
    (Cell_new (builder_data b) (cell_hash <$> references b)))) Cell_wf.
Proof.
  intros (_ & Hd & Hr & Hk). apply spec_lift; [|done].
  assert (len (cell_hash <$> references b) ≤ 4) as Hr' by by rewrite len_map.
  unfold Cell_new. rewrite (proj2 (new_with_special_Ok _ _ false _) (conj eq_refl (conj Hd Hr'))).
  split_and!; [done|done|]. apply Forall_fmap, Forall_true. intros c. apply len_cell_hash.
Qed.

Lemma ldref_spec P sl :
  slice_wf sl → remaining_refs sl ≠ 0 →
  spec P 0 (match child_cells sl !! Z.to_nat (ref_offset sl) with
            | Some c => ret c
            | None =>
                let* ref_hash := lift (index (cell_refs (slice_cell sl)) (ref_offset sl)) in
                lift (unwrap (match Cell_new [] [ref_hash] with Ok c => Some c | _ => None end))
            end) Cell_wf.
Proof.
  intros (Hc & _ & Hr & Hk) Hn. unfold remaining_refs, saturating_sub_u in Hn.
  destruct (child_cells sl !! Z.to_nat (ref_offset sl)) as [c|] eqn:Hch.
  { apply spec_ret; [|done]. by eapply Forall_lookup_1. }
  destruct (lookup_lt_is_Some_2 (cell_refs (slice_cell sl)) (Z.to_nat (ref_offset sl))) as [r Hl].
  { unfold len in Hn. lia. }
  eapply spec_bind0.
  - apply (spec_lift _ _ _ (λ r, len r = 32)); [|done]. unfold index.
    rewrite (proj2 (Z.leb_le _ _)), Hl by lia. destruct Hc as (_ & _ & Hrs).
    by apply (Forall_lookup_1 _ _ _ _ Hrs Hl).
  - intros h Hh. apply spec_lift; [|done]. split_and!; [done|done|by constructor].
Qed.

Lemma exec_cell_spec P op : spec P 1 (exec_cell op) (λ _, True).
Proof.
  destruct op; cbn [exec_cell]; vm_steps; try lia;
    try (apply spec_at_most; [|lia]; apply load_spec; done || by match goal with H : in_u _ _ |- _ => apply H end).
  - eapply spec_bind0; [by apply endc_spec|]. intros c Hc. vm_steps.
  - eapply spec_bind0; [apply append_spec; done || by match goal with H : in_u _ _ |- _ => apply H end|].
    intros b Hb. vm_steps.
  - bool_to_prop. match goal with H : builder_wf _ |- _ => destruct H as (H1 & H2 & H3 & H4) end.
    split; [done|]. split; [done|].
    split; [cbn [references]; rewrite len_app, len_cons; change (len (@nil Cell)) with 0; lia|].
    apply Forall_app. split; [done|by constructor].
  - bool_to_prop. match goal with H : builder_wf _ |- _ => destruct H as (H1 & H2 & H3 & H4) end.
    pose proof (len_nonneg a). split_and!; cbn; rewrite ?len_app; done || lia.
  - bool_to_prop. eapply spec_bind0; [by apply ldref_spec|]. intros c Hc.
    assert (∀ sl, slice_wf sl → slice_wf {| slice_cell := slice_cell sl; bit_offset := bit_offset sl;
      ref_offset := ref_offset sl + 1; child_cells := child_cells sl |}) as Hsl
      by (intros sl (? & ? & ? & ?); split_and!; cbn; done || lia).
    match goal with H : slice_wf _ |- _ => apply Hsl in H end. vm_steps.
Qed.

Lemma head_frame_wf cs k :
  Forall frame_wf cs → (λ '(code, pc), {| cont_code := code; cont_pc_bits := pc |}) <$> head cs = Some k →
  continuation_wf k.
Proof. destruct cs as [|[code pc] cs]; [done|]. by intros [Hf _]%Forall_cons [= <-]. Qed.

Lemma Forall_tail {A} (Q : A → Prop) l : Forall Q l → Forall Q (tail l).
Proof. destruct l; [done|]. by intros [_ H]%Forall_cons. Qed.

Lemma exec_return_spec P : spec P 0 exec_return (λ _, True).
Proof.
  intros s Hs. unfold exec_return, return_to_control_register, take_return, take_c0, bind, get, modify.
  cbn [fst snd]. destruct Hs as [? ? Hcs ? ? ? ? ? [H0 H1 H2]].
  assert (len (tail (call_stack s)) ≤ len (call_stack s)) by (unfold len; destruct (call_stack s); cbn; lia).
  destruct (c0 (control_registers s)) as [k|] eqn:Hk; cbn [fst snd jump_to modify ret].
  - destruct (H0 k eq_refl) as [? ?]. apply Forall_tail in Hcs. split_and!.
    + constructor; try done. constructor; [|done|done]. intros k' Hk'. by eapply head_frame_wf.
    + by constructor.
    + done.
    + unfold progress. cbn. lia.
  - split_and!; [|by constructor|done|unfold progress; cbn; lia]. by constructor.
Qed.

Lemma save_return_spec P : spec P (-1) save_return (λ _, True).
Proof.
  intros s Hs. unfold save_return, bind, get, modify. cbn [fst snd]. destruct Hs as [? ? ? ? ? ? ? ? [H0 H1 H2]].
  split_and!; [|by constructor|done|unfold progress; cbn; rewrite len_cons; lia].
  constructor; try done; [by constructor|]. constructor; try done. by intros k [= <-].
Qed.

Lemma branch_condition_spec P cond : spec P 0 (branch_condition cond) (λ _, True).
Proof. destruct cond; cbn; vm_steps; done. Qed.

Hint Resolve exec_return_spec branch_condition_spec : vm.

Lemma exec_control_spec P op : spec P 1 (exec_control op) (λ _, True).
Proof.
  destruct op; cbn [exec_control]; vm_steps; try done.
  - apply (spec_bind _ (-1) 0 _ _ _ (λ _, True)); [destruct call| |intros _ _].
    + apply save_return_spec.
    + by apply spec_ret.
    + lia.
    + eapply spec_bind0; [|intros _ _; by apply spec_ret]. apply spec_with_code; [|done].
      match goal with H : state_wf ?s, Hc : code_refs ?s !! _ = _ |- _ =>
        exact (Forall_lookup_1 _ _ _ _ (wf_refs s H) Hc) end.
  - by apply (spec_weaken _ _ 0 _ _ (λ _, True)); [apply exec_return_spec| |].
  - by apply (spec_weaken _ _ 0 _ _ (λ _, True)); [apply exec_return_spec| |].
  - eapply spec_bind0; [|intros _ _; by apply spec_ret].
    destruct (0 <? a0); [apply spec_jump_relative|by apply spec_ret].
  - eapply spec_bind0; [|intros _ _; by apply spec_ret].
    destruct (a1 =? 0); [apply spec_jump_relative|by apply spec_ret].
Qed.

(** The instructions that can abort the interpreter *)
Definition may_abort (op : Op) : Prop :=
  op = ArithI DIVMOD ∨ (∃ e, op = ExtI e) ∨ op = ValueI SUBBYTES.

Lemma spec_mono {A} (P P' : Prop) n (m : M A) Q : (P → P') → spec P n m Q → spec P' n m Q.
Proof.
  intros HP Hm s Hs. destruct (Hm s Hs) as (H1 & H2 & H3). split; [done|]. split; [done|].
  destruct (m s).2; auto.
Qed.

Lemma exec_spec op : spec (may_abort op) 1 (exec op) (λ _, True).
Proof.
  assert (∀ P (m : M unit), (P → may_abort op) → spec P 1 m (λ _, True) →
    spec (may_abort op) 1 (m ;;; ret true) (λ _, True)) as Hseq.
  { intros P m HP Hm. apply (spec_bind _ 1 0 _ _ _ (λ _, True)); [by apply (spec_mono P)|lia|].
    intros _ _. by apply spec_ret. }
  unfold may_abort in *. destruct op; cbn [exec].
  - by apply (Hseq False), exec_stack_spec.
  - eapply Hseq, exec_arith_spec. intros ->. by left.
  - eapply Hseq, exec_ext_spec. eauto.
  - eapply Hseq, exec_value_spec. intros ->. auto.
  - by apply (Hseq False), exec_cell_spec.
  - apply (spec_mono False); [done|]. apply exec_control_spec.
Qed.

(** The instruction at the program counter, if any *)
Definition next_op (s : Interpreter) : option Op :=
  if len (data_bytes (current_code s)) * 8 <=? pc_bits s then None
  else match (read_uint8 s).2 with Ok opcode => decode opcode | _ => None end.

Lemma step_spec s :
  state_wf s →
  state_wf (step s).1 ∧ extends s (step s).1 ∧
  match (step s).2 with
  | Ok true => progress s + 1 ≤ progress (step s).1
  | Panic => ∃ op, next_op s = Some op ∧ may_abort op
  | _ => True
  end.
Proof.
  intros Hs. unfold step, next_op, bind, get. cbn [fst snd].
  destruct (len (data_bytes (current_code s)) * 8 <=? pc_bits s).
  { destruct (call_stack s) as [|[code pc] cs] eqn:Hcs; [by split_and!|].
    destruct Hs as [? ? Hw ? ? ? ? ? ?]. rewrite Hcs in Hw. apply Forall_cons in Hw as [[Hf Hp] Hw].
    cbn [modify ret fst snd]. split_and!; [by constructor|by constructor|].
    unfold progress. cbn. rewrite Hcs, len_cons. lia. }
  destruct (spec_read_uint8 False s Hs) as (Hs' & He & Hr).
  destruct (read_uint8 s) as [s' [opcode|e|]]; cbn [fst snd] in *; [|by split_and!|done].
  destruct Hr as [_ Hp]. destruct (decode opcode) as [op|]; [|by split_and!].
  destruct (exec_spec op s' Hs') as (Hs'' & He' & Hr). split; [done|]. split; [by etrans|].
  destruct (exec op s').2 as [[]|e|]; [|done..|by exists op]. lia.
Qed.

(** C5: typing. From a state whose stack holds well-formed values at a depth of
    at most 1023, and whose gas is within the limit, one step reaches such a
    state again, whether it succeeds or raises an exception; it never changes the
    persistent data, the outgoing messages, the context, the limit, the code
    references or the exception handler, and never gives gas back. The only
    instructions that can abort the interpreter are DIVMOD, the extended
    arithmetic DIV, SHL, SHR, and SUBBYTES. *)
Theorem step_typed s :
  state_wf s →
  state_wf (step s).1 ∧ extends s (step s).1 ∧
  ((step s).2 = Panic → ∃ op, next_op s = Some op ∧
    (op = ArithI DIVMOD ∨ (∃ e, op = ExtI e) ∨ op = ValueI SUBBYTES)).
Proof.
  intros Hs. destruct (step_spec s Hs) as (H1 & H2 & H3). split; [done|]. split; [done|].
  intros Hp. by rewrite Hp in H3.
Qed.

(** ** Termination *)

Definition measure (s : Interpreter) : Z := gas_limit s - progress s.

Lemma measure_nonneg s : state_wf s → 0 ≤ measure s.
Proof.
  intros Hs. pose proof (wf_gas s Hs). pose proof (len_nonneg (call_stack s)).
  unfold measure, progress. lia.
Qed.

Definition outcome_of (s s' : Interpreter) (o : RunOutcome) : Prop :=
  match o with
  | Returned (Success d ms g) => d = data s ∧ ms = out_messages s ∧ g = gas_used s'
  | Returned (Exception _ g) => g = gas_used s'
  | Aborted => True
  end.

Lemma run_enough n : ∀ s,
  state_wf s → c2 (control_registers s) = None → measure s < Z.of_nat n →
  ∃ s' o, run n s = Some (s', o) ∧ state_wf s' ∧ extends s s' ∧ outcome_of s s' o.
Proof.
  induction n as [|n IH]; intros s Hs Hc Hm; [pose proof (measure_nonneg s Hs); lia|].
  cbn [run]. destruct (step_spec s Hs) as (Hs' & He & Hr).
  destruct (step s) as [s1 [[]|e|]]; cbn [fst snd] in *.
  - destruct (IH s1) as (s' & o & Hrun & Hw & He' & Ho); [done|by rewrite (same_handler _ _ He)| |].
    { unfold measure in *. rewrite (same_limit _ _ He). lia. }
    exists s', o. split_and!; [done|done|by etrans|]. destruct o as [[]|]; [|done..].
    cbn [outcome_of] in *. by rewrite <-(same_data _ _ He), <-(same_messages _ _ He).
  - eexists s1, _. split; [done|]. split; [done|]. split; [done|]. cbn [outcome_of].
    by rewrite (same_data _ _ He), (same_messages _ _ He).
  - unfold handle, bind, get. cbn [fst snd]. rewrite (same_handler _ _ He), Hc.
    cbn [throw]. by eexists s1, _.
  - by eexists s1, _.
Qed.

Lemma run_more n m s r : run n s = Some r → (n ≤ m)%nat → run m s = Some r.
Proof.
  revert m s. induction n as [|n IH]; intros m s; [done|]. destruct m as [|m]; [lia|]. cbn [run].
  intros H Hle. destruct (step s) as [s1 [[]|e|]]; [apply IH; [done|lia]|done| |done].
  destruct (handle e s1) as [s2 [a|e'|]]; [apply IH; [done|lia]|done..].
Qed.

(** A handler made of one CONCAT, entered with an integer on the stack *)
Definition concat_handler : Cell := {| data_bytes := [byte_of 0x31]; cell_refs := []; is_special := false |}.

Lemma concat_handler_runs n : ∀ s v st,
  c2 (control_registers s) = Some {| cont_code := concat_handler; cont_pc_bits := 0 |} →
  current_code s = concat_handler → pc_bits s = 0 →
  stack s = from_i128 v :: st → len st < 1023 →
  run n s = None.
Proof.
  induction n as [|n IH]; intros s v st Hc Hcode Hpc Hst Hl; [done|].
  destruct s as [sk calls code pc d ms lim used ctx refs regs]. cbn in Hc, Hcode, Hpc, Hst. subst.
  cbn [run].
  assert (step {| stack := from_i128 v :: st; call_stack := calls; current_code := concat_handler;
    pc_bits := 0; data := d; out_messages := ms; gas_limit := lim; gas_used := used; context := ctx;
    code_refs := refs; control_registers := regs |}
    = ({| stack := st; call_stack := calls; current_code := concat_handler;
    pc_bits := 8; data := d; out_messages := ms; gas_limit := lim; gas_used := used; context := ctx;
    code_refs := refs; control_registers := regs |}, Err TypeMismatch)) as -> by done.
  unfold handle, bind, get. cbn [control_registers fst snd]. rewrite Hc.
  unfold push, MAX_STACK_DEPTH. cbn [stack]. rewrite (proj2 (Z.leb_gt _ _)) by done.
  cbn [fst snd]. by eapply IH.
Qed.

Lemma execute_returns code d m ctx :
  Cell_wf code → 0 ≤ gas_limit_ctx ctx < 2 ^ 64 - 1 → execute code d m ctx ≠ None.
Proof.
  intros Hc Hg. unfold execute.
  destruct (run_enough (Z.to_nat (gas_limit_ctx ctx) + 1) (interpreter_new code d m ctx))
    as (s' & o & -> & _); [constructor; cbn; (done || lia || by constructor)|done| |done].
  unfold measure, progress. cbn. change (len (@nil (Cell * Z))) with 0. lia.
Qed.

(** C6: termination. Without an exception handler, every run ends within its
    gas: fuel of one step per unit of gas left and per pending frame always
    suffices, and more fuel changes nothing. The gas used stays within the limit
    and is what the result reports; a successful run returns the persistent data
    and the messages it started with. With a handler gas bounds nothing: one that
    starts with an instruction that fails before it is charged is entered again
    and again, and no fuel suffices. (A limit of [2^64 - 1] is excluded: saturated
    gas never exceeds it.) *)
Theorem run_terminates s :
  (state_wf s → c2 (control_registers s) = None →
    ∃ s' o, (∀ fuel, (Z.to_nat (gas_limit s - gas_used s) + length (call_stack s) < fuel)%nat →
               run fuel s = Some (s', o)) ∧
      gas_used s ≤ gas_used s' ≤ gas_limit s ∧
      match o with
      | Returned (Success d ms g) => d = data s ∧ ms = out_messages s ∧ g = gas_used s'
      | Returned (Exception _ g) => g = gas_used s'
      | Aborted => True
      end) ∧
  (∀ v st, c2 (control_registers s) = Some {| cont_code := concat_handler; cont_pc_bits := 0 |} →
    current_code s = concat_handler → pc_bits s = 0 → stack s = from_i128 v :: st → len st < 1023 →
    ∀ fuel, run fuel s = None) ∧
  (∀ code d m ctx, Cell_wf code → 0 ≤ gas_limit_ctx ctx < 2 ^ 64 - 1 →
    execute code d m ctx ≠ None).
Proof.
  split; [|split; [intros; by eapply concat_handler_runs|apply execute_returns]]. intros Hs Hc. pose proof (wf_gas s Hs).
  set (n := (Z.to_nat (gas_limit s - gas_used s) + length (call_stack s))%nat).
  destruct (run_enough (S n) s Hs Hc) as (s' & o & Hrun & Hw & He & Ho).
  { unfold measure, progress, len, n. lia. }
  exists s', o. split; [intros fuel Hf; apply (run_more _ _ _ _ Hrun); unfold n in *; lia|].
  split; [|exact Ho]. pose proof (wf_gas s' Hw). rewrite (same_limit _ _ He) in *.
  pose proof (more_gas _ _ He). lia.
Qed.
End exec_proofs.

(** ** Concrete runs *)

Definition sample_cell (code : list Z) : Cell :=
  {| data_bytes := byte_of <$> code; cell_refs := []; is_special := false |}.

Definition sample_vm (code : list Z) (st : list StackValue) (limit : Z) : Interpreter :=
  {| stack := st; call_stack := []; current_code := sample_cell code; pc_bits := 0;
     data := sample_cell []; out_messages := []; gas_limit := limit; gas_used := 0;
     context := {| gen_utime := 0; start_lt := 0; end_lt := 0; gas_limit_ctx := limit |};
     code_refs := []; control_registers := {| c0 := None; c1 := None; c2 := None |} |}.

Lemma sample_vm_wf code st limit :
  (length code ≤ 128)%nat → Forall value_wf st → len st ≤ 1023 → 0 ≤ limit < 2 ^ 64 - 1 →
  state_wf (sample_vm code st limit).
Proof.
  intros Hc Hv Hl Hlim. constructor; cbn; try done; try lia.
  all: try by constructor.
  split_and!; [|done|constructor]. unfold len. cbn. rewrite length_map. lia.
Qed.

Lemma step_typed_witness :
  state_wf (sample_vm [0x40] [] 100) ∧ state_wf (step (C:=toy_crypto) (sample_vm [0x40] [] 100)).1.
Proof.
  assert (state_wf (sample_vm [0x40] [] 100)) as Hs
    by (apply sample_vm_wf; [cbn; lia|by apply Forall_nil|done|lia]).
  split; [exact Hs|]. exact (proj1 (step_typed (C:=toy_crypto) _ Hs)).
Defined.

(** A REPEAT over itself runs out of its ten units of gas. *)
Lemma run_terminates_witness :
  ∃ s' o, run (C:=toy_crypto) 11 (sample_vm [0x7A; 1; 0xFD] [] 10) = Some (s', o) ∧
    o = Returned (Exception OutOfGas 10).
Proof.
  destruct (run_terminates (C:=toy_crypto) (sample_vm [0x7A; 1; 0xFD] [] 10)) as [H _].
  destruct H as (s' & o & Hrun & _).
  - apply sample_vm_wf; [cbn; lia|by apply Forall_nil|done|lia].
  - reflexivity.
  - exists s', o. pose proof (Hrun 11%nat ltac:(cbn; lia)) as H. split; [exact H|].
    vm_compute in H. injection H as _ <-. reflexivity.
Defined.
