(* ===== verification/VmArith.v ===== *)
(** What the arithmetic instructions of the virtual machine compute. *)
From S2P Require Import Prelude Bytes Machine Primitives ToyCrypto Message Cell Values Vm VmSafety.
#[local] Open Scope vm_scope.

Section arith.
Context {C : Crypto} {L : CryptoLaws C}.

(** ** Arithmetic *)

(** What an instruction leaves on the operand stack *)
Definition outcome {A} (m : M A) (s : Interpreter) : result ExceptionKind (list StackValue) :=
  match m s with (s', Ok _) => Ok (stack s') | (_, Err e) => Err e | (_, Panic) => Panic end.

(** The bytes of code at the program counter *)
Definition at_code (s : Interpreter) (args : bytes) : Prop :=
  ∃ pre post, data_bytes (current_code s) = pre ++ args ++ post ∧ pc_bits s = 8 * len pre.

Lemma outcome_bind {A B} (m : M A) (k : A → M B) s s' a :
  m s = (s', Ok a) → outcome (bind m k) s = outcome (k a) s'.
Proof. intros H. unfold outcome, bind. by rewrite H. Qed.

Lemma outcome_lift {A B} (r : result ExceptionKind A) (k : A → M B) s :
  outcome (bind (lift r) k) s = rbind r (λ a, outcome (k a) s).
Proof. unfold outcome, bind, lift. by destruct r. Qed.

Lemma consume_gas_ok g s :
  0 ≤ g → state_wf s → gas_used s + g ≤ gas_limit s →
  consume_gas g s = (with_gas (gas_used s + g) s, Ok tt).
Proof.
  intros Hg Hs Hl. pose proof (wf_limit s Hs). unfold consume_gas, saturating_add_u.
  rewrite Z.min_l, (proj2 (Z.ltb_ge _ _)) by lia. done.
Qed.

Lemma read_uint8_code s b args :
  at_code s (b :: args) →
  ∃ s', read_uint8 s = (s', Ok (byte_val b)) ∧ at_code s' args ∧ stack s' = stack s.
Proof.
  intros (pre & post & Hd & Hpc). unfold read_uint8. rewrite Hd, Hpc, len_app. cbn [app].
  rewrite len_cons. pose proof (len_nonneg (args ++ post)). pose proof (len_nonneg pre).
  rewrite (proj2 (Z.ltb_ge _ _)) by lia.
  replace (8 * len pre) with (0 + len pre * 8) by lia. rewrite Z.div_add, Z.mod_add by lia.
  change (0 / 8) with 0. change (0 mod 8 =? 0) with true. cbv iota. unfold index.
  rewrite Z.add_0_l, (proj2 (Z.leb_le _ _)), to_nat_len, list_lookup_middle by done. cbn [unwrap].
  rewrite rbind_ret. eexists. split; [done|]. split; [|done]. exists (pre ++ [b]), post.
  split; [cbn; by rewrite Hd, <-app_assoc|]. cbn. rewrite len_app. change (len [b]) with 1. lia.
Qed.

(** Gas, width and flavor, then the rest of the instruction *)
Lemma outcome_operands {A} g width flavor (k : Z → Z → M A) s R :
  0 ≤ g → state_wf s → gas_used s + g ≤ gas_limit s → in_u 16 width → in_u 8 flavor →
  at_code s [byte_of (width / 256); byte_of width; byte_of flavor] →
  (∀ s', stack s' = stack s → outcome (k width flavor) s' = R) →
  outcome (consume_gas g ;;; let* w := read_uint16 in let* f := read_uint8 in k w f) s = R.
Proof.
  intros Hg Hs Hl Hw Hf Hcode HR. rewrite (outcome_bind _ _ _ _ _ (consume_gas_ok g s Hg Hs Hl)).
  assert (at_code (with_gas (gas_used s + g) s)
    [byte_of (width / 256); byte_of width; byte_of flavor]) as H1 by exact Hcode.
  destruct (read_uint8_code _ _ _ H1) as (s1 & Hr1 & H2 & Hst1).
  destruct (read_uint8_code _ _ _ H2) as (s2 & Hr2 & H3 & Hst2).
  destruct (read_uint8_code _ _ _ H3) as (s3 & Hr3 & _ & Hst3).
  rewrite (outcome_bind read_uint16 _ _ s2 width).
  - rewrite byte_val_of, Z.mod_small in Hr3 by exact Hf. rewrite (outcome_bind _ _ _ _ _ Hr3).
    apply HR. by rewrite Hst3, Hst2, Hst1.
  - unfold read_uint16, bind. rewrite Hr1, Hr2. unfold ret. do 2 f_equal. rewrite !byte_val_of.
    unfold in_u in Hw. change (2 ^ 16) with 65536 in Hw.
    rewrite (Z.mod_small (width / 256)) by (split; [apply Z.div_pos|apply Z.div_lt_upper_bound]; lia).
    change 256 with (2 ^ 8). rewrite Z.shiftl_mul_pow2 by lia. pose proof (Z.div_mod width (2 ^ 8)).
    rewrite <-Z.add_nocarry_lor; [lia|].
    apply Z.bits_inj'. intros i Hi. rewrite Z.land_spec, Z.bits_0, <-Z.shiftl_mul_pow2 by lia.
    destruct (Z.lt_ge_cases i 8); [by rewrite Z.shiftl_spec_low|].
    by rewrite Z.mod_pow2_bits_high, andb_false_r by lia.
Qed.

Lemma outcome_pop {A} v st (k : Z → M A) s R :
  stack s = from_i128 v :: st → in_i 128 v →
  (∀ s', stack s' = st → outcome (k v) s' = R) → outcome (let* a := pop_i128 in k a) s = R.
Proof.
  intros Hst Hv HR. rewrite (outcome_bind pop_i128 k _ (with_stack st s) v); [by apply HR|].
  unfold pop_i128, pop_integer, pop, bind, lift. rewrite Hst.
  destruct (len_from_i128 v) as (b & Hb & _). rewrite Hb. cbn [ret]. by rewrite <-Hb, to_from_i128.
Qed.

Lemma outcome_push v s :
  len (stack s) < 1023 → outcome (push v) s = Ok (v :: stack s).
Proof.
  intros Hl. unfold outcome, push, MAX_STACK_DEPTH. by rewrite (proj2 (Z.leb_gt _ _)) by done.
Qed.

Lemma outcome_push_then {A} v (k : M A) s R :
  len (stack s) < 1023 →
  (∀ s', stack s' = v :: stack s → outcome k s' = R) → outcome (push v ;;; k) s = R.
Proof.
  intros Hl HR. rewrite (outcome_bind _ (λ _, k) _ (with_stack (v :: stack s) s) tt); [by apply HR|].
  unfold push, MAX_STACK_DEPTH. by rewrite (proj2 (Z.leb_gt _ _)) by done.
Qed.

Lemma outcome_binary f a b st s :
  in_i 128 a → in_i 128 b → stack s = from_i128 b :: from_i128 a :: st → len st < 1023 →
  outcome (binary f) s = rbind (f a b) (λ v, Ok (from_i128 v :: st)).
Proof.
  intros Ha Hb Hst Hl. unfold binary. eapply outcome_pop; [exact Hst|done|]. intros s1 H1.
  eapply outcome_pop; [exact H1|done|]. intros s2 H2.
  rewrite outcome_lift. destruct (f a b) as [v|e|]; cbn [rbind]; [|done..].
  rewrite outcome_push; by rewrite H2.
Qed.

(** The value the width rules let through *)
Definition fitted (width flavor v : Z) : result ExceptionKind Z :=
  match flavor with
  | 0 => if decide (in_u width v) then Ok v else Err IntegerOverflow
  | 1 => if decide (in_i width v) then Ok v else Err IntegerOverflow
  | _ => Ok (v mod 2 ^ width)
  end.

Lemma fit_i_decide w z : ok_or (fit_i w z) IntegerOverflow = if decide (in_i w z) then Ok z else Err IntegerOverflow.
Proof.
  case_decide as H; [apply ok_or_Ok, fit_i_Some; done|].
  destruct (fit_i w z) as [c|] eqn:Hc; [|done]. apply fit_i_Some in Hc as [-> ?]. done.
Qed.

Lemma limit_ok width : 1 ≤ width ≤ 127 → overflow (checked_shl_i 1 (width - 1)) = Ok (2 ^ (width - 1)).
Proof.
  intros Hw. unfold checked_shl_i. rewrite (proj2 (Z.ltb_lt _ _)) by lia.
  rewrite Z.shiftl_1_l, as_i_id; [done|lia|]. unfold in_i. change (128 - 1) with 127.
  assert (2 ^ (width - 1) < 2 ^ 127) by (apply Z.pow_lt_mono_r; lia). lia.
Qed.

Lemma modulus_ok width :
  1 ≤ width ≤ 126 → overflow (fit_i 128 (2 ^ (width - 1) * 2)) = Ok (2 ^ width).
Proof.
  intros Hw. unfold overflow. rewrite fit_i_decide.
  assert (2 ^ (width - 1) * 2 = 2 ^ width) as -> by (rewrite Z.mul_comm, <-Z.pow_succ_r by lia; f_equal; lia).
  rewrite decide_True; [done|]. unfold in_i. change (128 - 1) with 127.
  assert (2 ^ width < 2 ^ 127) by (apply Z.pow_lt_mono_r; lia). lia.
Qed.

Lemma ext_fit_fitted width flavor v :
  1 ≤ width ≤ 126 → 0 ≤ flavor ≤ 2 → ext_fit width flavor v = fitted width flavor v.
Proof.
  intros Hw Hf. unfold ext_fit, fitted. rewrite limit_ok, rbind_ret, modulus_ok by lia.
  assert (2 * 2 ^ (width - 1) = 2 ^ width) as Hp by (rewrite <-Z.pow_succ_r by lia; f_equal; lia).
  assert (2 ^ (width - 1) < 2 ^ 127) by (apply Z.pow_lt_mono_r; lia).
  assert (flavor = 0 ∨ flavor = 1 ∨ flavor = 2) as [-> | [-> | ->]] by lia; cbv iota.
  - unfold in_u. case_decide as Hd; destruct (Z.leb_spec 0 v); rewrite ?rbind_ret.
    + by rewrite (proj2 (Z.ltb_lt _ _)) by lia.
    + lia.
    + by rewrite (proj2 (Z.ltb_ge _ _)) by lia.
    + done.
  - unfold neg_i. rewrite (proj2 (fit_i_Some 128 _ _)) by (split; [done|unfold in_i; change (128 - 1) with 127; lia]).
    cbn [unwrap]. rewrite !rbind_ret. unfold in_i. case_decide as Hd.
    + rewrite (proj2 (Z.leb_le _ _)), (proj2 (Z.ltb_lt _ _)) by lia. done.
    + destruct (Z.leb_spec (- 2 ^ (width - 1)) v), (Z.ltb_spec v (2 ^ (width - 1))); done || lia.
  - by rewrite !rbind_ret.
Qed.

(** The two widest settings *)
Lemma ext_fit_wide v :
  ext_fit 127 0 v = Err IntegerOverflow ∧ ext_fit 128 0 v = Err IntegerOverflow ∧
  ext_fit 127 2 v = Err IntegerOverflow ∧ ext_fit 128 2 v = Err IntegerOverflow ∧
  ext_fit 128 1 v = Panic.
Proof. split_and!; (done || unfold ext_fit; cbn -[Z.leb]; by destruct (0 <=? v)). Qed.

(** The operands of an arithmetic instruction: [b] on top of [a] *)
Record operands (s : Interpreter) (a b : Z) (st : list StackValue) (width flavor : Z) : Prop := {
  op_state : state_wf s;
  op_a : in_i 128 a;
  op_b : in_i 128 b;
  op_stack : stack s = from_i128 b :: from_i128 a :: st;
  op_width : in_u 16 width;
  op_flavor : in_u 8 flavor;
  op_code : at_code s [byte_of (width / 256); byte_of width; byte_of flavor];
  op_gas : gas_used s + 8 ≤ gas_limit s;
}.

Lemma operands_room s a b st w f : operands s a b st w f → len st < 1022.
Proof. intros []. pose proof (wf_depth s op_state0) as H. rewrite op_stack0, !len_cons in H. lia. Qed.

Lemma exec_ext_outcome op s a b st width flavor :
  operands s a b st width flavor → 1 ≤ width ≤ 128 → flavor ≤ 2 →
  outcome (exec_ext op) s
  = (let? r := ext_result op width a b in
     let? v := ext_fit width flavor r in Ok (from_i128 v :: st)).
Proof.
  intros Ho Hw Hf. pose proof (operands_room _ _ _ _ _ _ Ho) as Hroom. destruct Ho. unfold exec_ext.
  apply (outcome_operands _ width flavor); [destruct op; lia|done|destruct op; lia|done..|].
  intros s' Hst. rewrite op_stack0 in Hst.
  rewrite (proj2 (Z.eqb_neq _ _)), (proj2 (Z.ltb_ge _ _)), (proj2 (Z.ltb_ge 2 _)) by lia. cbn [orb].
  eapply outcome_pop; [exact Hst|done|]. intros s1 H1.
  eapply outcome_pop; [exact H1|done|]. intros s2 H2.
  rewrite outcome_lift. destruct (ext_result op width a b) as [r|e|]; cbn [rbind]; [|done..].
  rewrite outcome_lift. destruct (ext_fit width flavor r) as [v|e|]; cbn [rbind]; [|done..].
  rewrite outcome_push; rewrite H2; [done|lia].
Qed.

Lemma exec_binary_outcome op f s a b st width flavor :
  operands s a b st width flavor → 1 ≤ width ≤ 256 →
  (∀ s', outcome (exec_arith op) s' = outcome (consume_gas (match op with MUL | DIVMOD => 8 | _ => 4 end) ;;;
     let* width := read_uint16 in let* _flavor := read_uint8 in
     if (width =? 0) || (256 <? width) then throw MalformedCell else binary f) s') →
  outcome (exec_arith op) s = rbind (f a b) (λ v, Ok (from_i128 v :: st)).
Proof.
  intros Ho Hw ->. pose proof (operands_room _ _ _ _ _ _ Ho) as Hroom. destruct Ho.
  apply (outcome_operands _ width flavor); [destruct op; lia|done|destruct op; lia|done..|].
  intros s' Hst. rewrite op_stack0 in Hst.
  rewrite (proj2 (Z.eqb_neq _ _)), (proj2 (Z.ltb_ge _ _)) by lia. cbn [orb].
  apply outcome_binary; [done|done|exact Hst|lia].
Qed.

Lemma divmod_outcome s a b st width flavor :
  operands s a b st width flavor → 1 ≤ width ≤ 256 →
  outcome (exec_arith DIVMOD) s
  = (let? (q, r) := divmod a b in Ok (from_i128 r :: from_i128 q :: st)).
Proof.
  intros Ho Hw. pose proof (operands_room _ _ _ _ _ _ Ho) as Hroom. destruct Ho. unfold exec_arith.
  apply (outcome_operands _ width flavor); [lia|done|lia|done..|].
  intros s' Hst. rewrite op_stack0 in Hst.
  rewrite (proj2 (Z.eqb_neq _ _)), (proj2 (Z.ltb_ge _ _)) by lia. cbn [orb].
  eapply outcome_pop; [exact Hst|done|]. intros s1 H1.
  eapply outcome_pop; [exact H1|done|]. intros s2 H2.
  rewrite outcome_lift. destruct (divmod a b) as [[q r]|e|]; cbn [rbind]; [|done..].
  apply outcome_push_then; [rewrite H2; lia|]. intros s3 H3.
  rewrite outcome_push; rewrite H3, H2; [done|rewrite len_cons; lia].
Qed.

Lemma quot_range a b :
  in_i 128 a → in_i 128 b → b ≠ 0 → in_i 128 (Z.quot a b) ↔ ¬ (a = - 2 ^ 127 ∧ b = -1).
Proof.
  unfold in_i. change (128 - 1) with 127. intros Ha Hb Hn. split.
  - intros H [-> ->]. change (Z.quot (- 2 ^ 127) (-1)) with (2 ^ 127) in H. lia.
  - intros H. pose proof (Z.quot_abs a b Hn) as Hq.
    assert (Z.abs (Z.quot a b) ≤ Z.abs a).
    { rewrite <-Hq. apply Z.quot_le_upper_bound; nia. }
    destruct (Z.eq_dec (Z.quot a b) (2 ^ 127)) as [He|]; [|lia].
    exfalso. apply H. pose proof (Z.quot_rem a b Hn). pose proof (Z.rem_bound_abs a b Hn).
    assert (a = - 2 ^ 127) as -> by lia. split; [done|]. rewrite He in *. nia.
Qed.

Lemma neg_outcome s a b st width flavor :
  operands s a b st width flavor → 1 ≤ width ≤ 256 →
  outcome (exec_arith NEG) s
  = (let? v := overflow (fit_i 128 (- b)) in Ok (from_i128 v :: from_i128 a :: st)).
Proof.
  intros Ho Hw. pose proof (operands_room _ _ _ _ _ _ Ho) as Hroom. destruct Ho. unfold exec_arith.
  apply (outcome_operands _ width flavor); [lia|done|lia|done..|].
  intros s' Hst. rewrite op_stack0 in Hst.
  rewrite (proj2 (Z.eqb_neq _ _)), (proj2 (Z.ltb_ge _ _)) by lia. cbn [orb]. unfold unary.
  eapply outcome_pop; [exact Hst|done|]. intros s1 H1. rewrite outcome_lift.
  destruct (overflow (fit_i 128 (- b))) as [v|e|]; cbn [rbind]; [|done..].
  rewrite outcome_push; rewrite H1; [done|rewrite len_cons; lia].
Qed.

Lemma overflow_then w v (st : list StackValue) :
  (let? r := overflow (fit_i w v) in Ok (from_i128 r :: st))
  = if decide (in_i w v) then Ok (from_i128 v :: st) else Err IntegerOverflow.
Proof. unfold overflow. rewrite fit_i_decide. by case_decide. Qed.

(** The shifts: bits that leave the 128 bits are lost, and the width bounds the
    amount. *)
Lemma shift_results width a b :
  1 ≤ width ≤ 128 →
  ext_result SHL width a b
    = (if decide (0 ≤ b < width) then Ok (as_i 128 (a * 2 ^ b)) else Err IntegerOverflow) ∧
  ext_result SHR width a b = (if decide (0 ≤ b < width) then Ok (a / 2 ^ b) else Err IntegerOverflow).
Proof.
  intros Hw. cbn [ext_result]. case_decide as Hb.
  - rewrite (proj2 (Z.ltb_ge b 0)), (proj2 (Z.leb_gt width b)) by lia. cbn [orb].
    unfold checked_shl_i, shr_i. rewrite (proj2 (Z.ltb_lt _ _)), (proj2 (Z.leb_le _ _)) by lia.
    by rewrite Z.shiftl_mul_pow2, Z.shiftr_div_pow2 by lia.
  - assert ((b <? 0) || (width <=? b) = true) as ->; [|done].
    apply orb_true_iff. rewrite Z.ltb_lt, Z.leb_le. lia.
Qed.

End arith.

