(* ===== verification/Dictionary.v ===== *)
(** [onx-execution], [dictionary.rs]: binary Patricia dictionaries of fixed key
    width, the cells that commit to them, and the map they implement. *)
From S2P Require Import Prelude Bytes Machine Primitives ToyCrypto Cell Values.

Inductive DictionaryError : Type := InvalidKeyLength | InvalidKey | CellError.

#[export] Instance DictionaryError_eq_dec : EqDecision DictionaryError.
Proof. solve_decision. Defined.

Inductive Node : Type :=
  | NLeaf (suffix : list bool) (value : Cell)
  | NBranch (prefix : list bool) (zero one : Node).

#[export] Instance Node_eq_dec : EqDecision Node.
Proof. solve_decision. Defined.

Record Dictionary : Type := { dict_key_bits : Z; root : option Node; root_cell : option Cell }.

Definition dictionary_new (key_bits : Z) : result DictionaryError Dictionary :=
  if negb ((1 <=? key_bits) && (key_bits <=? 1023)) then Err InvalidKeyLength
  else Ok {| dict_key_bits := key_bits; root := None; root_cell := None |}.

(** ** Keys as bit strings *)

(** [key[i / 8] & (1 << (7 - i % 8)) != 0] *)
Definition key_bit (key : bytes) (i : Z) : result DictionaryError bool :=
  let? b := index key (i / 8) in
  Ok (negb (Z.land (byte_val b) (Z.shiftl 1 (7 - i mod 8)) =? 0)).

Definition key_bits (key : bytes) (width : Z) : result DictionaryError (list bool) :=
  if (len key * 8 <? width) || (width + 8 <=? len key * 8) then Err InvalidKey
  else foldM (λ i bits, let? b := key_bit key i in Ok (bits ++ [b])) (seqZ 0 width) [].

(** The length of the common prefix *)
Fixpoint common (a b : list bool) : nat :=
  match a, b with
  | x :: a, y :: b => if Bool.eqb x y then S (common a b) else O
  | _, _ => O
  end.

(** [bits.starts_with(prefix) && bits.len() > prefix.len()] *)
Definition below (prefix bits : list bool) : bool :=
  bool_decide (prefix `prefix_of` bits) && (length prefix <? length bits)%nat.

(** [&bits[n + 1..]] *)
Definition after (bits : list bool) (n : nat) : result DictionaryError (list bool) :=
  slice bits (Z.of_nat n + 1) (len bits).

(** ** Operations on nodes *)

Fixpoint get (node : Node) (bits : list bool) : result DictionaryError (option Cell) :=
  match node with
  | NLeaf suffix value => Ok (if bool_decide (suffix = bits) then Some value else None)
  | NBranch prefix zero one =>
      if below prefix bits then
        let? b := index bits (len prefix) in
        let? rest := after bits (length prefix) in
        if b : bool then get one rest else get zero rest
      else Ok None
  end.

(** The branch that holds two nodes below the common prefix, [edge] being the
    bit of the first *)
Definition fork (prefix : list bool) (edge : bool) (old new : Node) : Node :=
  if edge then NBranch prefix new old else NBranch prefix old new.

(** The node and the value it replaces *)
Fixpoint insert_node (node : Node) (bits : list bool) (value : Cell) :
    result DictionaryError (Node * option Cell) :=
  match node with
  | NLeaf suffix prior =>
      let n := common suffix bits in
      if (n =? length suffix)%nat && (n =? length bits)%nat then Ok (NLeaf suffix value, Some prior)
      else
        let? old_bit := index suffix (Z.of_nat n) in
        let? old_suffix := after suffix n in
        let? new_suffix := after bits n in
        Ok (fork (take n suffix) old_bit (NLeaf old_suffix prior) (NLeaf new_suffix value), None)
  | NBranch prefix zero one =>
      let n := common prefix bits in
      if (n <? length prefix)%nat then
        let? old_bit := index prefix (Z.of_nat n) in
        let? old_prefix := after prefix n in
        let? new_suffix := after bits n in
        Ok (fork (take n prefix) old_bit (NBranch old_prefix zero one) (NLeaf new_suffix value), None)
      else
        let? b := index bits (len prefix) in
        let? rest := after bits (length prefix) in
        if b : bool then
          let? (child, old) := insert_node one rest value in
          Ok (NBranch prefix zero child, old)
        else
          let? (child, old) := insert_node zero rest value in
          Ok (NBranch prefix child one, old)
  end.

Definition insert (node : option Node) (bits : list bool) (value : Cell) :
    result DictionaryError (Node * option Cell) :=
  match node with
  | None => Ok (NLeaf bits value, None)
  | Some node => insert_node node bits value
  end.

Definition prepend (prefix : list bool) (edge : bool) (node : Node) : Node :=
  match node with
  | NLeaf suffix value => NLeaf ((prefix ++ [edge]) ++ suffix) value
  | NBranch child_prefix zero one => NBranch ((prefix ++ [edge]) ++ child_prefix) zero one
  end.

(** The node left, if any, and the value removed *)
Fixpoint remove_node (node : Node) (bits : list bool) :
    result DictionaryError (option Node * option Cell) :=
  match node with
  | NLeaf suffix value =>
      if bool_decide (suffix = bits) then Ok (None, Some value) else Ok (Some (NLeaf suffix value), None)
  | NBranch prefix zero one =>
      if negb (below prefix bits) then Ok (Some (NBranch prefix zero one), None)
      else
        let? b := index bits (len prefix) in
        let? rest := after bits (length prefix) in
        if b : bool then
          let? (child, old) := remove_node one rest in
          Ok (Some (match child with
                    | Some child => NBranch prefix zero child
                    | None => prepend prefix false zero
                    end), old)
        else
          let? (child, old) := remove_node zero rest in
          Ok (Some (match child with
                    | Some child => NBranch prefix child one
                    | None => prepend prefix true one
                    end), old)
  end.

Definition remove (node : option Node) (bits : list bool) :
    result DictionaryError (option Node * option Cell) :=
  match node with None => Ok (None, None) | Some node => remove_node node bits end.

(** ** Commitment *)

Definition pack (bits : list bool) : result DictionaryError bytes :=
  foldM (λ ib out, if ib.2 : bool then set_bit out (Z.of_nat ib.1) else Ok out) (imap pair bits)
    (replicate (Z.to_nat (div_ceil (len bits) 8)) (byte_of 0)).

Section dictionary.
Context {C : Crypto}.

Definition dict_cell (data : bytes) (refs : list bytes) : result DictionaryError Cell :=
  map_err (λ _, CellError) (Cell_new data refs).

(** [fuel]: one more than the number of chunks of 1000 bits suffices. *)
Fixpoint label_tail (fuel : nat) (bits : list bool) : result DictionaryError Cell :=
  match fuel with
  | O => Panic
  | S fuel =>
      let first := Nat.min (length bits) 1000 in
      let? refs :=
        if (first <? length bits)%nat
        then let? tail := label_tail fuel (drop first bits) in Ok [cell_hash tail]
        else Ok [] in
      let? packed := pack (take first bits) in
      dict_cell ([byte_of 0xD2] ++ packed) refs
  end.

Definition node_cell (tag : Z) (bits : list bool) (refs : list bytes) : result DictionaryError Cell :=
  let first := Nat.min (length bits) 1000 in
  let? packed := pack (take first bits) in
  let data := [byte_of tag] ++ be_bytes 2 (as_u 16 (len bits)) ++ packed in
  let? refs :=
    if (first <? length bits)%nat
    then let? tail := label_tail (length bits) (drop first bits) in Ok (cell_hash tail :: refs)
    else Ok refs in
  dict_cell data refs.

Fixpoint serialize (node : Node) : result DictionaryError Cell :=
  match node with
  | NLeaf suffix value => node_cell 0xD0 suffix [cell_hash value]
  | NBranch prefix zero one =>
      let? zero := serialize zero in
      let? one := serialize one in
      node_cell 0xD1 prefix [cell_hash zero; cell_hash one]
  end.

(** ** Operations on dictionaries *)

Definition dict_get (d : Dictionary) (key : bytes) : result DictionaryError (option Cell) :=
  let? bits := key_bits key (dict_key_bits d) in
  match root d with Some node => get node bits | None => Ok None end.

(** The dictionary and the value replaced *)
Definition dict_set (d : Dictionary) (key : bytes) (value : Cell) :
    result DictionaryError (Dictionary * option Cell) :=
  let? bits := key_bits key (dict_key_bits d) in
  let? (node, old) := insert (root d) bits value in
  let? cell := serialize node in
  Ok ({| dict_key_bits := dict_key_bits d; root := Some node; root_cell := Some cell |}, old).

Definition dict_delete (d : Dictionary) (key : bytes) :
    result DictionaryError (Dictionary * option Cell) :=
  let? bits := key_bits key (dict_key_bits d) in
  let? (node, old) := remove (root d) bits in
  let? cell := match node with Some node => (let? c := serialize node in Ok (Some c)) | None => Ok None end in
  Ok ({| dict_key_bits := dict_key_bits d; root := node; root_cell := cell |}, old).
End dictionary.

(** * The map a node implements *)

#[export] Instance under_inj (p : list bool) (b : bool) : Inj (=) (=) (λ k : list bool, p ++ b :: k).
Proof. intros k k' H. apply app_inv_head in H. by injection H. Qed.

Fixpoint contents (node : Node) : gmap (list bool) Cell :=
  match node with
  | NLeaf suffix value => {[ suffix := value ]}
  | NBranch prefix zero one =>
      kmap (λ k, prefix ++ false :: k) (contents zero) ∪ kmap (λ k, prefix ++ true :: k) (contents one)
  end.

(** All keys have [n] bits. *)
Fixpoint node_wf (n : nat) (node : Node) : Prop :=
  match node with
  | NLeaf suffix _ => length suffix = n
  | NBranch prefix zero one =>
      ∃ m, n = (length prefix + S m)%nat ∧ node_wf m zero ∧ node_wf m one
  end.

Lemma under_cases (p bits : list bool) :
  (∃ b r, bits = p ++ b :: r) ∨ (∀ b r, bits ≠ p ++ b :: r).
Proof.
  destruct (decide (p `prefix_of` bits)) as [[[|b r] ->]|Hn].
  - right. intros b r H. apply (f_equal length) in H. rewrite !length_app in H. cbn in H. lia.
  - left. eauto.
  - right. intros b r ->. apply Hn. by eexists.
Qed.

Lemma contents_under p z o b r :
  contents (NBranch p z o) !! (p ++ b :: r) = contents (if b : bool then o else z) !! r.
Proof.
  cbn [contents]. assert (∀ (c : bool) (m : gmap (list bool) Cell), c ≠ b →
    (kmap (λ k, p ++ c :: k) m : gmap (list bool) Cell) !! (p ++ b :: r) = None) as Hother.
  { intros c m Hne. apply lookup_kmap_None; [apply _|]. intros k Hk. apply app_inv_head in Hk. congruence. }
  destruct b; [rewrite lookup_union_r|rewrite lookup_union_l]; try (by apply Hother).
  - apply (lookup_kmap (λ k, p ++ true :: k)).
  - apply (lookup_kmap (λ k, p ++ false :: k)).
Qed.

Lemma contents_not_under p z o bits :
  (∀ b r, bits ≠ p ++ b :: r) → contents (NBranch p z o) !! bits = None.
Proof.
  intros Hn. cbn [contents]. rewrite lookup_union_None.
  split; (apply lookup_kmap_None; [apply _|]; intros k Hk; by edestruct Hn).
Qed.

Lemma contents_strip c p z o r : contents (NBranch (c ++ p) z o) !! (c ++ r) = contents (NBranch p z o) !! r.
Proof.
  destruct (under_cases p r) as [(b & r' & ->)|Hn].
  - rewrite app_assoc. by rewrite !contents_under.
  - rewrite !contents_not_under; [done|done|]. intros b r'. rewrite <-app_assoc.
    intros ?%app_inv_head. by eapply Hn.
Qed.

Lemma contents_length node n bits : node_wf n node → is_Some (contents node !! bits) → length bits = n.
Proof.
  revert n bits. induction node as [s v|p z IHz o IHo]; intros n bits.
  - intros Hs [c Hc]. cbn in Hc. by apply lookup_singleton_Some in Hc as [<- _].
  - intros (m & -> & Hz & Ho) Hsome. destruct (under_cases p bits) as [(b & r & ->)|Hn].
    + rewrite contents_under in Hsome. rewrite length_app. cbn. destruct b; [by rewrite (IHo m r Ho Hsome)|by rewrite (IHz m r Hz Hsome)].
    + rewrite contents_not_under in Hsome by done. by destruct Hsome.
Qed.

(** ** Bit strings *)

Lemma below_true p bits : below p bits = true ↔ ∃ b r, bits = p ++ b :: r.
Proof.
  unfold below. rewrite andb_true_iff, bool_decide_eq_true, Nat.ltb_lt. split.
  - intros [[[|b r] ->] Hl]; [rewrite app_nil_r in Hl; lia|eauto].
  - intros (b & r & ->). split; [by eexists|]. rewrite length_app. cbn. lia.
Qed.

Lemma index_under (p : list bool) (b : bool) r : index (E:=DictionaryError) (p ++ b :: r) (len p) = Ok b.
Proof.
  unfold index. rewrite (proj2 (Z.leb_le _ _)) by apply len_nonneg.
  by rewrite to_nat_len, list_lookup_middle.
Qed.

Lemma after_under p b r : after (p ++ b :: r) (length p) = Ok r.
Proof.
  unfold after. rewrite slice_Ok; rewrite ?len_app, ?len_cons; [|unfold len; lia..].
  replace (Z.to_nat (Z.of_nat (length p) + 1)) with (length p + 1)%nat by lia. f_equal.
  rewrite drop_app_add. cbn [drop]. rewrite drop_0. apply take_ge. unfold len. lia.
Qed.

Lemma common_cases a b :
  (length a ≤ length b)%nat →
  (∃ r, b = a ++ r ∧ common a b = length a) ∨
  (∃ c x a' b', a = c ++ x :: a' ∧ b = c ++ negb x :: b' ∧ common a b = length c).
Proof.
  revert b. induction a as [|x a IH]; intros b Hl; [left; by exists b|].
  destruct b as [|y b]; [cbn in Hl; lia|]. cbn [common]. destruct (Bool.eqb x y) eqn:Hxy.
  - apply Bool.eqb_prop in Hxy as ->. cbn in Hl.
    destruct (IH b ltac:(lia)) as [(r & -> & ->)|(c & z & a' & b' & -> & -> & ->)]; [left; by exists r|].
    right. by exists (y :: c), z, a', b'.
  - right. exists [], x, a, b. split_and!; [done| |done]. apply Bool.eqb_false_iff in Hxy.
    by destruct x, y.
Qed.

(** ** The operations refine the map's *)

Lemma get_contents node bits : get node bits = Ok (contents node !! bits).
Proof.
  revert bits. induction node as [s v|p z IHz o IHo]; intros bits; cbn [get].
  - case_bool_decide as Hs; cbn [contents]; [by subst; rewrite lookup_singleton_eq|].
    by rewrite lookup_singleton_ne.
  - destruct (below p bits) eqn:Hb.
    + apply below_true in Hb as (b & r & ->). rewrite index_under, rbind_ret, after_under, rbind_ret.
      rewrite contents_under. by destruct b.
    + rewrite contents_not_under; [done|]. intros b r Hr. apply not_true_iff_false in Hb. apply Hb, below_true. eauto.
Qed.

(** The contents of a fork of two nodes *)
Lemma contents_fork c x old new b r :
  contents (fork c x old new) !! (c ++ b :: r) = contents (if Bool.eqb b x then old else new) !! r.
Proof. unfold fork. destruct x; rewrite contents_under; by destruct b. Qed.

Lemma contents_fork_not_under c x old new bits :
  (∀ b r, bits ≠ c ++ b :: r) → contents (fork c x old new) !! bits = None.
Proof. unfold fork. destruct x; apply contents_not_under. Qed.

Lemma fork_wf c x old new m :
  node_wf m old → node_wf m new → node_wf (length c + S m) (fork c x old new).
Proof. intros. unfold fork. destruct x; by exists m. Qed.

Lemma fork_contents c x old new m b' v :
  (∀ r, contents old !! r = m !! (c ++ x :: r)) →
  contents new = {[ b' := v ]} →
  (∀ r, m !! (c ++ negb x :: r) = None) → (∀ k, is_Some (m !! k) → ∃ b r, k = c ++ b :: r) →
  contents (fork c x old new) = <[ c ++ negb x :: b' := v ]> m.
Proof.
  intros Hold Hnew Hnone Hsome. apply map_eq. intros k.
  destruct (under_cases c k) as [(b & r & ->)|Hn].
  - rewrite contents_fork. destruct (Bool.eqb b x) eqn:Hbx.
    + apply Bool.eqb_prop in Hbx as ->. rewrite lookup_insert_ne, Hold; [done|].
      intros H%app_inv_head. destruct x; discriminate H.
    + assert (b = negb x) as -> by (destruct b, x; done). rewrite Hnew.
      destruct (decide (b' = r)) as [->|Hne]; [by rewrite lookup_singleton_eq, lookup_insert_eq|].
      rewrite lookup_singleton_ne, lookup_insert_ne, Hnone by (done || intros ?%app_inv_head; congruence). done.
  - rewrite contents_fork_not_under by done. rewrite lookup_insert_ne by (intros <-; by eapply Hn).
    destruct (m !! k) eqn:Hk; [|done]. destruct (Hsome k) as (b & r & ->); [by eexists|]. by edestruct Hn.
Qed.

(** A child is replaced: [ov] is the new value of its key [r]. *)
Lemma contents_child p z o b child r ov :
  (∀ k, contents child !! k = if decide (k = r) then ov else contents (if b : bool then o else z) !! k) →
  ∀ k, contents (if b then NBranch p z child else NBranch p child o) !! k
    = if decide (k = p ++ b :: r) then ov else contents (NBranch p z o) !! k.
Proof.
  intros Hc k. destruct (under_cases p k) as [(y & r' & ->)|Hn].
  - rewrite contents_under. assert (contents (if b then NBranch p z child else NBranch p child o) !! (p ++ y :: r')
      = contents (if Bool.eqb y b then child else if y then o else z) !! r') as ->
      by (destruct b; rewrite contents_under; by destruct y).
    destruct (Bool.eqb y b) eqn:Hyb.
    + apply Bool.eqb_prop in Hyb as ->. rewrite Hc. repeat case_decide; subst; try done.
      match goal with H : p ++ _ = p ++ _ |- _ => apply app_inv_head in H; congruence end.
    + rewrite decide_False; [done|]. intros H%app_inv_head. apply Bool.eqb_false_iff in Hyb. congruence.
  - rewrite (contents_not_under _ _ _ _ Hn), decide_False by apply Hn.
    destruct b; by apply contents_not_under.
Qed.

Lemma insert_lookup (m : gmap (list bool) Cell) (bits : list bool) (v : Cell) (m' : gmap (list bool) Cell) :
  (∀ k, m' !! k = if decide (k = bits) then Some v else m !! k) ↔ m' = <[ bits := v ]> m.
Proof.
  split; [intros H; apply map_eq; intros k; rewrite H|intros -> k]; case_decide as Hk; subst;
    by rewrite ?lookup_insert_eq, ?lookup_insert_ne.
Qed.

Lemma delete_lookup (m : gmap (list bool) Cell) (bits : list bool) (m' : gmap (list bool) Cell) :
  (∀ k, m' !! k = if decide (k = bits) then None else m !! k) ↔ m' = base.delete bits m.
Proof.
  split; [intros H; apply map_eq; intros k; rewrite H|intros -> k]; case_decide as Hk; subst;
    by rewrite ?lookup_delete_eq, ?lookup_delete_ne.
Qed.

Lemma insert_leaf_spec s prior n bits v :
  node_wf n (NLeaf s prior) → length bits = n →
  ∃ node', insert_node (NLeaf s prior) bits v = Ok (node', contents (NLeaf s prior) !! bits) ∧ node_wf n node' ∧
    contents node' = <[ bits := v ]> (contents (NLeaf s prior)).
Proof.
  intros Hwf Hn. cbn [insert_node]. cbn in Hwf. destruct (common_cases s bits) as [(r & -> & ->)|(c & x & a' & b' & -> & -> & ->)]; [lia| |].
  - rewrite length_app in Hn. assert (r = []) as -> by (destruct r; [done|cbn in Hn; lia]).
    rewrite app_nil_r, Nat.eqb_refl. cbn [andb contents]. exists (NLeaf s v).
    rewrite lookup_singleton_eq, insert_singleton_eq. by split_and!.
  - rewrite (proj2 (Nat.eqb_neq _ _)) by (rewrite length_app; cbn; lia). cbn [andb].
    fold (len c). rewrite index_under, rbind_ret, !after_under, !rbind_ret, take_app_length.
    eexists. split; [do 2 f_equal; cbn [contents]; symmetry; apply lookup_singleton_ne|split].
    + intros H%app_inv_head. destruct x; discriminate H.
    + rewrite length_app in *. cbn in *. replace n with (length c + S (length a'))%nat by lia.
      apply fork_wf; cbn; lia.
    + apply fork_contents; cbn [contents].
      * intros r. destruct (decide (a' = r)) as [->|Hne]; [by rewrite !lookup_singleton_eq|].
         rewrite !lookup_singleton_ne; [done|intros ?%app_inv_head; congruence|done].
      * done.
      * intros r. apply lookup_singleton_ne. intros H%app_inv_head. destruct x; discriminate H.
      * intros k [w Hk]. apply lookup_singleton_Some in Hk as [<- _]. eauto.
Qed.

Lemma insert_node_spec node : ∀ n bits v,
  node_wf n node → length bits = n →
  ∃ node', insert_node node bits v = Ok (node', contents node !! bits) ∧ node_wf n node' ∧
    contents node' = <[ bits := v ]> (contents node).
Proof.
  induction node as [s prior|p z IHz o IHo]; intros n bits v Hwf Hn.
  - by apply insert_leaf_spec.
  - cbn [insert_node]. destruct Hwf as (m & -> & Hz & Ho).
    destruct (common_cases p bits) as [(r & -> & ->)|(c & x & a' & b' & -> & -> & ->)]; [lia| |].
    + rewrite length_app in Hn. destruct r as [|b r]; [cbn in Hn; lia|].
      rewrite (proj2 (Nat.ltb_ge _ _)), index_under, rbind_ret, after_under, rbind_ret by lia.
      assert (length r = m) as Hr by (cbn in Hn; lia). rewrite contents_under.
      assert (∀ child, contents child = <[ r := v ]> (contents (if b then o else z)) →
        contents (if b then NBranch p z child else NBranch p child o) = <[ p ++ b :: r := v ]> (contents (NBranch p z o)))
        as Hset.
      { intros child Hc. apply insert_lookup, contents_child. by apply insert_lookup. }
      destruct b.
      * destruct (IHo m r v Ho Hr) as (o' & -> & Hwf & Hc). rewrite rbind_ret. eexists. split; [done|].
        split; [by exists m|by apply Hset].
      * destruct (IHz m r v Hz Hr) as (z' & -> & Hwf & Hc). rewrite rbind_ret. eexists. split; [done|].
        split; [by exists m|by apply Hset].
    + rewrite (proj2 (Nat.ltb_lt _ _)) by (rewrite length_app; cbn; lia).
      fold (len c). rewrite index_under, rbind_ret, !after_under, !rbind_ret, take_app_length.
      assert (∀ r, contents (NBranch (c ++ x :: a') z o) !! (c ++ negb x :: r) = None) as Hnone.
      { intros r. apply contents_not_under. intros y r' H. rewrite <-app_assoc in H.
        apply app_inv_head in H. destruct x; discriminate H. }
      rewrite Hnone. eexists. split; [done|]. rewrite !length_app in *. cbn [length] in *. split.
      * replace (length c + S (length a') + S m)%nat with (length c + S (length a' + S m))%nat by lia.
        apply fork_wf; [by exists m|cbn; lia].
      * apply fork_contents; [|done|done|].
        -- intros r. change (c ++ x :: a') with (c ++ ([x] ++ a')). change (c ++ x :: r) with (c ++ ([x] ++ r)).
           rewrite contents_strip. cbn [app]. symmetry. apply (contents_strip [x]).
        -- intros k [w Hk]. destruct (under_cases (c ++ x :: a') k) as [(y & r & ->)|Hn'].
           ++ rewrite <-app_assoc. cbn [app]. eauto.
           ++ by rewrite contents_not_under in Hk.
Qed.

Lemma prepend_contents p e node :
  (∀ r, contents (prepend p e node) !! (p ++ e :: r) = contents node !! r) ∧
  (∀ k, (∀ r, k ≠ p ++ e :: r) → contents (prepend p e node) !! k = None).
Proof.
  assert (∀ r, p ++ e :: r = (p ++ [e]) ++ r) as Happ by (intros; by rewrite <-app_assoc).
  destruct node as [s v|q z o]; cbn [prepend]; (split; [intros r|intros k Hk]).
  - rewrite (Happ r). cbn [contents]. destruct (decide (s = r)) as [->|Hne]; [by rewrite !lookup_singleton_eq|].
    rewrite !lookup_singleton_ne; [done|done|]. intros ?%app_inv_head. congruence.
  - cbn [contents]. apply lookup_singleton_ne. intros <-. apply (Hk s). by rewrite (Happ s).
  - rewrite (Happ r). apply contents_strip.
  - apply contents_not_under. intros b r ->. apply (Hk (q ++ b :: r)). by rewrite (Happ (q ++ b :: r)), <-app_assoc.
Qed.

Lemma prepend_wf p e node m : node_wf m node → node_wf (length p + S m) (prepend p e node).
Proof.
  destruct node as [s v|q z o]; cbn [prepend node_wf]; rewrite !length_app; cbn [length].
  - intros <-. lia.
  - intros (k & -> & Hz & Ho). exists k. split_and!; [lia|done|done].
Qed.

Definition contents_opt (node : option Node) : gmap (list bool) Cell := from_option contents ∅ node.
Definition node_opt_wf (n : nat) (node : option Node) : Prop := from_option (node_wf n) True node.

Lemma remove_node_spec node : ∀ n bits,
  node_wf n node → length bits = n →
  ∃ node', remove_node node bits = Ok (node', contents node !! bits) ∧ node_opt_wf n node' ∧
    contents_opt node' = base.delete bits (contents node).
Proof.
  induction node as [s v|p z IHz o IHo]; intros n bits Hwf Hn; cbn [remove_node].
  - case_bool_decide as Hs; cbn [contents].
    + subst s. exists None. rewrite lookup_singleton_eq. split_and!; [done|done|]. cbn.
      by rewrite delete_singleton_eq.
    + eexists. rewrite lookup_singleton_ne by done. split_and!; [done|done|]. cbn.
      by rewrite delete_id; [|rewrite lookup_singleton_ne].
  - destruct (below p bits) eqn:Hb; cbn [negb].
    + apply below_true in Hb as (b & r & ->). rewrite index_under, rbind_ret, after_under, rbind_ret.
      destruct Hwf as (m & -> & Hz & Ho). rewrite contents_under.
      assert (length r = m) as Hr by (rewrite length_app in Hn; cbn in Hn; lia).
      assert (∀ child, contents_opt child = base.delete r (contents (if b then o else z)) →
        contents (match child with
                  | Some child => if b then NBranch p z child else NBranch p child o
                  | None => prepend p (negb b) (if b then z else o)
                  end) = base.delete (p ++ b :: r) (contents (NBranch p z o))) as Hdel.
      { intros child Hc. apply delete_lookup. destruct child as [child|].
        - apply contents_child. by apply delete_lookup.
        - intros k. destruct (prepend_contents p (negb b) (if b then z else o)) as [H1 H2].
          destruct (under_cases p k) as [(y & r' & ->)|Hk].
          + destruct (Bool.eqb y b) eqn:Hyb.
            * apply Bool.eqb_prop in Hyb as ->. rewrite H2 by (intros r'' H%app_inv_head; by destruct b).
              case_decide as Hd; [done|]. rewrite contents_under.
              assert (contents_opt None !! r' = contents (if b then o else z) !! r') as <-; [|done].
              rewrite Hc, lookup_delete_ne; [done|congruence].
            * assert (y = negb b) as -> by (by destruct y, b). rewrite H1, decide_False.
              -- rewrite contents_under. by destruct b.
              -- intros H%app_inv_head. destruct b; discriminate H.
          + rewrite H2 by (intros; apply Hk). rewrite decide_False by apply Hk.
            by rewrite contents_not_under. }
      destruct b.
      * destruct (IHo m r Ho Hr) as (o' & -> & Hwf & Hc). rewrite rbind_ret. eexists. split; [done|].
        split; [|exact (Hdel o' Hc)]. destruct o'; [by exists m|by apply prepend_wf].
      * destruct (IHz m r Hz Hr) as (z' & -> & Hwf & Hc). rewrite rbind_ret. eexists. split; [done|].
        split; [|exact (Hdel z' Hc)]. destruct z'; [by exists m|by apply prepend_wf].
    + assert (contents (NBranch p z o) !! bits = None) as Hnone.
      { apply contents_not_under. intros b r ->. apply not_true_iff_false in Hb. apply Hb, below_true. eauto. }
      rewrite Hnone. eexists. split; [done|]. split; [done|]. symmetry. by apply delete_id.
Qed.

(** ** Keys *)

Lemma key_bit_spec key i x : 0 ≤ i → bits_of key !! Z.to_nat i = Some x → key_bit key i = Ok x.
Proof.
  intros H0 Hx. pose proof (lookup_lt_Some _ _ _ Hx) as Hl. pose proof (len_bits_of key) as Hlen.
  destruct (bits_of_lookup key i) as (b & Hb & Hb'); [unfold len in *; lia|].
  assert (0 ≤ i / 8) by (apply Z.div_pos; lia). pose proof (Z.mod_pos_bound i 8 ltac:(lia)).
  unfold key_bit, index. rewrite (proj2 (Z.leb_le _ _)), Hb by lia. cbn [unwrap]. rewrite rbind_ret. f_equal.
  assert (x = Z.testbit (byte_val b) (7 - i mod 8)) as -> by congruence.
  rewrite Z.shiftl_1_l. destruct (Z.testbit (byte_val b) (7 - i mod 8)) eqn:Ht.
  - apply negb_true_iff, Z.eqb_neq. intros Hz. apply (f_equal (λ z, Z.testbit z (7 - i mod 8))) in Hz.
    rewrite Z.land_spec, Z.pow2_bits_true, Z.bits_0, Ht in Hz by lia. done.
  - apply negb_false_iff, Z.eqb_eq. apply Z.bits_inj'. intros k Hk.
    rewrite Z.land_spec, Z.bits_0, Z.pow2_bits_eqb by lia.
    destruct (Z.eqb_spec (7 - i mod 8) k) as [<-|]; [by rewrite Ht|by rewrite andb_false_r].
Qed.

Definition key_ok (key : bytes) (width : Z) : Prop := width ≤ len key * 8 < width + 8.

Lemma key_bits_spec key width :
  0 ≤ width →
  key_bits key width =
    if decide (key_ok key width) then Ok (take (Z.to_nat width) (bits_of key)) else Err InvalidKey.
Proof.
  intros Hw. unfold key_bits, key_ok. case_decide as Hk.
  - rewrite (proj2 (Z.ltb_ge _ _)), (proj2 (Z.leb_gt _ _)) by lia. cbn [orb].
    pose proof (len_bits_of key) as Hlen.
    destruct (foldM_seqZ (E:=DictionaryError) (λ i bits, bits = take (Z.to_nat i) (bits_of key))
      (λ i bits, let? b := key_bit key i in Ok (bits ++ [b])) width []) as (bits & -> & ->); [done|done| |done].
    intros i t Hi ->. destruct (lookup_lt_is_Some_2 (bits_of key) (Z.to_nat i)) as [x Hx].
    { unfold len in *. lia. }
    rewrite (key_bit_spec _ _ x), rbind_ret by (done || lia). eexists. split; [done|].
    replace (Z.to_nat (i + 1)) with (S (Z.to_nat i)) by lia. by rewrite (take_S_r _ _ _ Hx).
  - assert ((len key * 8 <? width) || (width + 8 <=? len key * 8) = true) as ->; [|done].
    apply orb_true_iff. rewrite Z.ltb_lt, Z.leb_le. lia.
Qed.

Lemma key_length key width :
  0 ≤ width → key_ok key width → length (take (Z.to_nat width) (bits_of key)) = Z.to_nat width.
Proof.
  unfold key_ok. intros Hw Hk. pose proof (len_bits_of key) as Hlen. unfold len in *. rewrite length_take. lia.
Qed.

(** ** Packed labels *)

Lemma pack_loop bits : ∀ l out k,
  bits_of out = l ++ replicate k false → (length bits ≤ k)%nat →
  ∃ out', foldM (λ ib out, if ib.2 : bool then set_bit out (Z.of_nat ib.1) else Ok out)
      (imap (λ i b, ((length l + i)%nat, b)) bits) out = Ok (E:=DictionaryError) out' ∧
    len out' = len out ∧ bits_of out' = l ++ bits ++ replicate (k - length bits) false.
Proof.
  induction bits as [|b bits IH]; intros l out k Hout Hk.
  { exists out. cbn. by rewrite Nat.sub_0_r. }
  destruct k as [|k]; [cbn in Hk; lia|]. cbn [imap foldM]. cbn [replicate] in Hout. rewrite Nat.add_0_r.
  assert (∃ out1, (if b then set_bit out (Z.of_nat (length l)) else Ok out) = Ok (E:=DictionaryError) out1 ∧
    len out1 = len out ∧ bits_of out1 = (l ++ [b]) ++ replicate k false) as (out1 & Ho1 & Hl1 & Hb1).
  { destruct b; [|exists out; split_and!; [done|done|by rewrite <-app_assoc]].
    destruct (set_bit_spec (E:=DictionaryError) out (Z.of_nat (length l))) as (out1 & -> & Hl1 & Hb1).
    { pose proof (f_equal len Hout) as Hlen. rewrite len_bits_of, len_app, len_cons in Hlen.
      pose proof (len_nonneg (replicate k false)). unfold len at 2 in Hlen. lia. }
    exists out1. split_and!; [done|done|]. by rewrite Hb1, Hout, Nat2Z.id, insert_after. }
  cbn [fst snd]. rewrite Ho1. cbn [rbind]. cbn [length] in Hk.
  destruct (IH (l ++ [b]) out1 k Hb1 ltac:(lia)) as (out' & Hf & Hl' & Hb').
  exists out'. split_and!; [|congruence|rewrite Hb', <-app_assoc; done].
  rewrite <-Hf. f_equal. apply imap_ext. intros i x _. cbn. rewrite length_app. cbn. f_equal. lia.
Qed.

Lemma div_ceil_bounds x : 0 ≤ x → x ≤ 8 * div_ceil x 8 < x + 8.
Proof.
  intros Hx. unfold div_ceil. pose proof (Z.div_mod x 8 ltac:(lia)). pose proof (Z.mod_pos_bound x 8 ltac:(lia)).
  destruct (Z.eqb_spec (x mod 8) 0); lia.
Qed.

Lemma pack_spec bits :
  ∃ out, pack bits = Ok out ∧ len out = div_ceil (len bits) 8 ∧ filled out bits.
Proof.
  unfold pack. set (n := Z.to_nat (div_ceil (len bits) 8)).
  pose proof (div_ceil_bounds (len bits) (len_nonneg _)) as Hn. pose proof (len_nonneg bits).
  assert (bits_of (replicate n (byte_of 0)) = [] ++ replicate (8 * n) false) as Hzero.
  { cbn [app]. clear Hn. induction n as [|n IH]; [done|].
    replace (8 * S n)%nat with (8 + 8 * n)%nat by lia. rewrite replicate_add.
    change (replicate (S n) (byte_of 0)) with ([byte_of 0] ++ replicate n (byte_of 0)).
    by rewrite bits_of_app, IH. }
  destruct (pack_loop bits [] (replicate n (byte_of 0)) (8 * n) Hzero) as (out & Hf & Hl & Hb).
  { unfold n, len in *. lia. }
  exists out. split; [exact Hf|]. rewrite Hl. unfold len at 1. rewrite length_replicate.
  split; [unfold n; lia|]. exists (8 * n - length bits)%nat. split; [unfold n, len in *; lia|exact Hb].
Qed.

Lemma pack_inj a b out : pack a = Ok out → pack b = Ok out → length a = length b → a = b.
Proof.
  intros Ha Hb Hl. destruct (pack_spec a) as (o & Ho & _ & (pa & _ & Hpa)).
  destruct (pack_spec b) as (o' & Ho' & _ & (pb & _ & Hpb)).
  assert (o = out) as -> by congruence. assert (o' = out) as -> by congruence.
  rewrite Hpa in Hpb. by apply app_inj_1 in Hpb as [? _].
Qed.

Section dictionary_proofs.
Context {C : Crypto} {L : CryptoLaws C}.

(** ** Node cells *)

Lemma dict_cell_Ok data refs :
  len data ≤ 128 → len refs ≤ 4 → Forall (λ r : bytes, len r = 32) refs →
  ∃ c, dict_cell data refs = Ok c ∧ Cell_wf c ∧ data_bytes c = data ∧ cell_refs c = refs.
Proof.
  intros Hd Hr Hw. unfold dict_cell, Cell_new.
  rewrite (proj2 (new_with_special_Ok _ _ _ _) (conj eq_refl (conj Hd Hr))). cbn [map_err].
  eexists. split; [done|]. by split_and!.
Qed.

Lemma div_ceil_le x y : 0 ≤ x → x ≤ 8 * y → div_ceil x 8 ≤ y.
Proof. intros Hx Hy. pose proof (div_ceil_bounds x Hx). lia. Qed.

Lemma packed_len bits out :
  pack (take (Nat.min (length bits) 1000) bits) = Ok out → len out ≤ 125.
Proof.
  intros Hp. destruct (pack_spec (take (Nat.min (length bits) 1000) bits)) as (o & Ho & Hl & _).
  assert (o = out) as -> by congruence. rewrite Hl. apply div_ceil_le; [apply len_nonneg|].
  unfold len. rewrite length_take. lia.
Qed.

Lemma label_tail_Ok fuel : ∀ bits,
  (length bits ≤ fuel)%nat → ∃ c, label_tail (S fuel) bits = Ok c ∧ Cell_wf c.
Proof.
  induction fuel as [|fuel IH]; intros bits Hl; cbn [label_tail].
  - assert (bits = []) as -> by (destruct bits; [done|cbn in Hl; lia]).
    destruct (dict_cell_Ok ([byte_of 0xD2] ++ []) []) as (c & Hc & Hw & _); [done|done|constructor|].
    exists c. split; [exact Hc|done].
  - set (first := Nat.min (length bits) 1000).
    destruct (pack_spec (take first bits)) as (out & Hout & _). pose proof (packed_len _ _ Hout) as Hlen.
    assert (∃ refs, (if (first <? length bits)%nat
      then let? tail := label_tail (S fuel) (drop first bits) in Ok [cell_hash tail] else Ok [])
      = Ok (E:=DictionaryError) refs ∧ len refs ≤ 1 ∧ Forall (λ r : bytes, len r = 32) refs)
      as (refs & Hr & Hlr & Hw).
    { destruct (Nat.ltb_spec first (length bits)); [|by exists []].
      destruct (IH (drop first bits)) as (c & -> & _); [rewrite length_drop; unfold first in *; lia|].
      eexists. split; [done|]. split; [done|]. constructor; [apply len_cell_hash|constructor]. }
    destruct (dict_cell_Ok ([byte_of 0xD2] ++ out) refs) as (c & Hc & Hwc & _);
      [rewrite len_app; change (len [byte_of 0xD2]) with 1; lia|lia|done|].
    exists c. split; [|done]. cbn [label_tail] in Hr. rewrite Hr, rbind_ret, Hout, rbind_ret. exact Hc.
Qed.

Lemma node_cell_Ok tag bits refs :
  len refs ≤ 2 → Forall (λ r : bytes, len r = 32) refs →
  ∃ c, node_cell tag bits refs = Ok c ∧ Cell_wf c.
Proof.
  intros Hr Hw. unfold node_cell. set (first := Nat.min (length bits) 1000).
  destruct (pack_spec (take first bits)) as (out & Hout & _). pose proof (packed_len _ _ Hout) as Hlen.
  rewrite Hout, rbind_ret.
  assert (∃ rs, (if (first <? length bits)%nat
    then let? tail := label_tail (length bits) (drop first bits) in Ok (cell_hash tail :: refs) else Ok refs)
    = Ok (E:=DictionaryError) rs ∧ len rs ≤ 4 ∧ Forall (λ r : bytes, len r = 32) rs) as (rs & -> & Hlr & Hw').
  { destruct (Nat.ltb_spec first (length bits)); [|exists refs; split_and!; [done|lia|done]].
    destruct (length bits) as [|n] eqn:Hn; [lia|].
    destruct (label_tail_Ok n (drop first bits)) as (c & -> & _); [rewrite length_drop; unfold first in *; lia|].
    eexists. split; [done|]. rewrite len_cons. split; [lia|]. constructor; [apply len_cell_hash|done]. }
  rewrite rbind_ret. destruct (dict_cell_Ok ([byte_of tag] ++ be_bytes 2 (as_u 16 (len bits)) ++ out) rs)
    as (c & Hc & Hwc & _); [rewrite !len_app, len_be_bytes; change (len [byte_of tag]) with 1; lia|done|done|].
  by exists c.
Qed.

Lemma serialize_Ok node : ∃ c, serialize node = Ok c ∧ Cell_wf c.
Proof.
  induction node as [s v|p z IHz o IHo]; cbn [serialize].
  - apply node_cell_Ok; [done|]. constructor; [apply len_cell_hash|constructor].
  - destruct IHz as (cz & -> & _). destruct IHo as (co & -> & _). rewrite !rbind_ret.
    apply node_cell_Ok; [done|]. repeat constructor; apply len_cell_hash.
Qed.

(** ** Canonical form *)

Lemma contents_nonempty node : ∃ k, is_Some (contents node !! k).
Proof.
  induction node as [s v|p z [k Hk] o _].
  - exists s. cbn. rewrite lookup_singleton_eq. by eexists.
  - exists (p ++ false :: k). by rewrite contents_under.
Qed.

Lemma contents_under_some p z o k :
  is_Some (contents (NBranch p z o) !! k) → ∃ b r, k = p ++ b :: r.
Proof.
  intros [v Hv]. destruct (under_cases p k) as [(b & r & ->)|Hn]; [eauto|].
  by rewrite contents_not_under in Hv.
Qed.

Lemma split_prefix (p p' : list bool) a0 a1 x y r s :
  p ++ false :: a0 = p' ++ x :: r → p ++ true :: a1 = p' ++ y :: s → (length p' ≤ length p)%nat.
Proof.
  intros H0 H1. destruct (Nat.le_gt_cases (length p') (length p)) as [|Hl]; [done|]. exfalso.
  apply (f_equal (.!! length p)) in H0. apply (f_equal (.!! length p)) in H1.
  rewrite list_lookup_middle, lookup_app_l in H0 by done.
  rewrite list_lookup_middle, lookup_app_l in H1 by done. congruence.
Qed.

Lemma contents_inj n a b : node_wf n a → node_wf n b → contents a = contents b → a = b.
Proof.
  revert n b. induction a as [s v|p z IHz o IHo]; intros n b Ha Hb Heq.
  - destruct b as [s' v'|p' z' o'].
    + pose proof (f_equal (.!! s) Heq) as H. cbn [contents] in H. rewrite lookup_singleton_eq in H.
      symmetry in H. apply lookup_singleton_Some in H as [-> ->]. done.
    + destruct (contents_nonempty z') as [k0 H0]. destruct (contents_nonempty o') as [k1 H1].
      rewrite <-(contents_under p' z' o' false), <-Heq in H0. rewrite <-(contents_under p' z' o' true), <-Heq in H1.
      cbn [contents] in *. destruct H0 as [v0 H0], H1 as [v1 H1].
      apply lookup_singleton_Some in H0 as [H0 _]. apply lookup_singleton_Some in H1 as [H1 _].
      rewrite H0 in H1. by apply app_inv_head in H1.
  - destruct (contents_nonempty z) as [k0 H0]. destruct (contents_nonempty o) as [k1 H1].
    rewrite <-(contents_under p z o false), Heq in H0. rewrite <-(contents_under p z o true), Heq in H1.
    destruct b as [s' v'|p' z' o'].
    + cbn [contents] in *. destruct H0 as [v0 H0], H1 as [v1 H1].
      apply lookup_singleton_Some in H0 as [H0 _]. apply lookup_singleton_Some in H1 as [H1 _].
      rewrite H0 in H1. by apply app_inv_head in H1.
    + destruct Ha as (m & -> & Hz & Ho). destruct Hb as (m' & Hm & Hz' & Ho').
      destruct (contents_nonempty z') as [l0 L0]. destruct (contents_nonempty o') as [l1 L1].
      rewrite <-(contents_under p' z' o' false), <-Heq in L0. rewrite <-(contents_under p' z' o' true), <-Heq in L1.
      apply contents_under_some in H0 as (x0 & r0 & H0). apply contents_under_some in H1 as (x1 & r1 & H1).
      apply contents_under_some in L0 as (y0 & s0 & L0). apply contents_under_some in L1 as (y1 & s1 & L1).
      pose proof (split_prefix _ _ _ _ _ _ _ _ H0 H1). pose proof (split_prefix _ _ _ _ _ _ _ _ L0 L1).
      assert (p = p') as <- by (apply app_inj_1 in H0 as [? _]; [done|lia]).
      assert (m' = m) as -> by lia. assert (z = z') as <-.
      { apply (IHz m); [done|done|]. apply map_eq. intros r.
        by rewrite <-(contents_under p z o false), Heq, contents_under. }
      f_equal. apply (IHo m); [done|done|]. apply map_eq. intros r.
      by rewrite <-(contents_under p z o true), Heq, contents_under.
Qed.

(** ** Sequences of operations *)

Inductive DictOp : Type := OpGet (key : bytes) | OpSet (key : bytes) (value : Cell) | OpDelete (key : bytes).

(** What the caller sees of the dictionary, and of the map it stands for *)
Definition dict_op (d : Dictionary) (op : DictOp) : Dictionary * result DictionaryError (option Cell) :=
  match op with
  | OpGet key => (d, dict_get d key)
  | OpSet key v => match dict_set d key v with
                   | Ok (d', old) => (d', Ok old) | Err e => (d, Err e) | Panic => (d, Panic) end
  | OpDelete key => match dict_delete d key with
                    | Ok (d', old) => (d', Ok old) | Err e => (d, Err e) | Panic => (d, Panic) end
  end.

Definition map_op (width : Z) (m : gmap (list bool) Cell) (op : DictOp) :
    gmap (list bool) Cell * result DictionaryError (option Cell) :=
  let key := match op with OpGet key | OpSet key _ | OpDelete key => key end in
  let k := take (Z.to_nat width) (bits_of key) in
  if decide (key_ok key width) then
    (match op with
     | OpGet _ => m
     | OpSet _ v => <[ k := v ]> m
     | OpDelete _ => base.delete k m
     end, Ok (m !! k))
  else (m, Err InvalidKey).

Fixpoint run_ops {S R} (f : S → DictOp → S * R) (s : S) (ops : list DictOp) : S * list R :=
  match ops with
  | [] => (s, [])
  | op :: ops => let '(s, r) := f s op in let '(s, rs) := run_ops f s ops in (s, r :: rs)
  end.

Definition committed (node : option Node) (cell : option Cell) : Prop :=
  match node with None => cell = None | Some node => ∃ c, serialize node = Ok c ∧ cell = Some c end.

(** The dictionary of width [width] that stands for the map [m] *)
Record represents (width : Z) (d : Dictionary) (m : gmap (list bool) Cell) : Prop := {
  rep_width : dict_key_bits d = width;
  rep_wf : node_opt_wf (Z.to_nat width) (root d);
  rep_map : contents_opt (root d) = m;
  rep_cell : committed (root d) (root_cell d);
}.

Lemma insert_spec n node bits v :
  node_opt_wf n node → length bits = n →
  ∃ node', insert node bits v = Ok (node', contents_opt node !! bits) ∧ node_wf n node' ∧
    contents node' = <[ bits := v ]> (contents_opt node).
Proof.
  intros Hwf Hn. destruct node as [node|]; [by apply insert_node_spec|].
  exists (NLeaf bits v). change (contents_opt None) with (∅ : gmap (list bool) Cell).
  rewrite lookup_empty. split_and!; [done|done|]. symmetry. apply insert_empty.
Qed.

Lemma remove_spec n node bits :
  node_opt_wf n node → length bits = n →
  ∃ node', remove node bits = Ok (node', contents_opt node !! bits) ∧ node_opt_wf n node' ∧
    contents_opt node' = base.delete bits (contents_opt node).
Proof.
  intros Hwf Hn. destruct node as [node|]; [by apply remove_node_spec|].
  exists None. change (contents_opt None) with (∅ : gmap (list bool) Cell).
  by rewrite lookup_empty, delete_empty.
Qed.

Lemma dict_op_refines width d m op :
  0 ≤ width → represents width d m →
  represents width (dict_op d op).1 (map_op width m op).1 ∧ (dict_op d op).2 = (map_op width m op).2.
Proof.
  intros Hw [<- Hwf Hm Hc]. set (w := dict_key_bits d) in *. unfold map_op.
  destruct op as [key|key v|key]; cbn [dict_op]; unfold dict_get, dict_set, dict_delete; fold w;
    rewrite key_bits_spec by done; (case_decide as Hk; [|cbn; by split]); rewrite rbind_ret;
    pose proof (key_length key w Hw Hk) as Hl; rewrite <-Hm.
  - split; [done|]. destruct (root d) as [node|]; cbn [snd]; [apply get_contents|done].
  - destruct (insert_spec _ _ _ v Hwf Hl) as (node & -> & Hn & Hcont). rewrite rbind_ret.
    destruct (serialize_Ok node) as (c & Hser & _). cbv iota beta. rewrite Hser, rbind_ret.
    split; [|done]. constructor; [done|done|done|]. by exists c.
  - destruct (remove_spec _ _ _ Hwf Hl) as (node & -> & Hn & Hcont). rewrite rbind_ret. cbv iota beta.
    destruct node as [node|].
    + destruct (serialize_Ok node) as (c & Hser & _). rewrite Hser, !rbind_ret.
      split; [|done]. constructor; [done|done|done|]. by exists c.
    + rewrite rbind_ret. split; [|done]. by constructor.
Qed.

Lemma run_ops_refines width ops : ∀ d m,
  0 ≤ width → represents width d m →
  represents width (run_ops dict_op d ops).1 (run_ops (map_op width) m ops).1 ∧
  (run_ops dict_op d ops).2 = (run_ops (map_op width) m ops).2.
Proof.
  induction ops as [|op ops IH]; intros d m Hw Hr; [done|]. cbn [run_ops].
  pose proof (dict_op_refines width d m op Hw Hr) as [Hr' Ho].
  destruct (dict_op d op) as [d' r], (map_op width m op) as [m' r']. cbn [fst snd] in *. subst r'.
  destruct (IH d' m' Hw Hr') as [Hr'' Ho'].
  destruct (run_ops dict_op d' ops), (run_ops (map_op width) m' ops). cbn [fst snd] in *. by subst.
Qed.

Lemma represents_inj width d d' m : represents width d m → represents width d' m → d = d'.
Proof.
  destruct d as [kb r c], d' as [kb' r' c']. intros [<- Hwf Hm Hc] [Hkb Hwf' Hm' Hc'].
  cbn [dict_key_bits root root_cell] in *. subst kb'.
  assert (r = r') as <-.
  { destruct r as [a|], r' as [b|]; cbn [contents_opt from_option node_opt_wf] in *; [| | |done].
    - f_equal. eapply contents_inj; [done|done|congruence].
    - destruct (contents_nonempty a) as [k Hk]. rewrite Hm, <-Hm', lookup_empty in Hk. by destruct Hk.
    - destruct (contents_nonempty b) as [k Hk]. rewrite Hm', <-Hm, lookup_empty in Hk. by destruct Hk. }
  f_equal. destruct r as [a|]; cbn [committed] in *; [|congruence].
  destruct Hc as (x & Hx & ->), Hc' as (y & Hy & ->). congruence.
Qed.

(** C9: a dictionary implements a finite map from bit strings of its key width
    to cells. Whatever sequence of reads, writes and deletions is applied to a
    new dictionary, every answer is the map's, keys of a wrong length are
    refused without effect, nothing aborts, and no node fails to fit its cell.
    The dictionary is canonical: two sequences that leave the same map leave
    the same tree and the same root cell, whatever their order. *)
Theorem dictionary_refines_map width ops :
  (1 ≤ width ≤ 1023 ↔ ∃ d, dictionary_new width = Ok d) ∧
  ∀ d, dictionary_new width = Ok d →
    let '(final, answers) := run_ops dict_op d ops in
    let '(m, map_answers) := run_ops (map_op width) ∅ ops in
    answers = map_answers ∧ contents_opt (root final) = m ∧
    (root_cell final = None ↔ m = ∅) ∧
    ∀ ops', (run_ops (map_op width) ∅ ops').1 = m → (run_ops dict_op d ops').1 = final.
Proof.
  unfold dictionary_new. split.
  { destruct (Z.leb_spec 1 width), (Z.leb_spec width 1023); cbn; split; intros; try lia; eauto;
      by match goal with H : ∃ _, _ |- _ => destruct H end. }
  intros d Hd. assert (1 ≤ width ∧ d = {| dict_key_bits := width; root := None; root_cell := None |}) as [Hw ->].
  { destruct (Z.leb_spec 1 width), (Z.leb_spec width 1023); cbn in Hd; by simplify_eq. }
  assert (represents width {| dict_key_bits := width; root := None; root_cell := None |} ∅) as Hr by by constructor.
  pose proof (run_ops_refines width ops _ _ ltac:(lia) Hr) as [H1 H2].
  destruct (run_ops dict_op _ ops) as [final answers], (run_ops (map_op width) ∅ ops) as [m mas].
  cbn [fst snd] in *. split; [done|]. split; [apply H1|]. split.
  - destruct H1 as [_ Hwf <- Hc]. destruct (root final) as [node|]; cbn [committed] in Hc; [|done].
    destruct Hc as (c & _ & ->). split; [done|]. cbn. intros He. destruct (contents_nonempty node) as [k Hk].
    rewrite He, lookup_empty in Hk. by destruct Hk.
  - intros ops' Hm. destruct (run_ops_refines width ops' _ _ ltac:(lia) Hr) as [H1' _].
    rewrite Hm in H1'. by eapply represents_inj.
Qed.

(** ** Binding *)

Lemma dict_cell_inv data refs c : dict_cell data refs = Ok c → data_bytes c = data ∧ cell_refs c = refs.
Proof. intros (-> & _)%map_err_Ok%new_with_special_Ok. done. Qed.

Lemma packed_inj a b out :
  pack (take (Nat.min (length a) 1000) a) = Ok out → pack (take (Nat.min (length b) 1000) b) = Ok out →
  length a = length b →
  take (Nat.min (length a) 1000) a = take (Nat.min (length a) 1000) b.
Proof.
  intros Ha Hb Hl. rewrite Hl in *. apply (pack_inj _ _ out Ha Hb). rewrite !length_take. lia.
Qed.

Lemma label_tail_wf fuel bits c :
  label_tail fuel bits = Ok c → (length bits < fuel)%nat → Cell_wf c.
Proof.
  intros Hc Hl. destruct fuel as [|fuel]; [lia|].
  destruct (label_tail_Ok fuel bits ltac:(lia)) as (c' & Hc' & Hw). congruence.
Qed.

(** The two reference lists of labels longer than one cell holds *)
Lemma tail_refs fuel (a b : list bool) ra rb rest rest' :
  (length a ≤ fuel)%nat → length a = length b →
  (if (Nat.min (length a) 1000 <? length a)%nat
   then let? tail := label_tail fuel (drop (Nat.min (length a) 1000) a) in Ok (cell_hash tail :: rest)
   else Ok rest) = Ok ra →
  (if (Nat.min (length a) 1000 <? length a)%nat
   then let? tail := label_tail fuel (drop (Nat.min (length a) 1000) b) in Ok (cell_hash tail :: rest')
   else Ok rest') = Ok rb →
  (∀ c, label_tail fuel (drop (Nat.min (length a) 1000) a) = Ok c →
        label_tail fuel (drop (Nat.min (length a) 1000) b) = Ok c →
        drop (Nat.min (length a) 1000) a = drop (Nat.min (length a) 1000) b ∨ sha256_collision) →
  ra = rb →
  rest = rest' ∧ drop (Nat.min (length a) 1000) a = drop (Nat.min (length a) 1000) b ∨ sha256_collision.
Proof.
  intros Hf Hl Ha Hb IH <-. destruct (Nat.ltb_spec (Nat.min (length a) 1000) (length a)).
  - apply rbind_Ok in Ha as (ca & Hca & Ha). apply rbind_Ok in Hb as (cb & Hcb & Hb).
    apply (inj Ok) in Ha, Hb. rewrite <-Ha in Hb. injection Hb as Hh Hrest.
    assert (Cell_wf ca) by (apply (label_tail_wf _ _ _ Hca); rewrite length_drop; lia).
    assert (Cell_wf cb) by (apply (label_tail_wf _ _ _ Hcb); rewrite length_drop; lia).
    destruct (cell_hash_binding cb ca) as [->|?]; [done|done|done| |by right].
    destruct (IH ca Hca Hcb) as [Hd|?]; [by left|by right].
  - apply (inj Ok) in Ha, Hb. left. split; [congruence|]. rewrite !drop_ge; [done|lia..].
Qed.

Lemma label_tail_inj fuel : ∀ a b c,
  label_tail fuel a = Ok c → label_tail fuel b = Ok c → length a = length b → (length a < fuel)%nat →
  a = b ∨ sha256_collision.
Proof.
  induction fuel as [|fuel IH]; intros a b c Ha Hb Hl Hf; [lia|]. cbn [label_tail] in Ha, Hb.
  rewrite <-Hl in Hb. apply rbind_Ok in Ha as (ra & Hra & Ha). apply rbind_Ok in Ha as (pa & Hpa & Ha).
  apply rbind_Ok in Hb as (rb & Hrb & Hb). apply rbind_Ok in Hb as (pb & Hpb & Hb).
  apply dict_cell_inv in Ha as [Ha1 Ha2]. apply dict_cell_inv in Hb as [Hb1 Hb2].
  assert (pa = pb) as <- by (rewrite Ha1 in Hb1; by injection Hb1). rewrite Ha2 in Hb2.
  destruct (tail_refs fuel a b ra rb [] [] ltac:(lia) Hl Hra Hrb) as [[_ Hd]|?]; [|done| |by right].
  - intros x Hx Hy. destruct (Nat.eq_dec (length a) (Nat.min (length a) 1000)) as [He|].
    { left. rewrite !drop_ge; [done|lia..]. }
    apply (IH _ _ x Hx Hy); rewrite !length_drop; lia.
  - left. rewrite <-(take_drop (Nat.min (length a) 1000) a), <-(take_drop (Nat.min (length a) 1000) b), Hd.
    f_equal. apply (packed_inj _ _ pa); [done| |done]. by rewrite <-Hl.
Qed.

Lemma node_cell_inj tag tag' a b refs refs' c :
  node_cell tag a refs = Ok c → node_cell tag' b refs' = Ok c →
  (length a ≤ 1023)%nat → (length b ≤ 1023)%nat →
  byte_of tag = byte_of tag' ∧ (a = b ∧ refs = refs' ∨ sha256_collision).
Proof.
  intros Ha Hb Hla Hlb. unfold node_cell in Ha, Hb.
  apply rbind_Ok in Ha as (pa & Hpa & Ha). apply rbind_Ok in Ha as (ra & Hra & Ha).
  apply rbind_Ok in Hb as (pb & Hpb & Hb). apply rbind_Ok in Hb as (rb & Hrb & Hb).
  apply dict_cell_inv in Ha as [Ha1 Ha2]. apply dict_cell_inv in Hb as [Hb1 Hb2].
  rewrite Ha1 in Hb1. apply app_inj_len in Hb1 as [Htag Hb1]; [|done].
  apply app_inj_len in Hb1 as [Hlen Hpack]; [|by rewrite !len_be_bytes]. subst pb.
  rewrite !as_u_id in Hlen by (unfold in_u, len; lia).
  apply be_bytes_inj_u in Hlen; [|unfold in_u, len; lia..].
  assert (length a = length b) as Hl by (unfold len in Hlen; lia).
  split; [by injection Htag|]. rewrite <-Hl in Hrb. rewrite Ha2 in Hb2.
  destruct (Nat.eq_dec (length a) 0%nat) as [H0|H0].
  { left. assert (a = []) as -> by (by destruct a). assert (b = []) as -> by (by destruct b).
    cbn in Hra, Hrb. split; congruence. }
  destruct (tail_refs (length a) a b ra rb refs refs' ltac:(lia) Hl Hra Hrb) as [[Hr Hd]|?]; [|done| |by right].
  - intros x Hx Hy. destruct (Nat.eq_dec (length a) (Nat.min (length a) 1000)) as [He|].
    { left. rewrite !drop_ge; [done|lia..]. }
    apply (label_tail_inj (length a) _ _ x Hx Hy); rewrite !length_drop; lia.
  - left. split; [|done].
    rewrite <-(take_drop (Nat.min (length a) 1000) a), <-(take_drop (Nat.min (length a) 1000) b), Hd.
    f_equal. by apply (packed_inj _ _ pa).
Qed.

Lemma serialize_inj a : ∀ b n c c',
  serialize a = Ok c → serialize b = Ok c' → cell_hash c = cell_hash c' → (n ≤ 1023)%nat →
  node_wf n a → node_wf n b →
  map_Forall (λ _, Cell_wf) (contents a) → map_Forall (λ _, Cell_wf) (contents b) →
  a = b ∨ sha256_collision.
Proof.
  assert (∀ node c, serialize node = Ok c → Cell_wf c) as Hser_wf.
  { intros node c Hc. destruct (serialize_Ok node) as (x & Hx & Hw). congruence. }
  induction a as [s v|p z IHz o IHo]; intros b n c c' Ha Hb Hh Hn Hwa Hwb Hva Hvb;
    destruct (cell_hash_binding c c') as [<-|?]; try (by right); eauto;
    destruct b as [s' v'|p' z' o']; cbn [serialize] in Ha, Hb.
  - cbn in Hwa, Hwb. destruct (node_cell_inj _ _ _ _ _ _ _ Ha Hb) as [_ [[-> Hr]|?]]; [lia|lia| |by right].
    injection Hr as Hr. destruct (cell_hash_binding v v') as [->|?]; [| |done|by left|by right].
    + apply (Hva s'). cbn. apply lookup_singleton_eq.
    + apply (Hvb s'). cbn. apply lookup_singleton_eq.
  - apply rbind_Ok in Hb as (cz & _ & Hb). apply rbind_Ok in Hb as (co & _ & Hb).
    destruct Hwb as (m & -> & _). cbn in Hwa.
    by destruct (node_cell_inj _ _ _ _ _ _ _ Ha Hb) as [Ht _]; [lia|lia|].
  - apply rbind_Ok in Ha as (cz & _ & Ha). apply rbind_Ok in Ha as (co & _ & Ha).
    destruct Hwa as (m & -> & _). cbn in Hwb.
    by destruct (node_cell_inj _ _ _ _ _ _ _ Ha Hb) as [Ht _]; [lia|lia|].
  - apply rbind_Ok in Ha as (cz & Hcz & Ha). apply rbind_Ok in Ha as (co & Hco & Ha).
    apply rbind_Ok in Hb as (cz' & Hcz' & Hb). apply rbind_Ok in Hb as (co' & Hco' & Hb).
    destruct Hwa as (m & -> & Hz & Ho). destruct Hwb as (m' & Hm & Hz' & Ho').
    destruct (node_cell_inj _ _ _ _ _ _ _ Ha Hb) as [_ [[-> Hr]|?]]; [lia|lia| |by right].
    assert (m' = m) as -> by lia. injection Hr as Hrz Hro.
    assert (∀ (b : bool) q z o, map_Forall (λ _, Cell_wf) (contents (NBranch q z o)) →
      map_Forall (λ _, Cell_wf) (contents (if b then o else z))) as Hsub.
    { intros y q zz oo Hall k w Hk. apply (Hall (q ++ y :: k)). by rewrite contents_under. }
    destruct (IHz z' m cz cz') as [->|?]; [done|done|done|lia|done|done| | | |by right];
      [exact (Hsub false _ _ _ Hva)|exact (Hsub false _ _ _ Hvb)|].
    destruct (IHo o' m co co') as [->|?]; [done|done|done|lia|done|done| | |by left|by right];
      [exact (Hsub true _ _ _ Hva)|exact (Hsub true _ _ _ Hvb)].
Qed.

Definition op_wf (op : DictOp) : Prop := match op with OpSet _ v => Cell_wf v | _ => True end.

Lemma map_ops_wf width ops : ∀ m,
  Forall op_wf ops → map_Forall (λ _, Cell_wf) m →
  map_Forall (λ _, Cell_wf) (run_ops (map_op width) m ops).1.
Proof.
  induction ops as [|op ops IH]; intros m Hops Hm; [done|]. apply Forall_cons in Hops as [Hop Hops].
  cbn [run_ops]. assert (map_Forall (λ _, Cell_wf) (map_op width m op).1) as Hm'.
  { unfold map_op. case_decide; [|done]. destruct op; cbn [fst]; [done| |].
    - by apply map_Forall_insert_2.
    - by apply map_Forall_delete. }
  destruct (map_op width m op) as [m' r]. cbn [fst] in Hm'. specialize (IH m' Hops Hm').
  by destruct (run_ops (map_op width) m' ops).
Qed.

Lemma new_represents width d : dictionary_new width = Ok d → 1 ≤ width ≤ 1023 ∧ represents width d ∅.
Proof.
  unfold dictionary_new. intros Hd.
  destruct (Z.leb_spec 1 width), (Z.leb_spec width 1023); cbn in Hd; simplify_eq.
  split; [done|]. by constructor.
Qed.

(** The root cell commits to the dictionary. Two dictionaries of one width,
    reached from a new one by any operations that store well-formed cells, whose
    root cells have the same hash are the same, tree and contents, unless SHA-256
    collides. This includes labels of more than 1000 bits, whose rest is kept in
    further cells. *)
Theorem dictionary_commits width d ops ops' c c' :
  dictionary_new width = Ok d → Forall op_wf ops → Forall op_wf ops' →
  let final := (run_ops dict_op d ops).1 in
  let final' := (run_ops dict_op d ops').1 in
  root_cell final = Some c → root_cell final' = Some c' → cell_hash c = cell_hash c' →
  final = final' ∨ sha256_collision.
Proof.
  intros Hd Hops Hops' final final' Hc Hc' Hh. subst final final'.
  apply new_represents in Hd as [Hw Hr].
  destruct (run_ops_refines width ops _ _ ltac:(lia) Hr) as [H1 _].
  destruct (run_ops_refines width ops' _ _ ltac:(lia) Hr) as [H2 _].
  pose proof (map_ops_wf width ops ∅ Hops (map_Forall_empty _)) as V1.
  pose proof (map_ops_wf width ops' ∅ Hops' (map_Forall_empty _)) as V2.
  pose proof (rep_cell _ _ _ H1) as C1. pose proof (rep_cell _ _ _ H2) as C2. rewrite Hc in C1. rewrite Hc' in C2.
  pose proof (rep_map _ _ _ H1) as M1. pose proof (rep_map _ _ _ H2) as M2.
  pose proof (rep_wf _ _ _ H1) as W1. pose proof (rep_wf _ _ _ H2) as W2.
  destruct (root (run_ops dict_op d ops).1) as [a|] eqn:Ha; [|done].
  destruct (root (run_ops dict_op d ops').1) as [b|] eqn:Hb; [|done].
  cbn [committed contents_opt from_option node_opt_wf] in *.
  destruct C1 as (x & Hx & [= ->]), C2 as (y & Hy & [= ->]). rewrite <-M1 in V1. rewrite <-M2 in V2.
  destruct (serialize_inj a b (Z.to_nat width) x y) as [->|?]; [done|done|done|lia|done|done|done|done| |by right].
  left. rewrite M2 in M1. rewrite M1 in H2. by eapply represents_inj.
Qed.
End dictionary_proofs.

(** ** Concrete dictionaries *)

Definition sample_value : Cell := {| data_bytes := [byte_of 7]; cell_refs := []; is_special := false |}.

Lemma sample_value_wf : Cell_wf sample_value.
Proof. split_and!; [done|done|constructor]. Qed.

Definition sample_ops : list DictOp :=
  [OpSet [byte_of 5] sample_value; OpSet [byte_of 133] sample_value; OpGet [byte_of 5];
   OpDelete [byte_of 5]; OpGet [byte_of 5]; OpGet []].

Lemma dictionary_refines_map_witness :
  ∃ d, dictionary_new 8 = Ok d ∧
    (run_ops (dict_op (C:=toy_crypto)) d sample_ops).2
    = [Ok None; Ok None; Ok (Some sample_value); Ok (Some sample_value); Ok None; Err InvalidKey].
Proof.
  destruct (dictionary_refines_map (C:=toy_crypto) 8 sample_ops) as [[Hd _] H].
  destruct (Hd ltac:(lia)) as [d Hnew]. exists d. split; [exact Hnew|]. specialize (H d Hnew).
  destruct (run_ops (dict_op (C:=toy_crypto)) d sample_ops) as [final answers].
  destruct (run_ops (map_op 8) ∅ sample_ops) as [m answers'] eqn:Hm.
  destruct H as [H _]. rewrite H. vm_compute in Hm. injection Hm as _ <-. reflexivity.
Defined.

Lemma dictionary_commits_witness :
  ∃ d c, dictionary_new 8 = Ok d ∧
    root_cell (run_ops (dict_op (C:=toy_crypto)) d [OpSet [byte_of 5] sample_value]).1 = Some c ∧
    ((run_ops (dict_op (C:=toy_crypto)) d [OpSet [byte_of 5] sample_value]).1
     = (run_ops (dict_op (C:=toy_crypto)) d [OpSet [byte_of 4] sample_value; OpSet [byte_of 5] sample_value;
                                             OpDelete [byte_of 4]]).1
     ∨ sha256_collision (H:=toy_crypto)).
Proof.
  eexists {| dict_key_bits := 8; root := None; root_cell := None |}, _. split; [reflexivity|].
  split; [vm_compute; reflexivity|].
  eapply (dictionary_commits (C:=toy_crypto) 8).
  - reflexivity.
  - constructor; [exact sample_value_wf|constructor].
  - constructor; [exact sample_value_wf|constructor; [exact sample_value_wf|constructor; [exact I|constructor]]].
  - vm_compute; reflexivity.
  - vm_compute; reflexivity.
  - reflexivity.
Defined.
