(* ===== verification/Channels.v ===== *)
(** [onx-payment-channels], [lib.rs] and [daemon.rs]: the on-chain arbiter of a
    payment channel and the off-chain daemon in front of it. *)
From S2P Require Import Prelude Bytes Machine Primitives ToyCrypto Address Message Cell Values Vm VmSafety.

Inductive ChannelError : Type :=
  | InvalidSignature | NonIncreasingSequence | AllocationExceedsDeposit | ExpiredCondition
  | MismatchedChannelId | InvalidProof | ChallengePeriodActive | ChallengePeriodExpired.

#[export] Instance ChannelError_eq_dec : EqDecision ChannelError.
Proof. solve_decision. Defined.

Definition ONX_CHANNEL_STATE_V1 : bytes := from_ascii "ONX_CHANNEL_STATE_V1".

Record ChannelState : Type := {
  channel_id : bytes;
  sequence : Z;
  balance_party_a : Z;
  balance_party_b : Z;
  condition_hash : option bytes;
  expiry_lt : option Z;
}.

#[export] Instance ChannelState_eq_dec : EqDecision ChannelState.
Proof. solve_decision. Defined.

Definition ChannelState_to_bytes (s : ChannelState) : bytes :=
  channel_id s ++ int_encode Uint64 (sequence s) ++ int_encode Uint128 (balance_party_a s)
  ++ int_encode Uint128 (balance_party_b s)
  ++ (match condition_hash s with Some ch => [byte_of 1] ++ ch | None => [byte_of 0] end)
  ++ (match expiry_lt s with Some lt => [byte_of 1] ++ int_encode Uint64 lt | None => [byte_of 0] end).

Section channels.
Context {C : Crypto}.

Definition channel_hash (s : ChannelState) : bytes :=
  domain_hash ONX_CHANNEL_STATE_V1 (ChannelState_to_bytes s).

Record PaymentChannelArbiter : Type := {
  arbiter_id : bytes;
  party_a : FullAddress;
  party_b : FullAddress;
  pubkey_a : VerifyingKey;
  pubkey_b : VerifyingKey;
  total_deposit : Z;
  challenge_window_lt : Z;
  latest_state : ChannelState;
  challenge_start_lt : option Z;
  is_settled : bool;
}.

Definition arbiter_new (id : bytes) (a b : FullAddress) (ka kb : VerifyingKey) (deposit window : Z) :
    PaymentChannelArbiter :=
  {| arbiter_id := id; party_a := a; party_b := b; pubkey_a := ka; pubkey_b := kb;
     total_deposit := deposit; challenge_window_lt := window;
     latest_state := {| channel_id := id; sequence := 0; balance_party_a := deposit;
                        balance_party_b := 0; condition_hash := None; expiry_lt := None |};
     challenge_start_lt := None; is_settled := false |}.

(** Assignments to the three mutable fields *)
Definition with_progress (s : ChannelState) (start : option Z) (settled : bool)
    (a : PaymentChannelArbiter) : PaymentChannelArbiter :=
  {| arbiter_id := arbiter_id a; party_a := party_a a; party_b := party_b a; pubkey_a := pubkey_a a;
     pubkey_b := pubkey_b a; total_deposit := total_deposit a;
     challenge_window_lt := challenge_window_lt a; latest_state := s;
     challenge_start_lt := start; is_settled := settled |}.

Definition verify_dual_signatures (a : PaymentChannelArbiter) (s : ChannelState) (sig_a sig_b : bytes) :
    result ChannelError unit :=
  let state_hash := channel_hash s in
  if is_err (PublicKey_verify (pubkey_a a) TX_BODY_V1 state_hash sig_a) then Err InvalidSignature
  else if is_err (PublicKey_verify (pubkey_b a) TX_BODY_V1 state_hash sig_b) then Err InvalidSignature
  else Ok tt.

Definition over_allocated (a : PaymentChannelArbiter) (s : ChannelState) : bool :=
  total_deposit a <? saturating_add_u 128 (balance_party_a s) (balance_party_b s).

Definition cooperative_settle (a : PaymentChannelArbiter) (s : ChannelState) (sig_a sig_b : bytes) :
    result ChannelError PaymentChannelArbiter :=
  if negb (bool_decide (channel_id s = arbiter_id a)) then Err MismatchedChannelId
  else if over_allocated a s then Err AllocationExceedsDeposit
  else
    let? _ := verify_dual_signatures a s sig_a sig_b in
    Ok (with_progress s (challenge_start_lt a) true a).

Definition submit_uncooperative_state (a : PaymentChannelArbiter) (s : ChannelState)
    (sig_a sig_b : bytes) (current_lt : Z) : result ChannelError PaymentChannelArbiter :=
  if negb (bool_decide (channel_id s = arbiter_id a)) then Err MismatchedChannelId
  else if sequence s <=? sequence (latest_state a) then Err NonIncreasingSequence
  else if over_allocated a s then Err AllocationExceedsDeposit
  else
    let? _ := verify_dual_signatures a s sig_a sig_b in
    Ok (with_progress s (Some current_lt) (is_settled a) a).

Definition finalize_uncooperative_settlement (a : PaymentChannelArbiter) (current_lt : Z) :
    result ChannelError PaymentChannelArbiter :=
  let? start_lt := ok_or (challenge_start_lt a) ChallengePeriodActive in
  if current_lt <? saturating_add_u 64 start_lt (challenge_window_lt a) then Err ChallengePeriodActive
  else Ok (with_progress (latest_state a) (challenge_start_lt a) true a).

(** The machine that checks a proof cell: CTOS, then RET *)
Definition proof_machine (proof_cell : Cell) : Interpreter :=
  with_stack [CellV proof_cell]
    (interpreter_new {| data_bytes := byte_of <$> [0x45; 0x72]; cell_refs := []; is_special := false |}
       {| data_bytes := []; cell_refs := []; is_special := false |}
       {| msg_type := Internal;
          src_address := {| addr_workchain := 0; addr_account := be_bytes 32 0 |};
          dest_address := {| addr_workchain := 0; addr_account := be_bytes 32 0 |};
          amount_nanos := 0; extra_currencies := []; created_lt := 0; body_cell_hash := be_bytes 32 0 |}
       {| gen_utime := 0; start_lt := 0; end_lt := 100; gas_limit_ctx := 1000 |}).

(** With the fuel that suffices for the gas limit *)
Definition verify_merkle_proof (proof_cell : Cell) : result ChannelError unit :=
  match run 1001 (proof_machine proof_cell) with
  | Some (_, Returned (Success _ _ _)) => Ok tt
  | Some (_, Returned (Exception _ _)) => Err InvalidProof
  | Some (_, Aborted) | None => Panic
  end.

(** ** The daemon *)

Record SignedStateEnvelope : Type := { env_state : ChannelState; env_sig_a : bytes; env_sig_b : bytes }.

Record PaymentChannelDaemon : Type := {
  arbiter : PaymentChannelArbiter;
  latest_by_channel : gmap bytes ChannelState;
}.

Definition daemon_new (a : PaymentChannelArbiter) : PaymentChannelDaemon :=
  {| arbiter := a; latest_by_channel := {[ arbiter_id a := latest_state a ]} |}.

Definition daemon_latest (d : PaymentChannelDaemon) : ChannelState :=
  default (latest_state (arbiter d)) (latest_by_channel d !! arbiter_id (arbiter d)).

(** The arbiter moved on; its latest state is recorded. *)
Definition track (d : PaymentChannelDaemon) (a : PaymentChannelArbiter) : PaymentChannelDaemon :=
  {| arbiter := a; latest_by_channel := <[ arbiter_id a := latest_state a ]> (latest_by_channel d) |}.

Definition exchange_signed_state (d : PaymentChannelDaemon) (e : SignedStateEnvelope) :
    result ChannelError PaymentChannelDaemon :=
  let s := env_state e in
  if negb (bool_decide (channel_id s = arbiter_id (arbiter d))) then Err MismatchedChannelId
  else
    let? _ := verify_dual_signatures (arbiter d) s (env_sig_a e) (env_sig_b e) in
    if sequence s <=? sequence (daemon_latest d) then Err NonIncreasingSequence
    else if over_allocated (arbiter d) s then Err AllocationExceedsDeposit
    else Ok (track d (with_progress s (challenge_start_lt (arbiter d)) (is_settled (arbiter d)) (arbiter d))).

Definition exchange_cooperative_settlement (d : PaymentChannelDaemon) (e : SignedStateEnvelope) :
    result ChannelError PaymentChannelDaemon :=
  let? a := cooperative_settle (arbiter d) (env_state e) (env_sig_a e) (env_sig_b e) in
  Ok (track d a).

Definition receive_signed_state_and_track (d : PaymentChannelDaemon) (e : SignedStateEnvelope) :
    result ChannelError PaymentChannelDaemon := exchange_signed_state d e.

Definition is_stale_submission (d : PaymentChannelDaemon) (s : ChannelState) : bool :=
  let latest := daemon_latest d in
  (sequence latest <? sequence s) &&
  (negb (balance_party_a s =? balance_party_a latest) || negb (balance_party_b s =? balance_party_b latest)).

Definition submit_uncooperative_dispute (d : PaymentChannelDaemon) (e : SignedStateEnvelope) (current_lt : Z) :
    result ChannelError PaymentChannelDaemon :=
  let? a := submit_uncooperative_state (arbiter d) (env_state e) (env_sig_a e) (env_sig_b e) current_lt in
  Ok (track d a).

Definition finalize_dispute_if_due (d : PaymentChannelDaemon) (current_lt : Z) :
    result ChannelError PaymentChannelDaemon :=
  match challenge_start_lt (arbiter d) with
  | Some _ =>
      let? a := finalize_uncooperative_settlement (arbiter d) current_lt in
      Ok {| arbiter := a; latest_by_channel := latest_by_channel d |}
  | None => Ok d
  end.

Definition run_flow (d : PaymentChannelDaemon) (e : SignedStateEnvelope) (current_lt : Z) :
    result ChannelError PaymentChannelDaemon :=
  if is_stale_submission d (env_state e) then
    let? d := submit_uncooperative_dispute d e current_lt in
    let? due_lt := add_u 64 current_lt (challenge_window_lt (arbiter d)) in
    finalize_dispute_if_due d due_lt
  else exchange_signed_state d e.

(** One tick of the background watcher, which ignores the result. The watcher
    works on a clone of the daemon, taken when it is spawned. *)
Definition watcher_tick (watched : PaymentChannelDaemon) (observed_lt : Z) : PaymentChannelDaemon :=
  match finalize_dispute_if_due watched observed_lt with Ok d => d | _ => watched end.

(** The clone of the watcher spawned from [d], after ticks at these times *)
Definition spawn_background_challenge_watcher (d : PaymentChannelDaemon) (lts : list Z) : PaymentChannelDaemon :=
  foldl watcher_tick d lts.

(** A daemon with the clones that its watchers hold *)
Record WatchedDaemon : Type := { watched : PaymentChannelDaemon; clones : list PaymentChannelDaemon }.
End channels.

(** ** Histories of a channel *)

Section channel_proofs.
Context {C : Crypto}.

Inductive ChannelOp : Type :=
  | Exchange (e : SignedStateEnvelope)
  | Cooperative (e : SignedStateEnvelope)
  | Dispute (e : SignedStateEnvelope) (current_lt : Z)
  | Finalize (current_lt : Z)
  | Flow (e : SignedStateEnvelope) (current_lt : Z).

Definition channel_step (d : PaymentChannelDaemon) (op : ChannelOp) :
    result ChannelError PaymentChannelDaemon :=
  match op with
  | Exchange e => exchange_signed_state d e
  | Cooperative e => exchange_cooperative_settlement d e
  | Dispute e lt => submit_uncooperative_dispute d e lt
  | Finalize lt => finalize_dispute_if_due d lt
  | Flow e lt => run_flow d e lt
  end.

(** The daemons reached from a new one; an operation that fails changes nothing. *)
Inductive reached (a0 : PaymentChannelArbiter) : PaymentChannelDaemon → Prop :=
  | reached_new : reached a0 (daemon_new a0)
  | reached_step d op d' : reached a0 d → channel_step d op = Ok d' → reached a0 d'.

Definition signed_state (a : PaymentChannelArbiter) (s : ChannelState) (sig_a sig_b : bytes) : Prop :=
  PublicKey_verify (pubkey_a a) TX_BODY_V1 (channel_hash s) sig_a = Ok tt ∧
  PublicKey_verify (pubkey_b a) TX_BODY_V1 (channel_hash s) sig_b = Ok tt.

Lemma verify_dual_signatures_Ok a s sa sb u :
  verify_dual_signatures a s sa sb = Ok u ↔ signed_state a s sa sb.
Proof.
  unfold verify_dual_signatures, signed_state, PublicKey_verify. destruct u.
  destruct (verify_strict (pubkey_a a) _ sa), (verify_strict (pubkey_b a) _ sb); cbn [is_err]; naive_solver.
Qed.

(** What every accepted state satisfies *)
Record acceptable (a0 : PaymentChannelArbiter) (s : ChannelState) : Prop := {
  acc_id : channel_id s = arbiter_id a0;
  acc_allocation : over_allocated a0 s = false;
  acc_signed : s = latest_state a0 ∨ ∃ sa sb, signed_state a0 s sa sb;
}.

(** [a] is [a0] with other values of the mutable fields. *)
Definition same_channel (a0 a : PaymentChannelArbiter) : Prop :=
  a = with_progress (latest_state a) (challenge_start_lt a) (is_settled a) a0.

Record channel_inv (a0 : PaymentChannelArbiter) (d : PaymentChannelDaemon) : Prop := {
  inv_same : same_channel a0 (arbiter d);
  inv_latest : latest_by_channel d !! arbiter_id a0 = Some (latest_state (arbiter d));
  inv_acceptable : acceptable a0 (latest_state (arbiter d));
}.

Lemma same_channel_id a0 a : same_channel a0 a → arbiter_id a = arbiter_id a0.
Proof. by intros ->. Qed.

Lemma same_channel_window a0 a : same_channel a0 a → challenge_window_lt a = challenge_window_lt a0.
Proof. by intros ->. Qed.

Lemma daemon_latest_inv a0 d : channel_inv a0 d → daemon_latest d = latest_state (arbiter d).
Proof. intros [Hs Hl _]. unfold daemon_latest. rewrite (same_channel_id _ _ Hs). by rewrite Hl. Qed.

Lemma over_allocated_same a0 a s : same_channel a0 a → over_allocated a s = over_allocated a0 s.
Proof. by intros ->. Qed.

Lemma signed_state_same a0 a s sa sb : same_channel a0 a → signed_state a s sa sb ↔ signed_state a0 s sa sb.
Proof. by intros ->. Qed.

Lemma track_inv a0 d a :
  channel_inv a0 d → same_channel a0 a → acceptable a0 (latest_state a) → channel_inv a0 (track d a).
Proof.
  intros [Hs Hl Ha] Hsame Hacc. constructor; cbn; [done| |done].
  rewrite (same_channel_id _ _ Hsame). apply lookup_insert_eq.
Qed.

Lemma exchange_Ok a0 d e d' :
  channel_inv a0 d → exchange_signed_state d e = Ok d' ↔
  channel_id (env_state e) = arbiter_id a0 ∧ signed_state a0 (env_state e) (env_sig_a e) (env_sig_b e) ∧
  sequence (latest_state (arbiter d)) < sequence (env_state e) ∧ over_allocated a0 (env_state e) = false ∧
  d' = track d (with_progress (env_state e) (challenge_start_lt (arbiter d)) (is_settled (arbiter d)) (arbiter d)).
Proof.
  intros Hi. pose proof (inv_same _ _ Hi) as Hs. unfold exchange_signed_state.
  rewrite (daemon_latest_inv _ _ Hi), (same_channel_id _ _ Hs), (over_allocated_same _ _ _ Hs).
  rewrite <-(signed_state_same _ _ _ _ _ Hs). case_bool_decide as Hid; cbn [negb]; [|naive_solver].
  rewrite rbind_Ok. setoid_rewrite verify_dual_signatures_Ok.
  destruct (Z.leb_spec (sequence (env_state e)) (sequence (latest_state (arbiter d)))); [naive_solver lia|].
  destruct (over_allocated a0 (env_state e)); [naive_solver|]. split; [intros (_ & ? & [= <-])|]; naive_solver.
Qed.

Lemma cooperative_Ok a0 d e d' :
  channel_inv a0 d → exchange_cooperative_settlement d e = Ok d' ↔
  channel_id (env_state e) = arbiter_id a0 ∧ signed_state a0 (env_state e) (env_sig_a e) (env_sig_b e) ∧
  over_allocated a0 (env_state e) = false ∧
  d' = track d (with_progress (env_state e) (challenge_start_lt (arbiter d)) true (arbiter d)).
Proof.
  intros Hi. pose proof (inv_same _ _ Hi) as Hs. unfold exchange_cooperative_settlement, cooperative_settle.
  rewrite (same_channel_id _ _ Hs), (over_allocated_same _ _ _ Hs), <-(signed_state_same _ _ _ _ _ Hs), rbind_Ok.
  case_bool_decide as Hid; cbn [negb]; [|naive_solver].
  destruct (over_allocated a0 (env_state e)); [naive_solver|]. setoid_rewrite rbind_Ok.
  setoid_rewrite verify_dual_signatures_Ok. split; [intros (a & (_ & ? & [= <-]) & [= <-])|]; naive_solver.
Qed.

Lemma dispute_Ok a0 d e lt d' :
  channel_inv a0 d → submit_uncooperative_dispute d e lt = Ok d' ↔
  channel_id (env_state e) = arbiter_id a0 ∧ signed_state a0 (env_state e) (env_sig_a e) (env_sig_b e) ∧
  sequence (latest_state (arbiter d)) < sequence (env_state e) ∧ over_allocated a0 (env_state e) = false ∧
  d' = track d (with_progress (env_state e) (Some lt) (is_settled (arbiter d)) (arbiter d)).
Proof.
  intros Hi. pose proof (inv_same _ _ Hi) as Hs. unfold submit_uncooperative_dispute, submit_uncooperative_state.
  rewrite (same_channel_id _ _ Hs), (over_allocated_same _ _ _ Hs), <-(signed_state_same _ _ _ _ _ Hs), rbind_Ok.
  case_bool_decide as Hid; cbn [negb]; [|naive_solver].
  destruct (Z.leb_spec (sequence (env_state e)) (sequence (latest_state (arbiter d)))); [naive_solver lia|].
  destruct (over_allocated a0 (env_state e)); [naive_solver|]. setoid_rewrite rbind_Ok.
  setoid_rewrite verify_dual_signatures_Ok. split; [intros (a & (_ & ? & [= <-]) & [= <-])|]; naive_solver.
Qed.

Lemma finalize_Ok d lt d' :
  finalize_dispute_if_due d lt = Ok d' ↔
  match challenge_start_lt (arbiter d) with
  | Some start =>
      Z.min (start + challenge_window_lt (arbiter d)) (2 ^ 64 - 1) ≤ lt ∧
      d' = {| arbiter := with_progress (latest_state (arbiter d)) (Some start) true (arbiter d);
              latest_by_channel := latest_by_channel d |}
  | None => d' = d
  end.
Proof.
  unfold finalize_dispute_if_due, finalize_uncooperative_settlement, saturating_add_u.
  destruct (challenge_start_lt (arbiter d)) as [start|]; [|split; congruence]. cbn [ok_or]. rewrite rbind_ret.
  destruct (Z.ltb_spec lt (Z.min (start + challenge_window_lt (arbiter d)) (2 ^ 64 - 1))); cbn [rbind].
  - split; [done|]. lia.
  - split; [intros [= <-]; split; [lia|done]|]. by intros [_ ->].
Qed.

Lemma flow_Ok a0 d e lt d' :
  channel_inv a0 d → run_flow d e lt = Ok d' →
  if is_stale_submission d (env_state e) then
    ∃ d1, submit_uncooperative_dispute d e lt = Ok d1 ∧ finalize_dispute_if_due d1 (lt + challenge_window_lt a0) = Ok d'
  else exchange_signed_state d e = Ok d'.
Proof.
  intros Hi. unfold run_flow. destruct (is_stale_submission d (env_state e)); [|done].
  intros (d1 & H1 & (due & Hdue & H2)%rbind_Ok)%rbind_Ok. exists d1. split; [done|].
  apply (dispute_Ok a0) in H1 as (_ & _ & _ & _ & ->); [|done].
  unfold add_u in Hdue. destruct (checked_add_u 64 _ _) as [x|] eqn:Hx; [|done]. injection Hdue as ->.
  apply checked_add_u_Some in Hx as [-> _]. rewrite <-(same_channel_window _ _ (inv_same _ _ Hi)). exact H2.
Qed.

Lemma with_progress_same a0 a s st b : same_channel a0 a → same_channel a0 (with_progress s st b a).
Proof. by intros ->. Qed.

Lemma accepted a0 e :
  channel_id (env_state e) = arbiter_id a0 → signed_state a0 (env_state e) (env_sig_a e) (env_sig_b e) →
  over_allocated a0 (env_state e) = false → acceptable a0 (env_state e).
Proof. intros. constructor; [done|done|]. right. by eexists _, _. Qed.

Lemma channel_step_inv a0 d op d' : channel_inv a0 d → channel_step d op = Ok d' → channel_inv a0 d'.
Proof.
  assert (∀ d e st b, channel_inv a0 d → acceptable a0 (env_state e) →
    channel_inv a0 (track d (with_progress (env_state e) st b (arbiter d)))) as Htrack.
  { intros x e st b Hi Ha. apply track_inv; [done|apply with_progress_same, Hi|done]. }
  assert (∀ d lt d', channel_inv a0 d → finalize_dispute_if_due d lt = Ok d' → channel_inv a0 d') as Hfin.
  { intros x lt x' Hi Hf. apply finalize_Ok in Hf. destruct (challenge_start_lt (arbiter x)); [|by subst].
    destruct Hf as [_ ->]. destruct Hi as [Hs Hl Ha]. constructor; cbn; [by apply with_progress_same|done|done]. }
  intros Hi. destruct op as [e|e|e lt|lt|e lt]; cbn [channel_step]; intros H.
  - apply (exchange_Ok a0) in H as (? & ? & _ & ? & ->); [|done]. by apply Htrack, accepted.
  - apply (cooperative_Ok a0) in H as (? & ? & ? & ->); [|done]. by apply Htrack, accepted.
  - apply (dispute_Ok a0) in H as (? & ? & _ & ? & ->); [|done]. by apply Htrack, accepted.
  - by eapply Hfin.
  - apply (flow_Ok a0) in H; [|done]. destruct (is_stale_submission d (env_state e)).
    + destruct H as (d1 & H1 & H2). eapply Hfin; [|exact H2].
      apply (dispute_Ok a0) in H1 as (? & ? & _ & ? & ->); [|done]. by apply Htrack, accepted.
    + apply (exchange_Ok a0) in H as (? & ? & _ & ? & ->); [|done]. by apply Htrack, accepted.
Qed.

Lemma reached_inv id pa pb ka kb deposit window d :
  reached (arbiter_new id pa pb ka kb deposit window) d →
  channel_inv (arbiter_new id pa pb ka kb deposit window) d.
Proof.
  induction 1 as [|d op d' _ IH Hstep]; [|by eapply channel_step_inv].
  constructor; [done|exact (lookup_singleton_eq _ _)|]. constructor; [done| |by left].
  unfold over_allocated, saturating_add_u. cbn. apply Z.ltb_ge. lia.
Qed.

(** C29: a payment channel. Whatever operations its daemon accepted, the latest
    state carries the channel's identifier, allocates no more than the deposit
    (a deposit of [2^128 - 1] apart, where the saturated sum is compared), is
    the one the daemon reports, and is the initial state or one that both
    parties signed. A step keeps it, or replaces it by one of a higher sequence
    number, or settles cooperatively; the channel becomes settled by a
    cooperative settlement, by the end of the challenge window, or by the
    one-call flow, which takes a state that changes the balances, opens the
    dispute and closes it in the same call. A cooperative settlement is accepted
    whenever identifier, allocation and both signatures are right: neither a
    lower sequence number nor an earlier settlement prevents it. A dispute also
    needs a higher sequence number, and may come after the settlement too. *)
Theorem channel_history id pa pb ka kb deposit window d :
  reached (arbiter_new id pa pb ka kb deposit window) d →
  let s := latest_state (arbiter d) in
  let valid e := channel_id (env_state e) = id ∧
    PublicKey_verify ka TX_BODY_V1 (channel_hash (env_state e)) (env_sig_a e) = Ok tt ∧
    PublicKey_verify kb TX_BODY_V1 (channel_hash (env_state e)) (env_sig_b e) = Ok tt ∧
    Z.min (balance_party_a (env_state e) + balance_party_b (env_state e)) (2 ^ 128 - 1) ≤ deposit in
  (channel_id s = id ∧ daemon_latest d = s ∧
   (deposit < 2 ^ 128 - 1 → balance_party_a s + balance_party_b s ≤ deposit) ∧
   (s = latest_state (arbiter_new id pa pb ka kb deposit window) ∨
    ∃ sig_a sig_b, PublicKey_verify ka TX_BODY_V1 (channel_hash s) sig_a = Ok tt ∧
                   PublicKey_verify kb TX_BODY_V1 (channel_hash s) sig_b = Ok tt)) ∧
  (∀ op d', channel_step d op = Ok d' →
    let s' := latest_state (arbiter d') in
    (s' = s ∨ sequence s < sequence s' ∨ ∃ e, op = Cooperative e ∧ s' = env_state e) ∧
    (is_settled (arbiter d') = true → is_settled (arbiter d) = true ∨
      match op with
      | Cooperative _ => True
      | Finalize lt => ∃ start, challenge_start_lt (arbiter d) = Some start ∧
                                Z.min (start + window) (2 ^ 64 - 1) ≤ lt
      | Flow e _ => is_stale_submission d (env_state e) = true
      | _ => False
      end) ∧
    (∀ e lt, op = Flow e lt → is_stale_submission d (env_state e) = true →
      is_settled (arbiter d') = true ∧ s' = env_state e)) ∧
  (∀ e, (∃ d', channel_step d (Cooperative e) = Ok d') ↔ valid e) ∧
  (∀ e lt, (∃ d', channel_step d (Dispute e lt) = Ok d') ↔ valid e ∧ sequence s < sequence (env_state e)).
Proof.
  intros Hreach s valid. apply reached_inv in Hreach as Hi.
  set (a0 := arbiter_new id pa pb ka kb deposit window) in *.
  assert (∀ x, over_allocated a0 x = false ↔
    Z.min (balance_party_a x + balance_party_b x) (2 ^ 128 - 1) ≤ deposit) as Hover by (intros; apply Z.ltb_ge).
  pose proof (inv_same _ _ Hi) as Hsame. split; [|split; [|split]].
  - destruct (inv_acceptable _ _ Hi) as [Hid Hal Hsig]. split; [done|]. split; [by eapply daemon_latest_inv|].
    split; [|done]. intros Hd. apply Hover in Hal. fold s in Hal. lia.
  - intros op d' Hstep s'. destruct op as [e|e|e lt|lt|e lt]; cbn [channel_step] in Hstep.
    + apply (exchange_Ok a0) in Hstep as (_ & _ & Hseq & _ & ->); [|done]. cbn in *. split_and!; [by right; left|by left|done].
    + apply (cooperative_Ok a0) in Hstep as (_ & _ & _ & ->); [|done]. split_and!; [right; right; eauto|by right|done].
    + apply (dispute_Ok a0) in Hstep as (_ & _ & Hseq & _ & ->); [|done]. cbn in *. split_and!; [by right; left|by left|done].
    + apply finalize_Ok in Hstep. destruct (challenge_start_lt (arbiter d)) as [start|] eqn:Hst; [|subst d'; split_and!; [by left|by left|done]].
      destruct Hstep as [Hdue ->]. split_and!; [by left| |done]. intros _. right. exists start.
      by rewrite (same_channel_window _ _ Hsame) in Hdue.
    + apply (flow_Ok a0) in Hstep; [|done]. destruct (is_stale_submission d (env_state e)) eqn:Hst.
      * destruct Hstep as (d1 & H1 & H2). apply (dispute_Ok a0) in H1 as (_ & _ & Hseq & _ & ->); [|done].
        apply finalize_Ok in H2. cbn in H2. destruct H2 as [_ ->]. cbn in *.
        split_and!; [by right; left|by right|]. by intros ? ? [= <- <-].
      * apply (exchange_Ok a0) in Hstep as (_ & _ & Hseq & _ & ->); [|done]. cbn in *.
        split_and!; [by right; left|by left|]. intros ? ? [= <- <-]. congruence.
  - intros e. cbn [channel_step]. unfold valid. setoid_rewrite (cooperative_Ok a0); [|done].
    setoid_rewrite Hover. unfold signed_state. cbn. naive_solver.
  - intros e lt. cbn [channel_step]. unfold valid. setoid_rewrite (dispute_Ok a0); [|done].
    setoid_rewrite Hover. unfold signed_state. cbn. naive_solver.
Qed.

(** ** Watchers *)

Inductive WatchedOp : Type :=
  | Operate (op : ChannelOp)
  | Spawn
  | Tick (watcher : nat) (observed_lt : Z).

Definition watched_step (w : WatchedDaemon) (op : WatchedOp) : result ChannelError WatchedDaemon :=
  match op with
  | Operate op => let? d := channel_step (watched w) op in Ok {| watched := d; clones := clones w |}
  | Spawn => Ok {| watched := watched w; clones := clones w ++ [watched w] |}
  | Tick i lt => Ok {| watched := watched w; clones := alter (λ d, watcher_tick d lt) i (clones w) |}
  end.

(** What a watcher does to its clone: it settles at the first tick that sees the
    end of the challenge window. *)
Lemma watcher_settles d start lts :
  challenge_start_lt (arbiter d) = Some start →
  spawn_background_challenge_watcher d lts =
  {| arbiter := with_progress (latest_state (arbiter d)) (Some start)
       (is_settled (arbiter d) ||
        existsb (λ lt, Z.min (start + challenge_window_lt (arbiter d)) (2 ^ 64 - 1) <=? lt) lts) (arbiter d);
     latest_by_channel := latest_by_channel d |}.
Proof.
  unfold spawn_background_challenge_watcher. revert d. induction lts as [|lt lts IH]; intros [a m] Hs; cbn in Hs.
  { cbn. rewrite orb_false_r, <-Hs. by destruct a. }
  cbn [foldl existsb arbiter]. unfold watcher_tick at 2. destruct (finalize_dispute_if_due _ lt) as [d'|e|] eqn:Hf.
  - apply finalize_Ok in Hf. cbn in Hf. rewrite Hs in Hf. destruct Hf as [Hdue ->]. rewrite IH by done. cbn.
    rewrite (proj2 (Z.leb_le _ _)) by lia. by rewrite orb_true_r.
  - rewrite IH by done. cbn. replace (_ <=? lt) with false; [done|]. symmetry. apply Z.leb_gt, Z.nle_gt. intros Hdue.
    assert (finalize_dispute_if_due {| arbiter := a; latest_by_channel := m |} lt = Ok
      {| arbiter := with_progress (latest_state a) (Some start) true a; latest_by_channel := m |}) as Hok.
    { apply finalize_Ok. cbn. by rewrite Hs. }
    congruence.
  - exfalso. revert Hf. unfold finalize_dispute_if_due, finalize_uncooperative_settlement. cbn. rewrite Hs. cbn.
    by destruct (lt <? _).
Qed.

(** The daemon itself stays where its own operations took it: a watcher never
    settles it. *)
Lemma watchers_change_nothing a0 w ops w' :
  reached a0 (watched w) → foldM (λ op w, watched_step w op) ops w = Ok w' →
  reached a0 (watched w') ∧
  foldM (λ op d, channel_step d op) (omap (λ op, match op with Operate op => Some op | _ => None end) ops) (watched w)
    = Ok (watched w').
Proof.
  revert w. induction ops as [|op ops IH]; intros w Hr H; cbn [foldM] in H.
  { injection H as <-. by split. }
  apply rbind_Ok in H as (w1 & H1 & H). destruct op as [op| |i lt]; cbn in H1.
  - apply rbind_Ok in H1 as (d & Hd & [= <-]). cbn. rewrite Hd. cbn. apply IH in H; [done|]. by eapply reached_step.
  - injection H1 as <-. by apply IH in H.
  - injection H1 as <-. by apply IH in H.
Qed.

(** A proof cell passes the arbiter's check exactly when it is not special
    (pruned): running CTOS and RET on it in the virtual machine always ends
    within the gas the arbiter grants, and never aborts. *)
Theorem proof_check_special c :
  verify_merkle_proof c = if is_special c then Err InvalidProof else Ok tt.
Proof.
  unfold verify_merkle_proof.
  assert (∃ s, run 1001 (proof_machine c) = Some (s, Returned
    (if is_special c then Exception AbsentNode 10
     else Success {| data_bytes := []; cell_refs := []; is_special := false |} [] 14))) as (s & ->).
  { destruct c as [d r []]; eexists; cbv -[slice_new]; reflexivity. }
  by destruct (is_special c).
Qed.
End channel_proofs.

(** ** A concrete channel *)

Definition sample_envelope : SignedStateEnvelope :=
  let s := {| channel_id := be_bytes 32 9; sequence := 0; balance_party_a := 40; balance_party_b := 50;
              condition_hash := None; expiry_lt := None |} in
  {| env_state := s;
     env_sig_a := SecretKey_sign (C:=toy_crypto) 1 TX_BODY_V1 (channel_hash (C:=toy_crypto) s);
     env_sig_b := SecretKey_sign (C:=toy_crypto) 2 TX_BODY_V1 (channel_hash (C:=toy_crypto) s) |}.

Definition sample_party : FullAddress := {| addr_workchain := 0; addr_account := be_bytes 32 1 |}.

Definition sample_arbiter : PaymentChannelArbiter (C:=toy_crypto) :=
  arbiter_new (C:=toy_crypto) (be_bytes 32 9) sample_party sample_party
    (SecretKey_public_key (C:=toy_crypto) 1) (SecretKey_public_key (C:=toy_crypto) 2) 100 10.

(** A cooperative settlement of the initial sequence number is accepted. *)
Lemma channel_history_witness :
  reached (C:=toy_crypto) sample_arbiter (daemon_new (C:=toy_crypto) sample_arbiter) ∧
  ∃ d', channel_step (C:=toy_crypto) (daemon_new (C:=toy_crypto) sample_arbiter) (Cooperative sample_envelope)
        = Ok d'.
Proof.
  pose proof (reached_new (C:=toy_crypto) sample_arbiter) as Hr. split; [exact Hr|].
  destruct (channel_history (C:=toy_crypto) (be_bytes 32 9) sample_party sample_party
    (SecretKey_public_key (C:=toy_crypto) 1) (SecretKey_public_key (C:=toy_crypto) 2) 100 10
    (daemon_new (C:=toy_crypto) sample_arbiter) Hr) as (_ & _ & Hcoop & _).
  apply Hcoop. split; [reflexivity|]. split; [vm_compute; reflexivity|].
  split; [vm_compute; reflexivity|]. vm_compute. discriminate.
Defined.
