(* ===== verification/Storage.v ===== *)
(** [onx-state-model], [storage.rs]: the durable store. Column families are
    directories of files, a batch of changes goes through a journal that is
    replayed, cells are counted references, and a block commitment replaces the
    accounts of one shard. This file holds the definitions and the journal's
    theorems; [StorageState] and [StorageRefs] use them. *)
From S2P Require Import Prelude Bytes Machine Text Primitives Address Block Cell Boc Account Tree.

(** The messages of [Corrupt] are not modelled. *)
Inductive StorageError : Type :=
  | Io
  | State (e : StateModelError)
  | Corrupt
  | RootMismatch (expected actual : bytes).

#[export] Instance StorageError_eq_dec : EqDecision StorageError.
Proof. solve_decision. Defined.

Definition COLUMN_FAMILIES : list bytes :=
  [str "cells"; str "accounts"; str "block_headers"; str "shard_states"].
Definition CELL_REFS_LEN : Z := 8.

(** ** Hexadecimal text *)

Definition hex_digit (n : Z) : byte := if n <? 10 then byte_of (48 + n) else byte_of (87 + n).

Definition hex (v : bytes) : bytes :=
  concat ((λ b, [hex_digit (byte_val b / 16); hex_digit (byte_val b mod 16)]) <$> v).

(** [char::to_digit(16)] *)
Definition from_hex_digit (b : byte) : option Z :=
  let z := byte_val b in
  if (48 <=? z) && (z <? 58) then Some (z - 48)
  else if (97 <=? z) && (z <? 103) then Some (z - 87)
  else if (65 <=? z) && (z <? 71) then Some (z - 55)
  else None.

(** [std::str::from_utf8] of two bytes *)
Definition utf8_pair (a b : byte) : bool :=
  let x := byte_val a in let y := byte_val b in
  ((x <? 128) && (y <? 128)) || ((194 <=? x) && (x <? 224) && (128 <=? y) && (y <? 192)).

(** [u8::from_str_radix(s, 16)] of a two-byte string: a leading [+] is a sign. *)
Definition from_str_radix_16 (a b : byte) : option Z :=
  if byte_val a =? 43 then from_hex_digit b
  else match from_hex_digit a, from_hex_digit b with
       | Some x, Some y => Some (16 * x + y)
       | _, _ => None
       end.

Fixpoint unhex_chunks (v : bytes) : result StorageError bytes :=
  match v with
  | a :: b :: v =>
      if negb (utf8_pair a b) then Panic
      else
        let? x := ok_or (from_str_radix_16 a b) Corrupt in
        let? r := unhex_chunks v in
        Ok (byte_of x :: r)
  | _ => Ok []
  end.

Definition unhex (v : bytes) : result StorageError bytes :=
  if negb (len v mod 2 =? 0) then Err Corrupt else unhex_chunks v.

(** [line.splitn(3, ' ')] *)
Definition splitn3 (line : bytes) : bytes * option bytes * option bytes :=
  match split_once Byte.x20 line with
  | (a, None) => (a, None, None)
  | (a, Some r) => let '(b, o) := split_once Byte.x20 r in (a, Some b, o)
  end.

(** ** The file system

    Files by their path below the storage root; the calls the store makes, as a
    sequence of steps. Steps reach the disk in order; the only step that is not
    atomic is a write. *)
Abbreviation files := (gmap bytes bytes).

Inductive fs_op : Type :=
  | FsWrite (path value : bytes)
  | FsRename (from to : bytes)
  | FsRemove (path : bytes).

Definition fs_exec (f : files) (o : fs_op) : files :=
  match o with
  | FsWrite p v => <[ p := v ]> f
  | FsRename p q => match f !! p with Some v => <[ q := v ]> (delete p f) | None => f end
  | FsRemove p => delete p f
  end.

Definition fs_run (f : files) (ops : list fs_op) : files := foldl fs_exec f ops.

(** What a crash during [ops] can leave: the steps done so far, the write under
    way cut short. *)
Inductive crash (f : files) (ops : list fs_op) : nat → files → Prop :=
  | crash_between n : (n ≤ length ops)%nat → crash f ops n (fs_run f (take n ops))
  | crash_torn n p v k :
      ops !! n = Some (FsWrite p v) →
      crash f ops n (<[ p := take k v ]> (fs_run f (take n ops))).

(** [path.with_extension("tmp")] *)
Definition with_extension_tmp (p : bytes) : bytes :=
  let '(name_rev, dir) := split_once Byte.x2f (rev p) in
  let name := match split_once Byte.x2e name_rev with
              | (_, Some (b :: stem_rev)) => rev (b :: stem_rev)
              | _ => rev name_rev
              end in
  match dir with
  | Some dir_rev => rev dir_rev ++ [Byte.x2f] ++ name ++ str ".tmp"
  | None => name ++ str ".tmp"
  end.

Definition file (cf key : bytes) : bytes := cf ++ [Byte.x2f] ++ hex key.
Definition JOURNAL : bytes := str ".commit-journal".

(** ** The journal *)

Record Batch : Type := { puts : list (bytes * bytes); removes : list bytes }.
Definition batch_empty : Batch := {| puts := []; removes := [] |}.
Definition push_put (b : Batch) (p v : bytes) : Batch :=
  {| puts := puts b ++ [(p, v)]; removes := removes b |}.
Definition push_remove (b : Batch) (p : bytes) : Batch :=
  {| puts := puts b; removes := removes b ++ [p] |}.

Definition journal_data (b : Batch) : bytes :=
  concat ((λ p, str "D " ++ p ++ [Byte.x0a]) <$> removes b) ++
  concat ((λ '(p, v), str "P " ++ p ++ [Byte.x20] ++ hex v ++ [Byte.x0a]) <$> puts b).

(** One line of the journal *)
Definition replay_line (line : bytes) : result StorageError (list fs_op) :=
  match splitn3 line with
  | (k, Some path, o) =>
      if bool_decide (k = str "D") then Ok [FsRemove path]
      else
        match o with
        | Some value =>
            if bool_decide (k = str "P") then
              let dst := path in
              let tmp := with_extension_tmp dst in
              let? v := unhex value in
              Ok [FsWrite tmp v; FsRename tmp dst]
            else Err Corrupt
        | None => Err Corrupt
        end
  | _ => Err Corrupt
  end.

(** The steps taken before the loop ends or fails *)
Fixpoint replay (ls : list bytes) : list fs_op * result StorageError unit :=
  match ls with
  | [] => ([], Ok tt)
  | l :: ls =>
      match replay_line l with
      | Ok ops => let '(os, r) := replay ls in (ops ++ os, r)
      | Err e => ([], Err e)
      | Panic => ([], Panic)
      end
  end.

Definition recover_ops (f : files) : list fs_op * result StorageError unit :=
  match f !! JOURNAL with
  | None => ([], Ok tt)
  | Some text =>
      if negb (utf8_valid text) then ([], Ok tt)
      else
        match replay (lines text) with
        | (ops, Ok _) => (ops ++ [FsRemove JOURNAL], Ok tt)
        | (ops, r) => (ops, r)
        end
  end.

Definition recover (f : files) : files * result StorageError unit :=
  let '(ops, r) := recover_ops f in (fs_run f ops, r).

(** [StateStorage::open] on an existing directory *)
Definition storage_open (f : files) : files * result StorageError unit := recover f.

Definition commit_ops (f : files) (b : Batch) : list fs_op :=
  let o := FsWrite JOURNAL (journal_data b) in
  o :: (recover_ops (fs_exec f o)).1.

Definition commit (f : files) (b : Batch) : files * result StorageError unit :=
  recover (fs_exec f (FsWrite JOURNAL (journal_data b))).

(** ** The text of a journal *)

Lemma hex_digit_val n : 0 ≤ n < 16 → byte_val (hex_digit n) = if n <? 10 then 48 + n else 87 + n.
Proof.
  intros Hn. unfold hex_digit. destruct (Z.ltb_spec n 10); rewrite byte_val_of, Z.mod_small; lia.
Qed.

Lemma from_hex_digit_hex n : 0 ≤ n < 16 → from_hex_digit (hex_digit n) = Some n.
Proof.
  intros Hn. unfold from_hex_digit. rewrite hex_digit_val by done.
  destruct (Z.ltb_spec n 10).
  - rewrite (proj2 (Z.leb_le _ _)), (proj2 (Z.ltb_lt _ _)) by lia. cbn [andb]. f_equal. lia.
  - rewrite (proj2 (Z.ltb_ge _ 58)), (andb_comm _ false) by lia. cbn [andb].
    rewrite (proj2 (Z.leb_le _ _)), (proj2 (Z.ltb_lt _ _)) by lia. cbn [andb]. f_equal. lia.
Qed.

Lemma nibbles b : 0 ≤ byte_val b / 16 < 16 ∧ 0 ≤ byte_val b mod 16 < 16.
Proof.
  pose proof (byte_val_bound b). pose proof (Z.mod_pos_bound (byte_val b) 16).
  pose proof (Z.div_mod (byte_val b) 16). lia.
Qed.

Lemma hex_cons b v : hex (b :: v) = hex_digit (byte_val b / 16) :: hex_digit (byte_val b mod 16) :: hex v.
Proof. done. Qed.

Lemma hex_len v : len (hex v) = 2 * len v.
Proof.
  induction v as [|b v IH]; [done|]. rewrite hex_cons. autorewrite with len. lia.
Qed.

Lemma unhex_chunks_hex v : unhex_chunks (hex v) = Ok v.
Proof.
  induction v as [|b v IH]; [done|]. rewrite hex_cons. cbn [unhex_chunks].
  destruct (nibbles b) as [Hh Hl].
  assert (utf8_pair (hex_digit (byte_val b / 16)) (hex_digit (byte_val b mod 16)) = true) as ->.
  { unfold utf8_pair. rewrite !hex_digit_val by done. apply orb_true_iff. left.
    apply andb_true_iff. split; case_match; apply Z.ltb_lt; lia. }
  cbn [negb]. unfold from_str_radix_16.
  rewrite (proj2 (Z.eqb_neq _ 43)) by (rewrite hex_digit_val by done; case_match; bool_to_prop; lia).
  rewrite !from_hex_digit_hex by done. cbn [ok_or]. rewrite rbind_ret, IH, rbind_ret.
  do 2 f_equal. rewrite <-Z.div_mod by lia. apply byte_of_val.
Qed.

(** Hexadecimal text reads back to the bytes it was written from. *)
Lemma unhex_hex v : unhex (hex v) = Ok v.
Proof.
  unfold unhex. rewrite hex_len, Z.mul_comm, Z_mod_mult. cbn [Z.eqb negb].
  apply unhex_chunks_hex.
Qed.

#[export] Instance hex_inj : Inj (=) (=) hex.
Proof. intros a b H. apply (inj (Ok (E:=StorageError))). by rewrite <-!unhex_hex, H. Qed.

(** Printable ASCII without the blank: what paths and values are written with *)
Definition plain (b : byte) : Prop := 32 < byte_val b < 128.

Lemma hex_plain v : Forall (λ b, plain b ∧ b ≠ Byte.x2e ∧ b ≠ Byte.x2f) (hex v).
Proof.
  assert (∀ n, 0 ≤ n < 16 → plain (hex_digit n) ∧ hex_digit n ≠ Byte.x2e ∧ hex_digit n ≠ Byte.x2f)
    as Hd.
  { intros n Hn. pose proof (hex_digit_val n Hn) as Hv. unfold plain. split_and!.
    1,2: rewrite Hv; case_match; bool_to_prop; lia.
    all: intros He; rewrite He in Hv.
    - change (byte_val Byte.x2e) with 46 in Hv. case_match; bool_to_prop; lia.
    - change (byte_val Byte.x2f) with 47 in Hv. case_match; bool_to_prop; lia. }
  induction v as [|b v IH]; [constructor|]. rewrite hex_cons.
  destruct (nibbles b). repeat constructor; by try apply Hd.
Qed.

(** *** Paths of the store *)

Definition good_path (p : bytes) : Prop :=
  ∃ cf key, cf ∈ COLUMN_FAMILIES ∧ p = file cf key.

Definition tmp (p : bytes) : bytes := p ++ str ".tmp".

Lemma cf_plain cf : cf ∈ COLUMN_FAMILIES → Forall (λ b, plain b ∧ b ≠ Byte.x2e ∧ b ≠ Byte.x2f) cf.
Proof.
  intros H. unfold COLUMN_FAMILIES in H.
  repeat (apply elem_of_cons in H as [->|H]; [repeat constructor; cbv; done|]).
  by apply elem_of_nil in H.
Qed.

Lemma good_path_plain p : good_path p → Forall plain p.
Proof.
  intros (cf & key & Hcf & ->). unfold file. rewrite !Forall_app. split_and!.
  - eapply Forall_impl; [by apply cf_plain|naive_solver].
  - by repeat constructor.
  - eapply Forall_impl; [apply hex_plain|naive_solver].
Qed.

Lemma with_extension_good p : good_path p → with_extension_tmp p = tmp p.
Proof.
  intros (cf & key & _ & ->). unfold with_extension_tmp, tmp, file.
  rewrite !rev_app_distr. cbn [rev app]. rewrite <-app_assoc. cbn [app].
  rewrite split_once_found.
  2:{ apply Forall_rev. eapply Forall_impl; [apply hex_plain|naive_solver]. }
  rewrite split_once_none.
  2:{ apply Forall_rev. eapply Forall_impl; [apply hex_plain|naive_solver]. }
  by rewrite !rev_involutive, <-!app_assoc.
Qed.

Lemma file_inj cf key cf' key' :
  cf ∈ COLUMN_FAMILIES → cf' ∈ COLUMN_FAMILIES → file cf key = file cf' key' → cf = cf' ∧ key = key'.
Proof.
  intros Hcf Hcf' He. apply (f_equal (split_once Byte.x2f)) in He. unfold file in He.
  cbn [app] in He. rewrite !split_once_found in He.
  - injection He as -> He. by apply (inj hex) in He.
  - eapply Forall_impl; [by apply cf_plain|naive_solver].
  - eapply Forall_impl; [by apply cf_plain|naive_solver].
Qed.

Lemma good_path_no_dot p : good_path p → Byte.x2e ∉ p.
Proof.
  intros (cf & key & Hcf & ->) Hin. unfold file in Hin.
  rewrite !elem_of_app in Hin. pose proof (cf_plain _ Hcf) as H1. pose proof (hex_plain key) as H2.
  rewrite Forall_forall in H1. rewrite Forall_forall in H2.
  destruct Hin as [Hin|[Hin|Hin]].
  - by destruct (H1 _ Hin) as (_ & ? & _).
  - apply list_elem_of_singleton in Hin. done.
  - by destruct (H2 _ Hin) as (_ & ? & _).
Qed.

Lemma tmp_dot p : Byte.x2e ∈ tmp p.
Proof. unfold tmp. apply elem_of_app. right. by left. Qed.

Lemma tmp_not_good p q : good_path p → p ≠ tmp q.
Proof. intros Hp ->. apply (good_path_no_dot _ Hp), tmp_dot. Qed.

Lemma journal_not_good p : good_path p → p ≠ JOURNAL.
Proof. intros Hp ->. apply (good_path_no_dot _ Hp). by left. Qed.

Lemma journal_not_tmp p : good_path p → tmp p ≠ JOURNAL.
Proof.
  intros (cf & key & Hcf & ->) He. unfold tmp, file in He. unfold COLUMN_FAMILIES in Hcf.
  repeat (apply elem_of_cons in Hcf as [->|Hcf]; [discriminate He|]). by apply elem_of_nil in Hcf.
Qed.

(** *** Entries

    A batch as the journal lists it: the removals, then the writes. *)
Inductive entry : Type := Del (p : bytes) | Put (p v : bytes).

Definition entries (b : Batch) : list entry :=
  (Del <$> removes b) ++ ((λ '(p, v), Put p v) <$> puts b).

Definition entry_path (e : entry) : bytes := match e with Del p | Put p _ => p end.

Definition entry_line (e : entry) : bytes :=
  match e with
  | Del p => str "D " ++ p
  | Put p v => str "P " ++ p ++ [Byte.x20] ++ hex v
  end.

Definition entry_ops (e : entry) : list fs_op :=
  match e with
  | Del p => [FsRemove p]
  | Put p v => [FsWrite (tmp p) v; FsRename (tmp p) p]
  end.

Definition text (es : list entry) : bytes := concat ((λ e, entry_line e ++ [Byte.x0a]) <$> es).
Definition ops_of (es : list entry) : list fs_op := concat (entry_ops <$> es).

Definition batch_good (b : Batch) : Prop :=
  Forall good_path (removes b) ∧ Forall (λ pv, good_path pv.1) (puts b).

Lemma batch_good_entries b : batch_good b → Forall (λ e, good_path (entry_path e)) (entries b).
Proof.
  intros [Hr Hp]. unfold entries. rewrite Forall_app, !Forall_fmap. split; [done|].
  eapply Forall_impl; [done|]. by intros [p v].
Qed.

Lemma journal_text b : journal_data b = text (entries b).
Proof.
  unfold journal_data, text, entries. rewrite fmap_app, concat_app, <-!list_fmap_compose. f_equal.
  f_equal. apply list_fmap_ext. intros i [p v] _. cbn. by rewrite <-!app_assoc.
Qed.

Lemma plain_sep b : plain b → b ≠ Byte.x20 ∧ b ≠ Byte.x0a ∧ b ≠ Byte.x0d ∧ byte_val b < 128.
Proof. unfold plain. intros Hb. split_and!; try lia; intros ->; by destruct Hb. Qed.

Lemma entry_line_chars e :
  good_path (entry_path e) →
  Forall (λ b, (b ≠ Byte.x0a ∧ b ≠ Byte.x0d) ∧ byte_val b < 128) (entry_line e).
Proof.
  intros Hp%good_path_plain.
  assert (∀ l, Forall plain l → Forall (λ b, (b ≠ Byte.x0a ∧ b ≠ Byte.x0d) ∧ byte_val b < 128) l)
    as Hpl.
  { intros l Hl. eapply Forall_impl; [done|]. intros b ?%plain_sep. naive_solver. }
  pose proof (Hpl _ Hp). destruct e as [p|p v]; cbn [entry_line entry_path] in *.
  - apply Forall_app. split; [by repeat constructor|done].
  - rewrite !Forall_app. split_and!; [by repeat constructor|done|by repeat constructor|].
    apply Hpl. eapply Forall_impl; [apply hex_plain|naive_solver].
Qed.

Lemma replay_entry_line e : good_path (entry_path e) → replay_line (entry_line e) = Ok (entry_ops e).
Proof.
  intros Hp. pose proof (good_path_plain _ Hp) as Hpl.
  assert (Forall (.≠ Byte.x20) (entry_path e)) as Hsp.
  { eapply Forall_impl; [done|]. intros b ?%plain_sep. naive_solver. }
  unfold replay_line, splitn3. destruct e as [p|p v]; cbn [entry_line entry_path entry_ops] in *.
  - change (str "D " ++ p) with (str "D" ++ Byte.x20 :: p).
    rewrite split_once_found by by repeat constructor. by rewrite split_once_none.
  - change (str "P " ++ p ++ [Byte.x20] ++ hex v) with (str "P" ++ Byte.x20 :: (p ++ Byte.x20 :: hex v)).
    rewrite split_once_found by by repeat constructor. rewrite split_once_found by done.
    rewrite bool_decide_false by done. rewrite bool_decide_true by done.
    cbv zeta. by rewrite unhex_hex, rbind_ret, with_extension_good.
Qed.

(** The journal of a batch is replayed as its entries, in order. *)
Lemma replay_text es rest :
  Forall (λ e, good_path (entry_path e)) es →
  replay (lines (text es ++ rest)) =
  let '(os, r) := replay (lines rest) in (ops_of es ++ os, r).
Proof.
  induction 1 as [|e es He _ IH]; cbn [text concat fmap list_fmap app].
  { unfold ops_of. cbn. by destruct (replay _). }
  change (list_fmap _ _ (λ e, entry_line e ++ [Byte.x0a]) es) with ((λ e, entry_line e ++ [Byte.x0a]) <$> es).
  fold (text es). rewrite <-!app_assoc. cbn [app].
  rewrite lines_cons.
  2:{ eapply Forall_impl; [by apply entry_line_chars|naive_solver]. }
  2:{ intros [u Hu]%last_Some. pose proof (entry_line_chars e He) as Hc. rewrite Hu in Hc.
      apply Forall_app in Hc as [_ Hc]. inversion Hc; naive_solver. }
  cbn [replay]. rewrite replay_entry_line by done. rewrite IH.
  destruct (replay (lines rest)) as [os r]. unfold ops_of. cbn. by rewrite app_assoc.
Qed.

Lemma text_ascii es :
  Forall (λ e, good_path (entry_path e)) es → Forall (λ b, byte_val b < 128) (text es).
Proof.
  intros Hes. unfold text. apply Forall_concat, Forall_fmap. eapply Forall_impl; [done|].
  intros e He. cbn. apply Forall_app. split; [|by repeat constructor].
  eapply Forall_impl; [by apply entry_line_chars|naive_solver].
Qed.

Lemma recover_ops_text f es :
  Forall (λ e, good_path (entry_path e)) es → f !! JOURNAL = Some (text es) →
  recover_ops f = (ops_of es ++ [FsRemove JOURNAL], Ok tt).
Proof.
  intros Hes Hj. unfold recover_ops. rewrite Hj, utf8_valid_ascii by by apply text_ascii.
  cbn [negb]. rewrite <-(app_nil_r (text es)), replay_text by done. cbn. by rewrite app_nil_r.
Qed.

(** ** The effect of a replay *)

Definition apply_entry (f : files) (e : entry) : files :=
  match e with
  | Del p => delete p f
  | Put p v => <[ p := v ]> (delete (tmp p) f)
  end.
Definition apply_entries (f : files) (es : list entry) : files := foldl apply_entry f es.

Lemma fs_run_app f a b : fs_run f (a ++ b) = fs_run (fs_run f a) b.
Proof. apply foldl_app. Qed.

Lemma run_entry f e : good_path (entry_path e) → fs_run f (entry_ops e) = apply_entry f e.
Proof.
  intros Hp. destruct e as [p|p v]; [done|]. cbn [entry_ops fs_run foldl fs_exec apply_entry].
  by rewrite lookup_insert_eq, delete_insert_eq.
Qed.

Lemma run_ops_of f es :
  Forall (λ e, good_path (entry_path e)) es → fs_run f (ops_of es) = apply_entries f es.
Proof.
  intros Hes. revert f. induction Hes as [|e es He _ IH]; intros f; [done|].
  unfold ops_of. cbn [fmap list_fmap concat]. rewrite fs_run_app, run_entry by done. apply IH.
Qed.

(** The paths an entry writes *)
Definition touched (e : entry) : gset bytes :=
  match e with Del p => {[p]} | Put p _ => {[p; tmp p]} end.
Definition all_touched (es : list entry) : gset bytes := ⋃ (touched <$> es).

Lemma elem_of_all_touched q es : q ∈ all_touched es ↔ ∃ e, e ∈ es ∧ q ∈ touched e.
Proof.
  unfold all_touched. rewrite elem_of_union_list. split.
  - intros (X & (e & -> & He)%list_elem_of_fmap & Hq). eauto.
  - intros (e & He & Hq). exists (touched e). split; [by apply list_elem_of_fmap_2|done].
Qed.

Definition agree_off (T : gset bytes) (f g : files) : Prop := ∀ q, q ∉ T → f !! q = g !! q.

Lemma apply_entry_agree T f g e :
  agree_off T f g → agree_off (T ∖ touched e) (apply_entry f e) (apply_entry g e).
Proof.
  intros Hfg q Hq. destruct e as [p|p v]; cbn [apply_entry touched] in *.
  - destruct (decide (q = p)) as [->|]; [by rewrite !lookup_delete_eq|].
    rewrite !lookup_delete_ne by done. apply Hfg. set_solver.
  - destruct (decide (q = p)) as [->|]; [by rewrite !lookup_insert_eq|].
    rewrite !lookup_insert_ne by done. destruct (decide (q = tmp p)) as [->|].
    { by rewrite !lookup_delete_eq. }
    rewrite !lookup_delete_ne by done. apply Hfg. set_solver.
Qed.

(** A replay forgets what the paths it writes held before. *)
Lemma apply_entries_agree es : ∀ T f g,
  agree_off T f g → T ⊆ all_touched es → apply_entries f es = apply_entries g es.
Proof.
  induction es as [|e es IH]; intros T f g Hfg HT.
  - apply map_eq. intros q. apply Hfg. intros Hq%HT.
    apply elem_of_all_touched in Hq as (e & He & _). by apply elem_of_nil in He.
  - cbn [apply_entries foldl]. apply (IH (T ∖ touched e)); [by apply apply_entry_agree|].
    intros q [Hq Hne]%elem_of_difference. apply HT in Hq.
    rewrite elem_of_all_touched in *. destruct Hq as (e' & [->|He]%elem_of_cons & Hq); [done|eauto].
Qed.

Definition op_inside (T : gset bytes) (o : fs_op) : Prop :=
  match o with
  | FsWrite p _ | FsRemove p => p ∈ T
  | FsRename p q => p ∈ T ∧ q ∈ T
  end.

Lemma fs_exec_off f o T : op_inside T o → agree_off T (fs_exec f o) f.
Proof.
  intros HT q Hq. assert (∀ p, p ∈ T → p ≠ q) as Hne by (intros p Hp ->; done).
  destruct o as [p v|p p'|p]; cbn [fs_exec op_inside] in *.
  - by rewrite lookup_insert_ne by auto.
  - destruct HT. destruct (f !! p); [|done]. by rewrite lookup_insert_ne, lookup_delete_ne by auto.
  - by rewrite lookup_delete_ne by auto.
Qed.

Lemma fs_run_off f ops T : Forall (op_inside T) ops → agree_off T (fs_run f ops) f.
Proof.
  intros H. revert f. induction H as [|o ops Ho _ IH]; intros f q Hq; [done|].
  change (fs_run f (o :: ops)) with (fs_run (fs_exec f o) ops). rewrite (IH (fs_exec f o) q Hq). by apply (fs_exec_off f o T).
Qed.

Lemma ops_of_inside es : Forall (op_inside (all_touched es)) (ops_of es).
Proof.
  apply Forall_forall. intros o Ho. unfold ops_of in Ho.
  apply list_elem_of_In, in_concat in Ho as (l & Hl & Ho). apply list_elem_of_In in Hl, Ho.
  apply list_elem_of_fmap in Hl as (e & -> & He).
  assert (∀ x, x ∈ touched e → x ∈ all_touched es) as Hsub.
  { intros x Hx. apply elem_of_all_touched. eauto. }
  destruct e as [p|p v]; cbn [entry_ops touched] in *.
  - apply list_elem_of_singleton in Ho as ->. cbn. apply Hsub. set_solver.
  - apply elem_of_cons in Ho as [->|Ho]; [cbn; apply Hsub; set_solver|].
    apply list_elem_of_singleton in Ho as ->. cbn. split; apply Hsub; set_solver.
Qed.

Lemma journal_untouched es :
  Forall (λ e, good_path (entry_path e)) es → JOURNAL ∉ all_touched es.
Proof.
  intros Hes (e & He & Hin)%elem_of_all_touched. rewrite Forall_forall in Hes.
  specialize (Hes _ He). destruct e as [p|p v]; cbn in *; rewrite ?elem_of_union, !elem_of_singleton in Hin.
  - by apply (journal_not_good p).
  - destruct Hin as [Hin|Hin]; [by apply (journal_not_good p)|by apply (journal_not_tmp p)].
Qed.

(** *** What a batch makes of the store *)

(** The value a batch holds for a path: [puts.iter().rev().find(..)] *)
Definition pending (b : Batch) (p : bytes) : option bytes :=
  snd <$> head (filter (λ pv, pv.1 = p) (rev (puts b))).

Lemma pending_push_put b q v p :
  pending (push_put b q v) p = if decide (q = p) then Some v else pending b p.
Proof.
  unfold pending, push_put. cbn [puts]. rewrite rev_unit, filter_cons. cbn [fst].
  by destruct (decide (q = p)).
Qed.

Definition committed (f : files) (b : Batch) : files := apply_entries (delete JOURNAL f) (entries b).

Lemma agree_off_weaken T T' f g : T ⊆ T' → agree_off T f g → agree_off T' f g.
Proof. intros HT Hfg q Hq. apply Hfg. set_solver. Qed.

Lemma apply_entries_off es : ∀ T f g, agree_off T f g → agree_off T (apply_entries f es) (apply_entries g es).
Proof.
  induction es as [|e es IH]; intros T f g Hfg; [done|].
  apply (IH T). apply (agree_off_weaken (T ∖ touched e)); [set_solver|]. by apply apply_entry_agree.
Qed.

Lemma apply_entries_untouched f es q :
  Forall (λ e, good_path (entry_path e)) es → q ∉ all_touched es → apply_entries f es !! q = f !! q.
Proof.
  intros Hes Hq. rewrite <-run_ops_of by done.
  apply (fs_run_off f _ (all_touched es)); [apply ops_of_inside|done].
Qed.

Lemma apply_dels (f : files) rms p :
  apply_entries f (Del <$> rms) !! p = if decide (p ∈ rms) then None else f !! p.
Proof.
  revert f. induction rms as [|r rms IH]; intros f; [done|].
  cbn [fmap list_fmap apply_entries foldl apply_entry].
  change (foldl apply_entry ?g (Del <$> ?l)) with (apply_entries g (Del <$> l)).
  rewrite IH. destruct (decide (p ∈ rms)); [by rewrite decide_True by (by right)|].
  destruct (decide (r = p)) as [->|].
  - rewrite lookup_delete_eq, decide_True; [done|by left].
  - rewrite lookup_delete_ne, decide_False; [done|set_solver|done].
Qed.

Lemma committed_lookup f b p :
  batch_good b → good_path p →
  committed f b !! p = match pending b p with
                       | Some v => Some v
                       | None => if decide (p ∈ removes b) then None else f !! p
                       end.
Proof.
  intros [_ Hb] Hp. unfold committed, entries, pending. destruct b as [pts rms].
  cbn [puts removes] in *.
  induction pts as [|[q v] pts IH] using rev_ind.
  { cbn. rewrite app_nil_r, apply_dels.
    rewrite lookup_delete_ne; [done|]. intros <-. by apply (journal_not_good JOURNAL). }
  apply Forall_app in Hb as [Hb Hq]. apply Forall_singleton in Hq.
  rewrite fmap_app, app_assoc, rev_unit, filter_cons. unfold apply_entries in *.
  rewrite foldl_app. cbn [fst snd fmap list_fmap foldl apply_entry].
  destruct (decide (q = p)) as [->|].
  - by rewrite lookup_insert_eq.
  - rewrite lookup_insert_ne, lookup_delete_ne by (done || by apply not_eq_sym, tmp_not_good).
    by apply IH.
Qed.

Lemma committed_clean f es :
  Forall (λ e, good_path (entry_path e)) es → apply_entries (delete JOURNAL f) es !! JOURNAL = None.
Proof.
  intros Hes. rewrite apply_entries_untouched; [apply lookup_delete_eq|done|by apply journal_untouched].
Qed.

(** Replaying entries over a store that the steps before may have changed. *)
Lemma replay_over f g es :
  Forall (λ e, good_path (entry_path e)) es → agree_off ({[JOURNAL]} ∪ all_touched es) g f →
  fs_run g (ops_of es ++ [FsRemove JOURNAL]) = apply_entries (delete JOURNAL f) es.
Proof.
  intros Hes Hfg. pose proof (committed_clean f es Hes) as Hclean.
  rewrite fs_run_app, run_ops_of by done. cbn [fs_run foldl fs_exec].
  apply map_eq. intros q. destruct (decide (q = JOURNAL)) as [->|Hq].
  { by rewrite lookup_delete_eq, Hclean. }
  rewrite lookup_delete_ne by done.
  assert (apply_entries g es !! q = apply_entries (<[ JOURNAL := [] ]> g) es !! q) as ->.
  { apply (apply_entries_off _ {[JOURNAL]}); [|set_solver]. intros x Hx.
    rewrite lookup_insert_ne; [done|set_solver]. }
  assert (apply_entries (delete JOURNAL f) es !! q = apply_entries (<[ JOURNAL := [] ]> f) es !! q) as ->.
  { apply (apply_entries_off _ {[JOURNAL]}); [|set_solver]. intros x Hx.
    rewrite lookup_insert_ne, lookup_delete_ne; [done|set_solver..]. }
  f_equal. apply (apply_entries_agree _ (all_touched es)); [|done].
  intros x Hx. destruct (decide (x = JOURNAL)) as [->|]; [by rewrite !lookup_insert_eq|].
  rewrite !lookup_insert_ne by done. apply Hfg. set_solver.
Qed.

Lemma commit_ops_eq f b :
  batch_good b →
  commit_ops f b = FsWrite JOURNAL (text (entries b)) :: ops_of (entries b) ++ [FsRemove JOURNAL].
Proof.
  intros Hb%batch_good_entries. unfold commit_ops. rewrite journal_text.
  by rewrite (recover_ops_text _ (entries b)) by (done || apply lookup_insert_eq).
Qed.

Lemma recover_text f es :
  Forall (λ e, good_path (entry_path e)) es → f !! JOURNAL = Some (text es) →
  recover f = (fs_run f (ops_of es ++ [FsRemove JOURNAL]), Ok tt).
Proof. intros Hes Hj. unfold recover. by rewrite (recover_ops_text f es). Qed.

Lemma recover_clean f : f !! JOURNAL = None → recover f = (f, Ok tt).
Proof. intros Hj. unfold recover, recover_ops. by rewrite Hj. Qed.

Lemma commit_Ok f b : batch_good b → commit f b = (committed f b, Ok tt).
Proof.
  intros Hb. unfold commit. rewrite journal_text.
  rewrite (recover_text _ (entries b)) by (by apply batch_good_entries || apply lookup_insert_eq).
  f_equal. apply replay_over; [by apply batch_good_entries|].
  intros q Hq. apply lookup_insert_ne. set_solver.
Qed.

(** The store in the middle of a replay *)
Lemma crash_agree f b n g :
  batch_good b → (1 ≤ n)%nat → crash f (commit_ops f b) n g →
  g = committed f b ∨
  agree_off ({[JOURNAL]} ∪ all_touched (entries b)) g f ∧ g !! JOURNAL = Some (text (entries b)).
Proof.
  intros Hb Hn Hc. rewrite commit_ops_eq in Hc by done.
  set (es := entries b) in *. set (f1 := <[ JOURNAL := text es ]> f).
  pose proof (journal_untouched es (batch_good_entries b Hb)) as Hju.
  assert (∀ k, Forall (op_inside (all_touched es)) (take k (ops_of es))) as Hin.
  { intros k. apply Forall_take, ops_of_inside. }
  assert (∀ k, agree_off ({[JOURNAL]} ∪ all_touched es) (fs_run f1 (take k (ops_of es))) f ∧
    fs_run f1 (take k (ops_of es)) !! JOURNAL = Some (text es)) as Hk.
  { intros k. split.
    - intros q Hq. rewrite (fs_run_off f1 _ (all_touched es)) by (done || set_solver).
      apply lookup_insert_ne. set_solver.
    - rewrite (fs_run_off f1 _ (all_touched es)) by done. apply lookup_insert_eq. }
  destruct n as [|n]; [lia|].
  inversion Hc as [n' Hle E1 E2|n' p v k Hop E1 E2]; subst n'; cbn [length take] in *.
  - change (fs_run f (_ :: ?ops)) with (fs_run f1 ops).
    rewrite length_app in Hle. cbn in Hle.
    destruct (decide (n ≤ length (ops_of es))%nat).
    + right. rewrite take_app_le by done. apply Hk.
    + left. rewrite take_ge by (rewrite length_app; cbn; lia).
      apply replay_over; [by apply batch_good_entries|]. intros q Hq. apply lookup_insert_ne. set_solver.
  - right. change (fs_run f (_ :: ?ops)) with (fs_run f1 ops).
    change ((ops_of es ++ [FsRemove JOURNAL]) !! n = Some (FsWrite p v)) in Hop.
    destruct (decide (n < length (ops_of es))%nat).
    + rewrite lookup_app_l in Hop by done. rewrite take_app_le by lia.
      assert (p ∈ all_touched es) as Hp.
      { pose proof (ops_of_inside es) as Hall. rewrite Forall_lookup in Hall.
        by apply (Hall n (FsWrite p v)). }
      destruct (Hk n) as [Ha Hj]. split.
      * intros q Hq. rewrite lookup_insert_ne by set_solver. by apply Ha.
      * rewrite lookup_insert_ne; [done|]. by intros ->.
    + rewrite lookup_app_r in Hop by lia. by destruct (n - length (ops_of es))%nat.
Qed.

(** C14: once the journal is on disk, a commit is all-or-nothing: whatever
    step of the replay a crash interrupts, even in the middle of a write,
    opening the store again finishes the very commit that was interrupted.
    Committing is that replay, and leaves every path with its last written
    value, the removed ones without a file, and all others as they were. *)
Theorem crash_recovery f b n g :
  batch_good b → (1 ≤ n)%nat → crash f (commit_ops f b) n g →
  storage_open g = commit f b ∧ (commit f b).2 = Ok tt ∧
  (∀ p, good_path p → (commit f b).1 !! p =
     match pending b p with
     | Some v => Some v
     | None => if decide (p ∈ removes b) then None else f !! p
     end).
Proof.
  intros Hb Hn Hc. rewrite commit_Ok by done. cbn [fst snd].
  split; [|split; [done|by intros; apply committed_lookup]]. unfold storage_open.
  destruct (crash_agree f b n g Hb Hn Hc) as [-> |[Ha Hj]].
  - by apply recover_clean, committed_clean, batch_good_entries.
  - rewrite (recover_text g (entries b)) by (done || by apply batch_good_entries).
    f_equal. apply replay_over; [by apply batch_good_entries|done].
Qed.


Lemma text_app es es' : text (es ++ es') = text es ++ text es'.
Proof. unfold text. by rewrite fmap_app, concat_app. Qed.

Lemma tear_at f b es es' :
  batch_good b → entries b = es ++ es' →
  let g := <[ JOURNAL := text es ]> f in
  crash f (commit_ops f b) 0 g ∧ storage_open g = (apply_entries (delete JOURNAL f) es, Ok tt).
Proof.
  intros Hb He. pose proof (batch_good_entries b Hb) as Hes. cbv zeta. split.
  - replace (text es) with (take (length (text es)) (text (entries b)))
      by (by rewrite He, text_app, take_app_length).
    apply (crash_torn f (commit_ops f b) 0). by rewrite commit_ops_eq.
  - rewrite He in Hes. apply Forall_app in Hes as [Ha _].
    unfold storage_open. rewrite (recover_text _ es) by (done || apply lookup_insert_eq).
    f_equal. apply replay_over; [done|]. intros q Hq. apply lookup_insert_ne. set_solver.
Qed.

(** C26: the journal itself is written in place, so a crash while it is being
    written is not all-or-nothing: cut at the end of any line, it is replayed
    on the next opening as the commit of the lines that reached the disk, and
    no error is reported. In particular every removal can take effect without
    any of the writes that were to follow. *)
Theorem journal_tear f b es es' :
  batch_good b → entries b = es ++ es' →
  (∃ g, crash f (commit_ops f b) 0 g ∧
    storage_open g = (apply_entries (delete JOURNAL f) es, Ok tt)) ∧
  (∃ g, crash f (commit_ops f b) 0 g ∧ (storage_open g).2 = Ok tt ∧
    (∀ p, good_path p → (storage_open g).1 !! p = if decide (p ∈ removes b) then None else f !! p)).
Proof.
  intros Hb He. split; [eexists; by apply (tear_at f b es es')|].
  destruct (tear_at f b (Del <$> removes b) ((λ '(p, v), Put p v) <$> puts b) Hb) as [Hc Ho]; [done|].
  eexists. split; [exact Hc|]. rewrite Ho. split; [done|]. intros p Hp. cbn [fst].
  rewrite apply_dels. rewrite lookup_delete_ne; [done|]. intros <-. by apply (journal_not_good JOURNAL).
Qed.

(** ** An instance: one file replaced *)

Definition sample_path : bytes := file (str "accounts") [Byte.x2a].
Definition sample_files : files := {[ sample_path := str "old" ]}.
Definition sample_batch : Batch :=
  {| puts := [(sample_path, str "new")]; removes := [sample_path] |}.

Lemma sample_batch_good : batch_good sample_batch.
Proof.
  assert (good_path sample_path) by (exists (str "accounts"), [Byte.x2a]; split; [by right; left|done]).
  by repeat constructor.
Qed.

(** The crash after the temporary file is written and half of the next step *)
Lemma crash_recovery_witness :
  (∃ g, crash sample_files (commit_ops sample_files sample_batch) 2 g ∧ g !! sample_path = None ∧
    (storage_open g).1 !! sample_path = Some (str "new")) ∧
  (commit sample_files sample_batch).2 = Ok tt.
Proof.
  set (g := fs_run sample_files (take 2 (commit_ops sample_files sample_batch))).
  assert (crash sample_files (commit_ops sample_files sample_batch) 2 g) as Hc
    by (apply crash_between, Nat.leb_le; reflexivity).
  destruct (crash_recovery sample_files sample_batch 2 g sample_batch_good ltac:(lia) Hc)
    as (Ho & Hr & Hp).
  split; [|done]. exists g. split; [done|]. split; [reflexivity|]. rewrite Ho, Hp by (exists (str "accounts"), [Byte.x2a]; split; [by right; left|done]). reflexivity.
Defined.

(** The replaced file is gone, and the store opens without an error. *)
Lemma journal_tear_witness :
  ∃ g, crash sample_files (commit_ops sample_files sample_batch) 0 g ∧
    (storage_open g).2 = Ok tt ∧ (storage_open g).1 !! sample_path = None.
Proof.
  destruct (journal_tear sample_files sample_batch [] (entries sample_batch) sample_batch_good eq_refl)
    as [_ (g & Hc & Hr & Hp)].
  exists g. split; [done|]. split; [done|].
  rewrite Hp by (exists (str "accounts"), [Byte.x2a]; split; [by right; left|done]). reflexivity.
Defined.
