(* ===== verification/StorageState.v ===== *)
(** [onx-state-model], [storage.rs]: the operations of the store - cells,
    reference counts, accounts, headers, block commitments - and what a block
    commitment leaves to be read. *)
From S2P Require Import Prelude Bytes Machine Text Primitives ToyCrypto Address Block Cell Boc Account Tree Storage.

Definition CELLS : bytes := str "cells".
Definition ACCOUNTS : bytes := str "accounts".
Definition BLOCK_HEADERS : bytes := str "block_headers".
Definition SHARD_STATES : bytes := str "shard_states".

Record BlockCommitment : Type := {
  bc_header : BlockHeader;
  bc_state : tree_accounts;
  cell_bocs : list BagOfCells;
}.

(** ** Records *)

Definition encode_cell_record (n : Z) (c : Cell) : bytes := int_encode Uint64 n ++ Cell_to_bytes c.

Definition account_key (s : ShardIdent) (a : bytes) : bytes := shard_to_bytes s ++ account_to_bytes a.

Definition decode_account (v : bytes) : result StorageError AccountState :=
  let? (s, n) := map_err State (AccountState_from_bytes v) in
  if negb (n =? len v) then Err Corrupt else Ok s.

(** [fs::read]: no error but [NotFound] *)
Definition storage_read (f : files) (cf key : bytes) : option bytes := f !! file cf key.

(** [o.map(g).transpose()] *)
Definition read_with {A} (o : option bytes) (g : bytes → result StorageError A) :
    result StorageError (option A) :=
  match o with
  | Some v => let? a := g v in Ok (Some a)
  | None => Ok None
  end.

(** The names in a directory and the contents of the files, in the order of
    the file system's listing *)
Definition strip_dir (cf : bytes) (p : bytes) : option bytes :=
  if bool_decide (take (length (cf ++ [Byte.x2f])) p = cf ++ [Byte.x2f])
  then Some (drop (length (cf ++ [Byte.x2f])) p) else None.

Section storage.
Context {C : Crypto}.

(** What the code takes from outside in an unspecified order: a directory's
    listing, and the iteration of a hash map. *)
Context (listing : files → list (bytes * bytes)).
Context (values : gmap bytes Cell → list (bytes * Cell)).

Definition read_dir (f : files) (cf : bytes) : list (bytes * bytes) :=
  omap (λ '(p, v), (λ name, (name, v)) <$> strip_dir cf p) (listing f).

Definition header_hash (h : BlockHeader) : bytes := domain_hash BLOCK_HEADER_V1 (BlockHeader_to_bytes h).

Definition decode_cell_record (h v : bytes) : result StorageError (Z * Cell) :=
  if len v <? CELL_REFS_LEN then Err Corrupt
  else
    let? n := slice v 0 8 in
    let? r := slice v 8 (len v) in
    let? (c, used) := map_err State (Cell_from_bytes r) in
    if negb (used + 8 =? len v) || negb (bool_decide (cell_hash c = h)) then Err Corrupt
    else Ok (from_be_bytes Uint64 n, c).

Definition storage_get_cell (f : files) (hash : bytes) : result StorageError (option Cell) :=
  read_with (storage_read f CELLS hash) (λ v, let? (_, c) := decode_cell_record hash v in Ok c).

Definition cell_refcount (f : files) (hash : bytes) : result StorageError (option Z) :=
  read_with (storage_read f CELLS hash) (λ v, let? (n, _) := decode_cell_record hash v in Ok n).

Definition get_account (f : files) (shard : ShardIdent) (account : bytes) :
    result StorageError (option AccountState) :=
  read_with (storage_read f ACCOUNTS (account_key shard account)) decode_account.

(** One entry of the directory of accounts *)
Definition load_entry (prefix : bytes) (e : bytes * bytes) (t : tree_accounts) :
    result StorageError tree_accounts :=
  let '(name, content) := e in
  if bool_decide (take (length prefix) name = prefix) then
    let? key := unhex name in
    if negb (len key =? 44) then Err Corrupt
    else
      let? id := slice key 12 (len key) in
      let? s := decode_account content in
      Ok (tree_insert t id s)
  else Ok t.

Definition load_shard_state (f : files) (shard : ShardIdent) : result StorageError tree_accounts :=
  let prefix := hex (shard_to_bytes shard) in
  foldM (load_entry prefix) (read_dir f ACCOUNTS) ∅.

Definition shard_state_root (f : files) (shard : ShardIdent) : result StorageError (option bytes) :=
  read_with (storage_read f SHARD_STATES (shard_to_bytes shard))
    (λ v, if len v =? 32 then Ok v else Err Corrupt).

Definition get_block_header (f : files) (hash : bytes) : result StorageError (option BlockHeader) :=
  read_with (storage_read f BLOCK_HEADERS hash) (λ v, map_err (λ _, Corrupt) (BlockHeader_from_bytes v)).

(** ** Changes *)

(** The body of the loop of [put_cells] *)
Definition put_cell_batch (f : files) (c : Cell) (b : Batch) : result StorageError Batch :=
  let h := cell_hash c in
  match storage_read f CELLS h with
  | Some v =>
      let? (_, old) := decode_cell_record h v in
      if negb (bool_decide (old = c)) then Err Corrupt else Ok b
  | None => Ok (push_put b (file CELLS h) (encode_cell_record 0 c))
  end.

Definition put_cells (f : files) (cells : list Cell) (b : Batch) : result StorageError Batch :=
  foldM (put_cell_batch f) cells b.

(** [fuel] bounds the depth of the recursion, which visits a hash once. *)
Fixpoint adjust_cell (fuel : nat) (f : files) (up : bool) (h : bytes) (st : gset bytes * Batch) :
    result StorageError (gset bytes * Batch) :=
  match fuel with
  | O => Panic
  | S fuel =>
      let '(seen, b) := st in
      if bool_decide (h ∈ seen) then Ok (seen, b)
      else
        let seen := {[h]} ∪ seen in
        let cell_path := file CELLS h in
        let? v := ok_or (match pending b cell_path with
                         | Some v => Some v
                         | None => storage_read f CELLS h
                         end) Corrupt in
        let? (n, c) := decode_cell_record h v in
        if up then
          let? n := ok_or (checked_add_u 64 n 1) Corrupt in
          let b := push_put b (file CELLS h) (encode_cell_record n c) in
          foldM (λ child st, adjust_cell fuel f true child st) (cell_refs c) (seen, b)
        else if n =? 0 then Err Corrupt
        else if n =? 1 then
          let b := push_remove b (file CELLS h) in
          foldM (λ child st, adjust_cell fuel f false child st) (cell_refs c) (seen, b)
        else Ok (seen, push_put b (file CELLS h) (encode_cell_record (n - 1) c))
  end.

(** Every call but the innermost visits a new hash that has a record. *)
Definition adjust_fuel (f : files) (b : Batch) : nat := S (S (size f + length (puts b))).

Definition adjust (f : files) (up : bool) (h : bytes) (b : Batch) : result StorageError Batch :=
  let? (_, b) := adjust_cell (adjust_fuel f b) f up h (∅, b) in Ok b.

(** Prepares a batch and commits it: an error leaves the files alone. *)
Definition with_batch {A : Type} (f : files) (m : result StorageError (Batch * A)) :
    files * result StorageError A :=
  match m with
  | Ok (b, a) => let '(f, r) := commit f b in (f, let? _ := r in Ok a)
  | Err e => (f, Err e)
  | Panic => (f, Panic)
  end.

Definition put_cell (f : files) (c : Cell) : files * result StorageError bytes :=
  with_batch f (let? b := put_cells f [c] batch_empty in Ok (b, cell_hash c)).

Definition put_boc (f : files) (boc : BagOfCells) : files * result StorageError unit :=
  with_batch f
    (let? _ := map_err State (verify_dag boc) in
     let? b := put_cells f (snd <$> values (boc_cells boc)) batch_empty in
     Ok (b, tt)).

Definition change_root (f : files) (root : bytes) (up : bool) : files * result StorageError unit :=
  with_batch f (let? b := adjust f up root batch_empty in Ok (b, tt)).

Definition retain_cell_root (f : files) (root : bytes) := change_root f root true.
Definition release_cell_root (f : files) (root : bytes) := change_root f root false.

(** The batch of [commit_block] *)
Definition commit_block_batch (f : files) (c : BlockCommitment) : result StorageError Batch :=
  let? actual := map_err State (tree_state_root_hash (bc_state c)) in
  let expected := state_root_hash (bc_header c) in
  if negb (bool_decide (actual = expected)) then Err (RootMismatch expected actual)
  else
    let? _ := foldM (λ boc _, map_err State (verify_dag boc)) (cell_bocs c) tt in
    let? proof := map_err State (generate_proof (bc_state c) (replicate 32 Byte.x00)) in
    let? b := foldM (λ boc b, put_cells f (snd <$> values (boc_cells boc)) b) (cell_bocs c) batch_empty in
    let? b := put_cells f (snd <$> values (boc_cells (proof_boc proof))) b in
    let shard := header_shard (bc_header c) in
    let? old_root := shard_state_root f shard in
    let? old := load_shard_state f shard in
    let b := foldl (λ b a, push_remove b (file ACCOUNTS (account_key shard a))) b (tree_iter old).*1 in
    let b := foldl (λ b '(a, s), push_put b (file ACCOUNTS (account_key shard a)) (AccountState_to_bytes s))
               b (tree_iter (bc_state c)) in
    let? b := adjust f true (proof_root_hash proof) b in
    let? b := match old_root with Some root => adjust f false root b | None => Ok b end in
    let b := push_put b (file BLOCK_HEADERS (header_hash (bc_header c))) (BlockHeader_to_bytes (bc_header c)) in
    let b := push_put b (file SHARD_STATES (shard_to_bytes shard)) actual in
    Ok b.

Definition commit_block (f : files) (c : BlockCommitment) : files * result StorageError unit :=
  with_batch f (let? b := commit_block_batch f c in Ok (b, tt)).


(** ** Records *)

Lemma decode_cell_record_Ok h v n c :
  decode_cell_record h v = Ok (n, c) ↔
  in_int Uint64 n ∧ Cell_wf c ∧ cell_hash c = h ∧
  ∃ hi, 0 ≤ hi < 16 ∧ v = int_encode Uint64 n ++ cell_layout hi c.
Proof.
  unfold decode_cell_record, CELL_REFS_LEN. split.
  - intros H. destruct (_ <? _) eqn:Hl; [done|]. bool_to_prop.
    cut_bytes v 8 as b Hb. rewrite slice_app_l, rbind_ret in H by lia.
    rewrite slice_app_r, slice_all, rbind_ret in H by (autorewrite with len; lia).
    apply rbind_Ok in H as ([c' used] & Hc & H). apply map_err_Ok in Hc.
    destruct (_ || _) eqn:Hor; [done|]. bool_to_prop. autorewrite with len in *.
    injection H as <- ->. apply Cell_from_bytes_Ok in Hc as (Hwf & hi & rest & Hhi & -> & ->).
    split; [by apply from_be_bytes_range|]. split; [exact Hwf|]. split; [done|].
    exists hi. split; [done|]. rewrite int_encode_from_be_bytes by done.
    autorewrite with len in *. assert (rest = []) as -> by (apply len_0_nil; lia).
    by rewrite app_nil_r.
  - intros (Hn & Hc & Hh & hi & Hhi & ->).
    pose proof (len_nonneg (cell_layout hi c)).
    rewrite (proj2 (Z.ltb_ge _ _)) by (autorewrite with len; lia). decode_simpl.
    rewrite <-(app_nil_r (cell_layout hi c)) at 1.
    rewrite (proj2 (Cell_from_bytes_Ok (cell_layout hi c ++ []) c _)) by eauto 10. cbn [map_err].
    rewrite rbind_ret. cbv beta iota.
    rewrite (proj2 (Z.eqb_eq _ _)) by (autorewrite with len; lia).
    rewrite bool_decide_true by done. cbn [negb orb]. by rewrite from_be_bytes_encode.
Qed.

Lemma decode_encode_record n c :
  in_int Uint64 n → Cell_wf c → decode_cell_record (cell_hash c) (encode_cell_record n c) = Ok (n, c).
Proof.
  intros Hn Hc. apply decode_cell_record_Ok. split; [exact Hn|]. split; [exact Hc|]. split; [done|].
  exists 0. split; [lia|]. unfold encode_cell_record. by rewrite Cell_to_bytes_layout.
Qed.

Lemma decode_account_Ok v s : decode_account v = Ok s ↔ AccountState_wf s ∧ v = AccountState_to_bytes s.
Proof.
  unfold decode_account. split.
  - intros H. apply rbind_Ok in H as ([s' n] & Hs & H). apply map_err_Ok in Hs.
    destruct (negb _) eqn:Hn; [done|]. bool_to_prop. simplify_eq.
    pose proof Hs as Hs'. apply AccountState_from_bytes_sound in Hs' as (Hwf & rest & ->).
    rewrite AccountState_roundtrip in Hs by done. injection Hs as Hl. autorewrite with len in Hl.
    assert (rest = []) as -> by (apply len_0_nil; lia). by rewrite app_nil_r.
  - intros [Hwf ->]. rewrite <-(app_nil_r (AccountState_to_bytes s)) at 1.
    rewrite AccountState_roundtrip by done. cbn [map_err]. rewrite rbind_ret. cbv beta iota.
    by rewrite Z.eqb_refl.
Qed.

Lemma decode_account_safe v : safe (decode_account v).
Proof.
  unfold decode_account. safe_step; [apply map_err_safe, AccountState_from_bytes_safe|].
  destruct a. by case_match.
Qed.

Lemma decode_cell_record_safe h v : safe (decode_cell_record h v).
Proof.
  unfold decode_cell_record, CELL_REFS_LEN. safe_step; [done|]. bool_to_prop.
  safe_step; [apply slice_safe; lia|]. safe_step; [apply slice_safe; lia|].
  safe_step; [apply map_err_safe, Cell_from_bytes_safe|]. destruct a1. by case_match.
Qed.

(** ** The invariant of the files

    Every file is a readable record of its column family under its key. *)
Inductive valid_record (p v : bytes) : Prop :=
  | valid_cell h n c : p = file CELLS h → decode_cell_record h v = Ok (n, c) → valid_record p v
  | valid_account s a st :
      p = file ACCOUNTS (s ++ a) → len s = 12 → len a = 32 → decode_account v = Ok st → valid_record p v
  | valid_header h hd : p = file BLOCK_HEADERS h → BlockHeader_from_bytes v = Ok hd → valid_record p v
  | valid_root s : p = file SHARD_STATES s → len v = 32 → valid_record p v.

Definition store_wf (f : files) : Prop := map_Forall valid_record f.

Definition batch_valid (b : Batch) : Prop :=
  Forall (λ pv, valid_record pv.1 pv.2) (puts b) ∧ Forall good_path (removes b).

Lemma good_cell h : good_path (file CELLS h).
Proof. exists CELLS, h. split; [by left|done]. Qed.
Lemma good_account k : good_path (file ACCOUNTS k).
Proof. exists ACCOUNTS, k. split; [by right; left|done]. Qed.
Lemma good_header k : good_path (file BLOCK_HEADERS k).
Proof. exists BLOCK_HEADERS, k. split; [by do 2 right; left|done]. Qed.
Lemma good_root k : good_path (file SHARD_STATES k).
Proof. exists SHARD_STATES, k. split; [by do 3 right; left|done]. Qed.
Hint Resolve good_cell good_account good_header good_root : core.

(** Column families are told apart by their paths. *)
Lemma file_cf cf cf' k k' :
  cf ∈ COLUMN_FAMILIES → cf' ∈ COLUMN_FAMILIES → file cf k = file cf' k' → cf = cf' ∧ k = k'.
Proof. apply file_inj. Qed.

Lemma cell_path_inj h h' : file CELLS h = file CELLS h' → h = h'.
Proof. intros H. apply file_inj in H as [_ ?]; [done|by left..]. Qed.
Lemma account_path_inj h h' : file ACCOUNTS h = file ACCOUNTS h' → h = h'.
Proof. intros H. apply file_inj in H as [_ ?]; [done|by right; left..]. Qed.
Lemma header_path_inj h h' : file BLOCK_HEADERS h = file BLOCK_HEADERS h' → h = h'.
Proof. intros H. apply file_inj in H as [_ ?]; [done|by do 2 right; left..]. Qed.
Lemma root_path_inj h h' : file SHARD_STATES h = file SHARD_STATES h' → h = h'.
Proof. intros H. apply file_inj in H as [_ ?]; [done|by do 3 right; left..]. Qed.

Lemma valid_record_good p v : valid_record p v → good_path p.
Proof. intros [?????|?????|????|???]; subst; auto. Qed.

Lemma batch_valid_good b : batch_valid b → batch_good b.
Proof.
  intros [Hp Hr]. split; [done|]. eapply Forall_impl; [done|]. intros [p v] ?.
  by eapply valid_record_good.
Qed.

Lemma batch_valid_empty : batch_valid batch_empty.
Proof. split; constructor. Qed.
Lemma batch_valid_put b p v : batch_valid b → valid_record p v → batch_valid (push_put b p v).
Proof. intros [Hp Hr] Hv. split; [|done]. by apply Forall_app_2; [|constructor]. Qed.
Lemma batch_valid_remove b p : batch_valid b → good_path p → batch_valid (push_remove b p).
Proof. intros [Hp Hr] Hv. split; [done|]. by apply Forall_app_2; [|constructor]. Qed.

Lemma pending_valid b p v : batch_valid b → pending b p = Some v → valid_record p v.
Proof.
  intros [Hb _]. unfold pending. intros (pv & Hpv & ->)%fmap_Some.
  apply head_Some_elem_of in Hpv. apply list_elem_of_filter in Hpv as [<- Hpv].
  apply list_elem_of_In, in_rev, list_elem_of_In in Hpv.
  rewrite Forall_forall in Hb. by apply Hb.
Qed.

Lemma apply_entries_good es : ∀ f,
  Forall (λ e, good_path (entry_path e)) es → map_Forall (λ p _, good_path p) f →
  map_Forall (λ p _, good_path p) (apply_entries f es).
Proof.
  induction es as [|e es IH]; intros f He Hf; [done|]. inversion_clear He as [|? ? Hg Hes].
  apply (IH (apply_entry f e) Hes). destruct e as [p|p v]; cbn in *.
  - by apply map_Forall_delete.
  - apply map_Forall_insert_2; [done|]. by apply map_Forall_delete.
Qed.

Lemma store_wf_good f : store_wf f → map_Forall (λ p _, good_path p) f.
Proof. intros Hf p v Hp. eapply valid_record_good, Hf, Hp. Qed.

Lemma store_wf_clean f : store_wf f → f !! JOURNAL = None.
Proof.
  intros Hf. destruct (f !! JOURNAL) as [v|] eqn:Hj; [|done].
  exfalso. by apply (journal_not_good JOURNAL (store_wf_good f Hf _ _ Hj)).
Qed.

(** What a valid batch commits is again a store of valid records. *)
Lemma commit_wf f b : store_wf f → batch_valid b → store_wf (committed f b).
Proof.
  intros Hf Hb p v Hp. pose proof (batch_valid_good b Hb) as Hg.
  assert (good_path p) as Hgp.
  { eapply (apply_entries_good (entries b) (delete JOURNAL f)); [by apply batch_good_entries| |exact Hp].
    by apply map_Forall_delete, store_wf_good. }
  rewrite committed_lookup in Hp by done. destruct (pending b p) as [w|] eqn:Hpend.
  - simplify_eq. by eapply pending_valid.
  - destruct (decide _); [done|]. by apply Hf.
Qed.

(** ** The steps that build a batch *)

Lemma cell_record_valid n c : in_int Uint64 n → Cell_wf c → valid_record (file CELLS (cell_hash c)) (encode_cell_record n c).
Proof. intros. eapply valid_cell; [done|]. by apply decode_encode_record. Qed.

Lemma put_cell_batch_valid f c b b' :
  Cell_wf c → batch_valid b → put_cell_batch f c b = Ok b' → batch_valid b'.
Proof.
  intros Hc Hb. unfold put_cell_batch. destruct (storage_read _ _ _) as [v|].
  - intros H. apply rbind_Ok in H as ([n old] & _ & H). case_match; [done|]. by simplify_eq.
  - intros [= <-]. apply batch_valid_put; [done|]. apply cell_record_valid; [|done].
    rewrite in_int_u64. unfold in_u. lia.
Qed.

Lemma put_cells_valid f cs b b' :
  Forall Cell_wf cs → batch_valid b → put_cells f cs b = Ok b' → batch_valid b'.
Proof.
  intros Hcs Hb H. apply (foldM_inv (λ l b, Forall Cell_wf l ∧ batch_valid b) (put_cell_batch f)) in H;
    [naive_solver| |done].
  intros c l t t' [Hl Ht] Hstep. inversion_clear Hl. eauto using put_cell_batch_valid.
Qed.

(** A record that is read, from the batch or the disk, is a cell's. *)
Lemma decode_found h v n c :
  decode_cell_record h v = Ok (n, c) → in_int Uint64 n ∧ Cell_wf c ∧ h = cell_hash c.
Proof. intros (? & ? & <- & _)%decode_cell_record_Ok. done. Qed.

Lemma adjust_cell_valid f up fuel : ∀ h st st',
  batch_valid st.2 → adjust_cell fuel f up h st = Ok st' → batch_valid st'.2.
Proof.
  induction fuel as [|fuel IH]; intros h [seen b] st' Hb H; [done|]. cbn [adjust_cell] in H.
  case_bool_decide; [by simplify_eq|]. cbv zeta in H.
  apply rbind_Ok in H as (v & _ & H). apply rbind_Ok in H as ([n c] & Hd & H).
  apply decode_found in Hd as (Hn & Hc & ->).
  assert (∀ l st, foldM (λ child st, adjust_cell fuel f up child st) l st = Ok st' →
    batch_valid st.2 → batch_valid st'.2) as Hfold.
  { intros l st Hl Hst. apply (foldM_inv (λ _ st, batch_valid st.2)) in Hl; [done| |done].
    intros x k t t' Ht. by apply IH. }
  destruct up.
  - apply rbind_Ok in H as (n' & Hn' & H). apply ok_or_Ok, checked_add_u_Some in Hn' as [-> Hlt].
    eapply Hfold; [exact H|]. apply batch_valid_put; [done|]. apply cell_record_valid; [|done].
    rewrite in_int_u64 in *. unfold in_u in *. lia.
  - case_match; [done|]. bool_to_prop. case_match; bool_to_prop.
    + eapply Hfold; [exact H|]. apply batch_valid_remove; auto.
    + simplify_eq. apply batch_valid_put; [done|]. apply cell_record_valid; [|done].
      rewrite in_int_u64 in *. unfold in_u in *. lia.
Qed.

Lemma adjust_valid f up h b b' : batch_valid b → adjust f up h b = Ok b' → batch_valid b'.
Proof.
  intros Hb H. apply rbind_Ok in H as ([seen b2] & H & [= <-]).
  exact (adjust_cell_valid f up _ _ (∅, b) (seen, b2) Hb H).
Qed.

(** *** The recursion ends

    Each hash is entered once, and only if it has a record. *)
Definition seen_paths (seen : gset bytes) : gset bytes := set_map (file CELLS) seen.

Definition puts_in (P : gset bytes) (b : Batch) : Prop := Forall (λ pv, pv.1 ∈ P) (puts b).

Lemma pending_in P b p v : puts_in P b → pending b p = Some v → p ∈ P.
Proof.
  intros Hb. unfold pending. intros (pv & Hpv & ->)%fmap_Some.
  apply head_Some_elem_of in Hpv. apply list_elem_of_filter in Hpv as [<- Hpv].
  apply list_elem_of_In, in_rev, list_elem_of_In in Hpv. unfold puts_in in Hb.
  rewrite Forall_forall in Hb. by apply Hb.
Qed.

Lemma visit_smaller P seen h :
  file CELLS h ∈ P → h ∉ seen →
  (size (P ∖ seen_paths ({[h]} ∪ seen)) < size (P ∖ seen_paths seen))%nat.
Proof.
  intros HP Hh. apply subset_size. split.
  - intros q. unfold seen_paths. set_solver.
  - intros Hsub. assert (file CELLS h ∈ P ∖ seen_paths seen) as Hin.
    { apply elem_of_difference. split; [done|]. unfold seen_paths.
      intros (h' & He & Hs)%elem_of_map. apply cell_path_inj in He as ->. done. }
    apply Hsub in Hin. apply elem_of_difference in Hin as [_ Hin]. apply Hin.
    unfold seen_paths. apply elem_of_map. set_solver.
Qed.

Definition adjust_state_ok (P : gset bytes) (fuel : nat) (st : gset bytes * Batch) : Prop :=
  puts_in P st.2 ∧ (size (P ∖ seen_paths st.1) < fuel)%nat.

Lemma seen_paths_mono seen seen' : seen ⊆ seen' → seen_paths seen ⊆ seen_paths seen'.
Proof. unfold seen_paths. set_solver. Qed.

(** The loop over the children, when each visit ends well *)
Lemma adjust_children_end f up P fuel l :
  (∀ h st, adjust_state_ok P fuel st →
    safe (adjust_cell fuel f up h st) ∧
    (∀ st', adjust_cell fuel f up h st = Ok st' → st.1 ⊆ st'.1 ∧ puts_in P st'.2)) →
  ∀ st, adjust_state_ok P fuel st →
    safe (foldM (λ child st, adjust_cell fuel f up child st) l st) ∧
    (∀ st', foldM (λ child st, adjust_cell fuel f up child st) l st = Ok st' →
       st.1 ⊆ st'.1 ∧ puts_in P st'.2).
Proof.
  clear listing values.
  intros IH. assert (∀ st st1 : gset bytes * Batch, adjust_state_ok P fuel st → st.1 ⊆ st1.1 → puts_in P st1.2 →
    adjust_state_ok P fuel st1) as Hmono.
  { intros st st1 [_ Hlt] Hsub Hp. split; [done|]. eapply Nat.le_lt_trans; [|exact Hlt].
    apply subseteq_size. pose proof (seen_paths_mono _ _ Hsub). set_solver. }
  induction l as [|x l IHl]; intros st Hst; cbn [foldM].
  { split; [done|]. intros st' [= <-]. split; [done|apply Hst]. }
  destruct (IH x st Hst) as [Hs Hok]. split.
  - apply rbind_safe; [done|]. intros st1 H1. destruct (Hok st1 H1) as [Hsub Hp]. apply IHl. by eapply Hmono.
  - intros st' (st1 & H1 & H2)%rbind_Ok. destruct (Hok st1 H1) as [Hsub Hp].
    destruct (IHl st1) as [_ Hl]; [by eapply Hmono|]. destruct (Hl st' H2). split; [by etrans|done].
Qed.

Lemma adjust_cell_ends f up P fuel : ∀ h st,
  dom f ⊆ P → adjust_state_ok P fuel st →
  safe (adjust_cell fuel f up h st) ∧
  (∀ st', adjust_cell fuel f up h st = Ok st' → st.1 ⊆ st'.1 ∧ puts_in P st'.2).
Proof.
  clear listing values.
  induction fuel as [|fuel IH]; intros h [seen b] HP [Hb Hf]; [cbn in Hf; lia|]. cbn [fst snd] in *.
  pose proof (λ l, adjust_children_end f up P fuel l (λ h st, IH h st HP)) as Hfold.
  cbn [adjust_cell]. case_bool_decide as Hseen.
  { split; [done|]. by intros st' [= <-]. }
  cbv zeta.
  destruct (match pending b (file CELLS h) with Some v => Some v | None => storage_read f CELLS h end)
    as [v|] eqn:Hv; [|by split].
  assert (file CELLS h ∈ P) as HhP.
  { destruct (pending b _) as [w|] eqn:Hpend; [by eapply pending_in|].
    apply HP, elem_of_dom. by exists v. }
  cbn [ok_or]. rewrite rbind_ret.
  pose proof (visit_smaller P seen h HhP Hseen) as Hlt.
  assert (∀ w, puts_in P (push_put b (file CELLS h) w)) as Hput.
  { intros w. apply Forall_app_2; [done|]. by constructor. }
  destruct (decode_cell_record h v) as [[n c]|e|] eqn:Hd;
    [|by split|by pose proof (decode_cell_record_safe h v)].
  rewrite rbind_ret. cbv beta iota.
  assert (∀ b', puts_in P b' → adjust_state_ok P fuel ({[h]} ∪ seen, b')) as Hst.
  { intros b' Hb'. split; [done|]. cbn [fst]. lia. }
  destruct up.
  - destruct (checked_add_u 64 n 1) as [n'|]; [|by split]. cbn [ok_or]. rewrite rbind_ret.
    destruct (Hfold (cell_refs c) _ (Hst _ (Hput (encode_cell_record n' c)))) as [Hs Hok].
    split; [done|]. intros st' H. destruct (Hok st' H) as [Hsub ?]. split; [|done].
    etrans; [|exact Hsub]. apply union_subseteq_r.
  - destruct (n =? 0); [by split|]. destruct (n =? 1).
    + destruct (Hfold (cell_refs c) ({[h]} ∪ seen, push_remove b (file CELLS h)) (Hst _ Hb)) as [Hs Hok].
      split; [done|]. intros st' H'. destruct (Hok st' H') as [Hsub ?]. split; [|done].
      etrans; [|exact Hsub]. apply union_subseteq_r.
    + split; [done|]. intros st' [= <-]. split; [apply union_subseteq_r|apply Hput].
Qed.

Lemma adjust_safe f up h b : safe (adjust f up h b).
Proof.
  clear listing values.
  unfold adjust. apply rbind_safe; [|by intros []].
  apply (adjust_cell_ends f up (dom f ∪ list_to_set (puts b).*1)); [set_solver|].
  split; cbn [fst snd].
  - apply Forall_forall. intros [p v] Hp. apply elem_of_union_r, elem_of_list_to_set.
    by apply (list_elem_of_fmap_2 fst) in Hp.
  - unfold adjust_fuel. assert (∀ l : list bytes, (size (list_to_set l : gset bytes) ≤ length l)%nat) as Hl.
    { induction l as [|x l IH]; cbn [list_to_set length]; [done|].
      rewrite size_union_alt, size_singleton.
      assert (size (list_to_set l ∖ {[x]} : gset bytes) ≤ size (list_to_set l : gset bytes))%nat
        by (apply subseteq_size; set_solver). lia. }
    specialize (Hl (puts b).*1). rewrite length_fmap in Hl.
    set (X := dom f). set (Y := list_to_set (puts b).*1 : gset bytes) in *.
    assert (size ((X ∪ Y) ∖ seen_paths ∅) ≤ size (X ∪ Y))%nat by (apply subseteq_size; set_solver).
    pose proof (size_union_alt X Y).
    assert (size (Y ∖ X) ≤ size Y)%nat by (apply subseteq_size; set_solver).
    assert (size X = size f) by apply size_dom. lia.
Qed.

(** ** Reading the accounts of a shard *)

Lemma hex_app u v : hex (u ++ v) = hex u ++ hex v.
Proof. unfold hex. by rewrite fmap_app, concat_app. Qed.

Lemma strip_dir_Some cf p name :
  strip_dir cf p = Some name ↔ p = cf ++ [Byte.x2f] ++ name.
Proof.
  unfold strip_dir. rewrite app_assoc. case_bool_decide as H.
  - rewrite <-(take_drop (length (cf ++ [Byte.x2f])) p) at 2. rewrite H. split.
    + by intros [= ->].
    + intros Hp%(inj (_ ++.)). by rewrite Hp.
  - split; [done|]. intros ->. by rewrite take_app_length in H.
Qed.

(** An entry of the directory of accounts, as the invariant has it *)
Definition account_entry (e : bytes * bytes) : Prop :=
  ∃ s a st, e.1 = hex (s ++ a) ∧ len s = 12 ∧ len a = 32 ∧ decode_account e.2 = Ok st.

Lemma load_entry_match sb e t :
  len sb = 12 → account_entry e →
  (∃ a st, e.1 = hex (sb ++ a) ∧ len a = 32 ∧ decode_account e.2 = Ok st ∧
     load_entry (hex sb) e t = Ok (<[ a := st ]> t)) ∨
  ((∀ a, e.1 ≠ hex (sb ++ a)) ∧ load_entry (hex sb) e t = Ok t).
Proof.
  intros Hsb (s & a & st & Hn & Hs & Ha & Hd). destruct e as [name v]. cbn [fst snd] in *.
  subst name. unfold load_entry. rewrite hex_app.
  assert (length (hex sb) = length (hex s)) as Hl.
  { pose proof (hex_len sb). pose proof (hex_len s). unfold len in *. lia. }
  rewrite Hl, take_app_length. case_bool_decide as He.
  - apply (inj hex) in He as ->. left. exists a, st. rewrite <-hex_app, unhex_hex, rbind_ret.
    rewrite (proj2 (Z.eqb_eq _ 44)) by (autorewrite with len; lia). cbn [negb].
    split_and!; [done..|]. rewrite slice_app_r by lia.
    rewrite slice_all by (autorewrite with len; lia). by rewrite rbind_ret, Hd, rbind_ret.
  - right. split; [|done]. intros a' H. rewrite hex_app in H.
    apply app_inj_1 in H as [H _]; [|lia]. by apply He.
Qed.

Lemma load_entries sb l : ∀ t,
  len sb = 12 → Forall account_entry l → NoDup l.*1 →
  ∃ t', foldM (load_entry (hex sb)) l t = Ok t' ∧
    ∀ a st, len a = 32 → t' !! a = Some st ↔
      (∃ v, (hex (sb ++ a), v) ∈ l ∧ decode_account v = Ok st) ∨
      (t !! a = Some st ∧ hex (sb ++ a) ∉ l.*1).
Proof.
  intros t Hsb Hl Hnd. revert t. induction Hl as [|[name v] l He _ IH]; intros t; cbn [foldM].
  { exists t. split; [done|]. intros a st _. split; [right; split; [done|apply not_elem_of_nil]|].
    by intros [(v & Hv%elem_of_nil & _)|[? _]]. }
  cbn [fmap list_fmap fst] in Hnd. apply NoDup_cons in Hnd as [Hni Hnd].
  destruct (load_entry_match sb (name, v) t Hsb He) as [(a & st & Hn & Ha & Hd & ->)|[Hn ->]];
    rewrite rbind_ret; cbn [fst snd] in *.
  - subst name. destruct (IH Hnd (<[ a := st ]> t)) as (t' & -> & Hspec). exists t'. split; [done|].
    intros a' st' Ha'. rewrite Hspec by done. cbn [fmap list_fmap fst].
    destruct (decide (a' = a)) as [->|Hne].
    + rewrite lookup_insert_eq. split.
      * intros [(w & Hw & _)|[[= <-] _]].
        { by apply (list_elem_of_fmap_2 fst) in Hw. }
        left. exists v. split; [by left|done].
      * intros [(w & [[= <-]|Hw]%elem_of_cons & Hdw)|[_ Hno]].
        { right. split; [congruence|done]. }
        { by apply (list_elem_of_fmap_2 fst) in Hw. }
        by destruct Hno; left.
    + rewrite lookup_insert_ne by done. assert (hex (sb ++ a') ≠ hex (sb ++ a)) as Hh.
      { by intros ?%(inj hex)%(inj (sb ++.)). }
      split; [intros [(w & Hw & ?)|[? Hno]]|intros [(w & Hw & ?)|[? Hno]]].
      * left. exists w. split; [by right|done].
      * right. split; [done|]. by intros [?|?]%elem_of_cons.
      * left. exists w. split; [|done]. by apply elem_of_cons in Hw as [[= ? _]|?].
      * right. split; [done|]. intros ?. apply Hno. by right.
  - destruct (IH Hnd t) as (t' & -> & Hspec). exists t'. split; [done|].
    intros a' st' Ha'. rewrite Hspec by done. cbn [fmap list_fmap fst].
    split; [intros [(w & Hw & ?)|[? Hno]]|intros [(w & Hw & ?)|[? Hno]]].
    + left. exists w. split; [by right|done].
    + right. split; [done|]. intros [He'|?]%elem_of_cons; [|done]. by apply (Hn a').
    + left. exists w. split; [|done]. apply elem_of_cons in Hw as [[= <- _]|?]; [|done].
      by destruct (Hn a').
    + right. split; [done|]. intros ?. apply Hno. by right.
Qed.

Context (Hlisting : ∀ f : files, listing f ≡ₚ map_to_list f).

Lemma elem_of_read_dir f cf name v :
  (name, v) ∈ read_dir f cf ↔ f !! (cf ++ [Byte.x2f] ++ name) = Some v.
Proof.
  unfold read_dir. rewrite list_elem_of_omap. split.
  - intros ([p w] & Hp & H). rewrite Hlisting in Hp. apply elem_of_map_to_list in Hp.
    apply fmap_Some in H as (nm & Hs & [= -> ->]). apply strip_dir_Some in Hs as ->. done.
  - intros H. exists (cf ++ [Byte.x2f] ++ name, v). rewrite Hlisting, elem_of_map_to_list.
    split; [done|]. by rewrite (proj2 (strip_dir_Some cf _ name) eq_refl).
Qed.

Lemma read_dir_NoDup f cf : NoDup (read_dir f cf).*1.
Proof.
  assert (∀ l : list (bytes * bytes), NoDup l.*1 →
    NoDup (omap (λ '(p, v), (λ name, (name, v)) <$> strip_dir cf p) l).*1) as H.
  { induction l as [|[p v] l IH]; intros Hl; [constructor|].
    cbn [fmap list_fmap fst] in Hl. apply NoDup_cons in Hl as [Hni Hl]. cbn [omap list_omap].
    destruct (strip_dir cf p) as [name|] eqn:Hs; cbn [fmap option_fmap option_map]; [|by apply IH].
    cbn [fmap list_fmap fst]. apply NoDup_cons. split; [|by apply IH].
    intros Hin. apply list_elem_of_fmap in Hin as ([nm w] & [= ->] & Hin).
    apply list_elem_of_omap in Hin as ([q u] & Hq & Hsome).
    apply fmap_Some in Hsome as (nm' & Hs' & [= -> ->]). apply strip_dir_Some in Hs, Hs'. subst.
    apply Hni. by apply (list_elem_of_fmap_2 fst) in Hq. }
  apply H. rewrite Hlisting. apply NoDup_fst_map_to_list.
Qed.

(** Loading a shard never fails on a store of valid records, and finds exactly
    the account files of that shard. *)
Lemma load_shard_state_spec f shard :
  store_wf f →
  ∃ t, load_shard_state f shard = Ok t ∧ map_Forall (λ a _, len a = 32) t ∧
    ∀ a st, len a = 32 → t !! a = Some st ↔
      ∃ v, f !! file ACCOUNTS (account_key shard a) = Some v ∧ decode_account v = Ok st.
Proof.
  intros Hf. unfold load_shard_state. cbv zeta.
  assert (Forall account_entry (read_dir f ACCOUNTS)) as Hall.
  { apply Forall_forall. intros [name v] Hin. apply elem_of_read_dir in Hin.
    destruct (Hf _ _ Hin) as [h n c He|s a st He Hs Ha Hd|h hd He|s He].
    - apply (f_equal (split_once Byte.x2f)) in He. discriminate He.
    - exists s, a, st. cbn [fst snd]. split_and!; [|done..].
      unfold file in He. by apply (inj (ACCOUNTS ++.)), (inj ([Byte.x2f] ++.)) in He.
    - apply (f_equal (split_once Byte.x2f)) in He. discriminate He.
    - apply (f_equal (split_once Byte.x2f)) in He. discriminate He. }
  destruct (load_entries (shard_to_bytes shard) (read_dir f ACCOUNTS) ∅
    (shard_to_bytes_len shard) Hall (read_dir_NoDup f ACCOUNTS)) as (t & Ht & Hspec).
  exists t. split; [done|]. split.
  - apply (foldM_inv (λ l t, Forall account_entry l ∧ map_Forall (λ a _, len a = 32) t)) in Ht as [_ ?];
      [done| |split; [done|apply map_Forall_empty]].
    intros e l u u' [He Hu] Hstep. inversion_clear He as [|? ? Hent Hl]. split; [done|].
    destruct (load_entry_match _ e u (shard_to_bytes_len shard) Hent)
      as [(a & st & _ & Ha & _ & Heq)|[_ Heq]]; rewrite Heq in Hstep; simplify_eq; [|done].
    by apply map_Forall_insert_2.
  - intros a st Ha. rewrite (Hspec a st Ha). unfold file, account_key, account_to_bytes, uint256_encode.
    split.
    + intros [(v & Hv & Hd)|[[=] _]]. apply elem_of_read_dir in Hv. eauto.
    + intros (v & Hv & Hd). left. exists v. by rewrite elem_of_read_dir.
Qed.

(** ** What the steps of a batch leave of other paths *)

Definition off_cells (b b' : Batch) : Prop := ∀ p, (∀ h, p ≠ file CELLS h) →
  pending b' p = pending b p ∧ (p ∈ removes b' ↔ p ∈ removes b).

Lemma off_cells_refl b : off_cells b b.
Proof. by intros p _. Qed.
Lemma off_cells_trans b1 b2 b3 : off_cells b1 b2 → off_cells b2 b3 → off_cells b1 b3.
Proof. intros H1 H2 p Hp. destruct (H1 p Hp), (H2 p Hp). split; [congruence|tauto]. Qed.
Lemma off_cells_put b h v : off_cells b (push_put b (file CELLS h) v).
Proof. intros p Hp. rewrite pending_push_put, decide_False by (by intros ->%eq_sym; eapply Hp). done. Qed.
Lemma off_cells_remove b h : off_cells b (push_remove b (file CELLS h)).
Proof.
  intros p Hp. split; [done|]. cbn [removes push_remove].
  rewrite elem_of_app, list_elem_of_singleton. naive_solver.
Qed.
Hint Resolve off_cells_refl off_cells_put off_cells_remove : core.

Lemma foldM_off {X S} (g : X → S → result StorageError S) (π : S → Batch) l s s' :
  (∀ x t t', g x t = Ok t' → off_cells (π t) (π t')) → foldM g l s = Ok s' → off_cells (π s) (π s').
Proof.
  intros Hg H. apply (foldM_inv (λ _ t, off_cells (π s) (π t))) in H; [done| |done].
  intros x k t t' Ht Hstep. eauto using off_cells_trans.
Qed.

Lemma put_cells_off f cs b b' : put_cells f cs b = Ok b' → off_cells b b'.
Proof.
  apply (foldM_off _ (λ b, b)). intros c t t'. unfold put_cell_batch.
  destruct (storage_read _ _ _) as [v|].
  - intros H. apply rbind_Ok in H as ([n old] & _ & H). case_match; [done|]. by simplify_eq.
  - intros [= <-]. apply off_cells_put.
Qed.

Lemma adjust_cell_off f up fuel : ∀ h st st',
  adjust_cell fuel f up h st = Ok st' → off_cells st.2 st'.2.
Proof.
  induction fuel as [|fuel IH]; intros h [seen b] st' H; [done|]. cbn [adjust_cell] in H.
  case_bool_decide; [by simplify_eq|]. cbv zeta in H.
  apply rbind_Ok in H as (v & _ & H). apply rbind_Ok in H as ([n c] & _ & H).
  assert (∀ l st, foldM (λ child st, adjust_cell fuel f up child st) l st = Ok st' →
    off_cells st.2 st'.2) as Hfold.
  { intros l st. apply (foldM_off _ snd). intros x t t'. apply IH. }
  cbn [snd]. destruct up.
  - apply rbind_Ok in H as (n' & _ & H). eapply off_cells_trans; [apply off_cells_put|].
    exact (Hfold _ _ H).
  - destruct (n =? 0); [done|]. destruct (n =? 1).
    + eapply off_cells_trans; [apply off_cells_remove|]. exact (Hfold _ _ H).
    + simplify_eq. apply off_cells_put.
Qed.

Lemma adjust_off f up h b b' : adjust f up h b = Ok b' → off_cells b b'.
Proof.
  intros H. apply rbind_Ok in H as ([seen b2] & H & [= <-]).
  exact (adjust_cell_off f up _ _ _ _ H).
Qed.

(** The two loops over accounts *)
Lemma push_removes b (l : list bytes) (g : bytes → bytes) :
  foldl (λ b a, push_remove b (g a)) b l = {| puts := puts b; removes := removes b ++ (g <$> l) |}.
Proof.
  revert b. induction l as [|a l IH]; intros b; cbn [foldl fmap list_fmap].
  { rewrite app_nil_r. by destruct b. }
  rewrite IH. cbn [push_remove puts removes]. by rewrite <-app_assoc.
Qed.

Lemma push_puts (l : list (bytes * AccountState)) (g : bytes → bytes) `{!Inj (=) (=) g} : ∀ b,
  NoDup l.*1 →
  let b' := foldl (λ b '(a, s), push_put b (g a) (AccountState_to_bytes s)) b l in
  removes b' = removes b ∧
  (∀ a s, (a, s) ∈ l → pending b' (g a) = Some (AccountState_to_bytes s)) ∧
  (∀ p, (∀ a, a ∈ l.*1 → p ≠ g a) → pending b' p = pending b p).
Proof.
  induction l as [|[a s] l IH]; intros b Hnd; cbv zeta; cbn [foldl].
  { split_and!; [done|by intros a s ?%elem_of_nil|done]. }
  cbn [fmap list_fmap fst] in Hnd. apply NoDup_cons in Hnd as [Hni Hnd].
  destruct (IH (push_put b (g a) (AccountState_to_bytes s)) Hnd) as (Hr & Hin & Hout). split_and!.
  - by rewrite Hr.
  - intros a' s' [[= -> ->]|H]%elem_of_cons; [|by apply Hin].
    rewrite Hout; [by rewrite pending_push_put, decide_True|].
    intros a' Ha' ->%(inj g). done.
  - intros p Hp. rewrite Hout; [|intros a' Ha'; apply Hp; by right].
    rewrite pending_push_put, decide_False; [done|]. apply not_eq_sym, Hp. by left.
Qed.

Lemma tree_iter_elem (t : tree_accounts) a s : (a, s) ∈ tree_iter t ↔ t !! a = Some s.
Proof. unfold tree_iter. by rewrite merge_sort_Permutation, elem_of_map_to_list. Qed.

Lemma tree_iter_keys (t : tree_accounts) a : a ∈ (tree_iter t).*1 ↔ is_Some (t !! a).
Proof.
  rewrite list_elem_of_fmap. split.
  - intros ([a' s] & -> & H). apply tree_iter_elem in H. eauto.
  - intros [s H]. exists (a, s). by rewrite tree_iter_elem.
Qed.

Lemma tree_iter_NoDup (t : tree_accounts) : NoDup (tree_iter t).*1.
Proof. unfold tree_iter. rewrite merge_sort_Permutation. apply NoDup_fst_map_to_list. Qed.

Lemma account_key_inj s a s' a' : account_key s a = account_key s' a' → shard_to_bytes s = shard_to_bytes s' ∧ a = a'.
Proof. intros H. apply app_inj_len in H; [done|]. by rewrite !shard_to_bytes_len. Qed.

Context `{!CryptoLaws C}.

(** The cells of a proof *)
Lemma generate_proof_eq t k rc m :
  build_tree t = Ok (rc, m) →
  generate_proof t k = rbind (boc_new (cell_hash rc) m) (λ boc,
    Ok {| magic_bytes := MERKLE_PROOF_MAGIC; target_key := k;
          proof_root_hash := cell_hash rc; proof_boc := boc |}).
Proof. intros Hb. unfold generate_proof. rewrite Hb. reflexivity. Qed.

Lemma generate_proof_cells t k p :
  tree_wf t → generate_proof t k = Ok p →
  cells_valid (boc_cells (proof_boc p)) ∧ tree_state_root_hash t = Ok (proof_root_hash p) ∧
  boc_root_hash (proof_boc p) = proof_root_hash p ∧
  is_Some (boc_cells (proof_boc p) !! proof_root_hash p).
Proof.
  intros Ht H. destruct (build_tree_spec t Ht) as (m & Hb & Hm & Hroot).
  pose proof (tree_state_root_hash_Ok t Ht) as Hs. rewrite (generate_proof_eq _ _ _ _ Hb) in H.
  apply rbind_Ok in H as (boc & Hboc & H). apply (inj Ok) in H as <-.
  apply boc_new_Ok in Hboc as (-> & Hr & _).
  cbn [proof_boc proof_root_hash boc_cells boc_root_hash].
  exact (conj Hm (conj Hs (conj eq_refl Hr))).
Qed.

(** ** Block commitments *)

Definition commitment_wf (c : BlockCommitment) : Prop :=
  tree_wf (bc_state c) ∧ BlockHeader_wf (bc_header c) ∧
  Forall (λ boc, map_Forall (λ _ cell, Cell_wf cell) (boc_cells boc)) (cell_bocs c).

Context (Hvalues : ∀ m : gmap bytes Cell, values m ≡ₚ map_to_list m).

Lemma values_wf (m : gmap bytes Cell) :
  map_Forall (λ _ cell, Cell_wf cell) m → Forall Cell_wf (snd <$> values m).
Proof.
  intros Hm. apply Forall_fmap, Forall_forall. intros [h c] H. rewrite Hvalues in H.
  apply elem_of_map_to_list in H. by eapply Hm.
Qed.

(** What the cell steps of a commitment do *)
Lemma put_bocs_spec f bocs b b' :
  Forall (λ boc, map_Forall (λ _ cell, Cell_wf cell) (boc_cells boc)) bocs → batch_valid b →
  foldM (λ boc b, put_cells f (snd <$> values (boc_cells boc)) b) bocs b = Ok b' →
  batch_valid b' ∧ off_cells b b'.
Proof.
  intros Hb Hv H. split; [|by eapply (foldM_off _ (λ b, b)); [|exact H]; intros ???; apply put_cells_off].
  apply (foldM_inv (λ l b, Forall (λ boc, map_Forall (λ _ cell, Cell_wf cell) (boc_cells boc)) l ∧ batch_valid b))
    in H as [_ ?]; [done| |done].
  intros boc l t t' [Hl Ht] Hstep. inversion_clear Hl. split; [done|].
  eapply put_cells_valid; [|exact Ht|exact Hstep]. by apply values_wf.
Qed.

#[local] Opaque build_tree generate_proof tree_state_root_hash.

Lemma not_cell cf k h : cf ∈ COLUMN_FAMILIES → cf ≠ CELLS → file cf k ≠ file CELLS h.
Proof. intros Hcf Hne He. apply file_inj in He as [? _]; [done|done|by left]. Qed.

Lemma account_not_cell k h : file ACCOUNTS k ≠ file CELLS h.
Proof. apply not_cell; [by right; left|done]. Qed.
Lemma header_not_cell k h : file BLOCK_HEADERS k ≠ file CELLS h.
Proof. apply not_cell; [by do 2 right; left|done]. Qed.
Lemma root_not_cell k h : file SHARD_STATES k ≠ file CELLS h.
Proof. apply not_cell; [by do 3 right; left|done]. Qed.
Lemma account_not_header k h : file ACCOUNTS k ≠ file BLOCK_HEADERS h.
Proof. intros He. apply file_inj in He as [? _]; [done|by right; left|by do 2 right; left]. Qed.
Lemma account_not_root k h : file ACCOUNTS k ≠ file SHARD_STATES h.
Proof. intros He. apply file_inj in He as [? _]; [done|by right; left|by do 3 right; left]. Qed.
Lemma header_not_root k h : file BLOCK_HEADERS k ≠ file SHARD_STATES h.
Proof. intros He. apply file_inj in He as [? _]; [done|by do 2 right; left|by do 3 right; left]. Qed.

Lemma foldM_push_valid (l : list (bytes * AccountState)) shard b :
  Forall (λ e, len e.1 = 32 ∧ AccountState_wf e.2) l → batch_valid b →
  batch_valid (foldl (λ b '(a, s), push_put b (file ACCOUNTS (account_key shard a)) (AccountState_to_bytes s)) b l).
Proof.
  intros Hl. revert b. induction Hl as [|[a s] l [Ha Hs] _ IH]; intros b Hb; [done|]. cbn [foldl].
  apply IH, batch_valid_put; [done|].
  apply (valid_account _ _ (shard_to_bytes shard) a s); [done|apply shard_to_bytes_len|done|].
  by apply decode_account_Ok.
Qed.

(** The two loops over the accounts of a shard, from a batch that only touches
    cells: what they say of every other path *)
Definition replace_accounts (shard : ShardIdent) (old t : tree_accounts) (b : Batch) : Batch :=
  foldl (λ b '(a, s), push_put b (file ACCOUNTS (account_key shard a)) (AccountState_to_bytes s))
    (foldl (λ b a, push_remove b (file ACCOUNTS (account_key shard a))) b (tree_iter old).*1) (tree_iter t).

Lemma replace_accounts_spec shard old t b :
  off_cells batch_empty b →
  (∀ a s, t !! a = Some s →
     pending (replace_accounts shard old t b) (file ACCOUNTS (account_key shard a)) = Some (AccountState_to_bytes s)) ∧
  (∀ p, (∀ h, p ≠ file CELLS h) → (∀ a, is_Some (t !! a) → p ≠ file ACCOUNTS (account_key shard a)) →
     pending (replace_accounts shard old t b) p = None) ∧
  (∀ p, (∀ h, p ≠ file CELLS h) →
     p ∈ removes (replace_accounts shard old t b) ↔ ∃ a, is_Some (old !! a) ∧ p = file ACCOUNTS (account_key shard a)).
Proof.
  intros Hoff. unfold replace_accounts. rewrite push_removes. set (b1 := {| puts := puts b; removes := _ |}).
  assert (Inj (=) (=) (λ a, file ACCOUNTS (account_key shard a))) as Hinj.
  { intros a a' He. apply account_path_inj, account_key_inj in He. apply He. }
  destruct (push_puts (tree_iter t) (λ a, file ACCOUNTS (account_key shard a)) b1 (tree_iter_NoDup _))
    as (Hr & Hin & Hout).
  split_and!.
  - intros a s Hs. by apply Hin, tree_iter_elem.
  - intros p Hp Ha. rewrite Hout; [by apply (proj1 (Hoff p Hp))|]. intros a Hk. by apply Ha, tree_iter_keys.
  - intros p Hp. rewrite Hr. unfold b1. cbn [removes]. rewrite elem_of_app, list_elem_of_fmap.
    setoid_rewrite tree_iter_keys. rewrite (proj2 (Hoff p Hp)). cbn [removes batch_empty].
    split; [intros [?%elem_of_nil|(a & -> & Ha)]; [done|eauto]|intros (a & Ha & ->); right; eauto].
Qed.

Lemma replace_accounts_valid shard old t b : tree_wf t → batch_valid b → batch_valid (replace_accounts shard old t b).
Proof.
  intros Ht Hb. unfold replace_accounts. rewrite push_removes. apply foldM_push_valid.
  - apply Forall_forall. intros [a s] Has. apply tree_iter_elem in Has. by apply (Ht a s).
  - split; [apply Hb|]. cbn [removes]. apply Forall_app. split; [apply Hb|].
    apply Forall_fmap, Forall_forall. intros a _. apply good_account.
Qed.

(** The batch of a commitment: changes of cells, then of accounts, then of cells,
    then the header and the root *)
Lemma commit_block_batch_parts f c b :
  store_wf f → commitment_wf c → commit_block_batch f c = Ok b →
  let shard := header_shard (bc_header c) in
  tree_state_root_hash (bc_state c) = Ok (state_root_hash (bc_header c)) ∧
  ∃ old b2 b6, load_shard_state f shard = Ok old ∧ off_cells batch_empty b2 ∧
    off_cells (replace_accounts shard old (bc_state c) b2) b6 ∧ batch_valid b6 ∧
    b = push_put (push_put b6 (file BLOCK_HEADERS (header_hash (bc_header c))) (BlockHeader_to_bytes (bc_header c)))
          (file SHARD_STATES (shard_to_bytes shard)) (state_root_hash (bc_header c)).
Proof.
  intros Hf (Htree & Hhdr & Hbocs) H shard. unfold commit_block_batch in H.
  apply rbind_Ok in H as (actual & Hact & H). apply map_err_Ok in Hact. cbv zeta in H.
  case_bool_decide as Heq; [|done]. cbn [negb] in H. subst actual. split; [exact Hact|].
  apply rbind_Ok in H as (u & _ & H). apply rbind_Ok in H as (proof & Hproof & H).
  apply map_err_Ok in Hproof. apply rbind_Ok in H as (b1 & H1 & H). apply rbind_Ok in H as (b2 & H2 & H).
  apply rbind_Ok in H as (old_root & _ & H). apply rbind_Ok in H as (old & Hold & H).
  apply rbind_Ok in H as (b5 & H5 & H). apply rbind_Ok in H as (b6 & H6 & H). injection H as <-.
  fold shard in H5, Hold |- *. change (foldl _ (foldl _ _ _) _) with (replace_accounts shard old (bc_state c) b2) in H5.
  destruct (generate_proof_cells _ _ _ Htree Hproof) as (Hpc & _).
  destruct (put_bocs_spec f _ _ _ Hbocs batch_valid_empty H1) as [Hv1 Ho1].
  assert (batch_valid b2) as Hv2.
  { eapply put_cells_valid; [|exact Hv1|exact H2]. apply values_wf. intros h cell Hcell. by apply (Hpc h cell). }
  pose proof (replace_accounts_valid shard old _ _ Htree Hv2) as Hv4.
  pose proof (adjust_valid _ _ _ _ _ Hv4 H5) as Hv5. pose proof (adjust_off _ _ _ _ _ H5) as Ho5.
  exists old, b2, b6. split; [done|]. split; [eapply off_cells_trans; [done|by eapply put_cells_off]|].
  destruct old_root as [root|]; [|by simplify_eq].
  split; [eapply off_cells_trans; [done|by eapply adjust_off]|]. split; [by eapply adjust_valid|done].
Qed.

(** For paths of accounts, headers and roots it says exactly what the block
    says. *)
Lemma commit_block_batch_spec f c b :
  store_wf f → commitment_wf c → commit_block_batch f c = Ok b →
  let shard := header_shard (bc_header c) in
  batch_valid b ∧
  tree_state_root_hash (bc_state c) = Ok (state_root_hash (bc_header c)) ∧
  (∃ old, load_shard_state f shard = Ok old ∧
    (∀ a s, bc_state c !! a = Some s →
       pending b (file ACCOUNTS (account_key shard a)) = Some (AccountState_to_bytes s)) ∧
    (∀ k, (∀ a, is_Some (bc_state c !! a) → k ≠ account_key shard a) → pending b (file ACCOUNTS k) = None) ∧
    (∀ k, file ACCOUNTS k ∈ removes b ↔ ∃ a, is_Some (old !! a) ∧ k = account_key shard a)) ∧
  pending b (file BLOCK_HEADERS (header_hash (bc_header c))) = Some (BlockHeader_to_bytes (bc_header c)) ∧
  (∀ h, h ≠ header_hash (bc_header c) → pending b (file BLOCK_HEADERS h) = None) ∧
  pending b (file SHARD_STATES (shard_to_bytes shard)) = Some (state_root_hash (bc_header c)) ∧
  (∀ s, s ≠ shard_to_bytes shard → pending b (file SHARD_STATES s) = None) ∧
  (∀ h, (file BLOCK_HEADERS h ∉ removes b) ∧ (file SHARD_STATES h ∉ removes b)).
Proof.
  intros Hf Hc H shard.
  destruct (commit_block_batch_parts f c b Hf Hc H) as (Hroot & old & b2 & b6 & Hold & Ho2 & Ho6 & Hv6 & ->).
  fold shard in Hold, Ho6 |- *. destruct Hc as (Htree & Hhdr & _).
  destruct (replace_accounts_spec shard old (bc_state c) b2 Ho2) as (Hacc & Hnone & Hrem).
  assert (∀ p, (∀ h, p ≠ file CELLS h) → (∀ k, p ≠ file ACCOUNTS k) → pending b6 p = None ∧ p ∉ removes b6) as Hother.
  { intros p Hp Ha. destruct (Ho6 p Hp) as [-> ->]. split; [by apply Hnone|].
    intros (a & _ & ->)%Hrem; [by apply (Ha (account_key shard a))|done]. }
  assert (∀ k, (∀ h, file ACCOUNTS k ≠ file CELLS h)) as Hcell by apply account_not_cell.
  split; [|split; [done|]].
  { apply batch_valid_put; [apply batch_valid_put; [done|]|].
    - eapply valid_header; [done|]. by apply (codec_roundtrip BlockHeader_wf BlockHeader_to_bytes BlockHeader_from_bytes).
    - eapply valid_root; [done|]. destruct Hhdr as [Hty _]. unfold BlockHeader_typed in Hty. by destruct_and!. }
  assert (∀ p v w v', pending (push_put (push_put b6 (file BLOCK_HEADERS w) v)
    (file SHARD_STATES (shard_to_bytes shard)) v') p =
    if decide (file SHARD_STATES (shard_to_bytes shard) = p) then Some v' else
    if decide (file BLOCK_HEADERS w = p) then Some v else pending b6 p) as Hlast.
  { intros. by rewrite !pending_push_put. }
  split_and!.
  - exists old. split; [done|]. split_and!.
    + intros a s Hs. rewrite Hlast, !decide_False by (by apply not_eq_sym; first [apply account_not_root|apply account_not_header]).
      rewrite (proj1 (Ho6 _ (Hcell _))). by apply Hacc.
    + intros k Hk. rewrite Hlast, !decide_False by (by apply not_eq_sym; first [apply account_not_root|apply account_not_header]).
      rewrite (proj1 (Ho6 _ (Hcell _))). apply Hnone; [done|]. intros a Ha ?%account_path_inj. by apply (Hk a).
    + intros k. rewrite (proj2 (Ho6 _ (Hcell _))), Hrem by done. split; intros (a & Ha & He); exists a; (split; [done|]).
      * by apply account_path_inj in He.
      * by rewrite He.
  - rewrite Hlast, decide_False by (by apply not_eq_sym, header_not_root). by rewrite decide_True.
  - intros h Hh. rewrite Hlast, decide_False by (by apply not_eq_sym, header_not_root).
    rewrite decide_False by (by intros ?%header_path_inj).
    apply Hother; [apply header_not_cell|]. intros k. apply not_eq_sym, account_not_header.
  - by rewrite Hlast, decide_True.
  - intros s Hs. rewrite Hlast, decide_False by (by intros ?%root_path_inj).
    rewrite decide_False by apply header_not_root.
    apply Hother; [apply root_not_cell|]. intros k. apply not_eq_sym, account_not_root.
  - intros h. split; apply Hother; [apply header_not_cell| |apply root_not_cell|]; intros k;
      apply not_eq_sym; [apply account_not_header|apply account_not_root].
Qed.

(** ** The steps do not abort *)

Lemma put_cell_batch_safe f c b : safe (put_cell_batch f c b).
Proof.
  unfold put_cell_batch. destruct (storage_read _ _ _); [|done].
  safe_step; [apply decode_cell_record_safe|]. destruct a. by case_match.
Qed.

Lemma put_cells_safe f cs b : safe (put_cells f cs b).
Proof. apply (foldM_safe (λ _ _, True)); intros; [apply put_cell_batch_safe|done|done]. Qed.

Lemma generate_proof_safe t k : tree_wf t → safe (generate_proof t k).
Proof.
  intros Ht. destruct (build_tree_spec t Ht) as (m & Hb & _).
  rewrite (generate_proof_eq _ _ _ _ Hb). apply rbind_safe; [apply boc_new_safe|done].
Qed.

Lemma verify_dag_safe' b : safe (map_err State (verify_dag b)).
Proof. destruct b. apply map_err_safe, verify_dag_safe. Qed.

Lemma commit_block_batch_safe f c : store_wf f → commitment_wf c → safe (commit_block_batch f c).
Proof.
  intros Hf (Ht & _). unfold commit_block_batch.
  apply rbind_safe; [by rewrite (tree_state_root_hash_Ok _ Ht)|]. intros actual _. cbv zeta.
  destruct (negb _); [done|].
  apply rbind_safe; [by apply (foldM_safe (λ _ _, True)); intros; [apply verify_dag_safe'|..]|].
  intros _ _. apply rbind_safe; [apply map_err_safe; by apply generate_proof_safe|]. intros proof _.
  apply rbind_safe; [by apply (foldM_safe (λ _ _, True)); intros; [apply put_cells_safe|..]|].
  intros b1 _. apply rbind_safe; [apply put_cells_safe|]. intros b2 _.
  apply rbind_safe.
  { unfold shard_state_root, read_with. destruct (storage_read _ _ _); [|done].
    by case_match. }
  intros old_root _. apply rbind_safe.
  { by destruct (load_shard_state_spec f (header_shard (bc_header c)) Hf) as (t & -> & _). }
  intros old _. apply rbind_safe; [apply adjust_safe|]. intros b3 _.
  apply rbind_safe; [destruct old_root; [apply adjust_safe|done]|done].
Qed.

(** An operation that prepares a valid batch *)
Lemma with_batch_spec {A : Type} f (m : result StorageError (Batch * A)) :
  store_wf f → safe m → (∀ b a, m = Ok (b, a) → batch_valid b) →
  store_wf (with_batch f m).1 ∧ safe (with_batch f m).2 ∧
  (∀ e, (with_batch f m).2 = Err e → (with_batch f m).1 = f) ∧
  (∀ a, (with_batch f m).2 = Ok a → ∃ b, m = Ok (b, a) ∧ (with_batch f m).1 = committed f b).
Proof.
  intros Hf Hs Hb. destruct m as [[b a]|e|]; [|by split_and!|by destruct Hs].
  specialize (Hb b a eq_refl). unfold with_batch. rewrite commit_Ok by by apply batch_valid_good.
  cbn [fst snd]. rewrite rbind_ret. split_and!; [by apply commit_wf|done|done|].
  intros a' [= ->]. eauto.
Qed.

Lemma load_unique f shard t :
  store_wf f → map_Forall (λ a _, len a = 32) t →
  (∀ a st, len a = 32 → t !! a = Some st ↔
     ∃ v, f !! file ACCOUNTS (account_key shard a) = Some v ∧ decode_account v = Ok st) →
  load_shard_state f shard = Ok t.
Proof.
  intros Hf Ht Hspec. destruct (load_shard_state_spec f shard Hf) as (t' & -> & Ht' & Hspec').
  f_equal. apply map_eq. intros a. apply option_eq. intros st.
  destruct (decide (len a = 32)) as [Ha|Ha]; [by rewrite Hspec, Hspec'|].
  split; intros Hl; exfalso; apply Ha; [by eapply Ht'|by eapply Ht].
Qed.

Lemma load_ext f f' shard :
  store_wf f → store_wf f' →
  (∀ a, f' !! file ACCOUNTS (account_key shard a) = f !! file ACCOUNTS (account_key shard a)) →
  load_shard_state f' shard = load_shard_state f shard.
Proof.
  intros Hf Hf' He. destruct (load_shard_state_spec f shard Hf) as (t & -> & Ht & Hspec).
  apply load_unique; [done|done|]. intros a st Ha. by rewrite He, Hspec.
Qed.

(** Replacing the accounts of a shard: the new ones are there, the old ones that
    are not among them are gone. *)
Lemma replaced_accounts_load f f' shard old t :
  store_wf f → store_wf f' → tree_wf t → load_shard_state f shard = Ok old →
  (∀ a s, t !! a = Some s → f' !! file ACCOUNTS (account_key shard a) = Some (AccountState_to_bytes s)) →
  (∀ a, t !! a = None → f' !! file ACCOUNTS (account_key shard a) =
     if decide (is_Some (old !! a)) then None else f !! file ACCOUNTS (account_key shard a)) →
  load_shard_state f' shard = Ok t.
Proof.
  intros Hf Hwf Htree Hold Hnew Hgone. apply load_unique; [done|by intros a s Hs; apply (Htree a s)|]. intros a st Ha.
  destruct (t !! a) as [s|] eqn:Hs.
  - rewrite (Hnew _ _ Hs). split.
    + intros [= <-]. eexists. split; [done|]. apply decode_account_Ok. split; [|done]. by apply (Htree a s).
    + intros (v & [= <-] & Hd). apply decode_account_Ok in Hd as [Hst He]. f_equal.
      pose proof (AccountState_roundtrip s [] (proj2 (Htree a s Hs))) as R1.
      pose proof (AccountState_roundtrip st [] Hst) as R2. rewrite He in R1. congruence.
  - rewrite Hgone by done. split; [done|]. intros (v & Hv & Hd). destruct (decide _) as [|Hni]; [done|].
    destruct Hni. destruct (load_shard_state_spec f shard Hf) as (t' & Ht & _ & Hspec).
    rewrite Hold in Ht. apply (inj Ok) in Ht as ->. exists st. apply Hspec; eauto.
Qed.

(** What a commitment does, for the properties that build on it *)
Lemma commit_block_exact f c :
  store_wf f → commitment_wf c →
  let f' := (commit_block f c).1 in let r := (commit_block f c).2 in
  let shard := header_shard (bc_header c) in let hash := header_hash (bc_header c) in
  store_wf f' ∧ r ≠ Panic ∧ (∀ e, r = Err e → f' = f) ∧
  (r = Ok tt →
    tree_state_root_hash (bc_state c) = Ok (state_root_hash (bc_header c)) ∧
    load_shard_state f' shard = Ok (bc_state c) ∧
    shard_state_root f' shard = Ok (Some (state_root_hash (bc_header c))) ∧
    get_block_header f' hash = Ok (Some (bc_header c)) ∧
    (∀ s, ShardIdent_wf s → s ≠ shard →
       load_shard_state f' s = load_shard_state f s ∧
       shard_state_root f' s = shard_state_root f s ∧
       ∀ a, get_account f' s a = get_account f s a) ∧
    (∀ h, h ≠ hash → get_block_header f' h = get_block_header f h)).
Proof.
  intros Hf Hc f' r shard hash.
  destruct (with_batch_spec f (let? b := commit_block_batch f c in Ok (b, tt)) Hf) as (Hwf & Hs & Herr & Hok).
  { apply rbind_safe; [by apply commit_block_batch_safe|done]. }
  { intros b a (b' & Hb & [= <- <-])%rbind_Ok. by apply commit_block_batch_spec in Hb as [? _]. }
  split; [exact Hwf|]. split; [exact Hs|]. split; [exact Herr|]. intros Hr.
  destruct (Hok tt Hr) as (b & Hb & Hf'). apply rbind_Ok in Hb as (b' & Hb & [= ->]).
  change (f' = committed f b) in Hf'. change (store_wf f') in Hwf. clear Hok Herr Hr Hs.
  destruct (commit_block_batch_spec f c b Hf Hc Hb)
    as (Hbv & Hroot & (old & Hold & Hacc & Hno & Hrem) & Hh & Hh' & Hsr & Hsr' & Hnr).
  fold shard in Hold, Hacc, Hno, Hrem, Hsr, Hsr'. fold hash in Hh, Hh'.
  pose proof (batch_valid_good b Hbv) as Hbg.
  assert (∀ p, good_path p → f' !! p = match pending b p with Some v => Some v
    | None => if decide (p ∈ removes b) then None else f !! p end) as Hlook.
  { intros p Hp. rewrite Hf'. by apply committed_lookup. }
  destruct Hc as (Htree & Hhdr & _).
  split; [done|]. split; [|split; [|split; [|split]]].
  - apply (replaced_accounts_load f f' shard old); [done|done|done|done|..].
    + intros a s Hs. rewrite Hlook by auto. by rewrite (Hacc _ _ Hs).
    + intros a Hs. rewrite Hlook by auto.
      rewrite Hno by (intros a' [s' Hs'] [_ ->]%account_key_inj; congruence). apply decide_ext. rewrite Hrem.
      split; [intros (a' & Ha & [_ ->]%account_key_inj); done|eauto].
  - unfold shard_state_root, storage_read. rewrite Hlook by auto. rewrite Hsr. cbn [read_with].
    assert (len (state_root_hash (bc_header c)) = 32) as ->; [|done].
    destruct Hhdr as [Hty _]. unfold BlockHeader_typed in Hty. by destruct_and!.
  - unfold get_block_header, storage_read. rewrite Hlook by auto. rewrite Hh. cbn [read_with].
    by rewrite (codec_roundtrip BlockHeader_wf BlockHeader_to_bytes BlockHeader_from_bytes).
  - intros s Hs Hne. assert (shard_to_bytes s ≠ shard_to_bytes shard) as Hsb.
    { intros He. apply Hne. eapply (codec_enc_inj ShardIdent_wf shard_to_bytes shard_from_bytes);
        [done|apply Hhdr|done]. }
    assert (∀ a, f' !! file ACCOUNTS (account_key s a) = f !! file ACCOUNTS (account_key s a)) as Hsame.
    { intros a. rewrite Hlook by auto. rewrite Hno by (by intros a' _ [? _]%account_key_inj).
      rewrite decide_False; [done|]. by intros (a' & _ & [? _]%account_key_inj)%Hrem. }
    split; [by apply load_ext|]. split.
    + unfold shard_state_root, storage_read. rewrite Hlook, Hsr' by auto.
      by rewrite decide_False by apply Hnr.
    + intros a. unfold get_account, storage_read. by rewrite Hsame.
  - intros h Hne. unfold get_block_header, storage_read. rewrite Hlook, Hh' by auto.
    by rewrite decide_False by apply Hnr.
Qed.

End storage.

(** ** An instance: the first commitment of a shard *)

Definition sample_root : bytes :=
  match tree_state_root_hash (C:=toy_crypto) sample_tree with Ok h => h | _ => [] end.

Definition sample_commit_header : BlockHeader :=
  {| magic_constructor := BLOCK_HEADER_MAGIC; header_shard := shard_root 0; seq_no := 1;
     flags := 0; gen_utime := 0; start_lt := 0; end_lt := 1; prev_key_block := 0;
     prev_ref_hash := Uint256_ZERO; prev_ref_hash_2 := Uint256_ZERO; master_ref_hash := Uint256_ZERO;
     state_root_hash := sample_root; in_msg_root_hash := Uint256_ZERO; out_msg_root_hash := Uint256_ZERO |}.

Definition sample_commitment : BlockCommitment :=
  {| bc_header := sample_commit_header; bc_state := sample_tree; cell_bocs := [] |}.

Lemma sample_commitment_wf : commitment_wf sample_commitment.
Proof.
  assert (shard_prefix (shard_root 0) 0 0) as Hsp by (unfold shard_prefix; done).
  split; [apply sample_tree_wf|]. split; [|constructor].
  split; [|split; [done|split]].
  - unfold BlockHeader_typed, shard_typed. cbn [magic_constructor header_shard seq_no flags gen_utime
      start_lt end_lt prev_key_block prev_ref_hash prev_ref_hash_2 master_ref_hash state_root_hash
      in_msg_root_hash out_msg_root_hash workchain_id shard_prefix_ident sample_commit_header
      bc_header sample_commitment shard_root].
    rewrite !in_int_u32, !in_int_u64, in_int_u16. unfold in_u, ROOT_PREFIX, BLOCK_HEADER_MAGIC.
    assert (len sample_root = 32) as -> by (vm_compute; reflexivity). split_and!; done || lia.
  - split; [done|]. exists 0, 0. done.
  - by split.
Qed.

