(* ===== verification/StorageRefs.v ===== *)
(** [onx-state-model], [storage.rs]: reference counting. A retained root keeps
    every cell below it, through any sequence of insertions, retentions,
    releases and block commitments. *)
From S2P Require Import Prelude Bytes Machine Text Primitives ToyCrypto Address Block Cell Boc Account Tree Storage StorageState.

(** A table of counted cells, its references and what a list of retained roots
    asks of it: a cell that [k] of them reach is there with a count of [k]. *)
Abbreviation table := (bytes → option (Z * Cell)).

Definition ref_edge (T : table) (h h' : bytes) : Prop :=
  ∃ n c, T h = Some (n, c) ∧ h' ∈ cell_refs c.

Definition refs_ok (T : table) (R : list bytes) : Prop :=
  ∀ h L, L ⊆+ R → L ≠ [] → Forall (λ r, rtc (ref_edge T) r h) L →
  ∃ n c, T h = Some (n, c) ∧ len L ≤ n.

(** [T'] has no other cells than [T]. *)
Definition table_sub (T' T : table) : Prop :=
  ∀ h n c, T' h = Some (n, c) → ∃ m, T h = Some (m, c).

Lemma rtc_sub T T' a b : table_sub T' T → rtc (ref_edge T') a b → rtc (ref_edge T) a b.
Proof.
  intros Hs. induction 1 as [|x y z (n & c & Hx & Hy) _ IH]; [done|].
  destruct (Hs _ _ _ Hx) as [m Hm]. eapply rtc_l; [by exists m, c|done].
Qed.

(** Adding cells that were not there *)
Lemma refs_ok_extend T T' R :
  (∀ h nc, T h = Some nc → T' h = Some nc) → refs_ok T R → refs_ok T' R.
Proof.
  intros Hext Hok h L HL Hne Hreach.
  assert (∀ r, r ∈ L → rtc (ref_edge T) r h) as HT.
  { intros r Hr. rewrite Forall_forall in Hreach. specialize (Hreach r Hr).
    assert (r ∈ R) as HrR by (eapply elem_of_submseteq; eauto).
    assert (∀ x, rtc (ref_edge T') r x → rtc (ref_edge T) r x) as Hind; [|by apply Hind].
    apply rtc_ind_r; [done|]. intros y z _ Hyz IH.
    destruct (Hok y [r]) as (n & c & Hy & _).
    { by apply singleton_submseteq_l. } { done. } { by constructor. }
    eapply rtc_r; [exact IH|]. destruct Hyz as (n' & c' & Hy' & Hz).
    rewrite (Hext _ _ Hy) in Hy'. simplify_eq. by exists n', c'. }
  destruct (Hok h L HL Hne) as (n & c & Hh & Hn); [by apply Forall_forall|]. exists n, c. eauto.
Qed.

(** One more root: all it reaches are counted once more. *)
Lemma refs_ok_retain (T T' : table) (R : list bytes) (root : bytes) (S : gset bytes) :
  root ∈ S →
  (∀ h, h ∈ S → ∃ n c, T h = Some (n, c) ∧ 0 ≤ n ∧ T' h = Some (n + 1, c) ∧ ∀ h', h' ∈ cell_refs c → h' ∈ S) →
  (∀ h, h ∉ S → T' h = T h) →
  refs_ok T R → refs_ok T' (root :: R).
Proof.
  intros Hroot HS Hout Hok.
  assert (table_sub T' T) as Hsub.
  { intros h n c Hh. destruct (decide (h ∈ S)) as [Hin|Hni]; [|rewrite Hout in Hh by done; eauto].
    destruct (HS h Hin) as (m & c' & Hm & _ & Hh' & _). rewrite Hh' in Hh. simplify_eq. eauto. }
  assert (∀ h, rtc (ref_edge T) root h → h ∈ S) as Hcl.
  { apply rtc_ind_r; [done|]. intros x y _ (n & c & Hx & Hy) IH.
    destruct (HS x IH) as (m & c' & Hm & _ & _ & Hch). rewrite Hm in Hx. simplify_eq. eauto. }
  intros h L HL Hne Hreach.
  assert (Forall (λ r, rtc (ref_edge T) r h) L) as HT.
  { eapply Forall_impl; [exact Hreach|]. intros r. by apply rtc_sub. }
  apply submseteq_cons_r in HL as [HL|(L' & HL & HL')].
  - destruct (Hok h L HL Hne HT) as (n & c & Hh & Hn).
    destruct (decide (h ∈ S)) as [Hin|Hni]; [|exists n, c; by rewrite Hout].
    destruct (HS h Hin) as (m & c' & Hm & _ & Hh' & _). rewrite Hm in Hh. simplify_eq.
    eexists _, _. split; [done|lia].
  - rewrite HL in HT. inversion_clear HT as [|? ? Hr HT'].
    destruct (HS h (Hcl h Hr)) as (m & c & Hm & H0 & Hh' & _). eexists _, _. split; [done|].
    rewrite (len_Permutation _ _ HL), len_cons. destruct L' as [|x L'']; [rewrite len_nil; lia|].
    destruct (Hok h (x :: L'') HL') as (n & c' & Hh & Hn); [done|done|]. simplify_eq. lia.
Qed.

(** One root less: what it reaches loses one count at most, and a cell goes only
    when it had the last. *)
Lemma refs_ok_release (T T' : table) (R R' : list bytes) (root : bytes) (S : gset bytes) :
  R ≡ₚ root :: R' →
  (∀ h, h ∈ S → rtc (ref_edge T) root h ∧
     ∀ n c, T h = Some (n, c) → 2 ≤ n → T' h = Some (n - 1, c)) →
  (∀ h, h ∉ S → T' h = T h) → table_sub T' T →
  refs_ok T R → refs_ok T' R'.
Proof.
  intros HR HS Hout Hsub Hok h L HL Hne Hreach.
  assert (Forall (λ r, rtc (ref_edge T) r h) L) as HT.
  { eapply Forall_impl; [exact Hreach|]. intros r. by apply rtc_sub. }
  destruct (decide (h ∈ S)) as [Hin|Hni].
  - destruct (HS h Hin) as [Hr Hdec].
    destruct (Hok h (root :: L)) as (n & c & Hh & Hn).
    { rewrite HR. by apply submseteq_skip. } { done. } { by constructor. }
    rewrite len_cons in Hn. exists (n - 1), c. split; [|lia]. apply Hdec; [done|].
    destruct L as [|x L]; [done|]. rewrite len_cons in Hn. pose proof (len_nonneg L). lia.
  - rewrite Hout by done. apply (Hok h L); [|done..]. rewrite HR. by apply submseteq_cons.
Qed.

Section refs.
Context {C : Crypto}.
Context (listing : files → list (bytes * bytes)).
Context (values : gmap bytes Cell → list (bytes * Cell)).

(** The tables of a store, and of a store with a batch on top *)
Definition record_at (h : bytes) (o : option bytes) : option (Z * Cell) :=
  match o with
  | Some v => match decode_cell_record h v with Ok nc => Some nc | _ => None end
  | None => None
  end.

Definition cell_table (f : files) : table := λ h, record_at h (f !! file CELLS h).

Definition view (f : files) (b : Batch) : table := λ h,
  record_at h (match pending b (file CELLS h) with Some v => Some v | None => f !! file CELLS h end).

Lemma record_at_Some h o n c :
  record_at h o = Some (n, c) ↔ ∃ v, o = Some v ∧ decode_cell_record h v = Ok (n, c).
Proof.
  unfold record_at. split.
  - destruct o as [v|]; [|done]. intros H. exists v. split; [done|].
    by destruct (decode_cell_record h v); simplify_eq.
  - by intros (v & -> & ->).
Qed.

Lemma view_wf f b h n c : view f b h = Some (n, c) → in_int Uint64 n ∧ Cell_wf c ∧ h = cell_hash c.
Proof. intros (v & _ & Hd)%record_at_Some. by apply decode_found in Hd. Qed.

Lemma view_put f b n c h :
  in_int Uint64 n → Cell_wf c →
  view f (push_put b (file CELLS (cell_hash c)) (encode_cell_record n c)) h =
  if decide (cell_hash c = h) then Some (n, c) else view f b h.
Proof.
  intros Hn Hc. unfold view. rewrite pending_push_put.
  destruct (decide (cell_hash c = h)) as [<-|Hne].
  - rewrite decide_True by done. cbn [record_at]. by rewrite decode_encode_record.
  - rewrite decide_False; [done|]. by intros ?%cell_path_inj.
Qed.

Definition removed (b : Batch) (h : bytes) : Prop := file CELLS h ∈ removes b.
Instance removed_dec b h : Decision (removed b h).
Proof. unfold removed. apply _. Defined.

(** What a commit leaves of the cells *)
Lemma cell_table_committed f b h :
  batch_good b →
  cell_table (committed f b) h =
  match pending b (file CELLS h) with
  | Some _ => view f b h
  | None => if decide (removed b h) then None else view f b h
  end.
Proof.
  intros Hb. unfold cell_table, view. rewrite committed_lookup by (done || apply good_cell).
  unfold removed. destruct (pending b _); [done|]. by destruct (decide _).
Qed.

(** ** The adjustment of counts *)

Definition same (f : files) (b b' : Batch) (h : bytes) : Prop :=
  view f b' h = view f b h ∧ (removed b' h ↔ removed b h).

Definition changed (up : bool) (f : files) (b b' : Batch) (h : bytes) : Prop :=
  ∃ n c, view f b h = Some (n, c) ∧
  if up then view f b' h = Some (n + 1, c) ∧ (removed b' h ↔ removed b h)
  else 1 ≤ n ∧
    if n =? 1 then view f b' h = view f b h
    else view f b' h = Some (n - 1, c) ∧ (removed b' h ↔ removed b h).

Record adjusted (up : bool) (f : files) (s s' : gset bytes * Batch) : Prop := {
  adj_seen : s.1 ⊆ s'.1;
  adj_new h : h ∈ s'.1 → h ∉ s.1 → changed up f s.2 s'.2 h;
  adj_same h : h ∉ s'.1 ∨ h ∈ s.1 → same f s.2 s'.2 h;
}.

Lemma same_trans f b1 b2 b3 h : same f b1 b2 h → same f b2 b3 h → same f b1 b3 h.
Proof. intros [H1 R1] [H2 R2]. split; [congruence|tauto]. Qed.

Lemma changed_same up f b1 b2 b3 h : changed up f b1 b2 h → same f b2 b3 h → changed up f b1 b3 h.
Proof.
  intros (n & c & H1 & H2) [H3 H4]. exists n, c. split; [done|].
  destruct up; [destruct H2; split; [congruence|tauto]|]. destruct H2 as [Hn H2]. split; [done|].
  destruct (n =? 1); [congruence|]. destruct H2. split; [congruence|tauto].
Qed.

Lemma same_changed up f b1 b2 b3 h : same f b1 b2 h → changed up f b2 b3 h → changed up f b1 b3 h.
Proof.
  intros [H3 H4] (n & c & H1 & H2). rewrite H3 in H1. exists n, c. split; [done|].
  destruct up; [destruct H2; split; [congruence|tauto]|]. destruct H2 as [Hn H2]. split; [done|].
  destruct (n =? 1); [congruence|]. destruct H2. split; [congruence|tauto].
Qed.

Lemma adjusted_refl up f s : adjusted up f s s.
Proof. split; [done|naive_solver|]. by intros h _. Qed.

Lemma adjusted_trans up f s1 s2 s3 : adjusted up f s1 s2 → adjusted up f s2 s3 → adjusted up f s1 s3.
Proof.
  intros H1 H2. split.
  - etrans; [apply H1|apply H2].
  - intros h Hin Hni. destruct (decide (h ∈ s2.1)) as [Hm|Hm].
    + eapply changed_same; [apply H1; done|]. apply H2. by right.
    + eapply same_changed; [apply H1; by left|]. by apply H2.
  - intros h Hh. eapply same_trans; [apply H1|apply H2].
    + destruct Hh as [Hh|Hh]; [left|by right]. intros Hm. by apply Hh, (adj_seen _ _ _ _ H2).
    + destruct Hh as [Hh|Hh]; [by left|right]. by apply (adj_seen _ _ _ _ H1).
Qed.

(** Adjusting changes counts only. *)
Lemma adjusted_sub up f s s' : adjusted up f s s' → table_sub (view f s'.2) (view f s.2).
Proof.
  intros Ha h n c Hh. destruct (decide (h ∈ s'.1 ∧ h ∉ s.1)) as [[Hin Hni]|Hno].
  - destruct (adj_new _ _ _ _ Ha h Hin Hni) as (m & c' & Hm & Hc). exists m.
    destruct up; [destruct Hc as [Hc _]; congruence|]. destruct Hc as [_ Hc].
    destruct (m =? 1); [congruence|]. destruct Hc as [Hc _]. congruence.
  - destruct (adj_same _ _ _ _ Ha h) as [Hs _]; [|rewrite <-Hs; eauto].
    destruct (decide (h ∈ s'.1)); [right|by left]. by destruct (decide (h ∈ s.1)); [|naive_solver].
Qed.

(** The nodes a call enters: reached from its root, and closed if all counts go up *)
Definition entered (up : bool) (f : files) (b : Batch) (root : bytes → Prop) (s s' : gset bytes) : Prop :=
  ∀ h, h ∈ s' → h ∉ s →
    (∃ r, root r ∧ rtc (ref_edge (view f b)) r h) ∧
    (up = true → ∀ n c, view f b h = Some (n, c) → ∀ h', h' ∈ cell_refs c → h' ∈ s').

(** What one call does, in terms of the table it started from *)
Definition call_spec (up : bool) (f : files) (roots : list bytes) (s s' : gset bytes * Batch) : Prop :=
  adjusted up f s s' ∧ (∀ r, r ∈ roots → r ∈ s'.1) ∧ entered up f s.2 (λ r, r ∈ roots) s.1 s'.1.

Lemma call_app up f l1 l2 s1 s2 s3 :
  call_spec up f l1 s1 s2 → call_spec up f l2 s2 s3 → call_spec up f (l1 ++ l2) s1 s3.
Proof.
  intros (A1 & R1 & E1) (A2 & R2 & E2). split; [by eapply adjusted_trans|]. split.
  - intros r [Hr|Hr]%elem_of_app; [|by apply R2]. by apply (adj_seen _ _ _ _ A2), R1.
  - intros h Hin Hni. destruct (decide (h ∈ s2.1)) as [Hm|Hm].
    + destruct (E1 h Hm Hni) as [(r & Hr & Hreach) Hcl]. split.
      * exists r. split; [|done]. apply elem_of_app. by left.
      * intros Hup n c Hh h' Hh'. by apply (adj_seen _ _ _ _ A2), (Hcl Hup n c).
    + destruct (E2 h Hin Hm) as [(r & Hr & Hreach) Hcl]. split.
      * exists r. split; [apply elem_of_app; by right|].
        eapply rtc_sub; [|exact Hreach]. by eapply adjusted_sub.
      * intros Hup n c Hh. apply (Hcl Hup n c).
        destruct (adj_same _ _ _ _ A1 h) as [-> _]; [by left|done].
Qed.

Lemma call_nil up f s : call_spec up f [] s s.
Proof.
  split; [apply adjusted_refl|]. split; [by intros r ?%elem_of_nil|]. by intros h.
Qed.

(** A call that enters [h], changes its count and goes on to [l] *)
Lemma call_node up f h l n c seen b b1 s' :
  h ∉ seen → view f b h = Some (n, c) → (∀ x, x ∈ l → x ∈ cell_refs c) →
  (up = true → l = cell_refs c) →
  changed up f b b1 h → (∀ x, x ≠ h → same f b b1 x) →
  call_spec up f l ({[h]} ∪ seen, b1) s' →
  call_spec up f [h] (seen, b) s'.
Proof.
  intros Hh Hv Hl Hup Hch Hsame (A & R & E). cbn [fst snd] in *.
  assert (adjusted up f (seen, b) ({[h]} ∪ seen, b1)) as A0.
  { split; cbn [fst snd].
    - apply union_subseteq_r.
    - intros x [->%elem_of_singleton|?]%elem_of_union ?; done.
    - intros x [Hx|Hx]; apply Hsame; [set_solver|by intros ->]. }
  pose proof (adj_seen _ _ _ _ A) as Hsub. cbn [fst] in Hsub.
  split; [by eapply adjusted_trans|]. split.
  - intros r ->%list_elem_of_singleton. apply Hsub. set_solver.
  - intros x Hin Hni. cbn [fst snd] in *. destruct (decide (x = h)) as [->|Hne].
    + split; [exists h; split; [by left|done]|]. intros ? n' c' Hv' h' Hh'.
      rewrite Hv in Hv'. simplify_eq. apply R. by rewrite Hup.
    + destruct (E x Hin) as [(r & Hr & Hreach) Hcl]; [set_solver|]. split.
      * exists h. split; [by left|]. apply (rtc_l _ h r); [exists n, c; by auto|].
        eapply rtc_sub; [|exact Hreach]. exact (adjusted_sub _ _ _ _ A0).
      * intros Ht n' c' Hv'. apply (Hcl Ht n' c'). destruct (Hsame x Hne) as [-> _]. done.
Qed.

Lemma adjust_cell_spec up f fuel : ∀ h s s',
  adjust_cell fuel f up h s = Ok s' → call_spec up f [h] s s'.
Proof.
  induction fuel as [|fuel IH]; intros h [seen b] s' H; [done|]. cbn [adjust_cell] in H.
  case_bool_decide as Hseen.
  { simplify_eq. split; [apply adjusted_refl|]. split; [by intros r ->%list_elem_of_singleton|]. by intros x. }
  cbv zeta in H. apply rbind_Ok in H as (v & Hv & H). apply ok_or_Ok in Hv.
  apply rbind_Ok in H as ([n c] & Hd & H).
  assert (view f b h = Some (n, c)) as Hview by (apply record_at_Some; eauto).
  apply decode_found in Hd as (Hn & Hc & Hh).
  assert (∀ l s s', foldM (λ child st, adjust_cell fuel f up child st) l s = Ok s' →
    call_spec up f l s s') as Hfold.
  { intros l. induction l as [|x l IHl]; intros t t' Hl; cbn [foldM] in Hl.
    - injection Hl as <-. apply call_nil.
    - apply rbind_Ok in Hl as (t1 & H1 & Hl). apply (call_app up f [x] l t t1 t'); eauto. }
  rewrite in_int_u64 in Hn. unfold in_u in Hn.
  assert (∀ m x, in_int Uint64 m → view f (push_put b (file CELLS h) (encode_cell_record m c)) x =
    if decide (h = x) then Some (m, c) else view f b x) as Hput.
  { intros m x Hm. rewrite Hh. by apply view_put. }
  destruct up.
  - apply rbind_Ok in H as (n' & Hn' & H). apply ok_or_Ok, checked_add_u_Some in Hn' as [-> Hlt].
    assert (in_int Uint64 (n + 1)) as Hn1 by (rewrite in_int_u64; unfold in_u; lia).
    eapply (call_node true f h (cell_refs c) n c seen b _ s' Hseen Hview); [done|done| | |exact (Hfold _ _ _ H)].
    + exists n, c. split; [done|]. split; [by rewrite Hput, decide_True|done].
    + intros x Hx. split; [by rewrite Hput, decide_False|done].
  - destruct (Z.eqb_spec n 0) as [|Hn0]; [done|]. destruct (Z.eqb_spec n 1) as [->|Hn1].
    + eapply (call_node false f h (cell_refs c) 1 c seen b _ s' Hseen Hview); [done|done| | |exact (Hfold _ _ _ H)].
      * exists 1, c. split; [done|]. split; [lia|done].
      * intros x Hx. split; [done|]. unfold removed, push_remove. cbn [removes].
        rewrite elem_of_app, list_elem_of_singleton. split; [|by left].
        intros [?|?%cell_path_inj]; [done|congruence].
    + simplify_eq.
      assert (in_int Uint64 (n - 1)) as Hnm by (rewrite in_int_u64; unfold in_u; lia).
      eapply (call_node false f _ [] n c seen b _ _ Hseen Hview); [by intros x ?%elem_of_nil|done| | |apply call_nil].
      * exists n, c. split; [done|]. split; [lia|]. rewrite (proj2 (Z.eqb_neq n 1)) by done.
        split; [by rewrite Hput, decide_True|done].
      * intros x Hx. split; [by rewrite Hput, decide_False|done].
Qed.

(** ** Retaining and releasing over a batch *)

(** The table a commit of the batch leaves *)
Definition after (f : files) (b : Batch) : table := λ h,
  match pending b (file CELLS h) with
  | Some _ => view f b h
  | None => if decide (removed b h) then None else view f b h
  end.

Lemma after_view f b h : ¬ removed b h → after f b h = view f b h.
Proof. intros Hr. unfold after. destruct (pending _ _); [done|]. by rewrite decide_False. Qed.

Lemma after_sub f b : table_sub (after f b) (view f b).
Proof.
  intros h n c. unfold after. destruct (pending _ _); [eauto|]. destruct (decide _); [done|eauto].
Qed.

Lemma adjust_up f root b b' R :
  adjust f true root b = Ok b' → refs_ok (view f b) R →
  refs_ok (view f b') (root :: R) ∧ (∀ h, removed b' h ↔ removed b h).
Proof.
  intros H HR. apply rbind_Ok in H as ([seen b2] & H & [= <-]).
  apply adjust_cell_spec in H as (A & Rt & E). cbn [fst snd] in *. split.
  - apply (refs_ok_retain (view f b) _ R root seen); [apply Rt; by left| | |done].
    + intros h Hin. destruct (adj_new _ _ _ _ A h Hin (not_elem_of_empty h)) as (n & c & Hv & Hv' & _).
      exists n, c. split; [done|]. split; [|split; [done|]].
      { apply view_wf in Hv as (Hn & _). rewrite in_int_u64 in Hn. apply Hn. }
      intros h' Hh'. destruct (E h Hin (not_elem_of_empty h)) as [_ Hcl]. by apply (Hcl eq_refl n c).
    + intros h Hni. by destruct (adj_same _ _ _ _ A h) as [? _]; [left|].
  - intros h. destruct (decide (h ∈ seen)) as [Hin|Hni].
    + by destruct (adj_new _ _ _ _ A h Hin (not_elem_of_empty h)) as (n & c & _ & _ & ?).
    + by destruct (adj_same _ _ _ _ A h) as [_ ?]; [left|].
Qed.

Lemma adjust_down f root b b' R R' :
  adjust f false root b = Ok b' → (∀ h, ¬ removed b h) → R ≡ₚ root :: R' →
  refs_ok (view f b) R → refs_ok (after f b') R'.
Proof.
  intros H Hnr HR Hok. apply rbind_Ok in H as ([seen b2] & H & [= <-]).
  apply adjust_cell_spec in H as (A & Rt & E). cbn [fst snd] in *.
  apply (refs_ok_release (view f b) _ R R' root seen HR); [| | |done].
  - intros h Hin. destruct (E h Hin (not_elem_of_empty h)) as [(r & ->%list_elem_of_singleton & Hr) _].
    split; [done|]. intros n c Hv Hn.
    destruct (adj_new _ _ _ _ A h Hin (not_elem_of_empty h)) as (n' & c' & Hv' & _ & Hc).
    cbn [fst snd] in *. rewrite Hv in Hv'. simplify_eq. rewrite (proj2 (Z.eqb_neq n' 1)) in Hc by lia.
    destruct Hc as [Hc Hrem]. rewrite after_view; [done|]. by rewrite Hrem.
  - intros h Hni. destruct (adj_same _ _ _ _ A h) as [Hs Hrem]; [by left|]. cbn [snd] in *.
    rewrite after_view; [done|]. by rewrite Hrem.
  - intros h n c Hh. apply after_sub in Hh as [m Hh]. exact (adjusted_sub _ _ _ _ A _ _ _ Hh).
Qed.

(** ** Adding cells *)

(** A batch that has only added cells *)
Definition only_adds (f : files) (b : Batch) : Prop :=
  (∀ h nc, cell_table f h = Some nc → view f b h = Some nc) ∧ (∀ h, ¬ removed b h).

Lemma only_adds_empty f : only_adds f batch_empty.
Proof. split; [done|]. intros h. apply not_elem_of_nil. Qed.

Lemma only_adds_put f c b b' : only_adds f b → put_cell_batch f c b = Ok b' → only_adds f b'.
Proof.
  intros [Ha Hr]. unfold put_cell_batch. destruct (storage_read f CELLS (cell_hash c)) as [v|] eqn:Hv.
  - intros H. apply rbind_Ok in H as ([n old] & _ & H). case_match; [done|]. by simplify_eq.
  - intros [= <-]. split; [|done]. intros h nc Hh.
    assert (cell_hash c ≠ h) as Hne.
    { intros <-. unfold cell_table in Hh. change (storage_read f CELLS (cell_hash c)) with
        (f !! file CELLS (cell_hash c)) in Hv. by rewrite Hv in Hh. }
    unfold view. rewrite pending_push_put, decide_False by (by intros ?%cell_path_inj). by apply Ha.
Qed.

Lemma only_adds_cells f cs b b' : only_adds f b → put_cells f cs b = Ok b' → only_adds f b'.
Proof.
  intros Hb H. apply (foldM_inv (λ _ b, only_adds f b)) in H; [done| |done].
  intros c l t t' Ht. by apply only_adds_put.
Qed.

(** The cells of two batches *)
Definition cells_same (b b' : Batch) : Prop := ∀ h,
  pending b' (file CELLS h) = pending b (file CELLS h) ∧ (removed b' h ↔ removed b h).

Lemma cells_same_adds f b b' : cells_same b b' → only_adds f b → only_adds f b'.
Proof.
  intros Hs [Ha Hr]. split.
  - intros h nc Hh. unfold view. destruct (Hs h) as [-> _]. by apply Ha.
  - intros h. destruct (Hs h) as [_ ->]. done.
Qed.

Lemma cells_same_after f b b' h : cells_same b b' → after f b' h = after f b h.
Proof.
  intros Hs. unfold after, view. destruct (Hs h) as [-> Hr]. destruct (pending _ _); [done|].
  destruct (decide (removed b' h)), (decide (removed b h)); tauto.
Qed.

Lemma refs_ok_ext (T T' : table) (R : list bytes) : (∀ h, T' h = T h) → refs_ok T R → refs_ok T' R.
Proof. intros He. apply refs_ok_extend. intros h nc. by rewrite He. Qed.

(** ** Block commitments *)

Context (Hlisting : ∀ f : files, listing f ≡ₚ map_to_list f).
Context (Hvalues : ∀ m : gmap bytes Cell, values m ≡ₚ map_to_list m).
Context `{!CryptoLaws C}.
#[local] Opaque build_tree generate_proof tree_state_root_hash.

Lemma cells_same_put b cf k v : (∀ h, file cf k ≠ file CELLS h) → cells_same b (push_put b (file cf k) v).
Proof. intros Hne h. by rewrite pending_push_put, decide_False by apply Hne. Qed.

Lemma cells_same_trans b1 b2 b3 : cells_same b1 b2 → cells_same b2 b3 → cells_same b1 b3.
Proof. intros H1 H2 h. destruct (H1 h), (H2 h). split; [congruence|tauto]. Qed.

(** The loops over accounts leave the cells alone. *)
Lemma account_loops_cells b shard (old : list bytes) (new : list (bytes * AccountState)) :
  cells_same b (foldl (λ b '(a, s), push_put b (file ACCOUNTS (account_key shard a)) (AccountState_to_bytes s))
    (foldl (λ b a, push_remove b (file ACCOUNTS (account_key shard a))) b old) new).
Proof.
  assert (∀ b', cells_same b' (foldl (λ b '(a, s), push_put b (file ACCOUNTS (account_key shard a))
    (AccountState_to_bytes s)) b' new)) as Hnew.
  { induction new as [|[a s] new IH]; intros b'; [by intros h|]. cbn [foldl].
    eapply cells_same_trans; [|apply IH]. apply cells_same_put, account_not_cell. }
  eapply cells_same_trans; [|apply Hnew]. rewrite push_removes. intros h. split; [done|].
  unfold removed. cbn [removes]. rewrite elem_of_app. split; [|by left].
  intros [?|(a & He & _)%list_elem_of_fmap]; [done|]. by apply eq_sym, account_not_cell in He.
Qed.

Lemma commit_block_batch_cells f c b :
  commitment_wf c → commit_block_batch listing values f c = Ok b →
  ∃ b4 b5 b6 old_root, only_adds f b4 ∧ adjust f true (state_root_hash (bc_header c)) b4 = Ok b5 ∧
    shard_state_root f (header_shard (bc_header c)) = Ok old_root ∧
    match old_root with Some root => adjust f false root b5 = Ok b6 | None => b6 = b5 end ∧
    cells_same b6 b.
Proof.
  intros (Htree & _) H. unfold commit_block_batch in H.
  apply rbind_Ok in H as (actual & Hact & H). apply map_err_Ok in Hact. cbv zeta in H.
  case_bool_decide as Heq; [|done]. cbn [negb] in H.
  apply rbind_Ok in H as (u & _ & H). apply rbind_Ok in H as (proof & Hproof & H).
  apply map_err_Ok in Hproof. apply rbind_Ok in H as (b1 & H1 & H). apply rbind_Ok in H as (b2 & H2 & H).
  apply rbind_Ok in H as (old_root & Hroot & H). apply rbind_Ok in H as (old & _ & H).
  apply rbind_Ok in H as (b5 & H5 & H). apply rbind_Ok in H as (b6 & H6 & H). apply (inj Ok) in H as <-.
  destruct (generate_proof_cells _ _ _ Htree Hproof) as (_ & Hpr & _).
  rewrite Hact in Hpr. apply (inj Ok) in Hpr.
  assert (only_adds f b2) as Hb2.
  { eapply only_adds_cells; [|exact H2].
    apply (foldM_inv (λ _ b, only_adds f b)) in H1; [done| |apply only_adds_empty].
    intros boc l t t' Ht. by apply only_adds_cells. }
  eexists _, b5, b6, old_root. split.
  { eapply cells_same_adds; [|exact Hb2]. apply (account_loops_cells b2 (header_shard (bc_header c))). }
  split; [rewrite <-Heq, Hpr; exact H5|]. split; [exact Hroot|]. split.
  { destruct old_root; [exact H6|]. by apply (inj Ok) in H6. }
  eapply cells_same_trans; [apply cells_same_put, header_not_cell|]. apply cells_same_put, root_not_cell.
Qed.

Lemma commit_block_refs f c b R R' :
  commitment_wf c → commit_block_batch listing values f c = Ok b → batch_good b →
  (∀ old, shard_state_root f (header_shard (bc_header c)) = Ok old →
     R ≡ₚ match old with Some root => root :: R' | None => R' end) →
  refs_ok (cell_table f) R → refs_ok (cell_table (committed f b)) (state_root_hash (bc_header c) :: R').
Proof.
  intros Hc Hb Hg HR Hok.
  destruct (commit_block_batch_cells f c b Hc Hb) as (b4 & b5 & b6 & old & [Ha Hr4] & H5 & Hold & H6 & Hs).
  destruct (adjust_up f _ b4 b5 R H5) as [Hok5 Hr5]; [by apply (refs_ok_extend (cell_table f))|].
  assert (∀ h, ¬ removed b5 h) as Hr5' by (intros h; by rewrite Hr5).
  apply (refs_ok_ext (after f b6)).
  { intros h. rewrite cell_table_committed by done.
    change (after f b h = after f b6 h). by apply cells_same_after. }
  specialize (HR old Hold). destruct old as [root|].
  - apply (adjust_down f root b5 b6 (state_root_hash (bc_header c) :: R)); [done|done| |done].
    rewrite HR. apply Permutation_swap.
  - subst b6. apply (refs_ok_ext (view f b5)); [intros h; by apply after_view|].
    intros h L HL. apply Hok5. by rewrite HR.
Qed.

(** ** Histories of a store

    [U] lists the roots the caller retained and has not released, [S] the root
    last committed for each shard. A caller releases what it retained. *)
Inductive store_reach : files → list bytes → gmap bytes bytes → Prop :=
  | reach_empty : store_reach ∅ [] ∅
  | reach_put_cell f U S c f' h :
      store_reach f U S → Cell_wf c → put_cell f c = (f', Ok h) → store_reach f' U S
  | reach_put_boc f U S boc f' :
      store_reach f U S → map_Forall (λ _ c, Cell_wf c) (boc_cells boc) →
      put_boc values f boc = (f', Ok tt) → store_reach f' U S
  | reach_retain f U S root f' :
      store_reach f U S → retain_cell_root f root = (f', Ok tt) → store_reach f' (root :: U) S
  | reach_release f U U' S root f' :
      store_reach f U S → U ≡ₚ root :: U' → release_cell_root f root = (f', Ok tt) → store_reach f' U' S
  | reach_commit f U S c f' :
      store_reach f U S → commitment_wf c → commit_block listing values f c = (f', Ok tt) →
      store_reach f' U (<[ shard_to_bytes (header_shard (bc_header c)) := state_root_hash (bc_header c) ]> S).

Definition store_inv (f : files) (U : list bytes) (S : gmap bytes bytes) : Prop :=
  store_wf f ∧ refs_ok (cell_table f) (U ++ (map_to_list S).*2) ∧
  ∀ s, f !! file SHARD_STATES s = S !! s.

(** An operation that prepares a batch [b] *)
Lemma with_batch_inv {A : Type} f (m : result StorageError (Batch * A)) f' (a : A) :
  store_wf f → safe m → (∀ b a, m = Ok (b, a) → batch_valid b) →
  with_batch f m = (f', Ok a) → ∃ b, m = Ok (b, a) ∧ batch_valid b ∧ f' = committed f b ∧ store_wf f'.
Proof.
  intros Hf Hs Hb H. destruct (with_batch_spec f m Hf Hs Hb) as (Hwf & _ & _ & Hok).
  rewrite H in *. cbn [fst snd] in *. destruct (Hok a eq_refl) as (b & Hm & ->).
  exists b. split; [done|]. split; [by eapply Hb|done].
Qed.

(** A batch that touches cells only keeps the shard roots. *)
Lemma off_cells_roots f b s :
  batch_good b → off_cells batch_empty b → committed f b !! file SHARD_STATES s = f !! file SHARD_STATES s.
Proof.
  intros Hg Ho. rewrite committed_lookup by (done || apply good_root).
  destruct (Ho (file SHARD_STATES s) (root_not_cell s)) as [-> Hr].
  rewrite decide_False; [done|]. rewrite Hr. apply not_elem_of_nil.
Qed.

Lemma table_after f b : batch_good b → ∀ h, cell_table (committed f b) h = after f b h.
Proof. intros Hg h. by apply cell_table_committed. Qed.

Lemma put_cells_inv f U S cs b f' :
  store_inv f U S → put_cells f cs batch_empty = Ok b → batch_valid b → f' = committed f b →
  store_wf f' → store_inv f' U S.
Proof.
  intros (Hf & Hok & HS) Hb Hv -> Hwf. pose proof (batch_valid_good b Hv) as Hg.
  destruct (only_adds_cells f cs _ _ (only_adds_empty f) Hb) as [Ha Hr]. split; [done|]. split.
  - apply (refs_ok_ext (view f b)); [intros h; by rewrite table_after, after_view|].
    by apply (refs_ok_extend (cell_table f)).
  - intros s. rewrite off_cells_roots; [done|done|by eapply put_cells_off].
Qed.

(** Each operation that succeeds keeps the invariant. *)
Lemma put_cell_inv f U S c f' h :
  store_inv f U S → Cell_wf c → put_cell f c = (f', Ok h) → store_inv f' U S.
Proof.
  intros Hi Hc Hop. pose proof Hi as (Hf & _). apply with_batch_inv in Hop as (b & Hm & Hv & Hf' & Hwf); [|done|..].
  - apply rbind_Ok in Hm as (b' & Hb & [= -> _]). by eapply put_cells_inv.
  - apply rbind_safe; [apply put_cells_safe|done].
  - intros b a (b' & Hb & [= -> _])%rbind_Ok. eapply put_cells_valid; [|apply batch_valid_empty|done].
    by constructor.
Qed.

Lemma put_boc_inv f U S boc f' :
  store_inv f U S → map_Forall (λ _ c, Cell_wf c) (boc_cells boc) → put_boc values f boc = (f', Ok tt) →
  store_inv f' U S.
Proof.
  intros Hi Hc Hop. pose proof Hi as (Hf & _). apply with_batch_inv in Hop as (b & Hm & Hv & Hf' & Hwf); [|done|..].
  - apply rbind_Ok in Hm as (u & _ & Hm). apply rbind_Ok in Hm as (b' & Hb & [= ->]).
    by eapply put_cells_inv.
  - apply rbind_safe; [apply verify_dag_safe'|]. intros. apply rbind_safe; [apply put_cells_safe|done].
  - intros b a (u & _ & (b' & Hb & [= -> _])%rbind_Ok)%rbind_Ok.
    eapply put_cells_valid; [|apply batch_valid_empty|done]. by apply values_wf.
Qed.

(** The batch of a retention or a release *)
Lemma adjust_batch_inv f up root f' :
  store_wf f → with_batch f (let? b := adjust f up root batch_empty in Ok (b, tt)) = (f', Ok tt) →
  ∃ b, adjust f up root batch_empty = Ok b ∧ batch_good b ∧ f' = committed f b ∧ store_wf f' ∧
    off_cells batch_empty b.
Proof.
  intros Hf Hop. apply with_batch_inv in Hop as (b & Hm & Hv & Hf' & Hwf); [|done|..].
  - apply rbind_Ok in Hm as (b' & Hb & [= ->]). exists b. split; [done|]. split; [by apply batch_valid_good|].
    split; [done|]. split; [done|by eapply adjust_off].
  - apply rbind_safe; [apply adjust_safe|done].
  - intros b a (b' & Hb & [= -> _])%rbind_Ok. eapply adjust_valid; [apply batch_valid_empty|done].
Qed.

Lemma retain_inv f U S root f' :
  store_inv f U S → retain_cell_root f root = (f', Ok tt) → store_inv f' (root :: U) S.
Proof.
  intros (Hf & Hok & HS) Hop. apply adjust_batch_inv in Hop as (b & Hb & Hg & -> & Hwf & Hoff); [|done].
  destruct (adjust_up f root batch_empty b _ Hb Hok) as [Hok' Hr]. split; [done|]. split.
  - apply (refs_ok_ext (view f b)); [|done].
    intros h. rewrite table_after, after_view; [done| |done]. rewrite Hr. apply not_elem_of_nil.
  - intros s. by rewrite off_cells_roots.
Qed.

Lemma release_inv f U U' S root f' :
  store_inv f U S → U ≡ₚ root :: U' → release_cell_root f root = (f', Ok tt) → store_inv f' U' S.
Proof.
  intros (Hf & Hok & HS) HU Hop. apply adjust_batch_inv in Hop as (b & Hb & Hg & -> & Hwf & Hoff); [|done].
  split; [done|]. split.
  - apply (refs_ok_ext (after f b)); [by apply table_after|].
    apply (adjust_down f root batch_empty b (U ++ (map_to_list S).*2)); [done| |by rewrite HU|done].
    intros h. apply not_elem_of_nil.
  - intros s. by rewrite off_cells_roots.
Qed.

(** The values of a map with one of them replaced *)
Lemma values_insert (S : gmap bytes bytes) k v :
  (map_to_list (<[ k := v ]> S)).*2 ≡ₚ v :: (map_to_list (delete k S)).*2.
Proof. by rewrite <-insert_delete_eq, map_to_list_insert by apply lookup_delete_eq. Qed.

Lemma values_delete (S : gmap bytes bytes) k :
  (map_to_list S).*2 ≡ₚ match S !! k with
    Some v => v :: (map_to_list (delete k S)).*2 | None => (map_to_list (delete k S)).*2 end.
Proof.
  destruct (S !! k) as [v|] eqn:Hv; [|by rewrite delete_id].
  rewrite <-(insert_delete_id S k v Hv) at 1. by rewrite map_to_list_insert by apply lookup_delete_eq.
Qed.

Lemma commit_inv f U S c f' :
  store_inv f U S → commitment_wf c → commit_block listing values f c = (f', Ok tt) →
  store_inv f' U (<[ shard_to_bytes (header_shard (bc_header c)) := state_root_hash (bc_header c) ]> S).
Proof.
  intros (Hf & Hok & HS) Hc Hop. set (sb := shard_to_bytes (header_shard (bc_header c))).
  apply with_batch_inv in Hop as (b & Hm & Hv & -> & Hwf); [|done|..].
  2:{ apply rbind_safe; [by apply commit_block_batch_safe|done]. }
  2:{ intros b a (b' & Hb & [= -> _])%rbind_Ok. by apply commit_block_batch_spec in Hb as [? _]. }
  apply rbind_Ok in Hm as (b' & Hb & [= ->]). pose proof (batch_valid_good b Hv) as Hg.
  destruct (commit_block_batch_spec listing values Hvalues f c b Hf Hc Hb) as (_ & _ & _ & _ & _ & Hsr & Hsr' & Hnr).
  fold sb in Hsr, Hsr'. split; [done|]. split.
  - intros h L. rewrite values_insert, <-Permutation_middle. revert h L.
    apply (commit_block_refs f c b (U ++ (map_to_list S).*2)); [done..| |done].
    intros old Hold. unfold shard_state_root, storage_read in Hold. fold sb in Hold. rewrite HS in Hold.
    rewrite (values_delete S sb). destruct (S !! sb) as [r|]; cbn [read_with] in Hold; [|by simplify_eq].
    destruct (len r =? 32); [|done]. cbn [rbind] in Hold. simplify_eq. by rewrite Permutation_middle.
  - intros s. rewrite committed_lookup by (done || apply good_root).
    destruct (decide (s = sb)) as [->|Hne]; [by rewrite Hsr, lookup_insert_eq|].
    rewrite lookup_insert_ne, Hsr', decide_False by (done || apply Hnr). apply HS.
Qed.

Lemma store_reach_inv f U S : store_reach f U S → store_inv f U S.
Proof.
  induction 1.
  - split; [apply map_Forall_empty|]. split; [|done].
    intros h L HL. rewrite map_to_list_empty in HL. by apply submseteq_nil_r in HL as ->.
  - by eapply put_cell_inv.
  - by eapply put_boc_inv.
  - by eapply retain_inv.
  - by eapply release_inv.
  - by eapply commit_inv.
Qed.

(** ** What survives *)

(** A stored cell refers to another. *)
Definition stored_ref (f : files) (h h' : bytes) : Prop :=
  ∃ c, storage_get_cell f h = Ok (Some c) ∧ h' ∈ cell_refs c.

Lemma get_cell_table f h n c :
  cell_table f h = Some (n, c) →
  storage_get_cell f h = Ok (Some c) ∧ cell_refcount f h = Ok (Some n) ∧ cell_hash c = h.
Proof.
  intros (v & Hv & Hd)%record_at_Some. unfold storage_get_cell, cell_refcount, storage_read.
  rewrite Hv. cbn [read_with]. rewrite Hd. split; [done|]. split; [done|].
  by apply decode_found in Hd as (_ & _ & ->).
Qed.

Lemma stored_ref_edge f h h' : stored_ref f h h' → ref_edge (cell_table f) h h'.
Proof.
  intros (c & Hc & Hh'). unfold storage_get_cell, storage_read in Hc.
  destruct (f !! file CELLS h) as [v|] eqn:Hv; [|done]. cbn [read_with] in Hc.
  apply rbind_Ok in Hc as (c' & Hc & [= ->]). apply rbind_Ok in Hc as ([n c'] & Hd & [= ->]).
  exists n, c. split; [|done]. apply record_at_Some. eauto.
Qed.

(** C16: no cell that is still needed is ever deleted. After any history of
    insertions, retentions, releases of retained roots and block commitments,
    every cell reachable from a root that the caller still retains, or from
    the root last committed for any shard, is read back under its own hash,
    and its reference count is at least the number of such roots that reach
    it; the last root of every shard is the one the store reports. *)
Theorem retained_cells_survive f U S :
  store_reach f U S →
  store_wf f ∧
  (∀ h L, L ⊆+ U ++ (map_to_list S).*2 → L ≠ [] → Forall (λ r, rtc (stored_ref f) r h) L →
     ∃ n c, storage_get_cell f h = Ok (Some c) ∧ cell_hash c = h ∧
            cell_refcount f h = Ok (Some n) ∧ len L ≤ n) ∧
  (∀ shard, shard_state_root f shard = Ok (S !! shard_to_bytes shard)).
Proof.
  intros (Hf & Hok & HS)%store_reach_inv. split; [done|]. split.
  - intros h L HL Hne Hreach. destruct (Hok h L HL Hne) as (n & c & Hh & Hn).
    { eapply Forall_impl; [exact Hreach|]. intros r. apply rtc_subrel, stored_ref_edge. }
    exists n, c. by destruct (get_cell_table f h n c Hh) as (? & ? & ?).
  - intros shard. unfold shard_state_root, storage_read. rewrite HS.
    destruct (S !! _) as [root|] eqn:Hr; [|done]. rewrite <-HS in Hr. cbn [read_with].
    destruct (Hf _ _ Hr) as [h n c He _|s a st He _ _ _|h hd He _|s _ Hl].
    + by apply root_not_cell in He.
    + by apply eq_sym, account_not_root in He.
    + by apply eq_sym, header_not_root in He.
    + by rewrite Hl.
Qed.
End refs.

(** ** Instances *)

(** A child, a parent that refers to it, and both in a bag *)
Definition sample_child_cell : Cell := {| data_bytes := [Byte.x07]; cell_refs := []; is_special := false |}.
Definition sample_child_hash : bytes := cell_hash (H:=toy_crypto) sample_child_cell.
Definition sample_parent_cell : Cell :=
  {| data_bytes := [Byte.x01]; cell_refs := [sample_child_hash]; is_special := false |}.
Definition sample_parent_hash : bytes := cell_hash (H:=toy_crypto) sample_parent_cell.

Definition sample_store : files :=
  let f := (put_cell (C:=toy_crypto) ∅ sample_child_cell).1 in
  (put_cell (C:=toy_crypto) f sample_parent_cell).1.

Definition retain (f : files) : files := (retain_cell_root (C:=toy_crypto) f sample_parent_hash).1.
Definition release (f : files) : files := (release_cell_root (C:=toy_crypto) f sample_parent_hash).1.
Definition count (f : files) (h : bytes) : result StorageError (option Z) :=
  cell_refcount (C:=toy_crypto) f h.

(** Retaining a root twice and releasing it twice leaves its children counted:
    they are never deleted. *)
Theorem release_leaks :
  count (retain sample_store) sample_child_hash = Ok (Some 1) ∧
  count (release (retain sample_store)) sample_child_hash = Ok None ∧
  count (release (release (retain (retain sample_store)))) sample_parent_hash = Ok None ∧
  count (release (release (retain (retain sample_store)))) sample_child_hash = Ok (Some 1).
Proof. vm_compute. split_and!; reflexivity. Qed.

Lemma pair_snd {A B} (p : A * B) b : p.2 = b → p = (p.1, b).
Proof. destruct p. by intros <-. Qed.

Lemma sample_cells_wf : Cell_wf sample_child_cell ∧ Cell_wf sample_parent_cell.
Proof.
  split; (split; [vm_compute; discriminate|]; split; [vm_compute; discriminate|]); [constructor|].
  constructor; [vm_compute; reflexivity|constructor].
Qed.

Lemma sample_reach :
  store_reach (C:=toy_crypto) map_to_list map_to_list (retain sample_store) [sample_parent_hash] ∅.
Proof.
  apply (reach_retain (C:=toy_crypto) _ _ sample_store [] ∅ sample_parent_hash).
  - apply (reach_put_cell (C:=toy_crypto) _ _ (put_cell (C:=toy_crypto) ∅ sample_child_cell).1 [] ∅
      sample_parent_cell _ sample_parent_hash).
    + apply (reach_put_cell (C:=toy_crypto) _ _ ∅ [] ∅ sample_child_cell _ sample_child_hash).
      * apply reach_empty.
      * apply sample_cells_wf.
      * apply pair_snd. vm_compute. reflexivity.
    + apply sample_cells_wf.
    + apply pair_snd. vm_compute. reflexivity.
  - apply pair_snd. vm_compute. reflexivity.
Qed.

Lemma retained_cells_survive_witness :
  ∃ n c, storage_get_cell (C:=toy_crypto) (retain sample_store) sample_child_hash = Ok (Some c) ∧
    cell_refcount (C:=toy_crypto) (retain sample_store) sample_child_hash = Ok (Some n) ∧ 1 ≤ n.
Proof.
  destruct (retained_cells_survive (C:=toy_crypto) map_to_list map_to_list
    (λ _, reflexivity _) (λ _, reflexivity _) _ _ _ sample_reach)
    as (_ & H & _).
  destruct (H sample_child_hash [sample_parent_hash]) as (n & c & H1 & _ & H2 & H3).
  - rewrite map_to_list_empty. reflexivity.
  - discriminate.
  - constructor; [|constructor]. apply rtc_once. exists sample_parent_cell.
    split; [vm_compute; reflexivity|left].
  - exists n, c. exact (conj H1 (conj H2 H3)).
Defined.
