(* ===== verification/Resharding.v ===== *)
(** A split of a shard on disk: onx-sharding (pipeline.rs) and the block
    commitments of onx-state-model (storage.rs). *)
From S2P Require Import Prelude Bytes Machine Text Primitives ToyCrypto Address Message Block Cell Boc Account Tree Admission Sharding Storage StorageState.

Section resharding.
Context {C : Crypto} `{!CryptoLaws C}.
Context (listing : files → list (bytes * bytes)) (Hlisting : ∀ f : files, listing f ≡ₚ map_to_list f).
Context (values : gmap bytes Cell → list (bytes * Cell)) (Hvalues : ∀ m : gmap bytes Cell, values m ≡ₚ map_to_list m).

(** The shards of a split are three. *)
Lemma split_shards_differ par s s' : siblings par s s' → s ≠ s' ∧ par ≠ s ∧ par ≠ s'.
Proof.
  intros (l & p & b & Hp & Hl & Hb & -> & ->).
  pose proof (child_valid par l p b Hp Hl Hb) as H1.
  assert (shard_prefix (child par l p (1 - b)) (l + 1) (2 * p + (1 - b))) as H2 by (apply child_valid; lia || done).
  split_and!; intros He.
  - rewrite He in H1. destruct (shard_prefix_inj _ _ _ _ _ H1 H2). lia.
  - rewrite <-He in H1. destruct (shard_prefix_inj _ _ _ _ _ H1 Hp). lia.
  - rewrite <-He in H2. destruct (shard_prefix_inj _ _ _ _ _ H2 Hp). lia.
Qed.

(** The state of a shard as a block commits it *)
Definition commits (c : BlockCommitment) (st : ShardState) : Prop :=
  commitment_wf c ∧ header_shard (bc_header c) = state_shard st ∧ bc_state c = accounts st.

(** A state with the accounts that a shard has on disk *)
Definition reloaded (st : ShardState) (accounts_on_disk : tree_accounts) : ShardState :=
  {| state_shard := state_shard st; accounts := accounts_on_disk; pending_messages := pending_messages st |}.

(** C18: a split is durable. A shard state is split, and a block of each child
    is committed, one after the other, to a well-formed store. Then both children
    load from the store as what the split made of them: every account of the
    parent in exactly one of the two; their roots are those of the two headers;
    and merging what was loaded, in either order, gives the parent back. The
    parent's own records are not touched: they load as before the split. *)
Theorem durable_split f st L R cL cR :
  store_wf f → shard_state_wf st → ShardIdent_wf (state_shard st) →
  split_shard_state st = Ok (L, R) → commits cL L → commits cR R →
  let f1 := commit_block listing values f cL in
  let f2 := commit_block listing values f1.1 cR in
  f1.2 = Ok tt → f2.2 = Ok tt →
  store_wf f2.1 ∧
  ∃ tL tR,
    load_shard_state listing f2.1 (state_shard L) = Ok tL ∧ load_shard_state listing f2.1 (state_shard R) = Ok tR ∧
    tL ∪ tR = accounts st ∧ tL ##ₘ tR ∧
    shard_state_root f2.1 (state_shard L) = Ok (Some (state_root_hash (bc_header cL))) ∧
    shard_state_root f2.1 (state_shard R) = Ok (Some (state_root_hash (bc_header cR))) ∧
    (∃ m, merge_shard_states (reloaded L tL) (reloaded R tR) = Ok m ∧ same_state m st) ∧
    (∃ m, merge_shard_states (reloaded R tR) (reloaded L tL) = Ok m ∧ same_state m st) ∧
    load_shard_state listing f2.1 (state_shard st) = load_shard_state listing f (state_shard st).
Proof.
  intros Hf Hst Hid Hsplit (HwL & HsL & HaL) (HwR & HsR & HaR) f1 f2 H1 H2.
  destruct (split_spec st Hst) as (_ & _ & Hs).
  destruct (Hs L R Hsplit) as (Hsib & Hun & Hdis & _ & _ & _ & _ & _ & Hm1 & Hm2). clear Hs.
  destruct (split_shards_differ _ _ _ Hsib) as (Hd1 & Hd2 & Hd3).
  destruct (commit_block_exact listing values Hlisting Hvalues f cL Hf HwL) as (Hf1 & _ & _ & Hok1).
  destruct (Hok1 H1) as (_ & Hl1 & Hr1 & _ & Ho1 & _). clear Hok1. fold f1 in Hf1, Hl1, Hr1, Ho1.
  destruct (commit_block_exact listing values Hlisting Hvalues f1.1 cR Hf1 HwR) as (Hf2 & _ & _ & Hok2).
  destruct (Hok2 H2) as (_ & Hl2 & Hr2 & _ & Ho2 & _). clear Hok2. fold f2 in Hf2, Hl2, Hr2, Ho2.
  rewrite HsL in Hl1, Hr1, Ho1. rewrite HsR in Hl2, Hr2, Ho2. rewrite HaL in Hl1. rewrite HaR in Hl2.
  destruct (Ho2 (state_shard L)) as (Hll & Hrl & _); [rewrite <-HsL; apply HwL|done|].
  destruct (Ho1 (state_shard st)) as (Hp1 & _); [done|done|].
  destruct (Ho2 (state_shard st)) as (Hp2 & _); [done|done|].
  split; [done|]. exists (accounts L), (accounts R).
  assert (reloaded L (accounts L) = L ∧ reloaded R (accounts R) = R) as [-> ->] by (by destruct L, R).
  split_and!; [congruence|done|done|done|congruence|done|done|done|congruence].
Qed.
End resharding.

(** ** A sample: the root shard with an account on either side *)

Definition sample_children : ShardState * ShardState :=
  match split_shard_state (C:=toy_crypto) sample_state with Ok r => r | _ => (sample_state, sample_state) end.

Lemma sample_split : split_shard_state (C:=toy_crypto) sample_state = Ok (sample_children.1, sample_children.2).
Proof.
  assert (is_ok (split_shard_state (C:=toy_crypto) sample_state) = true) as H by (vm_compute; reflexivity).
  unfold sample_children. destruct (split_shard_state _) as [[L R]|e|]; [reflexivity|discriminate H..].
Qed.

Lemma sample_state_tree_wf : tree_wf (accounts sample_state).
Proof.
  apply map_Forall_insert_2; [by split|]. apply map_Forall_insert_2; [by split|]. apply map_Forall_empty.
Qed.

Lemma sample_root_shard_wf : ShardIdent_wf (state_shard sample_state).
Proof. change (ShardIdent_wf (shard_root 0)). split; [done|]. exists 0, 0. by unfold shard_prefix. Qed.

Definition child_root (st : ShardState) : bytes :=
  match tree_state_root_hash (C:=toy_crypto) (accounts st) with Ok h => h | _ => [] end.

Definition child_commitment (st : ShardState) : BlockCommitment :=
  {| bc_header :=
       {| magic_constructor := BLOCK_HEADER_MAGIC; header_shard := state_shard st; seq_no := 1;
          flags := 0; gen_utime := 0; start_lt := 0; end_lt := 1; prev_key_block := 0;
          prev_ref_hash := Uint256_ZERO; prev_ref_hash_2 := Uint256_ZERO; master_ref_hash := Uint256_ZERO;
          state_root_hash := child_root st; in_msg_root_hash := Uint256_ZERO; out_msg_root_hash := Uint256_ZERO |};
     bc_state := accounts st; cell_bocs := [] |}.

Lemma child_commits st b :
  state_shard st = shard_at 0 1 b → b = 0 ∨ b = 1 → tree_wf (accounts st) → len (child_root st) = 32 →
  commits (child_commitment st) st.
Proof.
  intros Hs Hb Ht Hroot. split; [|done].
  assert (shard_prefix (shard_at 0 1 b) 1 b) as Hp by (apply shard_at_prefix; lia).
  assert (ShardIdent_wf (state_shard st)) as Hid by (rewrite Hs; split; [done|by exists 1, b]).
  split; [done|]. split; [|constructor]. split; [|split; [done|split; [done|by split]]].
  unfold BlockHeader_typed, shard_typed. cbn [magic_constructor header_shard seq_no flags gen_utime
    start_lt end_lt prev_key_block prev_ref_hash prev_ref_hash_2 master_ref_hash state_root_hash
    in_msg_root_hash out_msg_root_hash child_commitment bc_header].
  pose proof (ShardIdent_wf_u64 _ Hid) as Hu. rewrite Hroot. destruct Hid as [Hw _].
  rewrite !in_int_u32, !in_int_u64, in_int_u16 in *. unfold in_u, BLOCK_HEADER_MAGIC in *. split_and!; done || lia.
Qed.

Lemma durable_split_witness :
  let f1 := commit_block (C:=toy_crypto) map_to_list map_to_list ∅ (child_commitment sample_children.1) in
  let f2 := commit_block (C:=toy_crypto) map_to_list map_to_list f1.1 (child_commitment sample_children.2) in
  ∃ tL tR, load_shard_state map_to_list f2.1 (shard_at 0 1 0) = Ok tL ∧
    load_shard_state map_to_list f2.1 (shard_at 0 1 1) = Ok tR ∧ tL ∪ tR = accounts sample_state.
Proof.
  assert (bool_decide (state_shard sample_children.1 = shard_at 0 1 0) = true) as HL by (vm_compute; reflexivity).
  assert (bool_decide (state_shard sample_children.2 = shard_at 0 1 1) = true) as HR by (vm_compute; reflexivity).
  apply bool_decide_eq_true in HL, HR.
  assert (tree_wf sample_children.1.(accounts) ∧ tree_wf sample_children.2.(accounts)) as [HtL HtR].
  { destruct (split_spec (C:=toy_crypto) sample_state sample_state_wf) as (_ & _ & Hs).
    destruct (Hs _ _ sample_split) as (_ & Hun & Hdis & _).
    pose proof sample_state_tree_wf as Hwf. rewrite <-Hun in Hwf.
    by apply map_Forall_union in Hwf. }
  destruct (durable_split (C:=toy_crypto) map_to_list (λ _, reflexivity _) map_to_list (λ _, reflexivity _)
    ∅ sample_state sample_children.1 sample_children.2 (child_commitment sample_children.1)
    (child_commitment sample_children.2)) as (_ & tL & tR & H1 & H2 & H3 & _).
  - apply map_Forall_empty.
  - exact sample_state_wf.
  - exact sample_root_shard_wf.
  - exact sample_split.
  - apply (child_commits _ 0); [exact HL|by left|exact HtL|vm_compute; reflexivity].
  - apply (child_commits _ 1); [exact HR|by right|exact HtR|vm_compute; reflexivity].
  - vm_compute. reflexivity.
  - vm_compute. reflexivity.
  - exists tL, tR. rewrite <-HL, <-HR. split; [exact H1|]. split; [exact H2|exact H3].
Defined.
