(* ===== verification/Network.v ===== *)
(** [onx-networking], [lib.rs]: errors, key descriptions and abstract addresses,
    channel identifiers, the XOR metric and discovery records. *)
From S2P Require Import Prelude Bytes Machine Primitives ToyCrypto.

Inductive NetworkError : Type :=
  | TruncatedPacket
  | AbstractAddressMismatch
  | DecryptionFailed
  | NetInvalidSignature
  | ExpiredTimestamp
  | ZeroChannelAbuse
  | MalformedRldpFrame
  | PayloadDigestMismatch
  | RldpTimeout
  | DhtRecordExpired
  | DhtMalformedRecord
  | DhtUnknownRecordKind
  | DhtRpcFailed.

#[export] Instance NetworkError_eq_dec : EqDecision NetworkError.
Proof. solve_decision. Defined.

Definition ED25519_TAG : Z := 0x48a30121.
Definition ONX_ADNL_KEY_DESC_V1 : bytes := from_ascii "ONX_ADNL_KEY_DESC_V1".
Definition ONX_ADNL_CHANNEL_V1 : bytes := from_ascii "ONX_ADNL_CHANNEL_V1".
Definition ONX_DHT_RECORD_V1 : bytes := from_ascii "ONX_DHT_RECORD_V1".

(** [for (i, byte) in res.iter_mut().enumerate() { *byte = a[i] ^ b[i] }]: both
    keys are 32-byte arrays. *)
Definition xor_byte (a b : byte) : byte := byte_of (Z.lxor (byte_val a) (byte_val b)).
Definition xor_distance (key1 key2 : bytes) : bytes := zip_with xor_byte key1 key2.

Record DhtRecord : Type := {
  key : bytes;
  value : bytes;
  expiry : Z;
  owner_address : bytes;
  signature : bytes;
}.

#[export] Instance DhtRecord_eq_dec : EqDecision DhtRecord.
Proof. solve_decision. Defined.

Definition to_signable_bytes (key value : bytes) (expiry : Z) (owner_address : bytes) : bytes :=
  uint256_encode key
  ++ int_encode Uint32 (as_u 32 (len value))
  ++ value
  ++ int_encode Uint64 expiry
  ++ uint256_encode owner_address.

Definition record_signable (r : DhtRecord) : bytes :=
  to_signable_bytes (key r) (value r) (expiry r) (owner_address r).

Definition DhtRecord_to_bytes (r : DhtRecord) : bytes := record_signable r ++ signature r.

(** The closure [take]: the first [count] bytes and the advanced cursor *)
Definition take_bytes (cursor : bytes) (count : Z) : result NetworkError (bytes * bytes) :=
  if len cursor <? count then Err DhtMalformedRecord
  else
    let? head := slice cursor 0 count in
    let? tail := slice cursor count (len cursor) in
    Ok (head, tail).

(** [usize] is 64 bits wide. *)
Definition record_decode_exact (bs : bytes) : result NetworkError DhtRecord :=
  let FIXED_WITHOUT_VALUE := 32 + 4 + 8 + 32 + 64 in
  if len bs <? FIXED_WITHOUT_VALUE then Err DhtMalformedRecord
  else
    let? (b, cursor) := take_bytes bs 32 in
    let? key := map_err (λ _, DhtMalformedRecord) (uint256_decode_exact b) in
    let? (b, cursor) := take_bytes cursor 4 in
    let length := from_be_bytes Uint32 b in
    let? needed := ok_or (checked_add_u 64 length (8 + 32 + 64)) DhtMalformedRecord in
    if len cursor <? needed then Err DhtMalformedRecord
    else
      let? (value, cursor) := take_bytes cursor length in
      let? (b, cursor) := take_bytes cursor 8 in
      let? expiry := map_err (λ _, DhtMalformedRecord) (int_decode_exact Uint64 b) in
      let? (b, cursor) := take_bytes cursor 32 in
      let? owner := map_err (λ _, DhtMalformedRecord) (uint256_decode_exact b) in
      let? (b, cursor) := take_bytes cursor 64 in
      let? sig := map_err (λ _, DhtMalformedRecord) (Signature_decode_exact b) in
      if negb (len cursor =? 0) then Err DhtMalformedRecord
      else Ok {| key := key; value := value; expiry := expiry; owner_address := owner; signature := sig |}.

(** Data the code declares and does not use yet *)
Record OverlayAnnouncement : Type := {
  overlay_id : bytes;
  candidate_hash : bytes;
  overlay_epoch : Z;
  overlay_chunk_count : Z;
  reconstruction_threshold : Z;
  overlay_sender : bytes;
  overlay_signature : bytes;
}.

Record RldpChunk : Type := {
  ck_transfer_id : bytes;
  ck_total_size : Z;
  ck_chunk_size : Z;
  ck_chunk_count : Z;
  ck_seq_no : Z;
  ck_chunk_data : bytes;
}.

Section network.
Context {C : Crypto}.

Record KeyDescription : Type := { constructor_tag : Z; kd_public_key : VerifyingKey }.

Definition new_ed25519 (k : VerifyingKey) : KeyDescription :=
  {| constructor_tag := ED25519_TAG; kd_public_key := k |}.

Definition KeyDescription_to_bytes (d : KeyDescription) : bytes :=
  int_encode Uint32 (constructor_tag d) ++ PublicKey_encode (kd_public_key d).

Definition compute_abstract_address (d : KeyDescription) : bytes :=
  domain_hash ONX_ADNL_KEY_DESC_V1 (KeyDescription_to_bytes d).

Definition derive_channel_id (shared_secret sender_address recipient_address : bytes) : bytes :=
  domain_hash ONX_ADNL_CHANNEL_V1
    (shared_secret ++ uint256_encode sender_address ++ uint256_encode recipient_address).

Definition verify_record_signature (r : DhtRecord) (owner : VerifyingKey) : result NetworkError unit :=
  if is_err (PublicKey_verify owner VALIDATOR_SIGN_V1 (domain_hash ONX_DHT_RECORD_V1 (record_signable r))
               (signature r))
  then Err NetInvalidSignature else Ok tt.

(** [dht_daemon.rs] *)
Definition sign_record (owner : SigningKey) (key value : bytes) (expiry : Z) : DhtRecord :=
  let owner_address := compute_abstract_address (new_ed25519 (SecretKey_public_key owner)) in
  let bs := to_signable_bytes key value expiry owner_address in
  let signature := SecretKey_sign owner VALIDATOR_SIGN_V1 (domain_hash ONX_DHT_RECORD_V1 bs) in
  {| key := key; value := value; expiry := expiry; owner_address := owner_address; signature := signature |}.
End network.

(** ** The metric *)

Lemma length_xor_distance a b : length a = length b → length (xor_distance a b) = length a.
Proof. intros H. unfold xor_distance. rewrite length_zip_with. lia. Qed.

Lemma len_xor_distance a b : len a = len b → len (xor_distance a b) = len a.
Proof. unfold len. intros H. rewrite length_xor_distance; lia. Qed.

Lemma byte_val_xor a b : byte_val (xor_byte a b) = Z.lxor (byte_val a) (byte_val b).
Proof.
  unfold xor_byte. rewrite byte_val_of, Z.mod_small; [done|].
  pose proof (byte_val_bound a). pose proof (byte_val_bound b).
  apply (lxor_bound 8); [lia|unfold in_u; lia..].
Qed.

(** The distance of two keys is the exclusive or of the numbers they encode. *)
Lemma be_val_xor a b : length a = length b → be_val (xor_distance a b) = Z.lxor (be_val a) (be_val b).
Proof.
  revert b. induction a as [|x a IH]; intros [|y b] Hl; [done|done..|].
  injection Hl as Hl. change (xor_distance (x :: a) (y :: b)) with (xor_byte x y :: xor_distance a b).
  rewrite !be_val_cons, byte_val_xor, IH by done.
  assert (len (xor_distance a b) = len a) as -> by (apply len_xor_distance; unfold len; lia).
  assert (len b = len a) as -> by (unfold len; lia).
  change 256 with (2 ^ 8). rewrite <-Z.pow_mul_r by (auto; lia).
  set (n := 8 * len a). pose proof (len_nonneg a).
  assert (0 ≤ n) by lia.
  assert (∀ c : bytes, length c = length a → in_u n (be_val c)) as Hb.
  { intros c Hc. pose proof (be_val_bound c) as Hv. unfold in_u, n.
    assert (len c = len a) as He by (unfold len; lia). rewrite He in Hv.
    rewrite Z.pow_mul_r by lia. done. }
  pose proof (Hb a eq_refl) as Ha. pose proof (Hb b (eq_sym Hl)) as Hbb.
  assert (∀ u v, in_u n v → u * 2 ^ n + v = Z.lor (u * 2 ^ n) v) as Hlor.
  { intros u v Hv. rewrite <-Z.add_nocarry_lor; [done|]. apply Z.bits_inj'. intros i Hi.
    rewrite Z.land_spec, Z.bits_0, <-Z.shiftl_mul_pow2, Z.shiftl_spec by lia.
    destruct (Z.lt_ge_cases i n); [by rewrite Z.testbit_neg_r by lia|].
    rewrite (testbit_high n v) by (done || lia). by rewrite andb_false_r. }
  rewrite !Hlor by (done || by apply lxor_bound). apply Z.bits_inj'. intros i Hi.
  rewrite !Z.lor_spec, !Z.lxor_spec, !Z.lor_spec, <-!Z.shiftl_mul_pow2, !Z.shiftl_spec by lia.
  destruct (Z.lt_ge_cases i n).
  - by rewrite !(Z.testbit_neg_r _ (i - n)) by lia.
  - rewrite !(testbit_high n (be_val _)) by (done || lia).
    by rewrite !orb_false_r, Z.lxor_spec.
Qed.

Lemma nocarry a b : (∀ i, 0 ≤ i → Z.testbit a i = true → Z.testbit b i = false) → a + b = Z.lxor a b.
Proof.
  intros H. apply Z.add_nocarry_lxor, Z.bits_inj'. intros i Hi. rewrite Z.land_spec, Z.bits_0.
  specialize (H i Hi). destruct (Z.testbit a i); [by rewrite H|done].
Qed.

Lemma lxor_le_add a b : 0 ≤ a → 0 ≤ b → Z.lxor a b ≤ a + b.
Proof.
  intros Ha Hb.
  assert (a = Z.land a b + Z.ldiff a b) as Ea.
  { rewrite nocarry; [apply Z.bits_inj'|]; intros i Hi;
      rewrite ?Z.lxor_spec, ?Z.land_spec, ?Z.ldiff_spec; by destruct (Z.testbit a i), (Z.testbit b i). }
  assert (b = Z.land a b + Z.ldiff b a) as Eb.
  { rewrite nocarry; [apply Z.bits_inj'|]; intros i Hi;
      rewrite ?Z.lxor_spec, ?Z.land_spec, ?Z.ldiff_spec; by destruct (Z.testbit a i), (Z.testbit b i). }
  assert (Z.lxor a b = Z.ldiff a b + Z.ldiff b a) as ->.
  { rewrite nocarry; [apply Z.bits_inj'|]; intros i Hi;
      rewrite ?Z.lxor_spec, ?Z.ldiff_spec; by destruct (Z.testbit a i), (Z.testbit b i). }
  assert (0 ≤ Z.land a b) by (apply Z.land_nonneg; by left). lia.
Qed.

(** The distance of keys is a metric: the exclusive or of the numbers they
    encode, symmetric, zero exactly between equal keys, obeying the triangle
    inequality; and it is unidirectional - every distance from a key is that
    of exactly one key. *)
Theorem xor_metric a b c d :
  len a = 32 → len b = 32 → len c = 32 → len d = 32 →
  be_val (xor_distance a b) = Z.lxor (be_val a) (be_val b) ∧ len (xor_distance a b) = 32 ∧
  xor_distance a b = xor_distance b a ∧
  (be_val (xor_distance a b) = 0 ↔ a = b) ∧
  be_val (xor_distance a c) ≤ be_val (xor_distance a b) + be_val (xor_distance b c) ∧
  (xor_distance a b = d ↔ b = xor_distance a d).
Proof.
  intros Ha Hb Hc Hd.
  assert (∀ x y : bytes, len x = 32 → len y = 32 → length x = length y) as Hl by (unfold len; lia).
  assert (∀ x y, len x = 32 → len y = 32 → len (xor_distance x y) = 32) as Hlx.
  { intros x y Hx Hy. rewrite len_xor_distance; congruence. }
  assert (∀ x y, len x = 32 → len y = 32 → be_val (xor_distance x y) = Z.lxor (be_val x) (be_val y)) as Hx.
  { intros x y ? ?. apply be_val_xor; auto. }
  assert (∀ x y : bytes, len x = 32 → len y = 32 → be_val x = be_val y → x = y) as Hinj.
  { intros x y Hx1 Hy1. apply be_val_inj. congruence. }
  split; [auto|]. split; [auto|]. split.
  { apply Hinj; auto. rewrite !Hx by done. apply Z.lxor_comm. }
  split.
  { rewrite Hx by done. rewrite Z.lxor_eq_0_iff. split; [by apply Hinj|by intros ->]. }
  split.
  - rewrite !Hx by done. etrans; [|apply lxor_le_add; apply Z.lxor_nonneg; split; intros; apply be_val_bound].
    rewrite Z.lxor_assoc, <-(Z.lxor_assoc (be_val b)), Z.lxor_nilpotent, Z.lxor_0_l. done.
  - split; [intros <-|intros ->]; apply Hinj; auto; rewrite !Hx by auto;
      by rewrite <-Z.lxor_assoc, Z.lxor_nilpotent, Z.lxor_0_l.
Qed.

(** ** Records *)

Definition DhtRecord_typed (r : DhtRecord) : Prop :=
  len (key r) = 32 ∧ len (value r) < 2 ^ 32 ∧ in_int Uint64 (expiry r) ∧
  len (owner_address r) = 32 ∧ len (signature r) = 64.

Lemma take_bytes_app a b n : len a = n → take_bytes (a ++ b) n = Ok (a, b).
Proof.
  intros Ha. pose proof (len_nonneg a). pose proof (len_nonneg b). unfold take_bytes.
  rewrite (proj2 (Z.ltb_ge _ _)) by (rewrite len_app; lia). by decode_simpl.
Qed.

Lemma take_bytes_inv bs n a b : 0 ≤ n → take_bytes bs n = Ok (a, b) → bs = a ++ b ∧ len a = n.
Proof.
  intros Hn H. unfold take_bytes in H. destruct (_ <? _) eqn:Hl; [done|]. bool_to_prop.
  destruct (split_at_len bs n ltac:(lia)) as (x & y & -> & Hx). pose proof (len_nonneg y).
  rewrite slice_app_l, rbind_ret in H by lia. rewrite slice_app_r, slice_all, rbind_ret in H
    by (rewrite ?len_app; lia). by simplify_eq.
Qed.

Lemma take_bytes_safe bs n : 0 ≤ n → safe (take_bytes bs n).
Proof.
  intros Hn. unfold take_bytes. safe_step; [done|]. bool_to_prop.
  safe_step; [apply slice_safe; lia|]. safe_step; [apply slice_safe; lia|done].
Qed.

Lemma take_bytes_ok a b n : len a = n → take_bytes (a ++ b) n = Ok (a, b).
Proof. apply take_bytes_app. Qed.

Lemma sig_decode bs v : Signature_decode_exact bs = Ok v ↔ len v = 64 ∧ bs = v.
Proof.
  unfold Signature_decode_exact. split.
  - intros H. res_inv. bool_to_prop. split; [lia|done].
  - intros [Hl ->]. by rewrite Hl, Z.ltb_irrefl.
Qed.

Lemma record_roundtrip r : DhtRecord_typed r → record_decode_exact (DhtRecord_to_bytes r) = Ok r.
Proof.
  intros (Hk & Hv & He & Ho & Hs). pose proof (len_nonneg (value r)).
  unfold record_decode_exact, DhtRecord_to_bytes, record_signable, to_signable_bytes, uint256_encode,
    uint256_decode_exact.
  rewrite as_u_id by (unfold in_u; lia). rewrite <-!app_assoc.
  rewrite (proj2 (Z.ltb_ge _ _)) by (autorewrite with len; lia).
  rewrite take_bytes_app by done. bind_simpl.
  rewrite (proj2 (fixed_decode_exact_Ok 32 _ (key r))) by done. cbn [map_err]. bind_simpl.
  rewrite take_bytes_app by by autorewrite with len. bind_simpl.
  rewrite from_be_bytes_encode by (rewrite in_int_u32; unfold in_u; lia). cbv zeta.
  rewrite checked_add_u_ok by lia. bind_simpl.
  rewrite (proj2 (Z.ltb_ge _ _)) by (autorewrite with len; lia).
  rewrite take_bytes_app by done. bind_simpl.
  rewrite take_bytes_app by by autorewrite with len. bind_simpl.
  rewrite (proj2 (int_decode_exact_Ok Uint64 _ (expiry r))) by done. cbn [map_err]. bind_simpl.
  rewrite take_bytes_app by done. bind_simpl.
  rewrite (proj2 (fixed_decode_exact_Ok 32 _ (owner_address r))) by done. cbn [map_err]. bind_simpl.
  rewrite <-(app_nil_r (signature r)) at 1. rewrite take_bytes_app by done. bind_simpl.
  rewrite (proj2 (sig_decode _ (signature r))) by done. cbn [map_err]. bind_simpl. by destruct r.
Qed.

Lemma record_surj bs v : record_decode_exact bs = Ok v → ∃ r, DhtRecord_typed r ∧ bs = DhtRecord_to_bytes r.
Proof.
  intros H. unfold record_decode_exact, uint256_decode_exact in H. cbv zeta in H.
  destruct (_ <? _) eqn:Hl; [done|].
  apply rbind_Ok in H as ([b1 c1] & H1 & H). apply take_bytes_inv in H1 as [-> L1]; [|lia].
  apply rbind_Ok in H as (k & Hk & H). apply map_err_Ok, fixed_decode_exact_Ok in Hk as [_ ->].
  apply rbind_Ok in H as ([b2 c2] & H2 & H). apply take_bytes_inv in H2 as [-> L2]; [|lia].
  pose proof (from_be_bytes_range Uint32 b2 L2) as Hr.
  apply rbind_Ok in H as (need & _ & H). destruct (len c2 <? need); [done|].
  apply rbind_Ok in H as ([b3 c3] & H3 & H).
  apply take_bytes_inv in H3 as [-> L3]; [|rewrite in_int_u32 in Hr; apply Hr].
  apply rbind_Ok in H as ([b4 c4] & H4 & H). apply take_bytes_inv in H4 as [-> L4]; [|lia].
  apply rbind_Ok in H as (e & He & H). apply map_err_Ok, int_decode_exact_Ok in He as [He ->].
  apply rbind_Ok in H as ([b5 c5] & H5 & H). apply take_bytes_inv in H5 as [-> L5]; [|lia].
  apply rbind_Ok in H as (o & Ho & H). apply map_err_Ok, fixed_decode_exact_Ok in Ho as [_ ->].
  apply rbind_Ok in H as ([b6 c6] & H6 & H). apply take_bytes_inv in H6 as [-> L6]; [|lia].
  apply rbind_Ok in H as (s & Hs & H). apply map_err_Ok, sig_decode in Hs as [_ ->].
  destruct (negb _) eqn:Hc; [done|]. bool_to_prop. apply len_0_nil in Hc as ->.
  exists {| key := k; value := b3; expiry := e; owner_address := o; signature := s |}. split.
  - split; [done|]. split; [|done]. cbn [value]. rewrite L3. rewrite in_int_u32 in Hr. apply Hr.
  - unfold DhtRecord_to_bytes, record_signable, to_signable_bytes, uint256_encode.
    cbn [key value expiry owner_address signature]. rewrite L3.
    rewrite as_u_id by (rewrite in_int_u32 in Hr; apply Hr).
    rewrite int_encode_from_be_bytes by done. by rewrite <-!app_assoc, app_nil_r.
Qed.

Lemma record_decode_safe bs : safe (record_decode_exact bs).
Proof.
  unfold record_decode_exact, uint256_decode_exact. cbv zeta. safe_step; [done|].
  safe_step; [by apply take_bytes_safe|]. destruct a as [b1 c1]. safe_step; [auto with res|].
  safe_step; [by apply take_bytes_safe|]. destruct a0 as [b2 c2].
  apply take_bytes_inv in H1 as [_ L2]; [|lia].
  pose proof (from_be_bytes_range Uint32 b2 L2) as Hr. rewrite in_int_u32 in Hr.
  safe_step; [auto with res|]. safe_step; [done|].
  safe_step; [apply take_bytes_safe, Hr|]. destruct a1 as [b3 c3].
  safe_step; [by apply take_bytes_safe|]. destruct a1 as [b4 c4]. safe_step; [auto with res|].
  safe_step; [by apply take_bytes_safe|]. destruct a2 as [b5 c5]. safe_step; [auto with res|].
  safe_step; [by apply take_bytes_safe|]. destruct a3 as [b6 c6].
  safe_step; [apply map_err_safe; unfold Signature_decode_exact; eauto with res|]. by case_match.
Qed.

#[export] Instance DhtRecord_codec : ExactCodec DhtRecord_typed DhtRecord_to_bytes record_decode_exact.
Proof. apply codec_intro; [apply record_roundtrip|apply record_surj|apply record_decode_safe]. Qed.

Section records.
Context {C : Crypto} `{!CryptoLaws C}.

Definition same_record (r r' : DhtRecord) : Prop :=
  key r = key r' ∧ value r = value r' ∧ expiry r = expiry r' ∧ owner_address r = owner_address r'.

Lemma record_signable_inj r r' :
  DhtRecord_typed r → DhtRecord_typed r' → record_signable r = record_signable r' → same_record r r'.
Proof.
  intros Hr Hr' He.
  set (r2 := {| key := key r'; value := value r'; expiry := expiry r';
                owner_address := owner_address r'; signature := signature r |}).
  assert (DhtRecord_typed r2) as Hr2.
  { destruct Hr as (_ & _ & _ & _ & Hs), Hr' as (? & ? & ? & ? & _). by split_and!. }
  assert (r = r2) as Heq; [|exact (conj (f_equal key Heq) (conj (f_equal value Heq)
    (conj (f_equal expiry Heq) (f_equal owner_address Heq))))].
  apply (codec_enc_inj DhtRecord_typed DhtRecord_to_bytes record_decode_exact); [done|done|].
  unfold DhtRecord_to_bytes. by rewrite He.
Qed.

Lemma len_address d : len (compute_abstract_address d) = 32.
Proof. apply len_domain_hash. Qed.

Lemma address_inj k k' :
  compute_abstract_address (new_ed25519 k) = compute_abstract_address (new_ed25519 k') →
  k = k' ∨ sha256_collision.
Proof.
  intros [H|?]%domain_hash_binding; [left|by right].
  apply app_inj_len in H as [_ H]; [|by autorewrite with len].
  apply (f_equal vk_from_bytes) in H. unfold PublicKey_encode in H. cbn [kd_public_key new_ed25519] in H.
  rewrite !vk_from_to in H. by simplify_eq.
Qed.

Lemma verify_record_Ok r k :
  verify_record_signature r k = Ok tt ↔
  verify_strict k (domain_separated_message VALIDATOR_SIGN_V1 (domain_hash ONX_DHT_RECORD_V1 (record_signable r)))
    (signature r) = true.
Proof. unfold verify_record_signature, PublicKey_verify. by destruct (verify_strict _ _ _). Qed.

(** Discovery records. A byte string is accepted exactly when it is the
    canonical encoding of a record whose fields fit their widths, and no input
    aborts. A signed record verifies under its owner's key and carries the
    owner's address. The signed message determines key, value, expiry and
    owner, and the owner's address the key, unless SHA-256 collides. *)
Theorem discovery_records bs r r' :
  (record_decode_exact bs = Ok r ↔ DhtRecord_typed r ∧ bs = DhtRecord_to_bytes r) ∧
  record_decode_exact bs ≠ Panic ∧
  (∀ sk k v e, len k = 32 → len v < 2 ^ 32 → in_u 64 e →
     let s := sign_record sk k v e in
     DhtRecord_typed s ∧ verify_record_signature s (sk_verifying_key sk) = Ok tt ∧
     owner_address s = compute_abstract_address (new_ed25519 (sk_verifying_key sk))) ∧
  (DhtRecord_typed r → DhtRecord_typed r' →
   domain_hash ONX_DHT_RECORD_V1 (record_signable r) = domain_hash ONX_DHT_RECORD_V1 (record_signable r') →
   same_record r r' ∨ sha256_collision) ∧
  (∀ k k', compute_abstract_address (new_ed25519 k) = compute_abstract_address (new_ed25519 k') →
     k = k' ∨ sha256_collision).
Proof.
  split; [apply codec_exact|]. split; [apply codec_safe|]. split; [|split].
  - intros sk k v e Hk Hv He s. split; [|split; [|done]].
    + unfold DhtRecord_typed, s, sign_record. cbn [key value expiry owner_address signature].
      rewrite in_int_u64, len_address. unfold SecretKey_sign. rewrite sign_len. done.
    + apply verify_record_Ok. unfold s, sign_record. cbn [signature]. apply sign_verifies.
  - intros Hr Hr' [H|?]%domain_hash_binding; [left|by right]. by apply record_signable_inj.
  - apply address_inj.
Qed.
End records.

Lemma xor_metric_witness :
  be_val (xor_distance (be_bytes 32 5) (be_bytes 32 12)) = 9 ∧
  be_val (xor_distance (be_bytes 32 5) (be_bytes 32 12)) ≤
  be_val (xor_distance (be_bytes 32 5) (be_bytes 32 3)) + be_val (xor_distance (be_bytes 32 3) (be_bytes 32 12)).
Proof.
  destruct (xor_metric (be_bytes 32 5) (be_bytes 32 3) (be_bytes 32 12) (be_bytes 32 0)
    (len_be_bytes 32 5) (len_be_bytes 32 3) (len_be_bytes 32 12) (len_be_bytes 32 0)) as (_ & _ & _ & _ & H & _).
  split; [vm_compute; reflexivity|exact H].
Defined.

(** A record signed with the sample keys verifies and survives the wire. *)
Lemma discovery_records_witness :
  let s := sign_record (C:=toy_crypto) 5 (be_bytes 32 9) [Byte.x01] 100 in
  verify_record_signature (C:=toy_crypto) s (sk_verifying_key (Crypto:=toy_crypto) 5) = Ok tt ∧
  record_decode_exact (DhtRecord_to_bytes s) = Ok s.
Proof.
  intros s.
  destruct (discovery_records (C:=toy_crypto) (DhtRecord_to_bytes s) s s) as (Hdec & _ & Hsign & _).
  destruct (Hsign 5 (be_bytes 32 9) [Byte.x01] 100 (len_be_bytes 32 9)) as (Ht & Hv & _);
    [apply Z.ltb_lt; vm_compute; reflexivity|split; lia|].
  split; [exact Hv|]. apply Hdec. split; [exact Ht|reflexivity].
Defined.
