(* ===== verification/Rldp.v ===== *)
(** [onx-networking], [rldp.rs]: reliable transfer of large payloads - frames and
    acknowledgements, the sender's rounds, the receiver's reassembly, and the two
    loops that drive them over datagrams. *)
From S2P Require Import Prelude Bytes Machine Primitives ToyCrypto Network.

Definition DATA_TAG : Z := 0x71d2b841.
Definition ACK_TAG : Z := 0x3a4f1092.
Definition DEFAULT_CHUNK_SIZE : Z := 1024.
Definition MAX_TRANSFER_SIZE : Z := 16 * 1024 * 1024.
Definition DATA_HEADER_LEN : Z := 4 + 32 + 32 + 4 + 2 + 2 + 2 + 2.
Definition ACK_HEADER_LEN : Z := 4 + 32 + 4 + 2 + 2.

Record RldpConfig : Type := {
  cfg_chunk_size : Z;
  redundancy : Z;
  packets_per_round : Z;
  max_rounds : Z;
}.

Definition RldpConfig_default : RldpConfig :=
  {| cfg_chunk_size := DEFAULT_CHUNK_SIZE; redundancy := 3; packets_per_round := 128; max_rounds := 20 |}.

Record RldpDataFrame : Type := {
  transfer_id : bytes;
  payload_digest : bytes;
  total_size : Z;
  chunk_size : Z;
  chunk_count : Z;
  seq_no : Z;
  chunk_data : bytes;
}.

#[export] Instance RldpDataFrame_eq_dec : EqDecision RldpDataFrame.
Proof. solve_decision. Defined.

Record RldpAckFrame : Type := { ack_transfer_id : bytes; ack_seq : Z; received_mask : bytes }.

#[export] Instance RldpAckFrame_eq_dec : EqDecision RldpAckFrame.
Proof. solve_decision. Defined.

(** [a.div_ceil(b)] *)
Definition div_ceil (a b : Z) : Z := if a mod b =? 0 then a / b else a / b + 1.

Definition validate_dimensions (total_size chunk_size chunk_count : Z) : result NetworkError unit :=
  if (total_size =? 0) || (MAX_TRANSFER_SIZE <? total_size) || (chunk_size =? 0) || (chunk_count =? 0)
     || negb (div_ceil total_size chunk_size =? chunk_count)
  then Err MalformedRldpFrame else Ok tt.

(** ** Frames *)

Definition frame_encode (f : RldpDataFrame) : result NetworkError bytes :=
  let? _ := validate_dimensions (total_size f) (chunk_size f) (chunk_count f) in
  if (chunk_count f <=? seq_no f) || negb (len (chunk_data f) =? chunk_size f)
  then Err MalformedRldpFrame
  else
    Ok (int_encode Uint32 DATA_TAG
        ++ transfer_id f
        ++ payload_digest f
        ++ int_encode Uint32 (total_size f)
        ++ int_encode Uint16 (chunk_size f)
        ++ int_encode Uint16 (chunk_count f)
        ++ int_encode Uint16 (seq_no f)
        ++ int_encode Uint16 (as_u 16 (len (chunk_data f)))
        ++ chunk_data f).

(** [uN::from_be_bytes(wire[i..j].try_into().unwrap())] *)
Definition wire_int (t : int_type) (wire : bytes) (i j : Z) : result NetworkError Z :=
  let? b := slice wire i j in
  if len b =? width t then Ok (from_be_bytes t b) else Panic.

Definition frame_decode (wire : bytes) : result NetworkError RldpDataFrame :=
  if len wire <? DATA_HEADER_LEN then Err MalformedRldpFrame
  else
    let? tag := wire_int Uint32 wire 0 4 in
    if negb (tag =? DATA_TAG) then Err MalformedRldpFrame
    else
      let? transfer := slice wire 4 36 in
      let? digest := slice wire 36 68 in
      let? total_size := wire_int Uint32 wire 68 72 in
      let? chunk_size := wire_int Uint16 wire 72 74 in
      let? chunk_count := wire_int Uint16 wire 74 76 in
      let? seq_no := wire_int Uint16 wire 76 78 in
      let? data_len := wire_int Uint16 wire 78 80 in
      let? _ := validate_dimensions total_size chunk_size chunk_count in
      if (chunk_count <=? seq_no) || negb (data_len =? chunk_size)
         || negb (len wire =? DATA_HEADER_LEN + data_len)
      then Err MalformedRldpFrame
      else
        let? data := slice wire 80 (len wire) in
        Ok {| transfer_id := transfer; payload_digest := digest; total_size := total_size;
              chunk_size := chunk_size; chunk_count := chunk_count; seq_no := seq_no; chunk_data := data |}.

Definition ack_encode (a : RldpAckFrame) : bytes :=
  int_encode Uint32 ACK_TAG
  ++ ack_transfer_id a
  ++ int_encode Uint32 (ack_seq a)
  ++ int_encode Uint16 (as_u 16 (len (received_mask a)))
  ++ received_mask a.

Definition ack_decode (wire : bytes) : result NetworkError RldpAckFrame :=
  if len wire <? ACK_HEADER_LEN then Err MalformedRldpFrame
  else
    let? tag := wire_int Uint32 wire 0 4 in
    if negb (tag =? ACK_TAG) then Err MalformedRldpFrame
    else
      let? id := slice wire 4 36 in
      let? seq := wire_int Uint32 wire 36 40 in
      let? n := wire_int Uint16 wire 40 42 in
      if negb (len wire =? ACK_HEADER_LEN + n) then Err MalformedRldpFrame
      else
        let? mask := slice wire 42 (len wire) in
        Ok {| ack_transfer_id := id; ack_seq := seq; received_mask := mask |}.

(** ** The sender *)

Record RldpSender : Type := {
  frames : list RldpDataFrame;
  s_transfer_id : bytes;
  acknowledged : gset Z;
  last_ack_seq : Z;
  config : RldpConfig;
  cursor : Z;
}.

(** The closure of [new]: the zero-padded source symbol with this index. Its
    slice of the payload is in range as [index < count]. *)
Definition source_symbol (payload : bytes) (size index : Z) : bytes :=
  let start := index * size in
  let finish := Z.min (start + size) (len payload) in
  let part := take (Z.to_nat (finish - start)) (drop (Z.to_nat start) payload) in
  part ++ replicate (Z.to_nat (size - len part)) Byte.x00.

Section rldp.
Context {C : Crypto}.

Definition source_frame (id payload : bytes) (cfg : RldpConfig) (count index : Z) : RldpDataFrame :=
  {| transfer_id := id; payload_digest := sha256_digest payload; total_size := as_u 32 (len payload);
     chunk_size := as_u 16 (cfg_chunk_size cfg); chunk_count := as_u 16 count;
     seq_no := as_u 16 index; chunk_data := source_symbol payload (cfg_chunk_size cfg) index |}.

Definition sender_new (id payload : bytes) (cfg : RldpConfig) : result NetworkError RldpSender :=
  if (len payload =? 0) || (MAX_TRANSFER_SIZE <? len payload) || (cfg_chunk_size cfg =? 0)
     || (u16_max <? cfg_chunk_size cfg) || (redundancy cfg =? 0) || (packets_per_round cfg =? 0)
  then Err MalformedRldpFrame
  else
    let count := div_ceil (len payload) (cfg_chunk_size cfg) in
    if u16_max <? count then Err MalformedRldpFrame
    else
      Ok {| frames := source_frame id payload cfg count <$> seqZ 0 count; s_transfer_id := id;
            acknowledged := ∅; last_ack_seq := 0; config := cfg; cursor := 0 |}.

Definition is_complete (s : RldpSender) : bool :=
  Z.of_nat (size (acknowledged s)) =? len (frames s).

(** The loop of [next_round]: [n] frames are left to inspect. Copies of a frame
    are pushed until the round is full. *)
Fixpoint round_loop (n : nat) (s : RldpSender) (cur : Z) (packets : list bytes) :
    result NetworkError (Z * list bytes) :=
  match n with
  | O => Ok (cur, packets)
  | S n =>
      if len packets <? packets_per_round (config s) then
        let? frame := index (frames s) cur in
        let next := (cur + 1) mod len (frames s) in
        if bool_decide (seq_no frame ∈ acknowledged s) then round_loop n s next packets
        else
          match frame_encode frame with
          | Ok wire =>
              let copies := Z.min (redundancy (config s)) (packets_per_round (config s) - len packets) in
              round_loop n s next (packets ++ replicate (Z.to_nat copies) wire)
          | _ => Panic
          end
      else Ok (cur, packets)
  end.

Definition with_cursor (c : Z) (s : RldpSender) : RldpSender :=
  {| frames := frames s; s_transfer_id := s_transfer_id s; acknowledged := acknowledged s;
     last_ack_seq := last_ack_seq s; config := config s; cursor := c |}.

Definition next_round (s : RldpSender) : result NetworkError (RldpSender * list bytes) :=
  let? (c, packets) := round_loop (length (frames s)) s (cursor s) [] in
  Ok (with_cursor c s, packets).

(** The sequence numbers a mask sets, below [count]: [seq as u16] is inserted. *)
Definition mask_seqs (count : Z) (mask : bytes) : list Z :=
  concat (imap (λ i b,
    filter (λ seq, seq < count ∧ Z.land (byte_val b) (2 ^ (seq - 8 * Z.of_nat i)) ≠ 0)
      (seqZ (8 * Z.of_nat i) 8)) mask).

Definition apply_ack (s : RldpSender) (a : RldpAckFrame) : RldpSender * result NetworkError unit :=
  if negb (bool_decide (ack_transfer_id a = s_transfer_id s)) || (ack_seq a <=? last_ack_seq s)
  then (s, Ok tt)
  else if negb (len (received_mask a) =? div_ceil (len (frames s)) 8) then (s, Err MalformedRldpFrame)
  else
    ({| frames := frames s; s_transfer_id := s_transfer_id s;
        acknowledged := acknowledged s ∪ list_to_set (as_u 16 <$> mask_seqs (len (frames s)) (received_mask a));
        last_ack_seq := ack_seq a; config := config s; cursor := cursor s |}, Ok tt).

(** ** The receiver *)

Record RldpReceiver : Type := {
  r_transfer_id : bytes;
  r_digest : bytes;
  r_total_size : Z;
  r_chunk_size : Z;
  r_chunk_count : Z;
  chunks : gmap Z bytes;
  r_ack_seq : Z;
}.

Definition from_frame (f : RldpDataFrame) : result NetworkError RldpReceiver :=
  let? _ := validate_dimensions (total_size f) (chunk_size f) (chunk_count f) in
  Ok {| r_transfer_id := transfer_id f; r_digest := payload_digest f; r_total_size := total_size f;
        r_chunk_size := chunk_size f; r_chunk_count := chunk_count f; chunks := ∅; r_ack_seq := 0 |}.

Definition with_chunks (m : gmap Z bytes) (r : RldpReceiver) : RldpReceiver :=
  {| r_transfer_id := r_transfer_id r; r_digest := r_digest r; r_total_size := r_total_size r;
     r_chunk_size := r_chunk_size r; r_chunk_count := r_chunk_count r; chunks := m;
     r_ack_seq := r_ack_seq r |}.

(** [entry(seq).or_insert(data)] *)
Definition or_insert (m : gmap Z bytes) (seq : Z) (data : bytes) : gmap Z bytes :=
  match m !! seq with Some _ => m | None => <[ seq := data ]> m end.

(** The loop over [0..chunk_count] *)
Definition collect (m : gmap Z bytes) (count : Z) : result NetworkError bytes :=
  foldM (λ seq payload, let? c := ok_or (m !! seq) MalformedRldpFrame in Ok (payload ++ c)) (seqZ 0 count) [].

(** The receiver as left by the call, and the result *)
Definition ingest (r : RldpReceiver) (f : RldpDataFrame) :
    RldpReceiver * result NetworkError (option bytes) :=
  if negb (bool_decide (transfer_id f = r_transfer_id r)) || negb (bool_decide (payload_digest f = r_digest r))
     || negb (total_size f =? r_total_size r) || negb (chunk_size f =? r_chunk_size r)
     || negb (chunk_count f =? r_chunk_count r)
  then (r, Err MalformedRldpFrame)
  else
    let r := with_chunks (or_insert (chunks r) (seq_no f) (chunk_data f)) r in
    if negb (Z.of_nat (size (chunks r)) =? r_chunk_count r) then (r, Ok None)
    else
      (r, let? payload := collect (chunks r) (r_chunk_count r) in
          let payload := take (Z.to_nat (r_total_size r)) payload in
          if negb (bool_decide (sha256_digest payload = r_digest r)) then Err PayloadDigestMismatch
          else Ok (Some payload)).

(** [mask[seq / 8] |= 1 << (seq % 8)] *)
Definition set_bit (seq : Z) (mask : bytes) : result NetworkError bytes :=
  let? b := index mask (seq / 8) in
  Ok (<[ Z.to_nat (seq / 8) := byte_of (Z.lor (byte_val b) (2 ^ (seq mod 8))) ]> mask).

Definition receiver_ack (r : RldpReceiver) : result NetworkError (RldpReceiver * RldpAckFrame) :=
  let seq := wrapping_add_u 32 (r_ack_seq r) 1 in
  let? mask := foldM set_bit (merge_sort Z.le (map_to_list (chunks r)).*1)
                 (replicate (Z.to_nat (div_ceil (r_chunk_count r) 8)) Byte.x00) in
  Ok ({| r_transfer_id := r_transfer_id r; r_digest := r_digest r; r_total_size := r_total_size r;
         r_chunk_size := r_chunk_size r; r_chunk_count := r_chunk_count r; chunks := chunks r;
         r_ack_seq := seq |},
      {| ack_transfer_id := r_transfer_id r; ack_seq := seq; received_mask := mask |}).

(** ** The loops over datagrams

    The environment lists the datagrams that arrive: for the sender, those of
    each round before the retry timeout; the transport's own errors are not
    modelled. The traces of sent datagrams are returned. *)

Fixpoint take_acks (inbox : list bytes) (s : RldpSender) : RldpSender * result NetworkError bool :=
  match inbox with
  | [] => (s, Ok false)
  | packet :: inbox =>
      match ack_decode packet with
      | Ok a =>
          match apply_ack s a with
          | (s, Ok _) => if is_complete s then (s, Ok true) else take_acks inbox s
          | (s, Err e) => (s, Err e)
          | (s, Panic) => (s, Panic)
          end
      | Err _ => take_acks inbox s
      | Panic => (s, Panic)
      end
  end.

Fixpoint send_loop (rounds : nat) (inboxes : nat → list bytes) (s : RldpSender) :
    list (list bytes) * result NetworkError unit :=
  match rounds with
  | O => ([], Err RldpTimeout)
  | S rounds =>
      match next_round s with
      | Ok (s, packets) =>
          if is_complete s then ([packets], Ok tt)
          else
            match take_acks (inboxes rounds) s with
            | (_, Ok true) => ([packets], Ok tt)
            | (s, Ok false) =>
                let '(sent, r) := send_loop rounds inboxes s in (packets :: sent, r)
            | (_, Err e) => ([packets], Err e)
            | (_, Panic) => ([packets], Panic)
            end
      | Err e => ([], Err e)
      | Panic => ([], Panic)
      end
  end.

Definition send_rldp (id payload : bytes) (cfg : RldpConfig) (inboxes : nat → list bytes) :
    list (list bytes) * result NetworkError unit :=
  match sender_new id payload cfg with
  | Ok s => send_loop (Z.to_nat (max_rounds cfg)) inboxes s
  | Err e => ([], Err e)
  | Panic => ([], Panic)
  end.

(** One accepted frame: ingest, acknowledge *)
Definition receive_frame (r : RldpReceiver) (f : RldpDataFrame) :
    result NetworkError (RldpReceiver * bytes * option bytes) :=
  let '(r, res) := ingest r f in
  let? p := res in
  let? (r, a) := receiver_ack r in
  Ok (r, ack_encode a, p).

(** The acknowledgements sent, and the result: [None] while waiting *)
Fixpoint recv_loop (inbox : list bytes) (r : RldpReceiver) : list bytes * option (result NetworkError bytes) :=
  match inbox with
  | [] => ([], None)
  | packet :: inbox =>
      match frame_decode packet with
      | Ok f =>
          match receive_frame r f with
          | Ok (r, ack, Some payload) => ([ack], Some (Ok payload))
          | Ok (r, ack, None) => let '(acks, res) := recv_loop inbox r in (ack :: acks, res)
          | Err e => ([], Some (Err e))
          | Panic => ([], Some Panic)
          end
      | Err _ => recv_loop inbox r
      | Panic => ([], Some Panic)
      end
  end.

Definition recv_rldp (inbox : list bytes) : list bytes * option (result NetworkError bytes) :=
  match inbox with
  | [] => ([], None)
  | first_packet :: inbox =>
      match (let? first := frame_decode first_packet in
             let? r := from_frame first in
             receive_frame r first) with
      | Ok (r, ack, Some payload) => ([ack], Some (Ok payload))
      | Ok (r, ack, None) => let '(acks, res) := recv_loop inbox r in (ack :: acks, res)
      | Err e => ([], Some (Err e))
      | Panic => ([], Some Panic)
      end
  end.
End rldp.

(** ** Frames on the wire *)

Definition dims_ok (total size count : Z) : Prop :=
  0 < total ≤ MAX_TRANSFER_SIZE ∧ 0 < size ∧ 0 < count ∧ div_ceil total size = count.

Lemma validate_dimensions_Ok t s c u :
  0 ≤ t → 0 ≤ s → 0 ≤ c → validate_dimensions t s c = Ok u ↔ dims_ok t s c.
Proof.
  intros Ht Hs Hc. unfold validate_dimensions, dims_ok. destruct u. split.
  - intros H. res_inv. bool_to_prop. lia.
  - intros (? & ? & ? & ?).
    rewrite !(proj2 (Z.eqb_neq _ 0)), (proj2 (Z.ltb_ge _ _)), (proj2 (Z.eqb_eq _ _)) by lia. done.
Qed.

Lemma validate_dimensions_ok t s c : dims_ok t s c → validate_dimensions t s c = Ok tt.
Proof. intros Hd. apply validate_dimensions_Ok; [..|done]; destruct Hd as (? & ? & ? & _); lia. Qed.

Lemma validate_dimensions_safe t s c : safe (validate_dimensions t s c).
Proof. unfold validate_dimensions. eauto with res. Qed.

Definition frame_wf (f : RldpDataFrame) : Prop :=
  len (transfer_id f) = 32 ∧ len (payload_digest f) = 32 ∧
  dims_ok (total_size f) (chunk_size f) (chunk_count f) ∧ chunk_size f < 2 ^ 16 ∧ chunk_count f < 2 ^ 16 ∧
  0 ≤ seq_no f < chunk_count f ∧ len (chunk_data f) = chunk_size f.

Definition frame_layout (f : RldpDataFrame) : bytes :=
  int_encode Uint32 DATA_TAG ++ transfer_id f ++ payload_digest f ++ int_encode Uint32 (total_size f)
  ++ int_encode Uint16 (chunk_size f) ++ int_encode Uint16 (chunk_count f) ++ int_encode Uint16 (seq_no f)
  ++ int_encode Uint16 (chunk_size f) ++ chunk_data f.

Lemma frame_encode_wf f : frame_wf f → frame_encode f = Ok (frame_layout f).
Proof.
  intros (Hi & Hd & Hdim & Hcs & Hcc & Hseq & Hdata). pose proof Hdim as (Ht & Hs & Hc & Hdiv).
  unfold frame_encode. rewrite validate_dimensions_ok by done.
  bind_simpl. rewrite (proj2 (Z.leb_gt _ _)), (proj2 (Z.eqb_eq _ _)) by lia. cbn [orb negb].
  unfold frame_layout. rewrite Hdata, as_u_id by (unfold in_u; lia). done.
Qed.

Lemma wire_int_app_l t a b i j : i = 0 → j = len a → len a = width t → wire_int t (a ++ b) i j = Ok (from_be_bytes t a).
Proof.
  intros Hi Hj Ha. unfold wire_int. rewrite slice_app_l, rbind_ret by done. by rewrite Ha, Z.eqb_refl.
Qed.

Lemma wire_int_app_r t a b i j : len a ≤ i → wire_int t (a ++ b) i j = wire_int t b (i - len a) (j - len a).
Proof. intros Hi. unfold wire_int. by rewrite slice_app_r. Qed.

Lemma wire_int_safe t wire i j : 0 ≤ i → j = i + width t → j ≤ len wire → safe (wire_int t wire i j).
Proof.
  intros Hi Hj Hl. unfold wire_int. assert (0 < width t) by by destruct t.
  apply rbind_safe; [apply slice_safe; lia|]. intros b (_ & _ & Hb)%slice_inv.
  by rewrite (proj2 (Z.eqb_eq _ _)) by lia.
Qed.

(** Reads the fields of a concatenation. *)
Ltac wire_simpl :=
  repeat first
    [ rewrite rbind_ret; cbv beta iota
    | rewrite wire_int_app_l by (autorewrite with len in *; lia)
    | rewrite wire_int_app_r by (autorewrite with len in *; lia)
    | rewrite slice_app_l by (autorewrite with len in *; lia)
    | rewrite slice_all by (autorewrite with len in *; lia)
    | rewrite slice_app_r by (autorewrite with len in *; lia)
    | rewrite from_be_bytes_encode by (rewrite ?in_int_u32, ?in_int_u16; unfold in_u in *; done || lia) ].

Lemma DATA_TAG_u32 : in_int Uint32 DATA_TAG.
Proof. rewrite in_int_u32. unfold in_u, DATA_TAG. lia. Qed.
Lemma ACK_TAG_u32 : in_int Uint32 ACK_TAG.
Proof. rewrite in_int_u32. unfold in_u, ACK_TAG. lia. Qed.
#[local] Hint Resolve DATA_TAG_u32 ACK_TAG_u32 : core.

(** Cut into its fields, a frame is decoded field by field. *)
Lemma frame_decode_fields b1 b2 b3 b4 b5 b6 b7 b8 data :
  len b1 = 4 → len b2 = 32 → len b3 = 32 → len b4 = 4 → len b5 = 2 → len b6 = 2 → len b7 = 2 → len b8 = 2 →
  frame_decode (b1 ++ b2 ++ b3 ++ b4 ++ b5 ++ b6 ++ b7 ++ b8 ++ data) =
  if negb (from_be_bytes Uint32 b1 =? DATA_TAG) then Err MalformedRldpFrame
  else
    let? _ := validate_dimensions (from_be_bytes Uint32 b4) (from_be_bytes Uint16 b5) (from_be_bytes Uint16 b6) in
    if (from_be_bytes Uint16 b6 <=? from_be_bytes Uint16 b7)
       || negb (from_be_bytes Uint16 b8 =? from_be_bytes Uint16 b5)
       || negb (80 + len data =? 80 + from_be_bytes Uint16 b8)
    then Err MalformedRldpFrame
    else Ok {| transfer_id := b2; payload_digest := b3; total_size := from_be_bytes Uint32 b4;
               chunk_size := from_be_bytes Uint16 b5; chunk_count := from_be_bytes Uint16 b6;
               seq_no := from_be_bytes Uint16 b7; chunk_data := data |}.
Proof.
  intros H1 H2 H3 H4 H5 H6 H7 H8. pose proof (len_nonneg data). unfold frame_decode, DATA_HEADER_LEN.
  rewrite (proj2 (Z.ltb_ge _ _)) by (autorewrite with len; lia). wire_simpl.
  destruct (negb _); [done|]. wire_simpl.
  autorewrite with len. rewrite H1, H2, H3, H4, H5, H6, H7, H8.
  replace (4 + (32 + (32 + (4 + (2 + (2 + (2 + (2 + len data)))))))) with (80 + len data) by lia.
  destruct (validate_dimensions _ _ _); [|done|done]. rewrite !rbind_ret.
  destruct (_ || _); [done|]. wire_simpl. done.
Qed.

Lemma frame_roundtrip f : frame_wf f → frame_decode (frame_layout f) = Ok f.
Proof.
  intros (Hi & Hd & Hdim & Hcs & Hcc & Hseq & Hdata). pose proof Hdim as (Ht & Hs & Hc & Hdiv).
  unfold MAX_TRANSFER_SIZE in Ht. unfold frame_layout.
  rewrite frame_decode_fields by (done || by autorewrite with len).
  rewrite !from_be_bytes_encode by (rewrite ?in_int_u32, ?in_int_u16; unfold in_u, DATA_TAG; lia).
  rewrite Z.eqb_refl. cbn [negb].
  rewrite validate_dimensions_ok by done.
  bind_simpl. rewrite (proj2 (Z.leb_gt _ _)), Hdata, !Z.eqb_refl by lia. by destruct f.
Qed.

Lemma cut_frame (bs : bytes) : 80 ≤ len bs → ∃ b1 b2 b3 b4 b5 b6 b7 b8 data : bytes,
  bs = b1 ++ b2 ++ b3 ++ b4 ++ b5 ++ b6 ++ b7 ++ b8 ++ data ∧
  len b1 = 4 ∧ len b2 = 32 ∧ len b3 = 32 ∧ len b4 = 4 ∧ len b5 = 2 ∧ len b6 = 2 ∧ len b7 = 2 ∧ len b8 = 2.
Proof.
  intros Hl.
  destruct (split_at_len bs 4 ltac:(lia)) as (b1 & c1 & -> & H1). rewrite len_app in Hl.
  destruct (split_at_len c1 32 ltac:(lia)) as (b2 & c2 & -> & H2). rewrite len_app in Hl.
  destruct (split_at_len c2 32 ltac:(lia)) as (b3 & c3 & -> & H3). rewrite len_app in Hl.
  destruct (split_at_len c3 4 ltac:(lia)) as (b4 & c4 & -> & H4). rewrite len_app in Hl.
  destruct (split_at_len c4 2 ltac:(lia)) as (b5 & c5 & -> & H5). rewrite len_app in Hl.
  destruct (split_at_len c5 2 ltac:(lia)) as (b6 & c6 & -> & H6). rewrite len_app in Hl.
  destruct (split_at_len c6 2 ltac:(lia)) as (b7 & c7 & -> & H7). rewrite len_app in Hl.
  destruct (split_at_len c7 2 ltac:(lia)) as (b8 & c8 & -> & H8). eauto 20.
Qed.

Lemma frame_decode_wf bs f : frame_decode bs = Ok f → frame_wf f ∧ bs = frame_layout f.
Proof.
  intros H. destruct (Z.ltb_spec (len bs) 80) as [Hl|Hl].
  { unfold frame_decode, DATA_HEADER_LEN in H. by rewrite (proj2 (Z.ltb_lt _ _)) in H by lia. }
  destruct (cut_frame bs Hl) as (b1 & b2 & b3 & b4 & b5 & b6 & b7 & b8 & data & -> & H1 & H2 & H3 & H4 & H5 & H6 & H7 & H8).
  rewrite frame_decode_fields in H by done. destruct (negb _) eqn:Htag; [done|]. bool_to_prop.
  apply rbind_Ok in H as (u & Hv & H). destruct (_ || _) eqn:Hor; [done|]. bool_to_prop. injection H as <-.
  pose proof (from_be_bytes_range Uint32 b4 H4) as R4. pose proof (from_be_bytes_range Uint16 b5 H5) as R5.
  pose proof (from_be_bytes_range Uint16 b6 H6) as R6. pose proof (from_be_bytes_range Uint16 b7 H7) as R7.
  rewrite in_int_u32 in R4. rewrite in_int_u16 in R5, R6, R7. unfold in_u in *.
  apply validate_dimensions_Ok in Hv; [|lia..]. split.
  - unfold frame_wf. cbn [transfer_id payload_digest total_size chunk_size chunk_count seq_no chunk_data].
    split_and!; try done; try lia; by apply Hv.
  - unfold frame_layout. cbn [transfer_id payload_digest total_size chunk_size chunk_count seq_no chunk_data].
    match goal with He : from_be_bytes Uint16 b8 = _ |- _ => rewrite <-He at 2 end.
    rewrite <-Htag, !int_encode_from_be_bytes by done. done.
Qed.

Lemma frame_decode_safe bs : safe (frame_decode bs).
Proof.
  destruct (Z.ltb_spec (len bs) 80) as [Hl|Hl].
  { unfold frame_decode, DATA_HEADER_LEN. by rewrite (proj2 (Z.ltb_lt _ _)) by lia. }
  destruct (cut_frame bs Hl) as (b1 & b2 & b3 & b4 & b5 & b6 & b7 & b8 & data & -> & H1 & H2 & H3 & H4 & H5 & H6 & H7 & H8).
  rewrite frame_decode_fields by done. destruct (negb _); [done|].
  apply rbind_safe; [apply validate_dimensions_safe|]. intros. by destruct (_ || _).
Qed.

(** The decoder of data frames accepts exactly the wire images of frames
    with consistent dimensions - sizes in bounds, as many chunks as the total
    size takes, a sequence number below the count, a chunk of the chunk size -
    and no bytes make it abort; encoding and decoding are inverse. *)
Theorem data_frame_canonical bs f :
  (frame_decode bs = Ok f ↔ frame_wf f ∧ frame_encode f = Ok bs) ∧ frame_decode bs ≠ Panic.
Proof.
  split; [|apply frame_decode_safe]. split.
  - intros [Hwf ->]%frame_decode_wf. split; [done|]. by apply frame_encode_wf.
  - intros [Hwf He]. rewrite frame_encode_wf in He by done. simplify_eq. by apply frame_roundtrip.
Qed.

(** *** Acknowledgements *)

Definition ack_typed (a : RldpAckFrame) : Prop :=
  len (ack_transfer_id a) = 32 ∧ in_u 32 (ack_seq a) ∧ len (received_mask a) < 2 ^ 16.

Lemma ack_decode_fields b1 b2 b3 b4 mask :
  len b1 = 4 → len b2 = 32 → len b3 = 4 → len b4 = 2 →
  ack_decode (b1 ++ b2 ++ b3 ++ b4 ++ mask) =
  if len mask <? 2 then Err MalformedRldpFrame
  else if negb (from_be_bytes Uint32 b1 =? ACK_TAG) then Err MalformedRldpFrame
  else if negb (len mask =? 2 + from_be_bytes Uint16 b4) then Err MalformedRldpFrame
  else Ok {| ack_transfer_id := b2; ack_seq := from_be_bytes Uint32 b3; received_mask := mask |}.
Proof.
  intros H1 H2 H3 H4. pose proof (len_nonneg mask). unfold ack_decode, ACK_HEADER_LEN.
  assert (len (b1 ++ b2 ++ b3 ++ b4 ++ mask) = 42 + len mask) as Hl by (autorewrite with len; lia).
  rewrite Hl. destruct (Z.ltb_spec (len mask) 2).
  { by rewrite (proj2 (Z.ltb_lt _ _)) by lia. }
  rewrite (proj2 (Z.ltb_ge _ _)) by lia. wire_simpl. destruct (negb _); [done|].
  wire_simpl. replace (42 + len mask =? 4 + 32 + 4 + 2 + 2 + from_be_bytes Uint16 b4)
    with (len mask =? 2 + from_be_bytes Uint16 b4)
    by (destruct (Z.eqb_spec (len mask) (2 + from_be_bytes Uint16 b4)); symmetry;
        [apply Z.eqb_eq|apply Z.eqb_neq]; lia).
  done.
Qed.

Lemma ack_encode_not_decoded a : ack_typed a → ack_decode (ack_encode a) = Err MalformedRldpFrame.
Proof.
  intros (Hi & Hs & Hm). pose proof (len_nonneg (received_mask a)). unfold ack_encode.
  rewrite as_u_id by (unfold in_u; lia).
  rewrite ack_decode_fields by (done || by autorewrite with len).
  rewrite !from_be_bytes_encode by (rewrite ?in_int_u32, ?in_int_u16; unfold in_u, ACK_TAG in *; lia).
  rewrite Z.eqb_refl. cbn [negb]. destruct (_ <? _); [done|].
  by rewrite (proj2 (Z.eqb_neq _ _)) by lia.
Qed.

Lemma cut_ack (bs : bytes) : 42 ≤ len bs → ∃ b1 b2 b3 b4 mask : bytes,
  bs = b1 ++ b2 ++ b3 ++ b4 ++ mask ∧ len b1 = 4 ∧ len b2 = 32 ∧ len b3 = 4 ∧ len b4 = 2.
Proof.
  intros Hl.
  destruct (split_at_len bs 4 ltac:(lia)) as (b1 & c1 & -> & H1). rewrite len_app in Hl.
  destruct (split_at_len c1 32 ltac:(lia)) as (b2 & c2 & -> & H2). rewrite len_app in Hl.
  destruct (split_at_len c2 4 ltac:(lia)) as (b3 & c3 & -> & H3). rewrite len_app in Hl.
  destruct (split_at_len c3 2 ltac:(lia)) as (b4 & c4 & -> & H4). eauto 20.
Qed.

Lemma ack_decode_safe bs : safe (ack_decode bs).
Proof.
  destruct (Z.ltb_spec (len bs) 44) as [Hl|Hl].
  { unfold ack_decode, ACK_HEADER_LEN. by rewrite (proj2 (Z.ltb_lt _ _)) by lia. }
  destruct (cut_ack bs ltac:(lia)) as (b1 & b2 & b3 & b4 & mask & -> & H1 & H2 & H3 & H4).
  rewrite ack_decode_fields by done. destruct (_ <? _); [done|]. destruct (negb _); [done|].
  by destruct (negb _).
Qed.

(** ** Chunking *)

Lemma div_ceil_spec a b : 0 < a → 0 < b → 0 < div_ceil a b ∧ (div_ceil a b - 1) * b < a ≤ div_ceil a b * b.
Proof.
  intros Ha Hb. unfold div_ceil. pose proof (Z.div_mod a b ltac:(lia)). pose proof (Z.mod_pos_bound a b Hb).
  destruct (Z.eqb_spec (a mod b) 0); nia.
Qed.

Lemma div_ceil_unique a b c : 0 < b → 0 < a → (c - 1) * b < a ≤ c * b → div_ceil a b = c.
Proof. intros Hb Ha Hc. destruct (div_ceil_spec a b Ha Hb) as [_ Hd]. nia. Qed.

Lemma source_symbol_len payload size i : 0 < size → 0 ≤ i → len (source_symbol payload size i) = size.
Proof.
  intros Hs Hi. unfold source_symbol. cbv zeta. set (part := take _ _).
  assert (len part ≤ size).
  { unfold part, len. rewrite length_take. lia. }
  rewrite len_app. unfold len at 2. rewrite length_replicate. lia.
Qed.

Lemma seqZ_1 m : seqZ m 1 = [m].
Proof. by rewrite seqZ_cons by lia. Qed.

(** The symbols before [i], joined, are the payload's bytes before [i * size]. *)
Lemma source_symbols_prefix payload size : ∀ n : nat,
  0 < size → Z.of_nat n * size ≤ len payload →
  concat (source_symbol payload size <$> seqZ 0 (Z.of_nat n)) = take (Z.to_nat (Z.of_nat n * size)) payload.
Proof.
  intros n Hs. induction n as [|n IH]; intros Hn; [done|].
  rewrite Nat2Z.inj_succ, <-Z.add_1_r, seqZ_app, fmap_app, concat_app, IH by lia.
  rewrite Z.add_0_l, seqZ_1. cbn [fmap list_fmap concat]. rewrite app_nil_r. unfold source_symbol. cbv zeta.
  rewrite Z.min_l by lia. replace (Z.of_nat n * size + size - Z.of_nat n * size) with size by lia.
  assert (len (take (Z.to_nat size) (drop (Z.to_nat (Z.of_nat n * size)) payload)) = size) as ->.
  { unfold len in *. rewrite length_take, length_drop. lia. }
  rewrite Z.sub_diag, app_nil_r. rewrite take_take_drop. f_equal. lia.
Qed.

(** All symbols, joined and cut to the total size, are the payload. *)
Lemma source_symbols_all payload size :
  0 < len payload → 0 < size →
  take (length payload) (concat (source_symbol payload size <$> seqZ 0 (div_ceil (len payload) size))) = payload.
Proof.
  intros Hp Hs. destruct (div_ceil_spec (len payload) size Hp Hs) as [Hc [Hlo Hhi]].
  set (c := div_ceil (len payload) size) in *. set (n := Z.to_nat (c - 1)).
  assert (Z.of_nat n = c - 1) as Hn by (unfold n; lia). clearbody n.
  replace c with (Z.of_nat n + 1) by lia.
  rewrite seqZ_app, fmap_app, concat_app, source_symbols_prefix by (rewrite ?Hn; lia).
  rewrite Z.add_0_l, seqZ_1. cbn [fmap list_fmap concat]. rewrite app_nil_r. unfold source_symbol. cbv zeta.
  rewrite Hn.
  rewrite Z.min_r by lia. set (k := Z.to_nat ((c - 1) * size)).
  rewrite (take_ge (drop k payload)) by (unfold len in *; rewrite length_drop; lia).
  rewrite app_assoc, take_drop, take_app_length. done.
Qed.

(** ** Masks *)

Lemma land_pow2_testbit v j : 0 ≤ j → Z.land v (2 ^ j) ≠ 0 ↔ Z.testbit v j = true.
Proof.
  intros Hj. split.
  - intros H. destruct (Z.testbit v j) eqn:Hb; [done|]. exfalso. apply H, Z.bits_inj'. intros i Hi.
    rewrite Z.land_spec, Z.bits_0, Z.pow2_bits_eqb by lia.
    destruct (Z.eqb_spec j i); [subst; by rewrite Hb|by rewrite andb_false_r].
  - intros Hb H. apply (f_equal (λ z, Z.testbit z j)) in H.
    by rewrite Z.land_spec, Hb, Z.pow2_bits_true, Z.bits_0 in H by lia.
Qed.

(** Bit [q] of a mask *)
Definition mask_bit (mask : bytes) (q : Z) : bool :=
  match mask !! Z.to_nat (q / 8) with Some b => Z.testbit (byte_val b) (q mod 8) | None => false end.

Lemma elem_of_mask_seqs count mask q :
  q ∈ mask_seqs count mask ↔ 0 ≤ q < count ∧ mask_bit mask q = true.
Proof.
  unfold mask_seqs, mask_bit. rewrite list_elem_of_In, in_concat. split.
  - intros (l & Hl & Hq). apply list_elem_of_In in Hl; apply list_elem_of_In in Hq.
    apply list_elem_of_lookup in Hl as [i Hi].
    rewrite list_lookup_imap in Hi. destruct (mask !! i) as [b|] eqn:Hb; [|done].
    cbn in Hi. simplify_eq. apply list_elem_of_filter in Hq as [[Hc Hbit] Hq].
    apply elem_of_seqZ in Hq.
    assert (q / 8 = Z.of_nat i) as Hd by (symmetry; apply (Z.div_unique q 8 _ (q - 8 * Z.of_nat i)); lia).
    assert (q mod 8 = q - 8 * Z.of_nat i) as Hm by (rewrite Z.mod_eq by lia; rewrite Hd; lia).
    rewrite Hd, Nat2Z.id, Hb, Hm. split; [lia|]. apply land_pow2_testbit; [lia|done].
  - intros [Hq Hbit]. destruct (mask !! Z.to_nat (q / 8)) as [b|] eqn:Hb; [|done].
    pose proof (Z.div_mod q 8 ltac:(lia)) as Hdm. pose proof (Z.mod_pos_bound q 8 ltac:(lia)).
    pose proof (Z.div_pos q 8 ltac:(lia) ltac:(lia)).
    eexists. rewrite <-!list_elem_of_In. split.
    + apply list_elem_of_lookup. exists (Z.to_nat (q / 8)). rewrite list_lookup_imap, Hb. done.
    + apply list_elem_of_filter. split; [|apply elem_of_seqZ; lia]. split; [lia|].
      replace (q - 8 * Z.of_nat (Z.to_nat (q / 8))) with (q mod 8) by lia.
      apply land_pow2_testbit; [lia|done].
Qed.

Lemma mask_zero n q : mask_bit (replicate n Byte.x00) q = false.
Proof.
  unfold mask_bit. destruct (_ !! _) as [b|] eqn:Hb; [|done].
  apply lookup_replicate in Hb as [-> _]. apply Z.bits_0.
Qed.

Lemma mask_set_bit_spec k mask :
  0 ≤ k < 8 * len mask →
  ∃ mask', set_bit k mask = Ok mask' ∧ len mask' = len mask ∧
    ∀ q, 0 ≤ q → mask_bit mask' q = (q =? k) || mask_bit mask q.
Proof.
  intros Hk. pose proof (Z.div_mod k 8 ltac:(lia)). pose proof (Z.mod_pos_bound k 8 ltac:(lia)).
  assert (0 ≤ k / 8 < len mask) as Hkd by lia.
  destruct (lookup_lt_is_Some_2 mask (Z.to_nat (k / 8))) as [b Hb]; [unfold len in *; lia|].
  unfold set_bit, index. rewrite (proj2 (Z.leb_le _ _)) by lia. rewrite Hb. cbn [unwrap].
  rewrite rbind_ret. eexists. split; [done|]. split; [unfold len; by rewrite length_insert|].
  intros q Hq. pose proof (Z.div_mod q 8 ltac:(lia)). pose proof (Z.mod_pos_bound q 8 ltac:(lia)).
  pose proof (Z.div_pos q 8 ltac:(lia) ltac:(lia)). unfold mask_bit.
  destruct (decide (q / 8 = k / 8)) as [Heq|Hne].
  - rewrite Heq, list_lookup_insert_eq by (by eapply lookup_lt_Some). rewrite Hb, byte_val_of.
    assert (in_u 8 (Z.lor (byte_val b) (2 ^ (k mod 8)))) as Hlor.
    { apply lor_bound; [lia|apply byte_val_bound|]. unfold in_u. split; [lia|]. apply Z.pow_lt_mono_r; lia. }
    rewrite Z.mod_small by done. rewrite Z.lor_spec, Z.pow2_bits_eqb by lia.
    rewrite orb_comm. f_equal. apply eq_true_iff_eq. rewrite !Z.eqb_eq. lia.
  - rewrite list_lookup_insert_ne by lia.
    rewrite (proj2 (Z.eqb_neq q k)); [done|]. by intros ->.
Qed.

Lemma set_bits_spec ks : ∀ mask,
  Forall (λ k, 0 ≤ k < 8 * len mask) ks →
  ∃ mask', foldM set_bit ks mask = Ok mask' ∧ len mask' = len mask ∧
    ∀ q, 0 ≤ q → mask_bit mask' q = true ↔ q ∈ ks ∨ mask_bit mask q = true.
Proof.
  induction ks as [|k ks IH]; intros mask Hks; cbn [foldM].
  { exists mask. split; [done|]. split; [done|]. intros q _. set_solver. }
  inversion_clear Hks as [|? ? Hk Hks']. destruct (mask_set_bit_spec k mask Hk) as (m1 & -> & Hl & Hb).
  rewrite rbind_ret. destruct (IH m1) as (m2 & -> & Hl2 & Hb2); [by rewrite Hl|].
  exists m2. split; [done|]. split; [congruence|]. intros q Hq. rewrite Hb2, Hb by done.
  rewrite orb_true_iff, Z.eqb_eq, elem_of_cons. tauto.
Qed.

(** The mask of an acknowledgement lists exactly the chunks received. *)
Lemma receiver_ack_spec r :
  0 ≤ r_chunk_count r → (∀ q, q ∈ dom (chunks r) → 0 ≤ q < r_chunk_count r) →
  ∃ r' a, receiver_ack r = Ok (r', a) ∧ chunks r' = chunks r ∧ r_chunk_count r' = r_chunk_count r ∧
    r_transfer_id r' = r_transfer_id r ∧ r_digest r' = r_digest r ∧ r_total_size r' = r_total_size r ∧
    r_chunk_size r' = r_chunk_size r ∧
    ack_transfer_id a = r_transfer_id r ∧ len (received_mask a) = div_ceil (r_chunk_count r) 8 ∧
    (∀ q, q ∈ mask_seqs (r_chunk_count r) (received_mask a) ↔ q ∈ dom (chunks r)).
Proof.
  intros Hc Hdom.
  assert (∀ q, q ∈ merge_sort Z.le (map_to_list (chunks r)).*1 ↔ q ∈ dom (chunks r)) as Hkeys.
  { intros q. rewrite merge_sort_Permutation, elem_of_dom, list_elem_of_fmap. split.
    - intros ([k v] & -> & H). apply elem_of_map_to_list in H. eauto.
    - intros [v H]. exists (q, v). by rewrite elem_of_map_to_list. }
  assert (0 ≤ div_ceil (r_chunk_count r) 8 ∧ r_chunk_count r ≤ 8 * div_ceil (r_chunk_count r) 8) as [Hd0 Hd].
  { destruct (decide (r_chunk_count r = 0)) as [-> |]; [done|].
    destruct (div_ceil_spec (r_chunk_count r) 8); lia. }
  set (zeros := replicate (Z.to_nat (div_ceil (r_chunk_count r) 8)) Byte.x00).
  assert (len zeros = div_ceil (r_chunk_count r) 8) as Hz by (unfold len, zeros; rewrite length_replicate; lia).
  destruct (set_bits_spec (merge_sort Z.le (map_to_list (chunks r)).*1) zeros) as (mask & Hm & Hl & Hb).
  { apply Forall_forall. intros q Hq. apply Hkeys, Hdom in Hq. lia. }
  unfold receiver_ack. cbv zeta. fold zeros. rewrite Hm, rbind_ret. eexists _, _. split; [done|].
  cbn [chunks r_chunk_count r_transfer_id r_digest r_total_size r_chunk_size ack_transfer_id received_mask].
  do 7 (split; [done|]). split; [congruence|]. intros q. rewrite elem_of_mask_seqs. split.
  - intros [Hq Hbit]. apply Hb in Hbit as [Hbit|Hbit]; [by apply Hkeys| |lia].
    unfold zeros in Hbit. by rewrite mask_zero in Hbit.
  - intros Hq. split; [by apply Hdom|]. apply Hb; [by apply Hdom|]. left. by apply Hkeys.
Qed.
