(* ===== verification/RldpTransfer.v ===== *)
(** [onx-networking], [rldp.rs], continued: what a transfer achieves. A receiver
    reassembles a payload from its frames in any order, with losses and
    duplicates; no datagram makes either side abort; a round sends the pending
    frames in turn; and a sender never learns that it is done. *)
From S2P Require Import Prelude Bytes Machine Primitives ToyCrypto Network Rldp.

(** A configuration of [usize] fields *)
Definition config_typed (c : RldpConfig) : Prop :=
  in_u 64 (cfg_chunk_size c) ∧ in_u 64 (redundancy c) ∧ in_u 64 (packets_per_round c) ∧ in_u 64 (max_rounds c).

Section transfer.
Context {C : Crypto} `{!CryptoLaws C}.

(** ** Reassembly by any receiver *)

Definition receiver_inv (r : RldpReceiver) : Prop :=
  len (r_transfer_id r) = 32 ∧ dims_ok (r_total_size r) (r_chunk_size r) (r_chunk_count r) ∧
  r_chunk_count r < 2 ^ 16 ∧
  map_Forall (λ q c, 0 ≤ q < r_chunk_count r ∧ len c = r_chunk_size r) (chunks r).

Lemma dom_or_insert (m : gmap Z bytes) seq data : dom (or_insert m seq data) = {[ seq ]} ∪ dom m.
Proof.
  unfold or_insert. destruct (m !! seq) eqn:Hm; [|by rewrite dom_insert_L].
  apply elem_of_dom_2 in Hm. set_solver.
Qed.

Lemma from_frame_wf f :
  frame_wf f → ∃ r, from_frame f = Ok r ∧ receiver_inv r ∧ r_digest r = payload_digest f ∧
    r_total_size r = total_size f.
Proof.
  intros (Hi & _ & Hd & _ & Hcc & _). unfold from_frame. rewrite validate_dimensions_ok by done.
  rewrite rbind_ret. eexists. split; [done|]. split; [|done].
  split; [done|]. split; [done|]. split; [done|]. apply map_Forall_empty.
Qed.

(** The chunks below [count], joined, if none is missing *)
Lemma collect_spec m count :
  match collect m count with
  | Ok p => ∀ size, map_Forall (λ _ c, len c = size) m → 0 ≤ count → len p = count * size
  | Err e => e = MalformedRldpFrame
  | Panic => False
  end.
Proof.
  destruct (decide (0 ≤ count)) as [Hc|Hc].
  2: { unfold collect. rewrite seqZ_nil by lia. cbn. intros. lia. }
  unfold collect. rewrite <-(Z2Nat.id count) by done. induction (Z.to_nat count) as [|n IH].
  { cbn [Z.of_nat foldM seqZ fmap list_fmap seq Z.to_nat]. intros size _ _. done. }
  rewrite Nat2Z.inj_succ, <-Z.add_1_r, seqZ_app, foldM_app, seqZ_1 by lia.
  destruct (foldM _ _ _) as [p|e|]; [|by subst|done]. rewrite rbind_ret. cbn [foldM].
  destruct (m !! _) as [c|] eqn:Hm; [|done]. cbn [ok_or]. rewrite !rbind_ret.
  intros size Hs _. rewrite len_app, (IH size Hs) by lia. apply Hs in Hm. lia.
Qed.

Lemma ingest_inv r f r' res :
  receiver_inv r → frame_wf f → ingest r f = (r', res) →
  receiver_inv r' ∧ r_digest r' = r_digest r ∧ r_total_size r' = r_total_size r ∧ safe res ∧
  ∀ p, res = Ok (Some p) → sha256_digest p = r_digest r ∧ len p = r_total_size r.
Proof.
  intros (Hi & Hd & Hc & Hm) Hf H. unfold ingest in H. destruct (_ || _) eqn:Hg.
  { simplify_eq. do 4 (split; [done|]). done. }
  bool_to_prop. set (r1 := with_chunks _ r) in H.
  destruct Hf as (_ & _ & _ & _ & _ & Hs & Hl).
  assert (map_Forall (λ q c, 0 ≤ q < r_chunk_count r ∧ len c = r_chunk_size r) (chunks r1)) as Hm1.
  { cbn. unfold or_insert. destruct (chunks r !! seq_no f); [done|].
    apply map_Forall_insert_2; [|done]. split; [lia|congruence]. }
  assert (receiver_inv r1) as Hr1 by done.
  pose proof (collect_spec (chunks r1) (r_chunk_count r1)) as Hcol.
  destruct (negb (_ =? _)); simplify_eq; (split; [done|]); (split; [done|]); (split; [done|]); [done|].
  destruct (collect _ _) as [p|e|]; [|done..]. rewrite rbind_ret. cbv zeta.
  assert (len p = r_chunk_count r * r_chunk_size r) as Hlp.
  { apply Hcol; [|destruct Hd as (_ & _ & ? & _); cbn; lia]. intros q c Hq. by apply Hm1 in Hq as [_ ?]. }
  destruct Hd as (Ht & Hsz & Hcc & Hdiv). destruct (div_ceil_spec (r_total_size r) (r_chunk_size r)); [lia..|].
  destruct (negb _) eqn:Hdig; [done|]. bool_to_prop. split; [done|]. intros p' ?. simplify_eq.
  split; [done|]. cbn. unfold len in *. rewrite length_take. nia.
Qed.

(** One accepted frame leaves an acknowledgement on the wire. *)
Definition encoded_ack (w : bytes) : Prop := ∃ a, ack_typed a ∧ w = ack_encode a.

Lemma receiver_ack_inv r :
  receiver_inv r → ∃ r' a, receiver_ack r = Ok (r', a) ∧ receiver_inv r' ∧ chunks r' = chunks r ∧
    r_digest r' = r_digest r ∧ r_total_size r' = r_total_size r ∧ r_transfer_id r' = r_transfer_id r ∧
    r_chunk_size r' = r_chunk_size r ∧ r_chunk_count r' = r_chunk_count r ∧ encoded_ack (ack_encode a).
Proof.
  intros (Hi & Hd & Hc & Hm). pose proof Hd as (_ & _ & Hcc & _).
  destruct (receiver_ack_spec r) as (r' & a & Hr & H1 & H2 & H3 & H4 & H5 & H6 & Ha & Hl & _); [lia| |].
  { intros q [c Hq]%elem_of_dom. by apply Hm in Hq as [? _]. }
  exists r', a. split; [done|]. split.
  { unfold receiver_inv. rewrite H1, H2, H3, H5, H6. done. }
  do 6 (split; [done|]). exists a. split; [|done]. unfold ack_typed. rewrite Ha, Hl. split; [done|]. split.
  - unfold receiver_ack in Hr. cbv zeta in Hr. destruct (foldM _ _ _); [|done..]. rewrite rbind_ret in Hr.
    simplify_eq. cbn. apply as_u_bound. lia.
  - destruct (div_ceil_spec (r_chunk_count r) 8); lia.
Qed.

Lemma receive_frame_inv r f :
  receiver_inv r → frame_wf f →
  match receive_frame r f with
  | Ok (r', ack, res) =>
      receiver_inv r' ∧ r_digest r' = r_digest r ∧ r_total_size r' = r_total_size r ∧ encoded_ack ack ∧
      ∀ p, res = Some p → sha256_digest p = r_digest r ∧ len p = r_total_size r
  | Err _ => True
  | Panic => False
  end.
Proof.
  intros Hr Hf. unfold receive_frame. destruct (ingest r f) as [r1 res] eqn:Hing.
  apply ingest_inv in Hing as (Hr1 & Hd & Ht & Hsafe & Hp); [|done..].
  destruct res as [p|e|]; [|done..]. rewrite rbind_ret.
  destruct (receiver_ack_inv r1 Hr1) as (r2 & a & -> & Hr2 & _ & Hd2 & Ht2 & _ & _ & _ & Ha).
  bind_simpl. split; [done|]. split; [congruence|]. split; [congruence|]. split; [done|].
  intros q ->. by apply Hp.
Qed.

Definition authentic (digest : bytes) (total : Z) (res : option (result NetworkError bytes)) : Prop :=
  res ≠ Some Panic ∧ ∀ p, res = Some (Ok p) → sha256_digest p = digest ∧ len p = total.

Lemma recv_loop_inv inbox : ∀ r, receiver_inv r →
  authentic (r_digest r) (r_total_size r) (recv_loop inbox r).2 ∧ Forall encoded_ack (recv_loop inbox r).1.
Proof.
  induction inbox as [|w inbox IH]; intros r Hr; cbn [recv_loop]; [done|].
  pose proof (frame_decode_safe w). destruct (frame_decode w) as [f|e|] eqn:Hw; [|by apply IH|done].
  apply frame_decode_wf in Hw as [Hf _]. pose proof (receive_frame_inv r f Hr Hf) as Hrf.
  destruct (receive_frame r f) as [[[r1 ack] [p|]]|e|]; [| |by split|done].
  - destruct Hrf as (_ & _ & _ & Ha & Hp). cbn. split; [|by constructor]. split; [done|].
    intros p' ?. simplify_eq. by apply Hp.
  - destruct Hrf as (Hr1 & Hd & Ht & Ha & _). destruct (IH r1 Hr1) as [IH1 IH2]. rewrite Hd, Ht in IH1.
    destruct (recv_loop inbox r1) as [acks res]. cbn in *. split; [done|by constructor].
Qed.

Lemma recv_rldp_inv inbox :
  (recv_rldp inbox).2 ≠ Some Panic ∧ Forall encoded_ack (recv_rldp inbox).1 ∧
  ∀ p, (recv_rldp inbox).2 = Some (Ok p) →
    ∃ w rest f, inbox = w :: rest ∧ frame_decode w = Ok f ∧
      sha256_digest p = payload_digest f ∧ len p = total_size f.
Proof.
  destruct inbox as [|w rest]; [done|]. cbn [recv_rldp].
  pose proof (frame_decode_safe w). destruct (frame_decode w) as [f|e|] eqn:Hw; [|done..].
  rewrite rbind_ret. pose proof Hw as [Hf _]%frame_decode_wf.
  destruct (from_frame_wf f Hf) as (r & -> & Hr & Hd & Ht). rewrite rbind_ret.
  pose proof (receive_frame_inv r f Hr Hf) as Hrf.
  assert (∀ res, authentic (r_digest r) (r_total_size r) res → res ≠ Some Panic ∧ ∀ p, res = Some (Ok p) →
    ∃ w' rest' f', w :: rest = w' :: rest' ∧ frame_decode w' = Ok f' ∧
      sha256_digest p = payload_digest f' ∧ len p = total_size f') as Hwrap.
  { intros res [Hn Hp]. split; [done|]. intros p Hres. apply Hp in Hres as [H1 H2].
    exists w, rest, f. rewrite <-Hd, <-Ht. done. }
  destruct (receive_frame r f) as [[[r1 ack] [p|]]|e|]; [| |done..].
  - destruct Hrf as (_ & _ & _ & Ha & Hp).
    destruct (Hwrap (Some (Ok p))) as [? ?]; [|by repeat constructor]. split; [done|].
    intros p' ?. simplify_eq. by apply Hp.
  - destruct Hrf as (Hr1 & Hd1 & Ht1 & Ha & _). pose proof (recv_loop_inv rest r1 Hr1) as [Hres Hacks].
    rewrite Hd1, Ht1 in Hres. destruct (recv_loop rest r1) as [acks res]. cbn [fst snd] in *.
    destruct (Hwrap res Hres). split; [done|]. split; [by constructor|done].
Qed.

(** C25: whatever datagrams arrive, a receiver never aborts; if it returns a
    payload, the first datagram was a data frame that announced the payload's
    length and SHA-256 digest; and it sends nothing but acknowledgements. *)
Theorem recv_authentic inbox :
  (recv_rldp inbox).2 ≠ Some Panic ∧ Forall encoded_ack (recv_rldp inbox).1 ∧
  ∀ p, (recv_rldp inbox).2 = Some (Ok p) →
    ∃ w rest f, inbox = w :: rest ∧ frame_decode w = Ok f ∧
      sha256_digest p = payload_digest f ∧ len p = total_size f.
Proof. apply recv_rldp_inv. Qed.

(** ** The frames of one accepted payload *)

Record accepted (id payload : bytes) (cfg : RldpConfig) (count : Z) : Prop := {
  acc_id : len id = 32;
  acc_len : 0 < len payload ≤ MAX_TRANSFER_SIZE;
  acc_size : 0 < cfg_chunk_size cfg < 2 ^ 16;
  acc_redundancy : 0 < redundancy cfg;
  acc_packets : 0 < packets_per_round cfg;
  acc_rounds : 0 ≤ max_rounds cfg;
  acc_count : count = div_ceil (len payload) (cfg_chunk_size cfg);
  acc_bound : 0 < count < 2 ^ 16;
}.

Lemma sender_new_accepted id payload cfg s :
  len id = 32 → config_typed cfg → sender_new id payload cfg = Ok s →
  ∃ count, accepted id payload cfg count ∧
    s = {| frames := source_frame id payload cfg count <$> seqZ 0 count; s_transfer_id := id;
           acknowledged := ∅; last_ack_seq := 0; config := cfg; cursor := 0 |}.
Proof.
  intros Hid (Hs & Hr & Hp & Hm) H. unfold in_u in *. unfold sender_new in H. pose proof (len_nonneg payload).
  destruct (_ || _) eqn:Hg; [done|]. bool_to_prop. cbv zeta in H.
  destruct (u16_max <? _) eqn:Hc; [done|]. bool_to_prop. unfold u16_max in *. injection H as <-.
  eexists. split; [|done].
  destruct (div_ceil_spec (len payload) (cfg_chunk_size cfg)); [lia..|]. split; lia || done.
Qed.

Section own.
Context (id payload : bytes) (cfg : RldpConfig) (count : Z) (Hacc : accepted id payload cfg count).

#[local] Notation "'fr'" := (source_frame id payload cfg count).

Lemma acc_dims : dims_ok (len payload) (cfg_chunk_size cfg) count.
Proof. destruct Hacc. unfold dims_ok. lia. Qed.

Lemma fr_fields i : 0 ≤ i < count →
  fr i = {| transfer_id := id; payload_digest := sha256_digest payload; total_size := len payload;
            chunk_size := cfg_chunk_size cfg; chunk_count := count; seq_no := i;
            chunk_data := source_symbol payload (cfg_chunk_size cfg) i |}.
Proof.
  intros Hi. destruct Hacc. unfold MAX_TRANSFER_SIZE in *. unfold source_frame.
  rewrite !as_u_id by (unfold in_u; lia). done.
Qed.

Lemma fr_wf i : 0 ≤ i < count → frame_wf (fr i).
Proof.
  intros Hi. rewrite fr_fields by done. destruct Hacc. unfold frame_wf.
  cbn [transfer_id payload_digest total_size chunk_size chunk_count seq_no chunk_data].
  split; [done|]. split; [apply sha256_len|]. split; [apply acc_dims|]. split; [lia|]. split; [lia|].
  split; [done|]. apply source_symbol_len; lia.
Qed.

Definition wire_of (i : Z) : bytes := frame_layout (fr i).

Lemma fr_encode i : 0 ≤ i < count → frame_encode (fr i) = Ok (wire_of i).
Proof. intros Hi. apply frame_encode_wf, fr_wf, Hi. Qed.

Lemma fr_decode i : 0 ≤ i < count → frame_decode (wire_of i) = Ok (fr i).
Proof. intros Hi. apply frame_roundtrip, fr_wf, Hi. Qed.

(** ** Reassembly in any order *)

Definition all_seqs : gset Z := list_to_set (seqZ 0 count).

Lemma elem_of_all_seqs q : q ∈ all_seqs ↔ 0 ≤ q < count.
Proof. unfold all_seqs. rewrite elem_of_list_to_set, elem_of_seqZ. lia. Qed.

Lemma size_all_seqs : Z.of_nat (size all_seqs) = count.
Proof.
  unfold all_seqs. rewrite size_list_to_set by apply NoDup_seqZ. rewrite length_seqZ.
  destruct Hacc. lia.
Qed.

(** The receiver of this transfer after the chunks [D] *)
Definition holds (D : gset Z) (r : RldpReceiver) : Prop :=
  receiver_inv r ∧ r_transfer_id r = id ∧ r_digest r = sha256_digest payload ∧ r_total_size r = len payload ∧
  r_chunk_size r = cfg_chunk_size cfg ∧ r_chunk_count r = count ∧ dom (chunks r) = D ∧
  map_Forall (λ q c, c = source_symbol payload (cfg_chunk_size cfg) q) (chunks r).

Lemma collect_all m :
  dom m = all_seqs → map_Forall (λ q c, c = source_symbol payload (cfg_chunk_size cfg) q) m →
  collect m count = Ok (concat (source_symbol payload (cfg_chunk_size cfg) <$> seqZ 0 count)).
Proof.
  intros Hdom Hm. destruct Hacc. unfold collect.
  assert (Z.of_nat (Z.to_nat count) ≤ count) as Hle by lia.
  rewrite <-(Z2Nat.id count) by lia. induction (Z.to_nat count) as [|n IH]; [done|].
  rewrite Nat2Z.inj_succ, <-Z.add_1_r, seqZ_app, foldM_app, seqZ_1 by lia. rewrite IH by lia.
  rewrite rbind_ret. cbn [foldM].
  assert (is_Some (m !! (0 + Z.of_nat n))) as [c Hc].
  { apply elem_of_dom. rewrite Hdom, elem_of_all_seqs. lia. }
  rewrite Hc. cbn [ok_or]. rewrite !rbind_ret, fmap_app, concat_app. apply Hm in Hc as ->.
  cbn [fmap list_fmap concat]. by rewrite app_nil_r.
Qed.

Lemma symbols_payload :
  take (Z.to_nat (len payload)) (concat (source_symbol payload (cfg_chunk_size cfg) <$> seqZ 0 count)) = payload.
Proof.
  destruct Hacc. replace (Z.to_nat (len payload)) with (length payload) by (unfold len; lia).
  subst count. apply source_symbols_all; lia.
Qed.

Lemma ingest_own D r i :
  holds D r → 0 ≤ i < count → D ⊆ all_seqs →
  ∃ r', ingest r (fr i) = (r', Ok (if decide ({[ i ]} ∪ D = all_seqs) then Some payload else None)) ∧
    holds ({[ i ]} ∪ D) r'.
Proof.
  intros (Hinv & Hid & Hdig & Ht & Hs & Hc & Hdom & Hm) Hi HD.
  pose proof (fr_wf i Hi) as Hwf. rewrite fr_fields in * by done. unfold ingest.
  cbn [transfer_id payload_digest total_size chunk_size chunk_count seq_no chunk_data].
  rewrite Hid, Hdig, Ht, Hs, Hc, !bool_decide_true, !Z.eqb_refl by done. cbn [orb negb]. cbv zeta.
  set (r1 := with_chunks _ r).
  assert (holds ({[ i ]} ∪ D) r1) as Hr1.
  { unfold holds. cbn. rewrite dom_or_insert, Hdom. split.
    - destruct Hinv as (H1 & H2 & H3 & H4). split; [done|]. split; [done|]. split; [done|]. cbn.
      unfold or_insert. destruct (chunks r !! i); [done|]. apply map_Forall_insert_2; [|done].
      destruct Hwf as (_ & _ & _ & _ & _ & _ & Hl). cbn in Hl. rewrite Hc, Hs. done.
    - do 6 (split; [done|]). unfold or_insert. destruct (chunks r !! i); [done|]. by apply map_Forall_insert_2. }
  change (r_chunk_count r1) with (r_chunk_count r). exists r1. split; [|done]. destruct Hr1 as (_ & _ & _ & _ & _ & _ & Hd1 & Hm1).
  change (Z.of_nat (size (or_insert (chunks r) i (source_symbol payload (cfg_chunk_size cfg) i))))
    with (Z.of_nat (size (chunks r1))).
  rewrite <-(size_dom (D:=gset Z)), Hd1.
  assert ({[ i ]} ∪ D ⊆ all_seqs) as Hsub by (apply elem_of_all_seqs in Hi; set_solver).
  destruct (decide _) as [Heq|Hne].
  - change (r_total_size r1) with (r_total_size r). change (r_digest r1) with (r_digest r).
    rewrite Heq, size_all_seqs, Hc, Z.eqb_refl. cbn [negb]. rewrite collect_all by (done || by rewrite Hd1). rewrite rbind_ret. cbv zeta.
    rewrite Ht, Hdig, symbols_payload. by rewrite bool_decide_true.
  - rewrite (proj2 (Z.eqb_neq _ _)); [done|]. intros Hsz. apply Hne.
    apply set_subseteq_size_eq; [done|]. rewrite Hc, <-size_all_seqs in Hsz. lia.
Qed.

Definition own (w : bytes) : Prop := ∀ f, frame_decode w = Ok f → ∃ i, 0 ≤ i < count ∧ f = fr i.

Definition received (inbox : list bytes) : gset Z :=
  list_to_set (omap (λ w, match frame_decode w with Ok f => Some (seq_no f) | _ => None end) inbox).

Lemma receive_frame_own D r i :
  holds D r → 0 ≤ i < count → D ⊆ all_seqs →
  ∃ r' ack, receive_frame r (fr i) = Ok (r', ack, if decide ({[ i ]} ∪ D = all_seqs) then Some payload else None) ∧
    holds ({[ i ]} ∪ D) r'.
Proof.
  intros Hr Hi HD. unfold receive_frame. destruct (ingest_own D r i Hr Hi HD) as (r1 & -> & Hr1).
  rewrite rbind_ret. destruct Hr1 as (Hinv & H1 & H2 & H3 & H4 & H5 & H6 & H7).
  destruct (receiver_ack_inv r1 Hinv) as (r2 & a & -> & Hinv2 & E1 & E2 & E3 & E4 & E5 & E6 & _).
  bind_simpl. exists r2, (ack_encode a). split; [done|]. unfold holds. rewrite E1, E2, E3, E4, E5, E6.
  do 7 (split; [done|]). done.
Qed.

Lemma seq_no_fr i : 0 ≤ i < count → seq_no (fr i) = i.
Proof. intros Hi. by rewrite fr_fields. Qed.

Lemma recv_loop_own inbox : ∀ D r,
  holds D r → D ⊆ all_seqs → D ≠ all_seqs → Forall own inbox →
  (recv_loop inbox r).2 = if decide (all_seqs ⊆ D ∪ received inbox) then Some (Ok payload) else None.
Proof.
  induction inbox as [|w inbox IH]; intros D r Hr HD Hne Hown; cbn [recv_loop].
  { rewrite decide_False; [done|]. unfold received. cbn. set_solver. }
  inversion_clear Hown as [|? ? Hw Hown']. unfold received. cbn [omap list_omap].
  pose proof (frame_decode_safe w). destruct (frame_decode w) as [f|e|] eqn:Hdec; [|by apply IH|done].
  destruct (Hw f Hdec) as (i & Hi & ->). rewrite seq_no_fr by done. cbn [list_to_set].
  fold (received inbox). destruct (receive_frame_own D r i Hr Hi HD) as (r1 & ack & -> & Hr1).
  destruct (decide ({[ i ]} ∪ D = all_seqs)) as [Heq|Hneq].
  - cbn [snd]. rewrite decide_True; [done|]. rewrite <-Heq. set_solver.
  - specialize (IH _ r1 Hr1). destruct (recv_loop inbox r1) as [acks res]. cbn [snd] in *.
    rewrite IH; [|apply elem_of_all_seqs in Hi; set_solver|done|done].
    apply decide_ext. set_solver.
Qed.

Lemma recv_rldp_own w inbox :
  Forall own (w :: inbox) → is_ok (frame_decode w) = true →
  (recv_rldp (w :: inbox)).2 = if decide (all_seqs ⊆ received (w :: inbox)) then Some (Ok payload) else None.
Proof.
  intros Hown Hok. cbn [recv_rldp]. inversion_clear Hown as [|? ? Hw Hown']. unfold received. cbn [omap list_omap].
  destruct (frame_decode w) as [f|e|] eqn:Hdec; [|done..].
  destruct (Hw f Hdec) as (i & Hi & ->). rewrite seq_no_fr by done. cbn [list_to_set]. fold (received inbox).
  rewrite rbind_ret. unfold from_frame.
  rewrite validate_dimensions_ok by apply (fr_wf i Hi). rewrite !rbind_ret.
  rewrite (fr_fields i Hi) at 1 2 3 4 5.
  cbn [transfer_id payload_digest total_size chunk_size chunk_count seq_no chunk_data].
  set (r := Build_RldpReceiver _ _ _ _ _ _ _).
  assert (holds ∅ r) as Hr.
  { unfold holds. split; [|do 5 (split; [done|]); split; [apply dom_empty_L|apply map_Forall_empty]].
    pose proof acc_dims. destruct Hacc. unfold receiver_inv. cbn. split; [done|]. split; [done|].
    split; [lia|]. apply map_Forall_empty. }
  destruct (receive_frame_own ∅ r i Hr Hi) as (r1 & ack & -> & Hr1); [set_solver|].
  destruct (decide ({[ i ]} ∪ ∅ = all_seqs)) as [Heq|Hneq].
  - cbn [snd]. rewrite decide_True; [done|]. rewrite <-Heq. set_solver.
  - pose proof (recv_loop_own inbox _ r1 Hr1) as IH. destruct (recv_loop inbox r1) as [acks res]. cbn [snd] in *.
    rewrite IH; [|apply elem_of_all_seqs in Hi; set_solver|done|done].
    apply decide_ext. set_solver.
Qed.

(** ** The sender's rounds *)

Definition sender_of (s : RldpSender) : Prop :=
  frames s = fr <$> seqZ 0 count ∧ s_transfer_id s = id ∧ config s = cfg ∧
  0 ≤ cursor s < count ∧ acknowledged s ⊆ all_seqs.

Lemma sender_frames s : sender_of s → len (frames s) = count.
Proof.
  intros (-> & _). unfold len. rewrite length_fmap, length_seqZ. destruct Hacc. lia.
Qed.

Lemma sender_index s i : sender_of s → 0 ≤ i < count → index (E:=NetworkError) (frames s) i = Ok (fr i).
Proof.
  intros (-> & _) Hi. unfold index. rewrite (proj2 (Z.leb_le _ _)) by lia.
  rewrite list_lookup_fmap, lookup_seqZ_lt by lia. cbn. by rewrite Z2Nat.id by lia.
Qed.

(** The unacknowledged frames among the [n] that follow [cur], in turn *)
Definition pending (acked : gset Z) (cur : Z) (n : nat) : list Z :=
  filter (λ i, i ∉ acked) ((λ k, (cur + k) mod count) <$> seqZ 0 (Z.of_nat n)).

Definition copies (l : list Z) : list bytes :=
  concat ((λ i, replicate (Z.to_nat (redundancy cfg)) (wire_of i)) <$> l).

Lemma pending_cons acked cur n : 0 ≤ cur < count →
  pending acked cur (S n) =
    (if decide (cur ∈ acked) then [] else [cur]) ++ pending acked ((cur + 1) mod count) n.
Proof.
  intros Hc. unfold pending. rewrite seqZ_cons by lia. cbn [fmap list_fmap].
  rewrite Z.add_0_r, Z.mod_small, filter_cons by done.
  assert (((λ k, (cur + k) mod count) <$> seqZ (Z.succ 0) (Z.pred (Z.of_nat (S n)))) =
    ((λ k, ((cur + 1) mod count + k) mod count) <$> seqZ 0 (Z.of_nat n))) as ->.
  { change (Z.succ 0) with (1 + 0). rewrite <-fmap_add_seqZ, <-list_fmap_compose.
    replace (Z.pred (Z.of_nat (S n))) with (Z.of_nat n) by lia. apply list_fmap_ext. intros _ k _. cbn.
    rewrite Zplus_mod_idemp_l. f_equal. lia. }
  destruct (decide (cur ∈ acked)); [by rewrite decide_False by tauto|by rewrite decide_True by done].
Qed.

Lemma take_replicate_app {A} (k n : nat) (x : A) (l : list A) :
  take k (replicate n x ++ l) = replicate (Nat.min n k) x ++ take (k - Nat.min n k) l.
Proof.
  rewrite take_app, take_replicate, length_replicate. f_equal; f_equal; lia.
Qed.

Lemma round_loop_spec s n : sender_of s → ∀ cur packets,
  0 ≤ cur < count →
  ∃ c, 0 ≤ c < count ∧ round_loop n s cur packets =
    Ok (c, packets ++ take (Z.to_nat (packets_per_round cfg - len packets)) (copies (pending (acknowledged s) cur n))).
Proof.
  intros Hs. pose proof Hs as (_ & _ & Hcfg & _). induction n as [|n IH]; intros cur packets Hc; cbn [round_loop].
  { exists cur. split; [done|]. change (copies _) with (@nil bytes). by rewrite take_nil, app_nil_r. }
  rewrite Hcfg. destruct (Z.ltb_spec (len packets) (packets_per_round cfg)) as [Hlt|Hge].
  2: { exists cur. split; [done|]. rewrite Z2Nat.nonpos by lia. by rewrite take_0, app_nil_r. }
  rewrite sender_index, rbind_ret, (sender_frames s Hs), seq_no_fr, pending_cons by done. cbv zeta.
  assert (0 ≤ (cur + 1) mod count < count) as Hc' by (apply Z.mod_pos_bound; lia).
  destruct (decide (cur ∈ acknowledged s)) as [Hack|Hack].
  { rewrite bool_decide_true by done. by apply IH. }
  rewrite bool_decide_false, fr_encode by done. destruct Hacc as [_ _ _ Hred _ _ _ _].
  set (m := Z.min _ _).
  destruct (IH ((cur + 1) mod count) (packets ++ replicate (Z.to_nat m) (wire_of cur)) Hc') as (c & Hcr & ->).
  exists c. split; [done|]. do 2 f_equal. unfold copies. cbn [app fmap list_fmap concat].
  rewrite take_replicate_app, <-app_assoc. unfold m, len in *. do 2 f_equal; [f_equal; lia|].
  f_equal. rewrite length_app, length_replicate. lia.
Qed.

(** A round sends the pending frames from the cursor on, [redundancy] copies of
    each, until it is full. *)
Lemma next_round_spec s :
  sender_of s →
  ∃ s', sender_of s' ∧ acknowledged s' = acknowledged s ∧
    next_round s = Ok (s', take (Z.to_nat (packets_per_round cfg))
      (copies (pending (acknowledged s) (cursor s) (Z.to_nat count)))).
Proof.
  intros Hs. pose proof Hs as (_ & _ & _ & Hc & _). unfold next_round.
  assert (length (frames s) = Z.to_nat count) as Hn by (pose proof (sender_frames s Hs); unfold len in *; lia).
  destruct (round_loop_spec s (length (frames s)) Hs (cursor s) [] Hc) as (c & Hcr & ->).
  bind_simpl. exists (with_cursor c s). split; [|split; [done|]].
  - destruct Hs as (H1 & H2 & H3 & H4 & H5). split; [done|]. split; [done|]. split; [done|]. done.
  - rewrite Hn. cbn [app]. unfold len. cbn [length]. by rewrite Z.sub_0_r.
Qed.

Definition per_round : Z := div_ceil (packets_per_round cfg) (redundancy cfg).

Lemma length_copies l : length (copies l) = (length l * Z.to_nat (redundancy cfg))%nat.
Proof.
  unfold copies. induction l as [|i l IH]; [done|]. cbn [fmap list_fmap concat length].
  rewrite length_app, length_replicate. cbn [fmap list_fmap] in IH. rewrite IH. lia.
Qed.

Lemma elem_of_copies l w : w ∈ copies l → w ∈ wire_of <$> l.
Proof.
  unfold copies. rewrite list_elem_of_In, in_concat. intros (x & Hx & Hwx).
  apply list_elem_of_In in Hx. apply list_elem_of_In in Hwx.
  apply list_elem_of_fmap in Hx as (i & -> & Hi). apply elem_of_replicate in Hwx as [-> _].
  by apply list_elem_of_fmap_2.
Qed.

(** Only the first [per_round] pending frames are sent. *)
Lemma take_copies l w :
  w ∈ take (Z.to_nat (packets_per_round cfg)) (copies l) → w ∈ wire_of <$> take (Z.to_nat per_round) l.
Proof.
  intros Hw. destruct Hacc as [_ _ _ Hred Hppr _ _ _].
  destruct (div_ceil_spec (packets_per_round cfg) (redundancy cfg)) as (Hk & _ & Hle); [done..|].
  fold per_round in Hk, Hle. revert Hw.
  assert (copies l = copies (take (Z.to_nat per_round) l) ++ copies (drop (Z.to_nat per_round) l)) as ->.
  { unfold copies. by rewrite <-concat_app, <-fmap_app, take_drop. }
  rewrite take_app, elem_of_app. intros [Hw|Hw].
  { apply elem_of_copies. apply elem_of_take in Hw as (k & Hk' & _). by apply list_elem_of_lookup_2 in Hk'. }
  exfalso. rewrite length_copies, length_take in Hw.
  destruct (decide (length l ≤ Z.to_nat per_round)%nat) as [Hl|Hl].
  - rewrite drop_ge in Hw by done. change (copies []) with (@nil bytes) in Hw.
    rewrite take_nil in Hw. by apply not_elem_of_nil in Hw.
  - rewrite Nat.min_l, <-Z2Nat.inj_mul in Hw by lia.
    replace (_ - _)%nat with 0%nat in Hw by lia. by apply not_elem_of_nil in Hw.
Qed.

Lemma elem_of_pending acked cur n i : 0 ≤ cur < count → i ∈ pending acked cur n → 0 ≤ i < count.
Proof.
  intros Hc. unfold pending. intros [_ Hi]%list_elem_of_filter. apply list_elem_of_fmap in Hi as (k & -> & _).
  apply Z.mod_pos_bound. lia.
Qed.

(** What a round may send: at most [per_round] different wires of the transfer *)
Definition round_ok (packets : list bytes) : Prop :=
  ∃ l : list Z, len l ≤ per_round ∧ Forall (λ i, 0 ≤ i < count) l ∧ ∀ w, w ∈ packets → w ∈ wire_of <$> l.

Lemma next_round_ok s :
  sender_of s → ∃ s' packets, next_round s = Ok (s', packets) ∧ sender_of s' ∧
    acknowledged s' = acknowledged s ∧ round_ok packets.
Proof.
  intros Hs. destruct (next_round_spec s Hs) as (s' & Hs' & Ha & ->). eexists _, _. split; [done|].
  split; [done|]. split; [done|]. eexists. split; [|split; [|intros w; apply take_copies]].
  - destruct Hacc. destruct (div_ceil_spec (packets_per_round cfg) (redundancy cfg)); [done..|].
    unfold len. rewrite length_take. fold per_round in *. lia.
  - apply Forall_take, Forall_forall. intros i. apply elem_of_pending. apply Hs.
Qed.

(** A datagram that acknowledges frame [i] *)
Definition claims (w : bytes) (i : Z) : Prop :=
  ∃ a, ack_decode w = Ok a ∧ ack_transfer_id a = id ∧ mask_bit (received_mask a) i = true.

Lemma apply_ack_inv s w a s' res :
  sender_of s → ack_decode w = Ok a → apply_ack s a = (s', res) →
  sender_of s' ∧ safe res ∧ ∀ i, i ∈ acknowledged s' → i ∈ acknowledged s ∨ claims w i.
Proof.
  intros Hs Hw H. pose proof (sender_frames s Hs) as Hlen. destruct Hs as (H1 & H2 & H3 & H4 & H5).
  unfold apply_ack in H. destruct (_ || _) eqn:Hg; [simplify_eq; split; [by unfold sender_of|]; split; [done|]; intros; by left|].
  destruct (negb (_ =? _)); [simplify_eq; split; [by unfold sender_of|]; split; [done|]; intros; by left|]. simplify_eq. bool_to_prop.
  assert (∀ i, i ∈ (list_to_set (as_u 16 <$> mask_seqs (len (frames s)) (received_mask a)) : gset Z) →
    i ∈ all_seqs ∧ mask_bit (received_mask a) i = true) as Hmask.
  { intros i. rewrite elem_of_list_to_set. intros (q & -> & [Hq Hb]%elem_of_mask_seqs)%list_elem_of_fmap.
    destruct Hacc. rewrite as_u_id by (unfold in_u; lia). by rewrite elem_of_all_seqs, <-Hlen. }
  split; [|split; [done|]]; cbn [acknowledged].
  - do 4 (split; [done|]). cbn. intros i [Hi|Hi]%elem_of_union; [by apply H5|by apply Hmask].
  - intros i [Hi|Hi]%elem_of_union; [by left|]. apply Hmask in Hi as [_ Hb]. right. exists a.
    split; [done|]. split; [congruence|done].
Qed.

Lemma complete_all s : sender_of s → is_complete s = true → acknowledged s = all_seqs.
Proof.
  intros Hs Hc. unfold is_complete in Hc. bool_to_prop. rewrite (sender_frames s Hs) in Hc.
  destruct Hs as (_ & _ & _ & _ & Hsub). apply set_subseteq_size_eq; [done|].
  pose proof size_all_seqs. lia.
Qed.

Lemma take_acks_inv (P : Z → Prop) inbox : ∀ s,
  sender_of s → (∀ i, i ∈ acknowledged s → P i) → (∀ w i, w ∈ inbox → claims w i → P i) →
  match take_acks inbox s with
  | (_, Ok true) => ∀ i, 0 ≤ i < count → P i
  | (s', Ok false) => sender_of s' ∧ ∀ i, i ∈ acknowledged s' → P i
  | (_, Err _) => True
  | (_, Panic) => False
  end.
Proof.
  induction inbox as [|w inbox IH]; intros s Hs HP Hin; cbn [take_acks]; [done|].
  assert (∀ w' i, w' ∈ inbox → claims w' i → P i) as Hin' by (intros w' i Hw'; apply Hin; by right).
  pose proof (ack_decode_safe w). destruct (ack_decode w) as [a|e|] eqn:Hw; [|by apply IH|done].
  destruct (apply_ack s a) as [s1 res] eqn:Ha.
  apply (apply_ack_inv s w) in Ha as (Hs1 & Hsafe & Hacks); [|done..].
  assert (∀ i, i ∈ acknowledged s1 → P i) as HP1.
  { intros i [Hi|Hi]%Hacks; [by apply HP|]. apply (Hin w i); [by left|done]. }
  destruct res as [[]|e|]; [|done..]. destruct (is_complete s1) eqn:Hcomp; [|by apply IH].
  intros i Hi. apply HP1. rewrite complete_all by done. by apply elem_of_all_seqs.
Qed.

Lemma take_acks_unanswered inbox s :
  Forall (λ w, is_ok (ack_decode w) = false) inbox → take_acks inbox s = (s, Ok false).
Proof.
  induction 1 as [|w inbox Hw _ IH]; [done|]. cbn [take_acks]. pose proof (ack_decode_safe w).
  by destruct (ack_decode w).
Qed.

(** The sending loop under any datagrams *)
Lemma send_loop_inv (P : Z → Prop) rounds : ∀ inboxes s sent res,
  sender_of s → (∀ i, i ∈ acknowledged s → P i) → (∀ k w i, w ∈ inboxes k → claims w i → P i) →
  send_loop rounds inboxes s = (sent, res) →
  (length sent ≤ rounds)%nat ∧ Forall round_ok sent ∧ safe res ∧ (res = Ok tt → ∀ i, 0 ≤ i < count → P i).
Proof.
  induction rounds as [|rounds IH]; intros inboxes s sent res Hs HP Hin H; cbn [send_loop] in H.
  { simplify_eq. split; [done|]. split; [done|]. by split. }
  destruct (next_round_ok s Hs) as (s1 & packets & Hnext & Hs1 & Ha & Hround). rewrite Hnext in H.
  rewrite <-Ha in HP. assert (∀ r, safe r → (r = Ok tt → ∀ i, 0 ≤ i < count → P i) → ([packets], r) = (sent, res) →
    (length sent ≤ S rounds)%nat ∧ Forall round_ok sent ∧ safe res ∧ (res = Ok tt → ∀ i, 0 ≤ i < count → P i)) as Hlast.
  { intros r Hr HPr ?. simplify_eq. split; [cbn; lia|]. split; [by constructor|]. by split. }
  destruct (is_complete s1) eqn:Hcomp.
  { apply (Hlast (Ok tt)); [done| |done]. intros _ i Hi. apply HP. rewrite complete_all by done.
    by apply elem_of_all_seqs. }
  pose proof (take_acks_inv P (inboxes rounds) s1 Hs1 HP (Hin rounds)) as Hacks.
  destruct (take_acks (inboxes rounds) s1) as [s2 [[|]|e|]]; [| | |done].
  - by apply (Hlast (Ok tt)).
  - destruct Hacks as [Hs2 HP2]. destruct (send_loop rounds inboxes s2) as [sent' res'] eqn:Hl.
    simplify_eq. apply IH in Hl as (Hn & Hr & Hsafe & Hok); [|done..].
    split; [cbn; lia|]. split; [by constructor|]. done.
  - by apply (Hlast (Err e)).
Qed.

Lemma send_loop_unanswered rounds : ∀ inboxes s,
  sender_of s → acknowledged s = ∅ → (∀ k, Forall (λ w, is_ok (ack_decode w) = false) (inboxes k)) →
  (send_loop rounds inboxes s).2 = Err RldpTimeout ∧ length (send_loop rounds inboxes s).1 = rounds.
Proof.
  induction rounds as [|rounds IH]; intros inboxes s Hs Ha Hin; cbn [send_loop]; [done|].
  destruct (next_round_ok s Hs) as (s1 & packets & -> & Hs1 & Ha1 & _).
  destruct (is_complete s1) eqn:Hcomp.
  { apply complete_all in Hcomp; [|done]. rewrite Ha1, Ha in Hcomp. pose proof size_all_seqs as Hsz.
    rewrite <-Hcomp, size_empty in Hsz. destruct Hacc. lia. }
  rewrite take_acks_unanswered by done. destruct (IH inboxes s1 Hs1 (eq_trans Ha1 Ha) Hin) as [IH1 IH2].
  destruct (send_loop rounds inboxes s1). cbn in *. by rewrite IH2.
Qed.
End own.

(** ** Transfers *)

Lemma elem_of_frames id payload cfg count s :
  accepted id payload cfg count → sender_of id payload cfg count s →
  ∀ f, f ∈ frames s ↔ ∃ i, 0 ≤ i < count ∧ f = source_frame id payload cfg count i.
Proof.
  intros Ha (-> & _) f. rewrite list_elem_of_fmap. split.
  - intros (i & -> & Hi%elem_of_seqZ). exists i. split; [lia|done].
  - intros (i & Hi & ->). exists i. rewrite elem_of_seqZ. split; [done|lia].
Qed.

Lemma sender_new_of id payload cfg s :
  len id = 32 → config_typed cfg → sender_new id payload cfg = Ok s →
  ∃ count, accepted id payload cfg count ∧ sender_of id payload cfg count s ∧ acknowledged s = ∅.
Proof.
  intros Hid Hcfg H. apply sender_new_accepted in H as (count & Hacc & ->); [|done..].
  exists count. split; [done|]. split; [|done]. do 3 (split; [done|]). cbn. destruct Hacc. split; [lia|set_solver].
Qed.

(** Every frame of the transfer is among the datagrams. *)
Definition all_arrived (s : RldpSender) (inbox : list bytes) : Prop :=
  ∀ f, f ∈ frames s → ∃ w, w ∈ inbox ∧ frame_decode w = Ok f.

(** The datagrams carry frames of the transfer, or no frame at all. *)
Definition only_frames_of (s : RldpSender) (inbox : list bytes) : Prop :=
  ∀ w f, w ∈ inbox → frame_decode w = Ok f → f ∈ frames s.

Lemma all_arrived_received id payload cfg count s inbox :
  accepted id payload cfg count → sender_of id payload cfg count s → only_frames_of s inbox →
  all_seqs count ⊆ received inbox ↔ all_arrived s inbox.
Proof.
  intros Ha Hs Honly. pose proof (elem_of_frames _ _ _ _ _ Ha Hs) as Hf. unfold received, all_arrived. split.
  - intros Hsub f (i & Hi & ->)%Hf.
    assert (i ∈ all_seqs count) as Hin by (by apply elem_of_all_seqs).
    apply Hsub in Hin. rewrite elem_of_list_to_set, list_elem_of_omap in Hin. destruct Hin as (w & Hw & Hd).
    destruct (frame_decode w) as [f| |] eqn:Hdec; [|done..]. simplify_eq.
    exists w. split; [done|]. pose proof (Honly w f Hw Hdec) as (i & Hi' & ->)%Hf.
    by rewrite (seq_no_fr _ _ _ _ Ha) by done.
  - intros Hall i Hi. apply elem_of_all_seqs in Hi.
    destruct (Hall (source_frame id payload cfg count i)) as (w & Hw & Hdec); [apply Hf; by exists i|].
    rewrite elem_of_list_to_set, list_elem_of_omap. exists w. rewrite Hdec, (seq_no_fr _ _ _ _ Ha) by done. done.
Qed.

Lemma recv_transfer id payload cfg count s inbox :
  accepted id payload cfg count → sender_of id payload cfg count s → only_frames_of s inbox →
  (∀ w, head inbox = Some w → is_ok (frame_decode w) = true) →
  ((recv_rldp inbox).2 = None ∨ (recv_rldp inbox).2 = Some (Ok payload)) ∧
  ((recv_rldp inbox).2 = Some (Ok payload) ↔ all_arrived s inbox).
Proof.
  intros Ha Hs Honly Hhead. pose proof (elem_of_frames _ _ _ _ _ Ha Hs) as Hf.
  destruct inbox as [|w inbox].
  { split; [by left|]. split; [done|]. intros Hall.
    destruct (Hall (source_frame id payload cfg count 0)) as (w & Hw & _); [|by apply not_elem_of_nil in Hw].
    apply Hf. exists 0. destruct Ha. split; [lia|done]. }
  assert (Forall (own id payload cfg count) (w :: inbox)) as Hown.
  { apply Forall_forall. intros v Hv f Hd. apply Hf. by eapply Honly. }
  rewrite (recv_rldp_own id payload cfg count Ha w inbox Hown) by by apply Hhead.
  pose proof (all_arrived_received _ _ _ _ _ _ Ha Hs Honly). destruct (decide _); [|split; [by left|]; naive_solver].
  split; [by right|]. naive_solver.
Qed.

(** C24: a receiver that gets the frames of one payload, in any order, some lost,
    some repeated, and any number of datagrams that are no frames, returns the
    payload exactly when every frame is among them, and waits otherwise. *)
Theorem receive_in_any_order id payload cfg s inbox :
  len id = 32 → config_typed cfg → sender_new id payload cfg = Ok s →
  only_frames_of s inbox → (∀ w, head inbox = Some w → is_ok (frame_decode w) = true) →
  ((recv_rldp inbox).2 = None ∨ (recv_rldp inbox).2 = Some (Ok payload)) ∧
  ((recv_rldp inbox).2 = Some (Ok payload) ↔ all_arrived s inbox).
Proof.
  intros Hid Hcfg Hs. destruct (sender_new_of _ _ _ _ Hid Hcfg Hs) as (count & Ha & Hof & _).
  by apply (recv_transfer id payload cfg count).
Qed.

(** Number of different frames the sender can have transmitted *)
Definition capacity (cfg : RldpConfig) : Z := max_rounds cfg * per_round cfg.

Lemma size_list_to_set_le {A} `{Countable A} (l : list A) : (size (list_to_set l : gset A) ≤ length l)%nat.
Proof.
  induction l as [|x l IH]; [done|]. cbn [list_to_set length]. rewrite size_union_alt, size_singleton.
  assert (size ((list_to_set l : gset A) ∖ {[ x ]}) ≤ size (list_to_set l : gset A))%nat
    by (apply subseteq_size; set_solver). lia.
Qed.

Lemma rounds_capacity id payload cfg count rounds :
  accepted id payload cfg count → Forall (round_ok id payload cfg count) rounds →
  ∃ l : list Z, len l ≤ len rounds * per_round cfg ∧ Forall (λ i, 0 ≤ i < count) l ∧
    ∀ w, w ∈ concat rounds → w ∈ wire_of id payload cfg count <$> l.
Proof.
  intros Ha. induction 1 as [|packets rounds (l & Hl & Hf & Hin) _ (l' & Hl' & Hf' & Hin')]; cbn [concat].
  { exists []. split; [done|]. by split. }
  exists (l ++ l'). split; [unfold len in *; rewrite length_app; cbn [length]; lia|].
  split; [by apply Forall_app|]. intros w. rewrite fmap_app, !elem_of_app. intros [Hw|Hw]; [left|right]; auto.
Qed.

(** A sender never aborts. In at most [max_rounds] rounds it sends frames
    of its payload only, at most [packets_per_round / redundancy] (rounded up)
    different ones a round. It reports success only if acknowledgements in its
    transfer id together claim every frame; if no datagram it gets decodes as an
    acknowledgement, it ends with [RldpTimeout] after exactly [max_rounds] rounds. *)
Theorem send_outcome id payload cfg s inboxes sent res :
  len id = 32 → config_typed cfg → sender_new id payload cfg = Ok s →
  send_rldp id payload cfg inboxes = (sent, res) →
  res ≠ Panic ∧ len sent ≤ max_rounds cfg ∧
  (∀ w, w ∈ concat sent → ∃ f, f ∈ frames s ∧ frame_encode f = Ok w) ∧
  Z.of_nat (size (list_to_set (concat sent) : gset bytes)) ≤ capacity cfg ∧
  (res = Ok tt → ∀ f, f ∈ frames s → ∃ k w, w ∈ inboxes k ∧ claims id w (seq_no f)) ∧
  ((∀ k w, w ∈ inboxes k → is_ok (ack_decode w) = false) → res = Err RldpTimeout ∧ len sent = max_rounds cfg).
Proof.
  intros Hid Hcfg Hs Hsend. destruct (sender_new_of _ _ _ _ Hid Hcfg Hs) as (count & Ha & Hof & Hack).
  pose proof (elem_of_frames _ _ _ _ _ Ha Hof) as Hf. unfold send_rldp in Hsend. rewrite Hs in Hsend.
  destruct (send_loop_inv id payload cfg count Ha (λ i, ∃ k w, w ∈ inboxes k ∧ claims id w i)
    (Z.to_nat (max_rounds cfg)) inboxes s sent res) as (Hn & Hround & Hsafe & Hok); [done| |by eauto|done|].
  { intros i. rewrite Hack. set_solver. }
  pose proof (acc_rounds _ _ _ _ Ha). destruct (rounds_capacity _ _ _ _ _ Ha Hround) as (l & Hl & Hrange & Hin).
  rewrite Forall_forall in Hrange. split; [done|]. split; [unfold len; lia|]. split; [|split; [|split]].
  - intros w (i & -> & Hi)%Hin%list_elem_of_fmap. apply Hrange in Hi.
    exists (source_frame id payload cfg count i). split; [apply Hf; by exists i|].
    by apply (fr_encode _ _ _ _ Ha).
  - assert (list_to_set (concat sent) ⊆ (list_to_set (wire_of id payload cfg count <$> l) : gset bytes)) as Hsub.
    { intros w. rewrite !elem_of_list_to_set. apply Hin. }
    apply subseteq_size in Hsub. pose proof (size_list_to_set_le (wire_of id payload cfg count <$> l)).
    rewrite length_fmap in *. pose proof (acc_redundancy _ _ _ _ Ha). pose proof (acc_packets _ _ _ _ Ha).
    destruct (div_ceil_spec (packets_per_round cfg) (redundancy cfg)) as [Hk _]; [done..|].
    unfold capacity. fold (per_round cfg) in Hk. unfold len in *. nia.
  - intros -> f (i & Hi & ->)%Hf. rewrite (seq_no_fr _ _ _ _ Ha) by done. by apply Hok.
  - intros Hun. destruct (send_loop_unanswered id payload cfg count Ha (Z.to_nat (max_rounds cfg)) inboxes s)
      as [H1 H2]; [done|done| |].
    { intros k. apply Forall_forall. apply Hun. }
    rewrite Hsend in H1, H2. cbn in *. split; [done|]. unfold len. lia.
Qed.

(** A sender whose datagrams do not reach all frames cannot complete a receiver. *)
Lemma arrived_capacity id payload cfg count s rounds inbox :
  accepted id payload cfg count → sender_of id payload cfg count s →
  Forall (round_ok id payload cfg count) rounds → (∀ w, w ∈ inbox → w ∈ concat rounds) →
  all_arrived s inbox → count ≤ len rounds * per_round cfg.
Proof.
  intros Ha Hof Hround Hsub Hall. pose proof (elem_of_frames _ _ _ _ _ Ha Hof) as Hf.
  destruct (rounds_capacity _ _ _ _ _ Ha Hround) as (l & Hl & Hrange & Hin). rewrite Forall_forall in Hrange.
  assert (all_seqs count ⊆ (list_to_set l : gset Z)) as Hsz.
  { intros i Hi. apply elem_of_all_seqs in Hi.
    destruct (Hall (source_frame id payload cfg count i)) as (w & Hw & Hdec); [apply Hf; by exists i|].
    apply Hsub, Hin, list_elem_of_fmap in Hw as (q & -> & Hq). pose proof (Hrange q Hq).
    rewrite (fr_decode _ _ _ _ Ha) in Hdec by done. apply (inj Ok), (f_equal seq_no) in Hdec.
    rewrite !(seq_no_fr _ _ _ _ Ha) in Hdec by done. subst. by apply elem_of_list_to_set. }
  apply subseteq_size in Hsz. pose proof (size_list_to_set_le l). pose proof (size_all_seqs _ _ _ _ Ha).
  unfold len in *. lia.
Qed.

(** C21: a transfer between a sender and a receiver over a network that loses,
    repeats and reorders datagrams but makes none up. The receiver returns the
    payload exactly when all its frames have arrived, and otherwise waits; yet the
    sender always ends with [RldpTimeout], since no acknowledgement the receiver
    sends decodes. A payload of more chunks than [capacity] never gets through. *)
Theorem rldp_transfer id payload cfg s inboxes arrived sent confirmed acks returned :
  len id = 32 → config_typed cfg → sender_new id payload cfg = Ok s →
  send_rldp id payload cfg inboxes = (sent, confirmed) → recv_rldp arrived = (acks, returned) →
  (∀ w, w ∈ arrived → w ∈ concat sent) → (∀ k w, w ∈ inboxes k → w ∈ acks) →
  confirmed = Err RldpTimeout ∧ (returned = None ∨ returned = Some (Ok payload)) ∧
  (returned = Some (Ok payload) ↔ all_arrived s arrived) ∧
  (capacity cfg < len (frames s) → returned = None).
Proof.
  intros Hid Hcfg Hs Hsend Hrecv Hnet Hback.
  destruct (sender_new_of _ _ _ _ Hid Hcfg Hs) as (count & Ha & Hof & Hack).
  pose proof (elem_of_frames _ _ _ _ _ Ha Hof) as Hf. unfold send_rldp in Hsend. rewrite Hs in Hsend.
  destruct (send_loop_inv id payload cfg count Ha (λ _, True)
    (Z.to_nat (max_rounds cfg)) inboxes s sent confirmed) as (Hn & Hround & _ & _); [done..|].
  pose proof (acc_rounds _ _ _ _ Ha).
  assert (∀ w, w ∈ arrived → ∃ i, 0 ≤ i < count ∧ frame_decode w = Ok (source_frame id payload cfg count i)) as Hown.
  { destruct (rounds_capacity _ _ _ _ _ Ha Hround) as (l & _ & Hrange & Hin). rewrite Forall_forall in Hrange.
    intros w (i & -> & Hi)%Hnet%Hin%list_elem_of_fmap. apply Hrange in Hi. exists i. split; [done|].
    by apply (fr_decode _ _ _ _ Ha). }
  destruct (recv_transfer id payload cfg count s arrived Ha Hof) as [Hres Hiff].
  { intros w f (i & Hi & Hd)%Hown Hd'. apply Hf. exists i. split; [done|congruence]. }
  { intros w Hw. destruct arrived; [done|]. cbn in Hw. simplify_eq.
    destruct (Hown w) as (i & _ & ->); [by left|done]. }
  rewrite Hrecv in Hres, Hiff. cbn [snd] in Hres, Hiff. split; [|split; [done|split; [done|]]].
  - destruct (send_loop_unanswered id payload cfg count Ha (Z.to_nat (max_rounds cfg)) inboxes s) as [H1 _];
      [done|done| |by rewrite Hsend in H1].
    intros k. apply Forall_forall. intros w Hw%Hback. destruct (recv_rldp_inv arrived) as (_ & Hacks & _).
    rewrite Hrecv, Forall_forall in Hacks. destruct (Hacks w Hw) as (a & Hat & ->).
    by rewrite ack_encode_not_decoded.
  - intros Hcap. destruct Hres as [|Hret]; [done|]. exfalso. apply Hiff in Hret.
    apply (arrived_capacity _ _ _ _ _ _ _ Ha Hof Hround Hnet) in Hret. rewrite (sender_frames _ _ _ _ Ha s Hof) in Hcap.
    pose proof (acc_redundancy _ _ _ _ Ha). pose proof (acc_packets _ _ _ _ Ha).
    destruct (div_ceil_spec (packets_per_round cfg) (redundancy cfg)) as [Hk _]; [done..|].
    unfold capacity in *. fold (per_round cfg) in Hk. unfold len in *. nia.
Qed.
End transfer.

(** ** Witnesses *)

Definition sample_id : bytes := be_bytes 32 7.
Definition sample_payload : bytes := be_bytes 5 0x68656c6c6f.
Definition sample_config : RldpConfig :=
  {| cfg_chunk_size := 2; redundancy := 2; packets_per_round := 4; max_rounds := 3 |}.
Definition sample_sender : RldpSender :=
  match sender_new (C:=toy_crypto) sample_id sample_payload sample_config with
  | Ok s => s
  | _ => {| frames := []; s_transfer_id := []; acknowledged := ∅; last_ack_seq := 0;
            config := sample_config; cursor := 0 |}
  end.

Definition sample_wires : list bytes :=
  omap (λ f, match frame_encode f with Ok w => Some w | _ => None end) (frames sample_sender).

(** The frames backwards, the last one twice, with a datagram that is no frame *)
Definition sample_inbox : list bytes :=
  let w := rev sample_wires in take 1 w ++ [sample_payload] ++ w.

Lemma sample_sender_new : sender_new (C:=toy_crypto) sample_id sample_payload sample_config = Ok sample_sender.
Proof. vm_compute. reflexivity. Qed.

Lemma sample_config_typed : config_typed sample_config.
Proof. unfold config_typed, in_u. cbn. lia. Qed.

Definition carries (l : list RldpDataFrame) (w : bytes) : bool :=
  match frame_decode w with Ok f => bool_decide (f ∈ l) | _ => true end.

Lemma carries_only s inbox : forallb (carries (frames s)) inbox = true → only_frames_of s inbox.
Proof.
  intros H w f Hw Hd. rewrite forallb_forall in H. apply list_elem_of_In, H in Hw. unfold carries in Hw.
  rewrite Hd in Hw. by apply bool_decide_eq_true in Hw.
Qed.

Definition arrives (inbox : list bytes) (f : RldpDataFrame) : bool :=
  existsb (λ w, match frame_decode w with Ok g => bool_decide (f = g) | _ => false end) inbox.

Lemma arrives_all s inbox : forallb (arrives inbox) (frames s) = true → all_arrived s inbox.
Proof.
  intros H f Hf. rewrite forallb_forall in H. apply list_elem_of_In, H in Hf. unfold arrives in Hf.
  apply existsb_exists in Hf as (w & Hw & Hd). exists w. split; [by apply list_elem_of_In|].
  destruct (frame_decode w); [|done..]. apply bool_decide_eq_true in Hd. by subst.
Qed.

Lemma sample_only : only_frames_of sample_sender sample_inbox.
Proof. apply carries_only. vm_compute. reflexivity. Qed.

Lemma sample_arrived : all_arrived sample_sender sample_inbox.
Proof. apply arrives_all. vm_compute. reflexivity. Qed.

Lemma sample_head w : head sample_inbox = Some w → is_ok (frame_decode w) = true.
Proof. vm_compute. intros [= <-]. reflexivity. Qed.

(** The frames backwards with a duplicate and an intruder: the payload returns. *)
Lemma receive_in_any_order_witness :
  (recv_rldp (C:=toy_crypto) sample_inbox).2 = Some (Ok sample_payload).
Proof.
  destruct (receive_in_any_order (C:=toy_crypto) sample_id sample_payload sample_config sample_sender sample_inbox
    eq_refl sample_config_typed sample_sender_new sample_only sample_head) as [_ H].
  apply H, sample_arrived.
Defined.

Definition sample_acks : list bytes := (recv_rldp (C:=toy_crypto) sample_wires).1.
Definition sample_run : list (list bytes) * result NetworkError unit :=
  send_rldp (C:=toy_crypto) sample_id sample_payload sample_config (λ _, sample_acks).

(** The acknowledgements of the whole transfer are no help to the sender. *)
Lemma send_outcome_witness :
  sample_run.2 = Err RldpTimeout ∧ len sample_run.1 = 3 ∧ sample_acks ≠ [].
Proof.
  assert (∀ (k : nat) w, w ∈ sample_acks → is_ok (ack_decode w) = false) as Hun.
  { intros _ w Hw. assert (forallb (λ v, negb (is_ok (ack_decode v))) sample_acks = true) as Hall
      by (vm_compute; reflexivity). rewrite forallb_forall in Hall. apply list_elem_of_In, Hall in Hw.
    by apply negb_true_iff. }
  destruct (send_outcome (C:=toy_crypto) sample_id sample_payload sample_config sample_sender (λ _, sample_acks)
    sample_run.1 sample_run.2 eq_refl sample_config_typed sample_sender_new) as (_ & _ & _ & _ & _ & H).
  { apply surjective_pairing. }
  destruct (H Hun) as [H1 H2]. split; [exact H1|]. split; [exact H2|]. vm_compute. discriminate.
Defined.

Definition sample_sent : list bytes := concat sample_run.1.

Lemma sample_returned : (recv_rldp (C:=toy_crypto) sample_sent).2 = Some (Ok sample_payload).
Proof. vm_compute. reflexivity. Qed.

(** A transfer over a network that delivers everything, both ways *)
Lemma rldp_transfer_witness :
  let inboxes (_ : nat) := (recv_rldp (C:=toy_crypto) sample_sent).1 in
  (recv_rldp (C:=toy_crypto) sample_sent).2 = Some (Ok sample_payload) ∧
  (send_rldp (C:=toy_crypto) sample_id sample_payload sample_config inboxes).2 = Err RldpTimeout.
Proof.
  intros inboxes.
  assert (concat (send_rldp (C:=toy_crypto) sample_id sample_payload sample_config inboxes).1 = sample_sent) as Hsame
    by (vm_compute; reflexivity).
  destruct (rldp_transfer (C:=toy_crypto) sample_id sample_payload sample_config sample_sender inboxes sample_sent
    _ _ _ _ eq_refl sample_config_typed sample_sender_new (surjective_pairing _) (surjective_pairing _))
    as (H & _).
  { intros w. rewrite Hsame. done. }
  { done. }
  split; [exact sample_returned|exact H].
Defined.

(** With the default configuration, a payload above 880640 bytes - far below
    [MAX_TRANSFER_SIZE] - has more frames than all rounds can carry. *)
Lemma default_capacity : capacity RldpConfig_default * DEFAULT_CHUNK_SIZE = 880640 ∧ 880640 < MAX_TRANSFER_SIZE.
Proof. vm_compute. done. Qed.
