(* ===== verification/Dht.v ===== *)
(** [onx-networking], [dht_daemon.rs]: the routing table, the record cache, the
    handler of requests, and the iterative lookups of a daemon. The transport is a
    parameter: the answer to the [n]-th call of an operation; so is the clock. *)
From S2P Require Import Prelude Bytes Machine Primitives ToyCrypto Network.

Definition K_BUCKET_SIZE : Z := 20.
Definition LOOKUP_ALPHA : Z := 3.

(** The position of the first set bit *)
Fixpoint first_set_bit (i : Z) (distance : bytes) : option Z :=
  match distance with
  | [] => None
  | b :: distance =>
      if negb (byte_val b =? 0) then Some (i * 8 + (7 - Z.log2 (byte_val b)))
      else first_set_bit (i + 1) distance
  end.

Definition bucket_index (local remote : bytes) : option Z := first_set_bit 0 (xor_distance local remote).

Section dht.
Context {C : Crypto}.

Record DhtContact : Type := { node_id : bytes; contact_key : VerifyingKey }.

#[export] Instance DhtContact_eq_dec : EqDecision DhtContact.
Proof. solve_decision. Defined.

Definition from_public_key (k : VerifyingKey) : DhtContact :=
  {| node_id := compute_abstract_address (new_ed25519 k); contact_key := k |}.

Inductive DhtRpc : Type :=
| Ping (sender : DhtContact)
| Store (sender : DhtContact) (r : DhtRecord) (o : VerifyingKey)
| FindNode (sender : DhtContact) (target : bytes)
| FindValue (sender : DhtContact) (k : bytes).

Inductive DhtRpcResponse : Type :=
| Pong
| Stored
| Nodes (l : list DhtContact)
| Value (r : DhtRecord) (o : VerifyingKey).

Record StoredRecord : Type := { record : DhtRecord; owner : VerifyingKey }.

Record DhtDaemon : Type := {
  local : DhtContact;
  buckets : list (list DhtContact);
  records : gmap bytes StoredRecord;
}.

Definition daemon_new (k : VerifyingKey) : DhtDaemon :=
  {| local := from_public_key k; buckets := replicate 256 []; records := ∅ |}.

Definition with_buckets (b : list (list DhtContact)) (d : DhtDaemon) : DhtDaemon :=
  {| local := local d; buckets := b; records := records d |}.
Definition with_records (m : gmap bytes StoredRecord) (d : DhtDaemon) : DhtDaemon :=
  {| local := local d; buckets := buckets d; records := m |}.

(** ** The routing table *)

(** The contact becomes the most recently seen of its bucket. *)
Definition touch (bucket : list DhtContact) (c : DhtContact) : list DhtContact :=
  let bucket :=
    match list_find (λ e, node_id e = node_id c) bucket with
    | Some (position, _) => delete position bucket
    | None => bucket
    end ++ [c] in
  if K_BUCKET_SIZE <? len bucket then delete 0%nat bucket else bucket.

Definition add_contact (d : DhtDaemon) (c : DhtContact) : result NetworkError DhtDaemon :=
  if bool_decide (node_id c = node_id (local d))
     || negb (bool_decide (compute_abstract_address (new_ed25519 (contact_key c)) = node_id c))
  then Ok d
  else
    match bucket_index (node_id (local d)) (node_id c) with
    | None => Ok d
    | Some i =>
        let? bucket := index (buckets d) i in
        Ok (with_buckets (<[ Z.to_nat i := touch bucket c ]> (buckets d)) d)
    end.

(** The order of [sort_by_key]; the sort is stable. *)
Definition nearer (target : bytes) (a b : DhtContact) : Prop :=
  be_val (xor_distance (node_id a) target) ≤ be_val (xor_distance (node_id b) target).
#[export] Instance nearer_dec target : RelDecision (nearer target).
Proof. intros a b. unfold nearer. apply _. Defined.

Definition sort_contacts (target : bytes) (l : list DhtContact) : list DhtContact :=
  merge_sort (nearer target) l.

Definition closest_contacts (d : DhtDaemon) (target : bytes) (limit : Z) : list DhtContact :=
  take (Z.to_nat limit) (sort_contacts target (concat (buckets d))).

(** ** Records *)

Definition remove_expired (now : Z) (d : DhtDaemon) : DhtDaemon :=
  with_records (filter (λ kv, now < expiry (record kv.2)) (records d)) d.

Definition validate_record (now : Z) (r : DhtRecord) (o : VerifyingKey) (requested_key : option bytes) :
    result NetworkError unit :=
  if match requested_key with Some k => negb (bool_decide (k = key r)) | None => false end
  then Err DhtMalformedRecord
  else if expiry r <=? now then Err DhtRecordExpired
  else if negb (bool_decide (compute_abstract_address (new_ed25519 o) = owner_address r))
  then Err NetInvalidSignature
  else verify_record_signature r o.

Definition keep_record (k : bytes) (r : DhtRecord) (o : VerifyingKey) (d : DhtDaemon) : DhtDaemon :=
  with_records (<[ k := {| record := r; owner := o |} ]> (records d)) d.

Definition rpc_sender (request : DhtRpc) : DhtContact :=
  match request with
  | Ping sender | Store sender _ _ | FindNode sender _ | FindValue sender _ => sender
  end.

(** The daemon as left by the request, and the answer *)
Definition handle_rpc (now : Z) (d : DhtDaemon) (request : DhtRpc) : DhtDaemon * result NetworkError DhtRpcResponse :=
  match add_contact d (rpc_sender request) with
  | Err e => (d, Err e)
  | Panic => (d, Panic)
  | Ok d =>
      match request with
      | Ping _ => (d, Ok Pong)
      | FindNode _ target => (d, Ok (Nodes (closest_contacts d target K_BUCKET_SIZE)))
      | FindValue _ k =>
          let d := remove_expired now d in
          match records d !! k with
          | Some stored => (d, Ok (Value (record stored) (owner stored)))
          | None => (d, Ok (Nodes (closest_contacts d k K_BUCKET_SIZE)))
          end
      | Store _ r o =>
          match validate_record now r o None with
          | Ok _ => (keep_record (key r) r o d, Ok Stored)
          | Err e => (d, Err e)
          | Panic => (d, Panic)
          end
      end
  end.

(** ** Lookups *)

Section lookup.
Context (call : nat → DhtContact → DhtRpc → DhtRpcResponse + NetworkError).

(** One contact of an answer *)
Definition learn (node : DhtContact) (st : DhtDaemon * list DhtContact) :
    result NetworkError (DhtDaemon * list DhtContact) :=
  let '(d, known) := st in
  let? d := add_contact d node in
  Ok (d, if bool_decide (node ∈ known) then known else known ++ [node]).

(** One peer of a round; [n] counts the calls. *)
Definition query_peer (target : bytes) (peer : DhtContact)
    (st : DhtDaemon * nat * list DhtContact * list DhtContact) :
    result NetworkError (DhtDaemon * nat * list DhtContact * list DhtContact) :=
  let '(d, n, known, queried) := st in
  match call n peer (FindNode (local d) target) with
  | inl (Nodes nodes) =>
      let? (d, known) := foldM learn nodes (d, known) in
      Ok (d, S n, known, queried ++ [peer])
  | _ => Ok (d, S n, known, queried ++ [peer])
  end.

Definition best_distance (target : bytes) (known : list DhtContact) : option bytes :=
  (λ c, xor_distance (node_id c) target) <$> head known.

(** The loop of [find_node]; [None]: the fuel does not suffice. *)
Fixpoint find_loop (fuel : nat) (target : bytes) (d : DhtDaemon) (n : nat) (known queried : list DhtContact) :
    option (result NetworkError (DhtDaemon * nat * list DhtContact)) :=
  match fuel with
  | O => None
  | S fuel =>
      let round := take (Z.to_nat LOOKUP_ALPHA) (filter (λ c, c ∉ queried) known) in
      if bool_decide (round = []) then Some (Ok (d, n, known))
      else
        let old_best := best_distance target known in
        match foldM (query_peer target) round (d, n, known, queried) with
        | Ok (d, n, known, queried) =>
            let known := take (Z.to_nat K_BUCKET_SIZE) (sort_contacts target known) in
            if bool_decide (old_best = best_distance target known) && (len known <=? len queried)
            then Some (Ok (d, n, known))
            else find_loop fuel target d n known queried
        | Err e => Some (Err e)
        | Panic => Some Panic
        end
  end.

Definition find_node (fuel : nat) (d : DhtDaemon) (n : nat) (target : bytes) :
    option (result NetworkError (DhtDaemon * nat * list DhtContact)) :=
  find_loop fuel target d n (closest_contacts d target K_BUCKET_SIZE) [].

(** The loop of [find_value] over the peers found *)
Fixpoint ask_peers (clock : nat → Z) (k : bytes) (peers : list DhtContact) (d : DhtDaemon) (n : nat) :
    DhtDaemon * result NetworkError (option DhtRecord) :=
  match peers with
  | [] => (d, Ok None)
  | peer :: peers =>
      match call n peer (FindValue (local d) k) with
      | inl (Value r o) =>
          match validate_record (clock (S n)) r o (Some k) with
          | Ok _ => (keep_record k r o d, Ok (Some r))
          | Err e => (d, Err e)
          | Panic => (d, Panic)
          end
      | _ => ask_peers clock k peers d (S n)
      end
  end.

Definition find_value (fuel : nat) (clock : nat → Z) (d : DhtDaemon) (k : bytes) :
    option (DhtDaemon * result NetworkError (option DhtRecord)) :=
  let d := remove_expired (clock O) d in
  match records d !! k with
  | Some stored => Some (d, Ok (Some (record stored)))
  | None =>
      match find_node fuel d O k with
      | Some (Ok (d, n, peers)) => Some (ask_peers clock k peers d n)
      | Some (Err e) => Some (d, Err e)
      | Some Panic => Some (d, Panic)
      | None => None
      end
  end.

(** Replication: the first refusal ends it. *)
Fixpoint replicate_to (peers : list DhtContact) (r : DhtRecord) (o : VerifyingKey) (d : DhtDaemon) (n : nat) :
    result NetworkError unit :=
  match peers with
  | [] => Ok tt
  | peer :: peers =>
      match call n peer (Store (local d) r o) with
      | inl _ => replicate_to peers r o d (S n)
      | inr e => Err e
      end
  end.

Definition dht_store (fuel : nat) (now : Z) (d : DhtDaemon) (r : DhtRecord) (o : VerifyingKey) :
    option (DhtDaemon * result NetworkError unit) :=
  match validate_record now r o None with
  | Err e => Some (d, Err e)
  | Panic => Some (d, Panic)
  | Ok _ =>
      let d := keep_record (key r) r o d in
      match find_node fuel d O (key r) with
      | Some (Ok (d, n, peers)) =>
          Some (d, replicate_to (take (Z.to_nat LOOKUP_ALPHA) peers) r o d n)
      | Some (Err e) => Some (d, Err e)
      | Some Panic => Some (d, Panic)
      | None => None
      end
  end.
End lookup.
End dht.

(** ** Buckets *)

Lemma log2_byte_shift b r m : 0 < b → 0 ≤ r < 2 ^ m → Z.log2 (b * 2 ^ m + r) = Z.log2 b + m.
Proof.
  intros Hb Hr. assert (0 ≤ m) as Hm by (destruct (decide (0 ≤ m)); [done|rewrite Z.pow_neg_r in Hr; lia]).
  pose proof (Z.log2_spec b Hb) as [Hlo Hhi]. pose proof (Z.log2_nonneg b). apply Z.log2_unique; [lia|].
  rewrite <-Z.add_succ_l, !Z.pow_add_r by lia. nia.
Qed.

(** The index is the number of leading zero bits of the distance. *)
Lemma first_set_bit_spec v : ∀ i,
  first_set_bit i v = if decide (be_val v = 0) then None else Some (i * 8 + (8 * len v - 1 - Z.log2 (be_val v))).
Proof.
  induction v as [|b v IH]; intros i; [done|]. cbn [first_set_bit]. rewrite be_val_cons, len_cons.
  pose proof (byte_val_bound b) as Hb. unfold in_u in Hb. pose proof (be_val_bound v) as Hv.
  pose proof (len_nonneg v). destruct (Z.eqb_spec (byte_val b) 0) as [Hz|Hz]; cbn [negb].
  - rewrite IH, Hz, Z.mul_0_l, Z.add_0_l. destruct (decide _); [done|]. f_equal. lia.
  - rewrite decide_False by nia. f_equal. change 256 with (2 ^ 8) in *.
    rewrite <-Z.pow_mul_r in * by lia. rewrite log2_byte_shift by lia. lia.
Qed.

Lemma xor_distance_0 a b : len a = len b → be_val (xor_distance a b) = 0 ↔ a = b.
Proof.
  intros Hl. rewrite be_val_xor, Z.lxor_eq_0_iff by (unfold len in *; lia).
  split; [by apply be_val_inj|by intros ->].
Qed.

Lemma bucket_index_spec a b :
  len a = 32 → len b = 32 →
  bucket_index a b = if decide (a = b) then None else Some (255 - Z.log2 (be_val (xor_distance a b))).
Proof.
  intros Ha Hb. unfold bucket_index. rewrite first_set_bit_spec, len_xor_distance by congruence.
  pose proof (xor_distance_0 a b ltac:(congruence)) as H0.
  destruct (decide (a = b)) as [Heq|Hne]; [rewrite decide_True by tauto; done|].
  rewrite decide_False by tauto. f_equal. lia.
Qed.

Lemma bucket_index_range a b i : len a = 32 → len b = 32 → bucket_index a b = Some i → 0 ≤ i < 256.
Proof.
  intros Ha Hb. rewrite bucket_index_spec by done. destruct (decide (a = b)) as [|Hne]; [done|]. intros [= <-].
  pose proof (be_val_bound (xor_distance a b)) as [H0 H1]. rewrite len_xor_distance, Ha in H1 by congruence.
  pose proof (Z.log2_nonneg (be_val (xor_distance a b))).
  assert (be_val (xor_distance a b) ≠ 0) as Hnz by (rewrite xor_distance_0 by congruence; done).
  assert (Z.log2 (be_val (xor_distance a b)) < 256); [|lia].
  apply Z.log2_lt_pow2; [lia|]. by change (2 ^ 256) with (256 ^ 32).
Qed.

(** ** The routing table *)

Section table.
Context {C : Crypto} `{!CryptoLaws C}.

Definition verified (c : DhtContact) : Prop :=
  compute_abstract_address (new_ed25519 (contact_key c)) = node_id c.

#[export] Instance verified_dec c : Decision (verified c).
Proof. unfold verified. apply _. Defined.
#[local] Typeclasses Opaque verified.

Lemma verified_len c : verified c → len (node_id c) = 32.
Proof. intros <-. apply sha256_len. Qed.

(** What a bucket may hold *)
Definition bucket_ok (self : bytes) (i : nat) (b : list DhtContact) : Prop :=
  len b ≤ K_BUCKET_SIZE ∧ NoDup (node_id <$> b) ∧
  Forall (λ c, verified c ∧ bucket_index self (node_id c) = Some (Z.of_nat i)) b.

Definition table_ok (d : DhtDaemon) : Prop :=
  verified (local d) ∧ len (buckets d) = 256 ∧
  ∀ i b, buckets d !! i = Some b → bucket_ok (node_id (local d)) i b.

(** A bucket after a contact is seen: its other contacts in order, the oldest
    dropped when they fill the bucket, the contact last *)
Definition refreshed (b : list DhtContact) (c : DhtContact) : list DhtContact :=
  let others := filter (λ e, node_id e ≠ node_id c) b in
  (if K_BUCKET_SIZE <=? len others then drop 1 others else others) ++ [c].

Lemma filter_delete_found (b : list DhtContact) id p e :
  NoDup (node_id <$> b) → list_find (λ x, node_id x = id) b = Some (p, e) →
  delete p b = filter (λ x, node_id x ≠ id) b.
Proof.
  intros Hnd (Hp & He & Hbefore)%list_find_Some.
  assert (filter (λ x, node_id x ≠ id) b = filter (λ x, node_id x ≠ id) (delete p b)) as ->.
  { rewrite <-(take_drop_middle b p e Hp) at 1. rewrite delete_take_drop, !filter_app, filter_cons.
    by rewrite decide_False by tauto. }
  symmetry. apply list_filter_all. intros x Hx Hid.
  rewrite delete_take_drop in Hx. apply elem_of_app in Hx as [Hx|Hx].
  - apply elem_of_take in Hx as (j & Hj & Hlt). by apply (Hbefore j x).
  - apply list_elem_of_lookup in Hx as [j Hj]. rewrite lookup_drop in Hj.
    assert (S p + j = p)%nat; [|lia].
    apply (NoDup_lookup (node_id <$> b) _ _ id); [done| |]; rewrite list_lookup_fmap; [by rewrite Hj; cbn; f_equal|].
    rewrite Hp. cbn. by f_equal.
Qed.

Lemma touch_refreshed b c : NoDup (node_id <$> b) → touch b c = refreshed b c.
Proof.
  intros Hnd. unfold touch, refreshed. cbv zeta.
  assert (match list_find (λ e, node_id e = node_id c) b with
    | Some (position, _) => delete position b | None => b end = filter (λ e, node_id e ≠ node_id c) b) as ->.
  { destruct (list_find _ b) as [[p e]|] eqn:Hf; [by eapply filter_delete_found|].
    apply list_find_None in Hf. rewrite Forall_forall in Hf. symmetry. by apply list_filter_all. }
  set (o := filter _ b). rewrite len_app. change (len [c]) with 1. unfold K_BUCKET_SIZE.
  destruct (Z.ltb_spec 20 (len o + 1)), (Z.leb_spec 20 (len o)); try lia; [|done].
  destruct o as [|x o]; [|done]. unfold len in *. cbn in *. lia.
Qed.

Lemma refreshed_ok self i b c :
  bucket_ok self i b → verified c → bucket_index self (node_id c) = Some (Z.of_nat i) →
  bucket_ok self i (refreshed b c).
Proof.
  intros (Hl & Hnd & Hf) Hv Hi. unfold refreshed. set (o := filter _ b).
  assert (o `sublist_of` b) as Ho by apply sublist_filter.
  assert (∃ o', (if K_BUCKET_SIZE <=? len o then drop 1 o else o) = o' ∧ o' `sublist_of` o ∧ len o' < K_BUCKET_SIZE)
    as (o' & -> & Ho' & Hlt).
  { eexists. split; [done|]. apply sublist_length in Ho. unfold K_BUCKET_SIZE, len in *.
    destruct (Z.leb_spec 20 (Z.of_nat (length o))).
    - split; [apply sublist_drop|]. rewrite length_drop. lia.
    - split; [done|lia]. }
  split; [|split].
  - rewrite len_app. unfold K_BUCKET_SIZE, len in *. cbn [length]. lia.
  - rewrite fmap_app. apply NoDup_app. split; [|split; [|apply NoDup_singleton]].
    + apply (sublist_NoDup _ (node_id <$> b)); [done|apply fmap_sublist; by etrans].
    + intros id Hid Hc. apply list_elem_of_fmap in Hid as (x & -> & Hx). apply list_elem_of_singleton in Hc.
      eapply elem_of_sublist in Hx; [|exact Ho']. by apply list_elem_of_filter in Hx as [? _].
  - apply Forall_app. split; [|by repeat constructor].
    rewrite Forall_forall in *. intros x Hx. apply Hf.
    by do 2 (eapply elem_of_sublist; [|done]).
Qed.

Lemma daemon_new_ok k : table_ok (daemon_new k).
Proof.
  split; [done|]. split; [done|]. intros i b Hb. apply lookup_replicate in Hb as [-> _].
  split; [done|]. split; constructor.
Qed.

(** Seeing a contact: refused unless its identifier is the address of its key
    and not the daemon's own, it moves to the end of its bucket. *)
Lemma add_contact_spec d c :
  table_ok d →
  ∃ d', add_contact d c = Ok d' ∧ table_ok d' ∧ local d' = local d ∧ records d' = records d ∧
    if decide (verified c ∧ node_id c ≠ node_id (local d)) then
      ∃ i b, bucket_index (node_id (local d)) (node_id c) = Some (Z.of_nat i) ∧ buckets d !! i = Some b ∧
        buckets d' = <[ i := refreshed b c ]> (buckets d)
    else d' = d.
Proof.
  intros (Hloc & Hlen & Hb). unfold add_contact. destruct (decide _) as [[Hv Hne]|Hno].
  2: { exists d. split; [|split; [by split|]; by split; [|split]]. destruct (bool_decide_reflect (node_id c = node_id (local d))); [done|].
       destruct (bool_decide_reflect (compute_abstract_address (new_ed25519 (contact_key c)) = node_id c));
         [|done]. by exfalso; apply Hno. }
  rewrite bool_decide_false by done. rewrite bool_decide_true by done. cbn [orb negb].
  destruct (bucket_index _ _) as [z|] eqn:Hi.
  2: { rewrite bucket_index_spec in Hi by by apply verified_len. case_decide; congruence. }
  pose proof (bucket_index_range _ _ _ (verified_len _ Hloc) (verified_len _ Hv) Hi) as Hz.
  destruct (lookup_lt_is_Some_2 (buckets d) (Z.to_nat z)) as [b Hbz]; [unfold len in *; lia|].
  unfold index. rewrite (proj2 (Z.leb_le _ _)) by lia. rewrite Hbz. cbn [unwrap]. rewrite rbind_ret.
  rewrite <-(Z2Nat.id z) in Hi by lia. destruct (Hb _ _ Hbz) as (Hbl & Hnd & Hf).
  rewrite touch_refreshed by done. eexists. split; [done|]. split; [|split; [done|split; [done|]]].
  2: { exists (Z.to_nat z), b. by rewrite Z2Nat.id by lia. }
  split; [done|]. split; [unfold len in *; cbn; by rewrite length_insert|]. intros i b' Hi'. cbn in *.
  apply list_lookup_insert_Some in Hi' as [(<- & <- & _)|[_ Hi']]; [|by apply Hb].
  by apply refreshed_ok.
Qed.

(** ** Lookups in the table *)

#[local] Instance nearer_trans target : Transitive (nearer target).
Proof. unfold nearer. intros a b c. lia. Qed.
#[local] Instance nearer_total target : Total (nearer target).
Proof. unfold nearer. intros a b. lia. Qed.

Lemma sort_contacts_Permutation target l : sort_contacts target l ≡ₚ l.
Proof. apply merge_sort_Permutation. Qed.

Lemma sort_contacts_sorted target l : StronglySorted (nearer target) (sort_contacts target l).
Proof. apply StronglySorted_merge_sort; apply _. Qed.

(** The nearest contacts of a list: a shortest prefix in order of distance *)
Definition nearest (target : bytes) (limit : Z) (l near : list DhtContact) : Prop :=
  StronglySorted (nearer target) near ∧ len near = Z.min (Z.max 0 limit) (len l) ∧
  ∃ far, l ≡ₚ near ++ far ∧ ∀ a b, a ∈ near → b ∈ far → nearer target a b.

Lemma take_nearest target limit l : nearest target limit l (take (Z.to_nat limit) (sort_contacts target l)).
Proof.
  pose proof (sort_contacts_sorted target l) as Hs. pose proof (sort_contacts_Permutation target l) as Hp.
  pose proof (Permutation_length Hp) as Hl. rewrite <-(take_drop (Z.to_nat limit) (sort_contacts target l)) in Hs, Hp.
  split; [by eapply StronglySorted_app_1_l|]. split; [unfold len; rewrite length_take; lia|].
  exists (drop (Z.to_nat limit) (sort_contacts target l)). split; [done|]. intros a b Ha Hb.
  by eapply StronglySorted_app_1_elem_of.
Qed.

Definition known_contact (d : DhtDaemon) (c : DhtContact) : Prop := ∃ b, b ∈ buckets d ∧ c ∈ b.

Lemma elem_of_concat_buckets d c : c ∈ concat (buckets d) ↔ known_contact d c.
Proof. rewrite list_elem_of_In, in_concat. unfold known_contact. setoid_rewrite list_elem_of_In. done. Qed.

(** No contact is in two buckets, or twice in one. *)
Lemma table_NoDup d : table_ok d → NoDup (node_id <$> concat (buckets d)).
Proof.
  intros (_ & _ & Hb). assert (∀ k l, (∀ i b, l !! i = Some b → bucket_ok (node_id (local d)) (k + i)%nat b) →
    NoDup (node_id <$> concat l) ∧ ∀ c, c ∈ concat l → ∃ i, (k ≤ i)%nat ∧
      bucket_index (node_id (local d)) (node_id c) = Some (Z.of_nat i)) as H.
  { intros k l. revert k. induction l as [|b l IH]; intros k Hl.
    { split; [constructor|]. intros c Hc. by apply not_elem_of_nil in Hc. }
    destruct (Hl 0%nat b eq_refl) as (_ & Hnd & Hf). rewrite Nat.add_0_r, Forall_forall in Hf.
    destruct (IH (S k)) as [IHn IHi].
    { intros i b' Hi. replace (S k + i)%nat with (k + S i)%nat by lia. by apply Hl. }
    cbn [concat]. split.
    - rewrite fmap_app. apply NoDup_app. split; [done|]. split; [|done].
      intros id Hx Hy. apply list_elem_of_fmap in Hx as (x & -> & Hx).
      apply list_elem_of_fmap in Hy as (y & Hxy & Hy).
      apply Hf in Hx as [_ Hx]. apply IHi in Hy as (i & Hi & Hy). rewrite <-Hxy, Hx in Hy. simplify_eq. lia.
    - intros c [Hc|Hc]%elem_of_app; [apply Hf in Hc as [_ Hc]; by exists k|].
      apply IHi in Hc as (i & Hi & Hc). exists i. split; [lia|done]. }
  by destruct (H 0%nat (buckets d)).
Qed.
End table.
