(* ===== verification/DhtLookup.v ===== *)
(** [onx-networking], [dht_daemon.rs], continued: what a daemon keeps true
    whatever its peers send, what it answers, and what its lookups return. *)
From S2P Require Import Prelude Bytes Machine Primitives ToyCrypto Network Dht.

Section daemon.
Context {C : Crypto} `{!CryptoLaws C}.

(** ** The history of a daemon *)

(** A stored record lies under its key and is signed by the key its owner's
    address belongs to. *)
Definition stored_ok (k : bytes) (s : StoredRecord) : Prop :=
  key (record s) = k ∧ owner_address (record s) = compute_abstract_address (new_ed25519 (owner s)) ∧
  verify_record_signature (record s) (owner s) = Ok tt.

Definition daemon_ok (d : DhtDaemon) : Prop := table_ok d ∧ map_Forall stored_ok (records d).

(** The atomic steps of the daemon's operations: each takes one lock, so the
    steps of concurrent operations interleave. *)
Inductive dht_step (d : DhtDaemon) : DhtDaemon → Prop :=
| step_seen c d' : add_contact d c = Ok d' → dht_step d d'
| step_expire now : dht_step d (remove_expired now d)
| step_keep now r o req :
    validate_record now r o req = Ok tt → dht_step d (keep_record (key r) r o d).

Lemma validate_record_Ok now r o req :
  validate_record now r o req = Ok tt ↔
  (∀ k, req = Some k → k = key r) ∧ now < expiry r ∧
  owner_address r = compute_abstract_address (new_ed25519 o) ∧ verify_record_signature r o = Ok tt.
Proof.
  unfold validate_record.
  assert ((match req with Some k => negb (bool_decide (k = key r)) | None => false end) = false ↔
    ∀ k, req = Some k → k = key r) as Hreq.
  { destruct req as [k|]; [|by split]. rewrite negb_false_iff, bool_decide_eq_true. naive_solver. }
  destruct (match req with Some _ => _ | None => _ end); [by naive_solver|].
  destruct (Z.leb_spec (expiry r) now); [split; [done|lia]|].
  destruct (bool_decide_reflect (compute_abstract_address (new_ed25519 o) = owner_address r)); cbn [negb];
    naive_solver.
Qed.

Lemma validate_record_safe now r o req : safe (validate_record now r o req).
Proof.
  unfold validate_record, verify_record_signature. destruct (match req with Some _ => _ | None => _ end); [done|].
  destruct (_ <=? _); [done|]. destruct (negb _); [done|]. by destruct (is_err _).
Qed.

Lemma dht_step_ok d d' : daemon_ok d → dht_step d d' → daemon_ok d' ∧ local d' = local d.
Proof.
  intros [Ht Hr] [c d1 Hc|now|now r o req Hv].
  - destruct (add_contact_spec d c Ht) as (d2 & Hc2 & Ht2 & Hl & Hrec & _).
    assert (d1 = d2) as -> by congruence.
    split; [|done]. split; [done|]. by rewrite Hrec.
  - split; [|done]. split; [done|]. cbn. intros k s [Hk _]%map_lookup_filter_Some.
    by apply Hr.
  - apply validate_record_Ok in Hv as (_ & _ & Ho & Hs). split; [|done]. split; [done|]. cbn.
    by apply map_Forall_insert_2.
Qed.

Lemma dht_steps_ok d d' : rtc dht_step d d' → daemon_ok d → daemon_ok d' ∧ local d' = local d.
Proof.
  induction 1 as [|d d1 d2 Hs _ IH]; [done|]. intros Hok. destruct (dht_step_ok _ _ Hok Hs) as [H1 Hl].
  destruct (IH H1). split; congruence.
Qed.

Lemma new_ok k : daemon_ok (daemon_new k).
Proof. split; [apply daemon_new_ok|apply map_Forall_empty]. Qed.

Lemma seen_step d c : daemon_ok d → ∃ d', add_contact d c = Ok d' ∧ rtc dht_step d d' ∧ daemon_ok d' ∧ records d' = records d.
Proof.
  intros Hok. destruct (add_contact_spec d c (proj1 Hok)) as (d' & Hc & _ & _ & Hrec & _).
  exists d'. split; [done|]. assert (dht_step d d') as Hs by by eapply step_seen.
  split; [by apply rtc_once|]. by apply dht_step_ok in Hs as [? _].
Qed.

(** ** Requests *)

Definition response_ok (now : Z) (d : DhtDaemon) (request : DhtRpc) (a : DhtRpcResponse) : Prop :=
  match request, a with
  | Ping _, Pong => True
  | Store _ r o, Stored =>
      now < expiry r ∧ stored_ok (key r) {| record := r; owner := o |} ∧
      records d !! key r = Some {| record := r; owner := o |}
  | FindNode _ target, Nodes l => nearest target K_BUCKET_SIZE (concat (buckets d)) l
  | FindValue _ k, Value r o => now < expiry r ∧ stored_ok k {| record := r; owner := o |}
  | FindValue _ k, Nodes l => nearest k K_BUCKET_SIZE (concat (buckets d)) l
  | _, _ => False
  end.

Lemma handle_rpc_steps now d request :
  daemon_ok d →
  rtc dht_step d (handle_rpc now d request).1 ∧ safe (handle_rpc now d request).2 ∧
  ∀ a, (handle_rpc now d request).2 = Ok a → response_ok now (handle_rpc now d request).1 request a.
Proof.
  intros Hok. unfold handle_rpc. destruct (seen_step d (rpc_sender request) Hok) as (d1 & -> & Hs & [Ht Hr] & _).
  destruct request as [s|s r o|s target|s k]; cbn [fst snd].
  - split; [done|]. split; [done|]. by intros a [= <-].
  - pose proof (validate_record_safe now r o None). destruct (validate_record now r o None) as [[]|e|] eqn:Hv;
      cbn [fst snd]; [|by split|done].
    split; [by eapply rtc_r, step_keep|]. split; [done|]. intros a [= <-].
    apply validate_record_Ok in Hv as (_ & He & Ho & Hsig). split; [done|]. split; [done|]. apply lookup_insert_eq.
  - split; [done|]. split; [done|]. intros a [= <-]. apply take_nearest.
  - destruct (records (remove_expired now d1) !! k) as [st|] eqn:Hk; cbn [fst snd];
      (split; [by eapply rtc_r, step_expire|]); (split; [done|]); intros a [= <-].
    + apply map_lookup_filter_Some in Hk as [Hk He]. split; [done|]. destruct st. by apply Hr in Hk.
    + apply take_nearest.
Qed.

(** ** Iterative lookups *)

Section lookup.
Context (call : nat → DhtContact → DhtRpc → DhtRpcResponse + NetworkError).

Lemma learn_spec nodes : ∀ d known, daemon_ok d → NoDup known →
  ∃ d' known', foldM learn nodes (d, known) = Ok (d', known') ∧ rtc dht_step d d' ∧ daemon_ok d' ∧
    records d' = records d ∧ NoDup known' ∧ ∀ c, c ∈ known' ↔ c ∈ known ∨ c ∈ nodes.
Proof.
  induction nodes as [|node nodes IH]; intros d known Hok Hnd; cbn [foldM].
  { exists d, known. do 5 (split; [done|]). set_solver. }
  cbn [learn]. destruct (seen_step d node Hok) as (d1 & -> & Hs & Hok1 & Hrec1). rewrite !rbind_ret.
  destruct (IH d1 (if bool_decide (node ∈ known) then known else known ++ [node]) Hok1)
    as (d2 & known2 & -> & Hs2 & Hok2 & Hrec2 & Hnd2 & Hin2).
  { case_bool_decide as Hn; [done|]. apply NoDup_app. split; [done|]. split; [set_solver|apply NoDup_singleton]. }
  exists d2, known2. split; [done|]. split; [by etrans|]. split; [done|]. split; [congruence|]. split; [done|]. intros c. rewrite Hin2.
  case_bool_decide; set_solver.
Qed.

Section run.
Context (target : bytes) (d0 : DhtDaemon) (n0 : nat).

(** A contact the lookup has heard of: it was in the table, or in the answer of
    a peer that was asked, the [i]-th peer in the [n0 + i]-th call *)
Definition heard (asked : list DhtContact) (c : DhtContact) : Prop :=
  known_contact d0 c ∨ ∃ i peer nodes, asked !! i = Some peer ∧
    call (n0 + i)%nat peer (FindNode (local d0) target) = inl (Nodes nodes) ∧ c ∈ nodes.

Lemma heard_snoc asked peer c :
  heard (asked ++ [peer]) c ↔ heard asked c ∨
    ∃ nodes, call (n0 + length asked)%nat peer (FindNode (local d0) target) = inl (Nodes nodes) ∧ c ∈ nodes.
Proof.
  unfold heard. split.
  - intros [H|(i & p & nodes & [Hi|[Hi Hp]]%lookup_app_Some & Hc & Hin)]; [by do 2 left|left; right; eauto 10|].
    apply list_lookup_singleton_Some in Hp as [Hz <-]. right. exists nodes.
    replace (length asked) with i by lia. done.
  - intros [[H|(i & p & nodes & Hi & Hc & Hin)]|(nodes & Hc & Hin)]; [by left| |].
    + right. exists i, p, nodes. split; [by apply lookup_app_l_Some|done].
    + right. exists (length asked), peer, nodes. split; [|done].
      by rewrite lookup_app_r, Nat.sub_diag by lia.
Qed.

Lemma heard_app asked more c : heard asked c → heard (asked ++ more) c.
Proof.
  intros [H|(i & p & nodes & Hi & H)]; [by left|]. right. exists i, p, nodes. split; [by apply lookup_app_l_Some|done].
Qed.

Record lookup_inv (st : DhtDaemon * nat * list DhtContact * list DhtContact) : Prop := {
  li_steps : rtc dht_step d0 st.1.1.1;
  li_daemon : daemon_ok st.1.1.1;
  li_local : local st.1.1.1 = local d0;
  li_records : records st.1.1.1 = records d0;
  li_calls : st.1.1.2 = (n0 + length st.2)%nat;
  li_asked : NoDup st.2 ∧ ∀ c, c ∈ st.2 → heard st.2 c;
  li_known : NoDup st.1.2 ∧ ∀ c, c ∈ st.1.2 → heard st.2 c;
  li_best : ∀ c, heard st.2 c → ∃ b, b ∈ st.1.2 ∧ nearer target b c;
}.

Lemma query_peer_inv d n known queried peer :
  lookup_inv (d, n, known, queried) → peer ∉ queried → heard queried peer →
  ∃ d' known', query_peer call target peer (d, n, known, queried) = Ok (d', S n, known', queried ++ [peer]) ∧
    lookup_inv (d', S n, known', queried ++ [peer]).
Proof.
  intros [Hs Hok Hl Hrec Hn [Hnq Hq] [Hnk Hk] Hb] Hnew Hheard. cbn [fst snd] in *. unfold query_peer. rewrite Hl.
  assert (NoDup (queried ++ [peer]) ∧ ∀ c, c ∈ queried ++ [peer] → heard (queried ++ [peer]) c) as Hq'.
  { split; [apply NoDup_app; split; [done|]; split; [set_solver|apply NoDup_singleton]|].
    intros c [Hc|Hc%list_elem_of_singleton]%elem_of_app; apply heard_app; [by apply Hq|by subst]. }
  assert ((S n = n0 + length (queried ++ [peer]))%nat) as Hn' by (rewrite length_app; cbn; lia).
  assert (∀ c, heard (queried ++ [peer]) c → heard queried c ∨ ∃ nodes,
    call n peer (FindNode (local d0) target) = inl (Nodes nodes) ∧ c ∈ nodes) as Hsnoc.
  { intros c. rewrite heard_snoc, <-Hn. done. }
  destruct (call n peer _) as [[| |nodes|]|] eqn:Hcall.
  3: { destruct (learn_spec nodes d known Hok Hnk) as (d1 & known1 & -> & Hs1 & Hok1 & Hrec1 & Hnk1 & Hin1).
    rewrite rbind_ret. exists d1, known1. split; [done|]. split; cbn [fst snd]; try done.
    - by etrans.
    - by apply dht_steps_ok in Hs1 as [_ Hl1]; [congruence|].
    - congruence.
    - split; [done|]. intros c [Hc|Hc]%Hin1; [by apply heard_app, Hk|]. apply heard_snoc. right.
      exists nodes. by rewrite <-Hn.
    - intros c [Hc|(l & ? & Hc)]%Hsnoc; [|simplify_eq; exists c; split; [apply Hin1; by right|unfold nearer; lia]].
      apply Hb in Hc as (b & Hbk & Hbn). exists b. split; [apply Hin1; by left|done]. }
  all: exists d, known; split; [done|]; split; cbn [fst snd]; try done.
  all: try (split; [done|]; intros c Hc; by apply heard_app, Hk).
  all: intros c [Hc|(l & ? & Hc)]%Hsnoc; [by apply Hb|done].
Qed.

Lemma round_inv round : ∀ d n known queried,
  lookup_inv (d, n, known, queried) → NoDup round → (∀ c, c ∈ round → (c ∉ queried) ∧ heard queried c) →
  ∃ d' n' known', foldM (query_peer call target) round (d, n, known, queried) =
      Ok (d', n', known', queried ++ round) ∧ lookup_inv (d', n', known', queried ++ round).
Proof.
  induction round as [|peer round IH]; intros d n known queried Hinv Hnd Hr; cbn [foldM].
  { exists d, n, known. by rewrite app_nil_r. }
  apply NoDup_cons in Hnd as [Hpr Hnd]. destruct (Hr peer) as [Hp1 Hp2]; [by left|].
  destruct (query_peer_inv _ _ _ _ _ Hinv Hp1 Hp2) as (d1 & known1 & -> & Hinv1). rewrite rbind_ret.
  destruct (IH _ _ _ _ Hinv1 Hnd) as (d2 & n2 & known2 & -> & Hinv2).
  { intros c Hc. destruct (Hr c) as [H1 H2]; [by right|]. split; [|by apply heard_app].
    rewrite elem_of_app, list_elem_of_singleton. naive_solver. }
  rewrite <-app_assoc in *. by exists d2, n2, known2.
Qed.

Definition ordered (known : list DhtContact) : Prop :=
  StronglySorted (nearer target) known ∧ len known ≤ K_BUCKET_SIZE.

Lemma head_nearest known b c :
  StronglySorted (nearer target) known → b ∈ known → nearer target b c →
  ∃ best, head known = Some best ∧ best ∈ known ∧ nearer target best c.
Proof.
  intros Hs Hb Hbc. destruct known as [|best known]; [by apply not_elem_of_nil in Hb|].
  exists best. split; [done|]. split; [by left|]. apply StronglySorted_inv in Hs as [_ Hf].
  apply elem_of_cons in Hb as [->|Hb]; [done|]. rewrite Forall_forall in Hf. specialize (Hf b Hb).
  unfold nearer in *. lia.
Qed.

(** Sorting and keeping the nearest loses neither the order nor the best. *)
Lemma kept_inv d n known queried :
  lookup_inv (d, n, known, queried) →
  lookup_inv (d, n, take (Z.to_nat K_BUCKET_SIZE) (sort_contacts target known), queried) ∧
  ordered (take (Z.to_nat K_BUCKET_SIZE) (sort_contacts target known)).
Proof.
  intros [Hs Hok Hl Hrec Hn Hq [Hnk Hk] Hb]. cbn [fst snd] in *.
  pose proof (sort_contacts_Permutation target known) as Hp. pose proof (sort_contacts_sorted target known) as Hst.
  split; [split; cbn [fst snd]; try done|].
  - split.
    + eapply sublist_NoDup; [|apply sublist_take]. by rewrite Hp.
    + intros c Hc. apply Hk. rewrite <-Hp. apply elem_of_take in Hc as (i & Hi & _).
      by eapply list_elem_of_lookup_2.
  - intros c (b & Hbk & Hbc)%Hb. rewrite <-Hp in Hbk.
    destruct (head_nearest _ _ _ Hst Hbk Hbc) as (best & Hh & _ & Hbest). exists best. split; [|done].
    destruct (sort_contacts target known); [done|]. injection Hh as ->. left.
  - destruct (take_nearest target K_BUCKET_SIZE known) as (H1 & H2 & _). split; [done|]. rewrite H2.
    unfold K_BUCKET_SIZE. lia.
Qed.

(** Every round asks a peer not yet asked, so as many rounds as there are
    contacts to hear of are enough. *)
Lemma find_loop_spec (U : list DhtContact) fuel : ∀ d n known queried,
  (∀ asked c, heard asked c → c ∈ U) →
  lookup_inv (d, n, known, queried) → ordered known → (length U < fuel + length queried)%nat →
  ∃ d' n' known' asked, find_loop call fuel target d n known queried = Some (Ok (d', n', known')) ∧
    lookup_inv (d', n', known', asked) ∧ ordered known'.
Proof.
  induction fuel as [|fuel IH]; intros d n known queried HU Hinv Hord Hfuel; cbn [find_loop].
  - exfalso. destruct (li_asked _ Hinv) as [Hnq Hq]. cbn [snd] in *.
    assert (length queried ≤ length U)%nat; [|lia]. apply submseteq_length, NoDup_submseteq; [done|]. eauto.
  - set (round := take _ _). case_bool_decide as Hround.
    { by exists d, n, known, queried. }
    assert (NoDup round ∧ ∀ c, c ∈ round → (c ∉ queried) ∧ heard queried c) as [Hnr Hr].
    { destruct (li_known _ Hinv) as [Hnk Hk]. cbn [fst snd] in *. split.
      - eapply sublist_NoDup; [|apply sublist_take]. by apply NoDup_filter.
      - intros c Hc. apply elem_of_take in Hc as (i & Hi & _).
        apply list_elem_of_lookup_2, list_elem_of_filter in Hi as [H1 H2]. split; [done|by apply Hk]. }
    destruct (round_inv round _ _ _ _ Hinv Hnr Hr) as (d1 & n1 & known1 & -> & Hinv1).
    apply kept_inv in Hinv1 as [Hinv1 Hord1]. cbv zeta. destruct (_ && _).
    { by eexists _, _, _, _. }
    apply (IH d1 n1 _ _ HU Hinv1 Hord1). rewrite length_app.
    destruct round; [done|]. cbn [length]. lia.
Qed.
End run.

Lemma first_known target d n :
  daemon_ok d →
  lookup_inv target d n (d, n, closest_contacts d target K_BUCKET_SIZE, []) ∧
  ordered target (closest_contacts d target K_BUCKET_SIZE).
Proof.
  intros Hok. destruct (kept_inv target d n d n (concat (buckets d)) []) as [H1 H2]; [|done].
  assert (∀ c, heard target d n [] c ↔ c ∈ concat (buckets d)) as Hh.
  { intros c. rewrite elem_of_concat_buckets. unfold heard. split; [|by left].
    intros [Hc|(i & p & nodes & Hi & _)]; [done|]. by rewrite lookup_nil in Hi. }
  split; cbn [fst snd]; try done.
  - split; [constructor|]. intros c Hc. by apply not_elem_of_nil in Hc.
  - split; [|by intros c; rewrite Hh]. eapply NoDup_fmap_1, table_NoDup, Hok.
  - intros c Hc. exists c. split; [by apply Hh|unfold nearer; lia].
Qed.

Lemma find_node_run (U : list DhtContact) fuel d n target :
  daemon_ok d → (∀ asked c, heard target d n asked c → c ∈ U) → (length U < fuel)%nat →
  ∃ d' n' known asked, find_node call fuel d n target = Some (Ok (d', n', known)) ∧
    lookup_inv target d n (d', n', known, asked) ∧ ordered target known.
Proof.
  intros Hok HU Hf. destruct (first_known target d n Hok) as [Hinv Hord]. unfold find_node.
  by apply (find_loop_spec target d n U); [..|cbn; lia].
Qed.

(** All the contacts a lookup can hear of are in [U]. *)
Definition confined (U : list DhtContact) (d : DhtDaemon) (target : bytes) : Prop :=
  (∀ c, known_contact d c → c ∈ U) ∧
  ∀ n peer nodes c, call n peer (FindNode (local d) target) = inl (Nodes nodes) → c ∈ nodes → c ∈ U.

Lemma confined_heard U d n target asked c : confined U d target → heard target d n asked c → c ∈ U.
Proof. intros [H1 H2] [H|(i & p & nodes & _ & Hc & Hin)]; [by apply H1|by eapply H2]. Qed.

(** ** Values *)

(** A value a lookup may return: stored under its key, signed, not expired when
    it was looked at *)
Definition value_ok (clock : nat → Z) (k : bytes) (d : DhtDaemon) (r : DhtRecord) : Prop :=
  ∃ s m, records d !! k = Some s ∧ record s = r ∧ stored_ok k s ∧ clock m < expiry r.

Lemma ask_peers_spec clock k peers : ∀ d n, daemon_ok d →
  rtc dht_step d (ask_peers call clock k peers d n).1 ∧ safe (ask_peers call clock k peers d n).2 ∧
  ∀ r, (ask_peers call clock k peers d n).2 = Ok (Some r) →
    value_ok clock k (ask_peers call clock k peers d n).1 r.
Proof.
  induction peers as [|peer peers IH]; intros d n Hok; cbn [ask_peers]; [done|].
  destruct (call n peer _) as [[| |nodes|r o]|e]; try by apply IH.
  pose proof (validate_record_safe (clock (S n)) r o (Some k)).
  destruct (validate_record (clock (S n)) r o (Some k)) as [[]|e|] eqn:Hv; cbn [fst snd]; [|done|done].
  pose proof Hv as (Hk & He & Ho & Hs)%validate_record_Ok. specialize (Hk k eq_refl). subst k.
  split; [by eapply rtc_once, step_keep|]. split; [done|]. intros r' [= <-].
  exists {| record := r; owner := o |}, (S n). split; [apply lookup_insert_eq|]. done.
Qed.

Lemma find_value_run (U : list DhtContact) fuel clock d k :
  daemon_ok d → confined U d k → (length U < fuel)%nat →
  ∃ d' res, find_value call fuel clock d k = Some (d', res) ∧ rtc dht_step d d' ∧ safe res ∧
    ∀ r, res = Ok (Some r) → value_ok clock k d' r.
Proof.
  intros Hok Hconf Hf. unfold find_value. cbv zeta. set (d1 := remove_expired (clock 0%nat) d).
  assert (rtc dht_step d d1) as Hs1 by apply rtc_once, step_expire.
  pose proof (dht_steps_ok _ _ Hs1 Hok) as [Hok1 Hl1].
  destruct (records d1 !! k) as [s|] eqn:Hk.
  { exists d1, (Ok (Some (record s))). split; [done|]. split; [done|]. split; [done|]. intros r [= <-].
    exists s, 0%nat. pose proof Hk as [_ He]%map_lookup_filter_Some. split; [done|]. split; [done|].
    split; [by apply Hok1|done]. }
  destruct (find_node_run U fuel d1 0 k) as (d2 & n2 & known & asked & -> & Hinv & _); [done| |done|].
  { intros asked c. by apply confined_heard. }
  pose proof (li_steps _ _ _ _ Hinv) as Hs2. pose proof (li_daemon _ _ _ _ Hinv) as Hok2. cbn [fst snd] in *.
  destruct (ask_peers_spec clock k known d2 n2 Hok2) as (H1 & H2 & H3).
  eexists _, _. split; [by rewrite <-surjective_pairing|]. split; [etrans; [done|]; by etrans|]. done.
Qed.

Lemma replicate_to_safe peers r o d : ∀ n, safe (replicate_to call peers r o d n).
Proof. induction peers as [|peer peers IH]; intros n; cbn [replicate_to]; [done|]. by destruct (call _ _ _). Qed.

Lemma dht_store_run (U : list DhtContact) fuel now d r o :
  daemon_ok d → confined U d (key r) → (length U < fuel)%nat →
  ∃ d' res, dht_store call fuel now d r o = Some (d', res) ∧ rtc dht_step d d' ∧ safe res ∧
    (d' = d ∧ validate_record now r o None = res ∨
     validate_record now r o None = Ok tt ∧ records d' !! key r = Some {| record := r; owner := o |}).
Proof.
  intros Hok Hconf Hf. unfold dht_store. pose proof (validate_record_safe now r o None).
  destruct (validate_record now r o None) as [[]|e|] eqn:Hv; [|exists d, (Err e); split; [done|]; split; [done|]; split; [done|by left]|done].
  set (d1 := keep_record (key r) r o d).
  assert (rtc dht_step d d1) as Hs1 by by eapply rtc_once, step_keep.
  pose proof (dht_steps_ok _ _ Hs1 Hok) as [Hok1 Hl1].
  destruct (find_node_run U fuel d1 0 (key r)) as (d2 & n2 & known & asked & -> & Hinv & _); [done| |done|].
  { intros asked c. by apply confined_heard. }
  pose proof (li_steps _ _ _ _ Hinv) as Hs2. cbn [fst snd] in *.
  eexists _, _. split; [done|]. split; [by etrans|]. split; [apply replicate_to_safe|]. right. split; [done|].
  pose proof (li_records _ _ _ _ Hinv) as Hrec. cbn [fst snd] in Hrec. rewrite Hrec. apply lookup_insert_eq.
Qed.
End lookup.

(** C23: whatever its peers send and however its operations interleave, a
    daemon's routing table stays well-formed - 256 buckets of at most twenty
    contacts, each with the address of its key as identifier, no identifier
    twice, each contact in the bucket of its distance - and every record it
    holds lies under its own key with the signature of its owner. No request
    aborts it, and its answers are right: the twenty nearest contacts it knows,
    or an unexpired signed record for the requested key. A contact it sees is
    kept exactly when its identifier is its key's address and not the daemon's
    own, as the last of its bucket, where the oldest contact may make room. *)
Theorem dht_history k d :
  rtc dht_step (daemon_new k) d →
  daemon_ok d ∧ local d = from_public_key k ∧ NoDup (node_id <$> concat (buckets d)) ∧
  (∀ now request,
    rtc dht_step d (handle_rpc now d request).1 ∧ (handle_rpc now d request).2 ≠ Panic ∧
    ∀ a, (handle_rpc now d request).2 = Ok a → response_ok now (handle_rpc now d request).1 request a) ∧
  (∀ c, ∃ d', add_contact d c = Ok d' ∧
    if decide (verified c ∧ node_id c ≠ node_id (local d)) then
      ∃ i b, bucket_index (node_id (local d)) (node_id c) = Some (Z.of_nat i) ∧ buckets d !! i = Some b ∧
        buckets d' = <[ i := refreshed b c ]> (buckets d)
    else d' = d).
Proof.
  intros Hs. destruct (dht_steps_ok _ _ Hs (new_ok k)) as [Hok Hl]. split; [done|]. split; [done|].
  split; [apply table_NoDup, Hok|]. split; [intros now request; by apply handle_rpc_steps|].
  intros c. destruct (add_contact_spec d c (proj1 Hok)) as (d' & Hc & _ & _ & _ & H). by exists d'.
Qed.

(** C33: a lookup ends: when all the contacts it can hear of are among [U], fuel
    for [length U + 1] rounds is enough, and it makes at most [length U] calls,
    one per peer asked. What it returns is at most twenty contacts in the order
    of distance, each from the table or from an answer; no contact it heard of,
    from whatever peer, is nearer than the first it returns. *)
Theorem find_node_spec call (U : list DhtContact) fuel d n target :
  daemon_ok d → confined call U d target → (length U < fuel)%nat →
  ∃ d' n' known asked, find_node call fuel d n target = Some (Ok (d', n', known)) ∧
    rtc dht_step d d' ∧ records d' = records d ∧
    n' = (n + length asked)%nat ∧ NoDup asked ∧ (length asked ≤ length U)%nat ∧
    StronglySorted (nearer target) known ∧ len known ≤ K_BUCKET_SIZE ∧ NoDup known ∧
    (∀ c, c ∈ known ∨ c ∈ asked → heard call target d n asked c) ∧
    (∀ c, heard call target d n asked c → ∃ best, head known = Some best ∧ nearer target best c).
Proof.
  intros Hok Hconf Hf.
  destruct (find_node_run call U fuel d n target Hok) as (d' & n' & known & asked & Hrun & Hinv & Hs & Hl);
    [intros asked c; by apply confined_heard|done|].
  exists d', n', known, asked. split; [done|].
  destruct Hinv as [H1 _ _ H2 H3 [H4 H5] [H6 H7] H8]. cbn [fst snd] in *.
  do 4 (split; [done|]). split.
  { apply submseteq_length, NoDup_submseteq; [done|]. intros c Hc. by eapply confined_heard, H5. }
  do 3 (split; [done|]). split; [intros c [Hc|Hc]; auto|].
  intros c (b & Hb & Hbc)%H8. destruct (head_nearest target known b c) as (best & Hh & _ & Hn); [done..|].
  by exists best.
Qed.

(** A value that a lookup returns, from the cache or from a peer, lies in
    the daemon's cache under the requested key, was signed by the owner its
    address names, and had not expired when it was looked at. Neither lookups
    nor stores abort, and both are histories of the daemon; a store keeps the
    record exactly when it is valid. *)
Theorem found_values_valid call (U : list DhtContact) fuel clock d k r o :
  daemon_ok d → confined call U d k → key r = k → (length U < fuel)%nat →
  (∃ d' res, find_value call fuel clock d k = Some (d', res) ∧ rtc dht_step d d' ∧ res ≠ Panic ∧
    ∀ r', res = Ok (Some r') → value_ok clock k d' r') ∧
  (∃ d' res, dht_store call fuel (clock 0%nat) d r o = Some (d', res) ∧ rtc dht_step d d' ∧ res ≠ Panic ∧
    (d' = d ∧ validate_record (clock 0%nat) r o None = res ∨
     validate_record (clock 0%nat) r o None = Ok tt ∧
     records d' !! k = Some {| record := r; owner := o |})).
Proof.
  intros Hok Hconf Hk Hf. subst k. split; [by apply (find_value_run call U)|by apply (dht_store_run call U)].
Qed.
End daemon.

(** ** Witnesses *)

Definition sample_vk (i : Z) : VerifyingKey (Crypto:=toy_crypto) := sk_verifying_key (Crypto:=toy_crypto) i.
Definition sample_contact (i : Z) : DhtContact (C:=toy_crypto) := from_public_key (sample_vk i).
Definition sample_key : bytes := be_bytes 32 9.

(** A daemon that has seen one contact and stored one record *)
Definition sample_record : DhtRecord := sign_record (C:=toy_crypto) 5 sample_key [Byte.x01] 100.
Definition sample_seen : DhtDaemon (C:=toy_crypto) :=
  (handle_rpc 50 (daemon_new (sample_vk 1)) (Ping (sample_contact 2))).1.
Definition sample_daemon : DhtDaemon (C:=toy_crypto) :=
  (handle_rpc 50 sample_seen (Store (sample_contact 2) sample_record (sample_vk 5))).1.

(** Every peer names one other contact; none has the value. *)
Definition sample_call (n : nat) (peer : DhtContact (C:=toy_crypto)) (request : DhtRpc (C:=toy_crypto)) :
    DhtRpcResponse (C:=toy_crypto) + NetworkError :=
  match request with
  | FindNode _ _ => inl (Nodes [sample_contact 3])
  | FindValue _ _ => inl (Nodes [])
  | Ping _ => inl Pong
  | Store _ _ _ => inl Stored
  end.

Lemma sample_history : rtc dht_step (daemon_new (sample_vk 1)) sample_daemon.
Proof.
  pose proof (handle_rpc_steps 50 _ (Ping (sample_contact 2)) (new_ok (sample_vk 1))) as (H1 & _).
  pose proof (dht_steps_ok _ _ H1 (new_ok _)) as [Hok _].
  pose proof (handle_rpc_steps 50 _ (Store (sample_contact 2) sample_record (sample_vk 5)) Hok) as (H2 & _).
  exact (transitivity H1 H2).
Qed.

Lemma sample_daemon_ok : daemon_ok sample_daemon.
Proof. exact (proj1 (dht_steps_ok _ _ sample_history (new_ok _))). Qed.

Definition sample_universe : list (DhtContact (C:=toy_crypto)) := [sample_contact 2; sample_contact 3].

Lemma sample_confined target : confined sample_call sample_universe sample_daemon target.
Proof.
  split.
  - intros c Hc%elem_of_concat_buckets.
    assert (bool_decide (concat (buckets sample_daemon) = [sample_contact 2]) = true) as Hb
      by (vm_compute; reflexivity). apply bool_decide_eq_true in Hb.
    rewrite Hb in Hc. apply list_elem_of_singleton in Hc as ->. left.
  - intros n peer nodes c Hcall Hc. cbn in Hcall. injection Hcall as <-.
    apply list_elem_of_singleton in Hc as ->. right. left.
Qed.

(** The daemon answers a request with the record it stored. *)
Lemma dht_history_witness :
  rtc dht_step (daemon_new (sample_vk 1)) sample_daemon ∧ daemon_ok sample_daemon ∧
  match (handle_rpc 60 sample_daemon (FindValue (sample_contact 3) sample_key)).2 with
  | Ok (Value r o) => bool_decide (r = sample_record) && bool_decide (o = sample_vk 5)
  | _ => false
  end = true.
Proof.
  split; [exact sample_history|].
  destruct (dht_history (C:=toy_crypto) (sample_vk 1) sample_daemon sample_history) as (Hok & _).
  split; [exact Hok|]. vm_compute. reflexivity.
Defined.

(** The lookup asks both contacts and returns the better one first. *)
Lemma find_node_spec_witness :
  ∃ d' n' known (asked : list (DhtContact (C:=toy_crypto))), find_node sample_call 3 sample_daemon 0 sample_key = Some (Ok (d', n', known)) ∧
    n' = length asked ∧ StronglySorted (nearer sample_key) known ∧
    match find_node sample_call 3 sample_daemon 0 sample_key with
    | Some (Ok (_, n, l)) => n = 2%nat ∧ length l = 2%nat
    | _ => False
    end.
Proof.
  destruct (find_node_spec (C:=toy_crypto) sample_call sample_universe 3 sample_daemon 0 sample_key
    sample_daemon_ok (sample_confined sample_key) ltac:(cbn; lia))
    as (d' & n' & known & asked & Hrun & _ & _ & Hn & _ & _ & Hs & _).
  exists d', n', known, asked. split; [exact Hrun|]. split; [exact Hn|]. split; [exact Hs|].
  vm_compute. split; reflexivity.
Defined.

(** The value stored at time 50 is found at time 60 and gone at time 100. *)
Lemma found_values_valid_witness :
  (∃ d' res, find_value sample_call 3 (λ _, 60) sample_daemon sample_key = Some (d', res) ∧
    res = Ok (Some sample_record) ∧ value_ok (λ _, 60) sample_key d' sample_record) ∧
  match find_value sample_call 3 (λ _, 100) sample_daemon sample_key with
  | Some (_, Ok None) => True
  | _ => False
  end.
Proof.
  destruct (found_values_valid (C:=toy_crypto) sample_call sample_universe 3 (λ _, 60) sample_daemon sample_key
    sample_record (sample_vk 5) sample_daemon_ok (sample_confined sample_key) eq_refl ltac:(cbn; lia))
    as [(d' & res & Hrun & _ & _ & Hval) _].
  split; [|vm_compute; exact I].
  assert (match find_value sample_call 3 (λ _, 60) sample_daemon sample_key with
    | Some (_, r) => bool_decide (r = Ok (Some sample_record)) | None => false end = true) as Hres
    by (vm_compute; reflexivity).
  rewrite Hrun in Hres. apply bool_decide_eq_true in Hres. exists d', res. split; [exact Hrun|]. split; [exact Hres|]. exact (Hval _ Hres).
Defined.
