(* ===== verification/DhtNetwork.v ===== *)
(** Daemons of the hash table as each other's peers: what one stores at the node
    nearest to a key, another finds there. onx-networking, dht_daemon.rs: the
    client's side of one daemon against [handle_rpc] of another. *)
From S2P Require Import Prelude Bytes Machine Primitives ToyCrypto Network Dht DhtLookup.

Section network.
Context {C : Crypto} `{!CryptoLaws C}.
Implicit Types (d s : DhtDaemon) (p c : DhtContact) (r : DhtRecord).

(** ** A daemon that answers requests *)

(** The daemon after a list of requests, each with the time it is handled *)
Definition served (d : DhtDaemon) (requests : list (Z * DhtRpc)) : DhtDaemon :=
  foldl (λ d '(now, request), (handle_rpc now d request).1) d requests.

(** What its peer gets: the transport passes errors on. *)
Definition answer_of (m : result NetworkError DhtRpcResponse) : DhtRpcResponse + NetworkError :=
  match m with Ok a => inl a | Err e => inr e | Panic => inr DhtRpcFailed end.

(** A request, at its time, that leaves the record under [k] alone *)
Definition spares (k : bytes) (expires : Z) (request : Z * DhtRpc) : Prop :=
  request.1 < expires ∧ match request.2 with Store _ r' _ => key r' ≠ k | _ => True end.

Lemma handle_rpc_spares d k st request :
  daemon_ok d → records d !! k = Some st → spares k (expiry (record st)) request →
  records (handle_rpc request.1 d request.2).1 !! k = Some st.
Proof.
  intros Hok Hk [Hnow Hreq]. unfold handle_rpc.
  destruct (seen_step d (rpc_sender request.2) Hok) as (d1 & -> & _ & _ & Hrec).
  rewrite <-Hrec in Hk. destruct request as [now [c|c r o|c target|c k']]; cbn [fst snd] in *; [done| |done|].
  - destruct (validate_record now r o None); cbn [fst]; [|done..]. cbn. by rewrite lookup_insert_ne.
  - assert (records (remove_expired now d1) !! k = Some st) as Hst by (cbn; by apply map_lookup_filter_Some).
    by destruct (records (remove_expired now d1) !! k').
Qed.

Lemma served_ok requests : ∀ d, daemon_ok d → daemon_ok (served d requests).
Proof.
  induction requests as [|[now request] requests IH]; intros d Hok; [done|]. cbn [served foldl]. apply IH.
  destruct (handle_rpc_steps now d request Hok) as [Hs _]. by apply (dht_steps_ok _ _ Hs).
Qed.

Lemma served_spares requests k st : ∀ d,
  daemon_ok d → records d !! k = Some st → Forall (spares k (expiry (record st))) requests →
  records (served d requests) !! k = Some st.
Proof.
  induction requests as [|[now request] requests IH]; intros d Hok Hk Hall; [done|].
  apply Forall_cons in Hall as [Hr Hall]. cbn [served foldl]. apply IH; [|by apply (handle_rpc_spares d k st (now, request))|done].
  destruct (handle_rpc_steps now d request Hok) as [Hs _]. by apply (dht_steps_ok _ _ Hs).
Qed.

(** A valid record is stored, and given to whoever asks before it expires. *)
Lemma store_answered now d c r o :
  daemon_ok d → validate_record now r o None = Ok tt →
  (handle_rpc now d (Store c r o)).2 = Ok Stored ∧
  records (handle_rpc now d (Store c r o)).1 !! key r = Some {| record := r; owner := o |}.
Proof.
  intros Hok Hv. unfold handle_rpc. destruct (seen_step d (rpc_sender (Store c r o)) Hok) as (d1 & -> & _).
  rewrite Hv. split; [done|]. apply lookup_insert_eq.
Qed.

Lemma value_answered now d c r o :
  daemon_ok d → records d !! key r = Some {| record := r; owner := o |} → now < expiry r →
  (handle_rpc now d (FindValue c (key r))).2 = Ok (Value r o).
Proof.
  intros Hok Hk Hnow. unfold handle_rpc. destruct (seen_step d (rpc_sender (FindValue c (key r))) Hok) as (d1 & -> & _ & _ & Hrec).
  assert (records (remove_expired now d1) !! key r = Some {| record := r; owner := o |}) as ->; [|done].
  cbn. apply map_lookup_filter_Some. by rewrite Hrec.
Qed.

(** ** Lookups that know the nearest node *)

Definition strictly_nearest (target : bytes) (U : list DhtContact) p : Prop :=
  ∀ c, c ∈ U → c ≠ p → be_val (xor_distance (node_id p) target) < be_val (xor_distance (node_id c) target).

(** Such a lookup returns it first, whatever its peers answer. *)
Lemma find_node_nearest call U fuel d n target p :
  daemon_ok d → confined call U d target → (length U < fuel)%nat →
  known_contact d p → strictly_nearest target U p →
  ∃ d' n' rest, find_node call fuel d n target = Some (Ok (d', n', p :: rest)) ∧
    daemon_ok d' ∧ local d' = local d ∧ records d' = records d.
Proof.
  intros Hok Hconf Hf Hp Hnear.
  destruct (find_node_run call U fuel d n target Hok) as (d' & n' & known & asked & Hrun & Hinv & Hs & _);
    [intros asked c; by apply confined_heard|done|].
  destruct Hinv as [_ Hok' Hl Hrec _ _ [_ Hk] Hbest]. cbn [fst snd] in *.
  assert (∀ b, b ∈ known → nearer target b p → b = p) as Huniq.
  { intros b Hb Hn. destruct (decide (b = p)) as [|Hne]; [done|]. apply Hk in Hb.
    apply (confined_heard call U) in Hb; [|done]. specialize (Hnear b Hb Hne). unfold nearer in Hn. lia. }
  destruct (Hbest p) as (b & Hb & Hbp); [by left|].
  destruct (head_nearest target known b p) as (best & Hh & Hin & Hn); [done..|].
  rewrite (Huniq best Hin Hn) in Hh. destruct known as [|b' rest]; [done|]. injection Hh as ->.
  by exists d', n', rest.
Qed.

(** Then its answer alone decides the search for a value: a valid value is
    returned, one that does not validate ends the search with its error. *)
Lemma find_value_nearest call U fuel clock d k p :
  daemon_ok d → confined call U d k → (length U < fuel)%nat →
  known_contact d p → strictly_nearest k U p → records (remove_expired (clock 0%nat) d) !! k = None →
  ∃ d' n, ∀ r o, call n p (FindValue (local d) k) = inl (Value r o) →
    find_value call fuel clock d k =
    Some (match validate_record (clock (S n)) r o (Some k) with
          | Ok _ => (keep_record k r o d', Ok (Some r))
          | Err e => (d', Err e)
          | Panic => (d', Panic)
          end).
Proof.
  intros Hok Hconf Hf Hp Hnear Hnone. unfold find_value. cbv zeta. rewrite Hnone.
  pose proof (dht_steps_ok _ _ (rtc_once _ _ (step_expire d (clock 0%nat))) Hok) as [Hok1 Hl1].
  destruct (find_node_nearest call U fuel (remove_expired (clock 0%nat) d) 0 k p)
    as (d' & n & rest & -> & _ & Hl & _); [done..|].
  exists d', n. intros r o Hcall. cbn [ask_peers]. by rewrite Hl, Hl1, Hcall.
Qed.

(** C34: a record that is published at the node nearest to its key is found. A
    daemon [s] stores a valid record; it knows the contact [p], the nearest to the
    key of all it can hear of. Then [p] is the first it sends the record to,
    whatever its other peers answer. If the node behind [p] handles this request
    before the record expires, and afterwards any other requests but stores under
    the same key, then a daemon [d] that knows [p] as the nearest, and has nothing
    cached under the key, finds the record, whatever its other peers answer. But
    if [p] answers with a value that does not validate, the search fails, whoever
    else has the record. *)
Theorem published_record_found s d holder call_s call_d Us Ud fuel p r o now t0 clock requests :
  daemon_ok s → daemon_ok d → daemon_ok holder →
  confined call_s Us s (key r) → confined call_d Ud d (key r) → (length Us < fuel)%nat → (length Ud < fuel)%nat →
  known_contact s p → known_contact d p → strictly_nearest (key r) Us p → strictly_nearest (key r) Ud p →
  validate_record now r o None = Ok tt → records d !! key r = None →
  (∃ s' n rest, find_node call_s fuel (keep_record (key r) r o s) 0 (key r) = Some (Ok (s', n, p :: rest)) ∧
     dht_store call_s fuel now s r o = Some (s', replicate_to call_s (p :: take 2 rest) r o s' n)) ∧
  (t0 < expiry r → (∀ n, clock n < expiry r) → (∀ n, Forall (spares (key r) (expiry r)) (requests n)) →
   (∀ n, call_d n p (FindValue (local d) (key r)) =
     answer_of (handle_rpc (clock (S n)) (served holder ((t0, Store (local s) r o) :: requests n))
                  (FindValue (local d) (key r))).2) →
   ∃ d', find_value call_d fuel clock d (key r) = Some (d', Ok (Some r)) ∧
     records d' !! key r = Some {| record := r; owner := o |}) ∧
  (∀ r' o' e, (∀ n, call_d n p (FindValue (local d) (key r)) = inl (Value r' o')) →
     (∀ n, validate_record (clock n) r' o' (Some (key r)) = Err e) →
     ∃ d', find_value call_d fuel clock d (key r) = Some (d', Err e)).
Proof.
  intros Hs Hd Hh Hcs Hcd Hfs Hfd Hps Hpd Hns Hnd Hv Hnone.
  pose proof Hv as (_ & _ & Howner & Hsig)%validate_record_Ok.
  assert (∀ t, t < expiry r → ∀ req, (∀ k, req = Some k → k = key r) → validate_record t r o req = Ok tt) as Hvalid.
  { intros t Ht req Hreq. by apply validate_record_Ok. }
  assert (records (remove_expired (clock 0%nat) d) !! key r = None) as Hnone'.
  { cbn. apply map_lookup_filter_None. by left. }
  destruct (find_value_nearest call_d Ud fuel clock d (key r) p) as (d' & n & Hfind); [done..|].
  split_and!.
  - pose proof (dht_steps_ok _ _ (rtc_once _ _ (step_keep s now r o None Hv)) Hs) as [Hs1 _].
    destruct (find_node_nearest call_s Us fuel (keep_record (key r) r o s) 0 (key r) p)
      as (s' & n' & rest & Hfn & _); [done..|].
    exists s', n', rest. split; [done|]. unfold dht_store. rewrite Hv. cbv zeta. by rewrite Hfn.
  - intros Ht0 Hclock Hreqs Hcall. specialize (Hfind r o). rewrite (Hvalid (clock (S n))) in Hfind; [|done|congruence].
    eexists. split; [apply Hfind|apply lookup_insert_eq]. rewrite Hcall. cbn [served foldl].
    destruct (store_answered t0 holder (local s) r o Hh) as [_ Hstored]; [by apply Hvalid|].
    destruct (handle_rpc_steps t0 holder (Store (local s) r o) Hh) as [Hsteps _].
    pose proof (dht_steps_ok _ _ Hsteps Hh) as [Hh1 _].
    fold (served (handle_rpc t0 holder (Store (local s) r o)).1 (requests n)).
    rewrite (value_answered _ _ _ r o); [done|by apply served_ok| |done].
    by apply (served_spares (requests n) (key r) {| record := r; owner := o |}).
  - intros r' o' e Hcall Hbad. exists d'. rewrite (Hfind r' o') by done. by rewrite Hbad.
Qed.
End network.

(** ** A sample: nodes 1 and 4 know node 2, which knows nobody *)

Definition sample_seeker : DhtDaemon (C:=toy_crypto) :=
  (handle_rpc 50 (daemon_new (sample_vk 4)) (Ping (sample_contact 2))).1.
Definition sample_holder : DhtDaemon (C:=toy_crypto) := daemon_new (sample_vk 2).
Definition sample_peer (n : nat) (peer : DhtContact (C:=toy_crypto)) (request : DhtRpc (C:=toy_crypto)) :
    DhtRpcResponse (C:=toy_crypto) + NetworkError :=
  match request with
  | FindNode _ _ => inl (Nodes [])
  | _ => answer_of (handle_rpc 60 (served sample_holder [(50, Store (local sample_seen) sample_record (sample_vk 5))]) request).2
  end.

Lemma sample_pinged k : daemon_ok (handle_rpc 50 (daemon_new (sample_vk k)) (Ping (sample_contact 2))).1.
Proof.
  pose proof (handle_rpc_steps 50 _ (Ping (sample_contact 2)) (new_ok (sample_vk k))) as (H & _).
  exact (proj1 (dht_steps_ok _ _ H (new_ok _))).
Qed.

Lemma sample_seeker_empty k : records sample_seeker !! k = None.
Proof.
  unfold sample_seeker, handle_rpc.
  destruct (seen_step _ (rpc_sender (Ping (sample_contact 2))) (new_ok (sample_vk 4))) as (d1 & -> & _ & _ & Hrec).
  cbn [fst]. rewrite Hrec. apply lookup_empty.
Qed.

Lemma sample_peer_confined (d : DhtDaemon (C:=toy_crypto)) target :
  bool_decide (concat (buckets d) = [sample_contact 2]) = true → confined sample_peer [sample_contact 2] d target.
Proof.
  intros Hb. apply bool_decide_eq_true in Hb. split.
  - intros c Hc%elem_of_concat_buckets. rewrite Hb in Hc. exact Hc.
  - intros n peer nodes c Hcall Hc. injection Hcall as <-. by apply not_elem_of_nil in Hc.
Qed.

Lemma sample_peer_nearest target : strictly_nearest target [sample_contact 2] (sample_contact 2).
Proof. intros c Hc Hne. by apply list_elem_of_singleton in Hc. Qed.

Lemma sample_peer_known (d : DhtDaemon (C:=toy_crypto)) :
  bool_decide (concat (buckets d) = [sample_contact 2]) = true → known_contact d (sample_contact 2).
Proof. intros Hb%bool_decide_eq_true. apply elem_of_concat_buckets. rewrite Hb. left. Qed.

Lemma published_record_found_witness :
  ∃ d', find_value sample_peer 2 (λ _, 60) sample_seeker sample_key = Some (d', Ok (Some sample_record)).
Proof.
  destruct (published_record_found (C:=toy_crypto) sample_seen sample_seeker sample_holder sample_peer sample_peer
    [sample_contact 2] [sample_contact 2] 2 (sample_contact 2) sample_record (sample_vk 5) 50 50 (λ _, 60) (λ _, []))
    as (_ & Hfound & _).
  - exact (sample_pinged 1).
  - exact (sample_pinged 4).
  - exact (new_ok _).
  - apply sample_peer_confined. vm_compute. reflexivity.
  - apply sample_peer_confined. vm_compute. reflexivity.
  - cbn. lia.
  - cbn. lia.
  - apply sample_peer_known. vm_compute. reflexivity.
  - apply sample_peer_known. vm_compute. reflexivity.
  - apply sample_peer_nearest.
  - apply sample_peer_nearest.
  - vm_compute. reflexivity.
  - apply sample_seeker_empty.
  - destruct Hfound as (d' & Hd' & _).
    + apply Z.ltb_lt. vm_compute. reflexivity.
    + intros n. apply Z.ltb_lt. vm_compute. reflexivity.
    + intros n. constructor.
    + intros n. unfold sample_peer. cbv beta iota. exact eq_refl.
    + exists d'. exact Hd'.
Defined.
