(* ===== verification/Adnl.v ===== *)
(** [onx-networking], [adnl_transport.rs]: the encrypted packets of the ADNL
    transport and the sessions of a node. The ciphers are third-party code: the
    X25519 key exchange and the AES-256-CTR key stream are the interface
    [Ciphers]; random values are arguments, and so are the datagrams that the
    socket delivers. *)
From S2P Require Import Prelude Bytes Machine Primitives ToyCrypto Network Rldp.

(** [x25519_dalek], the conversion of Ed25519 keys, and the key stream of [aes]
    in counter mode *)
Class Ciphers (C : Crypto) : Type := {
  StaticSecret : Type;
  x_public : StaticSecret → bytes;
  diffie_hellman : StaticSecret → bytes → bytes;
  to_montgomery : VerifyingKey → bytes;
  to_static_secret : SigningKey → StaticSecret;
  keystream : bytes → bytes → nat → bytes;
}.

(** Their documented behaviour: key exchange commutes, conversion of a key pair
    gives a key pair, and lengths *)
Class CiphersLaws (C : Crypto) `{!Ciphers C} : Prop := {
  dh_comm a b : diffie_hellman a (x_public b) = diffie_hellman b (x_public a);
  dh_len a p : len (diffie_hellman a p) = 32;
  x_public_len a : len (x_public a) = 32;
  montgomery_public sk : to_montgomery (sk_verifying_key sk) = x_public (to_static_secret sk);
  keystream_len key iv n : length (keystream key iv n) = n;
}.

Definition ADNL_SHARED_SECRET_TAG : bytes := from_ascii "ONX_ADNL_SHARED_SECRET_V1".
Definition ONX_ADNL_PAYLOAD_V1 : bytes := from_ascii "ONX_ADNL_PAYLOAD_V1".

Record FullPacket : Type := {
  recipient_address : bytes;
  sender_address : bytes;
  timestamp : Z;
  nonce : Z;
  payload : bytes;
  full_signature : bytes;
}.

Record FastPacket : Type := {
  channel_or_recipient_id : bytes;
  fast_sender_address : bytes;
  fast_nonce : bytes;
  fast_payload : bytes;
}.

(** [FullPacket::to_signable_bytes] *)
Definition full_signable_bytes (sender : bytes) (timestamp nonce : Z) (payload : bytes) : bytes :=
  uint256_encode sender ++ int_encode Uint32 timestamp ++ int_encode Uint32 nonce
  ++ int_encode Uint16 (as_u 16 (len payload)) ++ payload.

Section adnl.
Context {C : Crypto} `{!Ciphers C}.

(** [VerifyingKey::from_bytes(&pk.encode())] and the conversion *)
Definition ed25519_to_x25519_public (pk : VerifyingKey) : result NetworkError bytes :=
  let? vk := ok_or (vk_from_bytes (PublicKey_encode pk)) NetInvalidSignature in
  Ok (to_montgomery vk).

Definition ed25519_to_x25519_secret (sk : SigningKey) : StaticSecret := to_static_secret sk.

(** [.unwrap()] of a result *)
Definition unwrap_res {E F A} (m : result E A) : result F A :=
  match m with Ok a => Ok a | _ => Panic end.

Definition derive_symmetric_key_iv (shared_secret nonce : bytes) : bytes * bytes :=
  let key_hash := domain_hash ADNL_SHARED_SECRET_TAG (shared_secret ++ nonce) in
  let iv_hash := domain_hash ADNL_SHARED_SECRET_TAG (nonce ++ shared_secret) in
  (key_hash, take 16 iv_hash).

Definition apply_aes256_ctr (key iv buf : bytes) : bytes :=
  zip_with xor_byte buf (keystream key iv (length buf)).

(** ** Full packets. The ephemeral secret and the nonce are drawn by the code. *)

Definition full_encode (p : FullPacket) (recipient_public_key : VerifyingKey)
    (ephemeral_secret : StaticSecret) (nonce_bytes : bytes) : result NetworkError bytes :=
  let signable := full_signable_bytes (sender_address p) (timestamp p) (nonce p) (payload p) in
  let decrypted_payload := signable ++ full_signature p in
  let ephemeral_public := x_public ephemeral_secret in
  let? recipient_x25519 := unwrap_res (ed25519_to_x25519_public recipient_public_key) in
  let shared_secret := diffie_hellman ephemeral_secret recipient_x25519 in
  let '(key, iv) := derive_symmetric_key_iv shared_secret nonce_bytes in
  let encrypted := apply_aes256_ctr key iv decrypted_payload in
  Ok (uint256_encode (recipient_address p) ++ ephemeral_public ++ nonce_bytes ++ encrypted).

Definition full_decode (wire : bytes) (recipient_secret_key : SigningKey) : result NetworkError FullPacket :=
  if len wire <? 32 + 32 + 32 + 32 + 4 + 4 + 2 + 64 then Err TruncatedPacket
  else
    let? recipient := slice wire 0 32 in
    let? ephemeral_public := slice wire 32 64 in
    let? nonce_bytes := slice wire 64 96 in
    let? encrypted := slice wire 96 (len wire) in
    let shared_secret := diffie_hellman (ed25519_to_x25519_secret recipient_secret_key) ephemeral_public in
    let '(key, iv) := derive_symmetric_key_iv shared_secret nonce_bytes in
    let decrypted := apply_aes256_ctr key iv encrypted in
    if len decrypted <? 32 + 4 + 4 + 2 + 64 then Err TruncatedPacket
    else
      let? sender := slice decrypted 0 32 in
      let? timestamp := wire_int Uint32 decrypted 32 36 in
      let? packet_nonce := wire_int Uint32 decrypted 36 40 in
      let? payload_len := wire_int Uint16 decrypted 40 42 in
      if len decrypted <? 42 + payload_len + 64 then Err TruncatedPacket
      else
        let? payload := slice decrypted 42 (42 + payload_len) in
        let? sig_bytes := slice decrypted (42 + payload_len) (42 + payload_len + 64) in
        let? signature := map_err (λ _, NetInvalidSignature) (Signature_decode_exact sig_bytes) in
        Ok {| recipient_address := recipient; sender_address := sender; timestamp := timestamp;
              nonce := packet_nonce; payload := payload; full_signature := signature |}.

(** ** Fast packets *)

Definition fast_encode (p : FastPacket) (shared_secret : bytes) : bytes :=
  let '(key, iv) := derive_symmetric_key_iv shared_secret (fast_nonce p) in
  let payload_hash := domain_hash ONX_ADNL_PAYLOAD_V1 (fast_payload p) in
  let plaintext := payload_hash ++ int_encode Uint16 (as_u 16 (len (fast_payload p))) ++ fast_payload p in
  let encrypted := apply_aes256_ctr key iv plaintext in
  uint256_encode (channel_or_recipient_id p) ++ uint256_encode (fast_sender_address p)
  ++ fast_nonce p ++ encrypted.

Definition fast_decode (wire shared_secret : bytes) : result NetworkError FastPacket :=
  if len wire <? 32 + 32 + 32 + 32 + 2 then Err TruncatedPacket
  else
    let? channel := slice wire 0 32 in
    let? sender := slice wire 32 64 in
    let? nonce := slice wire 64 96 in
    let? encrypted := slice wire 96 (len wire) in
    let '(key, iv) := derive_symmetric_key_iv shared_secret nonce in
    let decrypted := apply_aes256_ctr key iv encrypted in
    if len decrypted <? 34 then Err TruncatedPacket
    else
      let? expected_hash := slice decrypted 0 32 in
      let? payload_len := wire_int Uint16 decrypted 32 34 in
      if len decrypted <? 34 + payload_len then Err TruncatedPacket
      else
        let? payload := slice decrypted 34 (34 + payload_len) in
        if negb (bool_decide (domain_hash ONX_ADNL_PAYLOAD_V1 payload = expected_hash)) then Err DecryptionFailed
        else Ok {| channel_or_recipient_id := channel; fast_sender_address := sender; fast_nonce := nonce;
                   fast_payload := payload |}.

(** ** Sessions *)

Context {SocketAddr : Type}.

Record PeerSession : Type := {
  peer_address : bytes;
  peer_public_key : VerifyingKey;
  remote_endpoint : SocketAddr;
  channel_id : bytes;
  shared_secret : bytes;
}.

Record AdnlTransportNode : Type := {
  secret_key : SigningKey;
  node_public_key : VerifyingKey;
  key_description : KeyDescription;
  abstract_address : bytes;
  sessions : gmap bytes PeerSession;
  channel_to_peer : gmap bytes bytes;
}.

(** A successful [bind] *)
Definition node_bind (sk : SigningKey) : AdnlTransportNode :=
  let public_key := SecretKey_public_key sk in
  let key_description := new_ed25519 public_key in
  {| secret_key := sk; node_public_key := public_key; key_description := key_description;
     abstract_address := compute_abstract_address key_description; sessions := ∅; channel_to_peer := ∅ |}.

Definition with_session (s : PeerSession) (n : AdnlTransportNode) : AdnlTransportNode :=
  {| secret_key := secret_key n; node_public_key := node_public_key n; key_description := key_description n;
     abstract_address := abstract_address n; sessions := <[ peer_address s := s ]> (sessions n);
     channel_to_peer := <[ channel_id s := peer_address s ]> (channel_to_peer n) |}.

(** The addresses are compared as byte arrays. *)
Definition connect_peer (n : AdnlTransportNode) (peer_public_key : VerifyingKey) (remote_endpoint : SocketAddr) :
    result NetworkError (AdnlTransportNode * PeerSession) :=
  let peer_address := compute_abstract_address (new_ed25519 peer_public_key) in
  match sessions n !! peer_address with
  | Some session => Ok (n, session)
  | None =>
      let my_x25519_secret := ed25519_to_x25519_secret (secret_key n) in
      let? peer_x25519_pub := unwrap_res (ed25519_to_x25519_public peer_public_key) in
      let shared_secret := diffie_hellman my_x25519_secret peer_x25519_pub in
      let channel_id :=
        if be_val (abstract_address n) <? be_val peer_address
        then derive_channel_id shared_secret (abstract_address n) peer_address
        else derive_channel_id shared_secret peer_address (abstract_address n) in
      let session :=
        {| peer_address := peer_address; peer_public_key := peer_public_key; remote_endpoint := remote_endpoint;
           channel_id := channel_id; shared_secret := shared_secret |} in
      Ok (with_session session n, session)
  end.

(** The datagram handed to the socket; [nonce] is drawn by the code. *)
Definition send_datagram (n : AdnlTransportNode) (peer_public_key : VerifyingKey) (remote_endpoint : SocketAddr)
    (payload nonce : bytes) : result NetworkError (AdnlTransportNode * bytes) :=
  let? (n, session) := connect_peer n peer_public_key remote_endpoint in
  let fast_pkt :=
    {| channel_or_recipient_id := channel_id session; fast_sender_address := abstract_address n;
       fast_nonce := nonce; fast_payload := payload |} in
  Ok (n, fast_encode fast_pkt (shared_secret session)).

Definition recv_session (n : AdnlTransportNode) (header_id : bytes) : option PeerSession :=
  match channel_to_peer n !! header_id with
  | Some peer_addr => sessions n !! peer_addr
  | None => None
  end.

Definition recv_fast (n : AdnlTransportNode) (header_id wire : bytes) (src_addr : SocketAddr) :
    result NetworkError (bytes * bytes * SocketAddr) :=
  match recv_session n header_id with
  | Some session =>
      let? pkt := fast_decode wire (shared_secret session) in
      Ok (fast_sender_address pkt, fast_payload pkt, src_addr)
  | None => Err DecryptionFailed
  end.

(** One datagram from the socket: claimed sender, payload, source *)
Definition recv_datagram (n : AdnlTransportNode) (wire : bytes) (src_addr : SocketAddr) :
    result NetworkError (bytes * bytes * SocketAddr) :=
  if len wire <? 32 then Err TruncatedPacket
  else
    let? header_id := slice wire 0 32 in
    if bool_decide (header_id = abstract_address n) then
      match full_decode wire (secret_key n) with
      | Ok full_pkt => Ok (sender_address full_pkt, payload full_pkt, src_addr)
      | Panic => Panic
      | Err _ => recv_fast n header_id wire src_addr
      end
    else recv_fast n header_id wire src_addr.
End adnl.

(** ** The key stream *)

Section packets.
Context {C : Crypto} `{!CryptoLaws C, !Ciphers C, !CiphersLaws C}.

Lemma xor_byte_involutive a k : xor_byte (xor_byte a k) k = a.
Proof.
  unfold xor_byte. pose proof (byte_val_bound a). pose proof (byte_val_bound k).
  rewrite byte_val_of, Z.mod_small by (apply (lxor_bound 8); [lia|done..]).
  by rewrite Z.lxor_assoc, Z.lxor_nilpotent, Z.lxor_0_r, byte_of_val.
Qed.

Lemma length_ctr key iv buf : length (apply_aes256_ctr key iv buf) = length buf.
Proof. unfold apply_aes256_ctr. rewrite length_zip_with, keystream_len. lia. Qed.

Lemma len_ctr key iv buf : len (apply_aes256_ctr key iv buf) = len buf.
Proof. unfold len. by rewrite length_ctr. Qed.

(** Encryption and decryption are one operation. *)
Lemma ctr_involutive key iv buf : apply_aes256_ctr key iv (apply_aes256_ctr key iv buf) = buf.
Proof.
  unfold apply_aes256_ctr at 1. rewrite length_ctr. unfold apply_aes256_ctr.
  pose proof (keystream_len key iv (length buf)) as Hk. revert Hk.
  generalize (keystream key iv (length buf)). induction buf as [|b buf IH]; intros [|k ks] Hk; try done.
  cbn [zip_with]. rewrite xor_byte_involutive. f_equal. apply IH. cbn in Hk. lia.
Qed.

Lemma x25519_public sk :
  unwrap_res (F:=NetworkError) (ed25519_to_x25519_public (sk_verifying_key sk)) = Ok (x_public (to_static_secret sk)).
Proof.
  unfold ed25519_to_x25519_public, PublicKey_encode. rewrite vk_from_to. cbn [ok_or]. rewrite rbind_ret.
  by rewrite montgomery_public.
Qed.

Lemma x25519_public_ok k : ∃ b, unwrap_res (F:=NetworkError) (ed25519_to_x25519_public k) = Ok b.
Proof.
  unfold ed25519_to_x25519_public, PublicKey_encode. rewrite vk_from_to. cbn [ok_or]. rewrite rbind_ret.
  cbn. by eexists.
Qed.

(** A packet under its key stream *)
Definition sealed (secret nonce plaintext : bytes) : bytes :=
  let '(key, iv) := derive_symmetric_key_iv secret nonce in apply_aes256_ctr key iv plaintext.

Lemma len_sealed secret nonce plaintext : len (sealed secret nonce plaintext) = len plaintext.
Proof. apply len_ctr. Qed.

Lemma sealed_involutive secret nonce plaintext : sealed secret nonce (sealed secret nonce plaintext) = plaintext.
Proof. apply ctr_involutive. Qed.

(** ** Decoding field by field *)

(** Replaces the decryption of a sealed text by the text. *)
Ltac unsealed H :=
  let Hs := fresh in pose proof H as Hs; unfold sealed at 1 in Hs;
  destruct (derive_symmetric_key_iv _ _) as [? ?] in Hs |- *; rewrite !Hs; clear Hs.

Lemma slice_part {E} n m (v : bytes) i j :
  i = n → j = n + m → 0 ≤ n → 0 ≤ m → n + m ≤ len v →
  slice (E:=E) v i j = Ok (take (Z.to_nat m) (drop (Z.to_nat n) v)).
Proof. intros -> -> Hn Hm Hl. rewrite slice_Ok by lia. by replace (n + m - n) with m by lia. Qed.

Lemma fast_decode_fields secret ch sd nb h l body :
  len ch = 32 → len sd = 32 → len nb = 32 → len h = 32 → len l = 2 →
  fast_decode (ch ++ sd ++ nb ++ sealed secret nb (h ++ l ++ body)) secret =
  if len body <? from_be_bytes Uint16 l then Err TruncatedPacket
  else
    let p := take (Z.to_nat (from_be_bytes Uint16 l)) body in
    if negb (bool_decide (domain_hash ONX_ADNL_PAYLOAD_V1 p = h)) then Err DecryptionFailed
    else Ok {| channel_or_recipient_id := ch; fast_sender_address := sd; fast_nonce := nb; fast_payload := p |}.
Proof.
  intros Hch Hsd Hnb Hh Hl. pose proof (len_nonneg body). unfold fast_decode.
  assert (len (ch ++ sd ++ nb ++ sealed secret nb (h ++ l ++ body)) = 130 + len body) as Hlen.
  { autorewrite with len. rewrite len_sealed. autorewrite with len. lia. }
  rewrite (proj2 (Z.ltb_ge _ _)) by lia. rewrite Hlen. wire_simpl.
  unsealed (sealed_involutive secret nb (h ++ l ++ body)).
  assert (len (h ++ l ++ body) = 34 + len body) as Hp by (autorewrite with len; lia).
  rewrite Hp, (proj2 (Z.ltb_ge _ 34)) by lia. wire_simpl.
  destruct (Z.ltb_spec (34 + len body) (34 + from_be_bytes Uint16 l)), (Z.ltb_spec (len body) (from_be_bytes Uint16 l));
    try lia; [done|].
  pose proof (from_be_bytes_range Uint16 l Hl) as Hr. rewrite in_int_u16 in Hr. unfold in_u in Hr. wire_simpl.
  rewrite (slice_part 0 (from_be_bytes Uint16 l)) by lia. rewrite rbind_ret, drop_0. done.
Qed.

Lemma full_decode_fields sk rc eph nb sd ts nn l body :
  len rc = 32 → len eph = 32 → len nb = 32 → len sd = 32 → len ts = 4 → len nn = 4 → len l = 2 → 64 ≤ len body →
  full_decode (rc ++ eph ++ nb ++ sealed (diffie_hellman (to_static_secret sk) eph) nb (sd ++ ts ++ nn ++ l ++ body)) sk =
  let n := from_be_bytes Uint16 l in
  if len body <? n + 64 then Err TruncatedPacket
  else Ok {| recipient_address := rc; sender_address := sd; timestamp := from_be_bytes Uint32 ts;
             nonce := from_be_bytes Uint32 nn; payload := take (Z.to_nat n) body;
             full_signature := take 64 (drop (Z.to_nat n) body) |}.
Proof.
  intros Hrc Heph Hnb Hsd Hts Hnn Hl Hb. set (secret := diffie_hellman _ _). unfold full_decode.
  assert (len (rc ++ eph ++ nb ++ sealed secret nb (sd ++ ts ++ nn ++ l ++ body)) = 138 + len body) as Hlen.
  { autorewrite with len. rewrite len_sealed. autorewrite with len. lia. }
  rewrite (proj2 (Z.ltb_ge _ _)) by lia. rewrite Hlen. wire_simpl.
  unfold ed25519_to_x25519_secret. fold secret.
  unsealed (sealed_involutive secret nb (sd ++ ts ++ nn ++ l ++ body)).
  assert (len (sd ++ ts ++ nn ++ l ++ body) = 42 + len body) as Hp by (autorewrite with len; lia).
  rewrite Hp, (proj2 (Z.ltb_ge _ (32 + 4 + 4 + 2 + 64))) by lia. wire_simpl. cbv zeta.
  destruct (Z.ltb_spec (42 + len body) (42 + from_be_bytes Uint16 l + 64)),
    (Z.ltb_spec (len body) (from_be_bytes Uint16 l + 64)); try lia; [done|].
  pose proof (from_be_bytes_range Uint16 l Hl) as Hr. rewrite in_int_u16 in Hr. unfold in_u in Hr. wire_simpl.
  rewrite (slice_part 0 (from_be_bytes Uint16 l)) by lia. rewrite rbind_ret, drop_0. wire_simpl.
  rewrite (slice_part (from_be_bytes Uint16 l) 64) by lia. rewrite rbind_ret.
  rewrite (proj2 (sig_decode _ (take (Z.to_nat 64) (drop (Z.to_nat (from_be_bytes Uint16 l)) body)))).
  { cbn [map_err]. by rewrite rbind_ret. }
  split; [|done]. unfold len in *. rewrite length_take, length_drop. lia.
Qed.

Lemma cut_header (w : bytes) : 96 ≤ len w →
  ∃ a b c d : bytes, w = a ++ b ++ c ++ d ∧ len a = 32 ∧ len b = 32 ∧ len c = 32.
Proof.
  intros Hl. destruct (split_at_len w 32 ltac:(lia)) as (a & w1 & -> & Ha). rewrite len_app in Hl.
  destruct (split_at_len w1 32 ltac:(lia)) as (b & w2 & -> & Hb). rewrite len_app in Hl.
  destruct (split_at_len w2 32 ltac:(lia)) as (c & d & -> & Hc). eauto 10.
Qed.

(** A long enough wire is the seal of a hash, a length and a body. *)
Lemma cut_fast secret (w : bytes) : 130 ≤ len w →
  ∃ ch sd nb h l body : bytes, w = ch ++ sd ++ nb ++ sealed secret nb (h ++ l ++ body) ∧
    len ch = 32 ∧ len sd = 32 ∧ len nb = 32 ∧ len h = 32 ∧ len l = 2.
Proof.
  intros Hw. destruct (cut_header w ltac:(lia)) as (ch & sd & nb & enc & -> & Hch & Hsd & Hnb).
  autorewrite with len in Hw. rewrite <-(sealed_involutive secret nb enc) in *. rewrite len_sealed in Hw.
  set (plain := sealed secret nb enc) in *. clearbody plain.
  destruct (split_at_len plain 32 ltac:(lia)) as (h & p1 & -> & Hh). rewrite len_app in Hw.
  destruct (split_at_len p1 2 ltac:(lia)) as (l & body & -> & Hl). by exists ch, sd, nb, h, l, body.
Qed.

Lemma cut_full sk (w : bytes) : 202 ≤ len w →
  ∃ rc eph nb sd ts nn l body : bytes,
    w = rc ++ eph ++ nb ++ sealed (diffie_hellman (to_static_secret sk) eph) nb (sd ++ ts ++ nn ++ l ++ body) ∧
    len rc = 32 ∧ len eph = 32 ∧ len nb = 32 ∧ len sd = 32 ∧ len ts = 4 ∧ len nn = 4 ∧ len l = 2 ∧ 64 ≤ len body.
Proof.
  intros Hw. destruct (cut_header w ltac:(lia)) as (rc & eph & nb & enc & -> & Hrc & Heph & Hnb).
  autorewrite with len in Hw. set (secret := diffie_hellman (to_static_secret sk) eph).
  rewrite <-(sealed_involutive secret nb enc) in *. rewrite len_sealed in Hw.
  set (plain := sealed secret nb enc) in *. clearbody plain.
  destruct (split_at_len plain 32 ltac:(lia)) as (sd & p1 & -> & Hsd). rewrite len_app in Hw.
  destruct (split_at_len p1 4 ltac:(lia)) as (ts & p2 & -> & Hts). rewrite len_app in Hw.
  destruct (split_at_len p2 4 ltac:(lia)) as (nn & p3 & -> & Hnn). rewrite len_app in Hw.
  destruct (split_at_len p3 2 ltac:(lia)) as (l & body & -> & Hl). rewrite len_app in Hw.
  exists rc, eph, nb, sd, ts, nn, l, body. split; [done|]. repeat (split; [done|]). lia.
Qed.

Definition fast_typed (p : FastPacket) : Prop :=
  len (channel_or_recipient_id p) = 32 ∧ len (fast_sender_address p) = 32 ∧ len (fast_nonce p) = 32 ∧
  len (fast_payload p) < 2 ^ 16.

Definition full_typed (p : FullPacket) : Prop :=
  len (recipient_address p) = 32 ∧ len (sender_address p) = 32 ∧ in_u 32 (timestamp p) ∧ in_u 32 (nonce p) ∧
  len (payload p) < 2 ^ 16 ∧ len (full_signature p) = 64.

(** The wire of a packet, with bytes after the plaintext *)
Definition fast_wire (p : FastPacket) (secret rest : bytes) : bytes :=
  channel_or_recipient_id p ++ fast_sender_address p ++ fast_nonce p ++
  sealed secret (fast_nonce p) (domain_hash ONX_ADNL_PAYLOAD_V1 (fast_payload p) ++
    int_encode Uint16 (len (fast_payload p)) ++ fast_payload p ++ rest).

Definition full_wire (p : FullPacket) (secret eph nb rest : bytes) : bytes :=
  recipient_address p ++ eph ++ nb ++
  sealed secret nb (sender_address p ++ int_encode Uint32 (timestamp p) ++ int_encode Uint32 (nonce p) ++
    int_encode Uint16 (len (payload p)) ++ payload p ++ full_signature p ++ rest).

Lemma fast_encode_wire p secret : fast_typed p → fast_encode p secret = fast_wire p secret [].
Proof.
  intros (_ & _ & _ & Hp). unfold fast_encode, fast_wire, sealed, uint256_encode. pose proof (len_nonneg (fast_payload p)).
  rewrite as_u_id by (unfold in_u; lia). rewrite app_nil_r. by destruct (derive_symmetric_key_iv _ _).
Qed.

Lemma full_encode_wire p sk eph nb :
  full_typed p →
  full_encode p (sk_verifying_key sk) eph nb =
  Ok (full_wire p (diffie_hellman (to_static_secret sk) (x_public eph)) (x_public eph) nb []).
Proof.
  intros (_ & _ & _ & _ & Hp & _). unfold full_encode, full_wire, sealed, full_signable_bytes, uint256_encode.
  pose proof (len_nonneg (payload p)). rewrite as_u_id by (unfold in_u; lia).
  rewrite x25519_public, rbind_ret, dh_comm, app_nil_r, <-!app_assoc. by destruct (derive_symmetric_key_iv _ _).
Qed.

Lemma fast_decode_wire p secret rest : fast_typed p → fast_decode (fast_wire p secret rest) secret = Ok p.
Proof.
  intros (Hc & Hs & Hn & Hp). pose proof (len_nonneg (fast_payload p)). pose proof (len_nonneg rest).
  unfold fast_wire. rewrite fast_decode_fields by (done || by autorewrite with len).
  rewrite from_be_bytes_encode by (rewrite in_int_u16; unfold in_u; lia).
  rewrite (proj2 (Z.ltb_ge _ _)) by (autorewrite with len; lia). cbv zeta. rewrite to_nat_len, take_app_length.
  rewrite bool_decide_true by done. by destruct p.
Qed.

Lemma full_decode_wire p sk eph nb rest :
  full_typed p → len eph = 32 → len nb = 32 →
  full_decode (full_wire p (diffie_hellman (to_static_secret sk) eph) eph nb rest) sk = Ok p.
Proof.
  intros (Hr & Hs & Ht & Hn & Hp & Hsig) He Hnb. pose proof (len_nonneg (payload p)). pose proof (len_nonneg rest).
  unfold full_wire. rewrite full_decode_fields by (done || (autorewrite with len; lia)). cbv zeta.
  rewrite !from_be_bytes_encode by (rewrite ?in_int_u16, ?in_int_u32; unfold in_u in *; lia).
  rewrite (proj2 (Z.ltb_ge _ _)) by (autorewrite with len; lia).
  rewrite to_nat_len, take_app_length, drop_app_length.
  replace 64%nat with (length (full_signature p)) by (unfold len in Hsig; lia). rewrite take_app_length.
  by destruct p.
Qed.

Lemma fast_decode_Ok w secret p :
  fast_decode w secret = Ok p ↔ fast_typed p ∧ ∃ rest, w = fast_wire p secret rest.
Proof.
  split; [|intros [Hp (rest & ->)]; by apply fast_decode_wire]. intros H.
  destruct (Z.ltb_spec (len w) 130) as [Hw|Hw].
  { unfold fast_decode in H. by rewrite (proj2 (Z.ltb_lt _ _)) in H by lia. }
  destruct (cut_fast secret w Hw) as (ch & sd & nb & h & l & body & -> & Hch & Hsd & Hnb & Hh & Hl).
  rewrite fast_decode_fields in H by done. pose proof (from_be_bytes_range Uint16 l Hl) as Hr.
  rewrite in_int_u16 in Hr. unfold in_u in Hr. destruct (Z.ltb_spec (len body) (from_be_bytes Uint16 l)); [done|].
  cbv zeta in H. destruct (negb _) eqn:Hhash; [done|]. bool_to_prop. apply (inj Ok) in H. subst p.
  assert (len (take (Z.to_nat (from_be_bytes Uint16 l)) body) = from_be_bytes Uint16 l) as Hlen
    by (unfold len in *; rewrite length_take; lia).
  split; [unfold fast_typed; cbn; rewrite Hlen; repeat (split; [done|]); lia|].
  exists (drop (Z.to_nat (from_be_bytes Uint16 l)) body). unfold fast_wire.
  cbn [channel_or_recipient_id fast_sender_address fast_nonce fast_payload].
  by rewrite Hhash, Hlen, int_encode_from_be_bytes, take_drop.
Qed.

Lemma full_decode_Ok w sk p :
  full_decode w sk = Ok p ↔ full_typed p ∧ ∃ eph nb rest, len eph = 32 ∧ len nb = 32 ∧
    w = full_wire p (diffie_hellman (to_static_secret sk) eph) eph nb rest.
Proof.
  split; [|intros [Hp (eph & nb & rest & He & Hn & ->)]; by apply full_decode_wire]. intros H.
  destruct (Z.ltb_spec (len w) 202) as [Hw|Hw].
  { unfold full_decode in H. by rewrite (proj2 (Z.ltb_lt _ _)) in H by lia. }
  destruct (cut_full sk w Hw)
    as (rc & eph & nb & sd & ts & nn & l & body & -> & Hrc & Heph & Hnb & Hsd & Hts & Hnn & Hl & Hb).
  rewrite full_decode_fields in H by done. pose proof (from_be_bytes_range Uint16 l Hl) as Hr.
  pose proof (from_be_bytes_range Uint32 ts Hts) as Hrt. pose proof (from_be_bytes_range Uint32 nn Hnn) as Hrn.
  rewrite in_int_u16 in Hr. rewrite in_int_u32 in Hrt, Hrn. unfold in_u in Hr.
  cbv zeta in H. set (n := from_be_bytes Uint16 l) in *.
  destruct (Z.ltb_spec (len body) (n + 64)); [done|]. apply (inj Ok) in H. subst p.
  assert (len (take (Z.to_nat n) body) = n) as Hlen by (unfold len in *; rewrite length_take; lia).
  split.
  { unfold full_typed. cbn. rewrite Hlen. repeat (split; [done|]). split; [lia|].
    unfold len in *. rewrite length_take, length_drop. lia. }
  exists eph, nb, (drop 64 (drop (Z.to_nat n) body)). split; [done|]. split; [done|]. unfold full_wire.
  cbn [recipient_address sender_address timestamp nonce payload full_signature].
  rewrite Hlen. unfold n at 1. rewrite !int_encode_from_be_bytes by done. by rewrite !take_drop.
Qed.

Lemma fast_decode_safe w secret : safe (fast_decode w secret).
Proof.
  destruct (Z.ltb_spec (len w) 130) as [Hw|Hw].
  { unfold fast_decode. by rewrite (proj2 (Z.ltb_lt _ _)) by lia. }
  destruct (cut_fast secret w Hw) as (ch & sd & nb & h & l & body & -> & Hch & Hsd & Hnb & Hh & Hl).
  rewrite fast_decode_fields by done. cbv zeta. destruct (_ <? _); [done|]. by destruct (negb _).
Qed.

Lemma full_decode_safe w sk : safe (full_decode w sk).
Proof.
  destruct (Z.ltb_spec (len w) 202) as [Hw|Hw].
  { unfold full_decode. by rewrite (proj2 (Z.ltb_lt _ _)) by lia. }
  destruct (cut_full sk w Hw)
    as (rc & eph & nb & sd & ts & nn & l & body & -> & Hrc & Heph & Hnb & Hsd & Hts & Hnn & Hl & Hb).
  rewrite full_decode_fields by done. cbv zeta. by destruct (_ <? _).
Qed.
End packets.
