(* ===== verification/AdnlSession.v ===== *)
(** [onx-networking], [adnl_transport.rs], continued: what packets are accepted,
    what two connected nodes deliver to each other, and what the sender address
    of a received datagram is worth. *)
From S2P Require Import Prelude Bytes Machine Primitives ToyCrypto Network Rldp Adnl.

Section sessions.
Context {C : Crypto} `{!CryptoLaws C, !Ciphers C, !CiphersLaws C} {SocketAddr : Type}.

#[local] Notation "'node'" := (AdnlTransportNode (SocketAddr:=SocketAddr)).
#[local] Notation "'session'" := (PeerSession (SocketAddr:=SocketAddr)).

(** C36: a fast packet is accepted exactly when it is the wire image of a packet
    of the accepted fields under the shared secret, up to bytes after the payload;
    a full packet exactly when it is sealed for the recipient by some ephemeral
    key - whatever its signature, time stamp and nonce. Encoding gives such
    images, and no bytes abort either decoder. *)
Theorem packets_exact w secret sk (p : FastPacket) (q : FullPacket) :
  (fast_decode w secret = Ok p ↔ fast_typed p ∧ ∃ rest, w = fast_wire p secret rest) ∧
  (fast_typed p → fast_decode (fast_encode p secret) secret = Ok p) ∧
  (full_decode w sk = Ok q ↔ full_typed q ∧ ∃ eph nb rest, len eph = 32 ∧ len nb = 32 ∧
     w = full_wire q (diffie_hellman (to_static_secret sk) eph) eph nb rest) ∧
  (∀ eph nb, full_typed q → len nb = 32 → ∃ wire,
     full_encode q (sk_verifying_key sk) eph nb = Ok wire ∧ full_decode wire sk = Ok q) ∧
  fast_decode w secret ≠ Panic ∧ full_decode w sk ≠ Panic.
Proof.
  split; [apply fast_decode_Ok|]. split.
  { intros Hp. rewrite fast_encode_wire by done. by apply fast_decode_wire. }
  split; [apply full_decode_Ok|]. split; [|split; [apply fast_decode_safe|apply full_decode_safe]].
  intros eph nb Hq Hnb. rewrite full_encode_wire by done. eexists. split; [done|].
  apply full_decode_wire; [done|apply x_public_len|done].
Qed.

(** ** The sessions of a node *)

Inductive node_reach (sk : SigningKey) : node → Prop :=
| reach_bind : node_reach sk (node_bind sk)
| reach_connect n pk ep n' s :
    node_reach sk n → connect_peer n pk ep = Ok (n', s) → node_reach sk n'.

Definition address (pk : VerifyingKey) : bytes := compute_abstract_address (new_ed25519 pk).

(** The channel of two addresses does not depend on which end derives it. *)
Definition channel_of (secret a b : bytes) : bytes :=
  if be_val a <? be_val b then derive_channel_id secret a b else derive_channel_id secret b a.

Lemma channel_of_sym secret a b : len a = len b → channel_of secret a b = channel_of secret b a.
Proof.
  intros Hl. unfold channel_of. destruct (Z.ltb_spec (be_val a) (be_val b)), (Z.ltb_spec (be_val b) (be_val a));
    try lia; try done.
  assert (a = b) as -> by (apply be_val_inj; [done|lia]). done.
Qed.

Lemma derive_channel_inj s s' a b a' b' :
  len s = len s' → len a = len a' → derive_channel_id s a b = derive_channel_id s' a' b' →
  (s = s' ∧ a = a' ∧ b = b') ∨ sha256_collision.
Proof.
  intros Hs Ha [H|?]%domain_hash_binding; [left|by right]. unfold uint256_encode in H.
  apply app_inj_1 in H as [-> H]; [|unfold len in *; lia]. by apply app_inj_1 in H as [-> ->]; [|unfold len in *; lia].
Qed.

Lemma channel_of_inj s s' a b b' :
  len s = len s' → len a = 32 → len b = 32 → len b' = 32 → channel_of s a b = channel_of s' a b' →
  (s = s' ∧ b = b') ∨ sha256_collision.
Proof.
  intros Hs Ha Hb Hb'. unfold channel_of.
  assert (∀ x y x' y', len x = len x' → derive_channel_id s x y = derive_channel_id s' x' y' →
    (x = a ∧ y = b ∨ x = b ∧ y = a) → (x' = a ∧ y' = b' ∨ x' = b' ∧ y' = a) →
    (s = s' ∧ b = b') ∨ sha256_collision) as Hcase.
  { intros x y x' y' Hx H. destruct (derive_channel_inj _ _ _ _ _ _ Hs Hx H) as [(? & ? & ?)|?]; [|by right].
    intros ? ?. left. naive_solver. }
  destruct (be_val a <? be_val b), (be_val a <? be_val b'); intros H;
    (eapply Hcase; [|exact H|auto|auto]; lia).
Qed.

Lemma len_node_address pk : len (address pk) = 32.
Proof. exact (len_address (new_ed25519 pk)). Qed.

Definition session_ok (n : node) (a : bytes) (s : session) : Prop :=
  peer_address s = a ∧ a = address (peer_public_key s) ∧
  shared_secret s = diffie_hellman (to_static_secret (secret_key n)) (to_montgomery (peer_public_key s)) ∧
  channel_id s = channel_of (shared_secret s) (abstract_address n) a.

Record node_inv (sk : SigningKey) (n : node) : Prop := {
  ni_key : secret_key n = sk;
  ni_public : node_public_key n = sk_verifying_key sk;
  ni_address : abstract_address n = address (sk_verifying_key sk);
  ni_sessions : map_Forall (session_ok n) (sessions n);
  ni_routed : ∀ a s, sessions n !! a = Some s → is_Some (channel_to_peer n !! channel_id s);
  ni_channels : ∀ c a, channel_to_peer n !! c = Some a → ∃ s, sessions n !! a = Some s ∧ channel_id s = c;
}.

Lemma connect_spec sk n pk ep :
  node_inv sk n →
  ∃ n' s, connect_peer n pk ep = Ok (n', s) ∧ node_inv sk n' ∧ sessions n' !! address pk = Some s ∧
    (∀ a t, sessions n !! a = Some t → sessions n' !! a = Some t).
Proof.
  intros [H1 H2 H3 H4 H5 H6]. unfold connect_peer. fold (address pk). cbv zeta.
  destruct (sessions n !! address pk) as [s|] eqn:Hs.
  { exists n, s. split; [done|]. split; [by split|done]. }
  assert (unwrap_res (F:=NetworkError) (ed25519_to_x25519_public pk) = Ok (to_montgomery pk)) as ->.
  { unfold ed25519_to_x25519_public, PublicKey_encode. by rewrite vk_from_to. }
  rewrite rbind_ret. fold (channel_of (diffie_hellman (ed25519_to_x25519_secret (secret_key n)) (to_montgomery pk))
    (abstract_address n) (address pk)).
  set (s := Build_PeerSession _ _ _ _ _). assert (session_ok n (address pk) s) as Hok by by repeat split.
  clearbody s. pose proof (proj1 Hok) as Hpa. exists (with_session s n), s. split; [done|].
  assert (∀ a t, sessions n !! a = Some t → sessions (with_session s n) !! a = Some t) as Hkeep.
  { intros a t Ht. cbn. rewrite Hpa, lookup_insert_ne; [done|]. intros <-. congruence. }
  split; [|split; [cbn; rewrite Hpa; apply lookup_insert_eq|done]]. split; try done.
  - cbn. rewrite Hpa. apply map_Forall_insert_2; [done|exact H4].
  - intros a t Ht. cbn in *. destruct (decide (channel_id s = channel_id t)) as [Heq|Hne].
    + rewrite Heq, lookup_insert_eq. by eexists.
    + rewrite lookup_insert_ne by done. apply lookup_insert_Some in Ht as [[_ Ht]|[_ Ht]]; [by subst t|by eapply H5].
  - intros c a Hc. cbn in Hc. apply lookup_insert_Some in Hc as [[<- <-]|[_ Hc]].
    + exists s. split; [cbn; apply lookup_insert_eq|done].
    + apply H6 in Hc as (t & Ht & Hc). exists t. split; [by apply Hkeep|done].
Qed.

Lemma node_reach_inv sk n : node_reach sk n → node_inv sk n.
Proof.
  induction 1 as [|n pk ep n' s _ IH Hc].
  - by split.
  - destruct (connect_spec sk n pk ep IH) as (n2 & s2 & Hc2 & Hinv & _). rewrite Hc in Hc2.
    apply (inj Ok) in Hc2. by simplify_eq.
Qed.

Lemma node_reach_step sk n pk ep n' s : node_reach sk n → connect_peer n pk ep = Ok (n', s) → node_reach sk n'.
Proof. intros Hn Hc. by eapply reach_connect. Qed.

(** ** Delivery *)

(** A channel identifier is no node's address: the domains are separate. *)
Lemma channel_no_address secret a b pk : channel_of secret a b = address pk → sha256_collision.
Proof.
  assert (∀ x y, derive_channel_id secret x y = address pk → sha256_collision) as Hd.
  { intros x y H. eexists _, _. split; [|exact H]. intros He.
    apply (f_equal (take 32)) in He. vm_compute in He. discriminate. }
  unfold channel_of. destruct (_ <? _); apply Hd.
Qed.

(** The session a channel identifier finds is that of its peer. *)
Lemma channel_session sk n a s :
  node_inv sk n → sessions n !! a = Some s →
  recv_session n (channel_id s) = Some s ∨ sha256_collision.
Proof.
  intros [H1 H2 H3 H4 H5 H6] Hs. destruct (H5 a s Hs) as [b Hb]. destruct (H6 _ b Hb) as (t & Ht & Htc).
  unfold recv_session. rewrite Hb, Ht. pose proof (H4 _ _ Hs) as (Hs1 & Hs2 & Hs3 & Hs4).
  pose proof (H4 _ _ Ht) as (Ht1 & Ht2 & Ht3 & Ht4). rewrite Hs4, Ht4 in Htc.
  apply channel_of_inj in Htc as [[_ Hab]|Hc]; [|by right|..].
  - left. congruence.
  - by rewrite Hs3, Ht3, !dh_len.
  - rewrite H3. apply len_node_address.
  - rewrite Ht2. apply len_node_address.
  - rewrite Hs2. apply len_node_address.
Qed.

Lemma slice_header {E} (ch rest : bytes) : len ch = 32 → slice (E:=E) (ch ++ rest) 0 32 = Ok ch.
Proof. intros H. by apply slice_app_l. Qed.

Lemma recv_other n ch rest (src : SocketAddr) :
  len ch = 32 → ch ≠ abstract_address n → recv_datagram n (ch ++ rest) src = recv_fast n ch (ch ++ rest) src.
Proof.
  intros Hc Hne. unfold recv_datagram. pose proof (len_nonneg rest).
  rewrite len_app, (proj2 (Z.ltb_ge _ _)), slice_header, rbind_ret by (done || lia).
  by rewrite bool_decide_false.
Qed.

(** A fast packet under the session of its channel is delivered. *)
Lemma recv_fast_wire n p (s : session) rest src :
  fast_typed p → channel_or_recipient_id p ≠ abstract_address n →
  recv_session n (channel_or_recipient_id p) = Some s →
  recv_datagram n (fast_wire p (shared_secret s) rest) src = Ok (fast_sender_address p, fast_payload p, src).
Proof.
  intros Hp Hne Hs. pose proof Hp as (Hc & _).
  assert (recv_datagram n (fast_wire p (shared_secret s) rest) src =
    recv_fast n (channel_or_recipient_id p) (fast_wire p (shared_secret s) rest) src) as ->.
  { unfold fast_wire. by apply recv_other. }
  unfold recv_fast. by rewrite Hs, fast_decode_wire, rbind_ret.
Qed.

Lemma len_channel_of secret a b : len (channel_of secret a b) = 32.
Proof. unfold channel_of, derive_channel_id. destruct (_ <? _); apply len_domain_hash. Qed.

(** The two ends of a connection hold the same secret and the same channel. *)
Lemma session_agreement skA skB nA nB sA sB :
  node_inv skA nA → node_inv skB nB →
  sessions nA !! address (sk_verifying_key skB) = Some sA →
  sessions nB !! address (sk_verifying_key skA) = Some sB →
  (shared_secret sA = shared_secret sB ∧ channel_id sA = channel_id sB) ∨ sha256_collision.
Proof.
  intros HA HB HsA HsB. pose proof (ni_sessions _ _ HA _ _ HsA) as (_ & Ha1 & Ha2 & Ha3).
  pose proof (ni_sessions _ _ HB _ _ HsB) as (_ & Hb1 & Hb2 & Hb3).
  destruct (address_inj _ _ Ha1) as [Hka|?]; [|by right]. destruct (address_inj _ _ Hb1) as [Hkb|?]; [|by right].
  left. rewrite <-Hka, montgomery_public, (ni_key _ _ HA) in Ha2.
  rewrite <-Hkb, montgomery_public, (ni_key _ _ HB) in Hb2.
  assert (shared_secret sA = shared_secret sB) as Heq by (rewrite Ha2, Hb2; apply dh_comm).
  split; [done|]. rewrite Ha3, Hb3, Heq, (ni_address _ _ HA), (ni_address _ _ HB). apply channel_of_sym.
  by rewrite !len_node_address.
Qed.


Lemma recv_datagram_safe n wire (src : SocketAddr) : safe (recv_datagram n wire src).
Proof.
  unfold recv_datagram, recv_fast. destruct (Z.ltb_spec (len wire) 32); [done|].
  apply rbind_safe; [apply slice_safe; lia|]. intros h _. pose proof (full_decode_safe wire (secret_key n)).
  assert (safe (match recv_session n h with
    | Some s => let? pkt := fast_decode wire (shared_secret s) in
        Ok (fast_sender_address pkt, fast_payload pkt, src) | None => Err DecryptionFailed end)) as Hf.
  { destruct (recv_session n h); [|done]. apply rbind_safe; [apply fast_decode_safe|done]. }
  destruct (bool_decide _); [|done]. by destruct (full_decode _ _).
Qed.

(** C35: the sender address of a received datagram proves nothing. Anyone who
    knows a node's public key can make it receive any payload from any claimed
    sender, with any bytes for a signature and any time stamp. And of a datagram
    received over a session, whoever sees it pass can replace the sender field,
    and deliver it again. No datagram aborts the receiver. *)
Theorem senders_not_authenticated sk n src :
  node_reach sk n →
  (∀ p eph nb, full_typed p → recipient_address p = abstract_address n → len nb = 32 →
    ∃ wire, full_encode p (node_public_key n) eph nb = Ok wire ∧
      recv_datagram n wire src = Ok (sender_address p, payload p, src)) ∧
  (∀ ch sender sender' rest claimed data, len ch = 32 → len sender = 32 → len sender' = 32 →
    ch ≠ abstract_address n →
    recv_datagram n (ch ++ sender ++ rest) src = Ok (claimed, data, src) →
    recv_datagram n (ch ++ sender' ++ rest) src = Ok (sender', data, src)) ∧
  (∀ wire, recv_datagram n wire src ≠ Panic).
Proof.
  intros Hr%node_reach_inv. split; [|split; [|intros wire; apply recv_datagram_safe]].
  - intros p eph nb Hp Hto Hnb. rewrite (ni_public _ _ Hr), full_encode_wire by done. eexists. split; [done|].
    pose proof Hp as (Hrc & _). unfold recv_datagram. unfold full_wire at 1 2. rewrite len_app.
    match goal with |- context [len (recipient_address p) + len ?l] => pose proof (len_nonneg l) end.
    rewrite (proj2 (Z.ltb_ge _ _)) by lia. rewrite slice_header by done. rewrite rbind_ret, bool_decide_true by done.
    rewrite (ni_key _ _ Hr), full_decode_wire by (done || apply x_public_len). done.
  - intros ch sender sender' rest claimed data Hch Hsd Hsd' Hne. rewrite !recv_other by done. unfold recv_fast.
    destruct (recv_session n ch) as [s|]; [|done]. intros (pkt & Hpkt & H)%rbind_Ok. simplify_eq.
    apply fast_decode_Ok in Hpkt as [Hp (rest' & Hw)]. unfold fast_wire in Hw. pose proof Hp as (H1 & H2 & H3 & H4).
    apply app_inj_1 in Hw as [-> Hw]; [|unfold len in *; lia]. apply app_inj_1 in Hw as [_ ->]; [|unfold len in *; lia].
    set (pkt' := {| channel_or_recipient_id := channel_or_recipient_id pkt; fast_sender_address := sender';
      fast_nonce := fast_nonce pkt; fast_payload := fast_payload pkt |}).
    assert (fast_typed pkt') as Hp' by done.
    assert (fast_decode (fast_wire pkt' (shared_secret s) rest') (shared_secret s) = Ok pkt') as Hd
      by by apply fast_decode_wire.
    unfold fast_wire, pkt' in Hd. cbn [channel_or_recipient_id fast_sender_address fast_nonce fast_payload] in Hd.
    by rewrite Hd, rbind_ret.
Qed.
End sessions.

(** ** Witnesses *)

(** Secrets are numbers; the exchange is their product, a public key the number
    itself, and the key stream repeats the key. *)
Definition toy_ciphers : Ciphers toy_crypto := {|
  StaticSecret := Z;
  x_public := λ a, be_bytes 32 a;
  diffie_hellman := λ a p, be_bytes 32 ((a mod 256 ^ 32) * be_val p);
  to_montgomery := λ k, vk_to_bytes (Crypto:=toy_crypto) k;
  to_static_secret := λ sk, sk;
  keystream := λ key iv n, resize n Byte.x5a key;
|}.
#[local] Existing Instance toy_ciphers.

#[local] Instance toy_ciphers_laws : CiphersLaws toy_crypto.
Proof.
  split; cbn [StaticSecret x_public diffie_hellman to_montgomery to_static_secret keystream toy_ciphers].
  - intros a b. rewrite !be_val_be_bytes. f_equal. change (Z.of_nat 32) with 32. lia.
  - intros. apply len_be_bytes.
  - intros. apply len_be_bytes.
  - done.
  - intros. apply length_resize.
Qed.

Definition sample_data : bytes := [Byte.x70; Byte.x69; Byte.x6e; Byte.x67].
Definition sample_nonce : bytes := be_bytes 32 3.
Definition sample_vk (sk : Z) : VerifyingKey (Crypto:=toy_crypto) := sk_verifying_key (Crypto:=toy_crypto) sk.
Definition sample_node (sk : Z) : AdnlTransportNode (C:=toy_crypto) (SocketAddr:=Z) :=
  node_bind (C:=toy_crypto) sk.

(** A packet from a sender that does not exist, signed with zeros *)
Definition forged_packet : FullPacket :=
  {| recipient_address := address (C:=toy_crypto) (sample_vk 11); sender_address := be_bytes 32 77;
     timestamp := 0; nonce := 0; payload := sample_data; full_signature := be_bytes 64 0 |}.

Definition sample_fast : FastPacket :=
  {| channel_or_recipient_id := be_bytes 32 1; fast_sender_address := be_bytes 32 2; fast_nonce := sample_nonce;
     fast_payload := sample_data |}.

Lemma forged_typed : full_typed forged_packet.
Proof.
  split; [apply (len_node_address (C:=toy_crypto))|]. split; [apply len_be_bytes|].
  split; [split; [apply Z.leb_le|apply Z.ltb_lt]; reflexivity|].
  split; [split; [apply Z.leb_le|apply Z.ltb_lt]; reflexivity|].
  split; [apply Z.ltb_lt; vm_compute; reflexivity|apply len_be_bytes].
Qed.

Lemma sample_fast_typed : fast_typed sample_fast.
Proof.
  split; [apply len_be_bytes|]. split; [apply len_be_bytes|]. split; [apply len_be_bytes|].
  apply Z.ltb_lt. vm_compute. reflexivity.
Qed.

Lemma packets_exact_witness :
  fast_decode (C:=toy_crypto) (fast_encode (C:=toy_crypto) sample_fast sample_nonce) sample_nonce = Ok sample_fast ∧
  ∃ wire, full_encode (C:=toy_crypto) forged_packet (sample_vk 11) 5 sample_nonce = Ok wire ∧
    full_decode (C:=toy_crypto) wire 11 = Ok forged_packet.
Proof.
  destruct (packets_exact (C:=toy_crypto) [] sample_nonce 11 sample_fast forged_packet)
    as (_ & Hfast & _ & Hfull & _).
  split; [exact (Hfast sample_fast_typed)|exact (Hfull 5 sample_nonce forged_typed (len_be_bytes 32 3))].
Defined.


(** The forged packet is received as from the address it claims. *)
Lemma senders_not_authenticated_witness :
  ∃ wire, full_encode (C:=toy_crypto) forged_packet (sample_vk 11) 5 sample_nonce = Ok wire ∧
    recv_datagram (sample_node 11) wire 9 = Ok (be_bytes 32 77, sample_data, 9).
Proof.
  destruct (senders_not_authenticated (C:=toy_crypto) (SocketAddr:=Z) 11 (sample_node 11) 9
    (reach_bind (C:=toy_crypto) 11)) as (H & _).
  exact (H forged_packet 5 sample_nonce forged_typed eq_refl (len_be_bytes 32 3)).
Defined.
