(* ===== verification/NodeConfig.v ===== *)
(** [onxd], [lib.rs]: the role, the configuration file and the command line of a
    node. Files are a parameter: what reading a path gives. *)
From S2P Require Import Prelude Bytes Machine Text.

(** The texts of the messages are not modelled. *)
Inductive ConfigError : Type :=
  | ReadFailed (path : bytes)
  | UnknownRole (s : bytes)
  | InvalidShutdown (value : bytes)
  | MissingValue (flag : bytes)
  | Usage.

#[export] Instance ConfigError_eq_dec : EqDecision ConfigError.
Proof. solve_decision. Defined.

Inductive NodeRole : Type := FullNode | ValidatorNode | LiteServerNode.

#[export] Instance NodeRole_eq_dec : EqDecision NodeRole.
Proof. solve_decision. Defined.

Definition NodeRole_parse (s : bytes) : result ConfigError NodeRole :=
  let v := to_ascii_lowercase s in
  if bool_decide (v ∈ [str "full"; str "full-node"; str "fullnode"]) then Ok FullNode
  else if bool_decide (v ∈ [str "validator"; str "validator-node"; str "validatornode"]) then Ok ValidatorNode
  else if bool_decide (v ∈ [str "lite"; str "lite-server"; str "liteserver"; str "lite-server-node"])
  then Ok LiteServerNode
  else Err (UnknownRole s).

Record OnxdConfig : Type := {
  role : NodeRole;
  storage_path : bytes;
  network_enabled : bool;
  network_bind : bytes;
  peers : list bytes;
  bootstrap_genesis : option bytes;
  shutdown_after_ms : option Z;
}.

#[export] Instance OnxdConfig_eq_dec : EqDecision OnxdConfig.
Proof. solve_decision. Defined.

Definition OnxdConfig_default : OnxdConfig :=
  {| role := FullNode; storage_path := str "./onx-data"; network_enabled := true;
     network_bind := str "127.0.0.1:0"; peers := []; bootstrap_genesis := None; shutdown_after_ms := None |}.

(** Assignments to one field *)
Definition with_role r c :=
  {| role := r; storage_path := storage_path c; network_enabled := network_enabled c;
     network_bind := network_bind c; peers := peers c; bootstrap_genesis := bootstrap_genesis c;
     shutdown_after_ms := shutdown_after_ms c |}.
Definition with_storage_path s c :=
  {| role := role c; storage_path := s; network_enabled := network_enabled c;
     network_bind := network_bind c; peers := peers c; bootstrap_genesis := bootstrap_genesis c;
     shutdown_after_ms := shutdown_after_ms c |}.
Definition with_network_enabled b c :=
  {| role := role c; storage_path := storage_path c; network_enabled := b;
     network_bind := network_bind c; peers := peers c; bootstrap_genesis := bootstrap_genesis c;
     shutdown_after_ms := shutdown_after_ms c |}.
Definition with_network_bind s c :=
  {| role := role c; storage_path := storage_path c; network_enabled := network_enabled c;
     network_bind := s; peers := peers c; bootstrap_genesis := bootstrap_genesis c;
     shutdown_after_ms := shutdown_after_ms c |}.
Definition with_peers ps c :=
  {| role := role c; storage_path := storage_path c; network_enabled := network_enabled c;
     network_bind := network_bind c; peers := ps; bootstrap_genesis := bootstrap_genesis c;
     shutdown_after_ms := shutdown_after_ms c |}.
Definition with_bootstrap_genesis o c :=
  {| role := role c; storage_path := storage_path c; network_enabled := network_enabled c;
     network_bind := network_bind c; peers := peers c; bootstrap_genesis := o;
     shutdown_after_ms := shutdown_after_ms c |}.
Definition with_shutdown_after_ms o c :=
  {| role := role c; storage_path := storage_path c; network_enabled := network_enabled c;
     network_bind := network_bind c; peers := peers c; bootstrap_genesis := bootstrap_genesis c;
     shutdown_after_ms := o |}.

(** ** The configuration file *)

Definition QUOTE : byte := Byte.x22.

(** The key and the value a line assigns: blank lines, comments and lines
    without [=] assign nothing. *)
Definition line_entry (line : bytes) : option (bytes * bytes) :=
  let trimmed := trim line in
  if bool_decide (trimmed = []) || bool_decide (head trimmed = Some Byte.x23) then None
  else match split_once Byte.x3d trimmed with
       | (key, Some value) => Some (trim key, trim_matches QUOTE (trim value))
       | (_, None) => None
       end.

Definition truthy (value : bytes) : bool :=
  bool_decide (to_ascii_lowercase value ∈ [str "1"; str "true"; str "yes"; str "on"]).

Definition peer_list (value : bytes) : list bytes :=
  filter (λ p, p ≠ []) (trim <$> split Byte.x2c value).

(** The [match] on the key *)
Definition apply_entry (entry : bytes * bytes) (c : OnxdConfig) : result ConfigError OnxdConfig :=
  let '(key, value) := entry in
  if bool_decide (key = str "role") then let? r := NodeRole_parse value in Ok (with_role r c)
  else if bool_decide (key = str "storage_path") then Ok (with_storage_path value c)
  else if bool_decide (key = str "network_enabled") then Ok (with_network_enabled (truthy value) c)
  else if bool_decide (key = str "network_bind") then Ok (with_network_bind value c)
  else if bool_decide (key = str "peers") then Ok (with_peers (peer_list value) c)
  else if bool_decide (key = str "bootstrap_genesis") then Ok (with_bootstrap_genesis (Some value) c)
  else if bool_decide (key = str "shutdown_after_ms") then
    let? ms := ok_or (parse_u64 value) (InvalidShutdown value) in Ok (with_shutdown_after_ms (Some ms) c)
  else Ok c.

(** One iteration over the lines *)
Definition apply_line (line : bytes) (c : OnxdConfig) : result ConfigError OnxdConfig :=
  match line_entry line with Some entry => apply_entry entry c | None => Ok c end.

(** [read path]: the bytes of a file that can be read *)
Definition load_config (read : bytes → option bytes) (path : bytes) : result ConfigError OnxdConfig :=
  match read path with
  | Some raw => if utf8_valid raw then foldM apply_line (lines raw) OnxdConfig_default else Err (ReadFailed path)
  | None => Err (ReadFailed path)
  end.

(** ** The command line *)

(** The first loop of [parse_cli_args]: every argument is compared with
    [--config], the values of other flags included; the last one counts. *)
Fixpoint config_argument (args : list bytes) (config_path : option bytes) : result ConfigError (option bytes) :=
  match args with
  | [] => Ok config_path
  | a :: args =>
      if bool_decide (a = str "--config") then
        match args with
        | [] => Err (MissingValue a)
        | path :: _ => config_argument args (Some path)
        end
      else config_argument args config_path
  end.

(** The second loop, which skips the value of a flag; the value of [--config]
    is examined as an argument. *)
Fixpoint override (args : list bytes) (c : OnxdConfig) : result ConfigError OnxdConfig :=
  match args with
  | [] => Ok c
  | a :: args =>
      if bool_decide (a = str "--role") then
        match args with
        | [] => Err (MissingValue a)
        | v :: args => let? r := NodeRole_parse v in override args (with_role r c)
        end
      else if bool_decide (a = str "--storage-path") then
        match args with
        | [] => Err (MissingValue a)
        | v :: args => override args (with_storage_path v c)
        end
      else if bool_decide (a = str "--network-bind") then
        match args with
        | [] => Err (MissingValue a)
        | v :: args => override args (with_network_bind v c)
        end
      else if bool_decide (a = str "--peer") then
        match args with
        | [] => Err (MissingValue a)
        | v :: args => override args (with_peers (peers c ++ [v]) c)
        end
      else if bool_decide (a ∈ [str "--help"; str "-h"]) then Err Usage
      else override args c
  end.

(** The first argument is the name of the program. *)
Definition parse_cli_args (read : bytes → option bytes) (args : list bytes) : result ConfigError OnxdConfig :=
  let args := tail args in
  let? config_path := config_argument args None in
  let? c := match config_path with
            | Some path => load_config read path
            | None => Ok OnxdConfig_default
            end in
  override args c.

(** ** What a configuration file says *)

Definition entries (raw : bytes) : list (bytes * bytes) := omap line_entry (lines raw).

(** The value that is assigned to a key last *)
Definition last_value (key : bytes) (es : list (bytes * bytes)) : option bytes :=
  last (filter (λ e, e.1 = key) es).*2.

(** The values that stop the loading *)
Definition entry_error (e : bytes * bytes) : option ConfigError :=
  if decide (e.1 = str "role") then
    match NodeRole_parse e.2 with Err x => Some x | _ => None end
  else if decide (e.1 = str "shutdown_after_ms") then
    match parse_u64 e.2 with Some _ => None | None => Some (InvalidShutdown e.2) end
  else None.

Definition config_over (c : OnxdConfig) (es : list (bytes * bytes)) : OnxdConfig :=
  let field {A} (key : bytes) (f : bytes → A) (d : A) := from_option f d (last_value key es) in
  {| role := field (str "role") (λ v, match NodeRole_parse v with Ok r => r | _ => FullNode end) (role c);
     storage_path := field (str "storage_path") id (storage_path c);
     network_enabled := field (str "network_enabled") truthy (network_enabled c);
     network_bind := field (str "network_bind") id (network_bind c);
     peers := field (str "peers") peer_list (peers c);
     bootstrap_genesis := field (str "bootstrap_genesis") Some (bootstrap_genesis c);
     shutdown_after_ms := field (str "shutdown_after_ms") parse_u64 (shutdown_after_ms c) |}.

Lemma last_value_cons key k v es :
  last_value key ((k, v) :: es) =
  match last_value key es with Some w => Some w | None => if decide (k = key) then Some v else None end.
Proof.
  unfold last_value. rewrite filter_cons. cbn [fst]. destruct (decide (k = key)).
  - rewrite fmap_cons, last_cons. by destruct (last _).
  - by destruct (last _).
Qed.

Lemma parse_no_panic s : NodeRole_parse s ≠ Panic.
Proof. unfold NodeRole_parse. by repeat case_match. Qed.

(** Evaluates the comparisons of a key. *)
Ltac keys :=
  repeat match goal with
  | |- context [decide (?a = ?b)] =>
      first [rewrite (decide_True (P:=a = b)) by done | rewrite (decide_False (P:=a = b)) by done]
  | |- context [bool_decide (?a = ?b)] =>
      first [rewrite (bool_decide_true (a = b)) by done | rewrite (bool_decide_false (a = b)) by done]
  end.

Lemma option_eta {A} (o : option A) : match o with Some w => Some w | None => None end = o.
Proof. by destruct o. Qed.

(** The case of an entry that assigns [key] *)
Ltac assigns key :=
  keys; rewrite ?option_eta; eexists; split; [reflexivity|];
  match goal with |- context [last_value key ?es] => destruct (last_value key es) end;
  cbn [from_option];
  try match goal with H : NodeRole_parse _ = _ |- _ => rewrite H | H : parse_u64 _ = _ |- _ => rewrite H end;
  reflexivity.

Lemma apply_entry_spec e c es :
  match entry_error e with
  | Some x => apply_entry e c = Err x
  | None => ∃ c', apply_entry e c = Ok c' ∧ config_over c' es = config_over c (e :: es)
  end.
Proof.
  destruct e as [k v]. unfold entry_error, apply_entry, config_over. rewrite !last_value_cons. cbn [fst snd].
  destruct (decide (k = str "role")) as [->|].
  { keys. destruct (NodeRole_parse v) as [r|x|] eqn:Hr; [|done|by destruct (parse_no_panic v)].
    cbn [rbind]. assigns (str "role"). }
  destruct (decide (k = str "shutdown_after_ms")) as [->|].
  { keys. destruct (parse_u64 v) as [ms|] eqn:Hms; [|done]. cbn [ok_or rbind]. assigns (str "shutdown_after_ms"). }
  destruct (decide (k = str "storage_path")) as [->|]; [assigns (str "storage_path")|].
  destruct (decide (k = str "network_enabled")) as [->|]; [assigns (str "network_enabled")|].
  destruct (decide (k = str "network_bind")) as [->|]; [assigns (str "network_bind")|].
  destruct (decide (k = str "peers")) as [->|]; [assigns (str "peers")|].
  destruct (decide (k = str "bootstrap_genesis")) as [->|]; [assigns (str "bootstrap_genesis")|].
  keys. rewrite !option_eta. by eexists.
Qed.

Lemma apply_lines_spec ls c :
  foldM apply_line ls c =
  let es := omap line_entry ls in
  match head (omap entry_error es) with
  | Some x => Err x
  | None => Ok (config_over c es)
  end.
Proof.
  revert c. induction ls as [|l ls IH]; intros c; cbn [foldM].
  { by destruct c. }
  unfold apply_line at 1. cbn [omap list_omap]. destruct (line_entry l) as [e|]; cbn [rbind]; [|apply IH].
  cbn [omap list_omap]. pose proof (λ es, apply_entry_spec e c es) as He.
  destruct (entry_error e) as [x|]; cbn [head].
  - by rewrite (He []).
  - destruct (He (omap line_entry ls)) as (c' & -> & Hc). cbn [rbind]. rewrite IH. cbv zeta.
    destruct (head _); [done|]. by f_equal.
Qed.

(** A configuration file means, for each key, the last value assigned to it,
    and the default where nothing is; the first value that is no role or no
    number, overwritten or not, is the error. *)
Theorem load_config_spec read path :
  load_config read path =
  match read path with
  | Some raw =>
      if utf8_valid raw then
        match head (omap entry_error (entries raw)) with
        | Some x => Err x
        | None => Ok (config_over OnxdConfig_default (entries raw))
        end
      else Err (ReadFailed path)
  | None => Err (ReadFailed path)
  end.
Proof.
  unfold load_config. destruct (read path) as [raw|]; [|done]. destruct (utf8_valid raw); [|done].
  apply apply_lines_spec.
Qed.

(** ** What a command line says *)

Inductive CliOption : Type :=
  | RoleOption (v : bytes)
  | StoragePathOption (v : bytes)
  | NetworkBindOption (v : bytes)
  | PeerOption (v : bytes)
  | ConfigOption (path : bytes)
  | Ignored (v : bytes).

Definition render_option (o : CliOption) : list bytes :=
  match o with
  | RoleOption v => [str "--role"; v]
  | StoragePathOption v => [str "--storage-path"; v]
  | NetworkBindOption v => [str "--network-bind"; v]
  | PeerOption v => [str "--peer"; v]
  | ConfigOption path => [str "--config"; path]
  | Ignored v => [v]
  end.

Definition cli_flags : list bytes :=
  str <$> ["--config"; "--role"; "--storage-path"; "--network-bind"; "--peer"; "--help"; "-h"]%string.

(** Each word is read as what it was written for. *)
Definition option_clear (o : CliOption) : Prop :=
  match o with
  | RoleOption v | StoragePathOption v | NetworkBindOption v | PeerOption v => v ≠ str "--config"
  | ConfigOption v | Ignored v => v ∉ cli_flags
  end.

Definition config_of_option (o : CliOption) : option bytes :=
  match o with ConfigOption path => Some path | _ => None end.

Definition apply_option (o : CliOption) (c : OnxdConfig) : result ConfigError OnxdConfig :=
  match o with
  | RoleOption v => let? r := NodeRole_parse v in Ok (with_role r c)
  | StoragePathOption v => Ok (with_storage_path v c)
  | NetworkBindOption v => Ok (with_network_bind v c)
  | PeerOption v => Ok (with_peers (peers c ++ [v]) c)
  | ConfigOption _ | Ignored _ => Ok c
  end.

Lemma not_flag v : v ∉ cli_flags → Forall (λ f, v ≠ f) cli_flags.
Proof. intros Hv. apply Forall_forall. by intros f Hf ->. Qed.

Lemma config_argument_render opts acc :
  Forall option_clear opts →
  config_argument (concat (render_option <$> opts)) acc =
  Ok (match last (omap config_of_option opts) with Some p => Some p | None => acc end).
Proof.
  intros Hall. revert acc. induction Hall as [|o opts Ho _ IH]; intros acc; [done|].
  rewrite fmap_cons. cbn [concat omap list_omap].
  destruct o as [v|v|v|v|v|v]; cbn [option_clear render_option app config_argument config_of_option] in *;
    try apply not_flag, Forall_cons in Ho as [Ho _]; keys; rewrite IH; try done.
  rewrite last_cons. by destruct (last _).
Qed.

Lemma override_render opts c :
  Forall option_clear opts → override (concat (render_option <$> opts)) c = foldM apply_option opts c.
Proof.
  intros Hall. revert c. induction Hall as [|o opts Ho _ IH]; intros c; [done|].
  assert (∀ v rest c, v ∉ cli_flags → override (v :: rest) c = override rest c) as Hskip.
  { intros v rest c' Hv. apply not_flag in Hv. unfold cli_flags in Hv. cbn in Hv.
    rewrite !Forall_cons in Hv. destruct Hv as (? & ? & ? & ? & ? & ? & ? & _).
    cbn [override]. keys. rewrite bool_decide_false; [done|]. set_solver. }
  assert (∀ rest c, override (str "--config" :: rest) c = override rest c) as Hconfig.
  { intros. cbn [override]. keys. by rewrite bool_decide_false by set_solver. }
  rewrite fmap_cons. cbn [concat foldM].
  destruct o as [v|v|v|v|v|v]; cbn [option_clear render_option app apply_option rbind] in *.
  1: { cbn [override]. keys. destruct (NodeRole_parse v); cbn [rbind]; done. }
  1-3: cbn [override]; keys; apply IH.
  - by rewrite Hconfig, Hskip.
  - by rewrite Hskip.
Qed.

(** A command line of options with clear values: the file of the last
    [--config], or the defaults, changed by the other options in turn. *)
Theorem parse_cli_args_spec read program opts :
  Forall option_clear opts →
  parse_cli_args read (program :: concat (render_option <$> opts)) =
  let? c := match last (omap config_of_option opts) with
            | Some path => load_config read path
            | None => Ok OnxdConfig_default
            end in
  foldM apply_option opts c.
Proof.
  intros Hall. unfold parse_cli_args. cbn [tail]. rewrite config_argument_render by done. cbn [rbind].
  assert (∀ m : result ConfigError OnxdConfig,
    rbind m (override (concat (render_option <$> opts))) = rbind m (foldM apply_option opts)) as Hext.
  { intros [c|e|]; [|done|done]. by apply override_render. }
  rewrite <-Hext. by destruct (last _).
Qed.

Lemma parse_cli_args_spec_witness :
  parse_cli_args (λ _, None) [str "onxd"; str "--role"; str "Lite"; str "--peer"; str "10.0.0.1:7"]
  = Ok (with_peers [str "10.0.0.1:7"] (with_role LiteServerNode OnxdConfig_default)).
Proof.
  refine (eq_trans (parse_cli_args_spec (λ _, None) (str "onxd")
    [RoleOption (str "Lite"); PeerOption (str "10.0.0.1:7")] _) _).
  - by repeat constructor.
  - by vm_compute.
Defined.

(** ** The start of a node: why [run_daemon] refuses, and its check of the genesis
    file *)

Inductive StartError : Type :=
  | StorageDirFailed | StorageOpenFailed | GenesisUnreadable (path : bytes) | GenesisEmpty (path : bytes)
  | MetricsFailed (message : bytes) | InvalidBindAddress | SecretKeyFailed | BindFailed | EngineFailed
  | RldpFailed | SigtermFailed.

#[export] Instance StartError_eq_dec : EqDecision StartError.
Proof. solve_decision. Defined.

Definition check_bootstrap (read : bytes → option bytes) (c : OnxdConfig) : result StartError unit :=
  match bootstrap_genesis c with
  | Some path =>
      let? genesis := ok_or (read path) (GenesisUnreadable path) in
      if bool_decide (genesis = []) then Err (GenesisEmpty path) else Ok tt
  | None => Ok tt
  end.
