(* ===== verification/Node.v ===== *)
(** [onxd], [lib.rs] and [main.rs]: the start of a node, its loop, which drives the
    storage, the ADNL transport, the DHT, the consensus engine and an RLDP sender,
    its end and its exit code. The answers of the system are parameters; the
    registry of the metrics belongs to the process and is passed along. *)
From S2P Require Import Prelude Bytes Machine Text Telemetry Primitives ToyCrypto Address Consensus Engine Storage Network Rldp RldpTransfer Dht Adnl NodeConfig.

Section node.
Context {C : Crypto} {P : Prometheus} {T : Tracing} {SocketAddr : Type}.

(** What the system answers: reading a file, making a directory, the standard
    library's parser of socket addresses, binding a socket, watching for SIGTERM *)
Record NodeEnv : Type := {
  read_file : bytes → option bytes;
  make_dir : bytes → bool;
  parse_addr : bytes → option SocketAddr;
  bindable : SocketAddr → bool;
  sigterm_installs : bool;
}.

(** What the task of the network loop owns, and the registry it shares *)
Record NodeState : Type := {
  engine : ConsensusEngine;
  rldp : RldpSender;
  dht : DhtDaemon;
  adnl : AdnlTransportNode (SocketAddr:=SocketAddr);
  metrics : TelemetryHandle;
  registry : Registry;
}.

(** The first half of [if config.network_enabled] *)
Definition start_network (env : NodeEnv) (c : OnxdConfig) (h : TelemetryHandle) (r : Registry) : result StartError NodeState :=
  let? addr := ok_or (parse_addr env (network_bind c)) InvalidBindAddress in
  let? secret_key := map_err (λ _, SecretKeyFailed) (SecretKey_from_seed (replicate 32 (byte_of 1))) in
  let public_key := SecretKey_public_key secret_key in
  if negb (bindable env addr) then Err BindFailed
  else
    let adnl := node_bind secret_key in
    let dht := daemon_new public_key in
    let? engine := map_err (λ _, EngineFailed)
      (engine_new (shard_root BASIC) 0 [{| validator_id := 0; public_key := public_key; actual_stake := 1 |}] 0
         RoundTimeouts_default) in
    let? rldp := map_err (λ _, RldpFailed)
      (sender_new (replicate 32 (byte_of 0)) [byte_of 0] RldpConfig_default) in
    Ok {| engine := engine; rldp := rldp; dht := dht; adnl := adnl; metrics := h; registry := r |}.

(** [run_daemon] up to the start of its tasks. [f] is the content of the storage
    directory, [r] the registry of the process; without the network nothing else
    runs. *)
Definition start_daemon (env : NodeEnv) (c : OnxdConfig) (f : files) (r : Registry) :
    files * Registry * result StartError (option NodeState) :=
  if negb (make_dir env (storage_path c)) then (f, r, Err StorageDirFailed)
  else
    match storage_open f with
    | (f, Ok _) =>
        match check_bootstrap (read_file env) c with
        | Ok _ =>
            match TelemetryHandle_new r with
            | (r, Ok h) =>
                let r := set_tx_pool_size h 0 (set_connected_peers h (as_i 64 (len (peers c))) r) in
                (f, r, if network_enabled c then let? n := start_network env c h r in Ok (Some n) else Ok None)
            | (r, Err e) => (f, r, Err (MetricsFailed e))
            | (r, Panic) => (f, r, Panic)
            end
        | Err e => (f, r, Err e)
        | Panic => (f, r, Panic)
        end
    | (f, Err _) => (f, r, Err StorageOpenFailed)
    | (f, Panic) => (f, r, Panic)
    end.

(** One tick of the loop, [now] seconds after its start. The reads whose results
    are dropped have no effect; [leader] may abort. *)
Definition node_tick (now : Z) (n : NodeState) : result StartError NodeState :=
  let '(timed_out, e) := on_timeout (engine n) now in
  let reg := if timed_out then (track_consensus_phase (metrics n) (str "timeout") (registry n)).2 else registry n in
  let? _ := map_err (λ _, EngineFailed) (leader e) in
  let height := match e_finalized e with Some block => as_i 64 (f_height block) | None => 0 end in
  let reg := set_block_height (metrics n) height reg in
  let? r := match next_round (rldp n) with Ok (r, _) => Ok r | Err _ => Ok (rldp n) | Panic => Panic end in
  Ok {| engine := e; rldp := r; dht := dht n; adnl := adnl n; metrics := metrics n; registry := reg |}.

Definition node_run (clock : list Z) (n : NodeState) : result StartError NodeState := foldM node_tick clock n.

(** What ends a running daemon *)
Inductive Shutdown : Type := Interrupt | Terminate | TimerElapsed.

(** The timer is set only where the configuration has a time. *)
Definition arrives (c : OnxdConfig) (s : Shutdown) : bool :=
  match s with TimerElapsed => bool_decide (is_Some (shutdown_after_ms c)) | _ => true end.

(** [run_daemon]: the loop ticks at the times of [clock] until [shutdown] arrives,
    if it does; [None] is a daemon that runs on. A loop that aborts ends its own
    task only. *)
Definition run_daemon (env : NodeEnv) (c : OnxdConfig) (f : files) (r : Registry) (clock : list Z)
    (shutdown : option Shutdown) : files * option (result StartError unit) :=
  let '(f, r, res) := start_daemon env c f r in
  (f, match res with
      | Ok _ =>
          if negb (sigterm_installs env) then Some (Err SigtermFailed)
          else match shutdown with
               | Some s => if arrives c s then Some (Ok tt) else None
               | None => None
               end
      | Err e => Some (Err e)
      | Panic => Some Panic
      end).

(** [main]: the exit code of the process, if it ends. An abort of the main task
    exits with 101. *)
Definition onxd_main (env : NodeEnv) (args : list bytes) (f : files) (clock : list Z)
    (shutdown : option Shutdown) : files * option Z :=
  match parse_cli_args (read_file env) args with
  | Ok c =>
      let '(f, out) := run_daemon env c f new_registry clock shutdown in
      (f, match out with
          | Some (Ok _) => Some 0
          | Some (Err _) => Some 1
          | Some Panic => Some 101
          | None => None
          end)
  | Err _ => (f, Some 2)
  | Panic => (f, Some 101)
  end.

(** ** The start *)

Definition node_key : SigningKey := sk_from_bytes (replicate 32 (byte_of 1)).

Definition first_engine : ConsensusEngine :=
  let v := {| validator_id := 0; public_key := sk_verifying_key node_key; actual_stake := 1 |} in
  {| e_shard := shard_root BASIC; e_height := 0; e_validators := {[ 0 := v ]}; e_total_stake := 1;
     e_timeouts := RoundTimeouts_default; e_round_started_at := 0; e_round := 0; e_step := StepProposal;
     e_proposal := None; e_votes := ∅; e_finalized := None |}.

Definition first_sender : RldpSender :=
  {| frames := [source_frame (replicate 32 (byte_of 0)) [byte_of 0] RldpConfig_default 1 0];
     s_transfer_id := replicate 32 (byte_of 0); acknowledged := ∅; last_ack_seq := 0;
     config := RldpConfig_default; cursor := 0 |}.

Definition first_state (h : TelemetryHandle) (r : Registry) : NodeState :=
  {| engine := first_engine; rldp := first_sender; dht := daemon_new (sk_verifying_key node_key);
     adnl := node_bind node_key; metrics := h; registry := r |}.

Lemma first_engine_new :
  engine_new (shard_root BASIC) 0 [{| validator_id := 0; public_key := sk_verifying_key node_key; actual_stake := 1 |}] 0
    RoundTimeouts_default = Ok first_engine.
Proof.
  unfold engine_new. cbn [foldM add_validator validator_id]. rewrite lookup_empty. cbn [rbind].
  rewrite bool_decide_false by apply insert_non_empty. reflexivity.
Qed.

Lemma first_sender_new :
  sender_new (replicate 32 (byte_of 0)) [byte_of 0] RldpConfig_default = Ok first_sender.
Proof. reflexivity. Qed.

Lemma start_network_spec env c h r :
  start_network env c h r =
  match parse_addr env (network_bind c) with
  | None => Err InvalidBindAddress
  | Some addr => if bindable env addr then Ok (first_state h r) else Err BindFailed
  end.
Proof.
  unfold start_network. destruct (parse_addr _ _) as [addr|]; [|done]. cbn [ok_or rbind].
  change (SecretKey_from_seed (replicate 32 (byte_of 1))) with (Ok (E:=PrimitiveError) node_key).
  cbn [map_err rbind]. destruct (bindable env addr); [|done]. cbn [negb].
  unfold SecretKey_public_key. rewrite first_engine_new. cbn [map_err rbind].
  rewrite first_sender_new. reflexivity.
Qed.
End node.

(** ** The loop *)

Section node_proofs.
Context {C : Crypto} `{!CryptoLaws C} {P : Prometheus} {T : Tracing} {SocketAddr : Type}.
Implicit Type n : NodeState (SocketAddr:=SocketAddr).

(** What the loop keeps: nobody gives the engine a proposal or a vote. *)
Record idle n : Prop := {
  idle_engine : engine n = set_round (e_round (engine n)) (e_round_started_at (engine n)) first_engine;
  idle_rldp : sender_of (replicate 32 (byte_of 0)) [byte_of 0] RldpConfig_default 1 (rldp n) ∧
              acknowledged (rldp n) = ∅;
  idle_dht : dht n = daemon_new (sk_verifying_key node_key);
  idle_adnl : adnl n = node_bind node_key;
}.

Lemma first_accepted : accepted (replicate 32 (byte_of 0)) [byte_of 0] RldpConfig_default 1.
Proof. constructor; by vm_compute. Qed.

Lemma first_idle h r : idle (first_state h r).
Proof.
  constructor; [done| |done..]. split; [|done]. do 3 (split; [done|]). split; [cbn; lia|set_solver].
Qed.

Lemma leader_single e : dom (e_validators e) = {[ 0 ]} → leader e = Ok 0.
Proof.
  intros Hd. unfold leader, btree_keys. rewrite Hd, elements_singleton. cbn [len length].
  change (len (merge_sort Z.le [0]) =? 0) with false. change (len (merge_sort Z.le [0])) with 1.
  by rewrite Z.mod_1_r.
Qed.

(** The engine's timeout with no proposal at hand *)
Lemma on_timeout_idle e now :
  e = set_round (e_round e) (e_round_started_at e) first_engine →
  on_timeout e now =
  if saturating_sub_u now (e_round_started_at e) <? 3 then (false, e)
  else (true, set_round (saturating_add_u 32 (e_round e) 1) now first_engine).
Proof. intros He. unfold on_timeout. rewrite He. cbn. by destruct (_ <? 3). Qed.

(** What the loop does to the metrics: a phase for each timeout, and the height,
    which stays zero *)
Definition tick_events (timed_out : bool) : list TelemetryEvent :=
  (if timed_out then [PhaseTracked (str "timeout")] else []) ++ [HeightSet 0].

Definition timeouts (evs : list TelemetryEvent) : Z :=
  len (omap (λ ev, match ev with PhaseTracked _ => Some tt | _ => None end) evs).

Lemma timeouts_app evs evs' : timeouts (evs ++ evs') = timeouts evs + timeouts evs'.
Proof. unfold timeouts. by rewrite omap_app, len_app. Qed.

Lemma node_tick_idle now n :
  idle n → ∃ n', node_tick now n = Ok n' ∧ idle n' ∧ metrics n' = metrics n ∧
    let timed_out := negb (saturating_sub_u now (e_round_started_at (engine n)) <? 3) in
    registry n' = foldl (telemetry_step (metrics n)) (registry n) (tick_events timed_out) ∧
    e_round (engine n') = (if timed_out then Z.min (e_round (engine n) + 1) (2 ^ 32 - 1) else e_round (engine n)) ∧
    e_round_started_at (engine n') = (if timed_out then now else e_round_started_at (engine n)).
Proof.
  intros [He [Hr Hack] Hd Ha]. unfold node_tick. rewrite (on_timeout_idle _ _ He).
  destruct (next_round_ok _ _ _ _ first_accepted _ Hr) as (r & packets & -> & Hr' & Hack' & _).
  assert (dom (e_validators first_engine) = {[ 0 ]}) as Hdom by apply dom_singleton_L.
  destruct (_ <? 3); cbn [fst snd negb].
  - rewrite leader_single by (by rewrite He). bind_simpl. cbn [map_err rbind].
    eexists. split; [reflexivity|]. split; [constructor; cbn; [done|by rewrite Hack'|done..]|].
    split; [done|]. split; [|done]. cbn [registry tick_events app foldl telemetry_step].
    f_equal. by rewrite He.
  - rewrite leader_single by done. cbn [map_err rbind].
    eexists. split; [reflexivity|]. split; [constructor; cbn; [done|by rewrite Hack'|done..]|].
    done.
Qed.

(** The loop of a node never aborts, whatever its clock shows; and it does
    nothing: the engine stays at the proposal step of its height without a
    finalized block, the height it reports stays zero, no contact is learnt and
    no session is opened. Only rounds are counted: one for each timeout, none
    within three seconds of the last. *)
Theorem node_idles h r clock :
  ∃ n evs, node_run clock (first_state h r) = Ok n ∧
    e_finalized (engine n) = None ∧ e_step (engine n) = StepProposal ∧
    concat (buckets (dht n)) = [] ∧ sessions (adnl n) = ∅ ∧
    registry n = foldl (telemetry_step h) r evs ∧
    Forall (λ ev, ev = PhaseTracked (str "timeout") ∨ ev = HeightSet 0) evs ∧
    e_round (engine n) = Z.min (timeouts evs) (2 ^ 32 - 1) ∧ 3 * timeouts evs ≤ foldr Z.max 0 clock.
Proof.
  assert (∀ n b evs, idle n → metrics n = h → registry n = foldl (telemetry_step h) r evs →
    Forall (λ ev, ev = PhaseTracked (str "timeout") ∨ ev = HeightSet 0) evs →
    e_round (engine n) = Z.min (timeouts evs) (2 ^ 32 - 1) →
    3 * timeouts evs ≤ e_round_started_at (engine n) ≤ b → ∃ n' evs', node_run clock n = Ok n' ∧ idle n' ∧
      registry n' = foldl (telemetry_step h) r evs' ∧
      Forall (λ ev, ev = PhaseTracked (str "timeout") ∨ ev = HeightSet 0) evs' ∧
      e_round (engine n') = Z.min (timeouts evs') (2 ^ 32 - 1) ∧
      3 * timeouts evs' ≤ foldr Z.max b clock) as Hrun.
  { induction clock as [|now clock IH]; intros n b evs Hi Hm Hreg Hevs Hr Hs; cbn [node_run foldM foldr].
    { exists n, evs. split_and!; [done..|lia]. }
    destruct (node_tick_idle now n Hi) as (n1 & -> & Hi1 & Hm1 & Hreg1 & Hr1 & Hs1). cbn [rbind].
    assert (foldr Z.max (Z.max now b) clock = Z.max now (foldr Z.max b clock)) as Hmax.
    { clear. induction clock as [|x clock IH]; cbn; [done|]. rewrite IH. lia. }
    rewrite <-Hmax. unfold saturating_sub_u in *. rewrite Hm, Hreg, <-foldl_app in Hreg1.
    pose proof (len_nonneg (omap (λ ev, match ev with PhaseTracked _ => Some tt | _ => None end) evs)) as H0.
    fold (timeouts evs) in H0. revert Hreg1 Hr1 Hs1.
    destruct (Z.ltb_spec (Z.max 0 (now - e_round_started_at (engine n))) 3) as [Hlt|Hge]; cbn [negb];
      intros Hreg1 Hr1 Hs1; (eapply IH; [done|congruence|exact Hreg1|apply Forall_app; split; [done|]|..]).
    - apply Forall_singleton. by right.
    - rewrite timeouts_app, Hr1, Hr. change (timeouts (tick_events false)) with 0. lia.
    - rewrite timeouts_app, Hs1. change (timeouts (tick_events false)) with 0. lia.
    - apply Forall_cons. split; [by left|]. apply Forall_singleton. by right.
    - rewrite timeouts_app, Hr1, Hr. change (timeouts (tick_events true)) with 1. lia.
    - rewrite timeouts_app, Hs1. change (timeouts (tick_events true)) with 1. lia. }
  destruct (Hrun (first_state h r) 0 []) as (n & evs & Hok & Hi & Hreg & Hevs & Hr & Ht);
    [apply first_idle|done|done|by constructor|done|done|].
  exists n, evs. destruct Hi as [He _ Hd Ha]. split; [done|]. rewrite He at 1 2. rewrite Hd, Ha.
  split_and!; [done|done|by vm_compute|done|done|done|done|done].
Qed.

(** A node starts exactly when its directory can be made, its store recovers,
    the genesis file it names is there and not empty, the process has registered
    no metric of a node before, and - with the network enabled - its address
    parses and binds. Every node starts in the same state, with the key pair of
    one fixed seed: any two nodes have the same identity. *)
Theorem start_daemon_spec (env : NodeEnv (SocketAddr:=SocketAddr)) c f r n :
  (start_daemon env c f r).2 = Ok (Some n) ↔
  make_dir env (storage_path c) = true ∧ (storage_open f).2 = Ok tt ∧
  check_bootstrap (read_file env) c = Ok tt ∧ network_enabled c = true ∧
  (∃ addr, parse_addr env (network_bind c) = Some addr ∧ bindable env addr = true) ∧
  ∃ h, (TelemetryHandle_new r).2 = Ok h ∧
    n = first_state h (foldl (telemetry_step h) (TelemetryHandle_new r).1
                         [PeersSet (as_i 64 (len (peers c))); PoolSizeSet 0]).
Proof.
  unfold start_daemon. destruct (make_dir env _) eqn:Hdir; cbn [negb].
  2:{ split; [discriminate|]. by intros []. }
  destruct (storage_open f) as [f' [[]|e|]]; cbn [snd]; [|split; [discriminate|by intros (_ & [=] & _)]..].
  destruct (check_bootstrap _ c) as [[]|e|]; cbn [snd]; [|split; [discriminate|by intros (_ & _ & [=] & _)]..].
  destruct (TelemetryHandle_new r) as [r' [h|e|]]; cbn [fst snd];
    [|split; [discriminate|by intros (_ & _ & _ & _ & _ & ? & [=] & _)]..].
  destruct (network_enabled c); [|split; [discriminate|by intros (_ & _ & _ & [=] & _)]]. rewrite start_network_spec.
  destruct (parse_addr env _) as [addr|];
    [|split; [discriminate|by intros (_ & _ & _ & _ & (? & [=] & _) & _)]].
  destruct (bindable env addr) eqn:Hb; cbn [rbind].
  - split; [intros [= <-]; eauto 15|]. by intros (_ & _ & _ & _ & _ & ? & [= <-] & ->).
  - split; [discriminate|]. intros (_ & _ & _ & _ & (? & [= <-] & ?) & _). congruence.
Qed.

(** What a started node shows on its metrics, however long it runs *)
Lemma node_metrics {L : PrometheusLaws P} r h count evs :
  (TelemetryHandle_new r).2 = Ok h → Forall (λ ev, ev = PhaseTracked (str "timeout") ∨ ev = HeightSet 0) evs →
  let shown := readings (foldl (telemetry_step h)
    (foldl (telemetry_step h) (TelemetryHandle_new r).1 [PeersSet count; PoolSizeSet 0]) evs) in
  shown !! str "current_block_height" = Some (Level (i64_as_f64 0)) ∧
  shown !! str "connected_peer_count" = Some (Level (i64_as_f64 count)) ∧
  shown !! str "consensus_round_phases_total" = Some (Count (timeouts evs)).
Proof.
  intros Hok Hevs shown. unfold shown. rewrite <-foldl_app.
  apply TelemetryHandle_new_ok in Hok as [Hn Hr].
  rewrite (telemetry_steps_readings _ _ [] _ _ Hn Hr). cbn [app]. clear Hr shown.
  assert (∀ A (f : TelemetryEvent → option A), f (PhaseTracked (str "timeout")) = None → f (HeightSet 0) = None →
    omap f evs = []) as Hnone.
  { intros A f H1 H2. induction Hevs as [|ev evs [-> | ->] _ IH]; cbn [omap list_omap]; [done| |];
      rewrite ?H1, ?H2; exact IH. }
  unfold with_history, history_readings. cbn [foldl fst snd]. split_and!.
  - rewrite !(lookup_insert_ne _ _ (str "current_block_height")) by other_name. rewrite lookup_insert_eq.
    do 2 f_equal. cbn [omap list_omap].
    destruct (last (omap _ evs)) as [z|] eqn:Hz; [|reflexivity]. apply last_Some in Hz as [l Hz].
    assert (z ∈ omap (λ ev, match ev with HeightSet z => Some z | _ => None end) evs) as Hin by (rewrite Hz; set_solver).
    apply list_elem_of_omap in Hin as (ev & Hin & Hev). rewrite Forall_forall in Hevs.
    destruct (Hevs _ Hin) as [-> | ->]; [done|]. by injection Hev as <-.
  - rewrite !(lookup_insert_ne _ _ (str "connected_peer_count")) by other_name. rewrite lookup_insert_eq.
    cbn [omap list_omap]. by rewrite Hnone.
  - by rewrite lookup_insert_eq.
Qed.
End node_proofs.

(** ** The process *)

Lemma NodeRole_parse_safe v : safe (NodeRole_parse v).
Proof. unfold NodeRole_parse. repeat safe_step. Qed.

Lemma apply_line_safe line c : safe (apply_line line c).
Proof.
  unfold apply_line, apply_entry. pose proof NodeRole_parse_safe as Hrole.
  repeat first [safe_step|apply Hrole].
Qed.

Lemma parse_cli_args_safe read args : safe (parse_cli_args read args).
Proof.
  assert (∀ args c, safe (override args c)) as Hover.
  { clear args. intros args. induction args as [args IH] using (induction_ltof1 _ (@length bytes)). unfold ltof in IH.
    intros c. destruct args as [|a [|v args]]; cbn [override]; repeat safe_step;
      try apply NodeRole_parse_safe; try apply IH; cbn [length]; lia. }
  assert (∀ args o, safe (config_argument args o)) as Hconf.
  { clear. induction args as [|a args IH]; intros o; cbn [config_argument]; [done|]. repeat safe_step; auto. }
  unfold parse_cli_args. apply rbind_safe; [apply Hconf|]. intros o _. apply rbind_safe; [|intros; apply Hover].
  destruct o as [path|]; [|done]. unfold load_config. repeat safe_step; [|done..].
  apply (foldM_safe (λ _ _, True)); [intros; apply apply_line_safe|done..].
Qed.

Section process.
Context {C : Crypto} `{!CryptoLaws C} {P : Prometheus} {L : PrometheusLaws P} {T : Tracing} {SocketAddr : Type}.
Implicit Type env : NodeEnv (SocketAddr:=SocketAddr).

(** What a configuration needs of the system for the daemon to run *)
Definition startable env (c : OnxdConfig) (f : files) : Prop :=
  make_dir env (storage_path c) = true ∧ (storage_open f).2 = Ok tt ∧
  check_bootstrap (read_file env) c = Ok tt ∧
  (network_enabled c = true → ∃ addr, parse_addr env (network_bind c) = Some addr ∧ bindable env addr = true) ∧
  sigterm_installs env = true.

(** The start in a process of its own *)
Lemma start_daemon_fresh env c f :
  let res := (start_daemon env c f new_registry).2 in
  (res = Panic ↔ make_dir env (storage_path c) = true ∧ (storage_open f).2 = Panic) ∧
  (startable env c f ↔ is_ok res = true ∧ sigterm_installs env = true).
Proof.
  unfold startable, start_daemon. cbn zeta. destruct (make_dir env _); cbn [negb snd]; [|naive_solver].
  destruct (storage_open f) as [f' [[]|e|]]; cbn [snd]; [|naive_solver..].
  assert (safe (check_bootstrap (read_file env) c)) as Hsafe.
  { unfold check_bootstrap. repeat safe_step; done. }
  destruct (check_bootstrap _ c) as [[]|e|]; cbn [snd]; [|naive_solver|by destruct Hsafe].
  destruct TelemetryHandle_new_fresh as (h & Hh).
  destruct (TelemetryHandle_new new_registry) as [r' res]. cbn [snd] in Hh. subst res.
  destruct (network_enabled c); cbn [snd]; [|naive_solver]. rewrite start_network_spec.
  destruct (parse_addr env _) as [addr|]; cbn [rbind]; [|split; [naive_solver|]].
  2:{ split; [|by intros []]. intros (_ & _ & _ & H & _). by destruct (H eq_refl) as (? & [=] & _). }
  destruct (bindable env addr) eqn:Hb; cbn [rbind]; (split; [naive_solver|]); cbn [is_ok]; naive_solver.
Qed.

End process.
