(* ===== verification/Genesis.v ===== *)
(** [onx-genesis], [lib.rs] and [main.rs]: the output directory, the genesis text,
    the configurations of the boot nodes, and what a node reads of them. Paths
    are text. The TOML parser and the file system's answers are parameters. *)
From S2P Require Import Prelude Bytes Machine Text Telemetry Primitives ToyCrypto Consensus Engine Storage Network NodeConfig Node.

(** The texts of the messages are not modelled. *)
Inductive GenesisError : Type :=
  | AbsoluteOutput | ParentInOutput | NoCurrentDir | CannotCreate | CannotCanonicalize | OutsideCurrentDir
  | CannotRead | BadConfig | CannotWrite (path : bytes).

#[export] Instance GenesisError_eq_dec : EqDecision GenesisError.
Proof. solve_decision. Defined.

Record Balance : Type := { address : bytes; amount : Z }.
Record Validator : Type := { public_key : bytes; stake : Z }.
Record Workchain : Type := { id : Z; name : bytes; shard_prefix : bytes; enabled : bool }.
Record GenesisConfig : Type := {
  balances : list Balance; validators : list Validator; workchains : list Workchain
}.

Definition GenesisConfig_default : GenesisConfig :=
  {| balances := [{| address := str "onx:genesis-account"; amount := 5000000000000000000 |}];
     validators := [{| public_key := str "validator-pubkey-00"; stake := 1000000 |}];
     workchains := [{| id := 0; name := str "masterchain"; shard_prefix := str "0x00"; enabled := true |}] |}.

(** ** The output directory *)

(** [std::path::Component] on Unix *)
Inductive Component : Type := RootDir | CurDir | ParentDir | Normal (part : bytes).

#[export] Instance Component_eq_dec : EqDecision Component.
Proof. solve_decision. Defined.

Definition SLASH : byte := Byte.x2f.

(** [Path::components]: empty parts are dropped, and [.] but at the front. *)
Definition component_of (first : bool) (part : bytes) : list Component :=
  if bool_decide (part = []) then []
  else if bool_decide (part = str ".") then (if first then [CurDir] else [])
  else if bool_decide (part = str "..") then [ParentDir]
  else [Normal part].

Definition is_absolute (p : bytes) : bool := bool_decide (head p = Some SLASH).

Definition components (p : bytes) : list Component :=
  (if is_absolute p then [RootDir] else []) ++
  match split SLASH p with
  | [] => []
  | part :: parts => component_of true part ++ (parts ≫= component_of false)
  end.

(** Absolute paths are the lists of their parts. *)
Abbreviation path := (list bytes).

(** What the file system answers: the working directory; whether a directory
    can be made; a path with its symbolic links resolved *)
Record FsEnv : Type := {
  current_dir : option path;
  create_dir_all : path → bool;
  canonicalize : path → option path;
}.

Definition forbidden (c : Component) : bool := match c with RootDir | ParentDir => true | _ => false end.

(** The loop that builds the path *)
Definition push_component (c : Component) (p : path) : result GenesisError path :=
  match c with
  | CurDir => Ok p
  | Normal part => Ok (p ++ [part])
  | ParentDir | RootDir => Err ParentInOutput
  end.

(** The directory made, if any, and the result *)
Definition secure_output_dir (env : FsEnv) (output : bytes) : option path * result GenesisError path :=
  if is_absolute output then (None, Err AbsoluteOutput)
  else if existsb forbidden (components output) then (None, Err ParentInOutput)
  else
    match current_dir env with
    | None => (None, Err NoCurrentDir)
    | Some root =>
        match foldM push_component (components output) root with
        | Ok out_path =>
            if create_dir_all env out_path then
              (Some out_path,
               let? root_canon := ok_or (canonicalize env root) CannotCanonicalize in
               let? out_canon := ok_or (canonicalize env out_path) CannotCanonicalize in
               if negb (bool_decide (root_canon `prefix_of` out_canon)) then Err OutsideCurrentDir
               else Ok out_canon)
            else (None, Err CannotCreate)
        | Err e => (None, Err e)
        | Panic => (None, Panic)
        end
    end.

(** ** The generated files *)

Definition LF : bytes := [Byte.x0a].
Definition quoted (v : bytes) : bytes := [QUOTE] ++ v ++ [QUOTE].

Definition balance_text (b : Balance) : bytes := address b ++ str ":" ++ decimal (amount b) ++ str ";".
Definition validator_text (v : Validator) : bytes := public_key v ++ str ":" ++ decimal (stake v) ++ str ";".
Definition workchain_text (w : Workchain) : bytes :=
  decimal (id w) ++ str ":" ++ name w ++ str ":" ++ shard_prefix w ++ str ":" ++ bool_text (enabled w) ++ str ";".

Definition genesis_text (c : GenesisConfig) : bytes :=
  str "ONX_GENESIS_BOC" ++ LF ++ str "masterchain_genesis#0" ++ LF
  ++ str "validator_keys=" ++ concat (validator_text <$> validators c) ++ LF
  ++ str "initial_balances=" ++ concat (balance_text <$> balances c) ++ LF
  ++ str "workchains=" ++ concat (workchain_text <$> workchains c) ++ LF.

Definition shard_header_text : bytes :=
  str "ONX_SHARD_HEADER_BOC" ++ LF ++ str "shard=0x00" ++ LF ++ str "workchain=0" ++ LF
  ++ str "parent=masterchain_genesis#0" ++ LF.

(** [Path::join] of a relative name *)
Definition join (dir file : bytes) : bytes :=
  if bool_decide (dir = []) then file
  else if bool_decide (last dir = Some SLASH) then dir ++ file
  else dir ++ [SLASH] ++ file.

Definition key_value (key value : bytes) : bytes := key ++ str " = " ++ value ++ LF.

Definition node_text (idx : Z) (genesis_boc_path : bytes) : bytes :=
  key_value (str "role") (quoted (str "validator"))
  ++ key_value (str "storage_path") (quoted (str "target/onxd-node-" ++ decimal idx))
  ++ key_value (str "network_enabled") (str "true")
  ++ key_value (str "network_bind") (quoted (str "127.0.0.1:" ++ decimal (10000 + idx * 1000)))
  ++ key_value (str "peers") (quoted (str "127.0.0.1:" ++ decimal (10001 + idx * 1000)))
  ++ key_value (str "bootstrap_genesis") (quoted genesis_boc_path).

Definition node_file (dir : bytes) (idx : Z) : bytes := join dir (str "node-" ++ decimal idx ++ str ".toml").

(** The files in the order of writing *)
Definition generated (c : GenesisConfig) (dir : bytes) : list (bytes * bytes) :=
  let genesis_boc_path := join dir (str "genesis.boc") in
  [(genesis_boc_path, genesis_text c); (join dir (str "shard-header-0.boc"), shard_header_text)]
  ++ ((λ idx, (node_file dir idx, node_text idx genesis_boc_path)) <$> seqZ 0 4).

(** The first write that fails stops. *)
Fixpoint write_files (writable : bytes → bool) (ws : list (bytes * bytes)) (fs : gmap bytes bytes) :
    gmap bytes bytes * result GenesisError unit :=
  match ws with
  | [] => (fs, Ok tt)
  | (p, text) :: ws =>
      if writable p then write_files writable ws (<[ p := text ]> fs) else (fs, Err (CannotWrite p))
  end.

(** [creatable]: whether [create_dir_all] of the directory succeeds *)
Definition generate_genesis (creatable writable : bytes → bool) (c : GenesisConfig) (dir : bytes)
    (fs : gmap bytes bytes) : gmap bytes bytes * result GenesisError unit :=
  if creatable dir then write_files writable (generated c dir) fs else (fs, Err CannotCreate).

(** [toml::from_str] is third-party code. *)
Definition parse_config (toml : bytes → option GenesisConfig) (read : bytes → option bytes) (p : bytes) :
    result GenesisError GenesisConfig :=
  let? raw := ok_or (read p) CannotRead in
  if negb (utf8_valid raw) then Err CannotRead else ok_or (toml raw) BadConfig.

(** [args.iter().position(..).and_then(..).unwrap_or_else(..)] of [main] *)
Definition flag_value (flag dflt : bytes) (args : list bytes) : bytes :=
  match list_find (λ a, a = flag) args with
  | Some (i, _) => default dflt (args !! S i)
  | None => dflt
  end.

Definition launch_guide : bytes :=
  str "# Launch Guide" ++ LF ++ LF
  ++ str "This repository ships a deterministic `onx-genesis` bootstrap generator." ++ LF ++ LF
  ++ str "Use `onx-genesis --config config/genesis.toml --out target/onx-genesis` to create `genesis.boc` and four `node-*.toml` files." ++ LF ++ LF
  ++ str "Then launch four `onxd` boot nodes from the same generated `genesis.boc` by pointing each node at its generated configuration file, verifying that the first committed masterchain block is `#0` and that a shared shard header bootstrap path is emitted." ++ LF.

Definition write_docs (writable : bytes → bool) (dir : bytes) (fs : gmap bytes bytes) :
    gmap bytes bytes * result GenesisError unit :=
  write_files writable [(join dir (str "launch_guide.md"), launch_guide)] fs.

(** The text of an absolute path *)
Definition path_text (p : path) : bytes :=
  match p with [] => [SLASH] | _ => concat ((λ part, SLASH :: part) <$> p) end.

(** [main], after the name of the program is skipped: the first error ends it. *)
Definition genesis_main (env : FsEnv) (toml : bytes → option GenesisConfig) (writable : bytes → bool)
    (args : list bytes) (fs : gmap bytes bytes) : gmap bytes bytes * result GenesisError unit :=
  let config_path := flag_value (str "--config") (str "config/genesis.toml") args in
  let out_arg := flag_value (str "--out") (str "target/onx-genesis") args in
  match (secure_output_dir env out_arg).2 with
  | Ok dir =>
      match parse_config toml (fs !!.) config_path with
      | Ok config =>
          match generate_genesis (λ _, create_dir_all env dir) writable config (path_text dir) fs with
          | (fs, Ok _) => write_docs writable (path_text dir) fs
          | r => r
          end
      | Err e => (fs, Err e)
      | Panic => (fs, Panic)
      end
  | Err e => (fs, Err e)
  | Panic => (fs, Panic)
  end.

(** ** The output directory stays inside the working directory *)

Definition normal_parts (output : bytes) : path := filter (λ p, p ≠ [] ∧ p ≠ str ".") (split SLASH output).

Lemma forbidden_component first part :
  existsb forbidden (component_of first part) = bool_decide (part = str "..").
Proof.
  unfold component_of. repeat case_bool_decide; subst; try done; destruct first; done.
Qed.

Lemma push_components first part p :
  part ≠ str ".." →
  foldM push_component (component_of first part) p = Ok (p ++ filter (λ q, q ≠ [] ∧ q ≠ str ".") [part]).
Proof.
  intros Hp. unfold component_of. rewrite filter_cons, filter_nil. rewrite (bool_decide_false (part = str "..")) by done.
  repeat case_bool_decide; subst; [..|by rewrite decide_True].
  - rewrite decide_False by tauto. by rewrite app_nil_r.
  - rewrite decide_False by tauto. destruct first; cbn; by rewrite app_nil_r.
Qed.

Lemma components_relative output :
  is_absolute output = false →
  existsb forbidden (components output) = bool_decide (str ".." ∈ split SLASH output).
Proof.
  unfold components. intros ->. cbn [app]. destruct (split SLASH output) as [|part parts]; [done|].
  rewrite existsb_app, forbidden_component. rewrite (bool_decide_ext (str ".." ∈ part :: parts)
    (part = str ".." ∨ str ".." ∈ parts)) by (rewrite elem_of_cons; naive_solver). rewrite bool_decide_or. f_equal.
  induction parts as [|q parts IH]; [done|]. rewrite bind_cons, existsb_app, forbidden_component, IH.
  rewrite <-bool_decide_or. apply bool_decide_ext. rewrite elem_of_cons. naive_solver.
Qed.

Lemma push_all output root :
  is_absolute output = false → str ".." ∉ split SLASH output →
  foldM push_component (components output) root = Ok (root ++ normal_parts output).
Proof.
  unfold components, normal_parts. intros -> H. cbn [app]. destruct (split SLASH output) as [|part parts].
  { cbn. by rewrite app_nil_r. }
  apply not_elem_of_cons in H as [Hp H]. rewrite foldM_app, push_components by done. cbn [rbind].
  change (part :: parts) with ([part] ++ parts). rewrite filter_app, app_assoc.
  generalize (root ++ filter (λ p, p ≠ [] ∧ p ≠ str ".") [part]). clear Hp root.
  induction parts as [|q parts IH]; intros p.
  { cbn. by rewrite app_nil_r. }
  apply not_elem_of_cons in H as [Hq H]. rewrite bind_cons, foldM_app, push_components by done. cbn [rbind].
  rewrite IH by done. change (q :: parts) with ([q] ++ parts). by rewrite filter_app, app_assoc.
Qed.

(** C39: The output directory. It is granted exactly when the argument is relative
    and has no [..], and the resolved directory lies below the resolved working
    directory; the only directory that is made (with its missing parents),
    granted or not, is the working directory followed by the parts of the
    argument. *)
Theorem secure_output_dir_spec env output :
  let clean := is_absolute output = false ∧ str ".." ∉ split SLASH output in
  (∀ d, (secure_output_dir env output).2 = Ok d ↔
     clean ∧ ∃ root root_canon,
       current_dir env = Some root ∧ create_dir_all env (root ++ normal_parts output) = true ∧
       canonicalize env root = Some root_canon ∧ canonicalize env (root ++ normal_parts output) = Some d ∧
       root_canon `prefix_of` d) ∧
  (∀ p, (secure_output_dir env output).1 = Some p →
     clean ∧ ∃ root, current_dir env = Some root ∧ p = root ++ normal_parts output).
Proof.
  intros clean. unfold clean, secure_output_dir. destruct (is_absolute output) eqn:Ha; [naive_solver|].
  rewrite components_relative by done. case_bool_decide as Hp; [naive_solver|].
  destruct (current_dir env) as [root|]; [|naive_solver]. rewrite push_all by done.
  destruct (create_dir_all env (root ++ normal_parts output)) eqn:Hc; cbn.
  2:{ split; [|done]. intros d. split; [done|]. intros (_ & r & rc & [= <-] & ? & _). congruence. }
  split; [|naive_solver]. intros d. rewrite rbind_Ok. setoid_rewrite rbind_Ok. setoid_rewrite ok_or_Ok.
  split.
  - intros (rc & Hrc & oc & Hoc & H). case_bool_decide; [|done]. injection H as ->. naive_solver.
  - intros (_ & root' & rc & [= <-] & _ & Hrc & Hoc & Hpre). exists rc. split; [done|]. exists d. split; [done|].
    by rewrite bool_decide_true.
Qed.

(** ** The generated node files are read back *)

Lemma line_entry_quoted key value :
  tight key → Forall (.≠ Byte.x3d) key → head key ≠ Some Byte.x23 →
  head value ≠ Some QUOTE → last value ≠ Some QUOTE →
  line_entry (key ++ str " = " ++ quoted value) = Some (key, value).
Proof.
  intros Ht He Hc Hh Hl. assert (solid QUOTE) as Hq by by split.
  assert (∀ v, tight (quoted v)) as Hquoted.
  { intros v. exists QUOTE, QUOTE, (v ++ [QUOTE]). split_and!; [done| |done|done].
    unfold quoted. by rewrite app_assoc, last_snoc. }
  pose proof Ht as (a & b & r & -> & Hlast & Ha & Hb).
  assert (trim ((a :: r) ++ str " = " ++ quoted value) = (a :: r) ++ str " = " ++ quoted value) as Htrim.
  { rewrite <-(app_nil_r (_ ++ _)) at 1. change (?x ++ []) with ([] ++ x ++ []). apply trim_tight; [by constructor..|].
    exists a, QUOTE, (r ++ str " = " ++ quoted value). split_and!; [done| |done|done].
    unfold quoted. by rewrite !app_assoc, last_snoc. }
  unfold line_entry. rewrite Htrim. cbn [orb]. rewrite bool_decide_false by done.
  rewrite bool_decide_false by done. cbn [orb].
  change ((a :: r) ++ str " = " ++ quoted value) with ((a :: r) ++ [Byte.x20] ++ Byte.x3d :: Byte.x20 :: quoted value).
  rewrite app_assoc, split_once_found by (apply Forall_app; split; [done|by repeat constructor]).
  rewrite <-(app_nil_l (_ ++ [_])), trim_tight by (try done; by repeat constructor).
  rewrite <-(app_nil_r (_ :: quoted value)). change (Byte.x20 :: quoted value) with ([Byte.x20] ++ quoted value).
  rewrite <-app_assoc, trim_tight by (try done; by repeat constructor).
  do 2 f_equal. by apply trim_matches_quoted.
Qed.

(** A list that says what the lines of a text assign *)
Lemma entries_cons line rest es :
  Forall (.≠ Byte.x0a) line → last line ≠ Some Byte.x0d → entries rest = es →
  entries (line ++ LF ++ rest) = match line_entry line with Some e => e :: es | None => es end.
Proof.
  intros Hl Hr <-. unfold entries. cbn [app LF]. rewrite lines_cons by done. cbn [omap list_omap].
  by destruct (line_entry line).
Qed.

Definition node_entries (idx : Z) (boc : bytes) : list (bytes * bytes) :=
  [(str "role", str "validator"); (str "storage_path", str "target/onxd-node-" ++ decimal idx);
   (str "network_enabled", str "true"); (str "network_bind", str "127.0.0.1:" ++ decimal (10000 + idx * 1000));
   (str "peers", str "127.0.0.1:" ++ decimal (10001 + idx * 1000)); (str "bootstrap_genesis", boc)].

Lemma key_value_entries key value text es :
  Forall (.≠ Byte.x0a) (key ++ str " = " ++ value) → last (key ++ str " = " ++ value) ≠ Some Byte.x0d →
  entries text = es →
  entries (key_value key value ++ text) =
  match line_entry (key ++ str " = " ++ value) with Some e => e :: es | None => es end.
Proof.
  intros Hl Hr He. unfold key_value. rewrite <-!app_assoc, (app_assoc (str " = ")), (app_assoc key).
  by apply entries_cons.
Qed.

Lemma node_text_entries idx boc :
  0 ≤ idx < 4 → Forall (.≠ Byte.x0a) boc → head boc ≠ Some QUOTE → last boc ≠ Some QUOTE →
  entries (node_text idx boc) = node_entries idx boc.
Proof.
  intros Hidx Hl Hh Hq. unfold node_text, node_entries.
  assert (idx = 0 ∨ idx = 1 ∨ idx = 2 ∨ idx = 3) as Hcases by lia.
  assert (entries (key_value (str "bootstrap_genesis") (quoted boc)) = [(str "bootstrap_genesis", boc)]) as Hlast.
  { rewrite <-(app_nil_r (key_value _ _)). rewrite (key_value_entries _ _ [] []).
    - rewrite line_entry_quoted; [done| | |done|done|done].
      + by eexists _, _, _; split_and!; [reflexivity..|split; vm_compute|split; vm_compute].
      + by repeat constructor.
    - unfold quoted. rewrite !Forall_app. split_and!; [..|done| ]; by repeat constructor.
    - unfold quoted. by rewrite !app_assoc, last_snoc.
    - done. }
  destruct Hcases as [-> |[-> |[-> | ->]]];
    repeat (erewrite key_value_entries; [|vm_compute; by repeat constructor|vm_compute; discriminate|]);
    try exact Hlast; vm_compute; reflexivity.
Qed.

#[export] Instance join_inj dir : Inj (=) (=) (join dir).
Proof. intros a b. unfold join. repeat case_bool_decide; intros He; by repeat apply (inj (app _)) in He. Qed.

Lemma write_files_lookup writable ws fs fs' u :
  NoDup ws.*1 → write_files writable ws fs = (fs', Ok u) →
  (∀ p text, (p, text) ∈ ws → fs' !! p = Some text) ∧ (∀ p, p ∉ ws.*1 → fs' !! p = fs !! p).
Proof.
  revert fs. induction ws as [|[p text] ws IH]; intros fs Hnd H.
  { injection H as <- _. split; [set_solver|done]. }
  cbn [write_files] in H. destruct (writable p); [|done]. apply NoDup_cons in Hnd as [Hp Hnd].
  apply IH in H as [Hin Hout]; [|done]. split.
  - intros q t [[= -> ->]|Hq]%elem_of_cons; [|by apply Hin]. rewrite Hout by done. apply lookup_insert_eq.
  - intros q [Hq Hq']%not_elem_of_cons. rewrite Hout by done. by apply lookup_insert_ne.
Qed.

Lemma generated_NoDup c dir : NoDup (generated c dir).*1.
Proof.
  set (names := [str "genesis.boc"; str "shard-header-0.boc"; str "node-0.toml"; str "node-1.toml"; str "node-2.toml"; str "node-3.toml"]).
  assert ((generated c dir).*1 = join dir <$> names) as -> by done.
  apply (NoDup_fmap_2 _). apply (bool_decide_unpack _). by vm_compute.
Qed.

Lemma generate_genesis_lookup creatable writable c dir fs fs' u :
  generate_genesis creatable writable c dir fs = (fs', Ok u) →
  ∀ p text, (p, text) ∈ generated c dir → fs' !! p = Some text.
Proof.
  unfold generate_genesis. destruct (creatable dir); [|done]. intros H p text Hin.
  apply write_files_lookup in H as [Hl _]; [by apply Hl|apply generated_NoDup].
Qed.

(** The genesis file's path, when the directory is text on one line *)
Lemma boc_path_ok dir :
  utf8_valid dir = true → Forall (.≠ Byte.x0a) dir → head dir ≠ Some QUOTE →
  let boc := join dir (str "genesis.boc") in
  utf8_valid boc = true ∧ Forall (.≠ Byte.x0a) boc ∧ head boc ≠ Some QUOTE ∧ last boc ≠ Some QUOTE.
Proof.
  intros Hu Hl Hh. unfold join. repeat case_bool_decide; [by repeat constructor|..].
  all: rewrite !utf8_valid_app, !Forall_app, !last_app by done; destruct dir; [done|];
    split_and!; try done; by repeat constructor.
Qed.

Definition boot_node (idx : Z) (boc : bytes) : OnxdConfig :=
  {| role := ValidatorNode; storage_path := str "target/onxd-node-" ++ decimal idx; network_enabled := true;
     network_bind := str "127.0.0.1:" ++ decimal (10000 + idx * 1000);
     peers := [str "127.0.0.1:" ++ decimal (10001 + idx * 1000)];
     bootstrap_genesis := Some boc; shutdown_after_ms := None |}.

Lemma node_text_valid idx boc : 0 ≤ idx < 4 → utf8_valid boc = true → utf8_valid (node_text idx boc) = true.
Proof.
  intros Hidx Hb. assert (∃ before, node_text idx boc = before ++ boc ++ QUOTE :: LF ∧ utf8_valid before = true)
    as (before & -> & Hv).
  { unfold node_text, key_value at 6, quoted at 5. rewrite <-!app_assoc. rewrite !(app_assoc _ _ (boc ++ _)).
    eexists. split; [reflexivity|]. assert (idx = 0 ∨ idx = 1 ∨ idx = 2 ∨ idx = 3) as Hcases by lia.
    destruct Hcases as [-> |[-> |[-> | ->]]]; by vm_compute. }
  by rewrite !utf8_valid_app.
Qed.

(** What the generator leaves for the four boot nodes: loading a node's file
    gives exactly the configuration that was meant for it, with the genesis file
    that was written as its bootstrap, which passes the check at the start of a
    node. No node has the address of a generated node among its peers: the
    generator names port [10001 + 1000 * idx] where nodes bind
    [10000 + 1000 * idx]. *)
Theorem genesis_nodes_load creatable writable c dir fs fs' :
  generate_genesis creatable writable c dir fs = (fs', Ok tt) →
  utf8_valid dir = true → Forall (.≠ Byte.x0a) dir → head dir ≠ Some QUOTE →
  ∀ idx, 0 ≤ idx < 4 →
  let node := boot_node idx (join dir (str "genesis.boc")) in
  load_config (fs' !!.) (node_file dir idx) = Ok node ∧
  check_bootstrap (fs' !!.) node = Ok tt ∧
  ∀ other, 0 ≤ other < 4 → network_bind (boot_node other (join dir (str "genesis.boc"))) ∉ peers node.
Proof.
  intros Hgen Hu Hl Hh idx Hidx node. pose proof (generate_genesis_lookup _ _ _ _ _ _ _ Hgen) as Hfiles.
  destruct (boc_path_ok dir Hu Hl Hh) as (Hbu & Hbl & Hbh & Hbq).
  set (boc := join dir (str "genesis.boc")) in *. split_and!.
  - rewrite load_config_spec. rewrite (Hfiles _ (node_text idx boc)).
    2:{ unfold generated. apply elem_of_app. right. apply list_elem_of_fmap. exists idx. split; [done|].
        apply elem_of_seqZ. lia. }
    rewrite node_text_valid, node_text_entries by done.
    assert (idx = 0 ∨ idx = 1 ∨ idx = 2 ∨ idx = 3) as [-> |[-> |[-> | ->]]] by lia; vm_compute; reflexivity.
  - unfold check_bootstrap. cbn [bootstrap_genesis node boot_node]. rewrite (Hfiles boc (genesis_text c)) by set_solver.
    done.
  - intros other Ho Hin. unfold node in Hin. cbn [network_bind peers boot_node] in Hin.
    apply list_elem_of_singleton in Hin. apply (inj (app _)) in Hin.
    apply decimal_inj in Hin; lia.
Qed.

(** ** The generated network *)

Section boot.
Context {C : Crypto} `{!CryptoLaws C} {P : Prometheus} {L : PrometheusLaws P} {T : Tracing} {SocketAddr : Type}.

(** C37: A boot node, from the generator's files to its loop. When the generator
    succeeds, the file of each of the four nodes loads to the configuration meant
    for it. A node that is started from it on an empty store, in a process of its
    own and a system that makes its directory and binds its address, starts; and
    however long it runs, it never aborts and never finalizes a block: its metrics
    show height zero and one connected peer, while it knows no contact and holds
    no session, and only its round advances, at most once in three seconds. Its
    only peer is not the address of any of the four. *)
Theorem boot_node_history creatable writable c dir fs fs' (env : NodeEnv (SocketAddr:=SocketAddr)) :
  generate_genesis creatable writable c dir fs = (fs', Ok tt) →
  utf8_valid dir = true → Forall (.≠ Byte.x0a) dir → head dir ≠ Some QUOTE →
  ∀ idx, 0 ≤ idx < 4 →
  ∃ node, load_config (fs' !!.) (node_file dir idx) = Ok node ∧
    (∀ other, 0 ≤ other < 4 → str "127.0.0.1:" ++ decimal (10000 + other * 1000) ∉ peers node) ∧
    (make_dir env (str "target/onxd-node-" ++ decimal idx) = true →
     (∀ p, read_file env p = fs' !! p) →
     (∃ addr, parse_addr env (str "127.0.0.1:" ++ decimal (10000 + idx * 1000)) = Some addr ∧
              bindable env addr = true) →
     ∃ n, (start_daemon env node ∅ new_registry).2 = Ok (Some n) ∧
       ∀ clock, ∃ n', node_run clock n = Ok n' ∧ e_finalized (engine n') = None ∧
         concat (Dht.buckets (dht n')) = [] ∧ Adnl.sessions (adnl n') = ∅ ∧
         readings (registry n') !! str "current_block_height" = Some (Level (i64_as_f64 0)) ∧
         readings (registry n') !! str "connected_peer_count" = Some (Level (i64_as_f64 1)) ∧
         3 * e_round (engine n') ≤ foldr Z.max 0 clock).
Proof.
  intros Hgen Hu Hl Hh idx Hidx.
  destruct (genesis_nodes_load _ _ _ _ _ _ Hgen Hu Hl Hh idx Hidx) as (Hload & Hboot & Hpeers).
  eexists. split; [exact Hload|]. split; [exact Hpeers|]. intros Hdir Hread Haddr.
  destruct TelemetryHandle_new_fresh as [h Hh'].
  eexists. split.
  - apply start_daemon_spec. split_and!; [exact Hdir|done| |done|exact Haddr|by exists h].
    revert Hboot. unfold check_bootstrap. cbn [bootstrap_genesis boot_node]. by rewrite Hread.
  - intros clock. match goal with |- context [first_state h ?r] => destruct
      (node_idles (SocketAddr:=SocketAddr) h r clock) as (n' & evs & Hrun & Hf & _ & Hd & Hs & Hreg & Hevs & Hr & Ht) end.
    exists n'. rewrite Hreg.
    destruct (node_metrics new_registry h (as_i 64 (len (peers (boot_node idx (join dir (str "genesis.boc")))))) evs Hh' Hevs)
      as (Hm1 & Hm2 & _).
    split_and!; [exact Hrun|exact Hf|exact Hd|exact Hs|exact Hm1|exact Hm2|lia].
Qed.
End boot.

Definition sample_generated : gmap bytes bytes * result GenesisError unit :=
  generate_genesis (λ _, true) (λ _, true) GenesisConfig_default (str "/srv/onx") ∅.

Definition sample_env : NodeEnv (SocketAddr:=bytes) :=
  {| read_file := (sample_generated.1 !!.); make_dir := λ _, true; parse_addr := Some; bindable := λ _, true;
     sigterm_installs := true |}.

Lemma boot_node_history_witness :
  sample_generated.2 = Ok tt ∧
  ∃ node, load_config (sample_generated.1 !!.) (str "/srv/onx/node-2.toml") = Ok node ∧
    ∃ n, (start_daemon (C:=toy_crypto) (P:=toy_prometheus) sample_env node ∅ new_registry).2 = Ok (Some n).
Proof.
  split; [reflexivity|].
  destruct (boot_node_history (C:=toy_crypto) (P:=toy_prometheus) (T:=toy_tracing) (λ _, true) (λ _, true) GenesisConfig_default (str "/srv/onx") ∅
    sample_generated.1 sample_env) with (idx := 2) as (node & Hload & _ & Hstart).
  - reflexivity.
  - reflexivity.
  - by repeat constructor.
  - discriminate.
  - lia.
  - exists node. split; [exact Hload|]. destruct Hstart as (n & Hn & _).
    + reflexivity.
    + reflexivity.
    + exists (str "127.0.0.1:12000"). split; reflexivity.
    + exists n. exact Hn.
Defined.

(** ** The genesis text determines what it was generated from *)

Definition COLON : byte := Byte.x3a.
Definition SEMICOLON : byte := Byte.x3b.

(** Text without the separators of the list and of the lines *)
Definition plain_field (v : bytes) : Prop := Forall (λ b, b ≠ SEMICOLON ∧ b ≠ Byte.x0a) v.

Definition balance_clean (b : Balance) : Prop := plain_field (address b) ∧ 0 ≤ amount b < 2 ^ 64.
Definition validator_clean (v : Validator) : Prop := plain_field (public_key v) ∧ 0 ≤ stake v < 2 ^ 64.
Definition workchain_clean (w : Workchain) : Prop :=
  0 ≤ id w < 2 ^ 32 ∧ plain_field (name w) ∧ Forall (.≠ COLON) (name w) ∧ plain_field (shard_prefix w).

Record config_clean (c : GenesisConfig) : Prop := {
  clean_balances : Forall balance_clean (balances c);
  clean_validators : Forall validator_clean (validators c);
  clean_workchains : Forall workchain_clean (workchains c);
}.

Lemma decimal_plain n : plain_field (decimal n).
Proof.
  eapply Forall_impl; [apply decimal_digits|]. intros b [d Hd]. split; intros ->; discriminate Hd.
Qed.

Lemma bool_text_plain b : plain_field (bool_text b).
Proof. destruct b; by repeat constructor. Qed.

(** A line of entries, each ended by a semicolon that none of them holds *)
Section segments.
Context {A : Type} (entry body : A → bytes) (P : A → Prop).
Hypothesis entry_body : ∀ a, entry a = body a ++ [SEMICOLON].
Hypothesis body_plain : ∀ a, P a → plain_field (body a).
Hypothesis body_inj : ∀ a b, P a → P b → body a = body b → a = b.

Lemma entries_inj l k :
  Forall P l → Forall P k → concat (entry <$> l) = concat (entry <$> k) → l = k.
Proof using All.
  assert (∀ a, P a → Forall (.≠ SEMICOLON) (body a)) as Hsep.
  { intros a Ha. eapply Forall_impl; [by apply body_plain|]. naive_solver. }
  intros Hl. revert k. induction Hl as [|a l Ha _ IH]; intros [|b k] Hk;
    rewrite ?fmap_cons; cbn [concat]; rewrite ?entry_body; intros He.
  - done.
  - by destruct (body b).
  - by destruct (body a).
  - apply Forall_cons in Hk as [Hb Hk]. rewrite <-!app_assoc in He. cbn [app] in He.
    apply split_once_inj in He as [Ht He]; [|by apply Hsep..]. f_equal; [by apply body_inj|by apply IH].
Qed.

Lemma entries_line l : Forall P l → Forall (.≠ Byte.x0a) (concat (entry <$> l)).
Proof using entry_body body_plain.
  induction 1 as [|a l Ha _ IH]; [constructor|]. rewrite fmap_cons. cbn [concat]. rewrite entry_body.
  rewrite !Forall_app. split_and!; [|by repeat constructor|done].
  eapply Forall_impl; [by apply body_plain|naive_solver].
Qed.

Lemma entry_line_inj l k r r' :
  Forall P l → Forall P k → concat (entry <$> l) ++ LF ++ r = concat (entry <$> k) ++ LF ++ r' → l = k ∧ r = r'.
Proof using All.
  intros Hl Hk H. apply split_once_inj in H as [He Hr]; [|by apply entries_line..].
  split; [by apply entries_inj|done].
Qed.
End segments.

(** The last colon of [name ++ ":" ++ number] *)
Lemma last_colon_inj (a b d e : bytes) :
  Forall (.≠ COLON) d → Forall (.≠ COLON) e → a ++ COLON :: d = b ++ COLON :: e → a = b ∧ d = e.
Proof.
  intros Hd He H. apply (f_equal (@rev _)) in H. rewrite !rev_app_distr in H. cbn [rev] in H.
  rewrite <-!app_assoc in H. cbn [app] in H.
  apply split_once_inj in H as [Hr1 Hr2]; [|by apply Forall_rev..].
  by rewrite <-(rev_involutive a), Hr2, <-(rev_involutive d), Hr1, !rev_involutive.
Qed.

Lemma named_number_inj (a b : bytes) m n :
  0 ≤ m < 2 ^ 64 → 0 ≤ n < 2 ^ 64 → a ++ COLON :: decimal m = b ++ COLON :: decimal n → a = b ∧ m = n.
Proof.
  intros Hm Hn H. apply last_colon_inj in H as [-> H]; [|by apply decimal_no..]. split; [done|].
  by apply decimal_inj.
Qed.

Lemma bool_text_no_colon b : Forall (.≠ COLON) (bool_text b).
Proof. destruct b; by repeat constructor. Qed.

Definition balance_body (b : Balance) : bytes := address b ++ COLON :: decimal (amount b).
Definition validator_body (v : Validator) : bytes := public_key v ++ COLON :: decimal (stake v).
Definition workchain_body (w : Workchain) : bytes :=
  decimal (id w) ++ COLON :: name w ++ COLON :: shard_prefix w ++ COLON :: bool_text (enabled w).

Lemma balance_text_body b : balance_text b = balance_body b ++ [SEMICOLON].
Proof. unfold balance_text, balance_body. by rewrite <-app_assoc. Qed.
Lemma validator_text_body v : validator_text v = validator_body v ++ [SEMICOLON].
Proof. unfold validator_text, validator_body. by rewrite <-app_assoc. Qed.
Lemma workchain_text_body w : workchain_text w = workchain_body w ++ [SEMICOLON].
Proof. unfold workchain_text, workchain_body. cbn [app]. by repeat (rewrite <-app_assoc; cbn [app]). Qed.

Lemma balance_body_inj a b : balance_clean a → balance_clean b → balance_body a = balance_body b → a = b.
Proof.
  intros [_ Ha] [_ Hb] [H1 H2]%named_number_inj; [|done..]. destruct a, b; cbn in *; congruence.
Qed.

Lemma validator_body_inj a b : validator_clean a → validator_clean b → validator_body a = validator_body b → a = b.
Proof.
  intros [_ Ha] [_ Hb] [H1 H2]%named_number_inj; [|done..]. destruct a, b; cbn in *; congruence.
Qed.

Lemma workchain_body_inj v w :
  workchain_clean v → workchain_clean w → workchain_body v = workchain_body w → v = w.
Proof.
  intros (Hi & _ & Hn & _) (Hi' & _ & Hn' & _) H. unfold workchain_body in H.
  apply split_once_inj in H as [Hid H]; [|by apply decimal_no..]. apply decimal_inj in Hid; [|lia..].
  apply split_once_inj in H as [Hname H]; [|done..].
  apply last_colon_inj in H as [Hpre Hen]; [|apply bool_text_no_colon..].
  destruct v as [i n p e], w as [i' n' p' e']. cbn in *. subst. by destruct e, e'.
Qed.

Lemma plain_cons b v : b ≠ SEMICOLON → b ≠ Byte.x0a → plain_field v → plain_field (b :: v).
Proof. by repeat constructor. Qed.

Lemma plain_app v w : plain_field v → plain_field w → plain_field (v ++ w).
Proof. intros. by apply Forall_app. Qed.

Create HintDb plain discriminated.
#[local] Hint Resolve plain_app plain_cons decimal_plain bool_text_plain : plain.
#[local] Hint Extern 1 (_ ≠ _) => discriminate : plain.

Lemma balance_body_plain b : balance_clean b → plain_field (balance_body b).
Proof. intros [? _]. unfold balance_body. auto with plain. Qed.
Lemma validator_body_plain v : validator_clean v → plain_field (validator_body v).
Proof. intros [? _]. unfold validator_body. auto with plain. Qed.
Lemma workchain_body_plain w : workchain_clean w → plain_field (workchain_body w).
Proof. intros (_ & ? & _ & ?). unfold workchain_body. auto 10 with plain. Qed.

(** Two configurations whose names hold no semicolon and no line feed, nor a
    colon in the name of a workchain, have the same genesis text only if they are
    the same. *)
Theorem genesis_text_inj c d :
  config_clean c → config_clean d → genesis_text c = genesis_text d → c = d.
Proof.
  intros [Hb Hv Hw] [Hb' Hv' Hw'] H. unfold genesis_text in H.
  do 4 apply (inj (app _)) in H. apply (inj (app (str "validator_keys="))) in H.
  eapply (entry_line_inj validator_text) in H as [Hval H];
    [|exact validator_text_body|exact validator_body_plain|exact validator_body_inj|done..].
  apply (inj (app _)) in H.
  eapply (entry_line_inj balance_text) in H as [Hbal H];
    [|exact balance_text_body|exact balance_body_plain|exact balance_body_inj|done..].
  apply (inj (app _)) in H.
  eapply (entry_line_inj workchain_text _ _ workchain_text_body workchain_body_plain workchain_body_inj _ _ [] []) in H
    as [Hwc _]; [|done..].
  destruct c, d; cbn in *; congruence.
Qed.

Lemma genesis_text_inj_witness :
  config_clean GenesisConfig_default ∧ ∀ d, config_clean d →
  genesis_text GenesisConfig_default = genesis_text d → GenesisConfig_default = d.
Proof.
  assert (config_clean GenesisConfig_default) as Hc.
  { split; (constructor; [|constructor]); by repeat constructor. }
  split; [exact Hc|]. intros d Hd. exact (genesis_text_inj GenesisConfig_default d Hc Hd).
Defined.
