(* ===== verification/Rpc.v ===== *)
(** [onx-rpc], [lib.rs]: the gateway's requests and answers. JSON parsing and
    printing, the HTTP server and the derived [Debug] text of an account state
    are code of others: the first two are not modelled, the last is a parameter. *)
From S2P Require Import Prelude Bytes Machine Text Primitives ToyCrypto Cell Boc Account Tree.

(** [serde_json::Value]; a number by its text. The keys of an object are unique. *)
#[warnings="-register-all"]
Inductive Value : Type :=
  | Null
  | Bool (b : bool)
  | Number (text : bytes)
  | VString (s : bytes)
  | Array (l : list Value)
  | Object (m : list (bytes * Value)).

Definition object_get (key : bytes) (m : list (bytes * Value)) : option Value :=
  snd <$> (list_find (λ e, e.1 = key) m ≫= λ p, Some p.2).

(** [Value::get] of a string key *)
Definition value_get (key : bytes) (v : Value) : option Value :=
  match v with Object m => object_get key m | _ => None end.

Definition as_str (v : Value) : option bytes := match v with VString s => Some s | _ => None end.

(** [v.get(key).and_then(as_str).unwrap_or_default()] *)
Definition str_field (key : bytes) (v : Value) : bytes := default [] (value_get key v ≫= as_str).

Record RpcConfig : Type := { bind : bytes; cors_allowed_origin : bytes; max_rps : Z }.

Definition RpcConfig_default : RpcConfig :=
  {| bind := str "127.0.0.1:8080"; cors_allowed_origin := str "*"; max_rps := 60 |}.

Record RpcResponse : Type := { status : Z; ok : bool; result_value : Value }.

Definition zero : Value := Number (str "0").

Section gateway.
Context {C : Crypto} (debug : AccountState → bytes).

Record RpcGateway : Type := {
  config : RpcConfig;
  storage : gmap bytes AccountState;
  throttle : gmap bytes Z;
}.

Definition gateway_new (c : RpcConfig) : RpcGateway := {| config := c; storage := ∅; throttle := ∅ |}.

Definition get_account_state (g : RpcGateway) (address : bytes) : result bytes Value :=
  let answer text :=
    Object [(str "balance", zero); (str "address", VString address); (str "account_state", VString text)] in
  match storage g !! address with
  | Some state => Ok (answer (debug state))
  | None => Ok (answer (str "uninitialized"))
  end.

Definition send_message (g : RpcGateway) (raw_boc : bytes) : result bytes Value :=
  if bool_decide (trim raw_boc = []) then Err (str "empty raw_boc payload")
  else if max_rps (config g) <=? default 0 (throttle g !! raw_boc) then Err (str "rate limit exceeded")
  else Ok (Object [(str "accepted", Bool true);
                   (str "message_hash", VString (str "sha256:deterministic-synthetic")); (str "fee", zero)]).

Definition get_latest_block (g : RpcGateway) : result bytes Value :=
  Ok (Object [(str "block", zero); (str "workchain", zero);
              (str "shard", VString (str "0x8000_0000_0000_0000")); (str "root_hash", VString (str "0x00"))]).

Definition estimate_fee (g : RpcGateway) (raw_boc : bytes) : result bytes Value :=
  Ok (Object [(str "fee", zero); (str "gas_used", zero); (str "accepted", Bool true)]).

Definition rpc_json (g : RpcGateway) (payload : Value) : result bytes RpcResponse :=
  let method := str_field (str "method") payload in
  let params := default (Object []) (value_get (str "params") payload) in
  let response :=
    if bool_decide (method = str "getAccountState") then get_account_state g (str_field (str "address") params)
    else if bool_decide (method = str "sendMessage") then send_message g (str_field (str "raw_boc") params)
    else if bool_decide (method = str "getLatestBlock") then get_latest_block g
    else if bool_decide (method = str "estimateFee") then estimate_fee g (str_field (str "raw_boc") params)
    else Ok (Object [(str "error", VString (str "unknown_method"))]) in
  match response with
  | Ok v => Ok {| status := 200; ok := true; result_value := v |}
  | Err e => Ok {| status := 400; ok := false; result_value := Object [(str "error", VString e)] |}
  | Panic => Panic
  end.

Definition empty_cell : Cell := {| data_bytes := []; cell_refs := []; is_special := false |}.

Definition lite_proof : result StateModelError MerkleProof :=
  let? cell := Cell_new [] [] in
  let? boc := from_root cell in
  Ok {| magic_bytes := 0x4D505246; target_key := replicate 32 (byte_of 0);
        proof_root_hash := replicate 32 (byte_of 0); proof_boc := boc |}.

(** The bag has one cell, so the order of its map is that cell. *)
Definition lite_binary : result StateModelError bytes :=
  let? p := lite_proof in Ok (MerkleProof_to_bytes (map_to_list (boc_cells (proof_boc p))) p).
End gateway.

(** ** What the gateway answers *)

Section gateway_proofs.
Context {C : Crypto} `{!CryptoLaws C} (debug : AccountState → bytes).

(** A new gateway, which no request changes. Every request is answered; the
    answer has status 400 only for [sendMessage] with a blank message, or when
    the configured rate is zero: no count is ever kept, so a positive rate limits
    nothing. An account is always reported uninitialized. *)
Theorem gateway_answers c payload :
  0 ≤ max_rps c →
  ∃ r, rpc_json debug (gateway_new c) payload = Ok r ∧
    let raw := str_field (str "raw_boc") (default (Object []) (value_get (str "params") payload)) in
    (status r = 200 ∧ ok r = true ∨ status r = 400 ∧ ok r = false) ∧
    (status r = 400 ↔ str_field (str "method") payload = str "sendMessage" ∧ (trim raw = [] ∨ max_rps c = 0)) ∧
    (str_field (str "method") payload = str "getAccountState" →
     value_get (str "account_state") (result_value r) = Some (VString (str "uninitialized"))).
Proof.
  intros Hc. unfold rpc_json.
  set (method := str_field (str "method") payload). set (params := default (Object []) _).
  assert (∀ r, status r = 200 → ok r = true → method ≠ str "getAccountState" ∨
      value_get (str "account_state") (result_value r) = Some (VString (str "uninitialized")) →
    ¬ (method = str "sendMessage" ∧ (trim (str_field (str "raw_boc") params) = [] ∨ max_rps c = 0)) →
    (status r = 200 ∧ ok r = true ∨ status r = 400 ∧ ok r = false) ∧
    (status r = 400 ↔ method = str "sendMessage" ∧ (trim (str_field (str "raw_boc") params) = [] ∨ max_rps c = 0)) ∧
    (method = str "getAccountState" →
     value_get (str "account_state") (result_value r) = Some (VString (str "uninitialized")))) as Hgood.
  { intros r -> -> Hv Hn. split_and!; [by left|split; [done|tauto]|tauto]. }
  case_bool_decide as H1.
  { eexists. split; [reflexivity|]. apply Hgood; [done|done|by right|rewrite H1; by intros [? _]]. }
  case_bool_decide as H2.
  { unfold send_message. cbn [config throttle gateway_new]. rewrite lookup_empty. cbn [default from_option id].
    case_bool_decide as Ht; [|destruct (Z.leb_spec (max_rps c) 0)]; (eexists; split; [reflexivity|]).
    3: apply Hgood; [done|done|by left|intros [_ [?|?]]; [done|lia]].
    all: cbn; split_and!; [by right| |done]; split; [intros _; split; [done|]|done].
    - by left.
    - right; lia. }
  assert (method ≠ str "getAccountState" ∧ ¬ (method = str "sendMessage" ∧
    (trim (str_field (str "raw_boc") params) = [] ∨ max_rps c = 0))) as [Hl Hr] by (split; [done|by intros [? _]]).
  repeat case_bool_decide; (eexists; split; [reflexivity|]; apply Hgood; [done|done|by left|done]).
Qed.

(** ** The proof that [/lite] serves *)

Lemma single_cell_valid c :
  Cell_wf c → cell_refs c = [] →
  boc_valid {| boc_root_hash := cell_hash c; boc_cells := {[ cell_hash c := c ]} |}.
Proof.
  intros Hwf Hc. split; [|split]; cbn [boc_cells boc_root_hash].
  - intros h d Hd. by apply lookup_singleton_Some in Hd as [<- <-].
  - exists c. apply lookup_singleton_eq.
  - intros x _ Hx. destruct Hx as [x y He|x y z He _];
      destruct He as (d & [_ <-]%lookup_singleton_Some & Hin); rewrite Hc in Hin; set_solver.
Qed.

(** The proof is well encoded, but its root hash is zero where its only cell has
    another hash: reading it back fails, unless that hash is zero. *)
Theorem lite_proof_refused :
  ∃ p bs, lite_proof = Ok p ∧ lite_binary = Ok bs ∧
    MerkleProof_from_bytes bs =
    if bool_decide (cell_hash empty_cell = replicate 32 (byte_of 0)) then Ok (p, len bs) else Err InvalidMerkleProof.
Proof.
  pose proof (single_cell_valid empty_cell ltac:(by repeat constructor) eq_refl) as Hv.
  set (p := {| magic_bytes := 0x4D505246; target_key := replicate 32 (byte_of 0);
    proof_root_hash := replicate 32 (byte_of 0);
    proof_boc := {| boc_root_hash := cell_hash empty_cell; boc_cells := {[ cell_hash empty_cell := empty_cell ]} |} |}).
  set (order := map_to_list (boc_cells (proof_boc p))).
  exists p, (MerkleProof_to_bytes order p). split; [reflexivity|]. split; [reflexivity|].
  assert (order = [(cell_hash empty_cell, empty_cell)]) as Ho by apply map_to_list_singleton.
  rewrite <-(app_nil_r (MerkleProof_to_bytes order p)) at 1. rewrite MerkleProof_from_to.
  - case_bool_decide as Hz.
    + by rewrite (proj2 (proof_verify_Ok p)) by (split_and!; [done|exact Hz|apply Hv]).
    + unfold proof_verify. change (magic_bytes p =? MERKLE_PROOF_MAGIC) with true. cbn [negb].
      rewrite (proj2 (verify_dag_acyclic (proof_boc p))) by apply Hv. cbn [rbind].
      by rewrite bool_decide_false by exact Hz.
  - split; by vm_compute.
  - done.
  - done.
  - exact Hv.
  - apply map_Forall_singleton, cell_hash_len.
  - done.
  - by rewrite Ho.
Qed.
End gateway_proofs.

Lemma gateway_answers_witness :
  ∃ r, rpc_json (λ _, []) (gateway_new RpcConfig_default)
         (Object [(str "method", VString (str "getLatestBlock"))]) = Ok r ∧ (status r = 200 ∧ ok r = true ∨ status r = 400 ∧ ok r = false).
Proof.
  destruct (gateway_answers (λ _, []) RpcConfig_default
    (Object [(str "method", VString (str "getLatestBlock"))])) as (r & Hr & Hs & _).
  - discriminate.
  - exists r. split; [exact Hr|exact Hs].
Defined.
