(* ===== verification/ErrorText.v ===== *)
(** The texts of errors: [fmt::Display] in the error.rs of onx-primitives,
    onx-data-structures, onx-transactions and onx-blocks, and in the lib.rs of the
    crates that keep their errors there. Errors of the state model and of the store
    carry messages that are not modelled, and have no text here. *)
From S2P Require Import Prelude Bytes Machine Text Primitives Address Message Admission Blocks Sync Consensus Sharding Economics Values Channels Network.

(** [fmt::Display], by [to_string] *)
Class Display (E : Type) : Type := to_string : E → bytes.

(** ** Numbers and byte strings in texts *)

(** [{:0n$x}] of an integer below [16 ^ n] *)
Definition lower_hex_digit (d : Z) : byte := if d <? 10 then byte_of (48 + d) else byte_of (87 + d).
Fixpoint lower_hex (n : nat) (z : Z) : bytes :=
  match n with
  | O => []
  | S n => lower_hex n (z / 16) ++ [lower_hex_digit (z mod 16)]
  end.

(** [{}] of a [u128] *)
Definition decimal_u128 (n : Z) : bytes := decimal_go 39 n [].

(** [items.join(sep)] *)
Fixpoint join_texts (sep : bytes) (items : list bytes) : bytes :=
  match items with
  | [] => []
  | [x] => x
  | x :: items => x ++ sep ++ join_texts sep items
  end.

(** [{:?}] of bytes and of a [Uint256] *)
Definition debug_bytes (v : bytes) : bytes := str "[" ++ join_texts (str ", ") ((λ b, decimal (byte_val b)) <$> v) ++ str "]".
Definition debug_uint256 (h : bytes) : bytes := str "Uint256(" ++ debug_bytes h ++ str ")".

(** [{:?}] of a message type *)
Definition debug_message_type (t : MessageType) : bytes :=
  match t with
  | Internal => str "Internal"
  | ExternalInbound => str "ExternalInbound"
  | ExternalOutbound => str "ExternalOutbound"
  end.

(** ** The texts *)

Definition PrimitiveError_fmt (e : PrimitiveError) : bytes :=
  match e with
  | Truncated expected actual => str "truncated input: expected " ++ decimal expected ++ str " bytes, got " ++ decimal actual
  | TrailingBytes consumed actual =>
      str "trailing bytes: consumed " ++ decimal consumed ++ str " of " ++ decimal actual ++ str " available bytes"
  | LengthOutOfRange declared max => str "length prefix " ++ decimal declared ++ str " exceeds maximum " ++ decimal max
  | NonCanonicalEncoding => str "non-canonical point or scalar encoding"
  | InvalidDomainTag => str "invalid domain separation tag"
  | SignatureVerificationFailed => str "signature verification failed"
  end.
#[export] Instance PrimitiveError_display : Display PrimitiveError := PrimitiveError_fmt.

Definition DataStructureError_fmt (e : DataStructureError) : bytes :=
  match e with
  | Primitive e => str "Primitive error: " ++ to_string e
  | InvalidShardMarker => str "Invalid shard identifier: missing binary '1' marker bit"
  | ShardPrefixLengthExceeded length => str "Shard prefix length " ++ decimal length ++ str " exceeds maximum of 60 bits"
  | AddressShardMismatch => str "Account address does not match active shard prefix"
  | InvalidMessageType tag => str "Invalid message type tag: 0x" ++ lower_hex 2 tag
  | HeaderMagicMismatch magic =>
      str "Header magic constructor mismatch: expected 0x1F2E3D4C, got 0x" ++ lower_hex 8 magic
  | MergeParentReferenceInconsistency =>
      str "Merge parent reference inconsistency between prev_ref_hash_2 and MERGE_RESULT flag"
  | TruncatedInput expected got =>
      str "Truncated input: expected at least " ++ decimal expected ++ str " bytes, got " ++ decimal got
  | DSTrailingBytes remaining => str "Unexpected trailing bytes: " ++ decimal remaining ++ str " bytes left"
  end.
#[export] Instance DataStructureError_display : Display DataStructureError := DataStructureError_fmt.

Definition TransactionsError_fmt (e : TransactionsError) : bytes :=
  match e with
  | WrongMessageType expected actual =>
      str "message admitted via wrong handler: expected " ++ debug_message_type expected ++ str ", got " ++
      debug_message_type actual
  | NonZeroExternalValue => str "External Inbound message carries non-zero value"
  | UnsortedExtraCurrencies => str "extra_currencies pairs are not in strictly ascending currency_id order"
  | DuplicateCurrencyId currency_id => str "extra_currencies contains duplicate currency_id " ++ decimal currency_id
  | TentativeSignatureInvalid => str "External Inbound message failed tentative signature verification"
  | TentativeGasLimitExceeded used limit =>
      str "tentative execution gas " ++ decimal used ++ str " exceeds MAX_TENTATIVE_GAS " ++ decimal limit
  | InternalSourceNotActive => str "Internal message source account is not Active"
  | DuplicateDelivery => str "message representation hash already present in processed_msg_hashes"
  | FifoOrderViolation previous_lt next_lt =>
      str "FIFO order violation: lt " ++ decimal next_lt ++ str " did not strictly follow lt " ++ decimal previous_lt
  | TxLogicalTimeRegression previous_lt next_lt =>
      str "logical time regression in output-queue lane: lt " ++ decimal next_lt ++ str " <= previous lt " ++
      decimal previous_lt
  | IncompatibleRoute => str "hypercube route requires equal-depth shards in one workchain"
  | RouteEndpointMismatch => str "message endpoint does not belong to its routing shard"
  | InvalidHypercubeHop => str "route contains a non-neighboring hypercube hop"
  | InsufficientTransitFee available required =>
      str "message value " ++ decimal_u128 available ++ str " is insufficient for transit fee " ++ decimal_u128 required
  | ExpiryOverflow => str "cross-workchain message expiry overflows logical time"
  end.
#[export] Instance TransactionsError_display : Display TransactionsError := TransactionsError_fmt.

Definition BlocksError_fmt (e : BlocksError) : bytes :=
  match e with
  | DataStructure e => str "data structure error: " ++ to_string e
  | UnresolvableParent => str "declared parent reference does not match the resolved parent block"
  | SequenceDiscontinuity expected actual =>
      str "sequence discontinuity: expected seq_no " ++ decimal expected ++ str ", got " ++ decimal actual
  | NonMonotonicTime => str "non-monotonic time: gen_utime regressed or start_lt/end_lt is inconsistent"
  | BStateRootMismatch => str "recomputed root does not match header's declared value"
  | ConflictingSplitMergeFlags flags =>
      str "more than one split/merge announcement flag set: 0x" ++ lower_hex 4 flags
  | ReservedFlagBitSet flags => str "reserved flags bit set: 0x" ++ lower_hex 4 flags
  | InvalidSuccessorAfterCommit =>
      str "block claims an ordinary successor relationship to a SPLIT_COMMIT/MERGE_COMMIT parent"
  | UnsortedShardEntries => str "Masterchain Block Extra shard_entries are not sorted"
  | DuplicateShardEntry => str "Masterchain Block Extra contains more than one entry for the same shard"
  | InvalidMasterchainReference => str "master_ref_hash does not resolve correctly"
  end.
#[export] Instance BlocksError_display : Display BlocksError := BlocksError_fmt.

Definition SyncError_fmt (e : SyncError) : bytes :=
  match e with
  | BlockError e => str "block validation failed: " ++ to_string e
  | DuplicateBlock h => str "block " ++ debug_uint256 h ++ str " is already indexed"
  | MissingParent h => str "parent block " ++ debug_uint256 h ++ str " is unavailable"
  | MissingMasterchainProof h => str "masterchain block " ++ debug_uint256 h ++ str " is unavailable"
  | MissingMasterchainExtra => str "masterchain block has no shard configuration"
  | UnexpectedMasterchainExtra => str "shardchain block carries masterchain-only data"
  | MissingCanonicalityProof => str "shardchain block has no canonicality proof"
  | UnexpectedCanonicalityProof => str "masterchain block carries a canonicality proof"
  | InvalidCanonicalityProof h => str "masterchain block " ++ debug_uint256 h ++ str " does not commit the shard block"
  end.
#[export] Instance SyncError_display : Display SyncError := SyncError_fmt.

Definition ConsensusError_fmt (e : ConsensusError) : bytes :=
  match e with
  | InvalidCandidateStake => str "Proposed candidate stake must be greater than zero"
  | InvalidLoadFactor => str "Load factor out of valid range"
  | DuplicateCandidate => str "Candidate public key was submitted more than once"
  | EmptyValidatorSet => str "Validator election produced no active validators"
  | InsufficientQuorumStake => str "Signed stake is less than 2/3 BFT quorum threshold"
  | Consensus.InvalidSignature => str "Invalid validator signature"
  | DuplicateValidatorSignature => str "Duplicate validator signature in vote aggregation"
  | InvalidSignatureDepth => str "Signature depth exceeds block sequence number"
  | InvalidityProofVerificationFailed => str "Invalidity proof verification failed"
  | ChallengeWindowExpired => str "Block age exceeds 2-month challenge window"
  | DoubleSigningDetected => str "Double-signing misconduct detected"
  | UnknownValidator => str "Vote was submitted by a validator outside the task group"
  | InvalidLeader => str "Proposal was not signed by the scheduled leader"
  | InvalidRound => str "Consensus message belongs to a different round"
  | InvalidStep => str "Consensus message is invalid for the current step"
  | ConflictingProposal => str "A different block was proposed for the active round"
  end.
#[export] Instance ConsensusError_display : Display ConsensusError := ConsensusError_fmt.

Definition ShardingError_fmt (e : ShardingError) : bytes :=
  match e with
  | InvalidShardPrefixLength => str "Shard prefix length exceeds maximum limit of 60 bits"
  | NonPartitioningLeaves => str "Active shard leaves do not form a non-overlapping partition"
  | AnnouncementSequenceViolation => str "Split or merge announcement commit timing rule violated"
  | TaskGroupDriftExceeded => str "Validator task-group assignment drift exceeds 1 rotation"
  | InvalidMergeSiblings => str "Merging shards are not valid binary siblings"
  | AccountOutsideShard => str "Account does not belong to the source shard"
  | MessageOutsideShard => str "Pending message destination does not belong to the source shard"
  end.
#[export] Instance ShardingError_display : Display ShardingError := ShardingError_fmt.

Definition EconomicsError_fmt (e : EconomicsError) : bytes :=
  match e with
  | ZeroDenominator => str "Denominator in economic rate must not be zero"
  | SupplyCapExceeded => str "Total token supply cap exceeded"
  | InvalidFeeRate => str "Invalid fee rate or burn ratio"
  | InvalidValidatorStake => str "Validator stake must be greater than zero"
  | DuplicateValidator => str "Validator identifier appears more than once"
  end.
#[export] Instance EconomicsError_display : Display EconomicsError := EconomicsError_fmt.

Definition ChannelError_fmt (e : ChannelError) : bytes :=
  match e with
  | InvalidSignature => str "Invalid participant signature"
  | NonIncreasingSequence => str "Sequence number is not strictly increasing"
  | AllocationExceedsDeposit => str "Total allocation exceeds locked deposit"
  | ExpiredCondition => str "Condition or promise has expired"
  | MismatchedChannelId => str "Mismatched channel identifier"
  | InvalidProof => str "Invalid Merkle proof or pruned cell"
  | ChallengePeriodActive => str "Uncooperative challenge period is still active"
  | ChallengePeriodExpired => str "Challenge period has already expired"
  end.
#[export] Instance ChannelError_display : Display ChannelError := ChannelError_fmt.

Definition ExceptionKind_fmt (e : ExceptionKind) : bytes :=
  match e with
  | OutOfGas => str "OutOfGas"
  | IntegerOverflow => str "IntegerOverflow"
  | AbsentNode => str "AbsentNode"
  | MalformedCell => str "MalformedCell"
  | TypeMismatch => str "TypeMismatch"
  end.
#[export] Instance ExceptionKind_display : Display ExceptionKind := ExceptionKind_fmt.

Definition NetworkError_fmt (e : NetworkError) : bytes :=
  match e with
  | TruncatedPacket => str "Packet size is smaller than required header length"
  | AbstractAddressMismatch => str "Abstract address preimage SHA-256 hash mismatch"
  | DecryptionFailed => str "Payload decryption or integrity check failed"
  | NetInvalidSignature => str "Invalid packet digital signature"
  | ExpiredTimestamp => str "Packet timestamp is outside valid window"
  | ZeroChannelAbuse => str "Non-bootstrap payload transmitted over zero-channel"
  | MalformedRldpFrame => str "Malformed RLDP chunk or message frame"
  | PayloadDigestMismatch => str "RLDP payload SHA-256 digest mismatch"
  | RldpTimeout => str "RLDP transfer timed out before acknowledgement"
  | DhtRecordExpired => str "DHT record has expired"
  | DhtMalformedRecord => str "Malformed DHT record"
  | DhtUnknownRecordKind => str "Unknown DHT record kind"
  | DhtRpcFailed => str "DHT RPC failed"
  end.
#[export] Instance NetworkError_display : Display NetworkError := NetworkError_fmt.

(** ** The texts tell errors apart *)

#[export] Instance str_inj : Inj (=) (=) str.
Proof.
  intros s t H. by rewrite <-(String.string_of_list_byte_of_string s), <-(String.string_of_list_byte_of_string t), H.
Qed.

#[export] Instance ConsensusError_to_string_inj : Inj (=) (=) (to_string (E:=ConsensusError)).
Proof. by intros [] []; cbn [to_string ConsensusError_display ConsensusError_fmt]; intros H%str_inj. Qed.

#[export] Instance ShardingError_to_string_inj : Inj (=) (=) (to_string (E:=ShardingError)).
Proof. by intros [] []; cbn [to_string ShardingError_display ShardingError_fmt]; intros H%str_inj. Qed.

#[export] Instance EconomicsError_to_string_inj : Inj (=) (=) (to_string (E:=EconomicsError)).
Proof. by intros [] []; cbn [to_string EconomicsError_display EconomicsError_fmt]; intros H%str_inj. Qed.

#[export] Instance ChannelError_to_string_inj : Inj (=) (=) (to_string (E:=ChannelError)).
Proof. by intros [] []; cbn [to_string ChannelError_display ChannelError_fmt]; intros H%str_inj. Qed.

#[export] Instance ExceptionKind_to_string_inj : Inj (=) (=) (to_string (E:=ExceptionKind)).
Proof. by intros [] []; cbn [to_string ExceptionKind_display ExceptionKind_fmt]; intros H%str_inj. Qed.

#[export] Instance NetworkError_to_string_inj : Inj (=) (=) (to_string (E:=NetworkError)).
Proof. by intros [] []; cbn [to_string NetworkError_display NetworkError_fmt]; intros H%str_inj. Qed.

(** *** Texts with numbers *)

(** A list of items without the first byte of the separator is read back. *)
Lemma join_texts_inj (c : byte) (sep : bytes) (l l' : list bytes) :
  l ≠ [] → l' ≠ [] → Forall (Forall (.≠ c)) l → Forall (Forall (.≠ c)) l' →
  join_texts (c :: sep) l = join_texts (c :: sep) l' → l = l'.
Proof.
  intros Hne Hne' Hl. revert l' Hne'. induction Hl as [|x l Hx Hl IH]; [done|]. intros l' Hne' Hl' H.
  destruct Hl' as [|y l' Hy Hl']; [done|].
  assert (∀ (z : bytes) t, Forall (.≠ c) z → z = t ++ c :: sep → False) as Hno.
  { intros z t Hz ->. apply Forall_app in Hz as [_ Hz]. by inversion Hz. }
  destruct l as [|x2 l], l' as [|y2 l'].
  - cbn in H. by subst.
  - cbn [join_texts] in H. exfalso. subst x. cbn [app] in Hx. apply Forall_app in Hx as [_ Hx]. by inversion Hx.
  - cbn [join_texts] in H. exfalso. subst y. cbn [app] in Hy. apply Forall_app in Hy as [_ Hy]. by inversion Hy.
  - cbn [join_texts] in H. apply split_once_inj in H as [-> H]; [|done..]. apply (inj (app sep)) in H.
    f_equal. by apply IH.
Qed.

Lemma debug_bytes_inj v v' rest rest' :
  debug_bytes v ++ rest = debug_bytes v' ++ rest' → v = v' ∧ rest = rest'.
Proof.
  assert (∀ v : bytes, Forall (.≠ Byte.x5d) (join_texts (str ", ") ((λ b, decimal (byte_val b)) <$> v))) as Hno.
  { clear. induction v as [|a [|b v] IH]; cbn [fmap list_fmap join_texts]; [by constructor|by apply decimal_no|].
    apply Forall_app. split; [by apply decimal_no|]. apply Forall_app. split; [by repeat constructor|]. exact IH. }
  unfold debug_bytes. intros H. rewrite <-!(assoc_L (++)) in H. apply (inj (app _)) in H.
  apply (split_once_inj Byte.x5d) in H as [H ->]; [|apply Hno..]. split; [|done].
  assert (∀ v : bytes, Forall (Forall (.≠ Byte.x2c)) ((λ b, decimal (byte_val b)) <$> v)) as Hcomma.
  { intros w. apply Forall_fmap, Forall_forall. intros b _. by apply decimal_no. }
  assert (∀ a w, join_texts (str ", ") ((λ b, decimal (byte_val b)) <$> a :: w) ≠ []) as Hne.
  { intros a w He. assert (parse_u64 (decimal (byte_val a)) = Some (byte_val a)) as Hp.
    { apply parse_u64_decimal. pose proof (byte_val_bound a). lia. }
    destruct w; cbn [fmap list_fmap join_texts] in He; [by rewrite He in Hp|].
    apply app_nil in He as [He _]. by rewrite He in Hp. }
  destruct v as [|a v], v' as [|a' v']; [done|by destruct (Hne a' v')|by destruct (Hne a v)|].
  apply join_texts_inj in H; [|done|done|apply Hcomma..].
  assert (Inj (=) (=) (λ b, decimal (byte_val b))) as Hinj.
  { intros x y Hxy. apply (inj byte_val).
    apply decimal_inj in Hxy; [done|pose proof (byte_val_bound x)|pose proof (byte_val_bound y)]; lia. }
  by apply (list_fmap_eq_inj _ Hinj) in H.
Qed.

Lemma decimal_field_inj (a b : Z) (s t : bytes) :
  0 ≤ a < 2 ^ 64 → 0 ≤ b < 2 ^ 64 →
  decimal a ++ str " " ++ s = decimal b ++ str " " ++ t → a = b ∧ s = t.
Proof.
  intros Ha Hb H. change (decimal a ++ Byte.x20 :: s = decimal b ++ Byte.x20 :: t) in H.
  apply split_once_inj in H as [H ->]; [|by apply decimal_no..]. split; [|done]. by apply decimal_inj.
Qed.

Lemma lower_hex_digit_inj x y : 0 ≤ x < 16 → 0 ≤ y < 16 → lower_hex_digit x = lower_hex_digit y → x = y.
Proof.
  intros Hx Hy H. apply (f_equal byte_val) in H. unfold lower_hex_digit in H.
  destruct (Z.ltb_spec x 10), (Z.ltb_spec y 10); rewrite !byte_val_of, !Z.mod_small in H by lia; lia.
Qed.

Lemma lower_hex_inj n x y :
  0 ≤ x < 16 ^ Z.of_nat n → 0 ≤ y < 16 ^ Z.of_nat n → lower_hex n x = lower_hex n y → x = y.
Proof.
  revert x y. induction n as [|n IH]; intros x y Hx Hy H; [cbn in *; lia|]. cbn [lower_hex] in H.
  rewrite Nat2Z.inj_succ, Z.pow_succ_r in Hx, Hy by lia.
  apply app_inj_2 in H as [H [= Hd]]; [|done].
  apply IH in H; [|split; [apply Z.div_pos; lia|apply Z.div_lt_upper_bound; lia]..].
  apply lower_hex_digit_inj in Hd; [|apply Z.mod_pos_bound; lia..].
  rewrite (Z.div_mod x 16), (Z.div_mod y 16) by lia. congruence.
Qed.

(** The fields at their width *)
Definition primitive_fields (e : PrimitiveError) : Prop :=
  match e with
  | Truncated a b | TrailingBytes a b | LengthOutOfRange a b => in_u 64 a ∧ in_u 64 b
  | _ => True
  end.

Definition data_structure_fields (e : DataStructureError) : Prop :=
  match e with
  | Primitive e => primitive_fields e
  | ShardPrefixLengthExceeded l => in_u 8 l
  | InvalidMessageType t => in_u 8 t
  | HeaderMagicMismatch m => in_u 32 m
  | TruncatedInput a b => in_u 64 a ∧ in_u 64 b
  | DSTrailingBytes a => in_u 64 a
  | _ => True
  end.

Lemma primitive_error_text_inj e e' :
  primitive_fields e → primitive_fields e' → to_string e = to_string e' → e = e'.
Proof.
  destruct e, e'; cbn [to_string PrimitiveError_display PrimitiveError_fmt primitive_fields]; intros Hf Hf' H;
    first [discriminate H|reflexivity|idtac]; destruct Hf as [Ha Hb], Hf' as [Ha' Hb']; unfold in_u in *.
  - apply (inj (app _)) in H.
    apply (decimal_field_inj _ _ (str "bytes, got " ++ decimal actual) (str "bytes, got " ++ decimal actual0)) in H
      as [-> H]; [|done..].
    apply (inj (app _)), decimal_inj in H; [by subst|done..].
  - apply (inj (app _)) in H.
    apply (decimal_field_inj _ _ (str "of " ++ decimal actual ++ str " available bytes")
             (str "of " ++ decimal actual0 ++ str " available bytes")) in H as [-> H]; [|done..].
    apply (inj (app _)), (decimal_field_inj _ _ (str "available bytes") (str "available bytes")) in H as [-> _]; done.
  - apply (inj (app _)) in H.
    apply (decimal_field_inj _ _ (str "exceeds maximum " ++ decimal max) (str "exceeds maximum " ++ decimal max0)) in H
      as [-> H]; [|done..].
    apply (inj (app _)), decimal_inj in H; [by subst|done..].
Qed.

(** The text of an error of the data structures determines the error. *)
Theorem data_structure_error_text_inj e e' :
  data_structure_fields e → data_structure_fields e' → to_string e = to_string e' → e = e'.
Proof.
  destruct e, e'; cbn [to_string DataStructureError_display DataStructureError_fmt data_structure_fields]; intros Hf Hf' H;
    first [discriminate H|reflexivity|idtac]; unfold in_u in *.
  - apply (inj (app _)) in H. f_equal. by apply primitive_error_text_inj.
  - apply (inj (app _)) in H.
    apply (decimal_field_inj _ _ (str "exceeds maximum of 60 bits") (str "exceeds maximum of 60 bits")) in H as [-> _];
      [done|lia..].
  - apply (inj (app _)), lower_hex_inj in H; [by subst|cbn; lia..].
  - apply (inj (app _)), lower_hex_inj in H; [by subst|cbn; lia..].
  - destruct Hf as [Ha Hb], Hf' as [Ha' Hb']. apply (inj (app _)) in H.
    apply (decimal_field_inj _ _ (str "bytes, got " ++ decimal got) (str "bytes, got " ++ decimal got0)) in H
      as [-> H]; [|done..].
    apply (inj (app _)), decimal_inj in H; [by subst|done..].
  - apply (inj (app _)) in H.
    apply (decimal_field_inj _ _ (str "bytes left") (str "bytes left")) in H as [-> _]; [done|lia..].
Qed.

Lemma data_structure_error_text_inj_witness :
  ∀ e, data_structure_fields e → to_string (Primitive (Truncated 32 7)) = to_string e → Primitive (Truncated 32 7) = e.
Proof.
  intros e He H. apply (data_structure_error_text_inj (Primitive (Truncated 32 7)) e); [|exact He|exact H].
  cbn. unfold in_u. lia.
Defined.
