(* ===== verification/Tools.v ===== *)
(** [onx-cli], [lib.rs] and [main.rs], and the system contracts under
    [contracts/system]: the payloads, the wallet and the output of the command line
    client, the elector contract and the parameters of the system contracts. The
    argument parser, the mnemonic code, the hexadecimal and JSON printers are
    third-party and parameters. *)
From S2P Require Import Prelude Bytes Machine Text Primitives ToyCrypto Consensus ErrorText.

(** ** Payloads *)

Definition NUL : byte := Byte.x00.

(** [amount.to_le_bytes()] *)
Definition le_bytes (n : nat) (z : Z) : bytes := rev (be_bytes n z).

Definition serialize_boc_transfer (from to : bytes) (amount : Z) : bytes :=
  str "ONX_BOC_TRANSFER" ++ from ++ [NUL] ++ to ++ [NUL] ++ le_bytes 8 amount.

Definition balance_query (addr : bytes) : bytes := str "balance_for:" ++ addr.

Definition deploy_contract_boc (from code : bytes) : bytes :=
  str "ONX_BOC_DEPLOY" ++ from ++ [NUL] ++ code ++ [NUL].

(** Payloads are told apart by their fields, as long as the texts hold no NUL. *)
Theorem transfer_payload_inj from to amount from' to' amount' :
  NUL ∉ from → NUL ∉ to → NUL ∉ from' → NUL ∉ to' →
  0 ≤ amount < 2 ^ 64 → 0 ≤ amount' < 2 ^ 64 →
  serialize_boc_transfer from to amount = serialize_boc_transfer from' to' amount' →
  from = from' ∧ to = to' ∧ amount = amount'.
Proof.
  assert (∀ v, NUL ∉ v → Forall (.≠ NUL) v) as Hno by (intros v Hv; apply Forall_forall; by intros b Hb ->).
  intros Hf Ht Hf' Ht' Ha Ha' H. unfold serialize_boc_transfer in H. apply (inj (app _)) in H.
  apply split_once_inj in H as [-> H]; [|by apply Hno..]. apply split_once_inj in H as [-> H]; [|by apply Hno..].
  split_and!; [done..|]. apply (f_equal (@rev _)) in H. unfold le_bytes in H. rewrite !rev_involutive in H.
  apply (f_equal be_val) in H. rewrite !be_val_be_bytes in H. 
  rewrite !Z.mod_small in H by lia. done.
Qed.

Lemma transfer_payload_inj_witness :
  ∀ to, NUL ∉ to → serialize_boc_transfer (str "alice") (str "bob") 42 = serialize_boc_transfer (str "alice") to 42 →
  str "bob" = to.
Proof.
  intros to Hto H.
  refine (proj1 (proj2 (transfer_payload_inj (str "alice") (str "bob") 42 (str "alice") to 42 _ _ _ Hto _ _ H))).
  - apply (bool_decide_unpack _). by vm_compute.
  - apply (bool_decide_unpack _). by vm_compute.
  - apply (bool_decide_unpack _). by vm_compute.
  - done.
  - done.
Defined.

(** With a NUL they are not. *)
Lemma transfer_payload_ambiguous :
  serialize_boc_transfer (str "a") (str "b" ++ [NUL] ++ str "c") 1 =
  serialize_boc_transfer (str "a" ++ [NUL] ++ str "b") (str "c") 1.
Proof. reflexivity. Qed.

(** ** The wallet *)

Record MnemonicEntry : Type := { entry_words : list bytes }.

Record WalletCreateResponse : Type := { wallet : bytes; mnemonic : list bytes; public_key_hex : bytes }.

(** The commands, as the argument parser gives them *)
Inductive WalletCommand : Type := Create | Balance (address : bytes).
Inductive Command : Type :=
  | Wallet (kind : WalletCommand)
  | Transfer (from to : bytes) (amount : Z) (rpc : option bytes)
  | DeployContract (from code : bytes) (rpc : option bytes).

(** What a process prints on its two streams, and its exit code *)
Record Output : Type := { stdout : bytes; stderr : bytes; exit_code : Z }.

Definition NEWLINE : bytes := [Byte.x0a].
Definition println (v : bytes) : Output := {| stdout := v ++ NEWLINE; stderr := []; exit_code := 0 |}.
Definition fail_with (v : bytes) : Output := {| stdout := []; stderr := v ++ NEWLINE; exit_code := 1 |}.

(** [{:?}] of a string: escapes, where other than ASCII characters are kept, as
    the printable ones are *)
Definition debug_char (b : byte) : bytes :=
  let x := byte_val b in
  if x =? 0 then str "\0" else if x =? 9 then str "\t" else if x =? 10 then str "\n" else if x =? 13 then str "\r"
  else if (x =? 34) || (x =? 92) then str "\" ++ [b]
  else if x <? 16 then str "\u{" ++ lower_hex 1 x ++ str "}"
  else if (x <? 32) || (x =? 127) then str "\u{" ++ lower_hex 2 x ++ str "}"
  else [b].
Definition debug_str (v : bytes) : bytes := [Byte.x22] ++ concat (debug_char <$> v) ++ [Byte.x22].
Definition debug_strs (l : list bytes) : bytes := str "[" ++ join_texts (str ", ") (debug_str <$> l) ++ str "]".

(** [rpc.map(|r| format!(" rpc={r}")).unwrap_or_default()] *)
Definition rpc_text (rpc : option bytes) : bytes :=
  match rpc with Some r => str " rpc=" ++ r | None => [] end.

Section wallet.
Context {C : Crypto} {Mnemonic : Type}.
Context (words : Mnemonic → list bytes) (parse_in_normalized : bytes → result bytes Mnemonic)
  (to_seed : Mnemonic → bytes) (hex_encode : bytes → bytes) (to_json : WalletCreateResponse → result bytes bytes).

(** [generated]: the answer of [Mnemonic::generate] *)
Definition mnemonic_words (generated : result bytes Mnemonic) : result bytes (list bytes) :=
  let? m := generated in Ok (words m).

Definition generate_mnemonic (generated : result bytes Mnemonic) : result bytes MnemonicEntry :=
  let? ws := mnemonic_words generated in Ok {| entry_words := ws |}.

Definition derive_ed25519_key_from_mnemonic (ws : list bytes) : result bytes SigningKey :=
  let phrase := join_texts (str " ") ws in
  let? m := parse_in_normalized phrase in
  let? key := slice (to_seed m) 0 32 in
  map_err to_string (SecretKey_from_seed key).

(** [create_dir], [write]: the errors of the file system, if any, and what was
    written to [wallet.json] last. The response, and the text of the file. *)
Definition wallet_create (generated : result bytes Mnemonic) (create_dir write : option bytes) :
    result bytes (bytes * WalletCreateResponse) :=
  let? entry := generate_mnemonic generated in
  let ws := entry_words entry in
  let? secret := derive_ed25519_key_from_mnemonic ws in
  let pub_hex := hex_encode (PublicKey_encode (SecretKey_public_key secret)) in
  let response := {| wallet := str "wallet-000"; mnemonic := ws; public_key_hex := pub_hex |} in
  match create_dir with
  | Some e => Err e
  | None =>
      let? json := to_json response in
      match write with Some e => Err e | None => Ok (json, response) end
  end.

(** [main], on the parsed command. An abort of [wallet_create] exits with 101. *)
Definition onx_cli_main (generated : result bytes Mnemonic) (create_dir write : option bytes) (command : Command) : Output :=
  match command with
  | Wallet Create =>
      match wallet_create generated create_dir write with
      | Ok (_, out) =>
          println (str "wallet=" ++ wallet out ++ str " mnemonic=" ++ debug_strs (mnemonic out) ++
                   str " public_key=" ++ public_key_hex out)
      | Err err => fail_with (str "wallet create failed: " ++ err)
      | Panic => {| stdout := []; stderr := []; exit_code := 101 |}
      end
  | Wallet (Balance address) => println (balance_query address)
  | Transfer from to amount rpc => println (str "boc=" ++ debug_bytes (serialize_boc_transfer from to amount) ++ rpc_text rpc)
  | DeployContract from code rpc => println (str "boc=" ++ debug_bytes (deploy_contract_boc from code) ++ rpc_text rpc)
  end.

(** The words of a wallet give its key pair back. *)
Lemma wallet_recovers generated create_dir write json response :
  wallet_create generated create_dir write = Ok (json, response) →
  to_json response = Ok json ∧
  ∃ secret, derive_ed25519_key_from_mnemonic (mnemonic response) = Ok secret ∧
    public_key_hex response = hex_encode (PublicKey_encode (SecretKey_public_key secret)).
Proof.
  unfold wallet_create. intros (m & _ & H)%rbind_Ok. apply rbind_Ok in H as (secret & Hd & H).
  destruct create_dir; [done|]. apply rbind_Ok in H as (j & Hj & H).
  destruct write; [done|]. injection H as <- <-. split; [done|]. by exists secret.
Qed.

Lemma rpc_text_inj rpc rpc' : rpc_text rpc ++ NEWLINE = rpc_text rpc' ++ NEWLINE → rpc = rpc'.
Proof.
  intros H. apply (inj (λ v, v ++ NEWLINE)) in H. destruct rpc as [r|], rpc' as [r'|]; cbn in H; by simplify_eq.
Qed.

(** What a transfer prints determines it, unless a name holds a NUL. *)
Theorem transfer_output_inj generated create_dir write from to amount rpc from' to' amount' rpc' :
  NUL ∉ from → NUL ∉ to → NUL ∉ from' → NUL ∉ to' → 0 ≤ amount < 2 ^ 64 → 0 ≤ amount' < 2 ^ 64 →
  onx_cli_main generated create_dir write (Transfer from to amount rpc) =
  onx_cli_main generated create_dir write (Transfer from' to' amount' rpc') →
  from = from' ∧ to = to' ∧ amount = amount' ∧ rpc = rpc'.
Proof.
  intros Hf Ht Hf' Ht' Ha Ha' H. cbn [onx_cli_main] in H. apply (f_equal stdout) in H. cbn [println stdout] in H. rewrite <-!(assoc_L (++)) in H.
  apply (inj (app _)), debug_bytes_inj in H as [H Hrpc]. apply rpc_text_inj in Hrpc.
  by apply transfer_payload_inj in H as (-> & -> & ->).
Qed.

(** The client fails only where the wallet cannot be made. *)
Lemma onx_cli_main_exit generated create_dir write command :
  exit_code (onx_cli_main generated create_dir write command) ≠ 0 ↔
  command = Wallet Create ∧ is_ok (wallet_create generated create_dir write) = false.
Proof.
  destruct command as [[|a]|f t am r|f c r]; cbn [onx_cli_main]; [|naive_solver..].
  destruct (wallet_create _ _ _) as [[j o]|e|]; cbn; naive_solver.
Qed.
End wallet.

Lemma transfer_output_inj_witness :
  ∀ rpc, onx_cli_main (C:=toy_crypto) (λ m : unit, []) (λ _, Err []) (λ _, []) (λ v, v) (λ _, Err []) (Err []) None None
           (Transfer (str "alice") (str "bob") 42 None) =
         onx_cli_main (C:=toy_crypto) (λ m : unit, []) (λ _, Err []) (λ _, []) (λ v, v) (λ _, Err []) (Err []) None None
           (Transfer (str "alice") (str "bob") 42 rpc) → None = rpc.
Proof.
  intros rpc H. apply transfer_output_inj in H as (_ & _ & _ & H); [exact H|..].
  1-4: apply (bool_decide_unpack _); by vm_compute.
  all: lia.
Defined.

(** ** The system contracts *)

Record ConfigParameters : Type := { gas_per_cell : Z; consensus_timeout_ms : Z; system_validator_cap : Z }.
Definition ConfigParameters_default : ConfigParameters :=
  {| gas_per_cell := 1000; consensus_timeout_ms := 1000; system_validator_cap := 100 |}.

Record StorageRootConfig : Type := { workchain_id : Z; root_shard_prefix : bytes; gas_rate : Z }.
Definition StorageRootConfig_default : StorageRootConfig :=
  {| workchain_id := 0; root_shard_prefix := str "0x8000_0000_0000_0000"; gas_rate := 1000 |}.

Section elector.
Context {C : Crypto} (hex_encode : bytes → bytes).

Record ValidatorSetEntryStub : Type := { stub_validator_id : Z; stub_public_key_hex : bytes; stub_actual_stake : Z }.

Definition stub (v : ValidatorSetEntry) : ValidatorSetEntryStub :=
  {| stub_validator_id := validator_id v; stub_public_key_hex := hex_encode (PublicKey_encode (public_key v));
     stub_actual_stake := actual_stake v |}.

Definition run_elector_contract (candidates : list CandidateValidatorSpec) :
    result ConsensusError (list ValidatorSetEntryStub) :=
  let? r := run_election candidates ElectionConfig_default in Ok (stub <$> validators r).
End elector.
